(* ===== verification/_CoqProject ===== *)
-Q . S2P
Prelude.v
Emulators.v
TextTerminal.v
Fragment.v
Message.v
Crypto.v
State.v
Session.v
Runtime.v
Ssp.v
Uplink.v
Arrival.v
Downlink.v
Utf8.v
Predict.v
Decimal.v
TitleFilter.v
Input.v
Modes.v
Guard.v
Cli.v
Diagnostics.v
Client.v
ClientSafety.v
Typing.v
SessionEnd.v
Drawing.v
Main.v
Hosting.v
Lab.v
Reference.v
Scenarios.v
ClientScenarios.v
HostingScenarios.v
Conformance.v
PaperTerminal.v
FragmentTests.v
MessageTests.v
CryptoTests.v
PredictTests.v
StateTests.v
TerminalTests.v
ClientTests.v
SessionTests.v
RuntimeTests.v
LabTests.v
