(* ===== verification/Prelude.v ===== *)
(** * FerrumTTY: a verification library (root file)

    FerrumTTY is a Mosh client written in Rust: it keeps a terminal session with a remote
    [mosh-server] over UDP datagrams that may be lost, duplicated, reordered or forged. This
    library translates its crates to Rocq definitions, function by function, and proves what
    makes them correct. The definitions keep the names of the source; each is executable.

    ** The program and the files that model it

    From the network to the user, every layer calls the one above it in this list:

    - [crates/ferrumtty-wire]: Fragment.v (the fragment header, splitting, reassembly:
      [src/fragment.rs]) and Message.v (the protobuf messages, the validating pre-pass and
      the compressed envelope: [src/message.rs]).
    - [crates/ferrumtty-crypto]: Crypto.v (session key, packet numbers, [seal_next] and
      [open] of the secure channel).
    - [crates/ferrumtty-state]: State.v (the history of a remote terminal, [apply],
      [diff_from], [clone], compaction, the screen-diff audit).
    - [crates/ferrumtty-session]: Session.v (the replay window; the client protocol: sent
      states and their acknowledgement, [ingest_packet], the packet builders).
    - [crates/ferrumtty-runtime]: Runtime.v (the timer-driven runtime a host calls: input
      queue, [poll], [receive_datagram], round-trip estimate, shutdown, suspension).
    - The protocol as a whole, over the layers up to the runtime: Ssp.v (the specification of
      state synchronisation: the states a receiver can build, in whatever order messages
      arrive), Uplink.v (the sending protocol is a sender of that specification), Arrival.v
      (with the queue and the timers of the runtime: from the user to the server) and
      Downlink.v (from the server to the screen).
    - [crates/ferrumtty-predict]: Predict.v (the local echo overlay), over Utf8.v and
      Decimal.v (what the program uses of the Rust standard library on text and numbers).
    - [crates/ferrumtty-terminal]: TitleFilter.v (title controls in the server's output),
      Input.v (the command prefix, keys, mouse, paste and focus), Modes.v (the modes of the
      remote terminal) and Guard.v (the local terminal: entering, suspending, restoring).
    - [crates/ferrumtty-client]: Cli.v ([src/cli.rs]), Diagnostics.v ([src/diagnostics.rs]),
      Client.v (the event loop of [src/main.rs]) and Main.v (the process around it), with
      the theorems about the composition in ClientSafety.v, Typing.v, SessionEnd.v,
      Drawing.v and Hosting.v (a whole session of the client as calls on its runtime).
    - [crates/ferrumtty-lab]: Lab.v (the developer probes and the smoke test), which uses the
      layers up to the session.

    This file holds what they share: the monads, records with named updates, machine
    integers, byte strings, lists, and the tactics. Emulators.v states the interfaces of the
    two libraries that read terminal output. Reference.v, TextTerminal.v and PaperTerminal.v
    implement the interfaces of all libraries by small executable functions that satisfy the
    laws, and Scenarios.v, ClientScenarios.v and HostingScenarios.v run the program on them:
    they hold the witnesses of the theorems and the Examples of the behaviours reported in
    the manifest.

    ** The unit tests

    The unit tests of the crates are definitions too, in FragmentTests.v, MessageTests.v,
    CryptoTests.v, StateTests.v, SessionTests.v, RuntimeTests.v, PredictTests.v,
    TerminalTests.v, ClientTests.v and LabTests.v, with the vocabulary of Conformance.v: a
    test is an [option unit], a failed assertion is [None], and an Example evaluates the
    tests of the file on the instances above. They tie the translation to the behaviour
    the authors of the program checked.

    ** How the code is modelled

    A [&mut self] method is a computation of the monad [M S E A], state to state and outcome,
    so that what it changed before an error stays changed, as in Rust. An [outcome] is [Ok],
    [Err] or [Panic]: a failed [expect], a slice out of range, an overflow of a checked
    operation, a print of the client whose write fails and an argument that is not Unicode are
    [Panic], and that the first three never happen is a theorem. A [u64] is a [Z] with its wrapping,
    checked or saturating operation written out; a [HashMap] or [BTreeMap] is a [gmap]; bytes
    are lists of [Z] below 256. Shared immutable data ([Arc] nodes of a history) is its value.

    The client's environment is explicit. A terminal ([Guard.tty]) holds which of its
    operations will fail and records those attempted; a standard stream
    ([Diagnostics.stream]) holds which prints will fail and the lines printed; a client
    ([Client.Client]) holds the datagrams, input events, clock readings, signals and failures
    that the operating system has in store, where the answers that nothing is ready
    ([WouldBlock], [NotReady]) separate what arrives in one iteration of the loop from what
    arrives later; a process ([Main.os]) adds the command line, the environment variables,
    the addresses and the console. The theorems quantify over all of it.

    ** Libraries

    Code outside the repository is a class, with the documented behaviour the theorems use as
    laws: [Aead] and [Base64] (Crypto.v), [Prost] and [Zlib] (Message.v), [Vt100] and [Vte]
    (Emulators.v). The laws are, in turn: decryption inverts encryption, accepts nothing else
    and returns bytes; proto3 decoding reads what encoding wrote, of the declared fields, and
    decoded values are of their types and no longer than the message; decompression inverts
    compression within its limit; both parsers of terminal output are streaming.

    ** What the theorems show

    - Wire: fragments and their reassembly in any order with any duplication within the
      bounds ([reassembles_in_any_order], [accumulator_bounded]), both directions of the
      encodings, and that the pre-pass over hostile bytes never panics.
    - Crypto: no nonce is used twice under a key, sealed packets open at the peer only, and
      only packets of the peer open.
    - State: applying a diff gives the target state; [apply] is transactional; a clone is
      exact; the audit decides what it means to decide.
    - Session: sent states refine a log of unacknowledged states; the replay window accepts a
      counter exactly once; hostile packets leave the protocol within its bounds; an update
      that is built reaches a server of the same key; what is delivered is a diff.
    - Runtime: an invariant under every host call; the timer is exact; shutdown ends within
      ten seconds of its start and last transmission; a stopped runtime sends nothing.
    - Both directions end to end, for any calls of the host and any network: what the user
      typed is what the server can hold, each instruction once and in order, and one
      retransmission completes it ([typed_input_arrives_once], where the datagrams are
      [sealed_as] the messages they carry: they open for the server to exactly the fragments
      of the compressed updates); what a server with growing
      output wrote is what was shown, and a newer state on a base held is shown at once
      ([server_output_shown_once]).
    - The client as a whole, for any run of its event loop in any environment: every call on
      the runtime is accounted for, so that what its terminal forwarded reaches the server
      ([session_input_reaches_server]) and what its terminal was given to show is what the
      server wrote ([session_shows_server_output]).
    - Predict: the local reconciliation, read as a terminal reads it, gives back the whole
      screen and the cursor, within 1024 cells.
    - Terminal: the title filter implements its token specification, and so does the command
      prefix, whose every action is the one of a token typed; encodings of keys and mouse
      events are unambiguous; the remote modes are the last settings; whatever operations
      fail, the clean-up goes through all its groups, and raw mode outlives the guard only
      when the terminal refused the last attempt to disable it.
    - Client: the command line is decided by its grammar, what it accepts and what it
      refuses; draining the network and the local
      terminal refine specifications without effects ([network_drained],
      [typed_input_is_queued]); an overdue shutdown ends the loop; and the whole process
      gives the terminal back however it ends, and panics only where a print fails or an
      argument is not Unicode ([process_ends_clean]).
    - Lab: the probe's parser of protobuf agrees with the program's, the text formats are read
      back, and the smoke test receives at most forty times.

    Refinement is by invariant and specification function: [wf_protocol], [wf_runtime] and
    [wf_terminal] relate the states of the code to what they stand for, each operation has a
    [_spec] or [_wf] lemma, and reachability ([protocol_reach], [runtime_reach]) is by the
    operations a host can call. [uses] (ClientSafety.v), [runs] (Typing.v), [late]
    (SessionEnd.v), [hosts] (Hosting.v) and [holds] (Guard.v) are small calculi for one
    composition each.

    ** Bounds and fuel

    The loops of the pre-pass over an encoded message take its length as fuel; each round
    takes at least a byte, and running out would be [Panic], which [validation_total]
    excludes. [encode_varint], a reference function, needs at most ten rounds for 64 bits.
    The event loop is the only loop of the program that need not end: [iterations fuel] makes
    at most [fuel] rounds and answers [None] when the loop goes on; a theorem for every fuel
    speaks of every finite run. The parsers of Reference.v take the length of their input.

    ** Not modelled

    - The Windows variants of [suspend_client], of the signal set-up and of raw mode; the
      model is the Unix program. [enable_utf8_input_mode] is one operation of the terminal.
    - Name resolution, sockets and signals beyond their answers; which bytes of a line a
      failing print still wrote, and the message of a panic; a failing print of the developer
      probes of Lab.v; the formatting of errors of
      other crates (parameters of [show_error]); erasing keys from memory ([zeroize]), which
      changes no value the program reads afterwards.
    - The [Debug] output of types that hide nothing.
    - Two unit tests: the RFC 7253 vector, which tests the OCB library, and the compaction of
      seventeen mebibytes of output, which needs an emulator whose screen is of bounded size.
    - The server. [server_output_shown_once] takes one whose states grow by appending, within
      the history limits; where two states diverge the client falls back on a diff of screens,
      whose audit [screen_diff_audit_decides] describes. That such a diff restores a real
      terminal is the affair of vt100, about which no law is assumed. *)
From Stdlib Require Export ZArith Lia.
From stdpp Require Export base tactics numbers option list gmap strings pretty.

Local Open Scope Z_scope.

(** ** Fallible computations

    [outcome E A] is Rust's [Result<A, E>] with one more constructor for a
    panic (a failed [expect], an out-of-range slice, an arithmetic overflow),
    so that panic freedom is a statement and not an assumption. *)
Inductive outcome (E A : Type) : Type :=
| Ok (a : A)
| Err (e : E)
| Panic.
Arguments Ok {E A} _.
Arguments Err {E A} _.
Arguments Panic {E A}.

Declare Scope rust_scope.
Delimit Scope rust_scope with rust.

Definition bind_ok {E A B} (m : outcome E A) (k : A → outcome E B) : outcome E B :=
  match m with
  | Ok a => k a
  | Err e => Err e
  | Panic => Panic
  end.

(** [m.map_err(f)]. *)
Definition map_err {E F A} (f : E → F) (m : outcome E A) : outcome F A :=
  match m with
  | Ok a => Ok a
  | Err e => Err (f e)
  | Panic => Panic
  end.

(** [o.ok_or(e)]. *)
Definition ok_or {E A} (e : E) (o : option A) : outcome E A :=
  match o with
  | Some a => Ok a
  | None => Err e
  end.

(** [o.expect(..)]. *)
Definition expect {E A} (o : option A) : outcome E A :=
  match o with
  | Some a => Ok a
  | None => Panic
  end.

Definition is_ok {E A} (m : outcome E A) : bool :=
  match m with Ok _ => true | _ => false end.

Notation "'let?' x ':=' m 'in' k" := (bind_ok m (λ x, k))
  (at level 10, x pattern, m at level 100, k at level 200) : rust_scope.

#[global] Open Scope rust_scope.

Lemma bind_ok_Ok {E A B} (m : outcome E A) (k : A → outcome E B) b :
  bind_ok m k = Ok b ↔ ∃ a, m = Ok a ∧ k a = Ok b.
Proof. destruct m; simpl; naive_solver. Qed.

Lemma Ok_inj {E A} (a b : A) : Ok (E:=E) a = Ok b → a = b.
Proof. congruence. Qed.

Lemma map_err_Ok {E F A} (f : E → F) (m : outcome E A) a :
  map_err f m = Ok a ↔ m = Ok a.
Proof. destruct m; simpl; naive_solver. Qed.

Lemma ok_or_Ok {E A} (e : E) (o : option A) a : ok_or e o = Ok a ↔ o = Some a.
Proof. destruct o; simpl; naive_solver. Qed.

#[global] Instance outcome_eq_dec {E A} `{EqDecision E, EqDecision A} :
  EqDecision (outcome E A).
Proof. intros x y. unfold Decision. decide equality; apply decide; apply _. Defined.

(** ** Operations on [&mut self]

    [M S E A] threads the state [S] and keeps the changes made before an error,
    as a Rust method on [&mut self] does. *)
Definition M (S E A : Type) : Type := S → S * outcome E A.

Section monad.
Context {S E : Type}.

Definition retM {A} (a : A) : M S E A := λ s, (s, Ok a).
Definition errM {A} (e : E) : M S E A := λ s, (s, Err e).
Definition liftM {A} (m : outcome E A) : M S E A := λ s, (s, m).
Definition getM : M S E S := λ s, (s, Ok s).
Definition modM (f : S → S) : M S E unit := λ s, (f s, Ok tt).
Definition bindM {A B} (m : M S E A) (k : A → M S E B) : M S E B :=
  λ s, match m s with
       | (s', Ok a) => k a s'
       | (s', Err e) => (s', Err e)
       | (s', Panic) => (s', Panic)
       end.
End monad.

(** Running an operation of a component stored in a field, its errors wrapped. *)
Definition zoomM {S T E F A} (get : S → T) (set : T → S → S) (wrap : F → E)
    (m : M T F A) : M S E A :=
  λ s, let '(t, r) := m (get s) in (set t s, map_err wrap r).

Notation "'let!' x ':=' m 'in' k" := (bindM m (λ x, k))
  (at level 10, x pattern, m at level 100, k at level 200) : rust_scope.
Notation "m ;! k" := (bindM m (λ _, k))
  (at level 199, right associativity) : rust_scope.

(** *** Specifications of stateful operations

    [triple P m Q]: from a state in [P], the outcome and the final state of
    [m] satisfy [Q], whatever the outcome is. *)
Definition triple {S E A} (P : S → Prop) (m : M S E A)
    (Q : outcome E A → S → Prop) : Prop :=
  ∀ s, P s → Q (snd (m s)) (fst (m s)).

(** [m] keeps the invariant [I] on every path, errors included, and does not
    panic from a state in [I]. *)
Definition safe {S E A} (I : S → Prop) (m : M S E A) : Prop :=
  triple I m (λ r s, I s ∧ r ≠ Panic).

Section triples.
Context {S E : Type}.
Implicit Types I P : S → Prop.

Lemma triple_bind {A B} P (m : M S E A) (k : A → M S E B) (R : outcome E A → S → Prop)
    (Q : outcome E B → S → Prop) :
  triple P m R →
  (∀ a, triple (R (Ok a)) (k a) Q) →
  (∀ s e, R (Err e) s → Q (Err e) s) →
  (∀ s, R Panic s → Q Panic s) →
  triple P (bindM m k) Q.
Proof.
  intros Hm Hk He Hp s Hs. unfold bindM. specialize (Hm s Hs).
  destruct (m s) as [s' [a|e|]]; simpl in *; auto. apply (Hk a s' Hm).
Qed.

Lemma triple_conseq {A} P P' (m : M S E A) (Q Q' : outcome E A → S → Prop) :
  triple P' m Q' → (∀ s, P s → P' s) → (∀ r s, Q' r s → Q r s) → triple P m Q.
Proof. intros H HP HQ s Hs. apply HQ, H, HP, Hs. Qed.

Lemma safe_ret {A} I (a : A) : safe (E:=E) I (retM a).
Proof. intros s Hs. split; [exact Hs | discriminate]. Qed.

Lemma safe_err {A} I (e : E) : safe (A:=A) I (errM e).
Proof. intros s Hs. split; [exact Hs | discriminate]. Qed.

Lemma safe_lift {A} I (m : outcome E A) : m ≠ Panic → safe I (liftM m).
Proof. intros Hm s Hs. split; [exact Hs | exact Hm]. Qed.

Lemma safe_mod I (f : S → S) : (∀ s, I s → I (f s)) → safe (E:=E) I (modM f).
Proof. intros Hf s Hs. split; [apply Hf, Hs | discriminate]. Qed.

Lemma safe_get I : safe (E:=E) I getM.
Proof. intros s Hs. split; [exact Hs | discriminate]. Qed.

Lemma safe_bind {A B} I (m : M S E A) (k : A → M S E B) :
  safe I m → (∀ a, safe I (k a)) → safe I (bindM m k).
Proof.
  intros Hm Hk. eapply triple_bind; [exact Hm | | |]; simpl; intros;
    try (split; [tauto | discriminate]); [|tauto].
  intros s [Hs _]. apply (Hk a s Hs).
Qed.

Lemma safe_if {A} I (b : bool) (m1 m2 : M S E A) :
  safe I m1 → safe I m2 → safe I (if b then m1 else m2).
Proof. destruct b; auto. Qed.
End triples.

(** [m] keeps [P], whatever it returns. *)
Definition keeps {S E A} (P : S → Prop) (m : M S E A) : Prop := ∀ s, P s → P (fst (m s)).

Section keeping.
Context {S E : Type}.
Implicit Types P : S → Prop.

Lemma keeps_bind {A B} P (m : M S E A) (k : A → M S E B) :
  keeps P m → (∀ a, keeps P (k a)) → keeps P (bindM m k).
Proof.
  intros Hm Hk s HP. specialize (Hm s HP). unfold bindM.
  destruct (m s) as [s' [a|e|]]; [|done|done]. by apply Hk.
Qed.

Lemma keeps_mod P (f : S → S) : (∀ s, P s → P (f s)) → keeps (E:=E) P (modM f).
Proof. intros Hf s. apply Hf. Qed.

Lemma keeps_pure {A} P (m : M S E A) : (∀ s, fst (m s) = s) → keeps P m.
Proof. intros Hm s. by rewrite Hm. Qed.

Lemma keeps_if {A} P (b : bool) (m1 m2 : M S E A) : keeps P m1 → keeps P m2 → keeps P (if b then m1 else m2).
Proof. by destruct b. Qed.
End keeping.

Lemma keeps_zoom {S T E F A} P (get : S → T) (set : T → S → S) (wrap : F → E) (m : M T F A) :
  (∀ s t, P s → P (set t s)) → keeps P (zoomM get set wrap m).
Proof. intros Hs s HP. unfold zoomM. destruct (m (get s)) as [t r]. by apply Hs. Qed.

(** Follows the structure of an operation; [tac] shows that its changes keep [P]. *)
Ltac keeping tac :=
  repeat first
    [ apply keeps_bind; [|intros ?]
    | apply keeps_if
    | by apply keeps_pure
    | apply keeps_zoom; by tac
    | apply keeps_mod; by tac
    | match goal with |- keeps _ (match ?x with _ => _ end) => destruct x end ].

(** What [m] returns when it succeeds is in [Q], from any state. *)
Definition returns {S E A} (Q : A → Prop) (m : M S E A) : Prop := ∀ s a, snd (m s) = Ok a → Q a.

Section returning.
Context {S E : Type}.

Lemma returns_ret {A} (Q : A → Prop) a : Q a → returns (S:=S) (E:=E) Q (retM a).
Proof. intros Ha s a'. simpl. by intros [= <-]. Qed.

Lemma returns_any {A} (m : M S E A) : returns (λ _, True) m.
Proof. done. Qed.

Lemma returns_bind {A B} (P : A → Prop) (Q : B → Prop) (m : M S E A) (k : A → M S E B) :
  returns P m → (∀ a, P a → returns Q (k a)) → returns Q (bindM m k).
Proof.
  intros Hm Hk s b. unfold bindM. destruct (m s) as [s' [a|e|]] eqn:Ha; [|done|done].
  apply Hk, (Hm s). by rewrite Ha.
Qed.

Lemma returns_then {A B} (Q : B → Prop) (m : M S E A) (k : A → M S E B) :
  (∀ a, returns Q (k a)) → returns Q (bindM m k).
Proof. intros Hk. apply (returns_bind (λ _, True)); [apply returns_any|auto]. Qed.

Lemma returns_if {A} (Q : A → Prop) (b : bool) (m1 m2 : M S E A) :
  returns Q m1 → returns Q m2 → returns Q (if b then m1 else m2).
Proof. by destruct b. Qed.
End returning.

Lemma bindM_Ok {S E A B} (m : M S E A) (k : A → M S E B) s s' b :
  bindM m k s = (s', Ok b) ↔ ∃ s1 a, m s = (s1, Ok a) ∧ k a s1 = (s', Ok b).
Proof.
  unfold bindM. split.
  - destruct (m s) as [s1 [a|e|]]; intros H; [eauto | congruence | congruence].
  - intros (s1 & a & -> & H). exact H.
Qed.

Section monad_equations.
Context {S E : Type}.

Lemma bindM_get {B} (k : S → M S E B) s : bindM getM k s = k s s.
Proof. done. Qed.

Lemma bindM_mod {B} (f : S → S) (k : unit → M S E B) s :
  bindM (modM f) k s = k tt (f s).
Proof. done. Qed.

Lemma bindM_ret {A B} (a : A) (k : A → M S E B) s : bindM (retM a) k s = k a s.
Proof. done. Qed.

Lemma bindM_err {A B} (e : E) (k : A → M S E B) s : bindM (errM e) k s = (s, Err e).
Proof. done. Qed.

Lemma bindM_assoc {A B C} (m : M S E A) (k : A → M S E B) (h : B → M S E C) s :
  bindM (bindM m k) h s = bindM m (λ a, bindM (k a) h) s.
Proof. unfold bindM. by destruct (m s) as [? []]. Qed.
End monad_equations.

Create Rewrite HintDb monad.
#[export] Hint Rewrite @bindM_get @bindM_mod @bindM_ret @bindM_err @bindM_assoc : monad.

(** Run the operations of the monad at the head of the goal. *)
Ltac run_monad := autorewrite with monad; simpl.

Create HintDb safe.
#[export] Hint Resolve safe_ret safe_err safe_get safe_bind safe_if : safe.

(** [iter.collect::<Result<Vec<_>, _>>()]: stops at the first error. *)
Fixpoint collect {E A} (l : list (outcome E A)) : outcome E (list A) :=
  match l with
  | [] => Ok []
  | m :: l => let? a := m in let? r := collect l in Ok (a :: r)
  end.

Lemma collect_Ok {E A} (l : list (outcome E A)) r :
  collect l = Ok r ↔ l = Ok <$> r.
Proof.
  revert r. induction l as [|m l IH]; intros r; simpl.
  - destruct r; simpl; naive_solver.
  - split.
    + intros H. apply bind_ok_Ok in H as (a & -> & H).
      apply bind_ok_Ok in H as (r' & H & [= <-]). simpl. f_equal. by apply IH.
    + intros H. destruct r as [|a r]; [done|]. simpl in H. injection H as -> ->.
      simpl. rewrite (proj2 (IH r) eq_refl). done.
Qed.

(** ** Record fields

    [s <| f := v |>] is Rust's assignment [s.f = v]. A record gives its eta
    expansion once; the update of each field is derived from it. *)
Class Eta (R : Type) := eta : R → R.
Class Update {R A : Type} (proj : R → A) := update : (A → A) → R → R.
Arguments update {R A} proj {_} _ _ / : simpl nomatch.

Ltac solve_update :=
  match goal with
  | |- @Update ?R ?A ?proj =>
      let e := eval hnf in (_ : Eta R) in
      let t := constr:(λ (f : A → A) (s : R),
        ltac:(let body := eval cbv beta in (e s) in
              match eval pattern (proj s) in body with
              | ?h _ => let r := eval cbv beta in (h (f (proj s))) in exact r
              end)) in
      exact t
  end.

Notation "s <| p := v |>" := (update p (λ _, v) s)
  (at level 1, left associativity, p at level 9) : rust_scope.
Notation "s <| p ::= f |>" := (update p f s)
  (at level 1, left associativity, p at level 9) : rust_scope.

(** ** Options and slices *)

(** [o.is_some_and(p)]. *)
Definition is_some_and {A} (p : A → bool) (o : option A) : bool :=
  match o with Some a => p a | None => false end.

Definition is_some {A} (o : option A) : bool :=
  match o with Some _ => true | None => false end.

#[export] Instance option_forall_dec {A} (o : option A) (P : A → Prop) `{∀ a, Decision (P a)} :
  Decision (∀ a, o = Some a → P a).
Proof.
  refine (match o with Some a => cast_if (decide (P a)) | None => left _ end);
    [naive_solver | naive_solver | done].
Defined.

(** A decidable statement about closed terms. *)
Ltac decide_closed := apply (bool_decide_unpack _); vm_compute; exact I.

(** ** Machine integers

    An unsigned integer of [w] bits is a [Z] in [0, 2^w). *)
Definition u8_max : Z := 2 ^ 8 - 1.
Definition u16_max : Z := 2 ^ 16 - 1.
Definition u32_max : Z := 2 ^ 32 - 1.
Definition u64_max : Z := 2 ^ 64 - 1.
Definition usize_max : Z := 2 ^ 64 - 1.

Definition fits (w : Z) (z : Z) : Prop := 0 ≤ z < 2 ^ w.
Definition fitsb (w : Z) (z : Z) : bool := (0 <=? z) && (z <? 2 ^ w).

Lemma fitsb_spec w z : fitsb w z = true ↔ fits w z.
Proof. unfold fitsb, fits. rewrite andb_true_iff, Z.leb_le, Z.ltb_lt. lia. Qed.

#[global] Instance fits_dec w z : Decision (fits w z).
Proof. unfold fits. apply _. Defined.

(** [u<w>::try_from(z)]. *)
Definition try_into (w : Z) (z : Z) : option Z := if fitsb w z then Some z else None.

Definition checked_add (w a b : Z) : option Z :=
  if a + b <? 2 ^ w then Some (a + b) else None.
Definition checked_sub (a b : Z) : option Z := if b <=? a then Some (a - b) else None.
Definition saturating_add (w a b : Z) : Z := Z.min (a + b) (2 ^ w - 1).
Definition saturating_mul (w a b : Z) : Z := Z.min (a * b) (2 ^ w - 1).
Definition saturating_sub (a b : Z) : Z := Z.max 0 (a - b).
Definition wrapping_sub (w a b : Z) : Z := (a - b) mod 2 ^ w.
Definition abs_diff (a b : Z) : Z := Z.abs (a - b).
Definition clamp (lo hi a : Z) : Z := Z.max lo (Z.min a hi).

(** [l.len()]. *)
Definition len {A} (l : list A) : Z := Z.of_nat (length l).

Lemma len_nonneg {A} (l : list A) : 0 ≤ len l.
Proof. unfold len. lia. Qed.

Lemma len_app {A} (l k : list A) : len (l ++ k) = len l + len k.
Proof. unfold len. rewrite length_app. lia. Qed.

Lemma len_cons {A} (x : A) l : len (x :: l) = 1 + len l.
Proof. unfold len. simpl. lia. Qed.

Lemma len_nil {A} : len (@nil A) = 0.
Proof. reflexivity. Qed.

Lemma len_zero {A} (l : list A) : len l = 0 ↔ l = [].
Proof. unfold len. destruct l; simpl; split; intros; (discriminate || lia || auto). Qed.

Create Rewrite HintDb len.
#[export] Hint Rewrite @len_app @len_cons @len_nil : len.

(** [slice.get(..n)] and [slice.get(n..)]. *)
Definition get_to {A} (n : Z) (l : list A) : option (list A) :=
  if n <=? len l then Some (take (Z.to_nat n) l) else None.
Definition get_from {A} (n : Z) (l : list A) : option (list A) :=
  if n <=? len l then Some (drop (Z.to_nat n) l) else None.

(** [&slice[n..]], which panics out of range. *)
Definition slice_from {E A} (n : Z) (l : list A) : outcome E (list A) :=
  if (0 <=? n) && (n <=? len l) then Ok (drop (Z.to_nat n) l) else Panic.

(** [a << n] at width [w]. *)
Definition shl (w a n : Z) : Z := (Z.shiftl a n) mod 2 ^ w.

(** [for x in l { f(x)?; }]. *)
Fixpoint for_each {E A} (f : A → outcome E unit) (l : list A) : outcome E unit :=
  match l with
  | [] => Ok tt
  | x :: l => let? _ := f x in for_each f l
  end.

(** ** Bytes *)
Abbreviation bytes := (list Z).
Definition is_byte (b : Z) : Prop := fits 8 b.

(** [z.to_be_bytes()] for an [n]-byte integer. *)
Fixpoint to_be (n : nat) (z : Z) : bytes :=
  match n with
  | O => []
  | S n => to_be n (z / 256) ++ [z mod 256]
  end.

(** [from_be_bytes]. *)
Definition from_be (l : bytes) : Z := fold_left (λ acc b, acc * 256 + b) l 0.

Lemma length_to_be n z : length (to_be n z) = n.
Proof. revert z. induction n; intros z; simpl; [done|]. rewrite length_app, IHn. simpl. lia. Qed.

Lemma from_be_snoc l b : from_be (l ++ [b]) = from_be l * 256 + b.
Proof. unfold from_be. rewrite fold_left_app. done. Qed.

Lemma from_be_to_be n z : 0 ≤ z < 256 ^ Z.of_nat n → from_be (to_be n z) = z.
Proof.
  revert z. induction n as [|n IH]; intros z Hz.
  - simpl in *. change (256 ^ Z.of_nat 0) with 1 in Hz. unfold from_be. simpl. lia.
  - simpl. rewrite from_be_snoc, IH.
    + pose proof (Z.div_mod z 256). lia.
    + rewrite Nat2Z.inj_succ, Z.pow_succ_r in Hz by lia. split.
      * apply Z.div_pos; lia.
      * apply Z.div_lt_upper_bound; lia.
Qed.

Lemma to_be_bytes n z : Forall is_byte (to_be n z).
Proof.
  revert z. induction n as [|n IH]; intros z; simpl; [constructor|].
  apply Forall_app_2; [apply IH|]. repeat constructor; apply Z.mod_pos_bound; lia.
Qed.

Lemma from_be_bound l : Forall is_byte l → 0 ≤ from_be l < 256 ^ len l.
Proof.
  induction l as [|b l IH] using rev_ind; intros H.
  - unfold from_be, len. simpl. lia.
  - apply Forall_app in H as [Hl Hb]. rewrite Forall_singleton in Hb.
    rewrite from_be_snoc, len_app, len_cons, (@len_nil Z).
    rewrite Z.pow_add_r by (pose proof (len_nonneg l); lia).
    specialize (IH Hl). unfold is_byte, fits in Hb. change (256 ^ (1 + 0)) with 256. lia.
Qed.

Lemma to_be_from_be l : Forall is_byte l → to_be (length l) (from_be l) = l.
Proof.
  induction l as [|b l IH] using rev_ind; intros H; [done|].
  apply Forall_app in H as [Hl Hb]. rewrite Forall_singleton in Hb.
  unfold is_byte, fits in Hb. rewrite length_app, Nat.add_comm. simpl.
  rewrite from_be_snoc. f_equal.
  - rewrite Z.div_add_l, Z.div_small, Z.add_0_r by lia. apply IH, Hl.
  - f_equal. rewrite Z.add_comm, Z.mod_add, Z.mod_small; lia.
Qed.

(** The bytes of an ASCII literal, [b"..."]. *)
Definition lit (s : string) : bytes :=
  (λ c, Z.of_N (Ascii.N_of_ascii c)) <$> String.list_ascii_of_string s.

(** The decimal digits that [format!("{}", z)] writes. *)
Definition decimal (z : Z) : bytes := lit (pretty z).

Definition show_bool (b : bool) : bytes := lit (if b then "true" else "false").

(** [Name { field: value, .. }] and [Name(value)]. *)
Definition debug_struct (name : string) (fields : list (string * bytes)) : bytes :=
  lit name ++ lit " { "
  ++ mjoin (imap (λ i '(f, v), (if bool_decide (i = 0%nat) then [] else lit ", ")
                               ++ lit f ++ lit ": " ++ v) fields)
  ++ lit " }".
Definition debug_tuple (name : string) (value : bytes) : bytes :=
  lit name ++ lit "(" ++ value ++ lit ")".

(** [slice.chunks(n)]. *)
Definition chunks {A} (n : nat) (l : list A) : list (list A) :=
  (λ i, take n (drop (i * n) l)) <$> seq 0 ((length l + (n - 1)) / n).

(** [a.div_ceil(b)]. *)
Definition div_ceil (a b : Z) : Z := (a + (b - 1)) / b.

(** *** Slices *)

Lemma get_to_Some {A} n (l r : list A) :
  get_to n l = Some r ↔ n ≤ len l ∧ r = take (Z.to_nat n) l.
Proof. unfold get_to. destruct (Z.leb_spec n (len l)); split; intros; intuition congruence || lia. Qed.

Lemma get_from_Some {A} n (l r : list A) :
  get_from n l = Some r ↔ n ≤ len l ∧ r = drop (Z.to_nat n) l.
Proof. unfold get_from. destruct (Z.leb_spec n (len l)); split; intros; intuition congruence || lia. Qed.

Section chunks.
Context {A : Type} (n : nat).
Implicit Types l : list A.

Lemma concat_chunks_prefix l k :
  concat ((λ i, take n (drop (i * n) l)) <$> seq 0 k) = take (k * n) l.
Proof.
  induction k as [|k IH]; [by rewrite take_0|].
  rewrite seq_S, fmap_app, concat_app, IH. simpl. rewrite app_nil_r.
  rewrite take_take_drop. f_equal. lia.
Qed.

Lemma chunks_cover l : (0 < n)%nat → (length l ≤ (length l + (n - 1)) / n * n)%nat.
Proof.
  intros Hn. pose proof (Nat.div_mod_eq (length l + (n - 1)) n).
  pose proof (Nat.mod_upper_bound (length l + (n - 1)) n). lia.
Qed.

Lemma concat_chunks l : (0 < n)%nat → concat (chunks n l) = l.
Proof.
  intros Hn. unfold chunks. rewrite concat_chunks_prefix, take_ge; [done|].
  by apply chunks_cover.
Qed.

Lemma length_chunks l : length (chunks n l) = ((length l + (n - 1)) / n)%nat.
Proof. unfold chunks. by rewrite length_fmap, length_seq. Qed.

Lemma chunks_bound l : Forall (λ c, length c ≤ n)%nat (chunks n l).
Proof.
  apply Forall_forall. unfold chunks. intros c Hc.
  apply list_elem_of_fmap in Hc as (i & -> & _). rewrite length_take. lia.
Qed.
End chunks.

Lemma mjoin_cons {A} (x : list A) l : mjoin (x :: l) = x ++ mjoin l.
Proof. done. Qed.

Lemma mjoin_app {A} (l k : list (list A)) : mjoin (l ++ k) = mjoin l ++ mjoin k.
Proof. induction l as [|x l IH]; [done|]. cbn [app]. by rewrite !mjoin_cons, IH, app_assoc. Qed.

(** ** Sums of lengths *)
Definition sum_list_Z (l : list Z) : Z := foldr Z.add 0 l.

Lemma sum_list_Z_cons x l : sum_list_Z (x :: l) = x + sum_list_Z l.
Proof. done. Qed.

Lemma sum_list_Z_app l k : sum_list_Z (l ++ k) = sum_list_Z l + sum_list_Z k.
Proof. unfold sum_list_Z. induction l; simpl; lia. Qed.

Lemma sum_list_Z_Permutation l k : l ≡ₚ k → sum_list_Z l = sum_list_Z k.
Proof. unfold sum_list_Z. induction 1; simpl; lia. Qed.

Lemma len_concat {A} (l : list (list A)) : len (concat l) = sum_list_Z (len <$> l).
Proof. induction l as [|x l IH]; [done|]. simpl. by rewrite len_app, IH. Qed.

(** The total length of the values of a map. *)
Definition map_bytes {A} (m : gmap Z (list A)) : Z :=
  sum_list_Z ((λ e, len e.2) <$> map_to_list m).

Lemma map_bytes_empty {A} : map_bytes (A:=A) ∅ = 0.
Proof. unfold map_bytes. by rewrite map_to_list_empty. Qed.

Lemma map_bytes_insert {A} (m : gmap Z (list A)) i x :
  m !! i = None → map_bytes (<[i := x]> m) = len x + map_bytes m.
Proof.
  intros Hi. unfold map_bytes.
  rewrite (sum_list_Z_Permutation _ _ (fmap_Permutation _ _ _ (map_to_list_insert m i x Hi))).
  done.
Qed.

Lemma map_bytes_nonneg {A} (m : gmap Z (list A)) : 0 ≤ map_bytes m.
Proof.
  induction m as [|i x m Hi IH] using map_ind; [rewrite (@map_bytes_empty A); lia|].
  rewrite map_bytes_insert by done. pose proof (len_nonneg x). lia.
Qed.

Lemma map_bytes_mono {A} (m1 m2 : gmap Z (list A)) : m1 ⊆ m2 → map_bytes m1 ≤ map_bytes m2.
Proof.
  revert m2. induction m1 as [|i x m1 Hi IH] using map_ind; intros m2 Hm.
  - rewrite (@map_bytes_empty A). apply map_bytes_nonneg.
  - assert (m2 !! i = Some x) as Hx by (eapply lookup_weaken; [apply lookup_insert_eq | done]).
    rewrite map_bytes_insert by done.
    rewrite <- (insert_delete_id m2 i x Hx), map_bytes_insert by apply lookup_delete_eq.
    apply Z.add_le_mono_l, IH.
    rewrite <- (delete_insert_id m1 i x Hi). by apply delete_mono.
Qed.

(** ** Boolean tests *)
Lemma is_some_and_true {A} (p : A → bool) o :
  is_some_and p o = true ↔ ∃ a, o = Some a ∧ p a = true.
Proof. destruct o; simpl; naive_solver. Qed.

Lemma is_some_and_false {A} (p : A → bool) o :
  is_some_and p o = false ↔ ∀ a, o = Some a → p a = false.
Proof. destruct o; simpl; naive_solver. Qed.

(** ** Maps indexed by an initial segment of the integers *)
Section complete_maps.
Context {A : Type}.
Implicit Types (m : gmap Z (list A)) (l : list (list A)).

Lemma map_bytes_seqZ l : map_bytes (map_seqZ 0 l) = sum_list_Z (len <$> l).
Proof.
  unfold map_bytes.
  rewrite (sum_list_Z_Permutation _ _ (fmap_Permutation _ _ _ (map_to_list_seqZ 0 l))).
  f_equal. replace ((λ e : Z * list A, len e.2) <$> zip (seqZ 0 (Z.of_nat (length l))) l)
    with (len <$> (zip (seqZ 0 (Z.of_nat (length l))) l).*2)
    by (rewrite <- list_fmap_compose; done).
  rewrite snd_zip; [done|]. rewrite length_seqZ. lia.
Qed.

Lemma size_map_seqZ l : size (map_seqZ (M:=gmap Z (list A)) 0 l) = length l.
Proof.
  rewrite <- length_map_to_list, (map_to_list_seqZ 0 l), length_zip, length_seqZ. lia.
Qed.

Lemma complete_map m (n : Z) :
  (∀ i, is_Some (m !! i) → 0 ≤ i < n) → Z.of_nat (size m) = n →
  ∃ l, m = map_seqZ 0 l ∧ len l = n.
Proof.
  intros Hdom Hsize. set (l := (λ i, default [] (m !! i)) <$> seqZ 0 n).
  assert (length l = Z.to_nat n) as Hl by (unfold l; by rewrite length_fmap, length_seqZ).
  exists l. split; [|unfold len; rewrite Hl; lia].
  apply map_subseteq_size_eq; [|rewrite size_map_seqZ; lia].
  apply map_subseteq_spec. intros i x Hx. destruct (Hdom i (mk_is_Some _ _ Hx)) as [H0 Hn].
  apply lookup_map_seqZ_Some. split; [done|]. unfold l.
  rewrite list_lookup_fmap, lookup_seqZ_lt by lia. simpl.
  replace (0 + Z.of_nat (Z.to_nat (i - 0))) with i by lia. by rewrite Hx.
Qed.

Lemma collect_map_seqZ {E} (e : E) l :
  collect ((λ i, ok_or e (map_seqZ (M:=gmap Z (list A)) 0 l !! i)) <$> seqZ 0 (len l)) = Ok l.
Proof.
  apply collect_Ok, list_eq. intros i. rewrite !list_lookup_fmap.
  destruct (decide (i < length l)%nat) as [Hi|Hi].
  - rewrite lookup_seqZ_lt by (unfold len; lia). simpl.
    rewrite lookup_map_seqZ_0 by lia.
    replace (Z.to_nat (0 + Z.of_nat i)) with i by lia.
    destruct (lookup_lt_is_Some_2 l i Hi) as [x ->]. done.
  - rewrite lookup_seqZ_ge, lookup_ge_None_2 by (unfold len; lia). done.
Qed.
End complete_maps.
