(* ===== verification/Emulators.v ===== *)
(** * Terminal emulation libraries

    The interfaces of the two libraries that read terminal output: the emulator [vt100],
    and [vte], the parser of control sequences. Their behaviour is a parameter of the
    model; what the code relies on is stated as laws: both take their input in whatever
    fragments it comes. *)
From S2P Require Import Prelude.
Local Open Scope Z_scope.

(** ** vt100 *)
Class Vt100 := {
  vt_parser : Type;
  vt_screen : Type;
  vt_new : Z → Z → Z → vt_parser;                (** rows, columns, scrollback *)
  vt_process : bytes → vt_parser → vt_parser;
  vt_set_size : Z → Z → vt_parser → vt_parser;   (** rows, columns *)
  vt_get_screen : vt_parser → vt_screen;
  vt_state_formatted : vt_screen → bytes;
  vt_state_diff : vt_screen → vt_screen → bytes;
}.

Class Vt100Laws `{Vt100} : Prop := {
  vt_process_nil p : vt_process [] p = p;
  vt_process_app a b p : vt_process (a ++ b) p = vt_process b (vt_process a p);
}.

(** The queries of a [vt100::Screen] that the client makes. *)
Inductive MouseProtocolMode := PNone | PPress | PPressRelease | PButtonMotion | PAnyMotion.
Inductive MouseProtocolEncoding := PDefault | PUtf8 | PSgr.

Class Vt100Queries `{Vt100} := {
  application_cursor : vt_screen → bool;
  vt_application_keypad : vt_screen → bool;
  vt_bracketed_paste : vt_screen → bool;
  mouse_protocol_mode : vt_screen → MouseProtocolMode;
  mouse_protocol_encoding : vt_screen → MouseProtocolEncoding;
  hide_cursor : vt_screen → bool;
  vt_alternate_screen : vt_screen → bool;
  cursor_position : vt_screen → Z * Z;
  screen_size : vt_screen → Z * Z;
  contents_formatted : vt_screen → bytes;
  attributes_formatted : vt_screen → bytes;
  cursor_state_formatted : vt_screen → bytes;
}.

(** ** vte *)

(** A parameter of a control sequence with its subparameters, 16-bit each. *)
Definition Params := list (list Z).

(** The callbacks of [vte::Perform], with what the code reads of their arguments. *)
Inductive vte_action :=
| VtePrint (character : Z)
| VteExecute (byte : Z)
| VteHook
| VtePut (byte : Z)
| VteUnhook
| VteOscDispatch (params : list bytes)
| VteCsiDispatch (params : Params) (intermediates : bytes) (ignore : bool) (action : Z)
| VteEscDispatch (intermediates : bytes) (ignore : bool) (byte : Z).

#[export] Instance vte_action_eq_dec : EqDecision vte_action.
Proof. solve_decision. Defined.

Class Vte := {
  vte_parser : Type;
  vte_new : vte_parser;
  vte_advance : bytes → vte_parser → vte_parser * list vte_action;
}.

Class VteLaws `{Vte} : Prop := {
  vte_advance_nil p : vte_advance [] p = (p, []);
  vte_advance_app a b p :
    vte_advance (a ++ b) p =
    let '(p, xs) := vte_advance a p in
    let '(p, ys) := vte_advance b p in (p, xs ++ ys);
}.

(** A parser that takes a byte at a time, and the callbacks it makes on the way. *)
Fixpoint vte_collect {S} (step : S → Z → S * list vte_action) (l : bytes) (s : S)
    : S * list vte_action :=
  match l with
  | [] => (s, [])
  | b :: l => let '(s, xs) := step s b in let '(s, ys) := vte_collect step l s in (s, xs ++ ys)
  end.

Lemma vte_collect_app {S} (step : S → Z → S * list vte_action) a b s :
  vte_collect step (a ++ b) s =
  let '(s, xs) := vte_collect step a s in
  let '(s, ys) := vte_collect step b s in (s, xs ++ ys).
Proof.
  revert s. induction a as [|x a IH]; intros s; cbn [app vte_collect]; [by destruct (vte_collect step b s)|].
  destruct (step s x) as [s1 xs]. rewrite IH. destruct (vte_collect step a s1) as [s2 ys].
  destruct (vte_collect step b s2). by rewrite app_assoc.
Qed.

(** The parameters of a callback have 16 bits. *)
Definition action_wf (c : vte_action) : Prop :=
  match c with VteCsiDispatch params _ _ _ => Forall (Forall (fits 16)) params | _ => True end.
