(* ===== verification/TextTerminal.v ===== *)
(** * A text terminal

    Small executable implementations of the libraries of Emulators.v: an emulator that
    remembers its size and its text, with the modes of a reset terminal, and a parser of
    the sequences ESC c and CSI. They satisfy the laws, and the witnesses run on them. *)
From S2P Require Import Prelude Emulators.
Local Open Scope Z_scope.

#[export] Instance text_vt100 : Vt100 := {|
  vt_parser := Z * Z * bytes;
  vt_screen := Z * Z * bytes;
  vt_new rows cols _ := (rows, cols, []);
  vt_process b '(rows, cols, text) := (rows, cols, text ++ b);
  vt_set_size rows cols '(_, _, text) := (rows, cols, text);
  vt_get_screen p := p;
  vt_state_formatted s := snd s;
  vt_state_diff target delivered := lit "c" ++ snd target;
|}.

#[export] Instance text_vt100_laws : Vt100Laws.
Proof.
  split; simpl.
  - intros [[r c] t]. by rewrite app_nil_r.
  - intros a b [[r c] t]. by rewrite app_assoc.
Qed.

#[export] Instance text_vt100_queries : Vt100Queries := {|
  application_cursor := λ _, false;
  vt_application_keypad := λ _, false;
  vt_bracketed_paste := λ _, true;
  mouse_protocol_mode := λ _, PNone;
  mouse_protocol_encoding := λ _, PDefault;
  hide_cursor := λ _, false;
  vt_alternate_screen := λ _, false;
  cursor_position := λ s, (0, len s.2);
  screen_size := λ s, s.1;
  contents_formatted := λ s, s.2;
  attributes_formatted := λ _, [];
  cursor_state_formatted := λ _, [];
|}.

(** A parser of the sequences ESC c and CSI with digits, semicolons, '?' and a final
    letter; it keeps the bytes of the sequence it is in. *)
Definition demo_numbers (l : bytes) : Params :=
  let '(done, n) := fold_left (λ '(done, n) b,
    if b =? 59 then (done ++ [[n]], 0) else (done, clamp 0 u16_max (n * 10 + (b - 48)))) l ([], 0) in
  done ++ [[n]].

Definition demo_byte (p : bytes) (b : Z) : bytes * list vte_action :=
  match p with
  | [] => if b =? 27 then ([27], []) else ([], [if b <? 32 then VteExecute b else VtePrint b])
  | [27] => if b =? 91 then ([27; 91], []) else ([], [VteEscDispatch [] false b])
  | _ =>
      if (b =? 59) || ((48 <=? b) && (b <=? 57)) || (b =? 63) then (p ++ [b], [])
      else ([], [match p with
                 | 27 :: 91 :: 63 :: l => VteCsiDispatch (demo_numbers l) [63] false b
                 | _ => VteCsiDispatch (demo_numbers (drop 2 p)) [] false b
                 end])
  end.

Definition demo_advance : bytes → bytes → bytes * list vte_action := vte_collect demo_byte.

(** The parser, not an instance: files choose it with [Existing Instance]. *)
Definition csi_vte : Vte :=
  {| vte_parser := bytes; vte_new := []; vte_advance := demo_advance |}.

Lemma csi_vte_laws : VteLaws (H:=csi_vte).
Proof. split; cbn; [done|]. intros a b p. apply vte_collect_app. Qed.

Lemma demo_numbers_wf l : Forall (Forall (fits 16)) (demo_numbers l).
Proof.
  unfold demo_numbers.
  assert (Hf : ∀ acc, Forall (Forall (fits 16)) acc.1 → fits 16 acc.2 →
    let r := fold_left (λ '(done, n) b,
      if b =? 59 then (done ++ [[n]], 0) else (done, clamp 0 u16_max (n * 10 + (b - 48)))) l acc in
    Forall (Forall (fits 16)) r.1 ∧ fits 16 r.2).
  { induction l as [|b l IH]; intros [d n] Hd Hn; [done|]. cbn [fold_left].
    assert (u16_max = 2 ^ 16 - 1) by done.
    apply IH; destruct (b =? 59); cbn in *; try done.
    - apply Forall_app. split; [done|]. by apply Forall_singleton, Forall_singleton.
    - unfold clamp. split; lia. }
  specialize (Hf ([], 0) ltac:(constructor) ltac:(done)). cbv zeta in Hf.
  destruct (fold_left _ _ _) as [d n]. apply Forall_app. split; [apply Hf|].
  apply Forall_singleton, Forall_singleton, Hf.
Qed.

Lemma demo_advance_wf l p : Forall action_wf (demo_advance l p).2.
Proof.
  assert (Hb : ∀ p b, Forall action_wf (demo_byte p b).2).
  { clear. intros p b. unfold demo_byte.
    repeat case_match; cbn [snd]; try apply Forall_nil_2; apply Forall_singleton; cbn [action_wf];
      first [exact I | apply demo_numbers_wf]. }
  unfold demo_advance. revert p.
  induction l as [|b l IH]; intros p; cbn [vte_collect]; [constructor|].
  pose proof (Hb p b) as H1. destruct (demo_byte p b) as [q x].
  pose proof (IH q) as H2. destruct (vte_collect demo_byte l q) as [r y]. by apply Forall_app.
Qed.
