(* ===== verification/Fragment.v ===== *)
(** * Authenticated-plaintext fragmentation

    The model of [crates/ferrumtty-wire/src/fragment.rs]: the 14-byte fragment
    header ([parse], [encode]), the splitting of a state message ([split]) and
    the bounded reassembly of one state ([FragmentAccumulator], [push],
    [try_complete]).  [push] is a stateful operation: what it changed before it
    returned an error stays changed, as in the source. *)
From S2P Require Import Prelude.
Local Open Scope Z_scope.

Definition FRAGMENT_HEADER_BYTES : Z := 14.
Definition FINAL_FRAGMENT_BIT : Z := Z.shiftl 1 15.
Definition FRAGMENT_INDEX_MASK : Z := FINAL_FRAGMENT_BIT - 1.
Definition MAX_FRAGMENT_BODY_BYTES : Z := 1214.
Definition MAX_RECEIVED_FRAGMENT_BODY_BYTES : Z := 1300.

Record FragmentHeader := mkFragmentHeader {
  sent_timestamp : Z;
  echoed_timestamp : Z;
  state_id : Z;
  index : Z;
  is_final : bool;
}.

Record Fragment := mkFragment {
  header : FragmentHeader;
  body : bytes;
}.

#[export] Instance FragmentHeader_eq_dec : EqDecision FragmentHeader.
Proof. intros x y. unfold Decision. decide equality; apply decide; apply _. Defined.
#[export] Instance Fragment_eq_dec : EqDecision Fragment.
Proof. intros x y. unfold Decision. decide equality; apply decide; apply _. Defined.

(** The body is shown by its length. *)
Definition FragmentHeader_fmt (self : FragmentHeader) : bytes :=
  debug_struct "FragmentHeader"
    [("sent_timestamp"%string, decimal (sent_timestamp self)); ("echoed_timestamp"%string, decimal (echoed_timestamp self));
     ("state_id"%string, decimal (state_id self)); ("index"%string, decimal (index self));
     ("is_final"%string, show_bool (is_final self))].
Definition Fragment_fmt (self : Fragment) : bytes :=
  debug_struct "Fragment"
    [("header"%string, FragmentHeader_fmt (header self)); ("body_bytes"%string, decimal (len (body self)))].

Inductive FragmentError :=
| HeaderTooShort
| BodyTooLarge
| TooManyFragments
| MismatchedState
| IndexAfterFinal
| ConflictingFinalIndex
| ConflictingDuplicate
| MessageTooLarge
| MissingFragment.

#[export] Instance FragmentError_eq_dec : EqDecision FragmentError.
Proof. solve_decision. Defined.

(** ** [Fragment::parse], [Fragment::split] and [Fragment::encode] *)

Definition parse (plaintext : bytes) : outcome FragmentError Fragment :=
  let? header_bytes := ok_or HeaderTooShort (get_to FRAGMENT_HEADER_BYTES plaintext) in
  let fragment_word := from_be (take 2 (drop 12 header_bytes)) in
  let header := {|
    sent_timestamp := from_be (take 2 header_bytes);
    echoed_timestamp := from_be (take 2 (drop 2 header_bytes));
    state_id := from_be (take 8 (drop 4 header_bytes));
    index := Z.land fragment_word FRAGMENT_INDEX_MASK;
    is_final := negb (Z.land fragment_word FINAL_FRAGMENT_BIT =? 0);
  |} in
  let body := drop (Z.to_nat FRAGMENT_HEADER_BYTES) plaintext in
  if MAX_RECEIVED_FRAGMENT_BODY_BYTES <? len body then Err BodyTooLarge
  else Ok {| header := header; body := body |}.

(** One iteration of [split]'s [enumerate().map(..)]. *)
Definition split_one (sent_timestamp echoed_timestamp state_id chunk_count : Z)
    (i : nat) (body : bytes) : outcome FragmentError Fragment :=
  let? index := ok_or TooManyFragments (try_into 16 (Z.of_nat i)) in
  Ok {| header := {|
          sent_timestamp := sent_timestamp;
          echoed_timestamp := echoed_timestamp;
          state_id := state_id;
          index := index;
          is_final := Z.of_nat i + 1 =? chunk_count |};
        body := body |}.

Definition split (message : bytes) (sent_timestamp echoed_timestamp state_id : Z)
    : outcome FragmentError (list Fragment) :=
  let chunk_count := div_ceil (Z.max (len message) 1) MAX_FRAGMENT_BODY_BYTES in
  if FRAGMENT_INDEX_MASK + 1 <? chunk_count then Err TooManyFragments
  else if bool_decide (message = []) then
    Ok [{| header := {|
             sent_timestamp := sent_timestamp;
             echoed_timestamp := echoed_timestamp;
             state_id := state_id;
             index := 0;
             is_final := true |};
           body := [] |}]
  else collect (imap (split_one sent_timestamp echoed_timestamp state_id chunk_count)
                     (chunks (Z.to_nat MAX_FRAGMENT_BODY_BYTES) message)).

Definition encode (self : Fragment) : bytes :=
  let h := header self in
  let final_bit := if is_final h then FINAL_FRAGMENT_BIT else 0 in
  to_be 2 (sent_timestamp h)
    ++ to_be 2 (echoed_timestamp h)
    ++ to_be 8 (state_id h)
    ++ to_be 2 (Z.lor (Z.land (index h) FRAGMENT_INDEX_MASK) final_bit)
    ++ body self.

(** ** [FragmentAccumulator] *)
Record FragmentAccumulator := mkFragmentAccumulator {
  acc_state_id : Z;
  maximum_message_bytes : Z;
  fragments : gmap Z bytes;
  final_index : option Z;
  total_bytes : Z;
}.

#[export] Instance eta_FragmentAccumulator : Eta FragmentAccumulator := λ a,
  mkFragmentAccumulator (acc_state_id a) (maximum_message_bytes a) (fragments a)
    (final_index a) (total_bytes a).
#[export] Instance upd_fragments : Update fragments := ltac:(solve_update).
#[export] Instance upd_final_index : Update final_index := ltac:(solve_update).
#[export] Instance upd_total_bytes : Update total_bytes := ltac:(solve_update).

Definition accumulator_new (state_id maximum_message_bytes : Z) : FragmentAccumulator := {|
  acc_state_id := state_id;
  maximum_message_bytes := maximum_message_bytes;
  fragments := ∅;
  final_index := None;
  total_bytes := 0;
|}.

Definition try_complete (self : FragmentAccumulator)
    : outcome FragmentError (option bytes) :=
  match final_index self with
  | None => Ok None
  | Some final_index =>
      if negb (Z.of_nat (size (fragments self)) =? final_index + 1) then Ok None
      else
        let? bodies := collect ((λ index, ok_or MissingFragment (fragments self !! index))
                                  <$> seqZ 0 (final_index + 1)) in
        Ok (Some (concat bodies))
  end.

(** The first half of [push]: the final index is checked and recorded. *)
Definition record_final (header : FragmentHeader)
    : M FragmentAccumulator FragmentError unit :=
  let! self := getM in
  if is_final header then
    if is_some_and (λ final_index, negb (final_index =? index header)) (final_index self)
    then errM ConflictingFinalIndex
    else if existsb (λ entry, index header <? entry.1) (map_to_list (fragments self))
    then errM IndexAfterFinal
    else modM (λ self, self <| final_index := Some (index header) |>)
  else retM tt.

(** The second half of [push]: the body is stored, or compared with the one
    already stored under its index. *)
Definition store_body (fragment : Fragment)
    : M FragmentAccumulator FragmentError (option bytes) :=
  let! self := getM in
  let index := index (header fragment) in
  match fragments self !! index with
  | Some existing =>
      if bool_decide (existing = body fragment) then liftM (try_complete self)
      else errM ConflictingDuplicate
  | None =>
      let! total := liftM (ok_or MessageTooLarge
                             (checked_add 64 (total_bytes self) (len (body fragment)))) in
      modM (λ self, self <| total_bytes := total |>) ;!
      if maximum_message_bytes self <? total then errM MessageTooLarge
      else
        modM (λ self, self <| fragments ::= <[index := body fragment]> |>) ;!
        let! self := getM in
        liftM (try_complete self)
  end.

Definition push (fragment : Fragment)
    : M FragmentAccumulator FragmentError (option bytes) :=
  let! self := getM in
  if negb (state_id (header fragment) =? acc_state_id self) then errM MismatchedState
  else if is_some_and (λ final_index, final_index <? index (header fragment))
            (final_index self)
  then errM IndexAfterFinal
  else record_final (header fragment) ;! store_body fragment.

(** The accumulator after a sequence of [push]es, their results dropped. *)
Definition push_all (acc : FragmentAccumulator) (l : list Fragment) : FragmentAccumulator :=
  foldl (λ acc f, fst (push f acc)) acc l.

(** ** The fragment word: fifteen index bits and the final bit *)

Lemma FRAGMENT_INDEX_MASK_ones : FRAGMENT_INDEX_MASK = Z.ones 15.
Proof. reflexivity. Qed.

Lemma land_mask_small i : fits 15 i → Z.land i FRAGMENT_INDEX_MASK = i.
Proof.
  intros Hi. rewrite FRAGMENT_INDEX_MASK_ones, Z.land_ones by lia.
  apply Z.mod_small, Hi.
Qed.

Lemma land_mask_fits w : fits 15 (Z.land w FRAGMENT_INDEX_MASK).
Proof.
  rewrite FRAGMENT_INDEX_MASK_ones, Z.land_ones by lia. apply Z.mod_pos_bound. lia.
Qed.

Lemma final_bit_test w :
  negb (Z.land w FINAL_FRAGMENT_BIT =? 0) = Z.testbit w 15.
Proof.
  change FINAL_FRAGMENT_BIT with (2 ^ 15).
  destruct (Z.testbit w 15) eqn:Hb; destruct (Z.eqb_spec (Z.land w (2 ^ 15)) 0) as [H0|H0];
    try done; exfalso.
  - assert (Z.testbit (Z.land w (2 ^ 15)) 15 = true) as Ht
      by (rewrite Z.land_spec, Hb; done).
    rewrite H0 in Ht. done.
  - apply H0. apply Z.bits_inj'. intros n Hn.
    rewrite Z.land_spec, Z.pow2_bits_eqb, Z.bits_0 by lia.
    destruct (Z.eqb_spec 15 n) as [<-|]; [by rewrite Hb | by rewrite andb_false_r].
Qed.

Lemma word_split w :
  fits 16 w →
  Z.lor (Z.land w FRAGMENT_INDEX_MASK)
        (if Z.testbit w 15 then FINAL_FRAGMENT_BIT else 0) = w.
Proof.
  intros Hw. rewrite FRAGMENT_INDEX_MASK_ones.
  change FINAL_FRAGMENT_BIT with (2 ^ 15).
  apply Z.bits_inj'. intros n Hn.
  rewrite Z.lor_spec, Z.land_spec, Z.testbit_ones_nonneg by lia.
  assert (n < 15 ∨ n = 15 ∨ 16 ≤ n) as [Hlt | [-> | Hge]] by lia.
  - destruct (Z.testbit w 15); rewrite ?Z.pow2_bits_false, ?Z.bits_0 by lia;
      destruct (Z.ltb_spec n 15); try lia; by rewrite andb_true_r, orb_false_r.
  - destruct (Z.testbit w 15) eqn:Hb; done.
  - assert (Z.testbit w n = false) as ->.
    { rewrite <- (Z.mod_small w (2 ^ 16)) by exact Hw. apply Z.mod_pow2_bits_high. lia. }
    destruct (Z.testbit w 15); rewrite ?Z.pow2_bits_false, ?Z.bits_0 by lia; done.
Qed.

Lemma word_join i (b : bool) :
  fits 15 i →
  let w := Z.lor (Z.land i FRAGMENT_INDEX_MASK) (if b then FINAL_FRAGMENT_BIT else 0) in
  fits 16 w ∧ Z.land w FRAGMENT_INDEX_MASK = i ∧ Z.testbit w 15 = b.
Proof.
  intros Hi w. subst w. rewrite (land_mask_small i Hi).
  assert (Z.testbit i 15 = false) as Hi15.
  { rewrite <- (Z.mod_small i (2 ^ 15)) by exact Hi. apply Z.mod_pow2_bits_high. lia. }
  destruct b; [|rewrite Z.lor_0_r; split_and!; [|by apply land_mask_small|done]].
  - change FINAL_FRAGMENT_BIT with (2 ^ 15).
    assert (Z.land i (2 ^ 15) = 0) as Hd.
    { pose proof (final_bit_test i) as Ht. rewrite Hi15 in Ht.
      apply negb_false_iff, Z.eqb_eq in Ht. exact Ht. }
    assert (Z.lor i (2 ^ 15) = i + 2 ^ 15) as ->
      by (pose proof (Z.add_lor_land i (2 ^ 15)); lia).
    unfold fits in *. rewrite FRAGMENT_INDEX_MASK_ones, Z.land_ones by lia.
    split_and!; [lia | lia | |].
    + replace (i + 2 ^ 15) with (i + 1 * 2 ^ 15) by lia. rewrite Z.mod_add by lia.
      by apply Z.mod_small.
    + apply Z.testbit_true; [lia|].
      replace (i + 2 ^ 15) with (i + 1 * 2 ^ 15) by lia. rewrite Z.div_add by lia.
      rewrite Z.div_small by exact Hi. done.
  - unfold fits in *. lia.
Qed.

(** ** Round trips *)

(** A fragment whose fields fit their machine types and the size limits of the wire. *)
Record wf_header (h : FragmentHeader) : Prop := {
  wf_sent : fits 16 (sent_timestamp h);
  wf_echoed : fits 16 (echoed_timestamp h);
  wf_state : fits 64 (state_id h);
  wf_index : fits 15 (index h);
}.

Definition wf_fragment (f : Fragment) : Prop :=
  wf_header (header f) ∧ len (body f) ≤ MAX_RECEIVED_FRAGMENT_BODY_BYTES.

(** The four fields of a 14-byte prefix, whatever follows it. *)
Lemma prefix_slices (a b c d rest : bytes) :
  length a = 2%nat → length b = 2%nat → length c = 8%nat → length d = 2%nat →
  let l := a ++ b ++ c ++ d ++ rest in
  get_to FRAGMENT_HEADER_BYTES l = Some (a ++ b ++ c ++ d) ∧
  take 2 (a ++ b ++ c ++ d) = a ∧
  take 2 (drop 2 (a ++ b ++ c ++ d)) = b ∧
  take 8 (drop 4 (a ++ b ++ c ++ d)) = c ∧
  take 2 (drop 12 (a ++ b ++ c ++ d)) = d ∧
  drop (Z.to_nat FRAGMENT_HEADER_BYTES) l = rest.
Proof.
  intros Ha Hb Hc Hd l.
  do 3 (destruct a as [|? a]; try discriminate Ha).
  do 3 (destruct b as [|? b]; try discriminate Hb).
  do 9 (destruct c as [|? c]; try discriminate Hc).
  do 3 (destruct d as [|? d]; try discriminate Hd).
  split_and!; try reflexivity.
  apply get_to_Some. split; [|reflexivity].
  unfold len, l, FRAGMENT_HEADER_BYTES. cbn [length app]. lia.
Qed.

Lemma prefix_split (l : bytes) :
  FRAGMENT_HEADER_BYTES ≤ len l →
  ∃ a b c d rest, l = a ++ b ++ c ++ d ++ rest ∧
    length a = 2%nat ∧ length b = 2%nat ∧ length c = 8%nat ∧ length d = 2%nat.
Proof.
  unfold FRAGMENT_HEADER_BYTES, len. intros Hl.
  exists (take 2 l), (take 2 (drop 2 l)), (take 8 (drop 4 l)), (take 2 (drop 12 l)),
    (drop 14 l).
  rewrite !length_take, !length_drop. split_and!; try lia.
  do 14 (destruct l as [|? l]; [simpl in Hl; lia|]). reflexivity.
Qed.

(** Parsing what [encode] wrote gives the fragment back. *)
Lemma parse_encode f : wf_fragment f → parse (encode f) = Ok f.
Proof.
  destruct f as [[st et sid idx fin] bd]. intros [[Hst Het Hsid Hidx] Hbody]. simpl in *.
  unfold encode, parse. simpl header. cbn [sent_timestamp echoed_timestamp state_id index is_final body].
  destruct (word_join idx fin Hidx) as (Hw & Hmask & Hbit).
  set (w := Z.lor _ _) in *.
  destruct (prefix_slices (to_be 2 st) (to_be 2 et) (to_be 8 sid) (to_be 2 w) bd)
    as (-> & Ha & Hb & Hc & Hd & ->); try apply length_to_be.
  cbn [ok_or bind_ok]. rewrite Ha, Hb, Hc, Hd, !from_be_to_be by assumption.
  rewrite final_bit_test, Hmask, Hbit.
  destruct (Z.ltb_spec MAX_RECEIVED_FRAGMENT_BODY_BYTES (len bd)); [lia | done].
Qed.

(** Encoding what [parse] read gives the bytes back, and what it reads is well formed. *)
Lemma encode_parse p f :
  Forall is_byte p → parse p = Ok f → encode f = p ∧ wf_fragment f.
Proof.
  intros Hp Hparse. unfold parse in Hparse.
  apply bind_ok_Ok in Hparse as (h & Hh & Hparse). apply ok_or_Ok in Hh.
  destruct (prefix_split p) as (a & b & c & d & rest & -> & La & Lb & Lc & Ld).
  { apply get_to_Some in Hh. tauto. }
  rewrite !Forall_app in Hp. destruct Hp as (Pa & Pb & Pc & Pd & _).
  destruct (prefix_slices a b c d rest) as (Hh' & Ea & Eb & Ec & Ed & Er); try done.
  rewrite Hh in Hh'. injection Hh' as ->. cbv zeta in Hparse.
  rewrite Ea, Eb, Ec, Ed, Er, final_bit_test in Hparse.
  destruct (Z.ltb_spec MAX_RECEIVED_FRAGMENT_BODY_BYTES (len rest)); [done|].
  injection Hparse as <-.
  pose proof (from_be_bound a Pa) as Ba. pose proof (from_be_bound b Pb) as Bb.
  pose proof (from_be_bound c Pc) as Bc. pose proof (from_be_bound d Pd) as Bd.
  unfold len in Ba, Bb, Bc, Bd. rewrite La in Ba. rewrite Lb in Bb. rewrite Lc in Bc.
  rewrite Ld in Bd. split.
  - unfold encode. cbn [header body sent_timestamp echoed_timestamp state_id index is_final].
    rewrite <- Z.land_assoc, Z.land_diag, word_split by exact Bd.
    pose proof (to_be_from_be a Pa) as Ra. pose proof (to_be_from_be b Pb) as Rb.
    pose proof (to_be_from_be c Pc) as Rc. pose proof (to_be_from_be d Pd) as Rd.
    rewrite La in Ra. rewrite Lb in Rb. rewrite Lc in Rc. rewrite Ld in Rd.
    by rewrite Ra, Rb, Rc, Rd.
  - split; [constructor|]; simpl; try done. apply land_mask_fits.
Qed.

(** ** What [split] produces *)

(** The bodies the message is cut into: one empty body for an empty message. *)
Definition split_bodies (message : bytes) : list bytes :=
  if bool_decide (message = []) then [[]]
  else chunks (Z.to_nat MAX_FRAGMENT_BODY_BYTES) message.

(** The [i]-th of [n] fragments. *)
Definition fragment_at (st et id : Z) (n i : nat) (b : bytes) : Fragment :=
  {| header := {| sent_timestamp := st; echoed_timestamp := et; state_id := id;
                  index := Z.of_nat i; is_final := Z.of_nat i + 1 =? Z.of_nat n |};
     body := b |}.

Definition MAX_SPLIT_BYTES : Z := (FRAGMENT_INDEX_MASK + 1) * MAX_FRAGMENT_BODY_BYTES.

Lemma concat_split_bodies message : concat (split_bodies message) = message.
Proof.
  unfold split_bodies. case_bool_decide as Hm; [by subst|].
  apply concat_chunks. unfold MAX_FRAGMENT_BODY_BYTES. lia.
Qed.

Lemma split_bodies_bound message :
  Forall (λ b, len b ≤ MAX_FRAGMENT_BODY_BYTES) (split_bodies message).
Proof.
  unfold split_bodies. case_bool_decide.
  { constructor; [|constructor]. unfold len, MAX_FRAGMENT_BODY_BYTES. simpl. lia. }
  eapply Forall_impl; [apply chunks_bound|]. intros c Hc. simpl in Hc.
  unfold len, MAX_FRAGMENT_BODY_BYTES in *. lia.
Qed.

(** The number of fragments is the [chunk_count] of the source. *)
Lemma chunk_count_bodies message :
  div_ceil (Z.max (len message) 1) MAX_FRAGMENT_BODY_BYTES
  = Z.of_nat (length (split_bodies message)).
Proof.
  unfold split_bodies, div_ceil, MAX_FRAGMENT_BODY_BYTES.
  case_bool_decide as Hm; [by subst|].
  rewrite length_chunks, Nat2Z.inj_div. unfold len.
  assert (0 < length message)%nat by (destruct message; [done | simpl; lia]).
  f_equal; lia.
Qed.

Lemma chunk_count_limit message :
  FRAGMENT_INDEX_MASK + 1 < Z.of_nat (length (split_bodies message)) ↔
  MAX_SPLIT_BYTES < len message.
Proof.
  rewrite <- chunk_count_bodies.
  unfold MAX_SPLIT_BYTES, FRAGMENT_INDEX_MASK, div_ceil, MAX_FRAGMENT_BODY_BYTES.
  change (FINAL_FRAGMENT_BIT - 1 + 1) with 32768.
  Z.to_euclidean_division_equations. lia.
Qed.

Lemma split_one_Ok st et id n i b :
  Z.of_nat i < 32768 →
  split_one st et id (Z.of_nat n) i b = Ok (fragment_at st et id n i b).
Proof.
  intros Hi. unfold split_one, try_into. replace (fitsb 16 (Z.of_nat i)) with true; [done|].
  symmetry. apply fitsb_spec. unfold fits. lia.
Qed.

(** [split] as one equation: the error is raised exactly above the limit, and
    below it the fragments are numbered consecutively, the last one final. *)
Lemma split_eq message st et id :
  split message st et id =
    if MAX_SPLIT_BYTES <? len message then Err TooManyFragments
    else Ok (imap (fragment_at st et id (length (split_bodies message)))
                  (split_bodies message)).
Proof.
  unfold split. rewrite chunk_count_bodies.
  replace (FRAGMENT_INDEX_MASK + 1 <? _) with (MAX_SPLIT_BYTES <? len message)
    by (apply eq_true_iff_eq; rewrite !Z.ltb_lt; symmetry; apply chunk_count_limit).
  destruct (Z.ltb_spec MAX_SPLIT_BYTES (len message)) as [Hl|Hl]; [done|].
  assert (Z.of_nat (length (split_bodies message)) ≤ 32768) as Hc.
  { apply Z.nlt_ge. intros Hn. apply chunk_count_limit in Hn. lia. }
  unfold split_bodies in *. case_bool_decide as Hm; [by subst|].
  apply collect_Ok. rewrite fmap_imap. apply imap_ext. intros i b Hb.
  apply lookup_lt_Some in Hb. apply split_one_Ok. lia.
Qed.

Lemma split_lookup message st et id frs i f :
  split message st et id = Ok frs →
  frs !! i = Some f ↔
  ∃ b, split_bodies message !! i = Some b ∧
       f = fragment_at st et id (length (split_bodies message)) i b.
Proof.
  rewrite split_eq. destruct (_ <? _); [done|]. intros [= <-].
  rewrite list_lookup_imap. destruct (split_bodies message !! i); simpl; naive_solver.
Qed.

(** ** The accumulator under arbitrary pushes *)

(** Every stored index is at most the final one, and the stored bytes are
    bounded by the counter and by the configured maximum.  The counter can be
    larger than the stored bytes: [push] counts a body before it rejects it. *)
Record acc_inv (a : FragmentAccumulator) : Prop := {
  inv_index : ∀ i, is_Some (fragments a !! i) →
    0 ≤ i ∧ ∀ f, final_index a = Some f → i ≤ f;
  inv_total : map_bytes (fragments a) ≤ total_bytes a;
  inv_bound : map_bytes (fragments a) ≤ maximum_message_bytes a;
}.

Lemma accumulator_new_inv id max : 0 ≤ max → acc_inv (accumulator_new id max).
Proof.
  intros Hmax. constructor; simpl.
  - intros i [x Hx]. by rewrite lookup_empty in Hx.
  - rewrite (@map_bytes_empty Z). lia.
  - rewrite (@map_bytes_empty Z). lia.
Qed.

(** [try_complete] succeeds exactly when the stored fragments are an unbroken
    run up to the final index; in particular [MissingFragment] cannot happen. *)
Lemma try_complete_spec a :
  acc_inv a →
  (∃ l, try_complete a = Ok (Some (concat l)) ∧ fragments a = map_seqZ 0 l ∧
        final_index a = Some (len l - 1)) ∨
  (try_complete a = Ok None ∧
   ∀ f, final_index a = Some f → Z.of_nat (size (fragments a)) ≠ f + 1).
Proof.
  intros [Hidx _ _]. unfold try_complete.
  destruct (final_index a) as [f|] eqn:Hf; [|by right].
  destruct (Z.eqb_spec (Z.of_nat (size (fragments a))) (f + 1)) as [Hs|Hs]; simpl.
  - destruct (complete_map (fragments a) (f + 1)) as (l & Hl & Hlen); [|done|].
    { intros i Hi. destruct (Hidx i Hi) as [H0 Hle]. specialize (Hle f eq_refl). lia. }
    left. exists l. rewrite Hl, <- Hlen, collect_map_seqZ. simpl. split_and!; [done|done|].
    f_equal. lia.
  - right. split; [done|]. intros f' [= <-]. done.
Qed.

(** What a push may answer. *)
Definition push_answer (max : Z) (r : outcome FragmentError (option bytes)) : Prop :=
  match r with
  | Ok (Some message) => len message ≤ max
  | Ok None => True
  | Err e => e ≠ MissingFragment
  | Panic => False
  end.

Lemma try_complete_answer a : acc_inv a → push_answer (maximum_message_bytes a) (try_complete a).
Proof.
  intros Ha. destruct (try_complete_spec a Ha) as [(l & -> & Hl & _) | [-> _]]; [|done].
  simpl. destruct Ha as [_ _ Hb]. rewrite Hl, map_bytes_seqZ in Hb.
  by rewrite len_concat.
Qed.

Lemma record_final_triple h max :
  0 ≤ index h →
  triple (λ a, acc_inv a ∧ maximum_message_bytes a = max ∧
               ∀ f, final_index a = Some f → index h ≤ f)
    (record_final h)
    (λ r a, acc_inv a ∧ maximum_message_bytes a = max ∧
      (r = Ok tt → ∀ f, final_index a = Some f → index h ≤ f) ∧ r ≠ Panic ∧ r ≠ Err MissingFragment).
Proof.
  intros Hh a (Ha & Hm & Hf). unfold record_final, bindM, getM.
  destruct (is_final h); [|simpl; naive_solver].
  destruct (is_some_and _ (final_index a)); [simpl; naive_solver|].
  destruct (existsb _ _) eqn:He; [simpl; naive_solver|].
  simpl. split_and!; [|done| |done|done].
  - destruct Ha as [Hidx Ht Hb]. constructor; simpl; [|done|done].
    intros i Hi. destruct (Hidx i Hi) as [H0 _]. split; [done|]. intros f [= <-].
    destruct Hi as [x Hx]. apply Z.nlt_ge. intros Hlt.
    apply not_true_iff_false in He. apply He. apply existsb_exists.
    exists (i, x). split; [by apply list_elem_of_In, elem_of_map_to_list | by apply Z.ltb_lt].
  - intros _ f [= <-]. lia.
Qed.

Lemma store_body_triple f max :
  0 ≤ index (header f) →
  triple (λ a, acc_inv a ∧ maximum_message_bytes a = max ∧
               ∀ fi, final_index a = Some fi → index (header f) ≤ fi)
    (store_body f)
    (λ r a, acc_inv a ∧ maximum_message_bytes a = max ∧ push_answer max r).
Proof.
  intros Hi a (Ha & Hm & Hf). unfold store_body, bindM, getM, liftM.
  destruct (fragments a !! _) as [x|] eqn:Hx.
  - case_bool_decide; simpl; [|naive_solver]. split_and!; [done|done|].
    rewrite <- Hm. by apply try_complete_answer.
  - unfold checked_add. destruct (Z.ltb_spec (total_bytes a + len (body f)) (2 ^ 64));
      [|simpl; naive_solver].
    destruct Ha as [Hidx Ht Hb]. pose proof (len_nonneg (body f)). simpl.
    destruct (Z.ltb_spec (maximum_message_bytes a) (total_bytes a + len (body f))) as [Hlt|Hle];
      simpl.
    + split_and!; [constructor; simpl; [done|lia|done] | done | done].
    + assert (acc_inv (a <| total_bytes := total_bytes a + len (body f) |>
                         <| fragments ::= <[index (header f) := body f]> |>)) as Ha'.
      { constructor; simpl; rewrite ?map_bytes_insert by done; [|lia|lia].
        intros i. rewrite lookup_insert. case_decide as Hd; [subst; auto|apply Hidx]. }
      split_and!; [done|done|]. rewrite <- Hm. apply (try_complete_answer _ Ha').
Qed.

Lemma push_triple f max :
  0 ≤ index (header f) →
  triple (λ a, acc_inv a ∧ maximum_message_bytes a = max) (push f)
    (λ r a, acc_inv a ∧ maximum_message_bytes a = max ∧ push_answer max r).
Proof.
  intros Hi a (Ha & Hm). unfold push. rewrite !bindM_get.
  destruct (negb _); [done|].
  destruct (is_some_and _ (final_index a)) eqn:Hg; [done|].
  refine (triple_bind _ (record_final _) (λ _, store_body f) _
    (λ r a, acc_inv a ∧ maximum_message_bytes a = max ∧ push_answer max r) _ _ _ _ a _).
  - apply (record_final_triple (header f) max Hi).
  - intros [] a' (Ha' & Hm' & Hf' & _). apply (store_body_triple f max Hi). auto.
  - simpl. naive_solver.
  - simpl. naive_solver.
  - split_and!; [done|done|]. intros fi Hfi.
    rewrite is_some_and_false in Hg. specialize (Hg fi Hfi). apply Z.ltb_ge in Hg. done.
Qed.

Lemma push_all_inv id max l :
  0 ≤ max → Forall (λ f, 0 ≤ index (header f)) l →
  acc_inv (push_all (accumulator_new id max) l) ∧
  maximum_message_bytes (push_all (accumulator_new id max) l) = max.
Proof.
  intros Hmax. unfold push_all. induction l as [|f l IH] using rev_ind; intros Hl; simpl.
  - split; [by apply accumulator_new_inv | done].
  - apply Forall_app in Hl as [Hl Hf]. rewrite Forall_singleton in Hf.
    rewrite foldl_app. simpl. destruct (push_triple f max Hf _ (IH Hl)) as (Ha & Hm & _).
    done.
Qed.

(** ** Reassembly of a split message in any order *)
Section reassembly.
Context (message : bytes) (st et id max : Z) (frs : list Fragment).
Hypothesis Hsplit : split message st et id = Ok frs.
Hypothesis Hlen : len message ≤ max.
Hypothesis Hmax : max < 2 ^ 64.

Let bodies := split_bodies message.

(** The accumulator after it received the fragments in [l]. *)
Record received (l : list Fragment) (a : FragmentAccumulator) : Prop := {
  rcv_id : acc_state_id a = id;
  rcv_max : maximum_message_bytes a = max;
  rcv_fragments : ∀ i b, fragments a !! i = Some b ↔
    ∃ n, i = Z.of_nat n ∧ bodies !! n = Some b ∧
         fragment_at st et id (length bodies) n b ∈ l;
  rcv_final : ∀ f, final_index a = Some f ↔
    f = len bodies - 1 ∧
    ∃ b, fragment_at st et id (length bodies) (length bodies - 1) b ∈ l ∧
         bodies !! (length bodies - 1)%nat = Some b;
  rcv_total : total_bytes a = map_bytes (fragments a);
}.

Lemma bodies_nonempty : (0 < length bodies)%nat.
Proof.
  unfold bodies, split_bodies. case_bool_decide as Hm; [simpl; lia|].
  rewrite length_chunks. apply Nat.div_str_pos.
  assert (0 < length message)%nat by (destruct message; [done | simpl; lia]).
  unfold MAX_FRAGMENT_BODY_BYTES. lia.
Qed.

Lemma received_subset l a : received l a → fragments a ⊆ map_seqZ 0 bodies.
Proof.
  intros [_ _ Hfr _ _]. apply map_subseteq_spec. intros i b Hb.
  apply Hfr in Hb as (n & -> & Hb & _). apply lookup_map_seqZ_Some.
  split; [lia|]. by rewrite Z.sub_0_r, Nat2Z.id.
Qed.

Lemma bodies_bytes : map_bytes (map_seqZ 0 bodies) = len message.
Proof.
  rewrite map_bytes_seqZ, <- len_concat. unfold bodies. by rewrite concat_split_bodies.
Qed.

Lemma received_inv l a : received l a → acc_inv a.
Proof.
  intros Hr. pose proof (map_bytes_mono _ _ (received_subset l a Hr)) as Hle.
  rewrite bodies_bytes in Hle. pose proof bodies_nonempty.
  destruct Hr as [_ Hm Hfr Hfi Ht]. constructor; [|lia|lia].
  intros i [b Hb]. apply Hfr in Hb as (n & -> & Hb & _). apply lookup_lt_Some in Hb.
  split; [lia|]. intros f Hf. apply Hfi in Hf as [-> _]. unfold len. lia.
Qed.

Lemma received_new : received [] (accumulator_new id max).
Proof.
  constructor; simpl; try done.
  - intros i b. rewrite lookup_empty. split; [done|]. intros (n & _ & _ & H). set_solver.
  - intros f. split; [done|]. intros (_ & b & H & _). set_solver.
Qed.

Lemma fragment_at_inj n m b b' :
  fragment_at st et id (length bodies) n b = fragment_at st et id (length bodies) m b' →
  n = m ∧ b = b'.
Proof. intros [= Hn _ Hb]. split; [lia | done]. Qed.

Lemma fragment_of_split f :
  f ∈ frs → ∃ n b, bodies !! n = Some b ∧ f = fragment_at st et id (length bodies) n b.
Proof.
  intros Hf. apply list_elem_of_lookup in Hf as [n Hn].
  apply (split_lookup _ _ _ _ _ _ _ Hsplit) in Hn as (b & Hb & ->). eauto.
Qed.
(** The final index a received fragment leaves. *)
Lemma received_record_final l a n b :
  received l a → bodies !! n = Some b →
  let f := fragment_at st et id (length bodies) n b in
  record_final (header f) a =
    (if is_final (header f) then a <| final_index := Some (len bodies - 1) |> else a, Ok tt).
Proof.
  intros Hr Hb f. unfold record_final. rewrite bindM_get.
  destruct (is_final (header f)) eqn:Hf; [|done].
  assert (Z.of_nat n = len bodies - 1) as Hn.
  { subst f. simpl in Hf. apply Z.eqb_eq in Hf. unfold len. lia. }
  assert (index (header f) = len bodies - 1) as -> by done.
  replace (is_some_and _ (final_index a)) with false.
  2:{ symmetry. apply is_some_and_false. intros fi Hfi.
      apply (rcv_final _ _ Hr) in Hfi as [-> _]. by rewrite Z.eqb_refl. }
  replace (existsb _ _) with false; [done|].
  symmetry. apply not_true_iff_false. intros He.
  apply existsb_exists in He as ([i x] & Hi & Hlt).
  apply list_elem_of_In, elem_of_map_to_list in Hi. simpl in Hlt. apply Z.ltb_lt in Hlt.
  apply (rcv_fragments _ _ Hr) in Hi as (m & -> & Hm & _).
  apply lookup_lt_Some in Hm. unfold len in *. lia.
Qed.

(** The accumulator a received fragment leaves. *)
Definition after_push (n : nat) (b : bytes) (a : FragmentAccumulator) :=
  let a1 := if Z.of_nat n + 1 =? len bodies
            then a <| final_index := Some (len bodies - 1) |> else a in
  match fragments a !! Z.of_nat n with
  | Some _ => a1
  | None => a1 <| total_bytes := total_bytes a + len b |>
               <| fragments ::= <[Z.of_nat n := b]> |>
  end.

Lemma received_push_eq l a n b :
  received l a → bodies !! n = Some b →
  push (fragment_at st et id (length bodies) n b) a
  = (after_push n b a, try_complete (after_push n b a)).
Proof.
  intros Hr Hb. pose proof (received_subset l a Hr) as Hsub.
  pose proof (lookup_lt_Some _ _ _ Hb) as Hn.
  pose proof (received_record_final l a n b Hr Hb) as Hrec. cbv zeta in Hrec.
  set (f := fragment_at st et id (length bodies) n b) in *.
  assert (state_id (header f) = id) as Eid by done.
  assert (index (header f) = Z.of_nat n) as Eidx by done.
  assert (is_final (header f) = (Z.of_nat n + 1 =? len bodies)) as Efin by done.
  assert (body f = b) as Ebody by done.
  unfold push. rewrite bindM_get, Eid, (rcv_id _ _ Hr), Z.eqb_refl. cbn [negb].
  replace (is_some_and _ (final_index a)) with false.
  2:{ symmetry. apply is_some_and_false. intros fi Hfi.
      apply (rcv_final _ _ Hr) in Hfi as [-> _]. rewrite Eidx. apply Z.ltb_ge.
      unfold len. lia. }
  unfold bindM at 1. rewrite Hrec, Efin.
  unfold after_push, store_body. rewrite bindM_get, Eidx, Ebody.
  set (a1 := if Z.of_nat n + 1 =? len bodies then _ else a).
  assert (fragments a1 = fragments a) as -> by (subst a1; by destruct (_ =? _)).
  assert (total_bytes a1 = total_bytes a) as -> by (subst a1; by destruct (_ =? _)).
  assert (maximum_message_bytes a1 = max) as ->.
  { rewrite <- (rcv_max _ _ Hr). subst a1. by destruct (_ =? _). }
  destruct (fragments a !! Z.of_nat n) as [x|] eqn:Hx.
  - apply (rcv_fragments _ _ Hr) in Hx as (m & Hm & Hx & _).
    apply Nat2Z.inj in Hm as <-. rewrite Hb in Hx. injection Hx as <-.
    by rewrite bool_decide_true.
  - assert (map_bytes (<[Z.of_nat n := b]> (fragments a)) ≤ len message) as Hle.
    { rewrite <- bodies_bytes. apply map_bytes_mono, insert_subseteq_l; [|done].
      apply lookup_map_seqZ_Some. split; [lia|]. by rewrite Z.sub_0_r, Nat2Z.id. }
    rewrite map_bytes_insert, <- (rcv_total _ _ Hr) in Hle by done.
    unfold checked_add. replace (_ <? 2 ^ 64) with true by (symmetry; apply Z.ltb_lt; lia).
    simpl ok_or. unfold liftM at 1. unfold bindM at 1. rewrite bindM_mod.
    replace (max <? _) with false by (symmetry; apply Z.ltb_ge; lia).
    by rewrite bindM_mod, bindM_get.
Qed.
Lemma after_push_received l a n b :
  received l a → bodies !! n = Some b →
  received (l ++ [fragment_at st et id (length bodies) n b]) (after_push n b a).
Proof.
  intros Hr Hb. pose proof (lookup_lt_Some _ _ _ Hb) as Hn.
  assert (∀ i x, fragments (after_push n b a) !! i = Some x ↔
            fragments a !! i = Some x ∨ (i = Z.of_nat n ∧ x = b)) as Hfr.
  { intros i x. unfold after_push. set (a1 := if Z.of_nat n + 1 =? len bodies then _ else a).
    assert (fragments a1 = fragments a) as E by (subst a1; by destruct (_ =? _)).
    destruct (fragments a !! Z.of_nat n) as [y|] eqn:Hy; simpl; rewrite E.
    - assert (y = b) as ->.
      { apply (rcv_fragments _ _ Hr) in Hy as (m & Hm & Hy & _).
        apply Nat2Z.inj in Hm as <-. congruence. }
      naive_solver.
    - rewrite lookup_insert_Some. destruct (decide (Z.of_nat n = i)) as [<-|]; naive_solver. }
  constructor.
  - rewrite <- (rcv_id _ _ Hr). unfold after_push.
    by destruct (fragments a !! _), (_ =? _).
  - rewrite <- (rcv_max _ _ Hr). unfold after_push.
    by destruct (fragments a !! _), (_ =? _).
  - intros i x. rewrite Hfr, (rcv_fragments _ _ Hr). setoid_rewrite elem_of_app.
    split.
    + intros [(m & -> & Hm & Hin) | [-> ->]]; [eauto 6|]. exists n. set_solver.
    + intros (m & -> & Hm & [Hin | Hin]); [eauto 6|].
      apply list_elem_of_singleton, fragment_at_inj in Hin as [-> ->]. auto.
  - intros f. transitivity (if Z.of_nat n + 1 =? len bodies then f = len bodies - 1
                            else final_index a = Some f).
    { unfold after_push. destruct (fragments a !! _), (_ =? _); simpl; naive_solver. }
    setoid_rewrite elem_of_app.
    destruct (Z.eqb_spec (Z.of_nat n + 1) (len bodies)) as [He|He]; unfold len in He;
      [|rewrite (rcv_final _ _ Hr)].
    + split; [|tauto]. intros ->. split; [done|].
      assert (length bodies - 1 = n)%nat as -> by lia. exists b. set_solver.
    + split; [naive_solver|]. intros (-> & x & [Hin|Hin] & Hx); [eauto|].
      apply list_elem_of_singleton, fragment_at_inj in Hin as [Hin _]. lia.
  - rewrite <- (Z.add_0_r (total_bytes _)). unfold after_push.
    set (a1 := if Z.of_nat n + 1 =? len bodies then _ else a).
    assert (fragments a1 = fragments a ∧ total_bytes a1 = total_bytes a) as [E1 E2]
      by (subst a1; by destruct (_ =? _)).
    destruct (fragments a !! Z.of_nat n) eqn:Hy; simpl; rewrite E1.
    + rewrite E2, (rcv_total _ _ Hr). lia.
    + rewrite map_bytes_insert, (rcv_total _ _ Hr) by done. lia.
Qed.

Lemma received_push l a f :
  received l a → f ∈ frs →
  received (l ++ [f]) (fst (push f a)) ∧ snd (push f a) = try_complete (fst (push f a)).
Proof.
  intros Hr Hf. apply fragment_of_split in Hf as (n & b & Hb & ->).
  rewrite (received_push_eq l) by done. simpl. split; [|done].
  by apply after_push_received.
Qed.

Lemma received_push_all l :
  l ⊆ frs → received l (push_all (accumulator_new id max) l).
Proof.
  induction l as [|f l IH] using rev_ind; intros Hl; [apply received_new|].
  unfold push_all in *. rewrite foldl_app. simpl.
  apply received_push; [apply IH|]; set_solver.
Qed.

Lemma received_complete l a :
  l ⊆ frs → received l a →
  try_complete a = if decide (frs ⊆ l) then Ok (Some message) else Ok None.
Proof.
  intros Hl Hr. pose proof (received_subset l a Hr) as Hsub. pose proof bodies_nonempty.
  destruct (try_complete_spec a (received_inv l a Hr)) as [(k & -> & Hk & Hf) | [-> Hno]].
  - apply (rcv_final _ _ Hr) in Hf as [Hf _].
    assert (k = bodies) as ->.
    { apply (map_seqZ_inj (M:=gmap Z) 0). rewrite <- Hk. apply map_subseteq_size_eq; [done|].
      rewrite Hk, !size_map_seqZ. unfold len in Hf. lia. }
    rewrite decide_True; [unfold bodies; by rewrite concat_split_bodies|].
    intros f Hin. apply fragment_of_split in Hin as (n & b & Hb & ->).
    assert (fragments a !! Z.of_nat n = Some b) as Hfr.
    { rewrite Hk. apply lookup_map_seqZ_Some. split; [lia|]. by rewrite Z.sub_0_r, Nat2Z.id. }
    apply (rcv_fragments _ _ Hr) in Hfr as (m & Hm & Hb' & Hin).
    by apply Nat2Z.inj in Hm as <-.
  - rewrite decide_False; [done|]. intros Hall.
    assert (∀ n b, bodies !! n = Some b → fragment_at st et id (length bodies) n b ∈ l) as Hin.
    { intros n b Hb. apply Hall, list_elem_of_lookup. exists n.
      apply (split_lookup _ _ _ _ _ _ _ Hsplit). eauto. }
    apply (Hno (len bodies - 1)).
    + apply (rcv_final _ _ Hr). split; [done|].
      destruct (lookup_lt_is_Some_2 bodies (length bodies - 1)) as [b Hb]; [lia|]. eauto.
    + replace (fragments a) with (map_seqZ (M:=gmap Z bytes) 0 bodies);
        [rewrite size_map_seqZ; unfold len; lia|].
      apply map_eq. intros i. symmetry.
      destruct (map_seqZ 0 bodies !! i) as [b|] eqn:Hi.
      * apply lookup_map_seqZ_Some in Hi as [Hi Hb].
        apply (rcv_fragments _ _ Hr). exists (Z.to_nat (i - 0)). split_and!; [lia|done|auto].
      * by eapply lookup_weaken_None.
Qed.
End reassembly.

(** ** Properties *)

(** The fragment wire format round-trips in both directions: parsing what
    [encode] wrote gives the fragment back (the final bit and the fifteen index
    bits are recovered from the shared word), and whatever bytes [parse]
    accepts are exactly the encoding of the well-formed fragment it returns. *)
Theorem fragment_round_trip f p :
  wf_fragment f → Forall is_byte p →
  parse (encode f) = Ok f ∧
  (∀ g, parse p = Ok g → encode g = p ∧ wf_fragment g).
Proof. intros Hf Hp. split; [by apply parse_encode | intros g; by apply encode_parse]. Qed.

(** [split] fails exactly when the message is longer than 32768 bodies of 1214
    bytes; otherwise its fragments are numbered consecutively from 0, only the
    last one is marked final, every body respects the size limit, and the bodies
    concatenate to the message. *)
Theorem split_numbers_and_covers message st et id :
  (len message > MAX_SPLIT_BYTES → split message st et id = Err TooManyFragments) ∧
  (len message ≤ MAX_SPLIT_BYTES → ∃ frs, split message st et id = Ok frs ∧
     concat (body <$> frs) = message ∧
     ∀ i f, frs !! i = Some f →
       index (header f) = Z.of_nat i ∧
       (is_final (header f) = true ↔ i = (length frs - 1)%nat) ∧
       len (body f) ≤ MAX_FRAGMENT_BODY_BYTES ∧
       sent_timestamp (header f) = st ∧ echoed_timestamp (header f) = et ∧
       state_id (header f) = id).
Proof.
  rewrite split_eq. split; intros Hl.
  { by replace (MAX_SPLIT_BYTES <? len message) with true by (symmetry; apply Z.ltb_lt; lia). }
  replace (MAX_SPLIT_BYTES <? len message) with false by (symmetry; apply Z.ltb_ge; lia).
  eexists. split; [done|]. split.
  { etransitivity; [|apply concat_split_bodies]. f_equal. apply list_eq. intros i.
    rewrite list_lookup_fmap, list_lookup_imap. by destruct (split_bodies message !! i). }
  intros i f Hf. rewrite list_lookup_imap in Hf.
  apply fmap_Some in Hf as (b & Hb & ->). rewrite length_imap. simpl.
  pose proof (lookup_lt_Some _ _ _ Hb). rewrite Z.eqb_eq. split_and!; try done; [lia|].
  exact (Forall_lookup_1 _ _ _ _ (split_bodies_bound message) Hb).
Qed.

(** C10: An accumulator fed with any sequence of fragments, conflicting ones and
    errors included, never stores more than its configured maximum, never
    returns a longer message, never panics, and never fails with
    [MissingFragment]. *)
Theorem accumulator_bounded id max l f :
  0 ≤ max → Forall (λ g, 0 ≤ index (header g)) (l ++ [f]) →
  let acc := push_all (accumulator_new id max) l in
  map_bytes (fragments (fst (push f acc))) ≤ max ∧ push_answer max (snd (push f acc)).
Proof.
  intros Hmax Hl acc. apply Forall_app in Hl as [Hl Hf]. rewrite Forall_singleton in Hf.
  destruct (push_triple f max Hf acc (push_all_inv id max l Hmax Hl)) as ([_ _ Hb] & Hm & Ha).
  split; [|done]. fold acc in Hb, Hm. lia.
Qed.

(** C9: Whatever the order in which the fragments of a split message arrive, and
    however many of them are duplicated, a push answers with exactly the
    original message as soon as every fragment has been received at least once,
    and with nothing before that; no push fails. *)
Theorem reassembles_in_any_order message st et id max frs l f :
  split message st et id = Ok frs →
  len message ≤ max → max < 2 ^ 64 →
  l ⊆ frs → f ∈ frs →
  snd (push f (push_all (accumulator_new id max) l))
  = if decide (frs ⊆ l ++ [f]) then Ok (Some message) else Ok None.
Proof.
  intros Hsplit Hlen Hmax Hl Hf.
  pose proof (received_push_all message st et id max frs Hsplit Hlen Hmax l Hl) as Hr.
  destruct (received_push message st et id max frs Hsplit Hlen Hmax l _ f Hr Hf) as [Hr' ->].
  eapply received_complete; eauto. set_solver.
Qed.

(** ** Witnesses *)
Definition demo_fragment (i : Z) (fin : bool) (b : bytes) : Fragment :=
  {| header := {| sent_timestamp := 4660; echoed_timestamp := 65535; state_id := 7;
                  index := i; is_final := fin |}; body := b |}.

Definition demo_message : bytes := replicate 2445 90.

Definition demo_fragments : list Fragment :=
  [demo_fragment 0 false (replicate 1214 90); demo_fragment 1 false (replicate 1214 90);
   demo_fragment 2 true (replicate 17 90)].

Lemma fragment_round_trip_witness :
  parse (encode (demo_fragment 5 true [1; 2; 3])) = Ok (demo_fragment 5 true [1; 2; 3]) ∧
  (∀ g, parse (replicate 14 9) = Ok g → encode g = replicate 14 9 ∧ wf_fragment g).
Proof.
  apply fragment_round_trip.
  - split; [constructor; unfold fits; simpl; lia | vm_compute; discriminate].
  - repeat constructor; unfold is_byte, fits; lia.
Defined.

Lemma accumulator_bounded_witness :
  let acc := push_all (accumulator_new 7 3) [demo_fragment 0 false [1; 2]] in
  map_bytes (fragments (fst (push (demo_fragment 1 true [3; 4]) acc))) ≤ 3 ∧
  push_answer 3 (snd (push (demo_fragment 1 true [3; 4]) acc)).
Proof.
  apply (accumulator_bounded 7 3 [demo_fragment 0 false [1; 2]] (demo_fragment 1 true [3; 4]));
    [lia | repeat constructor; simpl; lia].
Defined.

Lemma reassembles_in_any_order_witness :
  snd (push (demo_fragment 0 false (replicate 1214 90))
         (push_all (accumulator_new 7 2445)
            [demo_fragment 1 false (replicate 1214 90); demo_fragment 2 true (replicate 17 90)]))
  = if decide (demo_fragments ⊆
       [demo_fragment 1 false (replicate 1214 90); demo_fragment 2 true (replicate 17 90)]
       ++ [demo_fragment 0 false (replicate 1214 90)])
    then Ok (Some demo_message) else Ok None.
Proof.
  apply (reassembles_in_any_order demo_message 4660 65535 7 2445 demo_fragments);
    [vm_compute; reflexivity | vm_compute; discriminate | lia | by apply list_subseteq_cons
    | constructor].
Defined.
