(* ===== verification/Message.v ===== *)
(** * Wire messages

    The model of [crates/ferrumtty-wire/src/message.rs]: the protobuf messages,
    the validating pre-pass over their encoding ([decode_varint], [skip_value],
    [validate_fields], [length_delimited_fields], [validate_instruction_batch])
    and the compressed envelope ([encode_compressed_update],
    [decode_compressed_update]).

    The protobuf code that the [prost] derive generates and the zlib streams of
    [flate2] are not part of the sources: they are the operations of the classes
    [Prost] and [Zlib].  Their laws are the documented behaviour: the proto3 wire
    format of the declared fields, and lossless compression. *)
From S2P Require Import Prelude.
Local Open Scope Z_scope.

Definition PROTOCOL_VERSION : Z := 2.
Definition MAXIMUM_DECOMPRESSED_BYTES : Z := 16 * 1024 * 1024.
Definition SESSION_CONTROL_CAPABILITY : Z := 1.

Record ByteRun := mkByteRun { run_value : bytes }.
Record ViewportSize := mkViewportSize { columns : Z; rows : Z }.
Record Marker := mkMarker { marker_value : Z }.
Record SessionControl := mkSessionControl { kind : Z; payload : bytes }.

Record Instruction := mkInstruction {
  instr_bytes : option ByteRun;
  viewport : option ViewportSize;
  marker : option Marker;
  session_control : option SessionControl;
}.

Record InstructionBatch := mkInstructionBatch { instructions : list Instruction }.

Record StateUpdate := mkStateUpdate {
  protocol_version : Z;
  base_state : Z;
  target_state : Z;
  acknowledged_state : Z;
  discard_before : Z;
  delta : bytes;
  padding : bytes;
  capabilities : bytes;
}.

#[export] Instance eta_StateUpdate : Eta StateUpdate := λ u,
  mkStateUpdate (protocol_version u) (base_state u) (target_state u)
    (acknowledged_state u) (discard_before u) (delta u) (padding u) (capabilities u).
#[export] Instance upd_discard_before : Update discard_before := ltac:(solve_update).
#[export] Instance upd_delta : Update delta := ltac:(solve_update).
#[export] Instance upd_capabilities : Update capabilities := ltac:(solve_update).

#[export] Instance ByteRun_eq_dec : EqDecision ByteRun.
Proof. intros x y. unfold Decision. decide equality; apply decide; apply _. Defined.
#[export] Instance ViewportSize_eq_dec : EqDecision ViewportSize.
Proof. intros x y. unfold Decision. decide equality; apply decide; apply _. Defined.
#[export] Instance Marker_eq_dec : EqDecision Marker.
Proof. intros x y. unfold Decision. decide equality; apply decide; apply _. Defined.
#[export] Instance SessionControl_eq_dec : EqDecision SessionControl.
Proof. intros x y. unfold Decision. decide equality; apply decide; apply _. Defined.
#[export] Instance Instruction_eq_dec : EqDecision Instruction.
Proof. intros x y. unfold Decision. decide equality; apply decide; apply _. Defined.
#[export] Instance InstructionBatch_eq_dec : EqDecision InstructionBatch.
Proof. intros x y. unfold Decision. decide equality; apply decide; apply _. Defined.
#[export] Instance StateUpdate_eq_dec : EqDecision StateUpdate.
Proof. intros x y. unfold Decision. decide equality; apply decide; apply _. Defined.

Inductive MessageError :=
| CompressionFailed
| DecompressionFailed
| DecompressedMessageTooLarge
| MalformedProtobuf
| UnsupportedProtocolVersion
| UnsupportedWireType.

#[export] Instance MessageError_eq_dec : EqDecision MessageError.
Proof. solve_decision. Defined.

(** ** The validating pre-pass *)

Fixpoint decode_varint_from (index : Z) (value : Z) (encoded : bytes)
    : outcome MessageError (Z * Z) :=
  match encoded with
  | [] => Err MalformedProtobuf
  | byte :: encoded =>
      let payload := Z.land byte 127 in
      if (index =? 9) && (1 <? payload) then Err MalformedProtobuf
      else
        let value := Z.lor value (shl 64 payload (index * 7)) in
        if Z.land byte 128 =? 0 then Ok (value, index + 1)
        else decode_varint_from (index + 1) value encoded
  end.

Definition decode_varint (encoded : bytes) : outcome MessageError (Z * Z) :=
  decode_varint_from 0 0 (take 10 encoded).

Definition skip_value (encoded : bytes) (wire_type : Z) : outcome MessageError bytes :=
  if wire_type =? 0 then
    let? (_, n) := decode_varint encoded in
    slice_from n encoded
  else if wire_type =? 1 then ok_or MalformedProtobuf (get_from 8 encoded)
  else if wire_type =? 2 then
    let? (length, n) := decode_varint encoded in
    let? length := ok_or MalformedProtobuf (try_into 64 length) in
    let? rest := slice_from n encoded in
    ok_or MalformedProtobuf (get_from length rest)
  else if wire_type =? 5 then ok_or MalformedProtobuf (get_from 4 encoded)
  else Err UnsupportedWireType.

(** One iteration of the loop of [validate_fields]: the bytes that remain. *)
Definition validate_field (allowed : list (Z * Z)) (remaining : bytes)
    : outcome MessageError bytes :=
  let? (key, key_bytes) := decode_varint remaining in
  let? remaining := slice_from key_bytes remaining in
  let field := Z.shiftr key 3 in
  let? wire_type := expect (try_into 8 (Z.land key 7)) in
  match find (λ entry, entry.1 =? field) allowed with
  | Some (_, expected_wire_type) =>
      if negb (wire_type =? expected_wire_type) then Err UnsupportedWireType
      else skip_value remaining wire_type
  | None => skip_value remaining wire_type
  end.

(** [while !remaining.is_empty() { .. }].  Every iteration consumes a byte, so
    the fuel is the length of the input; running out of it would be [Panic]. *)
Fixpoint validate_fields_loop (fuel : nat) (allowed : list (Z * Z)) (remaining : bytes)
    : outcome MessageError unit :=
  match remaining with
  | [] => Ok tt
  | _ :: _ =>
      match fuel with
      | O => Panic
      | S fuel =>
          let? remaining := validate_field allowed remaining in
          validate_fields_loop fuel allowed remaining
      end
  end.

Definition validate_fields (encoded : bytes) (allowed : list (Z * Z))
    : outcome MessageError unit :=
  validate_fields_loop (length encoded) allowed encoded.

(** One iteration of [length_delimited_fields]: the field it yields, if it is
    length-delimited, and the bytes that remain. *)
Definition delimited_field (encoded : bytes)
    : outcome MessageError (option (Z * bytes) * bytes) :=
  let? (key, key_bytes) := decode_varint encoded in
  let? encoded := slice_from key_bytes encoded in
  let field := Z.shiftr key 3 in
  let? wire_type := expect (try_into 8 (Z.land key 7)) in
  if (wire_type =? 0) || (wire_type =? 1) || (wire_type =? 5) then
    let? encoded := skip_value encoded wire_type in
    Ok (None, encoded)
  else if wire_type =? 2 then
    let? (length, length_bytes) := decode_varint encoded in
    let? encoded := slice_from length_bytes encoded in
    let? length := ok_or MalformedProtobuf (try_into 64 length) in
    let? value := ok_or MalformedProtobuf (get_to length encoded) in
    Ok (Some (field, value), drop (Z.to_nat length) encoded)
  else Err UnsupportedWireType.

Fixpoint length_delimited_fields_loop (fuel : nat) (encoded : bytes)
    : outcome MessageError (list (Z * bytes)) :=
  match encoded with
  | [] => Ok []
  | _ :: _ =>
      match fuel with
      | O => Panic
      | S fuel =>
          let? (value, encoded) := delimited_field encoded in
          let? values := length_delimited_fields_loop fuel encoded in
          Ok (option_list value ++ values)
      end
  end.

Definition length_delimited_fields (encoded : bytes)
    : outcome MessageError (list (Z * bytes)) :=
  length_delimited_fields_loop (length encoded) encoded.

Definition length_delimited_values (encoded : bytes) (allowed : list (Z * Z))
    : outcome MessageError (list bytes) :=
  let? _ := validate_fields encoded allowed in
  let? fields := length_delimited_fields encoded in
  Ok (snd <$> filter (λ entry, (entry.1, 2) ∈ allowed) fields).

Definition validate_instruction (instruction : bytes) : outcome MessageError unit :=
  let? _ := validate_fields instruction [(2, 2); (3, 2); (7, 2); (9, 2)] in
  let? fields := length_delimited_fields instruction in
  for_each (λ '(field, value),
    if field =? 2 then validate_fields value [(4, 2)]
    else if field =? 3 then validate_fields value [(5, 0); (6, 0)]
    else if field =? 7 then validate_fields value [(8, 0)]
    else if field =? 9 then validate_fields value [(10, 0); (11, 2)]
    else Ok tt) fields.

Definition validate_instruction_batch (encoded : bytes) : outcome MessageError unit :=
  let? values := length_delimited_values encoded [(1, 2)] in
  for_each validate_instruction values.

Definition update_fields : list (Z * Z) :=
  [(1, 0); (2, 0); (3, 0); (4, 0); (5, 0); (6, 2); (7, 2); (8, 2)].

(** ** The libraries the messages are encoded with *)

(** [prost::Message::encode] and [decode] of the two messages the code encodes. *)
Class Prost := {
  prost_encode_update : StateUpdate → bytes;
  prost_decode_update : bytes → option StateUpdate;
  prost_encode_batch : InstructionBatch → bytes;
  prost_decode_batch : bytes → option InstructionBatch;
}.

(** [ZlibEncoder] run to its end, and [ZlibDecoder::take(limit).read_to_end]. *)
Class Zlib := {
  zlib_compress : bytes → option bytes;
  zlib_read : bytes → Z → option bytes;
}.

Definition StateUpdate_new (base_state target_state acknowledged_state : Z) : StateUpdate := {|
  protocol_version := PROTOCOL_VERSION;
  base_state := base_state;
  target_state := target_state;
  acknowledged_state := acknowledged_state;
  discard_before := 0;
  delta := [];
  padding := [];
  capabilities := [];
|}.

Section messages.
Context `{Prost} `{Zlib}.

Definition decode_instructions (self : StateUpdate) : outcome MessageError InstructionBatch :=
  let? _ := validate_instruction_batch (delta self) in
  ok_or MalformedProtobuf (prost_decode_batch (delta self)).

Definition encode_bytes (self : InstructionBatch) : bytes := prost_encode_batch self.

Definition encode_compressed_update (update : StateUpdate) : outcome MessageError bytes :=
  if negb (protocol_version update =? PROTOCOL_VERSION) then Err UnsupportedProtocolVersion
  else ok_or CompressionFailed (zlib_compress (prost_encode_update update)).

Definition decode_compressed_update (compressed : bytes) : outcome MessageError StateUpdate :=
  let? encoded := ok_or DecompressionFailed
                    (zlib_read compressed (MAXIMUM_DECOMPRESSED_BYTES + 1)) in
  if MAXIMUM_DECOMPRESSED_BYTES <? len encoded then Err DecompressedMessageTooLarge
  else
    let? _ := validate_fields encoded update_fields in
    let? update := ok_or MalformedProtobuf (prost_decode_update encoded) in
    if negb (protocol_version update =? PROTOCOL_VERSION) then Err UnsupportedProtocolVersion
    else
      let? _ := validate_instruction_batch (delta update) in
      Ok update.

End messages.

(** ** The wire format

    The reference encoding of protobuf: little-endian groups of seven bits, and
    fields as a key (field number and wire type) followed by a value. *)

(** The value of a list of varint bytes. *)
Definition varint_value (l : bytes) : Z := foldr (λ b acc, b mod 128 + 128 * acc) 0 l.

(** A complete varint: continuation bytes, a last byte without the continuation
    bit, at most ten bytes, and a value that fits 64 bits. *)
Definition is_varint (p : bytes) : Prop :=
  ∃ init last, p = init ++ [last] ∧ Forall (λ b, 128 ≤ b < 256) init ∧ 0 ≤ last < 128 ∧
    len p ≤ 10 ∧ varint_value p < 2 ^ 64.

Fixpoint encode_varint_fuel (fuel : nat) (v : Z) : bytes :=
  match fuel with
  | O => [v]
  | S fuel => if v <? 128 then [v] else (v mod 128 + 128) :: encode_varint_fuel fuel (v / 128)
  end.
Definition encode_varint (v : Z) : bytes := encode_varint_fuel 9 v.

Inductive wire_value :=
| VarintV (v : Z)
| Fixed64V (b : bytes)
| BytesV (b : bytes)
| Fixed32V (b : bytes).

Definition wire_type_of (w : wire_value) : Z :=
  match w with VarintV _ => 0 | Fixed64V _ => 1 | BytesV _ => 2 | Fixed32V _ => 5 end.

Definition encode_value (w : wire_value) : bytes :=
  match w with
  | VarintV v => encode_varint v
  | Fixed64V b => b
  | BytesV b => encode_varint (len b) ++ b
  | Fixed32V b => b
  end.

Definition encode_field (f : Z * wire_value) : bytes :=
  encode_varint (f.1 * 8 + wire_type_of f.2) ++ encode_value f.2.

Definition encode_wire (fs : list (Z * wire_value)) : bytes := mjoin (encode_field <$> fs).

Definition wf_value (w : wire_value) : Prop :=
  match w with
  | VarintV v => fits 64 v
  | Fixed64V b => len b = 8
  | BytesV b => len b < 2 ^ 64
  | Fixed32V b => len b = 4
  end.

Definition wf_field (f : Z * wire_value) : Prop := 0 ≤ f.1 < 2 ^ 61 ∧ wf_value f.2.

(** *** Varints *)

Lemma land_127 b : Z.land b 127 = b mod 128.
Proof. change 127 with (Z.ones 7). by rewrite Z.land_ones by lia. Qed.

Lemma land_128 b : 0 ≤ b < 256 → (Z.land b 128 =? 0) = (b <? 128).
Proof.
  intros Hb. change 128 with (2 ^ 7) at 1.
  assert ((Z.land b (2 ^ 7) =? 0) = negb (Z.testbit b 7)) as ->.
  { destruct (Z.testbit b 7) eqn:Ht; destruct (Z.eqb_spec (Z.land b (2 ^ 7)) 0) as [H|H]; try done.
    - assert (Z.testbit (Z.land b (2 ^ 7)) 7 = true) as H1 by by rewrite Z.land_spec, Ht.
      by rewrite H in H1.
    - exfalso. apply H, Z.bits_inj'. intros n Hn. rewrite Z.land_spec, Z.pow2_bits_eqb, Z.bits_0 by lia.
      destruct (Z.eqb_spec 7 n) as [<-|]; [by rewrite Ht | by rewrite andb_false_r]. }
  destruct (Z.ltb_spec b 128).
  - rewrite <- (Z.mod_small b (2 ^ 7)), Z.mod_pow2_bits_high by lia. done.
  - rewrite (proj2 (Z.testbit_true b 7 ltac:(lia))); [done|].
    replace (b / 2 ^ 7) with 1; [done|]. apply Z.div_unique with (b - 128); lia.
Qed.

Lemma lor_disjoint value payload i :
  0 ≤ i ≤ 9 → 0 ≤ value < 2 ^ (7 * i) → 0 ≤ payload < 128 → (i = 9 → payload ≤ 1) →
  Z.lor value (shl 64 payload (i * 7)) = value + 2 ^ (7 * i) * payload ∧
  value + 2 ^ (7 * i) * payload < 2 ^ 64.
Proof.
  intros Hi Hv Hp H9. unfold shl. rewrite Z.shiftl_mul_pow2 by lia.
  replace (i * 7) with (7 * i) by lia.
  assert (value + 2 ^ (7 * i) * payload < 2 ^ 64) as Hlt.
  { assert (2 ^ (7 * i) * (payload + 1) ≤ 2 ^ 64); [|lia].
    destruct (decide (i = 9)) as [->|Hn].
    - specialize (H9 eq_refl). change (2 ^ (7 * 9)) with (2 ^ 63). nia.
    - assert (2 ^ (7 * i) ≤ 2 ^ 56) by (apply Z.pow_le_mono_r; lia).
      transitivity (2 ^ 56 * 128); [nia | done]. }
  split; [|done]. assert (0 < 2 ^ (7 * i)) by (apply Z.pow_pos_nonneg; lia).
  rewrite (Z.mod_small (payload * _)) by nia. rewrite (Z.mul_comm payload).
  assert (Z.land value (2 ^ (7 * i) * payload) = 0) as Hl.
  { apply Z.bits_inj'. intros n Hn. rewrite Z.land_spec, Z.bits_0.
    destruct (Z.ltb_spec n (7 * i)).
    - rewrite (Z.mul_comm _ payload), Z.mul_pow2_bits_low by lia. apply andb_false_r.
    - rewrite <- (Z.mod_small value (2 ^ (7 * i))), Z.mod_pow2_bits_high by lia. done. }
  pose proof (Z.add_lor_land value (2 ^ (7 * i) * payload)). lia.
Qed.

Lemma varint_value_nonneg l : 0 ≤ varint_value l.
Proof.
  induction l as [|b l IH]; simpl; [lia|]. pose proof (Z.mod_pos_bound b 128). lia.
Qed.

Definition varint_split (i value : Z) (l : bytes) (v n : Z) : Prop :=
  ∃ init last rest, l = init ++ last :: rest ∧ Forall (λ b, 128 ≤ b < 256) init ∧
    0 ≤ last < 128 ∧ v = value + 2 ^ (7 * i) * varint_value (init ++ [last]) ∧
    n = i + len init + 1 ∧ v < 2 ^ 64.

Lemma varint_split_cons i value b l v n :
  0 ≤ i → 0 ≤ b < 256 →
  varint_split i value (b :: l) v n ↔
  if b <? 128 then v = value + 2 ^ (7 * i) * (b mod 128) ∧ n = i + 1 ∧ v < 2 ^ 64
  else varint_split (i + 1) (value + 2 ^ (7 * i) * (b mod 128)) l v n.
Proof.
  intros Hi Hb.
  assert (2 ^ (7 * (i + 1)) = 2 ^ (7 * i) * 128) as Hpow
    by (replace (7 * (i + 1)) with (7 * i + 7) by lia; rewrite Z.pow_add_r by lia; done).
  unfold varint_split. split.
  - intros (init & last & rest & Hl & Hc & Hlast & Hv & Hn & Hlt).
    destruct init as [|c init]; injection Hl as -> ->.
    + replace (last <? 128) with true by (symmetry; apply Z.ltb_lt; lia).
      rewrite Hv, Hn in *. simpl in *. rewrite (@len_nil Z) in *. split_and!; lia.
    + apply Forall_cons in Hc as [Hc Hinit].
      replace (c <? 128) with false by (symmetry; apply Z.ltb_ge; lia).
      exists init, last, rest. split_and!; try done; try lia.
      * rewrite Hv, Hpow. cbn [app varint_value foldr]. fold (varint_value (init ++ [last])). lia.
      * rewrite Hn, len_cons. lia.
  - destruct (Z.ltb_spec b 128).
    + intros (-> & -> & Hlt). exists [], b, l. rewrite (@len_nil Z). simpl.
      split_and!; try done; lia.
    + intros (init & last & rest & -> & Hc & Hlast & Hv & Hn & Hlt).
      exists (b :: init), last, rest. split_and!; try done; try lia.
      * constructor; [lia | done].
      * rewrite Hv, Hpow. cbn [app varint_value foldr]. fold (varint_value (init ++ [last])). lia.
      * rewrite Hn, len_cons. lia.
Qed.

Lemma decode_varint_from_spec l i value v n :
  Forall is_byte l → 0 ≤ i → i + len l ≤ 10 → 0 ≤ value < 2 ^ (7 * i) →
  decode_varint_from i value l = Ok (v, n) ↔ varint_split i value l v n.
Proof.
  revert i value. induction l as [|b l IH]; intros i value Hb Hi Hlen Hv.
  { split; [done|]. intros (init & last & rest & Hl & _). by destruct init. }
  apply Forall_cons in Hb as [Hb Hl]. unfold is_byte, fits in Hb.
  rewrite len_cons in Hlen. pose proof (len_nonneg l) as Hlen0.
  rewrite varint_split_cons by lia. cbn [decode_varint_from]. rewrite land_127, land_128 by lia.
  pose proof (Z.mod_pos_bound b 128 ltac:(lia)) as Hm.
  destruct ((i =? 9) && (1 <? b mod 128)) eqn:H9.
  - apply andb_true_iff in H9 as [H9 Hp]. apply Z.eqb_eq in H9 as ->. apply Z.ltb_lt in Hp.
    split; [done|]. destruct (b <? 128).
    + change (2 ^ (7 * 9)) with (2 ^ 63) in *. intros (-> & _ & ?). lia.
    + destruct l as [|c l]; [|rewrite len_cons in Hlen; pose proof (len_nonneg l); lia].
      intros (init & last & rest & Hx & _). by destruct init.
  - destruct (lor_disjoint value (b mod 128) i) as [-> Hlt]; [lia|done|lia| |].
    { intros ->. simpl in H9. apply Z.ltb_ge in H9. lia. }
    destruct (b <? 128); [naive_solver|].
    rewrite IH; try done; try lia.
    replace (7 * (i + 1)) with (7 * i + 7) by lia. rewrite Z.pow_add_r by lia.
    change (2 ^ 7) with 128. nia.
Qed.

(** What [decode_varint] accepts and what it answers. *)
Lemma decode_varint_Ok l v n :
  Forall is_byte l →
  decode_varint l = Ok (v, n) ↔
  ∃ p rest, l = p ++ rest ∧ is_varint p ∧ v = varint_value p ∧ n = len p.
Proof.
  intros Hl. unfold decode_varint.
  rewrite decode_varint_from_spec; [| by apply Forall_take | done | | done].
  2: { unfold len. rewrite length_take. lia. }
  unfold varint_split, is_varint. change (2 ^ (7 * 0)) with 1. split.
  - intros (init & last & rest & Ht & Hc & Hlast & Hv & Hn & Hlt).
    exists (init ++ [last]), (rest ++ drop 10 l). split_and!.
    + rewrite <- (take_drop 10 l) at 1. rewrite Ht, <- !app_assoc. done.
    + exists init, last. split_and!; try done; try lia.
      apply (f_equal length) in Ht. rewrite length_take, length_app in Ht.
      unfold len. rewrite length_app. cbn [length] in *. lia.
    + lia.
    + rewrite len_app, len_cons, (@len_nil Z). lia.
  - intros (p & rest & -> & (init & last & -> & Hc & Hlast & Hlen & Hlt) & -> & ->).
    rewrite len_app, len_cons, (@len_nil Z) in *. unfold len in Hlen.
    exists init, last, (take (10 - length (init ++ [last])) rest). split_and!; try done; try lia.
    rewrite take_app, take_ge by (rewrite length_app; simpl; lia).
    by rewrite <- app_assoc.
Qed.

Lemma decode_varint_from_safe l i value : decode_varint_from i value l ≠ Panic.
Proof.
  revert i value. induction l as [|b l IH]; intros; cbn [decode_varint_from]; [done|].
  destruct (_ && _); [done|]. destruct (_ =? 0); [done|]. apply IH.
Qed.

Lemma decode_varint_safe l : decode_varint l ≠ Panic.
Proof. apply decode_varint_from_safe. Qed.

Lemma decode_varint_from_count l i value v n :
  decode_varint_from i value l = Ok (v, n) → i + 1 ≤ n ≤ i + len l.
Proof.
  revert i value. induction l as [|b l IH]; intros i value; cbn [decode_varint_from]; [done|].
  rewrite len_cons. pose proof (len_nonneg l).
  destruct (_ && _); [done|]. destruct (_ =? 0); [intros [= _ <-]; lia|].
  intros Hr. apply IH in Hr. lia.
Qed.

(** A varint takes at least one byte and no more than there are. *)
Lemma decode_varint_count l v n :
  decode_varint l = Ok (v, n) → 1 ≤ n ≤ len l ∧ n ≤ 10.
Proof.
  intros Hr. apply decode_varint_from_count in Hr. unfold len in *.
  rewrite length_take in Hr. lia.
Qed.

Lemma lor_range w a b : 0 ≤ w → 0 ≤ a < 2 ^ w → 0 ≤ b < 2 ^ w → 0 ≤ Z.lor a b < 2 ^ w.
Proof.
  intros Hw Ha Hb. split; [apply Z.lor_nonneg; lia|].
  destruct (decide (Z.lor a b = 0)) as [->|Hn]; [lia|].
  assert (0 ≤ Z.lor a b) by (apply Z.lor_nonneg; lia).
  rewrite <- (Z.mod_small a (2 ^ w)), <- (Z.mod_small b (2 ^ w)) by done.
  rewrite <- !Z.land_ones by done. rewrite <- Z.land_lor_distr_l, Z.land_ones by done.
  apply Z.mod_pos_bound. lia.
Qed.

Lemma decode_varint_from_range l i value v n :
  fits 64 value → decode_varint_from i value l = Ok (v, n) → fits 64 v.
Proof.
  revert i value. induction l as [|b l IH]; intros i value Hv; cbn [decode_varint_from]; [done|].
  destruct (_ && _); [done|].
  assert (fits 64 (Z.lor value (shl 64 (Z.land b 127) (i * 7)))).
  { apply lor_range; [lia | done|]. apply Z.mod_pos_bound. lia. }
  destruct (_ =? 0); [by intros [= <- _]|]. by apply IH.
Qed.

Lemma decode_varint_range l v n : decode_varint l = Ok (v, n) → fits 64 v.
Proof. apply decode_varint_from_range. unfold fits. lia. Qed.

Lemma varint_value_single b : 0 ≤ b < 128 → varint_value ([] ++ [b]) = b.
Proof. intros Hb. cbn [app varint_value foldr]. rewrite Z.mod_small by lia. lia. Qed.

Lemma encode_varint_fuel_ok fuel v :
  0 ≤ v < 2 ^ (7 * (Z.of_nat fuel + 1)) →
  ∃ init last, encode_varint_fuel fuel v = init ++ [last] ∧
    Forall (λ b, 128 ≤ b < 256) init ∧ 0 ≤ last < 128 ∧
    len init ≤ Z.of_nat fuel ∧ varint_value (init ++ [last]) = v.
Proof.
  revert v. induction fuel as [|fuel IH]; intros v Hv; cbn [encode_varint_fuel].
  - change (2 ^ (7 * (Z.of_nat 0 + 1))) with 128 in Hv. exists [], v.
    rewrite varint_value_single by lia. split_and!; (done || (unfold len; simpl; lia)).
  - destruct (Z.ltb_spec v 128).
    + exists [], v. rewrite varint_value_single by lia. split_and!; (done || (unfold len; simpl; lia)).
    + destruct (IH (v / 128)) as (init & last & -> & Hc & Hlast & Hlen & Hval).
      { split; [apply Z.div_pos; lia|]. apply Z.div_lt_upper_bound; [lia|].
        replace (7 * (Z.of_nat (S fuel) + 1)) with (7 + 7 * (Z.of_nat fuel + 1)) in Hv by lia.
        rewrite Z.pow_add_r in Hv by lia. apply Hv. }
      pose proof (Z.mod_pos_bound v 128 ltac:(lia)).
      exists (v mod 128 + 128 :: init), last. split_and!; try done; try lia.
      * constructor; [lia|done].
      * rewrite len_cons. lia.
      * cbn [app varint_value foldr]. fold (varint_value (init ++ [last])). rewrite Hval.
        replace (v mod 128 + 128) with (v mod 128 + 1 * 128) by lia.
        rewrite Z.mod_add, Z.mod_mod by lia. pose proof (Z.div_mod v 128). lia.
Qed.

Lemma encode_varint_ok v :
  fits 64 v → is_varint (encode_varint v) ∧ varint_value (encode_varint v) = v.
Proof.
  intros Hv. unfold fits in Hv.
  destruct (encode_varint_fuel_ok 9 v) as (init & last & He & Hc & Hlast & Hlen & Hval).
  { change (2 ^ (7 * (Z.of_nat 9 + 1))) with (2 ^ 70).
    assert (2 ^ 64 < 2 ^ 70) by done. lia. }
  unfold encode_varint. rewrite He, Hval. split; [|done]. exists init, last.
  split_and!; try done; try lia. rewrite len_app, len_cons, (@len_nil Z). lia.
Qed.

Lemma decode_varint_prefix p rest :
  is_varint p → decode_varint (p ++ rest) = Ok (varint_value p, len p).
Proof.
  intros Hp. assert (Forall is_byte p) as Hb.
  { destruct Hp as (init & last & -> & Hc & Hlast & _). apply Forall_app_2.
    - eapply Forall_impl; [exact Hc|]. unfold is_byte, fits. intros; simpl in *. lia.
    - constructor; [|constructor]. unfold is_byte, fits. lia. }
  enough (decode_varint (p ++ rest) = decode_varint p) as ->.
  { apply decode_varint_Ok; [done|]. exists p, []. by rewrite app_nil_r. }
  unfold decode_varint.
  destruct Hp as (init & last & -> & Hc & Hlast & Hlen & _).
  assert (∀ i value k1 k2, decode_varint_from i value (init ++ [last] ++ k1)
          = decode_varint_from i value (init ++ [last] ++ k2)) as Hpre.
  { clear Hlen Hb. induction init as [|b init IH]; intros i value k1 k2; cbn [app decode_varint_from].
    - rewrite land_128 by lia. replace (last <? 128) with true by (symmetry; apply Z.ltb_lt; lia).
      done.
    - apply Forall_cons in Hc as [_ Hc]. destruct (_ && _); [done|].
      destruct (_ =? 0); [done|]. by apply IH. }
  unfold len in Hlen. rewrite !length_app in Hlen. simpl in Hlen.
  rewrite take_app_ge, (take_ge (init ++ [last])) by (rewrite length_app; simpl; lia).
  rewrite <- app_assoc, (Hpre _ _ _ []). by rewrite app_nil_r.
Qed.

Lemma decode_encode_varint v rest :
  fits 64 v → decode_varint (encode_varint v ++ rest) = Ok (v, len (encode_varint v)).
Proof.
  intros Hv. destruct (encode_varint_ok v Hv) as [Hp Hval].
  by rewrite decode_varint_prefix, Hval.
Qed.

(** *** Fields *)

(** What a decoded varint leaves of the input. *)
Lemma slice_after_varint {E} l v n :
  decode_varint l = Ok (v, n) →
  slice_from (E:=E) n l = Ok (drop (Z.to_nat n) l) ∧
  len (drop (Z.to_nat n) l) = len l - n ∧ 1 ≤ n.
Proof.
  intros Hr. destruct (decode_varint_count l v n Hr) as [Hn _]. unfold slice_from.
  replace ((0 <=? n) && (n <=? len l)) with true
    by (symmetry; apply andb_true_iff; split; apply Z.leb_le; lia).
  split; [done|]. unfold len in *. rewrite length_drop. lia.
Qed.

Lemma wire_type_fits {E} key : expect (E:=E) (try_into 8 (Z.land key 7)) = Ok (key mod 8).
Proof.
  change 7 with (Z.ones 3). rewrite Z.land_ones by lia. change (2 ^ 3) with 8.
  pose proof (Z.mod_pos_bound key 8 ltac:(lia)). unfold try_into.
  rewrite (proj2 (fitsb_spec 8 (key mod 8))); [done|]. unfold fits. lia.
Qed.

Lemma try_into_usize v : fits 64 v → try_into 64 v = Some v.
Proof. intros Hv. unfold try_into. by rewrite (proj2 (fitsb_spec 64 v) Hv). Qed.

Ltac varint_step l H :=
  let v := fresh "v" in let n := fresh "n" in let Hd := fresh "Hd" in
  destruct (decode_varint l) as [[v n]|?|] eqn:Hd;
  [destruct (slice_after_varint (E:=MessageError) _ v n Hd) as (H & ? & ?);
   cbn [bind_ok]; rewrite ?H; cbn [bind_ok]
  | cbn [bind_ok]; try done | by apply decode_varint_safe in Hd].

Lemma skip_value_spec l w :
  match skip_value l w with
  | Ok r => len r ≤ len l ∧ w ∈ [0; 1; 2; 5]
  | Err _ => True
  | Panic => False
  end.
Proof.
  unfold skip_value.
  destruct (Z.eqb_spec w 0) as [->|]; [|destruct (Z.eqb_spec w 1) as [->|];
    [|destruct (Z.eqb_spec w 2) as [->|]; [|destruct (Z.eqb_spec w 5) as [->|]; [|done]]]].
  - varint_step l Hs. split; [lia | set_solver].
  - unfold get_from. destruct (8 <=? len l); simpl; [|done].
    split; [unfold len; rewrite length_drop; lia | set_solver].
  - varint_step l Hs. rewrite try_into_usize by (by eapply decode_varint_range). simpl.
    unfold get_from. destruct (_ <=? _); simpl; [|done].
    split; [|set_solver]. unfold len in *. rewrite length_drop. lia.
  - unfold get_from. destruct (4 <=? len l); simpl; [|done].
    split; [unfold len; rewrite length_drop; lia | set_solver].
Qed.

Definition expected_type (allowed : list (Z * Z)) (field wire_type : Z) : bool :=
  match find (λ entry, entry.1 =? field) allowed with
  | Some (_, t) => wire_type =? t
  | None => true
  end.

Lemma validate_field_eq allowed l :
  validate_field allowed l =
  match decode_varint l with
  | Ok (key, n) =>
      if expected_type allowed (Z.shiftr key 3) (key mod 8)
      then skip_value (drop (Z.to_nat n) l) (key mod 8)
      else Err UnsupportedWireType
  | Err e => Err e
  | Panic => Panic
  end.
Proof.
  unfold validate_field, expected_type. varint_step l Hs. rewrite wire_type_fits. cbn [bind_ok].
  destruct (find _ _) as [[? t]|]; [|done]. by destruct (_ =? t).
Qed.

Lemma validate_field_spec allowed l :
  match validate_field allowed l with
  | Ok r => len r < len l
  | Err _ => True
  | Panic => False
  end.
Proof.
  rewrite validate_field_eq. varint_step l Hs. destruct (expected_type _ _ _); [|done].
  pose proof (skip_value_spec (drop (Z.to_nat n) l) (v mod 8)) as Hk.
  destruct (skip_value _ _); try done. lia.
Qed.

(** The second pass accepts every field the first one accepts, and moves on to
    the same byte. *)
Lemma delimited_field_skip l :
  match decode_varint l with
  | Ok (key, n) =>
      match skip_value (drop (Z.to_nat n) l) (key mod 8) with
      | Ok r => ∃ v, delimited_field l = Ok (v, r)
      | Err e => delimited_field l = Err e
      | Panic => False
      end
  | Err e => delimited_field l = Err e
  | Panic => False
  end.
Proof.
  unfold delimited_field. varint_step l Hs. rewrite wire_type_fits. cbn [bind_ok].
  set (rest := drop (Z.to_nat n) l). set (w := v mod 8).
  pose proof (skip_value_spec rest w) as Hk.
  destruct ((w =? 0) || (w =? 1) || (w =? 5)) eqn:Hw.
  { destruct (skip_value rest w); simpl; eauto. }
  apply orb_false_iff in Hw as [Hw W5]. apply orb_false_iff in Hw as [W0 W1].
  destruct (w =? 2) eqn:W2.
  2: { unfold skip_value. rewrite W0, W1, W2, W5. done. }
  unfold skip_value. rewrite W0, W1, W2. clear Hk.
  varint_step rest Hs2. rewrite try_into_usize by (by eapply decode_varint_range). simpl.
  unfold get_from, get_to. destruct (_ <=? _); simpl; eauto.
Qed.

Lemma delimited_field_spec l :
  match delimited_field l with
  | Ok (_, r) => len r < len l
  | Err _ => True
  | Panic => False
  end.
Proof.
  pose proof (delimited_field_skip l) as H. destruct (decode_varint l) as [[key n]|e|] eqn:Hd;
    [| by rewrite H | done].
  destruct (slice_after_varint (E:=MessageError) _ _ _ Hd) as (_ & ? & ?).
  pose proof (skip_value_spec (drop (Z.to_nat n) l) (key mod 8)) as Hk.
  destruct (skip_value _ _); [|by rewrite H|done]. destruct H as [v ->]. lia.
Qed.

(** *** The loops end, and do not panic *)

Lemma validate_fields_loop_spec fuel allowed l :
  (length l ≤ fuel)%nat →
  validate_fields_loop fuel allowed l ≠ Panic ∧
  (validate_fields_loop fuel allowed l = Ok tt →
   ∀ fuel', (length l ≤ fuel')%nat → ∃ vs, length_delimited_fields_loop fuel' l = Ok vs).
Proof.
  revert l. induction fuel as [|fuel IH]; intros [|b l] Hf; cbn [validate_fields_loop];
    try (split; [done|]; intros _ [|f']; simpl; eauto; fail).
  { simpl in Hf. lia. }
  pose proof (validate_field_spec allowed (b :: l)) as Hp.
  rewrite validate_field_eq in *.
  pose proof (delimited_field_skip (b :: l)) as Hdel.
  destruct (decode_varint (b :: l)) as [[key n]|e|]; [|done|done].
  destruct (expected_type _ _ _); [|done].
  destruct (skip_value _ _) as [r|e|]; [|done|done]. cbn [bind_ok].
  unfold len in Hp. destruct (IH r) as [H1 H2]; [simpl in *; lia|]. split; [done|].
  intros Hok [|fuel'] Hf'; [simpl in Hf'; lia|]. cbn [length_delimited_fields_loop].
  destruct Hdel as [v ->]. cbn [bind_ok].
  destruct (H2 Hok fuel') as [vs ->]; [simpl in *; lia|]. simpl. eauto.
Qed.

Lemma length_delimited_fields_loop_safe fuel l :
  (length l ≤ fuel)%nat → length_delimited_fields_loop fuel l ≠ Panic.
Proof.
  revert l. induction fuel as [|fuel IH]; intros [|b l] Hf; cbn [length_delimited_fields_loop];
    try done. { simpl in Hf. lia. }
  pose proof (delimited_field_spec (b :: l)) as Hp.
  destruct (delimited_field (b :: l)) as [[v r]|e|]; [|done|done]. cbn [bind_ok].
  unfold len in Hp. specialize (IH r ltac:(simpl in *; lia)).
  by destruct (length_delimited_fields_loop fuel r).
Qed.

Lemma validate_fields_safe l allowed : validate_fields l allowed ≠ Panic.
Proof. by apply validate_fields_loop_spec. Qed.

Lemma length_delimited_fields_safe l : length_delimited_fields l ≠ Panic.
Proof. by apply length_delimited_fields_loop_safe. Qed.

(** What the validating pass accepts, the extracting pass does too. *)
Lemma validated_fields_extract l allowed :
  validate_fields l allowed = Ok tt → ∃ vs, length_delimited_fields l = Ok vs.
Proof. intros Hv. by eapply validate_fields_loop_spec. Qed.

Lemma for_each_safe {E A} (f : A → outcome E unit) l :
  (∀ x, f x ≠ Panic) → for_each f l ≠ Panic.
Proof.
  intros Hf. induction l as [|x l IH]; simpl; [done|].
  specialize (Hf x). by destruct (f x).
Qed.

Lemma validate_instruction_safe l : validate_instruction l ≠ Panic.
Proof.
  unfold validate_instruction.
  pose proof (validate_fields_safe l [(2, 2); (3, 2); (7, 2); (9, 2)]) as H1.
  pose proof (length_delimited_fields_safe l) as H2.
  destruct (validate_fields _ _); [|done|done]. simpl.
  destruct (length_delimited_fields l); [|done|done]. simpl. apply for_each_safe.
  intros [field value]. repeat (destruct (field =? _); [apply validate_fields_safe|]). done.
Qed.

Lemma validate_instruction_batch_safe l : validate_instruction_batch l ≠ Panic.
Proof.
  unfold validate_instruction_batch, length_delimited_values.
  pose proof (validate_fields_safe l [(1, 2)]) as H1.
  pose proof (length_delimited_fields_safe l) as H2.
  destruct (validate_fields _ _); [|done|done]. simpl.
  destruct (length_delimited_fields l); [|done|done]. simpl.
  apply for_each_safe, validate_instruction_safe.
Qed.

(** *** The passes on an encoded list of fields *)

Lemma len_ge_n {A} (l : list A) : 0 ≤ len l.
Proof. apply len_nonneg. Qed.

Lemma get_from_app {A} n (a b : list A) : len a = n → get_from n (a ++ b) = Some b.
Proof.
  intros <-. apply get_from_Some. split; [rewrite len_app; pose proof (len_nonneg b); lia|].
  unfold len. rewrite Nat2Z.id. by rewrite drop_app_length.
Qed.

Lemma get_to_app {A} n (a b : list A) : len a = n → get_to n (a ++ b) = Some a.
Proof.
  intros <-. apply get_to_Some. split; [rewrite len_app; pose proof (len_nonneg b); lia|].
  unfold len. rewrite Nat2Z.id. by rewrite take_app_length.
Qed.

Lemma slice_from_app {E A} n (a b : list A) : len a = n → slice_from (E:=E) n (a ++ b) = Ok b.
Proof.
  intros <-. unfold slice_from. rewrite len_app.
  pose proof (len_nonneg a). pose proof (len_nonneg b).
  replace ((0 <=? len a) && (len a <=? len a + len b)) with true
    by (symmetry; apply andb_true_iff; split; apply Z.leb_le; lia).
  unfold len. rewrite Nat2Z.id. by rewrite drop_app_length.
Qed.

Lemma drop_len_app {A} (a b : list A) : drop (Z.to_nat (len a)) (a ++ b) = b.
Proof. unfold len. rewrite Nat2Z.id. by rewrite drop_app_length. Qed.

Lemma wire_type_bound w : 0 ≤ wire_type_of w < 8.
Proof. destruct w; simpl; lia. Qed.

Lemma key_parts f w :
  0 ≤ f < 2 ^ 61 →
  fits 64 (f * 8 + wire_type_of w) ∧ Z.shiftr (f * 8 + wire_type_of w) 3 = f ∧
  (f * 8 + wire_type_of w) mod 8 = wire_type_of w.
Proof.
  intros Hf. pose proof (wire_type_bound w). split_and!.
  - unfold fits. change (2 ^ 64) with (2 ^ 61 * 8). lia.
  - rewrite Z.shiftr_div_pow2 by lia. change (2 ^ 3) with 8.
    rewrite Z.div_add_l, Z.div_small by lia. lia.
  - rewrite Z.add_comm, Z.mod_add, Z.mod_small by lia. done.
Qed.

Lemma skip_encode_value w rest :
  wf_value w → skip_value (encode_value w ++ rest) (wire_type_of w) = Ok rest.
Proof.
  destruct w as [v|b|b|b]; intros Hw; unfold skip_value; simpl in *.
  - rewrite decode_encode_varint by done. simpl. by apply slice_from_app.
  - by rewrite get_from_app.
  - rewrite <- app_assoc, decode_encode_varint by (pose proof (len_nonneg b); unfold fits; lia).
    simpl. rewrite try_into_usize by (pose proof (len_nonneg b); unfold fits; lia). simpl.
    rewrite slice_from_app by done. simpl. by rewrite get_from_app.
  - by rewrite get_from_app.
Qed.

Lemma validate_encode_field allowed f rest :
  wf_field f →
  validate_field allowed (encode_field f ++ rest) =
  if expected_type allowed f.1 (wire_type_of f.2) then Ok rest else Err UnsupportedWireType.
Proof.
  intros [Hf Hw]. destruct (key_parts f.1 f.2 Hf) as (Hk & Hs & Hm).
  rewrite validate_field_eq. unfold encode_field.
  rewrite <- app_assoc, decode_encode_varint, Hs, Hm, drop_len_app by done.
  destruct (expected_type _ _ _); [|done]. by apply skip_encode_value.
Qed.

Definition bytes_of_field (f : Z * wire_value) : option (Z * bytes) :=
  match f.2 with BytesV b => Some (f.1, b) | _ => None end.

Lemma delimited_encode_field f rest :
  wf_field f → delimited_field (encode_field f ++ rest) = Ok (bytes_of_field f, rest).
Proof.
  intros [Hf Hw]. destruct (key_parts f.1 f.2 Hf) as (Hk & Hs & Hm).
  unfold delimited_field, encode_field.
  rewrite <- app_assoc, decode_encode_varint by done. cbn [bind_ok].
  rewrite slice_from_app by done. cbn [bind_ok]. rewrite wire_type_fits, Hs, Hm. cbn [bind_ok].
  destruct f as [f w]. simpl in Hw. unfold bytes_of_field. cbn [fst snd] in *.
  pose proof (skip_encode_value w rest Hw) as Hskip.
  destruct w as [v|b|b|b]; simpl in Hskip, Hw |- *; try (rewrite Hskip; done).
  rewrite <- app_assoc, decode_encode_varint by (pose proof (len_nonneg b); unfold fits; lia).
  simpl. rewrite slice_from_app by done. simpl.
  rewrite try_into_usize by (pose proof (len_nonneg b); unfold fits; lia). simpl.
  rewrite get_to_app by done. simpl. by rewrite drop_len_app.
Qed.

Lemma encode_field_cons f : ∃ b l, encode_field f = b :: l.
Proof.
  unfold encode_field, encode_varint. cbn [encode_varint_fuel].
  destruct (_ <? 128); simpl; eauto.
Qed.

Lemma encode_field_app f rest : ∃ b l, encode_field f ++ rest = b :: l.
Proof. destruct (encode_field_cons f) as (b & l & ->). simpl. eauto. Qed.

Lemma validate_encode_wire fs allowed :
  Forall wf_field fs →
  validate_fields (encode_wire fs) allowed =
  if forallb (λ f, expected_type allowed f.1 (wire_type_of f.2)) fs then Ok tt
  else Err UnsupportedWireType.
Proof.
  intros Hfs. unfold validate_fields.
  enough (∀ fuel, (length (encode_wire fs) ≤ fuel)%nat →
    validate_fields_loop fuel allowed (encode_wire fs) =
    if forallb (λ f, expected_type allowed f.1 (wire_type_of f.2)) fs then Ok tt
    else Err UnsupportedWireType) as H by by apply H.
  induction Hfs as [|f fs Hf Hfs IH]; intros fuel; [by destruct fuel|].
  change (encode_wire (f :: fs)) with (encode_field f ++ encode_wire fs). intros Hfuel.
  destruct (encode_field_app f (encode_wire fs)) as (b & l & Hbl). rewrite length_app in Hfuel.
  destruct (encode_field_cons f) as (b' & l' & Hl). rewrite Hl in Hfuel. simpl in Hfuel.
  destruct fuel as [|fuel]; [lia|].
  rewrite Hbl. cbn [validate_fields_loop]. rewrite <- Hbl, validate_encode_field by done.
  cbn [forallb]. destruct (expected_type _ _ _); [|done]. cbn [bind_ok andb]. apply IH. lia.
Qed.

Lemma extract_encode_wire fs :
  Forall wf_field fs →
  length_delimited_fields (encode_wire fs) = Ok (omap bytes_of_field fs).
Proof.
  intros Hfs. unfold length_delimited_fields.
  enough (∀ fuel, (length (encode_wire fs) ≤ fuel)%nat →
    length_delimited_fields_loop fuel (encode_wire fs) = Ok (omap bytes_of_field fs)) as H
    by by apply H.
  induction Hfs as [|f fs Hf Hfs IH]; intros fuel; [by destruct fuel|].
  change (encode_wire (f :: fs)) with (encode_field f ++ encode_wire fs). intros Hfuel.
  destruct (encode_field_app f (encode_wire fs)) as (b & l & Hbl). rewrite length_app in Hfuel.
  destruct (encode_field_cons f) as (b' & l' & Hl). rewrite Hl in Hfuel. simpl in Hfuel.
  destruct fuel as [|fuel]; [lia|].
  rewrite Hbl. cbn [length_delimited_fields_loop]. rewrite <- Hbl, delimited_encode_field by done.
  cbn [bind_ok]. rewrite IH by lia. simpl. by destruct (bytes_of_field f).
Qed.

(** ** The messages as lists of fields, from the prost attributes

    A proto3 field with its default value is left out; a message field is left
    out when it is [None]. *)
Definition varint_field (tag v : Z) : list (Z * wire_value) :=
  if v =? 0 then [] else [(tag, VarintV v)].
Definition bytes_field (tag : Z) (b : bytes) : list (Z * wire_value) :=
  if bool_decide (b = []) then [] else [(tag, BytesV b)].
Definition message_field {A} (wire : A → list (Z * wire_value)) (tag : Z) (o : option A)
    : list (Z * wire_value) :=
  match o with Some a => [(tag, BytesV (encode_wire (wire a)))] | None => [] end.

Definition byte_run_wire (b : ByteRun) := bytes_field 4 (run_value b).
Definition viewport_wire (v : ViewportSize) := varint_field 5 (columns v) ++ varint_field 6 (rows v).
Definition marker_wire (m : Marker) := varint_field 8 (marker_value m).
Definition control_wire (c : SessionControl) := varint_field 10 (kind c) ++ bytes_field 11 (payload c).

Definition instruction_wire (i : Instruction) : list (Z * wire_value) :=
  message_field byte_run_wire 2 (instr_bytes i)
  ++ message_field viewport_wire 3 (viewport i)
  ++ message_field marker_wire 7 (marker i)
  ++ message_field control_wire 9 (session_control i).

Definition batch_wire (b : InstructionBatch) : list (Z * wire_value) :=
  (λ i, (1, BytesV (encode_wire (instruction_wire i)))) <$> instructions b.

Definition update_wire (u : StateUpdate) : list (Z * wire_value) :=
  varint_field 1 (protocol_version u) ++ varint_field 2 (base_state u)
  ++ varint_field 3 (target_state u) ++ varint_field 4 (acknowledged_state u)
  ++ varint_field 5 (discard_before u) ++ bytes_field 6 (delta u)
  ++ bytes_field 7 (padding u) ++ bytes_field 8 (capabilities u).

(** Values within the machine types of the fields; the encoded lengths of
    nested messages have to be lengths of a [Vec] as well. *)
Definition wf_instruction (i : Instruction) : Prop :=
  Forall wf_field (instruction_wire i) ∧
  (∀ b, instr_bytes i = Some b → Forall wf_field (byte_run_wire b)) ∧
  (∀ v, viewport i = Some v → Forall wf_field (viewport_wire v)) ∧
  (∀ m, marker i = Some m → Forall wf_field (marker_wire m)) ∧
  (∀ c, session_control i = Some c → Forall wf_field (control_wire c) ∧ fits 32 (kind c)).

Definition wf_batch (b : InstructionBatch) : Prop :=
  Forall wf_field (batch_wire b) ∧ Forall wf_instruction (instructions b).

Record wf_update (u : StateUpdate) : Prop := {
  wf_version : fits 64 (protocol_version u);
  wf_base : fits 64 (base_state u);
  wf_target : fits 64 (target_state u);
  wf_ack : fits 64 (acknowledged_state u);
  wf_discard : fits 64 (discard_before u);
  wf_delta : len (delta u) < 2 ^ 64;
  wf_padding : len (padding u) < 2 ^ 64;
  wf_capabilities : len (capabilities u) < 2 ^ 64;
}.

(** Decoded values are of the types of their fields, and no longer than the message. *)
Definition bounded_control (n : Z) (c : SessionControl) : Prop := fits 32 (kind c) ∧ len (payload c) ≤ n.
Definition bounded_instruction (n : Z) (i : Instruction) : Prop :=
  (∀ m, marker i = Some m → fits 64 (marker_value m)) ∧
  (∀ c, session_control i = Some c → bounded_control n c).

(** The documented behaviour of the generated protobuf code. *)
Class ProstLaws `{Prost} : Prop := {
  encode_update_wire u : prost_encode_update u = encode_wire (update_wire u);
  encode_batch_wire b : prost_encode_batch b = encode_wire (batch_wire b);
  decode_update_wire u : wf_update u → prost_decode_update (encode_wire (update_wire u)) = Some u;
  decode_batch_wire b : wf_batch b → prost_decode_batch (encode_wire (batch_wire b)) = Some b;
  decode_update_bounded l u : prost_decode_update l = Some u → len (delta u) ≤ len l;
  decode_batch_bounded l b :
    prost_decode_batch l = Some b → Forall (bounded_instruction (len l)) (instructions b);
}.

(** zlib is lossless, and a reader limited to [n] bytes yields the first [n]. *)
Class ZlibLaws `{Zlib} : Prop := {
  zlib_read_compress b c n : zlib_compress b = Some c → 0 ≤ n → zlib_read c n = Some (take (Z.to_nat n) b);
  zlib_read_bounded c n r : 0 ≤ n → zlib_read c n = Some r → len r ≤ n;
}.

(** Every encoded message passes the validating pre-pass. *)
Lemma varint_field_ok tag v : 0 ≤ tag < 2 ^ 61 → fits 64 v → Forall wf_field (varint_field tag v).
Proof. intros. unfold varint_field. destruct (v =? 0); [constructor | by apply Forall_singleton]. Qed.

Lemma bytes_field_ok tag b : 0 ≤ tag < 2 ^ 61 → len b < 2 ^ 64 → Forall wf_field (bytes_field tag b).
Proof. intros. unfold bytes_field. destruct (bool_decide _); [constructor | by apply Forall_singleton]. Qed.

Lemma update_wire_ok u : wf_update u → Forall wf_field (update_wire u).
Proof.
  intros []. unfold update_wire.
  repeat apply Forall_app_2; first [apply varint_field_ok | apply bytes_field_ok]; (done || lia).
Qed.

Lemma update_wire_types u :
  forallb (λ f, expected_type update_fields f.1 (wire_type_of f.2)) (update_wire u) = true.
Proof.
  unfold update_wire, varint_field, bytes_field.
  rewrite !forallb_app. repeat (apply andb_true_iff; split);
    by (case_match; simpl).
Qed.

Lemma instruction_wire_validates i :
  wf_instruction i → validate_instruction (encode_wire (instruction_wire i)) = Ok tt.
Proof.
  intros (Hw & Hb & Hv & Hm & Hc). unfold validate_instruction.
  rewrite validate_encode_wire, extract_encode_wire by done.
  destruct i as [ob ov om oc]. unfold instruction_wire in *. simpl in *.
  destruct ob as [b|]; destruct ov as [v|]; destruct om as [m|]; destruct oc as [c|]; simpl;
    rewrite ?validate_encode_wire by naive_solver;
    unfold byte_run_wire, viewport_wire, marker_wire, control_wire, varint_field, bytes_field;
    repeat case_match; done.
Qed.

Lemma batch_wire_validates b :
  wf_batch b → validate_instruction_batch (encode_wire (batch_wire b)) = Ok tt.
Proof.
  intros [Hw Hi]. unfold validate_instruction_batch, length_delimited_values.
  rewrite validate_encode_wire, extract_encode_wire by done.
  destruct b as [l]. unfold batch_wire in *. simpl in *. clear Hw.
  assert (forallb (λ f, expected_type [(1, 2)] f.1 (wire_type_of f.2))
    ((λ i, (1, BytesV (encode_wire (instruction_wire i)))) <$> l) = true) as ->.
  { induction l as [|i l IH]; [done|]. simpl. apply IH. by inversion Hi. }
  simpl. induction Hi as [|i l Hi Hl IH]; [done|]. simpl.
  rewrite instruction_wire_validates by done. simpl. apply IH.
Qed.

Lemma wf_batch_app a b :
  wf_batch (mkInstructionBatch a) → wf_batch (mkInstructionBatch b) →
  wf_batch (mkInstructionBatch (a ++ b)).
Proof.
  intros [A1 A2] [B1 B2]. split; simpl in *; [|by apply Forall_app].
  unfold batch_wire in *. simpl in *. rewrite fmap_app. by apply Forall_app.
Qed.

Lemma wf_batch_nil : wf_batch (mkInstructionBatch []).
Proof. by split; constructor. Qed.

Lemma wf_batch_app_l a b : wf_batch (mkInstructionBatch (a ++ b)) → wf_batch (mkInstructionBatch a).
Proof.
  intros [Hw Hi]. split; [|by apply Forall_app in Hi as [Hi _]].
  unfold batch_wire in *. simpl in *. rewrite fmap_app in Hw. by apply Forall_app in Hw as [Hw _].
Qed.

Lemma wf_batch_app_r a b : wf_batch (mkInstructionBatch (a ++ b)) → wf_batch (mkInstructionBatch b).
Proof.
  intros [Hw Hi]. split; [|by apply Forall_app in Hi as [_ Hi]].
  unfold batch_wire in *. simpl in *. rewrite fmap_app in Hw. by apply Forall_app in Hw as [_ Hw].
Qed.

(** *** Small instructions

    An instruction of one part, not too long, is well formed. *)
Lemma encode_varint_length v : len (encode_varint v) ≤ 10.
Proof.
  unfold encode_varint. assert (∀ n v, len (encode_varint_fuel n v) ≤ 1 + Z.of_nat n) as Hl.
  { clear. induction n as [|n IH]; intros v; cbn [encode_varint_fuel]; [done|].
    destruct (v <? 128); [rewrite len_cons, (@len_nil Z); lia|].
    rewrite len_cons. specialize (IH (v / 128)). lia. }
  apply (Hl 9%nat).
Qed.

Lemma bytes_field_length tag b : len (encode_wire (bytes_field tag b)) ≤ 20 + len b.
Proof.
  unfold bytes_field. pose proof (len_nonneg b). case_bool_decide.
  { change (encode_wire []) with (@nil Z). rewrite (@len_nil Z). lia. }
  unfold encode_wire. simpl. rewrite app_nil_r. unfold encode_field. simpl. rewrite !len_app.
  pose proof (encode_varint_length (tag * 8 + 2)). pose proof (encode_varint_length (len b)). lia.
Qed.

Lemma varint_field_length tag v : len (encode_wire (varint_field tag v)) ≤ 20.
Proof.
  unfold varint_field. destruct (v =? 0); [done|]. unfold encode_wire. simpl. rewrite app_nil_r.
  unfold encode_field. simpl. rewrite len_app.
  pose proof (encode_varint_length (tag * 8 + 0)). pose proof (encode_varint_length v). lia.
Qed.

Lemma encode_wire_app a b : encode_wire (a ++ b) = encode_wire a ++ encode_wire b.
Proof. unfold encode_wire. by rewrite fmap_app, join_app. Qed.

(** An instruction of one part. *)
Lemma one_part_batch i tag part :
  instruction_wire i = [(tag, BytesV part)] → 0 ≤ tag < 2 ^ 61 → len part < 2 ^ 63 → wf_instruction i →
  wf_batch (mkInstructionBatch [i]).
Proof.
  intros Hi Ht Hl Hw. split; [|by apply Forall_singleton]. apply Forall_singleton. split; [done|].
  simpl. rewrite Hi. unfold encode_wire. simpl. rewrite app_nil_r. unfold encode_field. simpl.
  rewrite !len_app.
  pose proof (encode_varint_length (tag * 8 + 2)). pose proof (encode_varint_length (len part)). lia.
Qed.

Lemma bytes_batch_valid b :
  len b < 2 ^ 62 → wf_batch (mkInstructionBatch [mkInstruction (Some (mkByteRun b)) None None None]).
Proof.
  intros Hb.
  pose proof (bytes_field_length 4 b) as Hl.
  apply (one_part_batch _ 2 (encode_wire (byte_run_wire (mkByteRun b)))); [done|lia|unfold byte_run_wire; simpl; lia|].
  split; [apply Forall_singleton; split; [done|]; simpl; unfold byte_run_wire; simpl; lia|].
  split_and!; try done. intros v [= <-]. unfold byte_run_wire. simpl. apply bytes_field_ok; lia.
Qed.

Lemma viewport_batch_valid c r :
  fits 16 c → fits 16 r →
  wf_batch (mkInstructionBatch [mkInstruction None (Some (mkViewportSize c r)) None None]).
Proof.
  intros Hc Hr. pose proof (varint_field_length 5 c) as L1. pose proof (varint_field_length 6 r) as L2.
  assert (len (encode_wire (viewport_wire (mkViewportSize c r))) ≤ 40) as Hl
    by (unfold viewport_wire; rewrite encode_wire_app, len_app; simpl in *; lia).
  apply (one_part_batch _ 3 (encode_wire (viewport_wire (mkViewportSize c r)))); [done|lia|lia|].
  split; [apply Forall_singleton; split; [done|]; simpl; lia|].
  split_and!; try done. intros v [= <-]. unfold fits in *.
  apply Forall_app. split; apply varint_field_ok; unfold fits; simpl; lia.
Qed.

Lemma control_batch_valid k pl :
  fits 32 k → len pl < 2 ^ 62 →
  wf_batch (mkInstructionBatch [mkInstruction None None None (Some (mkSessionControl k pl))]).
Proof.
  intros Hk Hpl.
  pose proof (varint_field_length 10 k) as L1. pose proof (bytes_field_length 11 pl) as L2.
  assert (len (encode_wire (control_wire (mkSessionControl k pl))) ≤ 40 + len pl) as Hl
    by (unfold control_wire; rewrite encode_wire_app, len_app; simpl in *; lia).
  apply (one_part_batch _ 9 (encode_wire (control_wire (mkSessionControl k pl)))); [done|lia|lia|].
  split; [apply Forall_singleton; split; [done|]; simpl; lia|].
  split_and!; try done. intros v [= <-]. split; [|done]. apply Forall_app.
  split; [apply varint_field_ok|apply bytes_field_ok]; unfold fits in *; simpl; lia.
Qed.

Lemma marker_batch_valid v :
  fits 64 v → wf_batch (mkInstructionBatch [mkInstruction None None (Some (mkMarker v)) None]).
Proof.
  intros Hv. pose proof (varint_field_length 8 v) as Hl.
  apply (one_part_batch _ 7 (encode_wire (marker_wire (mkMarker v)))); [done|lia|unfold marker_wire; simpl; lia|].
  split; [apply Forall_singleton; split; [done|]; unfold marker_wire; simpl; lia|].
  split_and!; try done. intros m [= <-]. by apply varint_field_ok.
Qed.

Section laws.
Context `{ProstLaws} `{ZlibLaws}.

Lemma decode_instructions_encode b u :
  wf_batch b → delta u = encode_bytes b →
  validate_instruction_batch (delta u) = Ok tt ∧ decode_instructions u = Ok b.
Proof.
  intros Hb Hd. unfold decode_instructions. rewrite Hd. unfold encode_bytes.
  rewrite encode_batch_wire, batch_wire_validates, decode_batch_wire by done. done.
Qed.

(** The compressed update is decoded to the update that was encoded. *)
Lemma decode_encode_update u c b :
  wf_update u → wf_batch b → delta u = encode_bytes b →
  len (prost_encode_update u) ≤ MAXIMUM_DECOMPRESSED_BYTES →
  encode_compressed_update u = Ok c →
  decode_compressed_update c = Ok u.
Proof.
  intros Hu Hb Hd Hlen He. unfold encode_compressed_update in He.
  destruct (protocol_version u =? PROTOCOL_VERSION) eqn:Hv; [|done]. simpl in He.
  apply ok_or_Ok in He. unfold decode_compressed_update.
  rewrite (zlib_read_compress _ _ _ He) by done. cbn [ok_or bind_ok].
  rewrite take_ge by (unfold len in Hlen; lia).
  replace (MAXIMUM_DECOMPRESSED_BYTES <? _) with false by (symmetry; apply Z.ltb_ge; done).
  rewrite encode_update_wire, validate_encode_wire, update_wire_types by by apply update_wire_ok.
  cbn [bind_ok]. rewrite decode_update_wire by done. cbn [ok_or bind_ok]. rewrite Hv. simpl.
  destruct (decode_instructions_encode b u Hb Hd) as [-> _]. done.
Qed.

Lemma decode_compressed_update_safe c : decode_compressed_update c ≠ Panic.
Proof.
  unfold decode_compressed_update.
  destruct (zlib_read _ _) as [e|]; [|done]. cbn [ok_or bind_ok].
  destruct (_ <? _); [done|].
  pose proof (validate_fields_safe e update_fields).
  destruct (validate_fields e _); [|done|done]. cbn [bind_ok].
  destruct (prost_decode_update e) as [u|]; [|done]. cbn [ok_or bind_ok].
  destruct (negb _); [done|].
  pose proof (validate_instruction_batch_safe (delta u)).
  by destruct (validate_instruction_batch (delta u)).
Qed.

Lemma decode_instructions_safe u : decode_instructions u ≠ Panic.
Proof.
  unfold decode_instructions. pose proof (validate_instruction_batch_safe (delta u)).
  destruct (validate_instruction_batch (delta u)); [|done|done]. simpl.
  by destruct (prost_decode_batch (delta u)).
Qed.

Lemma decode_compressed_update_Ok c u :
  decode_compressed_update c = Ok u →
  protocol_version u = PROTOCOL_VERSION ∧ validate_instruction_batch (delta u) = Ok tt.
Proof.
  unfold decode_compressed_update. intros Hc.
  apply bind_ok_Ok in Hc as (e & _ & Hc). destruct (_ <? _); [done|].
  apply bind_ok_Ok in Hc as (_ & _ & Hc). apply bind_ok_Ok in Hc as (u' & _ & Hc).
  destruct (protocol_version u' =? PROTOCOL_VERSION) eqn:Hv; [|done]. simpl in Hc.
  apply bind_ok_Ok in Hc as ([] & Hvb & [= <-]). by apply Z.eqb_eq in Hv.
Qed.
End laws.

(** ** Properties *)

(** C11: A message that [encode_compressed_update] produced is decoded by
    [decode_compressed_update] to the same update, its validating pre-pass
    accepts it, and its instruction batch is decoded to the batch that was
    encoded into it; for an update of another protocol version nothing is
    produced. *)
Theorem compressed_update_round_trip `{ProstLaws, ZlibLaws} u b c :
  wf_update u → wf_batch b → delta u = encode_bytes b →
  len (prost_encode_update u) ≤ MAXIMUM_DECOMPRESSED_BYTES →
  zlib_compress (prost_encode_update u) = Some c →
  if protocol_version u =? PROTOCOL_VERSION
  then encode_compressed_update u = Ok c ∧ decode_compressed_update c = Ok u ∧
       decode_instructions u = Ok b
  else encode_compressed_update u = Err UnsupportedProtocolVersion.
Proof.
  intros Hu Hb Hd Hlen Hc. unfold encode_compressed_update at 1 2.
  destruct (protocol_version u =? PROTOCOL_VERSION) eqn:Hv; [simpl | done].
  assert (encode_compressed_update u = Ok c) as He
    by (unfold encode_compressed_update; by rewrite Hv, Hc).
  rewrite Hc. split_and!; [done| |by apply decode_instructions_encode].
  by apply decode_encode_update with b.
Qed.

(** [decode_varint] reads exactly the varints of at most ten bytes whose value
    fits 64 bits: it answers with that value and the number of bytes read, it
    inverts the reference encoding in front of any other bytes, and every other
    input is an error, never a panic. *)
Theorem varint_decoding_exact l :
  Forall is_byte l →
  (∀ v n, decode_varint l = Ok (v, n) ↔
     ∃ p rest, l = p ++ rest ∧ is_varint p ∧ v = varint_value p ∧ n = len p) ∧
  (∀ v, fits 64 v → decode_varint (encode_varint v ++ l) = Ok (v, len (encode_varint v))) ∧
  decode_varint l ≠ Panic.
Proof.
  intros Hl. split_and!; [intros; by apply decode_varint_Ok | | apply decode_varint_safe].
  intros v. apply decode_encode_varint.
Qed.

(** C12: The pre-pass is total: on any bytes the passes over the fields end
    without a panic, whatever the validating pass accepts the extracting pass
    accepts too, and a decoded update has the supported version and a valid
    instruction batch. *)
Theorem validation_total `{Prost, Zlib} (l : bytes) allowed :
  validate_fields l allowed ≠ Panic ∧ length_delimited_fields l ≠ Panic ∧
  (validate_fields l allowed = Ok tt → ∃ vs, length_delimited_fields l = Ok vs) ∧
  validate_instruction_batch l ≠ Panic ∧ decode_compressed_update l ≠ Panic ∧
  (∀ u, decode_compressed_update l = Ok u →
     protocol_version u = PROTOCOL_VERSION ∧ validate_instruction_batch (delta u) = Ok tt).
Proof.
  split_and!.
  - apply validate_fields_safe.
  - apply length_delimited_fields_safe.
  - apply validated_fields_extract.
  - apply validate_instruction_batch_safe.
  - apply decode_compressed_update_safe.
  - intros u. apply decode_compressed_update_Ok.
Qed.

(** On the encoding of any list of fields, [validate_fields] accepts exactly
    when every field with a known number has the wire type expected of it,
    unknown fields of every wire type being skipped, and
    [length_delimited_fields] returns the length-delimited fields in order. *)
Theorem validation_checks_wire_types fs allowed :
  Forall wf_field fs →
  (validate_fields (encode_wire fs) allowed = Ok tt ↔
     ∀ f w, (f, w) ∈ fs → ∀ t, find (λ e, e.1 =? f) allowed = Some (f, t) → wire_type_of w = t) ∧
  length_delimited_fields (encode_wire fs) = Ok (omap bytes_of_field fs).
Proof.
  intros Hfs. split; [|by apply extract_encode_wire].
  rewrite validate_encode_wire by done.
  transitivity (forallb (λ f, expected_type allowed f.1 (wire_type_of f.2)) fs = true).
  { destruct (forallb _ _); naive_solver. }
  rewrite forallb_forall. unfold expected_type. split.
  - intros Hf f w Hin t Ht. apply list_elem_of_In, Hf in Hin. simpl in Hin.
    rewrite Ht in Hin. by apply Z.eqb_eq.
  - intros Hf [f w] Hin. simpl. destruct (find _ allowed) as [[f' t]|] eqn:Ht; [|done].
    pose proof (find_some _ _ Ht) as [_ He]. apply Z.eqb_eq in He. simpl in He. subst f'.
    apply Z.eqb_eq. eapply Hf; [by apply list_elem_of_In | done].
Qed.
