(* ===== verification/Crypto.v ===== *)
(** * Authenticated datagrams

    The model of [crates/ferrumtty-crypto/src/lib.rs]: the session key, the
    direction bit and counter of a packet number, and the secure channel with
    [seal_next] and [open].  AES-128-OCB3 and Base64 are libraries: they are the
    classes [Aead] and [Base64].  Erasing memory ([zeroize]) changes no value the
    program reads afterwards and is left out. *)
From S2P Require Import Prelude.
Local Open Scope Z_scope.

Definition SESSION_KEY_BYTES : Z := 16.
Definition PACKET_PREFIX_BYTES : Z := 8.
Definition OCB_NONCE_BYTES : Z := 12.
Definition OCB_TAG_BYTES : Z := 16.
Definition DIRECTION_BIT : Z := Z.shiftl 1 63.
Definition MAX_COUNTER : Z := DIRECTION_BIT - 1.
Definition MINIMUM_PACKET_BYTES : Z := PACKET_PREFIX_BYTES + OCB_TAG_BYTES.

(** [Ocb3<Aes128>] with a 16-byte tag: key, nonce, and plaintext or sealed bytes. *)
Class Aead := {
  aead_encrypt : bytes → bytes → bytes → option bytes;
  aead_decrypt : bytes → bytes → bytes → option bytes;
}.

(** Decryption inverts encryption and checks the tag: what it accepts is the
    encryption of what it returns, 16 bytes longer; and it returns a [Vec<u8>]. *)
Class AeadLaws `{Aead} : Prop := {
  aead_decrypt_encrypt k n p c : aead_encrypt k n p = Some c → aead_decrypt k n c = Some p;
  aead_encrypt_decrypt k n p c : aead_decrypt k n c = Some p → aead_encrypt k n p = Some c;
  aead_length k n p c : aead_encrypt k n p = Some c → len c = len p + OCB_TAG_BYTES;
  aead_bytes k n c p : aead_decrypt k n c = Some p → Forall is_byte p;
}.

(** [STANDARD_NO_PAD.decode]. *)
Class Base64 := base64_decode : bytes → option bytes.

Inductive KeyError := InvalidBase64 | InvalidLength.
Inductive SealError := CounterExhausted | EncryptionFailed.
Inductive OpenError := PacketTooShort | AuthenticationFailed | UnexpectedDirection.

#[export] Instance KeyError_eq_dec : EqDecision KeyError.
Proof. solve_decision. Defined.
#[export] Instance SealError_eq_dec : EqDecision SealError.
Proof. solve_decision. Defined.
#[export] Instance OpenError_eq_dec : EqDecision OpenError.
Proof. solve_decision. Defined.

(** ** Keys *)
Record SessionKey := mkSessionKey { expose : bytes }.

Definition SessionKey_decode `{Base64} (value : bytes) : outcome KeyError SessionKey :=
  let? decoded := ok_or InvalidBase64 (base64_decode value) in
  if negb (len decoded =? SESSION_KEY_BYTES) then Err InvalidLength
  else Ok (mkSessionKey decoded).

Definition SessionKey_fmt (self : SessionKey) : bytes := lit "SessionKey([REDACTED])".

(** ** Directions *)
Inductive PeerRole := Client | Server.
Inductive PacketDirection := ClientToServer | ServerToClient.

#[export] Instance PacketDirection_eq_dec : EqDecision PacketDirection.
Proof. solve_decision. Defined.

Definition for_outbound (role : PeerRole) : PacketDirection :=
  match role with Client => ClientToServer | Server => ServerToClient end.

Definition for_inbound (role : PeerRole) : PacketDirection :=
  match role with Client => ServerToClient | Server => ClientToServer end.

Definition direction_encode (self : PacketDirection) (counter : Z) : Z :=
  match self with
  | ClientToServer => counter
  | ServerToClient => Z.lor counter DIRECTION_BIT
  end.

Definition direction_decode (value : Z) : PacketDirection * Z :=
  let direction := if Z.land value DIRECTION_BIT =? 0 then ClientToServer else ServerToClient in
  (direction, Z.land value MAX_COUNTER).

(** ** The channel *)
Record SecureChannel := mkSecureChannel {
  outbound_cipher : bytes;
  inbound_cipher : bytes;
  outbound_direction : PacketDirection;
  inbound_direction : PacketDirection;
  next_counter : option Z;
}.

#[export] Instance eta_SecureChannel : Eta SecureChannel := λ c,
  mkSecureChannel (outbound_cipher c) (inbound_cipher c) (outbound_direction c)
    (inbound_direction c) (next_counter c).
#[export] Instance upd_next_counter : Update next_counter := ltac:(solve_update).

Record AuthenticatedPacket := mkAuthenticatedPacket { counter : Z; plaintext : bytes }.

#[export] Instance AuthenticatedPacket_eq_dec : EqDecision AuthenticatedPacket.
Proof. solve_decision. Defined.

Definition AuthenticatedPacket_fmt (self : AuthenticatedPacket) : bytes :=
  lit "AuthenticatedPacket { counter: " ++ decimal (counter self)
  ++ lit ", plaintext_bytes: " ++ decimal (len (plaintext self)) ++ lit " }".

Definition SecureChannel_new (role : PeerRole) (key : SessionKey) : SecureChannel := {|
  outbound_cipher := expose key;
  inbound_cipher := expose key;
  outbound_direction := for_outbound role;
  inbound_direction := for_inbound role;
  next_counter := Some 0;
|}.

Definition make_nonce (prefix : bytes) : bytes :=
  replicate (Z.to_nat (OCB_NONCE_BYTES - PACKET_PREFIX_BYTES)) 0 ++ prefix.

Section channel.
Context `{Aead}.

Definition seal_next (plaintext : bytes) : M SecureChannel SealError bytes :=
  let! self := getM in
  let! counter := liftM (ok_or CounterExhausted (next_counter self)) in
  let encoded_number := direction_encode (outbound_direction self) counter in
  let prefix := to_be 8 encoded_number in
  let nonce := make_nonce prefix in
  let! sealed := liftM (ok_or EncryptionFailed
                          (aead_encrypt (outbound_cipher self) nonce plaintext)) in
  modM (λ self, self <| next_counter :=
    match checked_add 64 counter 1 with
    | Some next => if next <=? MAX_COUNTER then Some next else None
    | None => None
    end |>) ;!
  retM (prefix ++ sealed).

Definition open (self : SecureChannel) (packet : bytes)
    : outcome OpenError AuthenticatedPacket :=
  if len packet <? MINIMUM_PACKET_BYTES then Err PacketTooShort
  else
    let? prefix := expect (get_to PACKET_PREFIX_BYTES packet) in
    let encoded_number := from_be prefix in
    let '(direction, counter) := direction_decode encoded_number in
    let nonce := make_nonce prefix in
    let? sealed := slice_from PACKET_PREFIX_BYTES packet in
    let? plaintext := ok_or AuthenticationFailed
                        (aead_decrypt (inbound_cipher self) nonce sealed) in
    if bool_decide (direction ≠ inbound_direction self) then Err UnexpectedDirection
    else Ok {| counter := counter; plaintext := plaintext |}.

(** The packets that a sequence of [seal_next] calls produced, the failed calls
    left out, and the channel after them. *)
Fixpoint seal_all (l : list bytes) (self : SecureChannel) : list bytes * SecureChannel :=
  match l with
  | [] => ([], self)
  | p :: l =>
      let '(self, r) := seal_next p self in
      let '(packets, self) := seal_all l self in
      (match r with Ok packet => packet :: packets | _ => packets end, self)
  end.
End channel.

(** ** Packet numbers *)

Lemma DIRECTION_BIT_pow : DIRECTION_BIT = 2 ^ 63.
Proof. reflexivity. Qed.

Lemma MAX_COUNTER_ones : MAX_COUNTER = Z.ones 63.
Proof. reflexivity. Qed.

Lemma lor_direction c : fits 63 c → Z.lor c DIRECTION_BIT = c + 2 ^ 63.
Proof.
  intros Hc. rewrite DIRECTION_BIT_pow.
  assert (Z.land c (2 ^ 63) = 0) as Hl.
  { apply Z.bits_inj'. intros n Hn. rewrite Z.land_spec, Z.pow2_bits_eqb, Z.bits_0 by lia.
    destruct (Z.eqb_spec 63 n) as [<-|]; [|apply andb_false_r].
    rewrite <- (Z.mod_small c (2 ^ 63)), Z.mod_pow2_bits_high by (done || lia). done. }
  pose proof (Z.add_lor_land c (2 ^ 63)). lia.
Qed.

Lemma direction_encode_eq d c :
  fits 63 c →
  direction_encode d c = c + match d with ClientToServer => 0 | ServerToClient => 2 ^ 63 end.
Proof. intros Hc. destruct d; simpl; [lia | by apply lor_direction]. Qed.

Lemma direction_encode_fits d c : fits 63 c → fits 64 (direction_encode d c).
Proof. intros Hc. rewrite direction_encode_eq by done. unfold fits in *. destruct d; lia. Qed.

(** Any 64-bit number is its direction and its counter. *)
Lemma direction_decode_spec v d c :
  fits 64 v → direction_decode v = (d, c) ↔ fits 63 c ∧ direction_encode d c = v.
Proof.
  intros Hv. unfold direction_decode. rewrite MAX_COUNTER_ones, Z.land_ones by lia.
  assert ((Z.land v DIRECTION_BIT =? 0) = (v <? 2 ^ 63)) as ->.
  { rewrite DIRECTION_BIT_pow. pose proof (Z.pow2_bits_eqb 63) as Hbits.
    assert (Z.testbit v 63 = negb (v <? 2 ^ 63)) as Ht.
    { unfold fits in Hv. destruct (Z.ltb_spec v (2 ^ 63)).
      - rewrite <- (Z.mod_small v (2 ^ 63)), Z.mod_pow2_bits_high by lia. done.
      - apply Z.testbit_true; [lia|]. replace (v / 2 ^ 63) with 1; [done|].
        apply Z.div_unique with (v - 2 ^ 63); lia. }
    destruct (Z.eqb_spec (Z.land v (2 ^ 63)) 0) as [H0|H0].
    - assert (Z.testbit (Z.land v (2 ^ 63)) 63 = false) as Hf by (rewrite H0; apply Z.bits_0).
      rewrite Z.land_spec, Hbits, Ht in Hf by lia. simpl in Hf. rewrite andb_true_r in Hf.
      by destruct (v <? 2 ^ 63).
    - destruct (v <? 2 ^ 63); [|done]. exfalso. apply H0, Z.bits_inj'. intros n Hn.
      rewrite Z.land_spec, Hbits, Z.bits_0 by lia.
      destruct (Z.eqb_spec 63 n) as [<-|]; [by rewrite Ht | apply andb_false_r]. }
  unfold fits in Hv. pose proof (Z.mod_pos_bound v (2 ^ 63) ltac:(lia)) as Hm.
  pose proof (Z.div_mod v (2 ^ 63) ltac:(lia)) as Hdm. split.
  - intros [= <- <-]. split; [done|]. rewrite direction_encode_eq by done.
    destruct (Z.ltb_spec v (2 ^ 63)).
    + rewrite Z.mod_small by lia. lia.
    + assert (v / 2 ^ 63 = 1) by (symmetry; apply Z.div_unique with (v - 2 ^ 63); lia). lia.
  - intros [Hc <-]. rewrite direction_encode_eq in * by done. unfold fits in Hc. destruct d.
    + rewrite Z.add_0_r in *. rewrite Z.mod_small by lia.
      by rewrite (proj2 (Z.ltb_lt c (2 ^ 63))) by lia.
    + rewrite (proj2 (Z.ltb_ge _ _)) by lia.
      replace (c + 2 ^ 63) with (c + 1 * 2 ^ 63) by lia.
      by rewrite Z.mod_add, Z.mod_small by lia.
Qed.

Lemma direction_encode_inj d1 c1 d2 c2 :
  fits 63 c1 → fits 63 c2 → direction_encode d1 c1 = direction_encode d2 c2 → d1 = d2 ∧ c1 = c2.
Proof.
  intros H1 H2 He.
  assert (direction_decode (direction_encode d1 c1) = (d1, c1)) as E1
    by (apply direction_decode_spec; [by apply direction_encode_fits | done]).
  assert (direction_decode (direction_encode d2 c2) = (d2, c2)) as E2
    by (apply direction_decode_spec; [by apply direction_encode_fits | done]).
  rewrite He, E2 in E1. by injection E1 as -> ->.
Qed.

(** ** Sealing and opening *)
Section channel_lemmas.
Context `{AeadLaws}.
Implicit Types ch : SecureChannel.

(** The counter after [counter]: none when the 63 bits are used up. *)
Definition following (c : Z) : option Z := if c + 1 <=? MAX_COUNTER then Some (c + 1) else None.

Definition packet_nonce (d : PacketDirection) (c : Z) : bytes :=
  make_nonce (to_be 8 (direction_encode d c)).

Lemma seal_next_eq p ch :
  (∀ c, next_counter ch = Some c → fits 63 c) →
  seal_next p ch =
  match next_counter ch with
  | None => (ch, Err CounterExhausted)
  | Some c =>
      match aead_encrypt (outbound_cipher ch) (packet_nonce (outbound_direction ch) c) p with
      | None => (ch, Err EncryptionFailed)
      | Some s => (ch <| next_counter := following c |>,
                   Ok (to_be 8 (direction_encode (outbound_direction ch) c) ++ s))
      end
  end.
Proof.
  intros Hc. unfold seal_next. rewrite bindM_get.
  destruct (next_counter ch) as [c|]; [|done]. specialize (Hc c eq_refl).
  unfold liftM at 1, ok_or at 1. unfold bindM at 1. unfold packet_nonce.
  destruct (aead_encrypt _ _ _) as [s|]; [|done].
  unfold bindM, liftM, ok_or, modM, retM, following.
  unfold checked_add, fits in *. by rewrite (proj2 (Z.ltb_lt (c + 1) (2 ^ 64))) by lia.
Qed.

Lemma MAX_COUNTER_value : MAX_COUNTER = 2 ^ 63 - 1.
Proof. reflexivity. Qed.

Lemma following_fits c : fits 63 c → ∀ c', following c = Some c' → fits 63 c'.
Proof.
  unfold following, fits. rewrite MAX_COUNTER_value. intros Hc c'.
  destruct (Z.leb_spec (c + 1) (2 ^ 63 - 1)); [|done]. intros [= <-]. lia.
Qed.

Lemma seal_all_exhausted l ch : next_counter ch = None → seal_all l ch = ([], ch).
Proof.
  intros Hn. induction l as [|p l IH]; [done|]. cbn [seal_all].
  rewrite seal_next_eq by naive_solver. by rewrite Hn, IH.
Qed.

(** Sealing changes nothing but the counter. *)
Lemma seal_all_same l ch :
  let ch' := snd (seal_all l ch) in
  outbound_cipher ch' = outbound_cipher ch ∧ inbound_cipher ch' = inbound_cipher ch ∧
  outbound_direction ch' = outbound_direction ch ∧ inbound_direction ch' = inbound_direction ch.
Proof.
  revert ch. induction l as [|p l IH]; intros ch; [done|]. cbn [seal_all].
  assert (∃ o, fst (seal_next p ch) = ch <| next_counter := o |> ∨ fst (seal_next p ch) = ch)
    as [o Ho].
  { unfold seal_next. rewrite bindM_get. unfold bindM, liftM, modM, retM.
    destruct (ok_or _ (next_counter ch)); [|exists None; auto..].
    destruct (ok_or _ _); [eauto | exists None; auto..]. }
  destruct (seal_next p ch) as [ch1 r]. specialize (IH ch1).
  destruct (seal_all l ch1) as [ps ch2]. simpl in *.
  destruct Ho as [-> | ->]; simpl in IH; done.
Qed.

(** The numbers a channel uses are the consecutive counters from the first one. *)
Lemma seal_all_numbers l ch c packets ch' :
  next_counter ch = Some c → fits 63 c → seal_all l ch = (packets, ch') →
  take 8 <$> packets = (λ i, to_be 8 (direction_encode (outbound_direction ch) i))
                         <$> seqZ c (len packets) ∧
  c + len packets ≤ 2 ^ 63 ∧
  next_counter ch' = if c + len packets <? 2 ^ 63 then Some (c + len packets) else None.
Proof.
  revert ch c packets ch'. induction l as [|p l IH]; intros ch c packets ch' Hn Hc; cbn [seal_all].
  { intros [= <- <-]. rewrite (@len_nil bytes), Z.add_0_r. unfold fits in Hc.
    rewrite (proj2 (Z.ltb_lt c (2 ^ 63))) by lia. split_and!; [done | lia | done]. }
  rewrite seal_next_eq by naive_solver. rewrite Hn.
  destruct (aead_encrypt _ _ _) as [s|].
  2: { destruct (seal_all l ch) as [ps ch''] eqn:Hl. intros [= <- <-]. by apply IH. }
  set (ch1 := ch <| next_counter := following c |>).
  pose proof (length_to_be 8 (direction_encode (outbound_direction ch) c)) as Hlen.
  remember (to_be 8 (direction_encode (outbound_direction ch) c)) as prefix eqn:Hprefix.
  destruct (seal_all l ch1) as [ps ch''] eqn:Hl. intros [= <- <-].
  assert (outbound_direction ch1 = outbound_direction ch) as Hd by done.
  assert (take 8 (prefix ++ s) = prefix) as Hp by (rewrite <- Hlen; apply take_app_length).
  rewrite len_cons. pose proof (len_nonneg ps).
  destruct (following c) as [c1|] eqn:Hf.
  - assert (c1 = c + 1) as -> by (unfold following in Hf; by case_match; simplify_eq).
    destruct (IH ch1 (c + 1) ps ch'') as (Hnum & Hle & Hnext); try done.
    { by apply (following_fits c). }
    rewrite fmap_cons, Hnum, Hp, Hd, Hprefix, (seqZ_cons c (1 + len ps)), fmap_cons by lia.
    replace (Z.succ c) with (c + 1) by lia. replace (Z.pred (1 + len ps)) with (len ps) by lia.
    rewrite Hnext. replace (c + (1 + len ps)) with (c + 1 + len ps) by lia.
    split_and!; [done | lia | done].
  - rewrite (seal_all_exhausted l ch1) in Hl by done. injection Hl as <- <-.
    assert (c = 2 ^ 63 - 1) as ->.
    { unfold following in Hf. rewrite MAX_COUNTER_value in Hf. unfold fits in Hc.
      destruct (Z.leb_spec (c + 1) (2 ^ 63 - 1)); [done | lia]. }
    rewrite fmap_cons, Hp, Hprefix. by split_and!.
Qed.

Lemma open_number ch v s :
  fits 64 v → OCB_TAG_BYTES ≤ len s →
  open ch (to_be 8 v ++ s) =
  match aead_decrypt (inbound_cipher ch) (make_nonce (to_be 8 v)) s with
  | None => Err AuthenticationFailed
  | Some p =>
      let '(d, c) := direction_decode v in
      if bool_decide (d ≠ inbound_direction ch) then Err UnexpectedDirection else Ok {| counter := c; plaintext := p |}
  end.
Proof.
  intros Hv Hs. unfold open.
  assert (len (to_be 8 v) = PACKET_PREFIX_BYTES) as Hp by (unfold len; by rewrite length_to_be).
  rewrite len_app, Hp, (proj2 (Z.ltb_ge _ _)) by (unfold MINIMUM_PACKET_BYTES; lia).
  unfold get_to, slice_from. rewrite len_app, Hp. pose proof (len_nonneg s).
  rewrite (proj2 (Z.leb_le PACKET_PREFIX_BYTES _)) by lia. cbn [expect bind_ok andb].
  change (0 <=? PACKET_PREFIX_BYTES) with true. cbn [andb].
  change (Z.to_nat PACKET_PREFIX_BYTES) with 8%nat.
  rewrite take_app_length', drop_app_length' by by rewrite length_to_be.
  rewrite from_be_to_be by done. destruct (direction_decode v) as [d c]. cbn [bind_ok].
  by destruct (aead_decrypt _ _ s).
Qed.

Lemma open_sealed ch d c p s :
  fits 63 c → aead_encrypt (inbound_cipher ch) (packet_nonce d c) p = Some s →
  open ch (to_be 8 (direction_encode d c) ++ s) =
  if bool_decide (d ≠ inbound_direction ch) then Err UnexpectedDirection
  else Ok {| counter := c; plaintext := p |}.
Proof.
  intros Hc He. pose proof (aead_length _ _ _ _ He). pose proof (len_nonneg p).
  pose proof (direction_encode_fits d c Hc).
  rewrite open_number by (done || lia). fold (packet_nonce d c).
  rewrite (aead_decrypt_encrypt _ _ _ _ He).
  by rewrite (proj2 (direction_decode_spec _ d c ltac:(done)) (conj Hc eq_refl)).
Qed.

Lemma open_safe ch packet : open ch packet ≠ Panic.
Proof.
  unfold open. destruct (Z.ltb_spec (len packet) MINIMUM_PACKET_BYTES) as [|Hl]; [done|].
  unfold MINIMUM_PACKET_BYTES, PACKET_PREFIX_BYTES, OCB_TAG_BYTES in Hl. unfold get_to, slice_from.
  rewrite (proj2 (Z.leb_le PACKET_PREFIX_BYTES _)) by (unfold PACKET_PREFIX_BYTES; lia).
  change (0 <=? PACKET_PREFIX_BYTES) with true. cbn [expect bind_ok andb].
  destruct (direction_decode _). cbn [bind_ok]. destruct (aead_decrypt _ _ _); [|done].
  simpl. by case_bool_decide.
Qed.

Lemma open_bytes ch packet r : open ch packet = Ok r → Forall is_byte (plaintext r).
Proof.
  unfold open. destruct (_ <? _); [done|]. intros Ho. apply bind_ok_Ok in Ho as (prefix & _ & Ho).
  destruct (direction_decode _) as [d c]. apply bind_ok_Ok in Ho as (s & _ & Ho).
  apply bind_ok_Ok in Ho as (p & Hp & Ho). apply ok_or_Ok in Hp. case_bool_decide; [done|].
  injection Ho as <-. by eapply aead_bytes.
Qed.

(** An accepted packet splits into its number and its sealed bytes. *)
Lemma open_Ok ch packet r :
  Forall is_byte packet → open ch packet = Ok r →
  ∃ s, packet = to_be 8 (direction_encode (inbound_direction ch) (counter r)) ++ s ∧
    fits 63 (counter r) ∧
    aead_encrypt (inbound_cipher ch) (packet_nonce (inbound_direction ch) (counter r)) (plaintext r)
    = Some s.
Proof.
  intros Hb Hopen.
  assert (MINIMUM_PACKET_BYTES ≤ len packet) as Hl.
  { unfold open in Hopen. destruct (Z.ltb_spec (len packet) MINIMUM_PACKET_BYTES); [done|lia]. }
  unfold MINIMUM_PACKET_BYTES, PACKET_PREFIX_BYTES, OCB_TAG_BYTES in Hl.
  rewrite <- (take_drop 8 packet) in Hb, Hopen |- *.
  apply Forall_app in Hb as [Hb _].
  assert (length (take 8 packet) = 8%nat) as H8 by (unfold len in Hl; rewrite length_take; lia).
  pose proof (to_be_from_be _ Hb) as Hv. rewrite H8 in Hv.
  pose proof (from_be_bound _ Hb) as Hfit. unfold len in Hfit at 1. rewrite H8 in Hfit.
  rewrite <- Hv in Hopen |- *. set (v := from_be (take 8 packet)) in *. clearbody v.
  rewrite open_number in Hopen; [|exact Hfit|].
  2: { unfold len in *. rewrite length_drop. unfold OCB_TAG_BYTES. lia. }
  destruct (aead_decrypt _ _ _) as [p|] eqn:Hdec; [|done].
  destruct (direction_decode v) as [d c] eqn:Hd.
  apply direction_decode_spec in Hd as [Hc He]; [|exact Hfit].
  case_bool_decide as Hdir; [done|]. subst d.
  injection Hopen as <-. simpl. unfold packet_nonce. rewrite He.
  exists (drop 8 packet). split; [done|]. split; [apply Hc|]. by apply aead_encrypt_decrypt.
Qed.
End channel_lemmas.

(** ** Properties *)
Definition other (role : PeerRole) : PeerRole :=
  match role with Client => Server | Server => Client end.

(** C13: Every packet that a channel seals, after any number of earlier packets, is
    opened by the peer's channel of the same key to exactly the plaintext and
    the number of packets sealed before it; the sender's own channel, when the
    packet is reflected to it, rejects it by its direction. *)
Theorem sealed_packet_opens `{AeadLaws} role key l p packets ch ch' packet :
  seal_all l (SecureChannel_new role key) = (packets, ch) →
  seal_next p ch = (ch', Ok packet) →
  open (SecureChannel_new (other role) key) packet
    = Ok {| counter := len packets; plaintext := p |} ∧
  open ch' packet = Err UnexpectedDirection.
Proof.
  intros Hl Hs.
  destruct (seal_all_numbers l (SecureChannel_new role key) 0 packets ch)
    as (_ & Hle & Hnext); [done | by unfold fits | done |].
  pose proof (len_nonneg packets). rewrite Z.add_0_l in *.
  destruct (seal_all_same l (SecureChannel_new role key)) as (E1 & E2 & E3 & E4).
  rewrite Hl in E1, E2, E3, E4. simpl in E1, E2, E3, E4.
  destruct (Z.ltb_spec (len packets) (2 ^ 63)) as [Hlt|].
  2: { rewrite seal_next_eq, Hnext in Hs by naive_solver. done. }
  assert (fits 63 (len packets)) as Hfit by (unfold fits; lia).
  rewrite seal_next_eq, Hnext in Hs by (rewrite Hnext; naive_solver).
  destruct (aead_encrypt _ _ _) as [s|] eqn:He; [|done].
  apply pair_equal_spec in Hs as [<- Hs]. apply Ok_inj in Hs as <-.
  split; rewrite open_sealed with (p := p); try done.
  - rewrite E3. by destruct role.
  - change (inbound_cipher _) with (expose key). by rewrite <- E1.
  - simpl inbound_direction. rewrite E3, E4. by destruct role.
  - simpl inbound_cipher. by rewrite E2, <- E1.
Qed.


(** C6: Opening is total and authentic: no bytes make it panic, packets below 24
    bytes are rejected, and an accepted packet is exactly the packet the peer
    seals for the returned counter and plaintext under the same key. *)
Theorem opened_packet_is_authentic `{AeadLaws} role key packet :
  Forall is_byte packet →
  let ch := SecureChannel_new role key in
  open ch packet ≠ Panic ∧
  (len packet < MINIMUM_PACKET_BYTES → open ch packet = Err PacketTooShort) ∧
  (∀ r, open ch packet = Ok r →
     fits 63 (counter r) ∧
     ∀ peer, peer = (SecureChannel_new (other role) key) <| next_counter := Some (counter r) |> →
       snd (seal_next (plaintext r) peer) = Ok packet).
Proof.
  intros Hb ch. split_and!; [apply open_safe| |].
  - intros Hl. unfold open. by rewrite (proj2 (Z.ltb_lt _ _) Hl).
  - intros r Hr. apply open_Ok in Hr as (s & Hp & Hc & He); [|done]. split; [done|].
    intros peer ->. rewrite seal_next_eq by naive_solver. simpl in *.
    assert (for_inbound role = for_outbound (other role)) as Hd by by destruct role.
    rewrite Hd in He. rewrite He, Hp, Hd. done.
Qed.
