(* ===== verification/State.v ===== *)
(** * Remote terminal state

    The model of [crates/ferrumtty-state/src/lib.rs]: the history of parser
    operations of a logical terminal ([StateHistory]), the terminal itself
    ([RemoteTerminalState]: [apply], [diff_from], [clone], compaction) and the
    audit that decides when a screen diff may stand in for a history
    ([ScreenDiffAudit]).

    The terminal emulator [vt100] and the escape-sequence parser [vte] are
    libraries: they are the classes [Vt100] and [Vte], whose laws say that both
    are streaming (cutting the input into pieces changes nothing).  A history is
    a list of nodes shared through [Arc]; nodes are immutable, so that a node is
    its value. *)
From S2P Require Import Prelude Emulators Message.
Local Open Scope Z_scope.

Definition MAX_RETAINED_HOST_BYTES : Z := 16 * 1024 * 1024.
Definition MAX_RETAINED_OPERATIONS : Z := 65536.

Inductive StateError :=
| InvalidViewport
| HistoryLimitExceeded
| DivergedHistory
| EchoAckRegression.

#[export] Instance StateError_eq_dec : EqDecision StateError.
Proof. solve_decision. Defined.

(** ** Histories *)
Inductive StateOperation :=
| HostBytes (value : bytes)
| Resize (columns rows : Z)
| SessionControlOp (control : SessionControl).

#[export] Instance StateOperation_eq_dec : EqDecision StateOperation.
Proof. solve_decision. Defined.

Inductive HistoryNode := mkHistoryNode (parent : option HistoryNode) (operation : StateOperation).

Record StateHistory := mkStateHistory {
  tail : option HistoryNode;
  operation_count : Z;
  retained_bytes : Z;
}.

#[export] Instance eta_StateHistory : Eta StateHistory := λ h,
  mkStateHistory (tail h) (operation_count h) (retained_bytes h).
#[export] Instance upd_tail : Update tail := ltac:(solve_update).
#[export] Instance upd_operation_count : Update operation_count := ltac:(solve_update).
#[export] Instance upd_retained_bytes : Update retained_bytes := ltac:(solve_update).

Definition history_default : StateHistory := mkStateHistory None 0 0.

Definition history_push (operation : StateOperation) (self : StateHistory) : StateHistory :=
  (self <| tail := Some (mkHistoryNode (tail self) operation) |>)
       <| operation_count ::= λ n, n + 1 |>.

(** The loop of [operations]: from the tail to the oldest node. *)
Fixpoint node_operations (node : HistoryNode) : list StateOperation :=
  match node with
  | mkHistoryNode parent operation =>
      operation :: match parent with Some parent => node_operations parent | None => [] end
  end.

Definition operations (self : StateHistory) : list StateOperation :=
  reverse (match tail self with Some node => node_operations node | None => [] end).

(** One iteration of [canonical_operations]; the list is kept in reverse, so that
    [last_mut] is its head. *)
Definition canonical_step (canonical : list StateOperation) (operation : StateOperation)
    : list StateOperation :=
  match canonical, operation with
  | HostBytes previous :: canonical, HostBytes value => HostBytes (previous ++ value) :: canonical
  | _, _ => operation :: canonical
  end.

Definition canonical_operations (self : StateHistory) : list StateOperation :=
  reverse (foldl canonical_step [] (operations self)).

(** ** Sizes and viewports *)

Definition validate_viewport (columns rows : Z) : outcome StateError unit :=
  if (columns =? 0) || (rows =? 0) || negb (fitsb 16 columns) || negb (fitsb 16 rows)
  then Err InvalidViewport else Ok tt.

(** One iteration of [history_growth]. *)
Definition history_growth_step (state : Z * Z * ViewportSize) (instruction : Instruction)
    : outcome StateError (Z * Z * ViewportSize) :=
  let '(additional_bytes, additional_operations, vp) := state in
  let? (additional_bytes, additional_operations) :=
    match instr_bytes instruction with
    | Some b =>
        let? additional_bytes := ok_or HistoryLimitExceeded
                                   (checked_add 64 additional_bytes (len (run_value b))) in
        Ok (additional_bytes,
            additional_operations + (if bool_decide (run_value b = []) then 0 else 1))
    | None => Ok (additional_bytes, additional_operations)
    end in
  let '(additional_operations, vp) :=
    match viewport instruction with
    | Some next_viewport =>
        if bool_decide (vp ≠ next_viewport) then (additional_operations + 1, next_viewport)
        else (additional_operations, vp)
    | None => (additional_operations, vp)
    end in
  Ok (additional_bytes,
      additional_operations + (if is_some (session_control instruction) then 1 else 0), vp).

Fixpoint history_growth_loop (l : list Instruction) (state : Z * Z * ViewportSize)
    : outcome StateError (Z * Z * ViewportSize) :=
  match l with
  | [] => Ok state
  | instruction :: l =>
      let? state := history_growth_step state instruction in history_growth_loop l state
  end.

Definition history_growth (batch : InstructionBatch) (initial_viewport : ViewportSize)
    : outcome StateError (Z * Z) :=
  let? (additional_bytes, additional_operations, _) :=
    history_growth_loop (instructions batch) (0, 0, initial_viewport) in
  Ok (additional_bytes, additional_operations).

Definition validate_history_size (retained_bytes operation_count additional_bytes
    additional_operations : Z) : outcome StateError unit :=
  let? retained_bytes := ok_or HistoryLimitExceeded
                           (checked_add 64 retained_bytes additional_bytes) in
  let? operation_count := ok_or HistoryLimitExceeded
                            (checked_add 64 operation_count additional_operations) in
  if (MAX_RETAINED_HOST_BYTES <? retained_bytes) || (MAX_RETAINED_OPERATIONS <? operation_count)
  then Err HistoryLimitExceeded else Ok tt.

Definition host_bytes_instruction (value : bytes) : Instruction :=
  mkInstruction (Some (mkByteRun value)) None None None.
Definition viewport_instruction (columns rows : Z) : Instruction :=
  mkInstruction None (Some (mkViewportSize columns rows)) None None.
Definition session_control_instruction (control : SessionControl) : Instruction :=
  mkInstruction None None None (Some control).

(** ** The audit of a history *)
Record ScreenDiffAudit := mkScreenDiffAudit {
  reconstructible : bool;
  auditing : bool;
  probing : bool;
  probe_prints : Z;
  probe_other_actions : Z;
}.

#[export] Instance eta_ScreenDiffAudit : Eta ScreenDiffAudit := λ a,
  mkScreenDiffAudit (reconstructible a) (auditing a) (probing a) (probe_prints a)
    (probe_other_actions a).
#[export] Instance upd_reconstructible : Update reconstructible := ltac:(solve_update).
#[export] Instance upd_auditing : Update auditing := ltac:(solve_update).
#[export] Instance upd_probing : Update probing := ltac:(solve_update).
#[export] Instance upd_probe_prints : Update probe_prints := ltac:(solve_update).
#[export] Instance upd_probe_other_actions : Update probe_other_actions := ltac:(solve_update).

Definition audit_default : ScreenDiffAudit := mkScreenDiffAudit true false false 0 0.

Definition begin_tail_audit (self : ScreenDiffAudit) : ScreenDiffAudit :=
  (self <| auditing := true |>) <| reconstructible := true |>.

Definition begin_boundary_probe (self : ScreenDiffAudit) : ScreenDiffAudit :=
  ((self <| probing := true |>) <| probe_prints := 0 |>) <| probe_other_actions := 0 |>.

Definition probe_is_ground (self : ScreenDiffAudit) : bool :=
  (probe_prints self =? 1) && (probe_other_actions self =? 0).

Definition record_other_action (self : ScreenDiffAudit) : ScreenDiffAudit :=
  if probing self then self <| probe_other_actions ::= λ n, n + 1 |>
  else if auditing self then self <| reconstructible := false |>
  else self.

Definition audit_print (character : Z) (self : ScreenDiffAudit) : ScreenDiffAudit :=
  if probing self then
    (self <| probe_prints ::= λ n, n + (if character =? 126 then 1 else 0) |>)
          <| probe_other_actions ::= λ n, n + (if negb (character =? 126) then 1 else 0) |>
  else self.

Definition audit_execute (byte : Z) (self : ScreenDiffAudit) : ScreenDiffAudit :=
  if probing self then self <| probe_other_actions ::= λ n, n + 1 |>
  else if auditing self && negb (bool_decide (byte ∈ [8; 9; 10; 13]))
  then self <| reconstructible := false |>
  else self.

Definition audit_perform (self : ScreenDiffAudit) (action : vte_action) : ScreenDiffAudit :=
  match action with
  | VtePrint character => audit_print character self
  | VteExecute byte => audit_execute byte self
  | VteHook | VtePut _ | VteUnhook | VteOscDispatch _ | VteCsiDispatch _ _ _ _ | VteEscDispatch _ _ _ =>
      record_other_action self
  end.

Section audits.
Context `{Vte}.

(** [parser.advance(&mut audit, bytes)]. *)
Definition audit_advance (value : bytes) (state : vte_parser * ScreenDiffAudit)
    : vte_parser * ScreenDiffAudit :=
  let '(parser, actions) := vte_advance value (fst state) in
  (parser, foldl audit_perform (snd state) actions).

Definition audit_operation (state : vte_parser * ScreenDiffAudit) (operation : StateOperation)
    : vte_parser * ScreenDiffAudit :=
  match operation with
  | HostBytes value => audit_advance value state
  | _ => state
  end.

(** The loop over the tail, with its early return. *)
Fixpoint audit_tail (tail : list StateOperation) (state : vte_parser * ScreenDiffAudit)
    : option (vte_parser * ScreenDiffAudit) :=
  match tail with
  | [] => Some state
  | HostBytes value :: tail => audit_tail tail (audit_advance value state)
  | Resize _ _ :: _ => None
  | SessionControlOp _ :: tail => audit_tail tail state
  end.

Definition history_tail_is_screen_diff_safe (common tail : list StateOperation) : bool :=
  let '(parser, audit) := foldl audit_operation (vte_new, audit_default) common in
  let audit := begin_tail_audit audit in
  match audit_tail tail (parser, audit) with
  | None => false
  | Some (parser, audit) =>
      let audit := begin_boundary_probe audit in
      let '(_, audit) := audit_advance (lit "~") (parser, audit) in
      probe_is_ground audit
  end.

Definition history_ends_at_ground (operations : list StateOperation) : bool :=
  let '(parser, audit) := foldl audit_operation (vte_new, audit_default) operations in
  let audit := begin_boundary_probe audit in
  let '(_, audit) := audit_advance (lit "~") (parser, audit) in
  probe_is_ground audit.
End audits.

(** ** Comparing histories *)

(** The number of leading bytes two byte strings share. *)
Fixpoint common_prefix_length (a b : bytes) : nat :=
  match a, b with
  | x :: a, y :: b => if x =? y then S (common_prefix_length a b) else 0%nat
  | _, _ => 0%nat
  end.

Definition starts_with (target delivered : bytes) : bool :=
  bool_decide (take (length delivered) target = delivered).

(** The loop of [history_suffix_start], from [index] on: the remaining
    operations of both histories. *)
Fixpoint history_suffix_start_from (index : Z) (target delivered : list StateOperation)
    {struct delivered} : outcome StateError (Z * Z) :=
  match delivered with
  | [] => Ok (index, 0)
  | delivered_operation :: delivered =>
      match target with
      | [] => Err DivergedHistory
      | target_operation :: target =>
          match target_operation, delivered_operation with
          | HostBytes target_bytes, HostBytes delivered_bytes =>
              if starts_with target_bytes delivered_bytes then
                if negb (len target_bytes =? len delivered_bytes) then
                  match delivered with
                  | [] => Ok (index, len delivered_bytes)
                  | _ :: _ => Err DivergedHistory
                  end
                else history_suffix_start_from (index + 1) target delivered
              else if bool_decide (target_operation = delivered_operation)
              then history_suffix_start_from (index + 1) target delivered
              else Err DivergedHistory
          | _, _ =>
              if bool_decide (target_operation = delivered_operation)
              then history_suffix_start_from (index + 1) target delivered
              else Err DivergedHistory
          end
      end
  end.

Definition history_suffix_start (target delivered : list StateOperation)
    : outcome StateError (Z * Z) := history_suffix_start_from 0 target delivered.

Definition host_bytes_tail (value : bytes) : list StateOperation :=
  if bool_decide (value = []) then [] else [HostBytes value].

Fixpoint split_common_history (target delivered : list StateOperation)
    : list StateOperation * list StateOperation * list StateOperation :=
  match target, delivered with
  | target_operation :: target', delivered_operation :: delivered' =>
      if bool_decide (target_operation = delivered_operation) then
        let '(common, target_tail, delivered_tail) := split_common_history target' delivered' in
        (target_operation :: common, target_tail, delivered_tail)
      else
        match target_operation, delivered_operation with
        | HostBytes target_bytes, HostBytes delivered_bytes =>
            let common_bytes := common_prefix_length target_bytes delivered_bytes in
            ((if bool_decide (common_bytes = 0%nat) then []
              else [HostBytes (take common_bytes target_bytes)]),
             host_bytes_tail (drop common_bytes target_bytes) ++ target',
             host_bytes_tail (drop common_bytes delivered_bytes) ++ delivered')
        | _, _ => ([], target, delivered)
        end
  | _, _ => ([], target, delivered)
  end.

Definition diverged_histories_are_screen_diff_safe `{Vte} (target delivered : list StateOperation)
    : bool :=
  let '(common, target_tail, delivered_tail) := split_common_history target delivered in
  history_tail_is_screen_diff_safe common target_tail
  && history_tail_is_screen_diff_safe common delivered_tail.

(** ** The terminal *)
Record RemoteTerminalState `{Vt100} := mkRemoteTerminalState {
  initial_columns : Z;
  initial_rows : Z;
  parser : vt_parser;
  history : StateHistory;
  st_viewport : ViewportSize;
  echo_ack : option Z;
}.

#[export] Instance eta_RemoteTerminalState `{Vt100} : Eta RemoteTerminalState := λ s,
  mkRemoteTerminalState _ (initial_columns s) (initial_rows s) (parser s) (history s)
    (st_viewport s) (echo_ack s).
#[export] Instance upd_initial_columns `{Vt100} : Update initial_columns := ltac:(solve_update).
#[export] Instance upd_initial_rows `{Vt100} : Update initial_rows := ltac:(solve_update).
#[export] Instance upd_parser `{Vt100} : Update parser := ltac:(solve_update).
#[export] Instance upd_history `{Vt100} : Update history := ltac:(solve_update).
#[export] Instance upd_st_viewport `{Vt100} : Update st_viewport := ltac:(solve_update).
#[export] Instance upd_echo_ack `{Vt100} : Update echo_ack := ltac:(solve_update).

Section terminal.
Context `{Vt100} `{Vte}.

Definition terminal_new (columns rows : Z) : outcome StateError RemoteTerminalState :=
  let? _ := validate_viewport columns rows in
  Ok {|
    initial_columns := columns;
    initial_rows := rows;
    parser := vt_new rows columns 0;
    history := history_default;
    st_viewport := mkViewportSize columns rows;
    echo_ack := None;
  |}.

Definition screen (self : RemoteTerminalState) : vt_screen := vt_get_screen (parser self).

Definition apply_host_bytes (value : bytes) : M RemoteTerminalState StateError unit :=
  modM (λ self, self <| parser ::= vt_process value |>) ;!
  if bool_decide (value = []) then retM tt
  else modM (λ self, self <| history ::= λ h,
    history_push (HostBytes value) (h <| retained_bytes ::= λ n, n + len value |>) |>).

Definition apply_resize (columns rows : Z) : M RemoteTerminalState StateError unit :=
  let! self := getM in
  if bool_decide (st_viewport self = mkViewportSize columns rows) then retM tt
  else
    modM (λ self, self <| parser ::= vt_set_size rows columns |>) ;!
    modM (λ self, self <| st_viewport := mkViewportSize columns rows |>) ;!
    modM (λ self, self <| history ::= history_push (Resize columns rows) |>).

Definition validate_history_growth (self : RemoteTerminalState) (batch : InstructionBatch)
    : outcome StateError unit :=
  let? (additional_bytes, additional_operations) := history_growth batch (st_viewport self) in
  validate_history_size (retained_bytes (history self)) (operation_count (history self))
    additional_bytes additional_operations.

Definition compacted_history (self : RemoteTerminalState) (batch : InstructionBatch)
    : outcome StateError (StateHistory * Z * Z) :=
  if negb (history_ends_at_ground (canonical_operations (history self)))
  then Err HistoryLimitExceeded
  else
    let snapshot := vt_state_formatted (screen self) in
    let? (additional_bytes, additional_operations) := history_growth batch (st_viewport self) in
    let snapshot_operations := if bool_decide (snapshot = []) then 0 else 1 in
    let? _ := validate_history_size (len snapshot) snapshot_operations additional_bytes
                additional_operations in
    let tail := if bool_decide (snapshot = []) then None
                else Some (mkHistoryNode None (HostBytes snapshot)) in
    let? columns := ok_or InvalidViewport (try_into 16 (columns (st_viewport self))) in
    let? rows := ok_or InvalidViewport (try_into 16 (rows (st_viewport self))) in
    Ok ({| tail := tail; operation_count := snapshot_operations;
           retained_bytes := len snapshot |}, columns, rows).

(** The second loop of [apply]: the markers must not decrease. *)
Fixpoint check_markers (l : list Instruction) (echo_ack : option Z) : outcome StateError unit :=
  match l with
  | [] => Ok tt
  | instruction :: l =>
      match marker instruction with
      | None => check_markers l echo_ack
      | Some m =>
          if is_some_and (λ current, marker_value m <? current) echo_ack
          then Err EchoAckRegression
          else check_markers l (Some (marker_value m))
      end
  end.

(** One iteration of the last loop of [apply]. *)
Definition apply_instruction (instruction : Instruction) : M RemoteTerminalState StateError unit :=
  match instr_bytes instruction with
  | Some b => apply_host_bytes (run_value b)
  | None => retM tt
  end ;!
  match viewport instruction with
  | Some vp =>
      let! columns := liftM (ok_or InvalidViewport (try_into 16 (columns vp))) in
      let! rows := liftM (ok_or InvalidViewport (try_into 16 (rows vp))) in
      apply_resize columns rows
  | None => retM tt
  end ;!
  match marker instruction with
  | Some m => modM (λ self, self <| echo_ack := Some (marker_value m) |>)
  | None => retM tt
  end ;!
  match session_control instruction with
  | Some control => modM (λ self, self <| history ::= history_push (SessionControlOp control) |>)
  | None => retM tt
  end.

Fixpoint apply_instructions (l : list Instruction) : M RemoteTerminalState StateError unit :=
  match l with
  | [] => retM tt
  | instruction :: l => apply_instruction instruction ;! apply_instructions l
  end.

Definition apply (batch : InstructionBatch) : M RemoteTerminalState StateError unit :=
  liftM (for_each (λ instruction,
    match viewport instruction with
    | Some vp => validate_viewport (columns vp) (rows vp)
    | None => Ok tt
    end) (instructions batch)) ;!
  let! self := getM in
  liftM (check_markers (instructions batch) (echo_ack self)) ;!
  (if is_ok (validate_history_growth self batch) then retM tt
   else
     let! compacted := liftM (compacted_history self batch) in
     let '(history', initial_columns', initial_rows') := compacted in
     modM (λ self, self <| history := history' |>) ;!
     modM (λ self, self <| initial_columns := initial_columns' |>) ;!
     modM (λ self, self <| initial_rows := initial_rows' |>)) ;!
  apply_instructions (instructions batch).

(** The instruction that the suffix of a history contributes. *)
Definition diff_operation (offset : Z) (operation : StateOperation) : outcome StateError (option Instruction) :=
  match operation with
  | HostBytes value =>
      let? value := slice_from offset value in
      Ok (if bool_decide (value = []) then None else Some (host_bytes_instruction value))
  | Resize columns rows => Ok (Some (viewport_instruction columns rows))
  | SessionControlOp control => Ok (Some (session_control_instruction control))
  end.

Definition diff_suffix (first_byte_offset : Z) (suffix : list StateOperation)
    : outcome StateError (list Instruction) :=
  let? l := collect (imap (λ index operation,
    diff_operation (if bool_decide (index = 0%nat) then first_byte_offset else 0) operation) suffix) in
  Ok (omap id l).

Definition diff_from (self delivered : RemoteTerminalState) : outcome StateError InstructionBatch :=
  let target_operations := canonical_operations (history self) in
  let delivered_operations := canonical_operations (history delivered) in
  let? l :=
    match history_suffix_start target_operations delivered_operations with
    | Ok (suffix_start, first_byte_offset) =>
        let? suffix := slice_from suffix_start target_operations in
        diff_suffix first_byte_offset suffix
    | Err DivergedHistory =>
        if bool_decide (st_viewport self = st_viewport delivered)
           && diverged_histories_are_screen_diff_safe target_operations delivered_operations
        then
          let value := vt_state_diff (screen self) (screen delivered) in
          Ok (if bool_decide (value = []) then [] else [host_bytes_instruction value])
        else Err DivergedHistory
    | Err error => Err error
    | Panic => Panic
    end in
  let l :=
    if bool_decide (echo_ack self ≠ echo_ack delivered) then
      match echo_ack self with
      | Some value => mkInstruction None None (Some (mkMarker value)) None :: l
      | None => l
      end
    else l in
  Ok (mkInstructionBatch l).

(** The loop of [clone]: replaying an operation. *)
Definition replay (p : vt_parser) (operation : StateOperation) : vt_parser :=
  match operation with
  | HostBytes value => vt_process value p
  | Resize columns rows => vt_set_size rows columns p
  | SessionControlOp _ => p
  end.

Definition clone (self : RemoteTerminalState) : outcome StateError RemoteTerminalState :=
  let? cloned := match terminal_new (initial_columns self) (initial_rows self) with
                 | Ok cloned => Ok cloned
                 | _ => Panic
                 end in
  let cloned := cloned <| parser := foldl replay (parser cloned) (operations (history self)) |> in
  let cloned := cloned <| history := history self |> in
  let cloned := cloned <| st_viewport := st_viewport self |> in
  Ok (cloned <| echo_ack := echo_ack self |>).

Definition StateDiff_fmt (batch : InstructionBatch) : bytes :=
  lit "StateDiff { instructions: " ++ decimal (len (instructions batch))
  ++ lit ", host_bytes: "
  ++ decimal (sum_list_Z ((λ b, len (run_value b)) <$> omap instr_bytes (instructions batch)))
  ++ lit " }".
End terminal.

(** ** Histories as streams of events

    What a history means: its bytes one by one, its resizes and its controls.
    Cutting the bytes into operations differently changes nothing. *)
Inductive event := EByte (b : Z) | EResize (columns rows : Z) | EControl (control : SessionControl).

#[export] Instance event_eq_dec : EqDecision event.
Proof. solve_decision. Defined.

Definition events (operation : StateOperation) : list event :=
  match operation with
  | HostBytes value => EByte <$> value
  | Resize columns rows => [EResize columns rows]
  | SessionControlOp control => [EControl control]
  end.

Definition flatten (l : list StateOperation) : list event := mjoin (events <$> l).

Definition op_bytes (operation : StateOperation) : Z :=
  match operation with HostBytes value => len value | _ => 0 end.
Definition ops_bytes (l : list StateOperation) : Z := sum_list_Z (op_bytes <$> l).

(** No empty byte operation, and no two byte operations in a row. *)
Fixpoint canonical (l : list StateOperation) : Prop :=
  match l with
  | [] => True
  | HostBytes value :: l =>
      value ≠ [] ∧ match l with HostBytes _ :: _ => False | _ => True end ∧ canonical l
  | _ :: l => canonical l
  end.

Definition nonempty_op (operation : StateOperation) : Prop := operation ≠ HostBytes [].

Lemma flatten_cons op l : flatten (op :: l) = events op ++ flatten l.
Proof. done. Qed.

Lemma flatten_app l k : flatten (l ++ k) = flatten l ++ flatten k.
Proof. unfold flatten. by rewrite fmap_app, join_app. Qed.

Lemma operations_push op h : operations (history_push op h) = operations h ++ [op].
Proof.
  unfold operations, history_push. simpl. destruct (tail h) as [n|]; simpl;
    by rewrite ?reverse_cons.
Qed.

Lemma operations_default : operations history_default = [].
Proof. done. Qed.

(** *** [canonical_operations] *)

(** The reversed list under construction. *)
Definition rev_canonical (l : list StateOperation) : Prop := canonical (reverse l).

Lemma canonical_app l k :
  canonical (l ++ k) ↔
  canonical l ∧ canonical k ∧
  match last l, head k with Some (HostBytes _), Some (HostBytes _) => False | _, _ => True end.
Proof.
  induction l as [|op l IH]; [simpl; tauto|]. destruct op as [v|c r|sc]; simpl.
  - rewrite IH. destruct l as [|op' l]; simpl.
    + destruct k as [|[] k]; simpl; tauto.
    + destruct op'; simpl; tauto.
  - rewrite IH. destruct l; simpl; tauto.
  - rewrite IH. destruct l; simpl; tauto.
Qed.

Lemma canonical_step_spec l op :
  canonical (reverse l) → nonempty_op op →
  canonical (reverse (canonical_step l op)) ∧
  flatten (reverse (canonical_step l op)) = flatten (reverse l) ++ events op.
Proof.
  intros Hl Hop.
  assert (∀ o, canonical [o] ↔ nonempty_op o) as Hone
    by (intros []; unfold nonempty_op; simpl; split; try done; naive_solver).
  destruct l as [|o l].
  { simpl. rewrite reverse_singleton. simpl. rewrite flatten_cons.
    split; [|by rewrite app_nil_r]. by apply Hone. }
  assert (canonical (reverse (op :: o :: l)) ↔ match o, op with HostBytes _, HostBytes _ => False | _, _ => True end) as Hpush.
  { rewrite reverse_cons, canonical_app, Hone. rewrite reverse_cons, last_snoc. simpl.
    rewrite reverse_cons in Hl. destruct o, op; tauto. }
  destruct o as [v|c r|sc], op as [v'|c' r'|sc']; simpl;
    try (split; [by apply Hpush | rewrite (reverse_cons _ _), flatten_app; simpl;
                 rewrite flatten_cons; by rewrite app_nil_r]).
  rewrite !reverse_cons, !flatten_app in *. rewrite !canonical_app in *. simpl in *.
  split.
  - destruct Hl as (? & (? & _) & ?). split_and!; try done.
    destruct v; simpl; [done|discriminate].
  - unfold flatten. simpl. rewrite fmap_app, !app_nil_r. by rewrite app_assoc.
Qed.

Lemma canonical_operations_spec h :
  Forall nonempty_op (operations h) →
  canonical (canonical_operations h) ∧ flatten (canonical_operations h) = flatten (operations h).
Proof.
  unfold canonical_operations. generalize (operations h) as ops. intros ops Hops.
  enough (∀ acc, canonical (reverse acc) →
    canonical (reverse (foldl canonical_step acc ops)) ∧
    flatten (reverse (foldl canonical_step acc ops)) = flatten (reverse acc) ++ flatten ops) as H
    by by apply H.
  induction Hops as [|op ops Hop Hops IH]; intros acc Hacc; simpl.
  - split; [done|]. unfold flatten at 3. simpl. by rewrite app_nil_r.
  - destruct (canonical_step_spec acc op Hacc Hop) as [H1 H2].
    destruct (IH _ H1) as [H3 H4]. split; [done|].
    by rewrite H4, H2, flatten_cons, app_assoc.
Qed.

(** *** [history_suffix_start] *)

Lemma starts_with_spec a b : starts_with a b = true ↔ b `prefix_of` a.
Proof.
  unfold starts_with. rewrite bool_decide_eq_true. split.
  - intros <-. exists (drop (length b) a). by rewrite take_drop.
  - intros [k ->]. by rewrite take_app_length.
Qed.

(** What is left of the target after the answer of [history_suffix_start]. *)
Definition suffix_of (target : list StateOperation) (i off : Z) : list event :=
  drop (Z.to_nat off) (flatten (drop (Z.to_nat i) target)).

Lemma flatten_nil_canonical l : canonical l → flatten l = [] → l = [].
Proof.
  destruct l as [|[v|c r|sc] l]; [done|..]; rewrite flatten_cons; simpl; [|done..].
  intros (Hv & _) Hf. apply app_eq_nil in Hf as [Hf _]. by apply fmap_nil_inv in Hf.
Qed.

Lemma canonical_tail op l : canonical (op :: l) → canonical l.
Proof. destruct op; simpl; tauto. Qed.

(** After a byte operation, a canonical history does not continue with a byte. *)
Lemma canonical_after_bytes v l b k :
  canonical (HostBytes v :: l) → flatten l ≠ EByte b :: k.
Proof.
  intros Hc. pose proof (canonical_tail _ _ Hc) as Hl. simpl in Hc. destruct Hc as (_ & Hh & _).
  destruct l as [|[v'|c r|sc] l]; try done.
Qed.

Lemma prefix_bytes_split (a b : bytes) (k1 k2 : list event) :
  (EByte <$> b) ++ k2 `prefix_of` (EByte <$> a) ++ k1 →
  b `prefix_of` a ∨ ∃ c d, b = a ++ c :: d ∧ ∃ k, k1 = EByte c :: k.
Proof.
  revert a. induction b as [|x b IH]; intros a Hp; [left; apply prefix_nil|].
  destruct a as [|y a]; simpl in Hp.
  - right. exists x, b. split; [done|]. destruct Hp as [k Hk]. simpl in Hk. eauto.
  - apply prefix_cons_inv_1 in Hp as Hxy. apply prefix_cons_inv_2 in Hp.
    injection Hxy as ->. destruct (IH a Hp) as [Hb|(c & d & -> & Hk)].
    + left. by apply prefix_cons.
    + right. by exists c, d.
Qed.

Lemma events_head op l : canonical (op :: l) → ∃ e k, events op = e :: k ∧
  match op, e with
  | HostBytes _, EByte _ => True
  | Resize c r, EResize c' r' => c = c' ∧ r = r'
  | SessionControlOp s, EControl s' => s = s'
  | _, _ => False
  end.
Proof.
  destruct op as [[|b v]|c r|s]; simpl; [tauto|..]; intros; do 2 eexists; split; done.
Qed.

Definition suffix_answer (i : Z) (target delivered : list StateOperation)
    (r : outcome StateError (Z * Z)) : Prop :=
  match r with
  | Ok (j, off) =>
      i ≤ j ≤ i + len target ∧ 0 ≤ off ∧
      flatten target = flatten delivered ++ suffix_of target (j - i) off ∧
      match drop (Z.to_nat (j - i)) target with HostBytes v :: _ => off ≤ len v | _ => off = 0 end
  | Err e => e = DivergedHistory ∧ ¬ flatten delivered `prefix_of` flatten target
  | Panic => False
  end.

Lemma suffix_answer_cons i op target delivered r :
  suffix_answer (i + 1) target delivered r → suffix_answer i (op :: target) (op :: delivered) r.
Proof.
  destruct r as [[j off]|e|]; simpl; [|intros [-> Hp]|done].
  - intros (Hj & Hoff & Hf & Hb). rewrite len_cons. pose proof (len_nonneg target).
    unfold suffix_of in *.
    replace (Z.to_nat (j - i)) with (S (Z.to_nat (j - (i + 1)))) by lia. simpl.
    split_and!; try lia; [|done]. rewrite !flatten_cons, Hf at 1. by rewrite app_assoc.
  - split; [done|]. rewrite !flatten_cons. intros Hq. by apply prefix_app_inv in Hq.
Qed.

(** The delivered text ends inside a text of the target. *)
Lemma suffix_answer_inside i v k ts :
  suffix_answer i (HostBytes (v ++ k) :: ts) [HostBytes v] (Ok (i, len v)).
Proof.
  unfold suffix_answer, suffix_of. rewrite Z.sub_diag, len_cons.
  change (Z.to_nat 0) with 0%nat. rewrite drop_0.
  pose proof (len_nonneg ts). pose proof (len_nonneg v). pose proof (len_nonneg k).
  split_and!; try lia; [|rewrite len_app; lia].
  rewrite !flatten_cons. simpl. rewrite app_nil_r, fmap_app, <- !app_assoc.
  rewrite drop_app_length'; [done|]. unfold len. by rewrite Nat2Z.id, length_fmap.
Qed.

(** The target's text goes on where the delivered history does something else. *)
Lemma suffix_answer_overrun i v b k ts d ds :
  canonical (HostBytes v :: d :: ds) →
  suffix_answer i (HostBytes (v ++ b :: k) :: ts) (HostBytes v :: d :: ds) (Err DivergedHistory).
Proof.
  intros Hd. split; [done|]. rewrite !(flatten_cons (HostBytes _)). simpl.
  rewrite fmap_app, <- app_assoc. intros Hp. apply prefix_app_inv in Hp.
  destruct (events_head d ds (canonical_tail _ _ Hd)) as (e & k' & He & _).
  pose proof (canonical_after_bytes v (d :: ds) b) as Hno.
  rewrite flatten_cons, He in Hp, Hno. simpl in Hp, Hno. apply prefix_cons_inv_1 in Hp as ->.
  by eapply Hno.
Qed.

(** Two texts, neither of which the other continues. *)
Lemma suffix_answer_texts i v w ts ds :
  canonical (HostBytes v :: ts) → starts_with v w = false →
  suffix_answer i (HostBytes v :: ts) (HostBytes w :: ds) (Err DivergedHistory).
Proof.
  intros Ht Hs. split; [done|]. rewrite !flatten_cons. simpl. intros Hp.
  apply prefix_bytes_split in Hp as [Hp|(c & d & -> & k & Hk)].
  - apply starts_with_spec in Hp. congruence.
  - by eapply canonical_after_bytes in Ht.
Qed.

(** Operations that are not both texts agree or differ as a whole. *)
Lemma suffix_answer_other i t d ts ds r :
  canonical (t :: ts) → canonical (d :: ds) →
  (∀ v w, t = HostBytes v → d = HostBytes w → False) →
  suffix_answer (i + 1) ts ds r →
  suffix_answer i (t :: ts) (d :: ds) (if bool_decide (t = d) then r else Err DivergedHistory).
Proof.
  intros Ht Hd Hno Hr. case_bool_decide as Htd.
  - subst d. by apply suffix_answer_cons.
  - split; [done|]. rewrite !flatten_cons.
    destruct (events_head t ts Ht) as (e1 & k1 & -> & H1).
    destruct (events_head d ds Hd) as (e2 & k2 & -> & H2). simpl.
    intros Hp. apply prefix_cons_inv_1 in Hp as ->.
    destruct t, d, e1; try done; naive_solver.
Qed.

Lemma history_suffix_start_from_spec i target delivered :
  canonical target → canonical delivered →
  suffix_answer i target delivered (history_suffix_start_from i target delivered).
Proof.
  revert i target. induction delivered as [|d ds IH]; intros i target Ht Hd;
    cbn [history_suffix_start_from].
  { unfold suffix_answer, suffix_of. rewrite Z.sub_diag. pose proof (len_nonneg target).
    split_and!; try lia; [done|]. simpl. destruct target as [|[] ?]; try done. apply len_nonneg. }
  destruct target as [|t ts].
  { split; [done|]. destruct (events_head d ds Hd) as (e & k & He & _).
    rewrite flatten_cons, He. intros Hp. by apply prefix_nil_not in Hp. }
  pose proof (canonical_tail _ _ Ht) as Hts. pose proof (canonical_tail _ _ Hd) as Hds.
  destruct t as [tv|c r|s], d as [dv|c' r'|s'];
    try (apply suffix_answer_other; [done|done|by intros|by apply IH]).
  destruct (starts_with tv dv) eqn:Hs.
  - apply starts_with_spec in Hs as [k ->]. rewrite len_app.
    destruct (Z.eqb_spec (len dv + len k) (len dv)) as [Hlen|Hlen]; simpl negb.
    + assert (k = []) as -> by (apply len_zero; lia). rewrite app_nil_r in *.
      by apply suffix_answer_cons, IH.
    + destruct ds as [|d2 ds]; [apply suffix_answer_inside|].
      destruct k as [|b k]; [by rewrite (@len_nil Z) in Hlen; lia|]. by apply suffix_answer_overrun.
  - rewrite bool_decide_eq_false_2; [by apply suffix_answer_texts|].
    intros [= <-]. assert (starts_with tv tv = true) by by apply starts_with_spec. congruence.
Qed.

(** *** [split_common_history] *)

(** Two streams that do not start with the same event. *)
Definition heads_differ (a b : list event) : Prop := ∀ e, head a = Some e → head b ≠ Some e.

Lemma common_prefix_length_spec a b :
  let n := common_prefix_length a b in
  take n a = take n b ∧ (n ≤ length a)%nat ∧ (n ≤ length b)%nat ∧
  ∀ x, head (drop n a) = Some x → head (drop n b) ≠ Some x.
Proof.
  revert b. induction a as [|x a IH]; intros [|y b]; simpl; try (split_and!; (done || lia)).
  destruct (Z.eqb_spec x y) as [->|Hxy].
  - simpl. destruct (IH b) as (H1 & H2 & H3 & H4). rewrite H1. split_and!; (done || lia).
  - simpl. split_and!; try lia; [done|]. congruence.
Qed.

Lemma flatten_host_bytes_tail v l : flatten (host_bytes_tail v ++ l) = (EByte <$> v) ++ flatten l.
Proof. unfold host_bytes_tail. case_bool_decide as Hv; [by rewrite Hv | done]. Qed.

Lemma split_common_history_spec target delivered :
  canonical target → canonical delivered →
  let '(common, target_tail, delivered_tail) := split_common_history target delivered in
  flatten target = flatten common ++ flatten target_tail ∧
  flatten delivered = flatten common ++ flatten delivered_tail ∧
  heads_differ (flatten target_tail) (flatten delivered_tail).
Proof.
  revert delivered. induction target as [|t ts IH]; intros delivered Ht Hd;
    [by split_and!|]. cbn [split_common_history].
  destruct delivered as [|d ds]; [split_and!; [done|done|by intros e _]|].
  pose proof (canonical_tail _ _ Ht) as Hts. pose proof (canonical_tail _ _ Hd) as Hds.
  case_bool_decide as Htd.
  { subst d. specialize (IH ds Hts Hds). destruct (split_common_history ts ds) as [[c t1] t2].
    destruct IH as (H1 & H2 & H3). rewrite !flatten_cons, H1, H2, !app_assoc. by split_and!. }
  assert (∀ x, head (flatten (t :: ts)) = Some x → head (flatten (d :: ds)) = Some x →
    ∃ v w, t = HostBytes v ∧ d = HostBytes w) as Hheads.
  { intros x. rewrite !flatten_cons.
    destruct (events_head t ts Ht) as (e1 & k1 & -> & H1).
    destruct (events_head d ds Hd) as (e2 & k2 & -> & H2). simpl. intros [= ->] [= ->].
    destruct t, d, x; naive_solver. }
  destruct t as [tv|c r|s], d as [dv|c' r'|s'];
    try (split_and!; [done|done|]; intros x Hx Hx'; naive_solver).
  clear Hheads. rewrite !flatten_host_bytes_tail, !flatten_cons. simpl events.
  destruct (common_prefix_length_spec tv dv) as (H1 & H2 & H3 & H4).
  set (n := common_prefix_length tv dv) in *.
  assert (flatten (if bool_decide (n = 0%nat) then [] else [HostBytes (take n tv)])
          = EByte <$> take n tv) as ->.
  { case_bool_decide as Hn; [by rewrite Hn|]. unfold flatten. simpl. by rewrite app_nil_r. }
  split_and!.
  - rewrite app_assoc, <- fmap_app, take_drop. done.
  - rewrite H1, app_assoc, <- fmap_app, take_drop. done.
  - intros e He Hf. destruct (drop n tv) as [|x a] eqn:Ea, (drop n dv) as [|y b] eqn:Eb.
    + apply Htd. f_equal. rewrite <- (take_drop n tv), <- (take_drop n dv). by rewrite H1, Ea, Eb.
    + simpl in He, Hf. injection Hf as <-. destruct (flatten ts) as [|e k] eqn:Hts'; [done|].
      injection He as ->. by eapply canonical_after_bytes in Ht.
    + simpl in He, Hf. injection He as <-. destruct (flatten ds) as [|e k] eqn:Hds'; [done|].
      injection Hf as ->. by eapply canonical_after_bytes in Hd.
    + simpl in *. naive_solver.
Qed.

(** *** The audit *)
Section audit_lemmas.
Context `{VteLaws}.

Definition event_advance (p : vte_parser) (e : event) : vte_parser :=
  match e with EByte b => fst (vte_advance [b] p) | _ => p end.

Lemma vte_advance_bytes v p : fst (vte_advance v p) = foldl event_advance p (EByte <$> v).
Proof.
  revert p. induction v as [|b v IH]; intros p; [by rewrite vte_advance_nil|].
  rewrite fmap_cons. simpl. rewrite <- IH. change (b :: v) with ([b] ++ v).
  rewrite vte_advance_app. destruct (vte_advance [b] p) as [p1 xs].
  simpl. by destruct (vte_advance v p1).
Qed.

(** The parser state after a history. *)
Definition parser_after (l : list StateOperation) : vte_parser :=
  foldl event_advance vte_new (flatten l).

Definition no_resize (l : list StateOperation) : Prop :=
  Forall (λ op, match op with Resize _ _ => False | _ => True end) l.

Lemma audit_advance_parser v st : fst (audit_advance v st) = foldl event_advance (fst st) (EByte <$> v).
Proof.
  unfold audit_advance. rewrite <- vte_advance_bytes. by destruct (vte_advance v (fst st)).
Qed.

Lemma audit_operation_parser op st :
  fst (audit_operation st op) = foldl event_advance (fst st) (events op).
Proof. destruct op; simpl; [apply audit_advance_parser | done | done]. Qed.

Lemma audit_operations_parser l st :
  fst (foldl audit_operation st l) = foldl event_advance (fst st) (flatten l).
Proof.
  revert st. induction l as [|op l IH]; intros st; [done|].
  simpl. rewrite IH, audit_operation_parser, flatten_cons, foldl_app. done.
Qed.

Lemma perform_probing a x :
  probing (audit_perform a x) = probing a.
Proof.
  destruct x; simpl; unfold audit_print, audit_execute, record_other_action;
    repeat case_match; done.
Qed.

Lemma advance_probing v st : probing (snd (audit_advance v st)) = probing (snd st).
Proof.
  unfold audit_advance. destruct (vte_advance v (fst st)) as [p xs]. simpl.
  generalize (snd st). induction xs as [|x xs IH]; intros a; [done|]. simpl.
  by rewrite IH, perform_probing.
Qed.

Lemma audit_tail_spec l st :
  match audit_tail l st with
  | None => ¬ no_resize l
  | Some st' => no_resize l ∧ fst st' = foldl event_advance (fst st) (flatten l)
  end.
Proof.
  revert st. induction l as [|[v|c r|s] l IH]; intros st; simpl.
  - split; [constructor | done].
  - specialize (IH (audit_advance v st)). unfold no_resize in *.
    destruct (audit_tail l _) as [st'|].
    + destruct IH as [H1 H2]. split; [by constructor|].
      by rewrite H2, audit_advance_parser, flatten_cons, foldl_app.
    + intros Hn. apply IH. by apply Forall_cons in Hn as [].
  - intros Hn. by apply Forall_cons in Hn as [].
  - specialize (IH st). unfold no_resize in *. destruct (audit_tail l _) as [st'|].
    + destruct IH as [H1 H2]. split; [by constructor | done].
    + intros Hn. apply IH. by apply Forall_cons in Hn as [].
Qed.

(** A parser is at ground when a tilde is printed at once and nothing else happens. *)
Definition at_ground (p : vte_parser) : Prop := snd (vte_advance (lit "~") p) = [VtePrint 126].

Lemma perform_probe a x :
  probing a = true →
  probe_prints (audit_perform a x) =
    probe_prints a + (if decide (x = VtePrint 126) then 1 else 0) ∧
  probe_other_actions (audit_perform a x) =
    probe_other_actions a + (if decide (x = VtePrint 126) then 0 else 1).
Proof.
  intros Hp. destruct x; simpl; unfold audit_print, audit_execute, record_other_action; rewrite Hp;
    simpl; try (rewrite ?decide_False by done; split; lia).
  destruct (Z.eqb_spec character 126) as [->|Hc]; simpl.
  - done.
  - by rewrite !decide_False by congruence.
Qed.

Lemma probe_ground_spec xs a :
  probing a = true → probe_prints a = 0 → probe_other_actions a = 0 →
  probe_is_ground (foldl audit_perform a xs) = true ↔ xs = [VtePrint 126].
Proof.
  intros Hp Ha0 Ha1.
  assert (∀ xs a, probing a = true →
    probe_prints (foldl audit_perform a xs) + probe_other_actions (foldl audit_perform a xs)
      = probe_prints a + probe_other_actions a + len xs ∧
    probe_other_actions a ≤ probe_other_actions (foldl audit_perform a xs) ∧
    (probe_other_actions (foldl audit_perform a xs) = probe_other_actions a →
     Forall (λ x, x = VtePrint 126) xs)) as Hcount.
  { clear. induction xs as [|x xs IH]; intros a Ha; simpl.
    - rewrite (@len_nil vte_action). split_and!; [lia | lia | constructor].
    - destruct (IH (audit_perform a x)) as (I1 & I2 & I3); [by rewrite perform_probing|].
      destruct (perform_probe a x Ha) as [P1 P2]. rewrite len_cons, I1.
      destruct (decide (x = VtePrint 126)) as [->|Hx].
      + split_and!; [lia | lia |]. intros He. constructor; [done|]. apply I3. lia.
      + split_and!; [lia | lia |]. intros He. lia. }
  destruct (Hcount xs a Hp) as (C1 & C2 & C3). unfold probe_is_ground.
  rewrite andb_true_iff, !Z.eqb_eq. split.
  - intros [P1 P2]. rewrite Ha1 in C3. specialize (C3 P2).
    assert (len xs = 1) as Hlen by lia. unfold len in Hlen.
    destruct xs as [|x [|y xs]]; [done| |simpl in Hlen; lia]. rewrite Forall_singleton in C3. by rewrite C3.
  - intros ->. simpl. destruct (perform_probe a (VtePrint 126) Hp) as [P1 P2].
    simpl in P1, P2. rewrite P1, P2. lia.
Qed.

Lemma probe_decides (st : vte_parser * ScreenDiffAudit) :
  (let '(_, audit) := audit_advance (lit "~") (fst st, begin_boundary_probe (snd st)) in
   probe_is_ground audit) = true ↔ at_ground (fst st).
Proof.
  unfold audit_advance, at_ground. simpl fst. simpl snd.
  destruct (vte_advance (lit "~") (fst st)) as [p xs]. by apply probe_ground_spec.
Qed.

Lemma history_ends_at_ground_spec l :
  history_ends_at_ground l = true ↔ at_ground (parser_after l).
Proof.
  unfold history_ends_at_ground, parser_after.
  pose proof (audit_operations_parser l (vte_new, audit_default)) as Hp. simpl in Hp.
  destruct (foldl audit_operation (vte_new, audit_default) l) as [p a] eqn:Hl. simpl in Hp.
  rewrite <- Hp. apply (probe_decides (p, a)).
Qed.

(** The audit of a tail only looks for resizes and for a parser at ground: what
    the recorded actions say about [reconstructible] is not consulted. *)
Lemma tail_is_safe_spec common tail :
  history_tail_is_screen_diff_safe common tail = true ↔
  no_resize tail ∧ at_ground (parser_after (common ++ tail)).
Proof.
  unfold history_tail_is_screen_diff_safe, parser_after. rewrite flatten_app, foldl_app.
  pose proof (audit_operations_parser common (vte_new, audit_default)) as Hp. simpl in Hp.
  destruct (foldl audit_operation (vte_new, audit_default) common) as [p a] eqn:Hl. simpl in Hp.
  rewrite <- Hp. pose proof (audit_tail_spec tail (p, begin_tail_audit a)) as Ht.
  destruct (audit_tail tail (p, begin_tail_audit a)) as [[p' a']|]; [|naive_solver].
  destruct Ht as [Hn Hp']. simpl in Hp'. rewrite <- Hp'. rewrite (probe_decides (p', a')). tauto.
Qed.
End audit_lemmas.

(** ** What a batch does to a terminal *)
Section terminal_lemmas.
Context `{Vt100} `{Vte}.
Implicit Types s : RemoteTerminalState.

Definition valid_viewport (vp : ViewportSize) : Prop :=
  0 < columns vp < 2 ^ 16 ∧ 0 < rows vp < 2 ^ 16.

Definition op_viewport (vp : ViewportSize) (op : StateOperation) : ViewportSize :=
  match op with Resize c r => mkViewportSize c r | _ => vp end.

(** The operations an instruction adds to the history of a terminal of viewport [vp]. *)
Definition instr_ops (vp : ViewportSize) (i : Instruction) : list StateOperation :=
  match instr_bytes i with Some b => host_bytes_tail (run_value b) | None => [] end
  ++ match viewport i with
     | Some v => if bool_decide (vp = v) then [] else [Resize (columns v) (rows v)]
     | None => []
     end
  ++ match session_control i with Some c => [SessionControlOp c] | None => [] end.

Fixpoint batch_ops (vp : ViewportSize) (l : list Instruction) : list StateOperation :=
  match l with
  | [] => []
  | i :: l => let ops := instr_ops vp i in ops ++ batch_ops (foldl op_viewport vp ops) l
  end.

Definition record_op (h : StateHistory) (op : StateOperation) : StateHistory :=
  history_push op
    (match op with
     | HostBytes v => h <| retained_bytes ::= λ n, n + len v |>
     | _ => h
     end).

Definition last_marker (echo : option Z) (l : list Instruction) : option Z :=
  foldl (λ e i, match marker i with Some m => Some (marker_value m) | None => e end) echo l.

(** A terminal with operations appended to its history and replayed by its parser. *)
Definition extend (s : RemoteTerminalState) (ops : list StateOperation) : RemoteTerminalState :=
  mkRemoteTerminalState _ (initial_columns s) (initial_rows s)
    (foldl replay (parser s) ops) (foldl record_op (history s) ops)
    (foldl op_viewport (st_viewport s) ops) (echo_ack s).

Lemma extend_app s a b : extend s (a ++ b) = extend (extend s a) b.
Proof. unfold extend. simpl. by rewrite !foldl_app. Qed.

Lemma extend_nil s : extend s [] = s.
Proof. by destruct s. Qed.

Lemma try_into_valid z : 0 < z < 2 ^ 16 → try_into 16 z = Some z.
Proof. intros Hz. unfold try_into. rewrite (proj2 (fitsb_spec 16 z)); [done|]. unfold fits. lia. Qed.

Lemma try_into_u16 z : 0 < z < 2 ^ 16 → fitsb 16 z = true.
Proof. intros Hz. apply fitsb_spec. unfold fits. lia. Qed.

Lemma validate_viewport_spec c r :
  validate_viewport c r = if bool_decide (c ≠ 0 ∧ fits 16 c ∧ r ≠ 0 ∧ fits 16 r) then Ok tt else Err InvalidViewport.
Proof.
  unfold validate_viewport.
  pose proof (fitsb_spec 16 c) as Hc. pose proof (fitsb_spec 16 r) as Hr.
  destruct (Z.eqb_spec c 0), (Z.eqb_spec r 0), (fitsb 16 c), (fitsb 16 r); simpl;
    case_bool_decide; try done; naive_solver.
Qed.

Lemma valid_viewport_iff vp :
  valid_viewport vp ↔ validate_viewport (columns vp) (rows vp) = Ok tt.
Proof.
  rewrite validate_viewport_spec. unfold valid_viewport, fits.
  case_bool_decide as Hv; split; try done; intros; try lia; exfalso; lia.
Qed.

Lemma apply_host_bytes_eq `{!Vt100Laws} v s :
  apply_host_bytes v s = (extend s (host_bytes_tail v), Ok tt).
Proof.
  unfold apply_host_bytes, host_bytes_tail. rewrite bindM_mod. case_bool_decide as Hv.
  - subst v. destruct s. unfold retM, extend, update, upd_parser. cbn. by rewrite vt_process_nil.
  - by destruct s.
Qed.

Lemma apply_resize_eq c r s :
  apply_resize c r s =
  (extend s (if bool_decide (st_viewport s = mkViewportSize c r) then [] else [Resize c r]), Ok tt).
Proof.
  unfold apply_resize. rewrite bindM_get. case_bool_decide; [by rewrite extend_nil|].
  by destruct s.
Qed.

Lemma apply_instruction_eq `{!Vt100Laws} i s :
  (∀ v, viewport i = Some v → valid_viewport v) →
  apply_instruction i s =
  ((extend s (instr_ops (st_viewport s) i)) <| echo_ack := last_marker (echo_ack s) [i] |>, Ok tt).
Proof.
  intros Hv. unfold apply_instruction, instr_ops.
  set (b_ops := match instr_bytes i with Some b => host_bytes_tail (run_value b) | None => [] end).
  assert (match instr_bytes i with Some b => apply_host_bytes (run_value b) | None => retM tt end s
          = (extend s b_ops, Ok (E:=StateError) tt)) as Hb.
  { subst b_ops. destruct (instr_bytes i); [apply apply_host_bytes_eq | by rewrite extend_nil]. }
  assert (st_viewport (extend s b_ops) = st_viewport s) as Hvp.
  { subst b_ops. destruct (instr_bytes i); simpl; [|done]. unfold host_bytes_tail.
    by case_bool_decide. }
  unfold bindM at 1. rewrite Hb. rewrite extend_app. set (s1 := extend s b_ops) in *.
  assert (echo_ack s1 = echo_ack s) as He by done. rewrite <- Hvp, <- He.
  clearbody s1. clear Hb Hvp He b_ops s. rename s1 into s.
  set (v_ops := match viewport i with Some v => _ | None => [] end).
  assert (match viewport i with
          | Some vp =>
              let! columns := liftM (ok_or InvalidViewport (try_into 16 (columns vp))) in
              let! rows := liftM (ok_or InvalidViewport (try_into 16 (rows vp))) in
              apply_resize columns rows
          | None => retM tt end s = (extend s v_ops, Ok tt)) as Hr.
  { subst v_ops. destruct (viewport i) as [[c r]|]; [|by rewrite extend_nil].
    destruct (Hv _ eq_refl) as [Hc Hr]. simpl in *.
    rewrite !try_into_valid by done. apply apply_resize_eq. }
  unfold bindM at 1. rewrite Hr. rewrite extend_app. set (s1 := extend s v_ops) in *.
  assert (echo_ack s1 = echo_ack s) as He by done. rewrite <- He.
  clearbody s1. clear. unfold bindM, last_marker. destruct s1. simpl.
  by destruct (marker i), (session_control i).
Qed.

Lemma apply_instructions_eq `{!Vt100Laws} l s :
  Forall (λ i, ∀ v, viewport i = Some v → valid_viewport v) l →
  apply_instructions l s =
  ((extend s (batch_ops (st_viewport s) l)) <| echo_ack := last_marker (echo_ack s) l |>, Ok tt).
Proof.
  intros Hl. revert s. induction Hl as [|i l Hi Hl IH]; intros s; cbn [apply_instructions batch_ops].
  - unfold retM. rewrite extend_nil. by destruct s.
  - unfold bindM. rewrite apply_instruction_eq by done. rewrite IH. simpl.
    unfold extend. simpl. by rewrite !foldl_app.
Qed.

(** *** Growth *)
Definition growth_step_ops (vp : ViewportSize) (i : Instruction) := instr_ops vp i.

Lemma ops_bytes_app a b : ops_bytes (a ++ b) = ops_bytes a + ops_bytes b.
Proof. unfold ops_bytes. by rewrite fmap_app, sum_list_Z_app. Qed.

Lemma ops_bytes_cons op l : ops_bytes (op :: l) = op_bytes op + ops_bytes l.
Proof. done. Qed.

Lemma ops_bytes_nonneg l : 0 ≤ ops_bytes l.
Proof.
  induction l as [|op l IH]; [done|]. rewrite ops_bytes_cons.
  destruct op as [v|c r|sc]; simpl; [pose proof (len_nonneg v); lia | lia | lia].
Qed.

(** The operations of the three parts of an instruction. *)
Definition bytes_ops (i : Instruction) : list StateOperation :=
  match instr_bytes i with Some b => host_bytes_tail (run_value b) | None => [] end.
Definition viewport_ops (vp : ViewportSize) (i : Instruction) : list StateOperation :=
  match viewport i with
  | Some v => if bool_decide (vp = v) then [] else [Resize (columns v) (rows v)]
  | None => []
  end.
Definition control_ops (i : Instruction) : list StateOperation :=
  match session_control i with Some c => [SessionControlOp c] | None => [] end.

Lemma instr_ops_parts vp i : instr_ops vp i = bytes_ops i ++ viewport_ops vp i ++ control_ops i.
Proof. done. Qed.

Lemma bytes_ops_viewport vp i : foldl op_viewport vp (bytes_ops i) = vp.
Proof.
  unfold bytes_ops, host_bytes_tail. destruct (instr_bytes i); [by case_bool_decide | done].
Qed.

Lemma viewport_ops_viewport vp i :
  foldl op_viewport vp (viewport_ops vp i) = default vp (viewport i).
Proof.
  unfold viewport_ops. destruct (viewport i) as [[c r]|]; [|done]. by case_bool_decide.
Qed.

Lemma instr_ops_viewport vp i : foldl op_viewport vp (instr_ops vp i) = default vp (viewport i).
Proof.
  rewrite instr_ops_parts, !foldl_app, bytes_ops_viewport, viewport_ops_viewport.
  unfold control_ops. by destruct (session_control i).
Qed.

Lemma viewport_ops_growth vp i :
  ops_bytes (viewport_ops vp i) = 0 ∧
  len (viewport_ops vp i) = match viewport i with
                            | Some v => if bool_decide (vp ≠ v) then 1 else 0 | None => 0 end.
Proof.
  unfold viewport_ops. destruct (viewport i) as [v|]; [|done].
  case_bool_decide; case_bool_decide; done.
Qed.

Lemma control_ops_growth i :
  ops_bytes (control_ops i) = 0 ∧
  len (control_ops i) = if is_some (session_control i) then 1 else 0.
Proof. unfold control_ops. by destruct (session_control i). Qed.

Lemma bytes_ops_growth i :
  ops_bytes (bytes_ops i) = from_option (λ b, len (run_value b)) 0 (instr_bytes i) ∧
  len (bytes_ops i) =
    from_option (λ b, if bool_decide (run_value b = []) then 0 else 1) 0 (instr_bytes i).
Proof.
  unfold bytes_ops, host_bytes_tail. destruct (instr_bytes i) as [b|]; [|done]. simpl.
  case_bool_decide as Hn; [by rewrite Hn|]. rewrite ops_bytes_cons. change (ops_bytes []) with 0.
  simpl. split; [lia | done].
Qed.

Lemma history_growth_step_spec i ab ao vp :
  match history_growth_step (ab, ao, vp) i with
  | Ok (ab', ao', vp') =>
      ab' = ab + ops_bytes (instr_ops vp i) ∧ ao' = ao + len (instr_ops vp i) ∧
      vp' = foldl op_viewport vp (instr_ops vp i) ∧ ab' < 2 ^ 64 ∨ ab' = ab ∧ instr_bytes i = None ∧
      ao' = ao + len (instr_ops vp i) ∧ vp' = foldl op_viewport vp (instr_ops vp i) ∧
      ops_bytes (instr_ops vp i) = 0
  | Err e => e = HistoryLimitExceeded ∧ 2 ^ 64 ≤ ab + ops_bytes (instr_ops vp i)
  | Panic => False
  end.
Proof.
  destruct (viewport_ops_growth vp i) as [V1 V2]. destruct (control_ops_growth i) as [C1 C2].
  destruct (bytes_ops_growth i) as [B1 B2].
  rewrite instr_ops_viewport, instr_ops_parts, !ops_bytes_app, !len_app, V1, V2, C1, C2, B1, B2.
  unfold history_growth_step, checked_add.
  assert (∀ ao', (match viewport i with
      | Some v => if bool_decide (vp ≠ v) then (ao' + 1, v) else (ao', vp)
      | None => (ao', vp) end)
    = (ao' + match viewport i with Some v => if bool_decide (vp ≠ v) then 1 else 0 | None => 0 end,
       default vp (viewport i))) as Hvp.
  { intros ao'. destruct (viewport i) as [v|]; simpl; [|f_equal; lia].
    case_bool_decide as Hv; [done|]. rewrite Hv. f_equal. lia. }
  destruct (instr_bytes i) as [b|]; cbn [from_option ok_or bind_ok].
  - destruct (Z.ltb_spec (ab + len (run_value b)) (2 ^ 64)); cbn [ok_or bind_ok];
      [|split; [done | lia]].
    rewrite Hvp. left. split_and!; (done || lia || ring).
  - rewrite Hvp. right. split_and!; (done || lia || ring).
Qed.

Lemma history_growth_loop_spec l ab ao vp :
  0 ≤ ab →
  match history_growth_loop l (ab, ao, vp) with
  | Ok (ab', ao', _) => ab' = ab + ops_bytes (batch_ops vp l) ∧ ao' = ao + len (batch_ops vp l)
  | Err e => e = HistoryLimitExceeded ∧ 2 ^ 64 ≤ ab + ops_bytes (batch_ops vp l)
  | Panic => False
  end.
Proof.
  revert ab ao vp. induction l as [|i l IH]; intros ab ao vp Hab; cbn [history_growth_loop batch_ops].
  { cbv beta iota. change (ops_bytes []) with 0. rewrite (@len_nil StateOperation). lia. }
  rewrite ops_bytes_app, len_app.
  pose proof (ops_bytes_nonneg (batch_ops (foldl op_viewport vp (instr_ops vp i)) l)) as Hrest.
  pose proof (ops_bytes_nonneg (instr_ops vp i)).
  pose proof (history_growth_step_spec i ab ao vp) as Hstep.
  destruct (history_growth_step (ab, ao, vp) i) as [[[ab1 ao1] vp1]|e|]; [|split; [tauto|lia]|done].
  cbn [bind_ok].
  assert (vp1 = foldl op_viewport vp (instr_ops vp i)) as -> by tauto.
  specialize (IH ab1 ao1 (foldl op_viewport vp (instr_ops vp i)) ltac:(lia)).
  destruct (history_growth_loop l _) as [[[ab' ao'] vp']|e|]; [lia | | done].
  destruct IH as [-> ?]. split; [done|lia].
Qed.

(** *** The invariant of a terminal *)
Definition ev_viewport (vp : ViewportSize) (e : event) : ViewportSize :=
  match e with EResize c r => mkViewportSize c r | _ => vp end.

(** Every resize is to a valid viewport and changes it. *)
Fixpoint proper_events (vp : ViewportSize) (l : list event) : Prop :=
  match l with
  | [] => True
  | EResize c r :: l =>
      vp ≠ mkViewportSize c r ∧ valid_viewport (mkViewportSize c r) ∧
      proper_events (mkViewportSize c r) l
  | _ :: l => proper_events vp l
  end.

Definition initial_viewport (s : RemoteTerminalState) : ViewportSize :=
  mkViewportSize (initial_columns s) (initial_rows s).

Record wf_terminal (s : RemoteTerminalState) : Prop := {
  wf_initial : valid_viewport (initial_viewport s);
  wf_viewport : st_viewport s = foldl ev_viewport (initial_viewport s) (flatten (operations (history s)));
  wf_nonempty : Forall nonempty_op (operations (history s));
  wf_resizes : proper_events (initial_viewport s) (flatten (operations (history s)));
  wf_count : operation_count (history s) = len (operations (history s));
  wf_count_max : operation_count (history s) ≤ MAX_RETAINED_OPERATIONS;
  wf_retained : retained_bytes (history s) = ops_bytes (operations (history s));
  wf_retained_max : retained_bytes (history s) ≤ MAX_RETAINED_HOST_BYTES;
}.

Lemma proper_events_app vp a b :
  proper_events vp (a ++ b) ↔ proper_events vp a ∧ proper_events (foldl ev_viewport vp a) b.
Proof.
  revert vp. induction a as [|e a IH]; intros vp; [simpl; tauto|].
  destruct e; simpl; rewrite IH; tauto.
Qed.

Lemma proper_events_bytes vp v : proper_events vp (EByte <$> v) ∧ foldl ev_viewport vp (EByte <$> v) = vp.
Proof. induction v; simpl; tauto. Qed.

Lemma ops_viewport_events vp ops : foldl op_viewport vp ops = foldl ev_viewport vp (flatten ops).
Proof.
  revert vp. induction ops as [|op ops IH]; intros vp; [done|].
  rewrite flatten_cons, foldl_app. simpl. rewrite IH. f_equal.
  destruct op as [v|c r|sc]; simpl; try done. by destruct (proper_events_bytes vp v).
Qed.

Lemma proper_viewport vp l :
  valid_viewport vp → proper_events vp l → valid_viewport (foldl ev_viewport vp l).
Proof. revert vp. induction l as [|[] l IH]; intros vp Hv; simpl; naive_solver. Qed.

Definition valid_instruction (i : Instruction) : Prop :=
  ∀ v, viewport i = Some v → valid_viewport v.

Lemma instr_ops_proper vp i :
  valid_instruction i →
  Forall nonempty_op (instr_ops vp i) ∧ proper_events vp (flatten (instr_ops vp i)).
Proof.
  intros Hv. rewrite instr_ops_parts, !flatten_app, !proper_events_app.
  rewrite <- !ops_viewport_events, bytes_ops_viewport, viewport_ops_viewport, !Forall_app.
  assert (Forall nonempty_op (bytes_ops i) ∧ proper_events vp (flatten (bytes_ops i))) as [? ?].
  { unfold bytes_ops, host_bytes_tail. destruct (instr_bytes i) as [b|]; [|split; constructor].
    case_bool_decide as Hb; [split; constructor|]. rewrite Forall_singleton.
    split; [unfold nonempty_op; congruence|]. unfold flatten. simpl. rewrite app_nil_r.
    apply proper_events_bytes. }
  assert (Forall nonempty_op (viewport_ops vp i) ∧ proper_events vp (flatten (viewport_ops vp i)))
    as [? ?].
  { unfold viewport_ops. destruct (viewport i) as [[c r]|] eqn:Hvi; [|split; constructor].
    case_bool_decide; [split; constructor|]. rewrite Forall_singleton. split; [done|].
    simpl. split_and!; [done| by apply Hv |done]. }
  unfold control_ops. destruct (session_control i); split_and!; try done; by rewrite ?Forall_singleton.
Qed.

Lemma batch_ops_proper vp l :
  Forall valid_instruction l →
  Forall nonempty_op (batch_ops vp l) ∧ proper_events vp (flatten (batch_ops vp l)).
Proof.
  intros Hl. revert vp. induction Hl as [|i l Hi Hl IH]; intros vp; [split; constructor|].
  cbn [batch_ops]. destruct (instr_ops_proper vp i Hi) as [H1 H2].
  destruct (IH (foldl op_viewport vp (instr_ops vp i))) as [H3 H4].
  rewrite Forall_app, flatten_app, proper_events_app, <- ops_viewport_events. done.
Qed.

Lemma record_ops h ops :
  let h' := foldl record_op h ops in
  operations h' = operations h ++ ops ∧ operation_count h' = operation_count h + len ops ∧
  retained_bytes h' = retained_bytes h + ops_bytes ops.
Proof.
  revert h. induction ops as [|op ops IH]; intros h; simpl.
  { rewrite app_nil_r. rewrite (@len_nil StateOperation). change (ops_bytes []) with 0.
    split_and!; (done || lia). }
  destruct (IH (record_op h op)) as (H1 & H2 & H3). simpl in *.
  rewrite H1, H2, H3, ops_bytes_cons, len_cons. unfold record_op. rewrite operations_push.
  assert (operations (match op with
    | HostBytes v => h <| retained_bytes ::= λ n, n + len v |> | _ => h end) = operations h) as ->
    by by destruct op.
  split_and!; [by rewrite <- app_assoc | |]; destruct op; simpl; lia.
Qed.

Lemma extend_wf s ops :
  wf_terminal s → Forall nonempty_op ops → proper_events (st_viewport s) (flatten ops) →
  operation_count (history s) + len ops ≤ MAX_RETAINED_OPERATIONS →
  retained_bytes (history s) + ops_bytes ops ≤ MAX_RETAINED_HOST_BYTES →
  wf_terminal (extend s ops).
Proof.
  intros [] Hne Hpr Hc Hb. destruct (record_ops (history s) ops) as (H1 & H2 & H3). simpl in *.
  split; simpl; rewrite ?H1, ?H2, ?H3; unfold initial_viewport in *; simpl in *; try done.
  - rewrite ops_viewport_events, flatten_app, foldl_app. by rewrite wf_viewport0.
  - by apply Forall_app.
  - rewrite flatten_app, proper_events_app, <- wf_viewport0. done.
  - rewrite len_app. lia.
  - rewrite ops_bytes_app. lia.
Qed.

(** *** [apply], branch by branch *)
Fixpoint markers_increase (echo : option Z) (l : list Instruction) : Prop :=
  match l with
  | [] => True
  | i :: l =>
      match marker i with
      | Some m => (∀ e, echo = Some e → e ≤ marker_value m) ∧ markers_increase (Some (marker_value m)) l
      | None => markers_increase echo l
      end
  end.

Lemma check_markers_spec l echo :
  (check_markers l echo = Ok tt ∧ markers_increase echo l) ∨
  (check_markers l echo = Err EchoAckRegression ∧ ¬ markers_increase echo l).
Proof.
  revert echo. induction l as [|i l IH]; intros echo; simpl; [by left|].
  destruct (marker i) as [m|]; [|apply IH].
  destruct (is_some_and _ echo) eqn:He.
  - apply is_some_and_true in He as (e & -> & He). apply Z.ltb_lt in He.
    right. split; [done|]. intros [Hm _]. specialize (Hm e eq_refl). lia.
  - assert (∀ e, echo = Some e → e ≤ marker_value m) as Hm.
    { intros e He'. eapply is_some_and_false in He; [|exact He']. apply Z.ltb_ge in He. lia. }
    destruct (IH (Some (marker_value m))) as [[? ?]|[? ?]]; [left | right]; tauto.
Qed.

Definition viewports_check (batch : InstructionBatch) : outcome StateError unit :=
  for_each (λ instruction,
    match viewport instruction with
    | Some vp => validate_viewport (columns vp) (rows vp)
    | None => Ok tt
    end) (instructions batch).

Lemma viewports_check_spec batch :
  (viewports_check batch = Ok tt ∧ Forall valid_instruction (instructions batch)) ∨
  (viewports_check batch = Err InvalidViewport ∧ ¬ Forall valid_instruction (instructions batch)).
Proof.
  unfold viewports_check. induction (instructions batch) as [|i l IH]; simpl; [left; by split|].
  assert (match viewport i with Some vp => validate_viewport (columns vp) (rows vp) | None => Ok tt end
          = Ok tt ∧ valid_instruction i ∨
          match viewport i with Some vp => validate_viewport (columns vp) (rows vp) | None => Ok tt end
          = Err InvalidViewport ∧ ¬ valid_instruction i) as [[-> Hi]|[-> Hi]].
  { unfold valid_instruction. destruct (viewport i) as [vp|]; [|left; naive_solver].
    pose proof (valid_viewport_iff vp) as Hvp. rewrite validate_viewport_spec in *.
    case_bool_decide; [left; naive_solver | right].
    split; [done|]. intros Hv. specialize (Hv vp eq_refl). apply Hvp in Hv. done. }
  - simpl. destruct IH as [[-> ?]|[-> ?]]; [left; split; [done|by constructor]|right].
    split; [done|]. by inversion 1.
  - right. split; [done|]. by inversion 1.
Qed.

Lemma validate_history_size_spec rb oc ab ao :
  validate_history_size rb oc ab ao =
  if bool_decide (rb + ab ≤ MAX_RETAINED_HOST_BYTES ∧ oc + ao ≤ MAX_RETAINED_OPERATIONS)
  then Ok tt else Err HistoryLimitExceeded.
Proof.
  unfold validate_history_size, checked_add.
  assert (MAX_RETAINED_HOST_BYTES < 2 ^ 64 ∧ MAX_RETAINED_OPERATIONS < 2 ^ 64) as [? ?] by done.
  destruct (Z.ltb_spec (rb + ab) (2 ^ 64)); cbn [ok_or bind_ok];
    [|rewrite bool_decide_eq_false_2; [done|lia]].
  destruct (Z.ltb_spec (oc + ao) (2 ^ 64)); cbn [ok_or bind_ok];
    [|rewrite bool_decide_eq_false_2; [done|lia]].
  destruct (Z.ltb_spec MAX_RETAINED_HOST_BYTES (rb + ab));
    [rewrite bool_decide_eq_false_2; [done|lia]|].
  destruct (Z.ltb_spec MAX_RETAINED_OPERATIONS (oc + ao));
    [rewrite bool_decide_eq_false_2; [done|lia]|].
  by rewrite bool_decide_eq_true_2.
Qed.

(** Growth is accepted exactly when the terminal stays within its limits. *)
Definition fits_limits (h : StateHistory) (ops : list StateOperation) : Prop :=
  retained_bytes h + ops_bytes ops ≤ MAX_RETAINED_HOST_BYTES ∧
  operation_count h + len ops ≤ MAX_RETAINED_OPERATIONS.

Lemma growth_spec h vp batch :
  0 ≤ retained_bytes h →
  (let? (ab, ao) := history_growth batch vp in
   validate_history_size (retained_bytes h) (operation_count h) ab ao)
  = if bool_decide (retained_bytes h + ops_bytes (batch_ops vp (instructions batch)) ≤ MAX_RETAINED_HOST_BYTES ∧
                    operation_count h + len (batch_ops vp (instructions batch)) ≤ MAX_RETAINED_OPERATIONS)
    then Ok tt else Err HistoryLimitExceeded.
Proof.
  intros Hr. unfold history_growth.
  pose proof (history_growth_loop_spec (instructions batch) 0 0 vp ltac:(lia)) as Hg.
  destruct (history_growth_loop _ _) as [[[ab ao] vp']|e|]; [| |done]; cbn [bind_ok].
  - destruct Hg as [-> ->]. by rewrite validate_history_size_spec.
  - destruct Hg as [-> Hg]. rewrite bool_decide_eq_false_2; [done|].
    assert (MAX_RETAINED_HOST_BYTES < 2 ^ 64) by done. lia.
Qed.

(** What a compaction leaves: the snapshot alone, from the present viewport. *)
Definition compacted (s : RemoteTerminalState) : RemoteTerminalState :=
  let snapshot := vt_state_formatted (screen s) in
  mkRemoteTerminalState _ (columns (st_viewport s)) (rows (st_viewport s)) (parser s)
    (mkStateHistory (if bool_decide (snapshot = []) then None
                     else Some (mkHistoryNode None (HostBytes snapshot)))
       (if bool_decide (snapshot = []) then 0 else 1) (len snapshot))
    (st_viewport s) (echo_ack s).

Lemma compacted_operations s :
  operations (history (compacted s)) = host_bytes_tail (vt_state_formatted (screen s)).
Proof. unfold operations, host_bytes_tail. simpl. by case_bool_decide. Qed.

Lemma compacted_history_spec s batch :
  valid_viewport (st_viewport s) →
  compacted_history s batch =
  if history_ends_at_ground (canonical_operations (history s))
     && bool_decide (fits_limits (history (compacted s)) (batch_ops (st_viewport s) (instructions batch)))
  then Ok (history (compacted s), columns (st_viewport s), rows (st_viewport s))
  else Err HistoryLimitExceeded.
Proof.
  intros [Hc Hr]. unfold compacted_history. destruct (history_ends_at_ground _); [|done]. simpl negb.
  cbv iota.
  pose proof (growth_spec (history (compacted s)) (st_viewport s) batch) as Hg. simpl in Hg.
  specialize (Hg (len_nonneg _)). unfold fits_limits. simpl.
  destruct (history_growth batch (st_viewport s)) as [[ab ao]|e|]; cbn [bind_ok] in *.
  - rewrite Hg. destruct (bool_decide (_ ∧ _)); cbn [bind_ok andb]; [|done].
    by rewrite !try_into_valid.
  - destruct (bool_decide (_ ∧ _)) in Hg |- *; [done|]. congruence.
  - by destruct (bool_decide (_ ∧ _)).
Qed.

(** *** [apply] *)
Definition limited (s : RemoteTerminalState) (batch : InstructionBatch) : bool :=
  bool_decide (fits_limits (history s) (batch_ops (st_viewport s) (instructions batch))).

(** The successful result: the batch's operations appended, to the compacted
    terminal when the history would grow beyond its limits. *)
Definition applied (s : RemoteTerminalState) (batch : InstructionBatch) : RemoteTerminalState :=
  let s := if limited s batch then s else compacted s in
  (extend s (batch_ops (st_viewport s) (instructions batch)))
    <| echo_ack := last_marker (echo_ack s) (instructions batch) |>.

Definition can_apply (s : RemoteTerminalState) (batch : InstructionBatch) : outcome StateError unit :=
  if negb (is_ok (viewports_check batch)) then Err InvalidViewport
  else if negb (is_ok (check_markers (instructions batch) (echo_ack s))) then Err EchoAckRegression
  else if limited s batch || limited (compacted s) batch
          && history_ends_at_ground (canonical_operations (history s))
  then Ok tt
  else Err HistoryLimitExceeded.

Lemma validate_history_growth_spec s batch :
  wf_terminal s → is_ok (validate_history_growth s batch) = limited s batch.
Proof.
  intros Hs. unfold validate_history_growth.
  rewrite growth_spec by (rewrite (wf_retained s Hs); apply ops_bytes_nonneg).
  unfold limited, fits_limits. by destruct (bool_decide (_ ∧ _)).
Qed.

Lemma wf_valid_viewport s : wf_terminal s → valid_viewport (st_viewport s).
Proof. intros []. rewrite wf_viewport0. by apply proper_viewport. Qed.

Lemma apply_eq `{!Vt100Laws} batch s :
  wf_terminal s →
  apply batch s =
  match can_apply s batch with
  | Ok _ => (applied s batch, Ok tt)
  | Err e => (s, Err e)
  | Panic => (s, Panic)
  end.
Proof.
  intros Hs. unfold apply, can_apply. fold (viewports_check batch).
  destruct (viewports_check_spec batch) as [[-> Hv]|[-> _]]; [|done].
  unfold bindM at 1, liftM at 1. rewrite bindM_get. simpl negb.
  destruct (check_markers_spec (instructions batch) (echo_ack s)) as [[-> _]|[-> _]]; [|done].
  unfold bindM at 1, liftM at 1. simpl negb. cbv iota.
  rewrite validate_history_growth_spec by done. unfold applied.
  destruct (limited s batch) eqn:Hl.
  - rewrite bindM_ret. simpl orb. by rewrite apply_instructions_eq.
  - rewrite compacted_history_spec by by apply wf_valid_viewport.
    fold (limited (compacted s) batch). simpl orb.
    assert (bool_decide (fits_limits (history (compacted s))
      (batch_ops (st_viewport s) (instructions batch))) = limited (compacted s) batch) as -> by done.
    rewrite andb_comm. destruct (limited (compacted s) batch && _); [|done].
    unfold bindM at 1 2, liftM at 1. rewrite !bindM_mod.
    assert (∀ t : RemoteTerminalState, t = compacted s →
      apply_instructions (instructions batch) t =
        ((extend (compacted s) (batch_ops (st_viewport (compacted s)) (instructions batch)))
          <| echo_ack := last_marker (echo_ack (compacted s)) (instructions batch) |>, Ok tt)) as Ha.
    { intros t ->. by apply apply_instructions_eq. }
    apply Ha. by destruct s.
Qed.

Lemma set_echo_wf s e : wf_terminal s → wf_terminal (s <| echo_ack := e |>).
Proof. intros []. by split. Qed.

Lemma compacted_wf s batch :
  wf_terminal s → limited (compacted s) batch = true → wf_terminal (compacted s).
Proof.
  intros Hs Hl. pose proof (wf_valid_viewport s Hs) as Hv. unfold limited in Hl.
  apply bool_decide_eq_true in Hl as [Hb Hc]. simpl st_viewport in *.
  pose proof (ops_bytes_nonneg (batch_ops (st_viewport s) (instructions batch))).
  pose proof (len_nonneg (batch_ops (st_viewport s) (instructions batch))).
  assert (initial_viewport (compacted s) = st_viewport s) as Hi
    by (unfold initial_viewport; simpl; by destruct (st_viewport s)).
  pose proof (compacted_operations s) as Hops.
  assert (flatten (operations (history (compacted s))) = EByte <$> vt_state_formatted (screen s)) as Hf.
  { rewrite Hops. pose proof (flatten_host_bytes_tail (vt_state_formatted (screen s)) []) as Hf.
    by rewrite !app_nil_r in Hf. }
  destruct (proper_events_bytes (st_viewport s) (vt_state_formatted (screen s))) as [P1 P2].
  split; rewrite ?Hi, ?Hf, ?P2; try done; try lia.
  - rewrite Hops. unfold host_bytes_tail. case_bool_decide; [constructor|].
    apply Forall_singleton. unfold nonempty_op. congruence.
  - rewrite Hops. unfold host_bytes_tail. simpl. by case_bool_decide.
  - rewrite Hops. unfold host_bytes_tail. simpl. case_bool_decide as Hn; [by rewrite Hn|].
    unfold ops_bytes. simpl. lia.
Qed.

Lemma applied_wf s batch :
  wf_terminal s → can_apply s batch = Ok tt → wf_terminal (applied s batch).
Proof.
  intros Hs. unfold can_apply, applied.
  destruct (viewports_check_spec batch) as [[-> Hv]|[-> _]]; [|done]. cbn [is_ok negb].
  destruct (is_ok (check_markers _ _)); [|done]. cbn [negb].
  assert (∀ t, wf_terminal t → limited t batch = true →
    wf_terminal ((extend t (batch_ops (st_viewport t) (instructions batch)))
      <| echo_ack := last_marker (echo_ack t) (instructions batch) |>)) as Hext.
  { intros t Ht Hl. apply bool_decide_eq_true in Hl as [Hb Hc]. apply set_echo_wf.
    destruct (batch_ops_proper (st_viewport t) _ Hv). by apply extend_wf. }
  destruct (limited s batch) eqn:Hl; [by intros; apply Hext|]. cbn [orb].
  destruct (limited (compacted s) batch) eqn:Hc; [|done]. intros _.
  apply Hext; [|done]. by eapply compacted_wf.
Qed.

Lemma terminal_new_wf c r s : terminal_new c r = Ok s → wf_terminal s.
Proof.
  unfold terminal_new. intros Hn. apply bind_ok_Ok in Hn as ([] & Hv & [= <-]).
  assert (valid_viewport (mkViewportSize c r)) by by apply valid_viewport_iff.
  split; simpl; done.
Qed.

(** *** Replaying a history *)
Definition replay_event (p : vt_parser) (e : event) : vt_parser :=
  match e with
  | EByte b => vt_process [b] p
  | EResize c r => vt_set_size r c p
  | EControl _ => p
  end.

Lemma replay_events `{!Vt100Laws} p ops : foldl replay p ops = foldl replay_event p (flatten ops).
Proof.
  revert p. induction ops as [|op ops IH]; intros p; [done|].
  rewrite flatten_cons, foldl_app. simpl. rewrite IH. f_equal.
  destruct op as [v|c r|sc]; simpl; try done.
  revert p. induction v as [|b v IHv]; intros p; simpl; [apply vt_process_nil|].
  rewrite <- IHv, <- vt_process_app. done.
Qed.

(** The parser is what replaying the retained history gives. *)
Definition coherent (s : RemoteTerminalState) : Prop :=
  parser s = foldl replay (vt_new (initial_rows s) (initial_columns s) 0) (operations (history s)).

Lemma extend_coherent s ops : coherent s → coherent (extend s ops).
Proof.
  unfold coherent. intros Hs. simpl. destruct (record_ops (history s) ops) as [H1 _]. simpl in H1.
  by rewrite H1, foldl_app, Hs.
Qed.

Lemma clone_eq s :
  wf_terminal s →
  clone s = Ok (s <| parser := foldl replay (vt_new (initial_rows s) (initial_columns s) 0)
                                 (operations (history s)) |>).
Proof.
  intros Hs. pose proof (wf_initial s Hs) as Hv. apply valid_viewport_iff in Hv. simpl in Hv.
  unfold clone, terminal_new. rewrite Hv. by destruct s.
Qed.

(** The states a terminal goes through while its history stays within the limits. *)
Inductive reached : RemoteTerminalState → Prop :=
| reached_new c r s : terminal_new c r = Ok s → reached s
| reached_apply s batch s' r :
    reached s → apply batch s = (s', r) → limited s batch = true → reached s'.

Lemma reached_spec `{!Vt100Laws} s : reached s → wf_terminal s ∧ coherent s.
Proof.
  induction 1 as [c r s Hn|s batch s' r Hs [IHw IHc] Ha Hl].
  - split; [by eapply terminal_new_wf|]. unfold terminal_new in Hn.
    by apply bind_ok_Ok in Hn as (_ & _ & [= <-]).
  - rewrite apply_eq in Ha by done. destruct (can_apply s batch) as [[]|e|] eqn:Hc.
    + injection Ha as <- <-. split; [by apply applied_wf|]. unfold applied. rewrite Hl.
      apply (extend_coherent s (batch_ops (st_viewport s) (instructions batch)) IHc).
    + by injection Ha as <- <-.
    + by injection Ha as <- <-.
Qed.

Lemma reached_clone `{!Vt100Laws} s : reached s → clone s = Ok s.
Proof.
  intros Hs. destruct (reached_spec s Hs) as [Hw Hc]. rewrite clone_eq by done.
  unfold coherent in Hc. rewrite <- Hc. by destruct s.
Qed.

(** *** [diff_from] *)
Definition op_instruction (op : StateOperation) : Instruction :=
  match op with
  | HostBytes v => host_bytes_instruction v
  | Resize c r => viewport_instruction c r
  | SessionControlOp sc => session_control_instruction sc
  end.

(** The suffix of a history, its first byte operation cut. *)
Definition cut_suffix (off : Z) (suffix : list StateOperation) : list StateOperation :=
  match suffix with
  | HostBytes v :: l => host_bytes_tail (drop (Z.to_nat off) v) ++ l
  | l => l
  end.

Lemma diff_rest_eq l :
  Forall nonempty_op l →
  collect ((λ op, diff_operation 0 op) <$> l) = Ok ((λ op, Some (op_instruction op)) <$> l).
Proof.
  intros Hl. apply collect_Ok. rewrite <- list_fmap_compose.
  induction Hl as [|op l Hop Hl IH]; [done|]. simpl. f_equal; [|done].
  destruct op as [v|c r|sc]; simpl; try done. unfold slice_from. pose proof (len_nonneg v).
  rewrite (proj2 (Z.leb_le 0 (len v))) by done. simpl.
  rewrite bool_decide_eq_false_2; [done|]. intros Hv. apply Hop. f_equal. exact Hv.
Qed.

Lemma diff_suffix_eq off suffix :
  Forall nonempty_op suffix → 0 ≤ off →
  match suffix with HostBytes v :: _ => off ≤ len v | _ => off = 0 end →
  diff_suffix off suffix = Ok (op_instruction <$> cut_suffix off suffix).
Proof.
  intros Hs Hpos Hoff. unfold diff_suffix. destruct suffix as [|op l]; [done|].
  apply Forall_cons in Hs as [Hop Hl]. rewrite imap_cons. simpl collect.
  assert (imap ((λ index operation,
      diff_operation (if bool_decide (index = 0%nat) then off else 0) operation) ∘ S) l
    = (λ op, diff_operation 0 op) <$> l) as ->.
  { apply list_eq. intros i. rewrite list_lookup_imap, list_lookup_fmap. done. }
  rewrite diff_rest_eq by done.
  assert (∀ l : list StateOperation, omap id ((λ op, Some (op_instruction op)) <$> l)
    = op_instruction <$> l) as Homap by (intros k; induction k; simpl; [done | by f_equal]).
  destruct op as [v|c r|sc]; simpl; rewrite ?Homap; try done.
  unfold slice_from, host_bytes_tail.
  rewrite (proj2 (Z.leb_le 0 off)), (proj2 (Z.leb_le off (len v))) by done. simpl.
  case_bool_decide; simpl; by rewrite Homap.
Qed.

Lemma flatten_cut off suffix :
  0 ≤ off → match suffix with HostBytes v :: _ => off ≤ len v | _ => off = 0 end →
  flatten (cut_suffix off suffix) = drop (Z.to_nat off) (flatten suffix).
Proof.
  intros Hpos Hoff. destruct suffix as [|[v|c r|sc] l]; simpl in *; subst; try done.
  rewrite flatten_host_bytes_tail, flatten_cons. simpl.
  rewrite drop_app_le by (rewrite length_fmap; unfold len in Hoff; lia). by rewrite fmap_drop.
Qed.

(** Instructions made from proper operations give those operations back. *)
Lemma batch_ops_of_ops vp ops :
  Forall nonempty_op ops → proper_events vp (flatten ops) →
  batch_ops vp (op_instruction <$> ops) = ops.
Proof.
  intros Hne. revert vp. induction Hne as [|op ops Hop Hne IH]; intros vp Hp; [done|].
  rewrite flatten_cons, proper_events_app in Hp. destruct Hp as [Hp1 Hp2].
  rewrite fmap_cons. cbn [batch_ops].
  assert (instr_ops vp (op_instruction op) = [op]) as ->.
  { destruct op as [v|c r|sc]; unfold instr_ops, host_bytes_tail; simpl; try done.
    - by rewrite bool_decide_eq_false_2 by (intros ->; by apply Hop).
    - destruct Hp1 as [Hp1 _]. by rewrite bool_decide_eq_false_2. }
  simpl. f_equal. apply IH. destruct op as [v|c r|sc]; simpl in *; try done.
  by destruct (proper_events_bytes vp v) as [_ <-].
Qed.

Lemma proper_valid_instructions vp ops :
  proper_events vp (flatten ops) → Forall valid_instruction (op_instruction <$> ops).
Proof.
  revert vp. induction ops as [|op ops IH]; intros vp Hp; [constructor|].
  rewrite flatten_cons, proper_events_app in Hp. destruct Hp as [Hp1 Hp2].
  constructor; [|by eapply IH]. intros v Hv. destruct op as [w|c r|sc]; try done.
  injection Hv as <-. by destruct Hp1 as (_ & ? & _).
Qed.

Lemma nonempty_cut off suffix : Forall nonempty_op suffix → Forall nonempty_op (cut_suffix off suffix).
Proof.
  intros Hs. destruct suffix as [|[v|c r|sc] l]; try done. simpl.
  apply Forall_cons in Hs as [_ Hl]. unfold host_bytes_tail.
  case_bool_decide; [done|]. constructor; [unfold nonempty_op; congruence | done].
Qed.

Lemma canonical_nonempty l : canonical l → Forall nonempty_op l.
Proof.
  induction l as [|op l IH]; intros Hl; [constructor|].
  constructor; [|apply IH; by eapply canonical_tail].
  destruct op as [v|c r|sc]; unfold nonempty_op; [|done|done]. simpl in Hl. naive_solver.
Qed.

Definition history_events (s : RemoteTerminalState) : list event :=
  flatten (operations (history s)).

Lemma wf_canonical s :
  wf_terminal s →
  canonical (canonical_operations (history s)) ∧
  flatten (canonical_operations (history s)) = history_events s.
Proof. intros []. by apply canonical_operations_spec. Qed.

(** The instruction of a changed echo acknowledgement. *)
Definition echo_part (self delivered : RemoteTerminalState) : list Instruction :=
  if bool_decide (echo_ack self ≠ echo_ack delivered) then
    match echo_ack self with
    | Some value => [mkInstruction None None (Some (mkMarker value)) None]
    | None => []
    end
  else [].

(** The diff of a delivered history that is a prefix: proper operations that
    spell the missing events, after the echo acknowledgement. *)
Lemma diff_from_prefix s d :
  wf_terminal s → wf_terminal d → initial_viewport s = initial_viewport d →
  history_events d `prefix_of` history_events s →
  ∃ ops, diff_from s d = Ok (mkInstructionBatch (echo_part s d ++ (op_instruction <$> ops))) ∧
    history_events s = history_events d ++ flatten ops ∧
    Forall nonempty_op ops ∧ proper_events (st_viewport d) (flatten ops).
Proof.
  intros Hs Hd Hi Hp. destruct (wf_canonical s Hs) as [Cs Fs]. destruct (wf_canonical d Hd) as [Cd Fd].
  set (ts := canonical_operations (history s)) in *. set (ds := canonical_operations (history d)) in *.
  pose proof (history_suffix_start_from_spec 0 ts ds Cs Cd) as Hsuf.
  assert (∃ j off, history_suffix_start ts ds = Ok (j, off) ∧ 0 ≤ j ≤ len ts ∧ 0 ≤ off ∧
    history_events s = history_events d ++ suffix_of ts j off ∧
    match drop (Z.to_nat j) ts with HostBytes v :: _ => off ≤ len v | _ => off = 0 end)
    as (j & off & Hr & Hj & Hoff & Hf & Hb).
  { unfold history_suffix_start. destruct (history_suffix_start_from 0 ts ds) as [[j off]|e|]; [|exfalso..].
    - simpl in Hsuf. rewrite Z.sub_0_r, Fs, Fd in Hsuf. destruct Hsuf as (? & ? & ? & ?). eauto 10.
    - destruct Hsuf as [_ Hn]. rewrite Fs, Fd in Hn. done.
    - done. }
  set (suffix := drop (Z.to_nat j) ts) in *.
  assert (Forall nonempty_op suffix) as Hne by (apply Forall_drop, canonical_nonempty, Cs).
  assert (flatten (cut_suffix off suffix) = suffix_of ts j off) as Hcut by by apply flatten_cut.
  exists (cut_suffix off suffix). split_and!.
  - unfold diff_from. fold ts ds. rewrite Hr. unfold slice_from.
    rewrite (proj2 (Z.leb_le 0 j)), (proj2 (Z.leb_le j (len ts))) by lia. simpl andb. cbn [bind_ok].
    fold suffix. rewrite diff_suffix_eq by done. cbn [bind_ok]. unfold echo_part.
    case_bool_decide; [|done]. by destruct (echo_ack s).
  - by rewrite Hcut.
  - by apply nonempty_cut.
  - rewrite Hcut, (wf_viewport d Hd), <- Hi. fold (history_events d).
    pose proof (wf_resizes s Hs) as Hpr. fold (history_events s) in Hpr.
    rewrite Hf in Hpr. by apply proper_events_app in Hpr as [_ Hpr].
Qed.

(** [diff_from] does not panic, and its only error is [DivergedHistory]. *)
Lemma diff_from_safe s d :
  wf_terminal s → wf_terminal d →
  diff_from s d ≠ Panic ∧ ∀ e, diff_from s d = Err e → e = DivergedHistory.
Proof.
  intros Hs Hd. destruct (wf_canonical s Hs) as [Cs _]. destruct (wf_canonical d Hd) as [Cd _].
  unfold diff_from, history_suffix_start.
  set (ts := canonical_operations (history s)) in *. set (ds := canonical_operations (history d)) in *.
  pose proof (history_suffix_start_from_spec 0 ts ds Cs Cd) as Hsuf.
  destruct (history_suffix_start_from 0 ts ds) as [[j off]|e|]; [| |done].
  - simpl in Hsuf. rewrite Z.sub_0_r in Hsuf. destruct Hsuf as (Hj & Hoff & _ & Hb).
    unfold slice_from.
    rewrite (proj2 (Z.leb_le 0 j)), (proj2 (Z.leb_le j (len ts))) by lia. simpl andb. cbn [bind_ok].
    rewrite diff_suffix_eq; [split; [discriminate | intros ? [=]]| |done|done]. apply Forall_drop, canonical_nonempty, Cs.
  - destruct Hsuf as [-> _]. destruct (bool_decide _ && _); simpl; naive_solver.
Qed.

Lemma clone_wf s : wf_terminal s → ∃ s', clone s = Ok s' ∧ wf_terminal s'.
Proof. intros Hs. eexists. split; [by apply clone_eq|]. destruct Hs. by split. Qed.

Lemma can_apply_safe s batch : can_apply s batch ≠ Panic.
Proof.
  unfold can_apply. destruct (negb _); [done|]. destruct (negb _); [done|]. by destruct (_ || _).
Qed.

Lemma last_marker_echo_part s d ops :
  (∀ e, echo_ack d = Some e → ∃ e', echo_ack s = Some e' ∧ e ≤ e') →
  last_marker (echo_ack d) (echo_part s d ++ (op_instruction <$> ops)) = echo_ack s ∧
  markers_increase (echo_ack d) (echo_part s d ++ (op_instruction <$> ops)) ∧
  (∀ vp, batch_ops vp (echo_part s d ++ (op_instruction <$> ops)) = batch_ops vp (op_instruction <$> ops)) ∧
  Forall valid_instruction (echo_part s d).
Proof.
  intros He.
  assert (∀ e, last_marker e (op_instruction <$> ops) = e ∧ markers_increase e (op_instruction <$> ops))
    as Hops.
  { intros e. induction ops as [|[] ops IH]; [by split|..]; apply IH. }
  unfold echo_part. case_bool_decide as Hne.
  - destruct (echo_ack s) as [v|] eqn:Hs.
    + simpl. destruct (Hops (Some v)) as [H1 H2]. split_and!; try done.
      * intros e Hd. destruct (He e Hd) as (? & [= <-] & ?). done.
      * apply Forall_singleton. by intros vp.
    + destruct (echo_ack d) as [e|]; [|done]. by destruct (He e eq_refl) as (? & ? & _).
  - assert (echo_ack s = echo_ack d) as -> by (by destruct (decide (echo_ack s = echo_ack d))).
    destruct (Hops (echo_ack d)). by split_and!.
Qed.

Lemma batch_ops_viewport vp l :
  foldl op_viewport vp (batch_ops vp l) = foldl (λ vp i, default vp (viewport i)) vp l.
Proof.
  revert vp. induction l as [|i l IH]; intros vp; [done|]. cbn [batch_ops].
  rewrite foldl_app, IH. simpl. by rewrite instr_ops_viewport.
Qed.
End terminal_lemmas.

(** ** Properties *)

(** C15: [apply] is transactional and keeps the terminal well formed (sizes
    counted exactly and within the limits, a valid viewport that is the last
    resize): it never panics, a failed batch changes nothing, it succeeds exactly
    when every viewport is valid, no echo acknowledgement decreases, and the
    history fits or can be compacted, and then the viewport and the echo
    acknowledgement are the last ones of the batch. *)
Theorem apply_transactional `{Vt100Laws} `{Vte} (s : RemoteTerminalState) batch :
  wf_terminal s →
  let '(s', r) := apply batch s in
  wf_terminal s' ∧ r ≠ Panic ∧ (r ≠ Ok tt → s' = s) ∧
  (r = Ok tt ↔
     Forall valid_instruction (instructions batch) ∧
     markers_increase (echo_ack s) (instructions batch) ∧
     (limited s batch = true ∨
      limited (compacted s) batch = true ∧
      history_ends_at_ground (canonical_operations (history s)) = true)) ∧
  (r = Ok tt →
     st_viewport s' = foldl (λ vp i, default vp (viewport i)) (st_viewport s) (instructions batch) ∧
     echo_ack s' = last_marker (echo_ack s) (instructions batch)).
Proof.
  intros Hs. rewrite apply_eq by done. pose proof (applied_wf s batch Hs) as Hwf.
  assert (can_apply s batch ≠ Panic ∧
    (can_apply s batch = Ok tt ↔
       Forall valid_instruction (instructions batch) ∧
       markers_increase (echo_ack s) (instructions batch) ∧
       (limited s batch = true ∨ limited (compacted s) batch = true ∧
        history_ends_at_ground (canonical_operations (history s)) = true))) as [Hp Hok].
  { unfold can_apply. rewrite <- andb_true_iff, <- orb_true_iff.
    destruct (viewports_check_spec batch) as [[-> Hv]|[-> Hv]]; [|naive_solver].
    destruct (check_markers_spec (instructions batch) (echo_ack s)) as [[-> Hm]|[-> Hm]];
      [|naive_solver]. simpl. destruct (limited s batch || _); naive_solver. }
  destruct (can_apply s batch) as [[]|e|]; [| |done].
  - split_and!; try done; try tauto. intros _. unfold applied.
    destruct (limited s batch); simpl; by rewrite batch_ops_viewport.
  - split_and!; try done; try tauto.
Qed.

(** C16: A clone is exact: for every terminal reached from a new one by batches
    within the history limits (successful or not), replaying the history
    rebuilds the parser, so that the clone equals the original. *)
Theorem clone_exact `{Vt100Laws} `{Vte} (s : RemoteTerminalState) :
  reached s → clone s = Ok s.
Proof. apply reached_clone. Qed.

(** C14: Diffs converge: when the history delivered to the host is a prefix of the
    target's (as a stream of bytes, resizes and controls, however it was cut into
    instructions), both started from the same viewport and the target acknowledges
    at least the echo that the delivered state does, [diff_from] succeeds, and
    applying its instructions to the delivered state, when they keep it within the
    history limits, gives the target's parser, viewport, echo acknowledgement and
    history. *)
Theorem diff_converges `{Vt100Laws} `{Vte} (target delivered : RemoteTerminalState) :
  reached target → reached delivered →
  initial_viewport target = initial_viewport delivered →
  history_events delivered `prefix_of` history_events target →
  (∀ e, echo_ack delivered = Some e → ∃ e', echo_ack target = Some e' ∧ e ≤ e') →
  ∃ d, diff_from target delivered = Ok d ∧
    (limited delivered d = true →
     ∃ s', apply d delivered = (s', Ok tt) ∧
       parser s' = parser target ∧ st_viewport s' = st_viewport target ∧
       echo_ack s' = echo_ack target ∧ history_events s' = history_events target).
Proof.
  intros Ht Hd Hi Hp He.
  destruct (reached_spec _ Ht) as [Wt Ct]. destruct (reached_spec _ Hd) as [Wd Cd].
  destruct (diff_from_prefix target delivered Wt Wd Hi Hp) as (ops & Hdiff & Hf & Hne & Hpr).
  eexists. split; [exact Hdiff|]. intros Hl.
  destruct (last_marker_echo_part target delivered ops He) as (Hlast & Hinc & Hops & Hvalid).
  exists (applied delivered (mkInstructionBatch (echo_part target delivered ++ (op_instruction <$> ops)))).
  split.
  { rewrite apply_eq by done. unfold can_apply.
    destruct (viewports_check_spec (mkInstructionBatch (echo_part target delivered ++ (op_instruction <$> ops))))
      as [[-> _]|[_ Hv]].
    2: { destruct Hv. simpl. apply Forall_app. split; [done|]. by eapply proper_valid_instructions. }
    simpl instructions. destruct (check_markers_spec (echo_part target delivered ++ (op_instruction <$> ops))
      (echo_ack delivered)) as [[-> _]|[_ Hm]]; [|done]. simpl. by rewrite Hl. }
  unfold applied. rewrite Hl. simpl.
  rewrite Hops, batch_ops_of_ops, Hlast by done.
  destruct (record_ops (history delivered) ops) as [Hrec _]. simpl in Hrec.
  unfold history_events. simpl. rewrite Hrec, flatten_app. fold (history_events delivered) (history_events target).
  rewrite Hf. split_and!; try done.
  - rewrite Cd, Ct, !replay_events. fold (history_events delivered) (history_events target).
    rewrite Hf, foldl_app. injection Hi as -> ->. done.
  - rewrite ops_viewport_events, (wf_viewport delivered Wd), (wf_viewport target Wt), Hi.
    fold (history_events delivered) (history_events target). by rewrite Hf, foldl_app.
Qed.

(** [history_suffix_start] is the prefix test on streams: on canonical histories
    it succeeds exactly when the delivered stream of bytes, resizes and controls
    is a prefix of the target's, the answered operation and byte offset point at
    the rest, and its only failure is [DivergedHistory]. *)
Theorem history_suffix_start_is_prefix target delivered :
  canonical target → canonical delivered →
  (flatten delivered `prefix_of` flatten target ↔ ∃ j off, history_suffix_start target delivered = Ok (j, off)) ∧
  (∀ j off, history_suffix_start target delivered = Ok (j, off) →
     0 ≤ j ≤ len target ∧ flatten target = flatten delivered ++ suffix_of target j off) ∧
  (∀ e, history_suffix_start target delivered = Err e → e = DivergedHistory).
Proof.
  intros Ht Hd. pose proof (history_suffix_start_from_spec 0 target delivered Ht Hd) as H.
  unfold history_suffix_start. destruct (history_suffix_start_from 0 target delivered) as [[j off]|e|];
    simpl in H; [|destruct H as [-> H]|done].
  - rewrite Z.sub_0_r in H. destruct H as (Hj & Hoff & Hf & _). split_and!.
    + split; [eauto|]. intros _. rewrite Hf. by eexists.
    + intros j' off' [= <- <-]. split; [lia | done].
    + done.
  - split_and!; [|done|by intros e [= <-]]. split; [done|]. by intros (? & ? & ?).
Qed.

(** C17: What the screen-diff audit decides: two diverged canonical histories may be
    bridged by a screen diff exactly when neither resizes the screen after their
    common stream and both escape-sequence parsers are at ground at their ends.
    The actions that the tails performed do not matter. *)
Theorem screen_diff_audit_decides `{VteLaws} target delivered :
  canonical target → canonical delivered →
  let '(common, target_tail, delivered_tail) := split_common_history target delivered in
  flatten target = flatten common ++ flatten target_tail ∧
  flatten delivered = flatten common ++ flatten delivered_tail ∧
  heads_differ (flatten target_tail) (flatten delivered_tail) ∧
  (diverged_histories_are_screen_diff_safe target delivered = true ↔
     no_resize target_tail ∧ no_resize delivered_tail ∧
     at_ground (parser_after target) ∧ at_ground (parser_after delivered)).
Proof.
  intros Ht Hd. pose proof (split_common_history_spec target delivered Ht Hd) as Hs.
  unfold diverged_histories_are_screen_diff_safe.
  destruct (split_common_history target delivered) as [[common t1] t2].
  destruct Hs as (H1 & H2 & H3). split_and!; [done|done|done|].
  rewrite andb_true_iff, !tail_is_safe_spec. unfold parser_after.
  rewrite !flatten_app, <- H1, <- H2. tauto.
Qed.
