(* ===== verification/Session.v ===== *)
(** * The client protocol

    The model of [crates/ferrumtty-session/src/lib.rs]: the replay window
    ([ReplayWindow]), and the client's SSP state ([ClientProtocol]): the states
    sent and not yet acknowledged with their instructions, the reassembly of
    incoming fragments, the remote states kept as bases, and the state delivered
    to the host.  The methods on [&mut self] are computations of the monad [M]:
    what they changed before an error stays changed. *)
From Stdlib Require Import Sorted.
From stdpp Require Import sorting.
From S2P Require Import Prelude Emulators Fragment Message Crypto State.
Local Open Scope Z_scope.

Definition NO_ECHO_TIMESTAMP : Z := u16_max.
Definition MAXIMUM_REASSEMBLED_BYTES : Z := 16 * 1024 * 1024.
Definition MAXIMUM_ACTIVE_ASSEMBLIES : Z := 64.
Definition MAXIMUM_SENT_STATES : Z := 32.
Definition MAXIMUM_RECEIVED_STATES : Z := 1024.
Definition REPLAY_WINDOW_BITS : Z := 128.
Definition DEFAULT_REMOTE_COLUMNS : Z := 80.
Definition DEFAULT_REMOTE_ROWS : Z := 24.
Definition TIMESTAMP_HEADER_BYTES : Z := 4.
Definition MINIMUM_FRAGMENT_PLAINTEXT_BYTES : Z := 14.

Inductive SessionError :=
| StateExhausted
| ShutdownAlreadySent
| ShutdownNotAcknowledged
| StateHistoryUnavailable
| UpdateAwaitingAcknowledgement
| NoPendingUpdate
| ReplayDetected
| TooManyActiveAssemblies
| TooManyRemoteStates
| InvalidStateTransition
| SessionState (e : StateError)
| SessionSeal (e : SealError)
| SessionOpen (e : OpenError)
| SessionFragment (e : FragmentError)
| SessionMessage (e : MessageError).

#[export] Instance SessionError_eq_dec : EqDecision SessionError.
Proof. solve_decision. Defined.

(** ** The replay window *)
Record ReplayWindow := mkReplayWindow { highest : option Z; seen : Z }.

Definition replay_default : ReplayWindow := mkReplayWindow None 0.

Definition replay_accept (counter : Z) (self : ReplayWindow) : ReplayWindow * bool :=
  match highest self with
  | None => (mkReplayWindow (Some counter) 1, true)
  | Some highest =>
      if highest <? counter then
        let advance := counter - highest in
        let seen := if REPLAY_WINDOW_BITS <=? advance then 1
                    else Z.lor (shl 128 (seen self) advance) 1 in
        (mkReplayWindow (Some counter) seen, true)
      else
        let age := highest - counter in
        if REPLAY_WINDOW_BITS <=? age then (self, false)
        else
          let bit := shl 128 1 age in
          if negb (Z.land (seen self) bit =? 0) then (self, false)
          else (mkReplayWindow (Some highest) (Z.lor (seen self) bit), true)
  end.

(** ** The state of the client *)
Record SentState := mkSentState { sent_id : Z; instruction_end : Z }.

#[export] Instance SentState_eq_dec : EqDecision SentState.
Proof. solve_decision. Defined.

Record ClientProtocol `{Vt100} := mkClientProtocol {
  secure_channel : SecureChannel;
  next_local_state : Z;
  latest_remote_state : Z;
  latest_peer_timestamp : option Z;
  assemblies : gmap Z FragmentAccumulator;
  local_instructions : list Instruction;
  sent_states : list SentState;
  received_states : gmap Z RemoteTerminalState;
  delivered_remote_state : RemoteTerminalState;
  remote_throwaway_floor : Z;
  local_capabilities : bytes;
  remote_capabilities : bytes;
  replay_window : ReplayWindow;
}.

#[export] Instance eta_ClientProtocol `{Vt100} : Eta ClientProtocol := λ p,
  mkClientProtocol _ (secure_channel p) (next_local_state p) (latest_remote_state p)
    (latest_peer_timestamp p) (assemblies p) (local_instructions p) (sent_states p)
    (received_states p) (delivered_remote_state p) (remote_throwaway_floor p)
    (local_capabilities p) (remote_capabilities p) (replay_window p).
#[export] Instance upd_secure_channel `{Vt100} : Update secure_channel := ltac:(solve_update).
#[export] Instance upd_next_local_state `{Vt100} : Update next_local_state := ltac:(solve_update).
#[export] Instance upd_latest_remote_state `{Vt100} : Update latest_remote_state := ltac:(solve_update).
#[export] Instance upd_latest_peer_timestamp `{Vt100} : Update latest_peer_timestamp := ltac:(solve_update).
#[export] Instance upd_assemblies `{Vt100} : Update assemblies := ltac:(solve_update).
#[export] Instance upd_local_instructions `{Vt100} : Update local_instructions := ltac:(solve_update).
#[export] Instance upd_sent_states `{Vt100} : Update sent_states := ltac:(solve_update).
#[export] Instance upd_received_states `{Vt100} : Update received_states := ltac:(solve_update).
#[export] Instance upd_delivered_remote_state `{Vt100} : Update delivered_remote_state := ltac:(solve_update).
#[export] Instance upd_remote_throwaway_floor `{Vt100} : Update remote_throwaway_floor := ltac:(solve_update).
#[export] Instance upd_local_capabilities `{Vt100} : Update local_capabilities := ltac:(solve_update).
#[export] Instance upd_remote_capabilities `{Vt100} : Update remote_capabilities := ltac:(solve_update).
#[export] Instance upd_replay_window `{Vt100} : Update replay_window := ltac:(solve_update).

Record ReceivedState := mkReceivedState {
  rs_packet_counter : Z;
  rs_sent_timestamp : Z;
  rs_echoed_timestamp : Z;
  advances_remote_state : bool;
  rs_update : StateUpdate;
}.

Record PacketReceipt := mkPacketReceipt {
  packet_counter : Z;
  pr_sent_timestamp : Z;
  pr_echoed_timestamp : Z;
  pr_state : option ReceivedState;
}.

Definition PacketReceipt_fmt (self : PacketReceipt) : bytes :=
  lit "PacketReceipt { packet_counter: " ++ decimal (packet_counter self)
  ++ lit ", sent_timestamp: " ++ decimal (pr_sent_timestamp self)
  ++ lit ", echoed_timestamp: " ++ decimal (pr_echoed_timestamp self)
  ++ lit ", has_state: " ++ show_bool (is_some (pr_state self)) ++ lit " }".

Definition ReceivedState_fmt (self : ReceivedState) : bytes :=
  lit "ReceivedState { packet_counter: " ++ decimal (rs_packet_counter self)
  ++ lit ", sent_timestamp: " ++ decimal (rs_sent_timestamp self)
  ++ lit ", echoed_timestamp: " ++ decimal (rs_echoed_timestamp self)
  ++ lit ", advances_remote_state: " ++ show_bool (advances_remote_state self)
  ++ lit ", base_state: " ++ decimal (base_state (rs_update self))
  ++ lit ", target_state: " ++ decimal (target_state (rs_update self))
  ++ lit ", acknowledged_state: " ++ decimal (acknowledged_state (rs_update self))
  ++ lit ", discard_before: " ++ decimal (discard_before (rs_update self))
  ++ lit ", delta_bytes: " ++ decimal (len (delta (rs_update self))) ++ lit " }".

(** ** Sealing *)
Section sealing.
Context `{Aead}.

(** The sealing of the fragments one after the other; the first error ends it. *)
Fixpoint seal_each (l : list Fragment) : M SecureChannel SessionError (list bytes) :=
  match l with
  | [] => retM []
  | fragment :: l =>
      let! packet := zoomM (λ c, c) (λ c _, c) SessionSeal (seal_next (encode fragment)) in
      let! packets := seal_each l in
      retM (packet :: packets)
  end.

Definition seal_fragments (compressed : bytes) (sent_timestamp : Z)
    (latest_peer_timestamp : option Z) (state_id : Z) : M SecureChannel SessionError (list bytes) :=
  let! fragments := liftM (map_err SessionFragment
    (split compressed sent_timestamp (default NO_ECHO_TIMESTAMP latest_peer_timestamp) state_id)) in
  seal_each fragments.
End sealing.

Section protocol.
Context `{Vt100} `{Vte} `{Aead} `{Prost} `{Zlib}.

Definition protocol_new (key : SessionKey) : outcome SessionError ClientProtocol :=
  let? initial_remote_state :=
    match terminal_new DEFAULT_REMOTE_COLUMNS DEFAULT_REMOTE_ROWS with
    | Ok s => Ok s
    | _ => Panic
    end in
  let? cloned := map_err SessionState (clone initial_remote_state) in
  Ok {|
    secure_channel := SecureChannel_new Client key;
    next_local_state := 1;
    latest_remote_state := 0;
    latest_peer_timestamp := None;
    assemblies := ∅;
    local_instructions := [];
    sent_states := [{| sent_id := 0; instruction_end := 0 |}];
    received_states := {[ 0 := cloned ]};
    delivered_remote_state := initial_remote_state;
    remote_throwaway_floor := 0;
    local_capabilities := [];
    remote_capabilities := [];
    replay_window := replay_default;
  |}.

Definition front_state (self : ClientProtocol) : outcome SessionError SentState :=
  ok_or StateHistoryUnavailable (head (sent_states self)).
Definition back_state (self : ClientProtocol) : outcome SessionError SentState :=
  ok_or StateHistoryUnavailable (last (sent_states self)).

(** [encode_compressed_update] and [seal_fragments], as every builder ends. *)
Definition seal_update (update : StateUpdate) (sent_timestamp state_id : Z)
    : M ClientProtocol SessionError (list bytes) :=
  let! self := getM in
  let! compressed := liftM (map_err SessionMessage (encode_compressed_update update)) in
  zoomM secure_channel (λ c self, self <| secure_channel := c |>) (λ e, e)
    (seal_fragments compressed sent_timestamp (latest_peer_timestamp self) state_id).

Definition build_acknowledgement (sent_timestamp : Z)
    : M ClientProtocol SessionError (list bytes) :=
  let! self := getM in
  let! back := liftM (back_state self) in
  let local_state := sent_id back in
  let update := StateUpdate_new local_state local_state (latest_remote_state self) in
  let! front := liftM (front_state self) in
  let update := update <| discard_before := sent_id front |> in
  let update := update <| capabilities := local_capabilities self |> in
  seal_update update sent_timestamp local_state.

Definition build_association (sent_timestamp : Z) : M ClientProtocol SessionError (list bytes) :=
  build_acknowledgement sent_timestamp.

Definition set_local_capabilities (caps : bytes) (self : ClientProtocol) : ClientProtocol :=
  self <| local_capabilities := caps |>.

Definition has_negotiated_capability (self : ClientProtocol) (capability : Z) : bool :=
  match head (local_capabilities self), head (remote_capabilities self) with
  | Some local, Some remote => negb (Z.land (Z.land local remote) capability =? 0)
  | _, _ => false
  end.

(** [while self.sent_states.len() > MAXIMUM_SENT_STATES { .. }]; every iteration
    removes a state, so that the number of states is enough fuel. *)
Fixpoint limit_sent_states_loop (fuel : nat) (l : list SentState) : list SentState :=
  match fuel with
  | O => l
  | S fuel =>
      if MAXIMUM_SENT_STATES <? len l then
        let removal_index := (length l - 16)%nat in
        limit_sent_states_loop fuel (delete removal_index l)
      else l
  end.

Definition limit_sent_states (self : ClientProtocol) : ClientProtocol :=
  self <| sent_states ::= λ l, limit_sent_states_loop (length l) l |>.

Definition build_state_update (sent_timestamp : Z) (batch : InstructionBatch)
    (target_state : Z) : M ClientProtocol SessionError (list bytes) :=
  let! self := getM in
  let! back := liftM (back_state self) in
  let base_state := sent_id back in
  let! front := liftM (front_state self) in
  let! instruction_end := liftM (ok_or StateExhausted
    (checked_add 64 (len (local_instructions self)) (len (instructions batch)))) in
  let update := StateUpdate_new base_state target_state (latest_remote_state self) in
  let update := update <| discard_before := sent_id front |> in
  let update := update <| delta := encode_bytes batch |> in
  let update := update <| capabilities := local_capabilities self |> in
  let! packets := seal_update update sent_timestamp target_state in
  modM (λ self, self <| local_instructions ::= λ l, l ++ instructions batch |>) ;!
  modM (λ self, self <| sent_states ::= λ l,
    l ++ [{| sent_id := target_state; instruction_end := instruction_end |}] |>) ;!
  modM limit_sent_states ;!
  retM packets.

Definition build_update (sent_timestamp : Z) (batch : InstructionBatch)
    : M ClientProtocol SessionError (list bytes) :=
  let! self := getM in
  let target_state := next_local_state self in
  if target_state =? u64_max then errM StateExhausted
  else
    let! packets := build_state_update sent_timestamp batch target_state in
    modM (λ self, self <| next_local_state := target_state + 1 |>) ;!
    retM packets.

Definition has_pending_update (self : ClientProtocol) : bool := 1 <? len (sent_states self).

Definition local_shutdown_sent (self : ClientProtocol) : bool :=
  is_some_and (λ state, sent_id state =? u64_max) (last (sent_states self)).

Definition local_shutdown_acknowledged (self : ClientProtocol) : bool :=
  is_some_and (λ state, sent_id state =? u64_max) (head (sent_states self)).

Definition remote_shutdown_received (self : ClientProtocol) : bool :=
  latest_remote_state self =? u64_max.

Definition latest_local_state (self : ClientProtocol) : Z :=
  match last (sent_states self) with Some state => sent_id state | None => 0 end.

Definition build_shutdown (sent_timestamp : Z) (batch : InstructionBatch)
    : M ClientProtocol SessionError (list bytes) :=
  let! self := getM in
  if local_shutdown_sent self then errM ShutdownAlreadySent
  else build_state_update sent_timestamp batch u64_max.

Definition build_shutdown_ack (sent_timestamp : Z) : M ClientProtocol SessionError (list bytes) :=
  let! self := getM in
  if negb (local_shutdown_acknowledged self) then errM ShutdownNotAcknowledged
  else
    let update := StateUpdate_new u64_max u64_max (latest_remote_state self) in
    let update := update <| discard_before := u64_max |> in
    let update := update <| capabilities := local_capabilities self |> in
    let update := update <| delta := encode_bytes (mkInstructionBatch []) |> in
    seal_update update sent_timestamp u64_max.

(** [&l[from..to]], which panics out of range. *)
Definition slice {E A} (from to : Z) (l : list A) : outcome E (list A) :=
  if (0 <=? from) && (from <=? to) && (to <=? len l)
  then Ok (take (Z.to_nat (to - from)) (drop (Z.to_nat from) l)) else Panic.

(** The batch that [retransmit_pending] rebuilds, and its update. *)
Definition pending_update (self : ClientProtocol)
    : outcome SessionError (StateUpdate * Z) :=
  let? confirmed := front_state self in
  let? latest := back_state self in
  let? pending := slice (instruction_end confirmed) (instruction_end latest)
                    (local_instructions self) in
  let update := StateUpdate_new (sent_id confirmed) (sent_id latest) (latest_remote_state self) in
  let update := update <| discard_before := sent_id confirmed |> in
  let update := update <| delta := encode_bytes (mkInstructionBatch pending) |> in
  let update := update <| capabilities := local_capabilities self |> in
  Ok (update, sent_id latest).

Definition retransmit_pending (sent_timestamp : Z) : M ClientProtocol SessionError (list bytes) :=
  let! self := getM in
  if negb (has_pending_update self) then errM NoPendingUpdate
  else
    let! (update, latest) := liftM (pending_update self) in
    seal_update update sent_timestamp latest.

(** ** Receiving *)

Definition process_acknowledgement (acknowledged_state : Z)
    : M ClientProtocol SessionError unit :=
  let! self := getM in
  match list_find (λ state, sent_id state = acknowledged_state) (sent_states self) with
  | None => retM tt
  | Some (acknowledged_index, _) =>
      modM (λ self, self <| sent_states ::= drop acknowledged_index |>) ;!
      let! self := getM in
      let! front := liftM (expect (head (sent_states self))) in
      let confirmed_instruction_end := instruction_end front in
      if confirmed_instruction_end =? 0 then retM tt
      else
        let! rest := liftM (slice_from confirmed_instruction_end (local_instructions self)) in
        modM (λ self, self <| local_instructions := rest |>) ;!
        let! ends := liftM (collect ((λ state,
          if instruction_end state <? confirmed_instruction_end then Panic
          else Ok {| sent_id := sent_id state;
                     instruction_end := instruction_end state - confirmed_instruction_end |})
          <$> sent_states self)) in
        modM (λ self, self <| sent_states := ends |>)
  end.

Definition accept_remote_update (update : StateUpdate)
    : M ClientProtocol SessionError (bool * StateUpdate) :=
  let! self := getM in
  if is_some (received_states self !! target_state update) then retM (false, update)
  else if (base_state update <? discard_before update)
          || (target_state update <=? base_state update)
  then errM InvalidStateTransition
  else
    match received_states self !! base_state update with
    | None => retM (false, update)
    | Some base =>
        let! target := liftM (map_err SessionState (clone base)) in
        let! batch := liftM (map_err SessionMessage (decode_instructions update)) in
        let! target := liftM (match apply batch target with
                              | (target, Ok _) => Ok target
                              | (_, Err e) => Err (SessionState e)
                              | (_, Panic) => Panic
                              end) in
        let throwaway_floor := Z.max (remote_throwaway_floor self) (discard_before update) in
        modM (λ self, self <| received_states ::=
          filter (λ entry, throwaway_floor ≤ entry.1) |>) ;!
        modM (λ self, self <| remote_throwaway_floor := throwaway_floor |>) ;!
        let! self := getM in
        if MAXIMUM_RECEIVED_STATES <=? Z.of_nat (size (received_states self))
        then errM TooManyRemoteStates
        else
          let! cloned := liftM (map_err SessionState (clone target)) in
          modM (λ self, self <| received_states ::= <[target_state update := cloned]> |>) ;!
          if target_state update <=? latest_remote_state self then retM (false, update)
          else
            match diff_from target (delivered_remote_state self) with
            | Ok diff =>
                let delivered_update := update <| delta := encode_bytes diff |> in
                modM (λ self, self <| latest_remote_state := target_state delivered_update |>) ;!
                modM (λ self, self <| delivered_remote_state := target |>) ;!
                retM (true, delivered_update)
            | Err _ => retM (false, update)
            | Panic => liftM Panic
            end
    end.

(** The second half of [ingest_packet]: a complete compressed update. *)
Definition receive_update (counter sent_timestamp echoed_timestamp : Z) (compressed : bytes)
    (header : FragmentHeader) : M ClientProtocol SessionError PacketReceipt :=
  let! update := liftM (map_err SessionMessage (decode_compressed_update compressed)) in
  let remote_caps := capabilities update in
  process_acknowledgement (acknowledged_state update) ;!
  let! (advances, delivered_update) := accept_remote_update update in
  (if negb (bool_decide (remote_caps = []))
   then modM (λ self, self <| remote_capabilities := remote_caps |>) else retM tt) ;!
  retM {|
    packet_counter := counter;
    pr_sent_timestamp := sent_timestamp;
    pr_echoed_timestamp := echoed_timestamp;
    pr_state := Some {|
      rs_packet_counter := counter;
      rs_sent_timestamp := Fragment.sent_timestamp header;
      rs_echoed_timestamp := Fragment.echoed_timestamp header;
      advances_remote_state := advances;
      rs_update := delivered_update;
    |};
  |}.

(** [self.assemblies.entry(state_id).or_insert_with(..)] and [push] on the entry. *)
Definition push_fragment (fragment : Fragment) : M ClientProtocol SessionError (option bytes) :=
  let id := state_id (header fragment) in
  zoomM
    (λ self, default (accumulator_new id MAXIMUM_REASSEMBLED_BYTES) (assemblies self !! id))
    (λ a self, self <| assemblies ::= <[id := a]> |>)
    SessionFragment
    (push fragment).

Definition ingest_packet (packet : bytes) : M ClientProtocol SessionError PacketReceipt :=
  let! self := getM in
  let! authenticated := liftM (map_err SessionOpen (open (secure_channel self) packet)) in
  let counter := counter authenticated in
  let plaintext := plaintext authenticated in
  let '(window, accepted) := replay_accept counter (replay_window self) in
  modM (λ self, self <| replay_window := window |>) ;!
  if negb accepted then errM ReplayDetected
  else
    let! timestamp_header := liftM (ok_or (SessionFragment HeaderTooShort)
                                      (get_to TIMESTAMP_HEADER_BYTES plaintext)) in
    let sent_timestamp := from_be (take 2 timestamp_header) in
    let echoed_timestamp := from_be (take 2 (drop 2 timestamp_header)) in
    let incomplete := {| packet_counter := counter; pr_sent_timestamp := sent_timestamp;
                         pr_echoed_timestamp := echoed_timestamp; pr_state := None |} in
    modM (λ self, self <| latest_peer_timestamp := Some sent_timestamp |>) ;!
    if len plaintext <? MINIMUM_FRAGMENT_PLAINTEXT_BYTES then retM incomplete
    else
      let! fragment := liftM (map_err SessionFragment (parse plaintext)) in
      let header := header fragment in
      if negb (is_some (assemblies self !! state_id header))
         && (MAXIMUM_ACTIVE_ASSEMBLIES <=? Z.of_nat (size (assemblies self)))
      then errM TooManyActiveAssemblies
      else
        let! complete := push_fragment fragment in
        match complete with
        | None => retM incomplete
        | Some compressed =>
            modM (λ self, self <| assemblies ::= delete (state_id header) |>) ;!
            receive_update counter sent_timestamp echoed_timestamp compressed header
        end.

Definition ingest (packet : bytes) : M ClientProtocol SessionError (option ReceivedState) :=
  let! receipt := ingest_packet packet in retM (pr_state receipt).

Definition set_initial_remote_viewport (columns rows : Z) (self : ClientProtocol)
    : outcome SessionError ClientProtocol :=
  if negb (latest_remote_state self =? 0) || negb (Z.of_nat (size (received_states self)) =? 1)
  then Ok self
  else
    match terminal_new (Z.max columns 1) (Z.max rows 1) with
    | Ok initial_state =>
        let? cloned := map_err SessionState (clone initial_state) in
        Ok ((self <| received_states ::= <[0 := cloned]> |>)
                  <| delivered_remote_state := initial_state |>)
    | _ => Ok self
    end.
End protocol.

(** ** The replay window as a set

    The 128 bits of [seen] stand for the accepted counters among the 128 newest. *)
Record window_of (w : ReplayWindow) (accepted : list Z) : Prop := {
  win_seen : fits 128 (seen w);
  win_highest : ∀ c, c ∈ accepted → ∃ h, highest w = Some h ∧ 0 ≤ c ≤ h;
  win_top : ∀ h, highest w = Some h → h ∈ accepted;
  win_bits : ∀ h, highest w = Some h → ∀ i, 0 ≤ i < 128 →
    Z.testbit (seen w) i = true ↔ h - i ∈ accepted;
}.

Lemma window_of_default : window_of replay_default [].
Proof. split; try done. intros c Hc. by apply not_elem_of_nil in Hc. Qed.

Lemma testbit_one i : 0 ≤ i → Z.testbit 1 i = (i =? 0).
Proof. intros Hi. change 1 with (2 ^ 0). rewrite Z.pow2_bits_eqb by lia. apply Z.eqb_sym. Qed.

Lemma shl_128_one age : 0 ≤ age < 128 → shl 128 1 age = 2 ^ age.
Proof.
  intros Ha. unfold shl. rewrite Z.shiftl_1_l. apply Z.mod_small.
  split; [lia|]. apply Z.pow_lt_mono_r; lia.
Qed.

Lemma land_bit v i : 0 ≤ i → (Z.land v (2 ^ i) =? 0) = negb (Z.testbit v i).
Proof.
  intros Hi. destruct (Z.testbit v i) eqn:Ht; destruct (Z.eqb_spec (Z.land v (2 ^ i)) 0) as [H|H];
    try done; exfalso.
  - assert (Z.testbit (Z.land v (2 ^ i)) i = true) as H1
      by (rewrite Z.land_spec, Ht, Z.pow2_bits_true by lia; done).
    by rewrite H, Z.bits_0 in H1.
  - apply H, Z.bits_inj'. intros n Hn. rewrite Z.land_spec, Z.pow2_bits_eqb, Z.bits_0 by lia.
    destruct (Z.eqb_spec i n) as [<-|]; [by rewrite Ht | apply andb_false_r].
Qed.

Lemma shl_testbit v a i : 0 ≤ a → 0 ≤ i < 128 → Z.testbit (shl 128 v a) i = Z.testbit v (i - a).
Proof.
  intros Ha Hi. unfold shl. rewrite Z.mod_pow2_bits_low by lia. rewrite Z.shiftl_spec by lia. done.
Qed.

(** The first packet, a packet newer than all before, and a packet inside the window. *)
Lemma window_empty w accepted : window_of w accepted → highest w = None → accepted = [].
Proof.
  intros Hw Hh. destruct accepted as [|x l]; [done|].
  destruct (win_highest w _ Hw x) as (? & ? & _); [set_solver | congruence].
Qed.

Lemma window_first c : 0 ≤ c → window_of (mkReplayWindow (Some c) 1) [c].
Proof.
  intros Hc. split; simpl.
  - unfold fits. lia.
  - intros x Hx. apply list_elem_of_singleton in Hx as ->. eauto with lia.
  - intros h [= <-]. set_solver.
  - intros h [= <-] i Hi. rewrite testbit_one by lia. rewrite list_elem_of_singleton.
    destruct (Z.eqb_spec i 0); split; intros; (done || lia).
Qed.

Lemma window_below w accepted h x :
  window_of w accepted → highest w = Some h → x ∈ accepted → 0 ≤ x ≤ h.
Proof.
  intros Hw Hh Hx. destruct (win_highest w _ Hw x Hx) as (h' & E & ?). simplify_eq. lia.
Qed.

Lemma window_advance w accepted h c :
  window_of w accepted → highest w = Some h → 0 ≤ c → h < c →
  window_of (mkReplayWindow (Some c) (if REPLAY_WINDOW_BITS <=? c - h then 1
                                      else Z.lor (shl 128 (seen w) (c - h)) 1)) (accepted ++ [c]).
Proof.
  intros Hw Hh Hc Hlt. pose proof (win_seen w _ Hw) as Hs. pose proof (win_bits w _ Hw h Hh) as Hbits.
  assert (∀ x, x ∈ accepted → 0 ≤ x ≤ h) as Hmax by (intros x; by apply (window_below w)).
  split; simpl.
  - destruct (REPLAY_WINDOW_BITS <=? c - h); [unfold fits; lia|].
    apply lor_range; [lia | | lia]. apply Z.mod_pos_bound. lia.
  - intros x Hx. exists c. split; [done|]. set_unfold. destruct Hx as [Hx|Hx]; [|set_solver by lia].
    apply Hmax in Hx. lia.
  - intros ? [= <-]. set_solver.
  - intros ? [= <-] i Hi. set_unfold.
    assert (i = 0 ∨ 0 < i) as [-> | Hpos] by lia.
    { rewrite Z.sub_0_r. split; [auto|]. intros _. destruct (REPLAY_WINDOW_BITS <=? _); [done|].
      rewrite Z.lor_spec, (testbit_one 0) by lia. apply orb_true_r. }
    assert (c - i ∈ accepted ∨ c - i = c ∨ False ↔ c - i ∈ accepted) as Heq by (split; [|tauto]; intros [?|[?|[]]]; [done|lia]).
    trans (c - i ∈ accepted); [|clear Heq; set_solver by lia].
    unfold REPLAY_WINDOW_BITS. destruct (Z.leb_spec 128 (c - h)).
    + rewrite testbit_one by lia. destruct (Z.eqb_spec i 0); [lia|].
      split; [done|]. intros Hin. apply Hmax in Hin. lia.
    + rewrite Z.lor_spec, testbit_one, shl_testbit by lia.
      rewrite (proj2 (Z.eqb_neq i 0)), orb_false_r by lia.
      destruct (Z.ltb_spec i (c - h)).
      { rewrite Z.testbit_neg_r by lia. split; [done|]. intros Hin. apply Hmax in Hin. lia. }
      rewrite Hbits by lia. by replace (h - (i - (c - h))) with (c - i) by lia.
Qed.

Lemma window_mark w accepted h c :
  window_of w accepted → highest w = Some h → 0 ≤ c → 0 ≤ h - c < 128 →
  window_of (mkReplayWindow (Some h) (Z.lor (seen w) (2 ^ (h - c)))) (accepted ++ [c]).
Proof.
  intros Hw Hh Hc Hage. pose proof (win_seen w _ Hw) as Hs. pose proof (win_top w _ Hw h Hh) as Htop.
  pose proof (win_bits w _ Hw h Hh) as Hbits. split; simpl.
  - apply lor_range; [lia | done|]. split; [lia|]. apply Z.pow_lt_mono_r; lia.
  - intros x Hx. exists h. split; [done|]. apply elem_of_app in Hx as [Hx|Hx]; [by apply (window_below w accepted)|].
    apply list_elem_of_singleton in Hx as ->. lia.
  - intros ? [= <-]. set_solver.
  - intros ? [= <-] i Hi. rewrite Z.lor_spec, Z.pow2_bits_eqb, orb_true_iff, Hbits by lia.
    rewrite elem_of_app, list_elem_of_singleton, Z.eqb_eq. split; intros [?|?]; auto; right; lia.
Qed.

Lemma replay_accept_spec w accepted c :
  window_of w accepted → 0 ≤ c →
  let '(w', b) := replay_accept c w in
  (b = true ↔ c ∉ accepted ∧ ∀ h, highest w = Some h → h - c < REPLAY_WINDOW_BITS) ∧
  window_of w' (if b then accepted ++ [c] else accepted).
Proof.
  intros Hw Hc. unfold replay_accept. destruct (highest w) as [h|] eqn:Hh.
  2: { rewrite (window_empty w accepted) by done. split; [|by apply window_first].
       split; [|done]. intros _. split; [set_solver | done]. }
  destruct (Z.ltb_spec h c) as [Hlt|Hle].
  - split; [|by apply window_advance]. split; [|done]. intros _.
    split; [|intros ? [= <-]; unfold REPLAY_WINDOW_BITS; lia].
    intros Hin. apply (window_below w accepted h) in Hin; [lia|done..].
  - unfold REPLAY_WINDOW_BITS. destruct (Z.leb_spec 128 (h - c)) as [Hage|Hage].
    { split; [|done]. split; [done|]. intros [_ Hx]. specialize (Hx h eq_refl). lia. }
    rewrite shl_128_one, land_bit, negb_involutive by lia.
    pose proof (win_bits w _ Hw h Hh (h - c) ltac:(lia)) as Hbit. replace (h - (h - c)) with c in Hbit by lia.
    destruct (Z.testbit (seen w) (h - c)) eqn:Ht.
    { split; [|done]. split; [done|]. intros [Hx _]. destruct Hx. by apply Hbit. }
    assert (c ∉ accepted) as Hnew by (intros Hx; apply Hbit in Hx; congruence).
    split; [|apply window_mark; done || lia]. split; [|done]. intros _. split; [done | intros ? [= <-]; lia].
Qed.

(** ** The states awaiting acknowledgement

    The specification keeps every state sent after the confirmed one, with the
    instructions it added.  The code keeps some of these states (never more than
    32, the first and the last among them), each with the number of instructions
    up to it, and the instructions themselves in one list. *)
Record SentSpec := mkSentSpec { confirmed : Z; sent_log : list (Z * list Instruction) }.

Definition id_at (spec : SentSpec) (n : nat) : Z :=
  default (confirmed spec) (last (take n (sent_log spec)).*1).
Definition pending_to (spec : SentSpec) (n : nat) : list Instruction :=
  mjoin (take n (sent_log spec)).*2.
Definition pending (spec : SentSpec) : list Instruction := mjoin (sent_log spec).*2.
Definition sent_at (spec : SentSpec) (n : nat) : SentState :=
  {| sent_id := id_at spec n; instruction_end := len (pending_to spec n) |}.

Definition sent_ids (spec : SentSpec) : list Z := confirmed spec :: (sent_log spec).*1.
Definition last_id (spec : SentSpec) : Z := id_at spec (length (sent_log spec)).

Record sent_history (spec : SentSpec) (states : list SentState) (l : list Instruction) : Prop := {
  sh_pending : l = pending spec;
  sh_ids : StronglySorted Z.lt (sent_ids spec);
  sh_limit : len states ≤ MAXIMUM_SENT_STATES;
  sh_states : ∃ ns, states = sent_at spec <$> ns ∧ StronglySorted lt ns ∧
    head ns = Some 0%nat ∧ last ns = Some (length (sent_log spec));
}.

(** Sending the state [id], and the acknowledgement of the state [id]. *)
Definition spec_send (id : Z) (b : list Instruction) (spec : SentSpec) : SentSpec :=
  mkSentSpec (confirmed spec) (sent_log spec ++ [(id, b)]).
Definition spec_ack (id : Z) (spec : SentSpec) : SentSpec :=
  match list_find (λ e, e.1 = id) (sent_log spec) with
  | Some (i, _) => mkSentSpec id (drop (S i) (sent_log spec))
  | None => spec
  end.

Lemma fmap_delete {A B} (f : A → B) (i : nat) (l : list A) : delete i (f <$> l) = f <$> delete i l.
Proof. revert i. induction l as [|x l IH]; intros [|i]; simpl; try done. by rewrite IH. Qed.

Lemma StronglySorted_delete {A} (R : A → A → Prop) (i : nat) (l : list A) :
  StronglySorted R l → StronglySorted R (delete i l).
Proof.
  intros Hl. revert i. induction Hl as [|x l Hl IH Hx]; intros [|i]; simpl; try done.
  1, 2: constructor.
  - constructor; [apply IH|]. rewrite Forall_forall in *. intros y Hy. apply Hx.
    apply list_elem_of_lookup in Hy as [j Hj]. apply list_elem_of_lookup.
    destruct (decide (j < i)%nat).
    + rewrite list_lookup_delete_lt in Hj by done. eauto.
    + rewrite list_lookup_delete_ge in Hj by lia. eauto.
Qed.

Lemma head_delete {A} i (l : list A) : (0 < i)%nat → head (delete i l) = head l.
Proof. destruct l, i; simpl; (done || lia). Qed.

Lemma last_delete {A} i (l : list A) : (S i < length l)%nat → last (delete i l) = last l.
Proof.
  intros Hi. rewrite !last_lookup, length_delete by (apply lookup_lt_is_Some; lia).
  rewrite list_lookup_delete_ge by lia. f_equal. lia.
Qed.

Lemma limit_loop_spec fuel spec ns :
  (length ns ≤ fuel + 32)%nat →
  StronglySorted lt ns → head ns = Some 0%nat → last ns = Some (length (sent_log spec)) →
  ∃ ns', limit_sent_states_loop fuel (sent_at spec <$> ns) = sent_at spec <$> ns' ∧
    StronglySorted lt ns' ∧ head ns' = Some 0%nat ∧ last ns' = Some (length (sent_log spec)) ∧
    len ns' ≤ MAXIMUM_SENT_STATES.
Proof.
  revert ns. induction fuel as [|fuel IH]; intros ns Hlen Hs Hh Hl; cbn [limit_sent_states_loop].
  { exists ns. split_and!; try done. unfold len, MAXIMUM_SENT_STATES. lia. }
  assert (len (sent_at spec <$> ns) = len ns) as -> by (unfold len; by rewrite length_fmap).
  destruct (Z.ltb_spec MAXIMUM_SENT_STATES (len ns)) as [Hgt|]; [|by exists ns].
  unfold MAXIMUM_SENT_STATES, len in Hgt. rewrite length_fmap, fmap_delete. apply IH.
  - rewrite length_delete by (apply lookup_lt_is_Some; lia). lia.
  - by apply StronglySorted_delete.
  - rewrite head_delete; [done|lia].
  - rewrite last_delete; [done|lia].
Qed.

Lemma sent_at_send id b spec n :
  (n ≤ length (sent_log spec))%nat → sent_at (spec_send id b spec) n = sent_at spec n.
Proof.
  intros Hn. unfold sent_at, id_at, pending_to, spec_send. simpl. by rewrite take_app_le.
Qed.

Lemma sorted_last_bound ns m :
  StronglySorted lt ns → last ns = Some m → Forall (λ n, n ≤ m)%nat ns.
Proof.
  intros Hs. induction Hs as [|n ns Hs IH Hn]; [done|]. intros Hm.
  destruct ns as [|n' ns].
  - injection Hm as ->. by repeat constructor.
  - rewrite last_cons_cons in Hm. specialize (IH Hm). constructor; [|done].
    apply Forall_cons in IH as [IH _]. apply Forall_cons in Hn as [Hn _]. lia.
Qed.

Lemma StronglySorted_snoc {A} (R : A → A → Prop) l x :
  StronglySorted R l → Forall (λ y, R y x) l → StronglySorted R (l ++ [x]).
Proof.
  intros Hl. induction Hl as [|y l Hl IH Hy]; intros Hx; simpl; [repeat constructor|].
  apply Forall_cons in Hx as [Hyx Hx]. constructor; [by apply IH|].
  apply Forall_app. split; [done|]. by apply Forall_singleton.
Qed.

Lemma last_id_eq spec : last (sent_ids spec) = Some (last_id spec).
Proof.
  unfold sent_ids, last_id, id_at. rewrite take_ge by done.
  rewrite last_cons. by destruct (last (sent_log spec).*1).
Qed.

Lemma sorted_ids_last spec :
  StronglySorted Z.lt (sent_ids spec) → Forall (λ i, i ≤ last_id spec) (sent_ids spec).
Proof.
  intros Hs. pose proof (last_id_eq spec) as Hl. revert Hs Hl. generalize (last_id spec), (sent_ids spec).
  intros m l Hs. induction Hs as [|n l Hs IH Hn]; [done|]. intros Hm.
  destruct l as [|n' l].
  - injection Hm as ->. by repeat constructor.
  - rewrite last_cons_cons in Hm. specialize (IH Hm). constructor; [|done].
    apply Forall_cons in IH as [IH _]. apply Forall_cons in Hn as [Hn _]. lia.
Qed.

(** Sending a state keeps the correspondence. *)
Lemma sent_history_send spec states l id b :
  sent_history spec states l → last_id spec < id →
  sent_history (spec_send id b spec)
    (let l' := states ++ [{| sent_id := id; instruction_end := len l + len b |}] in
     limit_sent_states_loop (length l') l')
    (l ++ b).
Proof.
  intros [Hp Hids Hlim (ns & Hns & Hsorted & Hhead & Hlast)] Hid. cbv zeta.
  pose proof (sorted_last_bound _ _ Hsorted Hlast) as Hbound.
  set (spec' := spec_send id b spec).
  assert (length (sent_log spec') = S (length (sent_log spec))) as Hlen
    by (unfold spec', spec_send; simpl; rewrite length_app; simpl; lia).
  assert (states ++ [{| sent_id := id; instruction_end := len l + len b |}]
          = sent_at spec' <$> (ns ++ [length (sent_log spec')])) as ->.
  { rewrite fmap_app, Hns. f_equal.
    - apply list_fmap_ext. intros i n Hn. symmetry. apply sent_at_send.
      exact (Forall_lookup_1 _ _ _ _ Hbound Hn).
    - simpl. unfold sent_at, id_at, pending_to. rewrite take_ge by done.
      unfold spec', spec_send. simpl. rewrite !fmap_app. simpl.
      rewrite last_snoc, join_app. simpl. rewrite app_nil_r, len_app. by rewrite Hp. }
  rewrite length_fmap.
  destruct (limit_loop_spec (length (ns ++ [length (sent_log spec')])) spec'
              (ns ++ [length (sent_log spec')])) as (ns' & -> & Hs' & Hh' & Hl' & Hlim').
  - lia.
  - apply StronglySorted_snoc; [done|]. eapply Forall_impl; [exact Hbound|].
    rewrite Hlen. simpl. lia.
  - by destruct ns.
  - by rewrite last_snoc.
  - split.
    + unfold pending, spec', spec_send. simpl. rewrite fmap_app, join_app. simpl.
      by rewrite app_nil_r, Hp.
    + unfold sent_ids, spec', spec_send. simpl. rewrite fmap_app.
      apply (StronglySorted_snoc _ (sent_ids spec) id Hids).
      eapply Forall_impl; [by apply sorted_ids_last|]. simpl. lia.
    + unfold len in *. by rewrite length_fmap.
    + by exists ns'.
Qed.

(** *** Acknowledging *)
Definition drop_spec (n : nat) (spec : SentSpec) : SentSpec :=
  mkSentSpec (id_at spec n) (drop n (sent_log spec)).

Lemma take_split {A} (n x : nat) (l : list A) :
  (n ≤ x)%nat → take x l = take n l ++ take (x - n) (drop n l).
Proof. intros Hx. rewrite <- (take_drop n (take x l)), take_take, <- skipn_firstn_comm. by rewrite Nat.min_l. Qed.

Lemma default_last_app {A} (c : A) a b :
  default c (last (a ++ b)) = default (default c (last a)) (last b).
Proof. rewrite last_app. by destruct (last b). Qed.

Lemma sent_at_drop spec n x :
  (n ≤ x)%nat →
  sent_at (drop_spec n spec) (x - n) =
  {| sent_id := id_at spec x; instruction_end := len (pending_to spec x) - len (pending_to spec n) |} ∧
  len (pending_to spec n) ≤ len (pending_to spec x).
Proof.
  intros Hx. unfold sent_at, id_at, pending_to, drop_spec. simpl.
  rewrite (take_split n x (sent_log spec)) by done.
  rewrite !fmap_app, default_last_app, join_app, len_app.
  pose proof (len_nonneg (mjoin (take (x - n) (drop n (sent_log spec))).*2)). split; [|lia].
  unfold id_at. f_equal. lia.
Qed.

Lemma sent_id_lookup spec m e :
  sent_log spec !! m = Some e → id_at spec (S m) = e.1.
Proof.
  intros He. unfold id_at. rewrite (take_S_r _ _ _ He), fmap_app. simpl. by rewrite last_snoc.
Qed.

Lemma spec_ack_drop spec n :
  StronglySorted Z.lt (sent_ids spec) → (n ≤ length (sent_log spec))%nat →
  spec_ack (id_at spec n) spec = drop_spec n spec.
Proof.
  unfold sent_ids. intros Hs Hn. inversion_clear Hs as [|? ? Hlog Hall].
  assert (∀ i e, sent_log spec !! i = Some e → confirmed spec < e.1) as Hgt.
  { intros i e He. rewrite Forall_forall in Hall. apply Hall.
    apply list_elem_of_fmap. exists e. split; [done|]. by eapply list_elem_of_lookup_2. }
  unfold spec_ack. destruct n as [|m].
  - destruct (list_find _ _) as [[i e]|] eqn:Hf; [|by destruct spec].
    apply list_find_Some in Hf as (He & Hid & _). apply Hgt in He. unfold id_at in Hid. simpl in Hid. lia.
  - destruct (lookup_lt_is_Some_2 (sent_log spec) m) as [e He]; [lia|].
    rewrite (sent_id_lookup _ _ _ He).
    assert (list_find (λ e', e'.1 = e.1) (sent_log spec) = Some (m, e)) as ->.
    { apply list_find_Some. split_and!; [done|done|]. intros j y Hy Hj Heq.
      assert (∀ i j x y, (i < j)%nat → sent_log spec !! i = Some x → sent_log spec !! j = Some y → x.1 < y.1)
        as Hmono.
      { clear -Hlog. intros i j x y Hij Hx Hy. revert i j Hij Hx Hy.
        induction (sent_log spec) as [|z l IH]; intros i j Hij Hx Hy; [done|].
        simpl in Hlog. inversion_clear Hlog as [|? ? Hl Hz].
        destruct j as [|j]; [lia|]. destruct i as [|i]; simpl in *.
        - injection Hx as ->. rewrite Forall_forall in Hz. apply Hz.
          apply list_elem_of_fmap. exists y. split; [done|]. by eapply list_elem_of_lookup_2.
        - eapply (IH Hl i j); eauto. lia. }
      pose proof (Hmono j m y e Hj Hy He). lia. }
    unfold drop_spec. by rewrite (sent_id_lookup _ _ _ He).
Qed.

Lemma StronglySorted_drop {A} (R : A → A → Prop) n (l : list A) :
  StronglySorted R l → StronglySorted R (drop n l).
Proof.
  intros Hl. revert n. induction Hl as [|x l Hl IH Hx]; intros [|n]; simpl; try (by constructor).
  apply IH.
Qed.

Lemma last_drop_lt {A} i (l : list A) : (i < length l)%nat → last (drop i l) = last l.
Proof. intros Hi. rewrite !last_lookup, length_drop, lookup_drop. f_equal. lia. Qed.

Lemma sorted_sub ns n :
  StronglySorted lt ns → Forall (λ x, n ≤ x)%nat ns → StronglySorted lt ((λ x, x - n)%nat <$> ns).
Proof.
  intros Hs. induction Hs as [|x ns Hs IH Hx]; intros Hn; simpl; [constructor|].
  apply Forall_cons in Hn as [Hnx Hn]. constructor; [by apply IH|].
  rewrite Forall_fmap. rewrite Forall_forall in *. intros y Hy. specialize (Hx y Hy).
  specialize (Hn y Hy). simpl. lia.
Qed.

Lemma sorted_head_bound ns n : StronglySorted lt ns → head ns = Some n → Forall (λ x, n ≤ x)%nat ns.
Proof.
  intros Hs Hh. destruct Hs as [|x ns Hs Hx]; [done|]. injection Hh as ->.
  constructor; [done|]. eapply Forall_impl; [exact Hx|]. simpl. lia.
Qed.

Lemma sent_history_ack spec states l k i st :
  sent_history spec states l →
  list_find (λ s, sent_id s = k) states = Some (i, st) →
  let e := instruction_end st in
  head (drop i states) = Some st ∧ 0 ≤ e ≤ len l ∧
  Forall (λ s, e ≤ instruction_end s) (drop i states) ∧
  sent_history (spec_ack k spec)
    ((λ s, {| sent_id := sent_id s; instruction_end := instruction_end s - e |}) <$> drop i states)
    (drop (Z.to_nat e) l).
Proof.
  intros [Hp Hids Hlim (ns & Hns & Hsorted & Hhead & Hlast)] Hf.
  apply list_find_Some in Hf as (Hst & Hk & _).
  rewrite Hns, list_lookup_fmap in Hst. apply fmap_Some in Hst as (n & Hn & ->).
  simpl in Hk. subst k. cbv zeta.
  pose proof (sorted_last_bound _ _ Hsorted Hlast) as Hbound.
  pose proof (Forall_lookup_1 _ _ _ _ Hbound Hn) as Hnl. simpl in Hnl.
  assert (head (drop i ns) = Some n) as Hdn by (by rewrite head_lookup, lookup_drop, Nat.add_0_r).
  pose proof (sorted_head_bound _ _ (StronglySorted_drop _ i _ Hsorted) Hdn) as Hge.
  rewrite spec_ack_drop by done. rewrite Hns, <- fmap_drop.
  change (instruction_end (sent_at spec n)) with (len (pending_to spec n)).
  assert (pending spec = pending_to spec n ++ pending (drop_spec n spec)) as Hsplit.
  { unfold pending, pending_to, drop_spec. simpl. rewrite <- join_app, <- fmap_app. by rewrite take_drop. }
  assert (Forall (λ s, len (pending_to spec n) ≤ instruction_end s) (sent_at spec <$> drop i ns)) as Hends.
  { rewrite Forall_fmap. eapply Forall_impl; [exact Hge|]. intros x Hx. simpl.
    by destruct (sent_at_drop spec n x Hx). }
  split_and!; [| | |done|].
  - rewrite head_lookup, list_lookup_fmap, <- head_lookup, Hdn. done.
  - apply len_nonneg.
  - rewrite Hp, Hsplit, len_app. pose proof (len_nonneg (pending (drop_spec n spec))). lia.
  - rewrite <- list_fmap_compose. split.
    + rewrite Hp, Hsplit. unfold len. rewrite Nat2Z.id. by rewrite drop_app_length.
    + unfold sent_ids, drop_spec. simpl. destruct n as [|m].
      * unfold id_at. simpl. rewrite drop_0. exact Hids.
      * destruct (lookup_lt_is_Some_2 (sent_log spec) m) as [e He]; [lia|].
        rewrite (sent_id_lookup _ _ _ He).
        pose proof (StronglySorted_drop _ (S m) _ Hids) as Hd. unfold sent_ids in Hd. simpl in Hd.
        rewrite (drop_S ((sent_log spec).*1) e.1 m) in Hd by (by rewrite list_lookup_fmap, He).
        by rewrite fmap_drop.
    + unfold len in *. rewrite Hns, length_fmap in Hlim. rewrite length_fmap, length_drop. lia.
    + exists ((λ x, x - n)%nat <$> drop i ns). split_and!.
      * rewrite <- list_fmap_compose. apply list_fmap_ext. intros j x Hx. simpl.
        rewrite Forall_lookup in Hge. specialize (Hge j x Hx).
        by destruct (sent_at_drop spec n x Hge) as [-> _].
      * apply sorted_sub; [by apply StronglySorted_drop | done].
      * rewrite head_lookup, list_lookup_fmap, <- head_lookup, Hdn. simpl. f_equal. lia.
      * rewrite fmap_last, last_drop_lt by (by eapply lookup_lt_Some). rewrite Hlast. simpl.
        unfold drop_spec. simpl. by rewrite length_drop.
Qed.

(** ** The invariant of the protocol *)
Definition channel_ok (c : SecureChannel) : Prop := ∀ n, next_counter c = Some n → fits 63 n.

Section protocol_lemmas.
Context `{Vt100Laws} `{Vte} `{Aead} `{Prost} `{Zlib}.
Implicit Types p : ClientProtocol.

Record wf_protocol (p : ClientProtocol) : Prop := {
  wf_channel : channel_ok (secure_channel p);
  wf_sent : ∃ spec, sent_history spec (sent_states p) (local_instructions p) ∧
    Forall (λ i, i < next_local_state p ∨ i = u64_max) (sent_ids spec);
  wf_next : 0 < next_local_state p ≤ u64_max;
  wf_assemblies_size : Z.of_nat (size (assemblies p)) ≤ MAXIMUM_ACTIVE_ASSEMBLIES;
  wf_assemblies : map_Forall (λ _ a, acc_inv a ∧
    maximum_message_bytes a = MAXIMUM_REASSEMBLED_BYTES) (assemblies p);
  wf_received_size : Z.of_nat (size (received_states p)) ≤ MAXIMUM_RECEIVED_STATES;
  wf_received : map_Forall (λ _, wf_terminal) (received_states p);
  wf_delivered : wf_terminal (delivered_remote_state p);
  wf_window : ∃ accepted, window_of (replay_window p) accepted;
}.

(** *** Sealing changes only the channel *)
Lemma seal_next_safe plain c :
  channel_ok c → let '(c', r) := seal_next plain c in channel_ok c' ∧ r ≠ Panic.
Proof.
  intros Hc. rewrite seal_next_eq by done. destruct (next_counter c) as [n|] eqn:Hn; [|done].
  destruct (aead_encrypt _ _ _); [|done]. split; [|done].
  intros m Hm. simpl in Hm. eapply following_fits; [|exact Hm]. by apply Hc.
Qed.

Lemma seal_each_safe l c :
  channel_ok c → let '(c', r) := seal_each l c in channel_ok c' ∧ r ≠ Panic.
Proof.
  revert c. induction l as [|f l IH]; intros c Hc; cbn [seal_each]; [done|].
  unfold bindM, zoomM. pose proof (seal_next_safe (encode f) c Hc) as Hs.
  destruct (seal_next (encode f) c) as [c1 [packet|e|]]; simpl; [|naive_solver|tauto].
  destruct Hs as [Hc1 _]. specialize (IH c1 Hc1).
  destruct (seal_each l c1) as [c2 [|?|]]; simpl in *; naive_solver.
Qed.

Lemma seal_fragments_safe b ts peer id c :
  channel_ok c → let '(c', r) := seal_fragments b ts peer id c in channel_ok c' ∧ r ≠ Panic.
Proof.
  intros Hc. unfold seal_fragments, bindM, liftM. rewrite split_eq.
  destruct (_ <? _); simpl; [done|]. by apply seal_each_safe.
Qed.

Lemma encode_compressed_update_safe u : encode_compressed_update u ≠ Panic.
Proof. unfold encode_compressed_update. destruct (negb _); [done|]. by destruct (zlib_compress _). Qed.

Lemma seal_update_safe u ts id p :
  channel_ok (secure_channel p) →
  ∃ c, fst (seal_update u ts id p) = p <| secure_channel := c |> ∧ channel_ok c ∧
    snd (seal_update u ts id p) ≠ Panic.
Proof.
  intros Hc. unfold seal_update. rewrite bindM_get. unfold bindM, liftM, zoomM.
  pose proof (encode_compressed_update_safe u) as He.
  destruct (encode_compressed_update u) as [b|e|]; simpl; [| |done].
  - pose proof (seal_fragments_safe b ts (latest_peer_timestamp p) id _ Hc) as Hs.
    destruct (seal_fragments b ts _ id _) as [c [|e|]]; exists c; simpl; naive_solver.
  - exists (secure_channel p). by destruct p.
Qed.

Lemma wf_set_channel p c : wf_protocol p → channel_ok c → wf_protocol (p <| secure_channel := c |>).
Proof. intros [] Hc. by split. Qed.

(** *** Building updates *)
Lemma front_back spec states l :
  sent_history spec states l →
  head states = Some {| sent_id := confirmed spec; instruction_end := 0 |} ∧
  last states = Some {| sent_id := last_id spec; instruction_end := len l |}.
Proof.
  intros [-> _ _ (ns & -> & _ & Hh & Hl)].
  rewrite fmap_last, Hl, head_lookup, list_lookup_fmap, <- head_lookup, Hh. simpl.
  unfold sent_at, last_id, pending_to, pending. by rewrite (take_ge (sent_log spec) (length (sent_log spec))).
Qed.

Definition update_for (base target latest floor : Z) (delta_bytes caps : bytes) : StateUpdate :=
  {| protocol_version := PROTOCOL_VERSION; base_state := base; target_state := target;
     acknowledged_state := latest; discard_before := floor; delta := delta_bytes;
     padding := []; capabilities := caps |}.

(** What [build_state_update] seals, and what it records on success. *)
Lemma build_state_update_eq ts batch target p spec :
  sent_history spec (sent_states p) (local_instructions p) →
  len (local_instructions p) + len (instructions batch) < 2 ^ 64 →
  build_state_update ts batch target p =
  let '(p', r) :=
    seal_update (update_for (last_id spec) target (latest_remote_state p) (confirmed spec)
      (encode_bytes batch) (local_capabilities p)) ts target p in
  match r with
  | Ok packets =>
      (limit_sent_states
        ((p' <| local_instructions ::= λ l, l ++ instructions batch |>)
             <| sent_states ::= λ l, l ++ [{| sent_id := target;
                  instruction_end := len (local_instructions p) + len (instructions batch) |}] |>),
       Ok packets)
  | Err e => (p', Err e)
  | Panic => (p', Panic)
  end.
Proof.
  intros Hs Hlen. destruct (front_back _ _ _ Hs) as [Hh Hl].
  unfold build_state_update. rewrite bindM_get. unfold back_state, front_state. rewrite Hh, Hl.
  unfold checked_add. rewrite (proj2 (Z.ltb_lt _ _) Hlen). cbn [ok_or].
  unfold liftM. unfold bindM at 1 2 3. cbn [sent_id].
  unfold bindM at 1.
  match goal with |- context [seal_update ?u ts target p] =>
    change u with (update_for (last_id spec) target (latest_remote_state p) (confirmed spec)
      (encode_bytes batch) (local_capabilities p)) end.
  by destruct (seal_update _ ts target p) as [p' [packets|e|]].
Qed.

(** Sending a state under the correspondence, for a number above the sent ones. *)
Lemma build_state_update_spec ts batch target p spec :
  wf_protocol p → sent_history spec (sent_states p) (local_instructions p) →
  last_id spec < target → len (local_instructions p) + len (instructions batch) < 2 ^ 64 →
  let '(p', r) := build_state_update ts batch target p in
  ∃ c, channel_ok c ∧ r ≠ Panic ∧
  match r with
  | Ok _ =>
      ∃ states, p' = ((p <| secure_channel := c |>) <| local_instructions ::= λ l, l ++ instructions batch |>)
                       <| sent_states := states |> ∧
        sent_history (spec_send target (instructions batch) spec) states
          (local_instructions p ++ instructions batch)
  | _ => p' = p <| secure_channel := c |>
  end.
Proof.
  intros Hp Hs Hid Hlen. rewrite (build_state_update_eq _ _ _ _ spec) by done.
  set (u := update_for _ _ _ _ _ _).
  destruct (seal_update_safe u ts target p (wf_channel p Hp)) as (c & Hf & Hc & Hn).
  destruct (seal_update u ts target p) as [p1 r]. simpl in Hf, Hn. subst p1.
  destruct r as [packets|e|]; [|by exists c..]. exists c. split_and!; [done|done|].
  eexists. split; [done|].
  apply (sent_history_send spec (sent_states p) (local_instructions p) target (instructions batch) Hs Hid).
Qed.

Lemma last_id_in spec : last_id spec ∈ sent_ids spec.
Proof. eapply last_Some_elem_of. apply last_id_eq. Qed.

Lemma not_shutdown_last p spec :
  sent_history spec (sent_states p) (local_instructions p) →
  local_shutdown_sent p = false → last_id spec ≠ u64_max.
Proof.
  intros Hs Hl. destruct (front_back _ _ _ Hs) as [_ Hb]. unfold local_shutdown_sent in Hl.
  rewrite Hb in Hl. simpl in Hl. by apply Z.eqb_neq.
Qed.

(** The instructions held, and those added, have machine lengths. *)
Definition batch_fits (p : ClientProtocol) (batch : InstructionBatch) : Prop :=
  len (local_instructions p) + len (instructions batch) < 2 ^ 64.

Lemma sent_ids_send id b spec : sent_ids (spec_send id b spec) = sent_ids spec ++ [id].
Proof. unfold sent_ids, spec_send. simpl. by rewrite fmap_app. Qed.

Lemma build_update_wf ts batch p :
  wf_protocol p → local_shutdown_sent p = false → batch_fits p batch →
  wf_protocol (fst (build_update ts batch p)) ∧ snd (build_update ts batch p) ≠ Panic.
Proof.
  intros Hp Hl Hfit. destruct (wf_sent p Hp) as (spec & Hs & Hids).
  pose proof (not_shutdown_last p spec Hs Hl) as Hlast.
  assert (last_id spec < next_local_state p) as Hlt.
  { rewrite Forall_forall in Hids. destruct (Hids _ (last_id_in spec)); done. }
  unfold build_update. rewrite bindM_get.
  destruct (Z.eqb_spec (next_local_state p) u64_max) as [|Hmax]; [done|].
  pose proof (build_state_update_spec ts batch (next_local_state p) p spec Hp Hs Hlt Hfit) as Hb.
  unfold bindM. destruct (build_state_update ts batch _ p) as [p' r].
  destruct Hb as (c & Hc & Hn & Hr). destruct r as [packets|e|]; [|subst p'; simpl; split; [by apply wf_set_channel|done]|done].
  destruct Hr as (states & -> & Hsh). simpl. split; [|done].
  pose proof (wf_next p Hp). destruct Hp. split; simpl; try done; [|lia].
  exists (spec_send (next_local_state p) (instructions batch) spec). split; [done|].
  rewrite sent_ids_send. apply Forall_app. split; [|apply Forall_singleton; lia].
  eapply Forall_impl; [exact Hids|]. simpl. lia.
Qed.

Lemma build_shutdown_wf ts batch p :
  wf_protocol p → batch_fits p batch →
  wf_protocol (fst (build_shutdown ts batch p)) ∧ snd (build_shutdown ts batch p) ≠ Panic.
Proof.
  intros Hp Hfit. destruct (wf_sent p Hp) as (spec & Hs & Hids).
  unfold build_shutdown. rewrite bindM_get. destruct (local_shutdown_sent p) eqn:Hl; [done|].
  pose proof (not_shutdown_last p spec Hs Hl) as Hlast. pose proof (wf_next p Hp) as Hnext.
  assert (last_id spec < u64_max) as Hlt.
  { rewrite Forall_forall in Hids. destruct (Hids _ (last_id_in spec)); [lia|done]. }
  pose proof (build_state_update_spec ts batch u64_max p spec Hp Hs Hlt Hfit) as Hb.
  destruct (build_state_update ts batch _ p) as [p' r].
  destruct Hb as (c & Hc & Hn & Hr). destruct r as [packets|e|]; [|subst p'; simpl; split; [by apply wf_set_channel|done]|done].
  destruct Hr as (states & -> & Hsh). simpl. split; [|done].
  destruct Hp. split; simpl; try done.
  exists (spec_send u64_max (instructions batch) spec). split; [done|].
  rewrite sent_ids_send. apply Forall_app. split; [done|]. apply Forall_singleton. by right.
Qed.

(** The retransmission carries every instruction not yet acknowledged, on the
    confirmed state. *)
Lemma pending_update_eq p spec :
  sent_history spec (sent_states p) (local_instructions p) →
  pending_update p =
  Ok (update_for (confirmed spec) (last_id spec) (latest_remote_state p) (confirmed spec)
        (encode_bytes (mkInstructionBatch (pending spec))) (local_capabilities p), last_id spec).
Proof.
  intros Hs. destruct (front_back _ _ _ Hs) as [Hh Hl]. unfold pending_update, front_state, back_state.
  rewrite Hh, Hl. simpl. unfold slice. pose proof (len_nonneg (local_instructions p)).
  rewrite (proj2 (Z.leb_le 0 (len (local_instructions p)))) by lia. rewrite Z.leb_refl.
  change (drop (Z.to_nat 0) (local_instructions p)) with (local_instructions p).
  rewrite Z.sub_0_r. unfold len. rewrite Nat2Z.id, firstn_all. rewrite (sh_pending _ _ _ Hs).
  by rewrite Z.leb_refl.
Qed.

Lemma builders_wf ts p :
  wf_protocol p →
  (wf_protocol (fst (build_acknowledgement ts p)) ∧ snd (build_acknowledgement ts p) ≠ Panic) ∧
  (wf_protocol (fst (build_shutdown_ack ts p)) ∧ snd (build_shutdown_ack ts p) ≠ Panic) ∧
  (wf_protocol (fst (retransmit_pending ts p)) ∧ snd (retransmit_pending ts p) ≠ Panic).
Proof.
  intros Hp. destruct (wf_sent p Hp) as (spec & Hs & _). destruct (front_back _ _ _ Hs) as [Hh Hl].
  assert (∀ u id, wf_protocol (fst (seal_update u ts id p)) ∧ snd (seal_update u ts id p) ≠ Panic) as Hseal.
  { intros u id. destruct (seal_update_safe u ts id p (wf_channel p Hp)) as (c & -> & Hc & Hn).
    split; [by apply wf_set_channel | done]. }
  split_and!; try apply Hseal.
  - unfold build_acknowledgement. rewrite bindM_get. unfold back_state, front_state.
    rewrite Hh, Hl. unfold bindM at 1 2, liftM, ok_or. apply Hseal.
  - unfold build_acknowledgement. rewrite bindM_get. unfold back_state, front_state.
    rewrite Hh, Hl. unfold bindM at 1 2, liftM, ok_or. apply Hseal.
  - unfold build_shutdown_ack. rewrite bindM_get. destruct (negb _); [done|apply Hseal].
  - unfold build_shutdown_ack. rewrite bindM_get. destruct (negb _); [done|apply Hseal].
  - unfold retransmit_pending. rewrite bindM_get. destruct (negb _); [done|].
    rewrite (pending_update_eq p spec Hs). unfold bindM at 1, liftM. apply Hseal.
  - unfold retransmit_pending. rewrite bindM_get. destruct (negb _); [done|].
    rewrite (pending_update_eq p spec Hs). unfold bindM at 1, liftM. apply Hseal.
Qed.

(** *** Receiving an acknowledgement *)
Definition retained (k : Z) (p : ClientProtocol) : bool :=
  existsb (λ s, sent_id s =? k) (sent_states p).

Lemma process_acknowledgement_spec k p spec :
  sent_history spec (sent_states p) (local_instructions p) →
  let '(p', r) := process_acknowledgement k p in
  r = Ok tt ∧
  if retained k p then
    ∃ states l, p' = (p <| sent_states := states |>) <| local_instructions := l |> ∧
      sent_history (spec_ack k spec) states l
  else p' = p.
Proof.
  intros Hs. unfold process_acknowledgement. rewrite bindM_get. unfold retained.
  destruct (list_find _ (sent_states p)) as [[i st]|] eqn:Hf; cycle 1.
  { split; [done|]. apply list_find_None in Hf. destruct (existsb _ _) eqn:He; [|done].
    apply existsb_exists in He as (x & Hx & He). apply Z.eqb_eq in He.
    rewrite Forall_forall in Hf. by apply list_elem_of_In, Hf in Hx. }
  assert (existsb (λ s, sent_id s =? k) (sent_states p) = true) as ->.
  { apply existsb_exists. apply list_find_Some in Hf as (Hi & Hk & _). exists st.
    split; [by eapply list_elem_of_In, list_elem_of_lookup_2 | by apply Z.eqb_eq]. }
  destruct (sent_history_ack _ _ _ _ _ _ Hs Hf) as (Hhead & He & Hends & Hsh).
  rewrite bindM_mod, bindM_get.
  change (sent_states (p <| sent_states ::= drop i |>)) with (drop i (sent_states p)).
  rewrite Hhead. unfold bindM at 1, liftM at 1. cbn [expect].
  destruct (Z.eqb_spec (instruction_end st) 0) as [Hz|Hz].
  - split; [done|]. exists (drop i (sent_states p)), (local_instructions p). split; [by destruct p|].
    rewrite Hz in Hsh. change (drop (Z.to_nat 0) (local_instructions p)) with (local_instructions p) in Hsh.
    replace ((λ s, {| sent_id := sent_id s; instruction_end := instruction_end s - 0 |})
               <$> drop i (sent_states p)) with (drop i (sent_states p)) in Hsh; [done|].
    symmetry. etransitivity; [|apply list_fmap_id]. apply list_fmap_ext. intros j [a b] _. simpl.
    by rewrite Z.sub_0_r.
  - set (e := instruction_end st) in *.
    change (local_instructions (p <| sent_states ::= drop i |>)) with (local_instructions p).
    unfold slice_from. rewrite (proj2 (Z.leb_le 0 e)), (proj2 (Z.leb_le e _)) by lia.
    unfold bindM at 1, liftM at 1. cbn [andb]. rewrite bindM_mod.
    rewrite (proj2 (collect_Ok _ ((λ s, {| sent_id := sent_id s;
      instruction_end := instruction_end s - e |}) <$> drop i (sent_states p)))).
    2: { rewrite <- list_fmap_compose. apply list_fmap_ext. intros j s Hj. simpl.
         rewrite Forall_lookup in Hends. specialize (Hends j s Hj). simpl in Hends.
         by rewrite (proj2 (Z.ltb_ge _ _)) by done. }
    unfold bindM, liftM, modM. split; [done|]. do 2 eexists. split; [|exact Hsh]. by destruct p.
Qed.

Lemma spec_ack_ids k spec : ∀ i, i ∈ sent_ids (spec_ack k spec) → i ∈ sent_ids spec.
Proof.
  intros i. unfold spec_ack, sent_ids. destruct (list_find _ _) as [[j e]|] eqn:Hf; [|done].
  apply list_find_Some in Hf as (He & <- & _). simpl. rewrite fmap_drop, !elem_of_cons.
  intros [->|Hi].
  - right. apply list_elem_of_fmap. exists e. split; [done|]. by eapply list_elem_of_lookup_2.
  - right. rewrite <- (take_drop (S j) (sent_log spec).*1). apply elem_of_app. by right.
Qed.

Lemma process_acknowledgement_wf k p :
  wf_protocol p →
  wf_protocol (fst (process_acknowledgement k p)) ∧ snd (process_acknowledgement k p) = Ok tt.
Proof.
  intros Hp. destruct (wf_sent p Hp) as (spec & Hs & Hids).
  pose proof (process_acknowledgement_spec k p spec Hs) as Ha.
  destruct (process_acknowledgement k p) as [p' r]. destruct Ha as [-> Ha]. simpl.
  destruct (retained k p); [|by subst p'].
  destruct Ha as (states & l & -> & Hsh). split; [|done]. destruct Hp. split; simpl; try done.
  exists (spec_ack k spec). split; [done|]. rewrite Forall_forall in *. intros i Hi.
  by apply Hids, (spec_ack_ids k).
Qed.

(** *** Receiving a remote state *)

(** What is delivered to the host: either a newer state, described by a diff from
    the state delivered before, or nothing. *)
Definition delivery (p p' : ClientProtocol) (advanced : option StateUpdate) : Prop :=
  match advanced with
  | Some u =>
      latest_remote_state p < latest_remote_state p' ∧ latest_remote_state p' = target_state u ∧
      ∃ d, diff_from (delivered_remote_state p') (delivered_remote_state p) = Ok d ∧
           delta u = encode_bytes d
  | None =>
      latest_remote_state p' = latest_remote_state p ∧
      delivered_remote_state p' = delivered_remote_state p
  end.

Definition advanced_by (r : outcome SessionError (bool * StateUpdate)) : option StateUpdate :=
  match r with Ok (true, u) => Some u | _ => None end.

(** The acknowledgement part of the state, the window, and the channel. *)
Definition same_rest (p p' : ClientProtocol) : Prop :=
  secure_channel p' = secure_channel p ∧ replay_window p' = replay_window p ∧
  sent_states p' = sent_states p ∧ local_instructions p' = local_instructions p ∧
  next_local_state p' = next_local_state p ∧ assemblies p' = assemblies p.

Lemma wf_set_received p m floor :
  wf_protocol p → map_Forall (λ _, wf_terminal) m → Z.of_nat (size m) ≤ MAXIMUM_RECEIVED_STATES →
  wf_protocol ((p <| received_states := m |>) <| remote_throwaway_floor := floor |>).
Proof. intros [] Hm Hs. by split. Qed.

Lemma wf_deliver p target s :
  wf_protocol p → wf_terminal s →
  wf_protocol ((p <| latest_remote_state := target |>) <| delivered_remote_state := s |>).
Proof. intros [] Hs. by split. Qed.

Lemma wf_insert_received p target s :
  wf_protocol p → wf_terminal s → Z.of_nat (size (received_states p)) < MAXIMUM_RECEIVED_STATES →
  wf_protocol (p <| received_states ::= <[target := s]> |>).
Proof.
  intros [] Hs Hsize. split; simpl; try done.
  - rewrite map_size_insert. destruct (received_states p !! target); simpl; lia.
  - by apply map_Forall_insert_2.
Qed.

Lemma accept_remote_update_spec u p :
  wf_protocol p →
  let '(p', r) := accept_remote_update u p in
  wf_protocol p' ∧ r ≠ Panic ∧ same_rest p p' ∧ delivery p p' (advanced_by r).
Proof.
  intros Hp. unfold accept_remote_update. rewrite bindM_get.
  destruct (is_some _); [by split_and!|]. destruct (_ || _); [by split_and!|].
  destruct (received_states p !! base_state u) as [base|] eqn:Hbase; [|by split_and!].
  destruct (clone_wf base (wf_received p Hp _ _ Hbase)) as (base' & -> & Hbase').
  unfold bindM at 1, liftM at 1. cbn [map_err].
  pose proof (decode_instructions_safe u) as Hdec.
  destruct (decode_instructions u) as [batch|e|]; [|by split_and!|done].
  unfold bindM at 1, liftM at 1. cbn [map_err].
  rewrite apply_eq by done. pose proof (can_apply_safe base' batch) as Hcan.
  pose proof (applied_wf base' batch Hbase') as Hwf.
  destruct (can_apply base' batch) as [[]|e|]; [|by split_and!|done].
  specialize (Hwf eq_refl). set (target := applied base' batch) in *. clearbody target.
  unfold bindM at 1, liftM at 1. rewrite !bindM_mod, bindM_get.
  set (floor := Z.max _ _).
  set (m := filter (λ entry : Z * RemoteTerminalState, floor ≤ entry.1) (received_states p)).
  set (p1 := (p <| received_states := m |>) <| remote_throwaway_floor := floor |>).
  change ((p <| received_states ::= filter (λ entry, floor ≤ entry.1) |>)
            <| remote_throwaway_floor := floor |>) with p1.
  assert (m ⊆ received_states p) as Hsub by apply map_filter_subseteq.
  assert (map_Forall (λ _, wf_terminal) m) as Hm.
  { intros i s Hi. apply (wf_received p Hp i). by eapply lookup_weaken. }
  assert (wf_protocol p1) as Hp1.
  { apply wf_set_received; [done|done|]. pose proof (wf_received_size p Hp).
    pose proof (map_subseteq_size _ _ Hsub). lia. }
  assert (same_rest p p1) as Hsame by done.
  assert (latest_remote_state p1 = latest_remote_state p ∧
          delivered_remote_state p1 = delivered_remote_state p) as [Hlat Hdel] by done.
  destruct (Z.leb_spec MAXIMUM_RECEIVED_STATES (Z.of_nat (size (received_states p1)))) as [|Hsize];
    [by split_and!|].
  destruct (clone_wf target Hwf) as (target' & -> & Hwf').
  unfold bindM at 1, liftM at 1. cbn [map_err]. rewrite bindM_mod.
  set (p2 := p1 <| received_states ::= <[target_state u := target']> |>).
  assert (wf_protocol p2) as Hp2 by by apply wf_insert_received.
  assert (same_rest p p2) as Hsame2 by done.
  assert (latest_remote_state p2 = latest_remote_state p ∧
          delivered_remote_state p2 = delivered_remote_state p) as [Hlat2 Hdel2] by done.
  rewrite Hlat, Hdel. clearbody p2. clear p1 Hp1 Hsame Hlat Hdel Hsize.
  destruct (Z.leb_spec (target_state u) (latest_remote_state p)) as [|Hnew]; [by split_and!|].
  destruct (diff_from_safe target (delivered_remote_state p) Hwf (wf_delivered p Hp)) as [Hsafe _].
  destruct (diff_from target (delivered_remote_state p)) as [d|e|] eqn:Hdiff; [|by split_and!|done].
  rewrite !bindM_mod. unfold retM. split_and!; [by apply wf_deliver | done | done |].
  simpl. split_and!; [done|done|]. by exists d.
Qed.

(** *** Receiving a packet *)
Lemma wf_set_capabilities p c : wf_protocol p → wf_protocol (p <| remote_capabilities := c |>).
Proof. intros []. by split. Qed.

Definition advanced_state (r : outcome SessionError PacketReceipt) : option StateUpdate :=
  match r with
  | Ok receipt =>
      match pr_state receipt with
      | Some rs => if advances_remote_state rs then Some (rs_update rs) else None
      | None => None
      end
  | _ => None
  end.

Lemma process_acknowledgement_rest k p :
  wf_protocol p →
  let p' := fst (process_acknowledgement k p) in
  latest_remote_state p' = latest_remote_state p ∧ replay_window p' = replay_window p ∧
  delivered_remote_state p' = delivered_remote_state p.
Proof.
  intros Hp. destruct (wf_sent p Hp) as (spec & Hs & _).
  pose proof (process_acknowledgement_spec k p spec Hs) as Ha.
  destruct (process_acknowledgement k p) as [p' r]. destruct Ha as [_ Ha]. simpl.
  destruct (retained k p); [|by subst p']. by destruct Ha as (states & l & -> & _).
Qed.

Lemma receive_update_spec counter st et compressed h p :
  wf_protocol p →
  let '(p', r) := receive_update counter st et compressed h p in
  wf_protocol p' ∧ r ≠ Panic ∧ replay_window p' = replay_window p ∧
  delivery p p' (advanced_state r) ∧ (∀ receipt, r = Ok receipt → packet_counter receipt = counter).
Proof.
  intros Hp. unfold receive_update. pose proof (decode_compressed_update_safe compressed) as Hd.
  destruct (decode_compressed_update compressed) as [u|e|]; [|by split_and!|done].
  unfold bindM at 1, liftM at 1. cbn [map_err].
  destruct (process_acknowledgement_wf (acknowledged_state u) p Hp) as [Hp1 Hr1].
  pose proof (process_acknowledgement_rest (acknowledged_state u) p Hp) as (Hlat & Hwin & Hdel).
  unfold bindM at 1. destruct (process_acknowledgement (acknowledged_state u) p) as [p1 r1].
  simpl in Hp1, Hr1, Hlat, Hwin, Hdel. subst r1.
  pose proof (accept_remote_update_spec u p1 Hp1) as Ha. unfold bindM at 1.
  destruct (accept_remote_update u p1) as [p2 [[adv u2]|e|]]; [| |tauto].
  - destruct Ha as (Hp2 & _ & (_ & Hw & _) & Hdv). unfold delivery in Hdv. rewrite Hlat, Hdel in Hdv.
    assert (∃ p3, bindM (if negb (bool_decide (capabilities u = []))
        then modM (λ self, self <| remote_capabilities := capabilities u |>) else retM tt)
        (λ _, retM {| packet_counter := counter; pr_sent_timestamp := st; pr_echoed_timestamp := et;
           pr_state := Some {| rs_packet_counter := counter;
             rs_sent_timestamp := Fragment.sent_timestamp h;
             rs_echoed_timestamp := Fragment.echoed_timestamp h;
             advances_remote_state := adv; rs_update := u2 |} |}) p2 =
        (p3, Ok (E:=SessionError) {| packet_counter := counter; pr_sent_timestamp := st;
           pr_echoed_timestamp := et;
           pr_state := Some {| rs_packet_counter := counter;
             rs_sent_timestamp := Fragment.sent_timestamp h;
             rs_echoed_timestamp := Fragment.echoed_timestamp h;
             advances_remote_state := adv; rs_update := u2 |} |}) ∧ wf_protocol p3 ∧
        replay_window p3 = replay_window p2 ∧ latest_remote_state p3 = latest_remote_state p2 ∧
        delivered_remote_state p3 = delivered_remote_state p2) as (p3 & -> & Hp3 & Hw3 & Hl3 & Hd3).
    { destruct (negb _); [|by exists p2].
      exists (p2 <| remote_capabilities := capabilities u |>). split_and!; try done.
      by apply wf_set_capabilities. }
    split_and!; [done|done|congruence| |by intros ? [= <-]].
    unfold delivery in *. simpl. destruct adv; simpl in *; by rewrite Hl3, Hd3.
  - destruct Ha as (Hp2 & _ & (_ & Hw & _) & Hdv). unfold delivery in *. simpl in *.
    destruct Hdv. split_and!; try done; congruence.
Qed.

Lemma push_fragment_spec f p :
  wf_protocol p → 0 ≤ index (header f) →
  negb (is_some (assemblies p !! state_id (header f)))
    && (MAXIMUM_ACTIVE_ASSEMBLIES <=? Z.of_nat (size (assemblies p))) = false →
  let '(p', r) := push_fragment f p in
  ∃ a, p' = p <| assemblies ::= <[state_id (header f) := a]> |> ∧ wf_protocol p' ∧ r ≠ Panic.
Proof.
  intros Hp Hi Hsize. unfold push_fragment, zoomM. set (id := state_id (header f)) in *.
  set (a0 := default _ (assemblies p !! id)).
  assert (acc_inv a0 ∧ maximum_message_bytes a0 = MAXIMUM_REASSEMBLED_BYTES) as Ha0.
  { unfold a0. destruct (assemblies p !! id) as [a|] eqn:Ha; simpl.
    - apply (wf_assemblies p Hp id a Ha).
    - split; [by apply accumulator_new_inv | done]. }
  pose proof (push_triple f MAXIMUM_REASSEMBLED_BYTES Hi a0 Ha0) as (Ha1 & Hm1 & Hans).
  destruct (push f a0) as [a r]. simpl in Ha1, Hm1, Hans. exists a. split_and!; [done| |].
  - destruct Hp. split; simpl; try done.
    + rewrite map_size_insert. unfold MAXIMUM_ACTIVE_ASSEMBLIES in *.
      destruct (assemblies p !! id) as [a'|] eqn:Ha; simpl in *; [lia|]. apply Z.leb_gt in Hsize. lia.
    + by apply map_Forall_insert_2.
  - destruct r as [|e|]; [done|done|destruct Hans].
Qed.

Lemma parse_safe l : parse l ≠ Panic.
Proof.
  unfold parse. destruct (get_to _ l); [|done]. cbn [ok_or bind_ok]. by destruct (_ <? _).
Qed.

Lemma parse_index l f : parse l = Ok f → 0 ≤ index (header f).
Proof.
  unfold parse. intros Hf. apply bind_ok_Ok in Hf as (h & _ & Hf). destruct (_ <? _); [done|].
  injection Hf as <-. simpl. apply land_mask_fits.
Qed.

Lemma open_counter ch packet r :
  open ch packet = Ok r → 0 ≤ counter r.
Proof.
  unfold open. destruct (_ <? _); [done|]. intros Ho.
  apply bind_ok_Ok in Ho as (prefix & _ & Ho). destruct (direction_decode _) as [d c] eqn:Hd.
  apply bind_ok_Ok in Ho as (sealed & _ & Ho). apply bind_ok_Ok in Ho as (plain & _ & Ho).
  case_bool_decide; [done|]. injection Ho as <-. simpl. unfold direction_decode in Hd.
  injection Hd as _ <-. apply Z.land_nonneg. right. done.
Qed.

Lemma wf_set_window p w ts accepted :
  wf_protocol p → window_of w accepted →
  wf_protocol ((p <| replay_window := w |>) <| latest_peer_timestamp := ts |>).
Proof. intros [] Hw. split; try done. by exists accepted. Qed.

Lemma wf_delete_assembly i p : wf_protocol p → wf_protocol (p <| assemblies ::= delete i |>).
Proof.
  intros []. split; simpl in *; try done.
  - etransitivity; [|exact wf_assemblies_size0]. apply Nat2Z.inj_le, map_subseteq_size, delete_subseteq.
  - by apply map_Forall_delete.
Qed.

(** One packet: the invariant is kept and nothing panics, whatever the bytes;
    the counter of a receipt is new to the window; and what is delivered is
    newer than before. *)
Lemma ingest_packet_spec packet p accepted :
  wf_protocol p → window_of (replay_window p) accepted →
  let '(p', r) := ingest_packet packet p in
  wf_protocol p' ∧ r ≠ Panic ∧ delivery p p' (advanced_state r) ∧
  ∃ accepted', window_of (replay_window p') accepted' ∧ accepted ⊆ accepted' ∧
    (∀ receipt, r = Ok receipt →
       packet_counter receipt ∉ accepted ∧ packet_counter receipt ∈ accepted').
Proof.
  intros Hp Hw. unfold ingest_packet. rewrite bindM_get.
  pose proof (open_safe (secure_channel p) packet) as Hopen.
  destruct (open (secure_channel p) packet) as [auth|e|] eqn:Ho; [| |done].
  2: { split_and!; try done. exists accepted. by split_and!. }
  unfold bindM at 1, liftM at 1. cbn [map_err].
  pose proof (replay_accept_spec _ _ (counter auth) Hw (open_counter _ _ _ Ho)) as Hr.
  destruct (replay_accept (counter auth) (replay_window p)) as [w b]. destruct Hr as [Hb Hw'].
  rewrite bindM_mod. set (acc' := if b then accepted ++ [counter auth] else accepted) in *.
  assert (accepted ⊆ acc') as Hsub by (unfold acc'; destruct b; set_solver).
  assert (wf_protocol (p <| replay_window := w |>)) as Hp1.
  { pose proof (wf_set_window p w (latest_peer_timestamp p) acc' Hp Hw') as H'. by destruct p. }
  destruct b; cbn [negb].
  2: { split_and!; try done. exists acc'. by split_and!. }
  assert (counter auth ∉ accepted ∧ counter auth ∈ acc') as Hcount.
  { split; [by apply Hb|]. unfold acc'. set_solver. }
  destruct (get_to TIMESTAMP_HEADER_BYTES (plaintext auth)) as [th|].
  2: { split_and!; try done. exists acc'. by split_and!. }
  unfold bindM at 1, liftM at 1. cbn [ok_or]. rewrite bindM_mod.
  set (ts := Some (from_be (take 2 th))).
  set (p1 := (p <| replay_window := w |>) <| latest_peer_timestamp := ts |>).
  assert (wf_protocol p1) as Hp2 by by eapply wf_set_window.
  assert (replay_window p1 = w) as Hw1 by done.
  assert (∀ p' r, delivery p1 p' r → delivery p p' r) as Hdv by done.
  destruct (_ <? MINIMUM_FRAGMENT_PLAINTEXT_BYTES).
  { split_and!; try done. exists acc'. split_and!; [done|done|]. by intros ? [= <-]. }
  pose proof (parse_safe (plaintext auth)) as Hparse.
  destruct (parse (plaintext auth)) as [f|e|] eqn:Hf; [| |done].
  2: { split_and!; try done. exists acc'. by split_and!. }
  apply parse_index in Hf. unfold bindM at 1, liftM at 1. cbn [map_err].
  change (assemblies p) with (assemblies p1).
  destruct (negb (is_some (assemblies p1 !! _)) && _) eqn:Hsize.
  { split_and!; try done. exists acc'. by split_and!. }
  pose proof (push_fragment_spec f p1 Hp2 Hf Hsize) as Hpush. unfold bindM at 1.
  destruct (push_fragment f p1) as [p2 [o|e|]].
  - destruct Hpush as (a & -> & Hp3 & _). destruct o as [compressed|].
    2: { split_and!; try done. exists acc'. split_and!; [done|done|]. by intros ? [= <-]. }
    rewrite bindM_mod. set (p3 := _ <| assemblies ::= delete _ |>).
    assert (wf_protocol p3) as Hp4 by by apply wf_delete_assembly.
    pose proof (receive_update_spec (counter auth) (from_be (take 2 th)) (from_be (take 2 (drop 2 th)))
      compressed (header f) p3 Hp4) as Hrec.
    destruct (receive_update _ _ _ compressed (header f) p3) as [p4 r].
    destruct Hrec as (Hp5 & Hn & Hw4 & Hdel & Hcnt). split_and!; [done|done|done|].
    exists acc'. rewrite Hw4. split_and!; [done|done|]. intros receipt Hr.
    by rewrite (Hcnt receipt Hr).
  - destruct Hpush as (a & -> & Hp3 & _). split_and!; try done. exists acc'. by split_and!.
  - destruct Hpush as (a & _ & _ & []). done.
Qed.

(** *** Reachable states *)
Lemma protocol_new_wf key p : protocol_new key = Ok p → wf_protocol p.
Proof.
  unfold protocol_new. intros Hn.
  destruct (terminal_new DEFAULT_REMOTE_COLUMNS DEFAULT_REMOTE_ROWS) as [s|e|] eqn:Hs; [|done|done].
  apply terminal_new_wf in Hs. cbn [bind_ok] in Hn.
  destruct (clone_wf s Hs) as (s' & Hc & Hs'). rewrite Hc in Hn. injection Hn as <-.
  split; simpl; try done.
  - intros n [= <-]. unfold fits. lia.
  - exists (mkSentSpec 0 []). split; [|by apply Forall_singleton; left].
    split; [done | repeat constructor | done |]. exists [0%nat]. split_and!; try done.
    repeat constructor.
  - by apply map_Forall_singleton.
  - exists []. apply window_of_default.
Qed.

Lemma set_viewport_wf c r p :
  wf_protocol p → fits 16 c → fits 16 r →
  ∃ p', set_initial_remote_viewport c r p = Ok p' ∧ wf_protocol p'.
Proof.
  intros Hp Hc Hr. unfold set_initial_remote_viewport.
  destruct (_ || _) eqn:Hd; [by exists p|].
  destruct (terminal_new (Z.max c 1) (Z.max r 1)) as [s|e|] eqn:Hs; [|by exists p..].
  apply terminal_new_wf in Hs. destruct (clone_wf s Hs) as (s' & -> & Hs'). cbn.
  eexists. split; [done|]. apply orb_false_iff in Hd as [_ Hsize].
  apply negb_false_iff, Z.eqb_eq in Hsize. destruct Hp. split; simpl; try done.
  - rewrite map_size_insert. unfold MAXIMUM_RECEIVED_STATES.
    destruct (received_states p !! 0); simpl; lia.
  - by apply map_Forall_insert_2.
Qed.

(** The operations of the protocol, under the conditions the client keeps: no
    update is built after the shutdown state, and batches have machine lengths. *)
Inductive protocol_reach (key : SessionKey) : ClientProtocol → Prop :=
| reach_new p : protocol_new key = Ok p → protocol_reach key p
| reach_ingest packet p :
    protocol_reach key p → protocol_reach key (fst (ingest_packet packet p))
| reach_acknowledgement ts p :
    protocol_reach key p → protocol_reach key (fst (build_acknowledgement ts p))
| reach_update ts batch p :
    protocol_reach key p → local_shutdown_sent p = false → batch_fits p batch →
    protocol_reach key (fst (build_update ts batch p))
| reach_shutdown ts batch p :
    protocol_reach key p → batch_fits p batch →
    protocol_reach key (fst (build_shutdown ts batch p))
| reach_shutdown_ack ts p :
    protocol_reach key p → protocol_reach key (fst (build_shutdown_ack ts p))
| reach_retransmit ts p :
    protocol_reach key p → protocol_reach key (fst (retransmit_pending ts p))
| reach_viewport c r p p' :
    protocol_reach key p → fits 16 c → fits 16 r →
    set_initial_remote_viewport c r p = Ok p' → protocol_reach key p'
| reach_capabilities caps p :
    protocol_reach key p → protocol_reach key (set_local_capabilities caps p).

Lemma protocol_reach_wf key p : protocol_reach key p → wf_protocol p.
Proof.
  induction 1 as [p Hn|packet p _ IH|ts p _ IH|ts b p _ IH Hl Hf|ts b p _ IH Hf|ts p _ IH|ts p _ IH
    |c r p p' _ IH Hc Hr Hs|caps p _ IH].
  - by eapply protocol_new_wf.
  - destruct (wf_window p IH) as [acc Hacc].
    pose proof (ingest_packet_spec packet p acc IH Hacc) as Hi.
    destruct (ingest_packet packet p) as [p1 r]. apply Hi.
  - by apply builders_wf.
  - by apply build_update_wf.
  - by apply build_shutdown_wf.
  - by apply builders_wf.
  - by apply builders_wf.
  - destruct (set_viewport_wf c r p IH Hc Hr) as (p2 & Hs2 & Hp2). rewrite Hs in Hs2.
    by injection Hs2 as ->.
  - destruct IH. by split.
Qed.

(** Packets one after the other: the receipts, failed packets left out. *)
Fixpoint ingest_all (l : list bytes) (p : ClientProtocol) : list PacketReceipt * ClientProtocol :=
  match l with
  | [] => ([], p)
  | packet :: l =>
      let '(p, r) := ingest_packet packet p in
      let '(receipts, p) := ingest_all l p in
      (match r with Ok receipt => receipt :: receipts | _ => receipts end, p)
  end.

(** The numbers of the states delivered with the receipts. *)
Definition delivered_numbers (l : list PacketReceipt) : list Z :=
  omap (λ receipt, target_state <$> advanced_state (Ok receipt)) l.

Lemma ingest_all_spec l p accepted :
  wf_protocol p → window_of (replay_window p) accepted →
  let '(receipts, p') := ingest_all l p in
  wf_protocol p' ∧ NoDup (packet_counter <$> receipts) ∧
  (∀ c, c ∈ packet_counter <$> receipts → c ∉ accepted) ∧
  StronglySorted Z.lt (latest_remote_state p :: delivered_numbers receipts) ∧
  latest_remote_state p' = default (latest_remote_state p) (last (delivered_numbers receipts)).
Proof.
  revert p accepted. induction l as [|packet l IH]; intros p accepted Hp Hw; cbn [ingest_all].
  { split_and!; try done; [constructor | intros c Hc; set_solver | by repeat constructor]. }
  pose proof (ingest_packet_spec packet p accepted Hp Hw) as Hi.
  destruct (ingest_packet packet p) as [p1 r].
  destruct Hi as (Hp1 & _ & Hdel & acc' & Hw1 & Hsub & Hcnt).
  specialize (IH p1 acc' Hp1 Hw1). destruct (ingest_all l p1) as [receipts p'].
  destruct IH as (Hp' & Hnd & Hnew & Hsort & Hlast).
  destruct r as [receipt|e|].
  - destruct (Hcnt receipt eq_refl) as [Hc1 Hc2]. split_and!; [done| | | |].
    + rewrite fmap_cons. constructor; [|done]. intros Hin. by apply Hnew in Hin.
    + intros c. rewrite fmap_cons, elem_of_cons. intros [->|Hin]; [done|]. apply Hnew in Hin. set_solver.
    + unfold delivered_numbers. cbn [omap list_omap]. unfold delivery in Hdel.
      destruct (advanced_state (Ok receipt)) as [u|]; simpl.
      * destruct Hdel as (Hlt & Heq & _). rewrite Heq in Hsort, Hlt. constructor; [done|].
        constructor; [lia|]. inversion_clear Hsort as [|? ? _ Hall].
        eapply Forall_impl; [exact Hall|]. simpl. lia.
      * destruct Hdel as [<- _]. done.
    + rewrite Hlast. unfold delivered_numbers. cbn [omap list_omap]. unfold delivery in Hdel.
      destruct (advanced_state (Ok receipt)) as [u|]; simpl.
      * destruct Hdel as (_ & -> & _). rewrite last_cons.
        by destruct (last (omap _ receipts)).
      * by destruct Hdel as [<- _].
  - unfold delivery in Hdel. simpl in Hdel. destruct Hdel as [<- _]. split_and!; try done. set_solver.
  - unfold delivery in Hdel. simpl in Hdel. destruct Hdel as [<- _]. split_and!; try done. set_solver.
Qed.

(** *** One state in flight

    What a caller relies on that builds an update only when none is pending. *)
Definition one_in_flight (p : ClientProtocol) : Prop :=
  ∃ spec, sent_history spec (sent_states p) (local_instructions p) ∧
    (length (sent_log spec) ≤ 1)%nat.

(** The builders that send no new state change the channel only. *)
Lemma resending_keeps ts p :
  wf_protocol p →
  (∃ c, fst (build_acknowledgement ts p) = p <| secure_channel := c |>) ∧
  (∃ c, fst (build_shutdown_ack ts p) = p <| secure_channel := c |>) ∧
  (∃ c, fst (retransmit_pending ts p) = p <| secure_channel := c |>).
Proof.
  intros Hp. destruct (wf_sent p Hp) as (spec & Hs & _). destruct (front_back _ _ _ Hs) as [Hh Hl].
  assert (∀ u id, ∃ c, fst (seal_update u ts id p) = p <| secure_channel := c |>) as Hseal.
  { intros u id. destruct (seal_update_safe u ts id p (wf_channel p Hp)) as (c & Hf & _). eauto. }
  assert (∃ c, p = p <| secure_channel := c |>) as Hsame by (exists (secure_channel p); by destruct p).
  split_and!.
  - unfold build_acknowledgement. rewrite bindM_get. unfold back_state, front_state.
    rewrite Hh, Hl. unfold bindM at 1 2, liftM, ok_or. apply Hseal.
  - unfold build_shutdown_ack. rewrite bindM_get. destruct (negb _); [exact Hsame|apply Hseal].
  - unfold retransmit_pending. rewrite bindM_get. destruct (negb _); [exact Hsame|].
    rewrite (pending_update_eq p spec Hs). unfold bindM at 1, liftM. apply Hseal.
Qed.

Lemma sorted_lt_length ns m :
  StronglySorted lt ns → last ns = Some m → (length ns ≤ S m)%nat.
Proof.
  intros Hs. revert m. induction ns as [|n ns IH] using rev_ind; intros m; [done|].
  rewrite last_snoc. intros [= ->]. rewrite length_app. simpl.
  apply StronglySorted_app in Hs as (Hx & Hns & _).
  destruct (last ns) as [k|] eqn:Hk.
  - specialize (IH Hns k eq_refl). assert (k < m)%nat; [|lia]. apply Hx; [|set_solver].
    by eapply last_Some_elem_of.
  - apply last_None in Hk as ->. simpl. lia.
Qed.

Lemma sent_history_length spec states l :
  sent_history spec states l → (length states ≤ S (length (sent_log spec)))%nat.
Proof.
  intros [_ _ _ (ns & -> & Hs & _ & Hl)]. rewrite length_fmap. by apply sorted_lt_length.
Qed.

Lemma not_pending_log p spec :
  sent_history spec (sent_states p) (local_instructions p) → has_pending_update p = false →
  sent_log spec = [] ∧ local_instructions p = [].
Proof.
  intros [-> _ _ (ns & Hst & _ & Hh & Hl)] Hn. unfold has_pending_update in Hn.
  rewrite Hst in Hn. unfold len in Hn. rewrite length_fmap in Hn. apply Z.ltb_ge in Hn.
  assert (sent_log spec = []) as He.
  { destruct ns as [|n [|? ns]]; simpl in *; [done| |lia]. injection Hh as ->. injection Hl as Hl.
    by apply length_zero_iff_nil. }
  split; [done|]. unfold pending. by rewrite He.
Qed.

Lemma one_in_flight_bound p : one_in_flight p → len (sent_states p) ≤ 2.
Proof. intros (spec & Hs & Hl). apply sent_history_length in Hs. unfold len. lia. Qed.

(** The numbers of the first and the last state sent, and their place. *)
Lemma shutdown_flags p spec :
  sent_history spec (sent_states p) (local_instructions p) →
  local_shutdown_sent p = (last_id spec =? u64_max) ∧
  local_shutdown_acknowledged p = (confirmed spec =? u64_max).
Proof.
  intros Hs. destruct (front_back _ _ _ Hs) as [Hh Hl].
  unfold local_shutdown_sent, local_shutdown_acknowledged. by rewrite Hh, Hl.
Qed.

Lemma not_pending_shutdown p :
  wf_protocol p → has_pending_update p = false →
  local_shutdown_acknowledged p = local_shutdown_sent p.
Proof.
  intros Hp Hn. destruct (wf_sent p Hp) as (spec & Hs & _).
  destruct (not_pending_log p spec Hs Hn) as [Hlog _].
  destruct (shutdown_flags p spec Hs) as [-> ->]. unfold last_id, id_at. by rewrite Hlog.
Qed.

(** Sending a state when none is pending. *)
Lemma build_state_in_flight ts batch target p :
  wf_protocol p → has_pending_update p = false →
  (∀ spec, sent_history spec (sent_states p) (local_instructions p) → last_id spec < target) →
  batch_fits p batch → one_in_flight (fst (build_state_update ts batch target p)).
Proof.
  intros Hp Hn Hid Hfit. destruct (wf_sent p Hp) as (spec & Hs & _).
  destruct (not_pending_log p spec Hs Hn) as [Hlog _].
  pose proof (build_state_update_spec ts batch target p spec Hp Hs (Hid spec Hs) Hfit) as Hb.
  destruct (build_state_update ts batch target p) as [p' r]. destruct Hb as (c & _ & _ & Hb). simpl.
  destruct r; simpl; [|subst p'; exists spec; rewrite Hlog; split; [done|simpl; lia]..].
  destruct Hb as (states & -> & Hsh). eexists. split; [exact Hsh|]. simpl. rewrite Hlog. simpl. lia.
Qed.

Lemma build_update_in_flight ts batch p :
  wf_protocol p → has_pending_update p = false → local_shutdown_sent p = false →
  batch_fits p batch → one_in_flight (fst (build_update ts batch p)).
Proof.
  intros Hp Hn Hl Hfit. unfold build_update. rewrite bindM_get.
  destruct (next_local_state p =? u64_max) eqn:Hmax.
  { destruct (wf_sent p Hp) as (spec & Hs & _). destruct (not_pending_log p spec Hs Hn) as [Hlog _].
    exists spec. rewrite Hlog. split; [done|simpl; lia]. }
  assert (one_in_flight (fst (build_state_update ts batch (next_local_state p) p))) as Hf.
  { apply build_state_in_flight; [done|done| |done]. intros spec Hs.
    pose proof (wf_next p Hp). destruct (wf_sent p Hp) as (spec0 & Hs0 & Hids).
    destruct (not_pending_log p spec Hs Hn) as [Hlog _].
    destruct (not_pending_log p spec0 Hs0 Hn) as [Hlog0 _].
    destruct (front_back _ _ _ Hs) as [_ Hb]. destruct (front_back _ _ _ Hs0) as [_ Hb0].
    rewrite Hb in Hb0. assert (last_id spec = last_id spec0) as -> by congruence.
    pose proof (not_shutdown_last p spec0 Hs0 Hl).
    rewrite Forall_forall in Hids. destruct (Hids _ (last_id_in spec0)); lia. }
  unfold bindM. by destruct (build_state_update ts batch _ p) as [p' []].
Qed.

Lemma build_shutdown_in_flight ts batch p :
  wf_protocol p → has_pending_update p = false → batch_fits p batch →
  one_in_flight (fst (build_shutdown ts batch p)).
Proof.
  intros Hp Hn Hfit. unfold build_shutdown. rewrite bindM_get.
  destruct (local_shutdown_sent p) eqn:Hl.
  { destruct (wf_sent p Hp) as (spec & Hs & _). destruct (not_pending_log p spec Hs Hn) as [Hlog _].
    exists spec. rewrite Hlog. split; [done|simpl; lia]. }
  apply build_state_in_flight; [done|done| |done]. intros spec Hs.
  pose proof (wf_next p Hp). destruct (wf_sent p Hp) as (spec0 & Hs0 & Hids).
  destruct (front_back _ _ _ Hs) as [_ Hb]. destruct (front_back _ _ _ Hs0) as [_ Hb0].
  rewrite Hb in Hb0. assert (last_id spec = last_id spec0) as -> by congruence.
  pose proof (not_shutdown_last p spec0 Hs0 Hl).
  rewrite Forall_forall in Hids. destruct (Hids _ (last_id_in spec0)); lia.
Qed.

(** A received packet acts on the sent states by an acknowledgement at most. *)
Definition same_sent (p p' : ClientProtocol) : Prop :=
  sent_states p' = sent_states p ∧ local_instructions p' = local_instructions p.
Definition acknowledges (p p' : ClientProtocol) : Prop :=
  same_sent p p' ∨ ∃ k, same_sent (fst (process_acknowledgement k p)) p'.

Lemma receive_update_acknowledges counter st et compressed h p :
  wf_protocol p → acknowledges p (fst (receive_update counter st et compressed h p)).
Proof.
  intros Hp. unfold receive_update, bindM at 1, liftM at 1.
  destruct (map_err SessionMessage _) as [u|e|]; [|by left..].
  right. exists (acknowledged_state u).
  destruct (process_acknowledgement_wf (acknowledged_state u) p Hp) as [Hp1 Hr1].
  unfold bindM at 1. destruct (process_acknowledgement (acknowledged_state u) p) as [p1 r1].
  simpl in Hp1, Hr1. subst r1. pose proof (accept_remote_update_spec u p1 Hp1) as Ha.
  unfold bindM at 1. destruct (accept_remote_update u p1) as [p2 [[adv u2]|e|]];
    destruct Ha as (_ & _ & (_ & _ & Hst & Hli & _) & _); simpl; [|split; [exact Hst|exact Hli]..].
  destruct (negb _); simpl; (split; [exact Hst|exact Hli]).
Qed.

Lemma push_fragment_keeps f p :
  ∃ a, fst (push_fragment f p) = p <| assemblies ::= <[state_id (header f) := a]> |>.
Proof.
  unfold push_fragment, zoomM. destruct (push f _) as [a r]. by exists a.
Qed.

(** An acknowledgement acts on the sent states alone. *)
Lemma process_acknowledgement_same k p q :
  same_sent p q →
  same_sent (fst (process_acknowledgement k p)) (fst (process_acknowledgement k q)).
Proof.
  intros [Hs Hl]. unfold process_acknowledgement. rewrite !bindM_get, Hs.
  destruct (list_find _ _) as [[i st]|]; [|done]. rewrite !bindM_mod, !bindM_get.
  change (local_instructions (q <| sent_states ::= drop i |>)) with (local_instructions q).
  change (local_instructions (p <| sent_states ::= drop i |>)) with (local_instructions p).
  change (sent_states (q <| sent_states ::= drop i |>)) with (drop i (sent_states q)).
  change (sent_states (p <| sent_states ::= drop i |>)) with (drop i (sent_states p)).
  rewrite Hs, Hl. unfold bindM, liftM, modM.
  destruct (expect _) as [front|e|]; [|by split; simpl; rewrite ?Hs, ?Hl..].
  destruct (_ =? 0); [by split; simpl; rewrite ?Hs, ?Hl|].
  destruct (slice_from _ _) as [rest|e|]; [|by split; simpl; rewrite ?Hs, ?Hl..].
  destruct (collect _) as [ends|e|]; split; simpl; by rewrite ?Hs.
Qed.

Lemma ingest_packet_acknowledges packet p :
  wf_protocol p → acknowledges p (fst (ingest_packet packet p)).
Proof.
  intros Hp. unfold ingest_packet. rewrite bindM_get. unfold bindM at 1, liftM at 1.
  destruct (map_err SessionOpen _) as [auth|e|] eqn:Ho; [|by left..].
  apply map_err_Ok in Ho. destruct (wf_window p Hp) as [acc Hw].
  pose proof (replay_accept_spec _ _ (counter auth) Hw (open_counter _ _ _ Ho)) as Hr.
  destruct (replay_accept (counter auth) (replay_window p)) as [w b]. destruct Hr as [_ Hw'].
  rewrite bindM_mod. destruct (negb b); [by left|]. unfold bindM at 1, liftM at 1.
  destruct (ok_or _ _) as [th|e|]; [|by left..]. rewrite bindM_mod.
  destruct (_ <? _); [by left|]. unfold bindM at 1, liftM at 1.
  destruct (map_err SessionFragment _) as [f|e|] eqn:Hf; [|by left..].
  apply map_err_Ok, parse_index in Hf.
  set (p1 := (p <| replay_window := w |>) <| latest_peer_timestamp := _ |>).
  assert (wf_protocol p1) as Hp1 by by eapply wf_set_window.
  change (assemblies p) with (assemblies p1).
  destruct (negb (is_some (assemblies p1 !! _)) && _) eqn:Hsize; [by left|].
  pose proof (push_fragment_spec f p1 Hp1 Hf Hsize) as Hpush. unfold bindM at 1.
  destruct (push_fragment f p1) as [p2 [o|e|]]; destruct Hpush as (a & -> & Hp2 & _);
    [|by left..]. destruct o as [compressed|]; [|by left]. rewrite bindM_mod.
  set (p3 := _ <| assemblies ::= delete _ |>).
  assert (wf_protocol p3) as Hp3.
  { destruct Hp2. split; simpl in *; try done.
    - etransitivity; [|exact wf_assemblies_size0]. apply Nat2Z.inj_le, map_subseteq_size, delete_subseteq.
    - by apply map_Forall_delete. }
  destruct (receive_update_acknowledges (counter auth) (from_be (take 2 th))
    (from_be (take 2 (drop 2 th))) compressed (header f) p3 Hp3) as [Hk|[k Hk]]; [by left|].
  right. exists k. destruct (process_acknowledgement_same k p p3) as [E1 E2]; [done|].
  destruct Hk as [Hk1 Hk2]. split; congruence.
Qed.

Lemma acknowledges_in_flight p p' : wf_protocol p → acknowledges p p' → one_in_flight p → one_in_flight p'.
Proof.
  intros Hp [[E1 E2]|(k & E1 & E2)] (spec & Hs & Hl); unfold one_in_flight; rewrite E1, E2.
  - by exists spec.
  - pose proof (process_acknowledgement_spec k p spec Hs) as Ha.
    destruct (process_acknowledgement k p) as [p1 r]. destruct Ha as [_ Ha]. simpl in *.
    destruct (retained k p); [|subst p1; by exists spec].
    destruct Ha as (states & l & -> & Hsh). eexists. split; [exact Hsh|].
    unfold spec_ack. destruct (list_find _ _) as [[i e]|]; [|done]. simpl. rewrite length_drop. lia.
Qed.

(** The newest state sent is not forgotten by an acknowledgement. *)
Lemma last_id_ack k spec : last_id (spec_ack k spec) = last_id spec.
Proof.
  assert (Some (last_id (spec_ack k spec)) = Some (last_id spec)) as [= ->]; [|done].
  rewrite <- !last_id_eq. unfold spec_ack. destruct (list_find _ _) as [[i e]|] eqn:Hf; [|done].
  apply list_find_Some in Hf as (Hi & <- & _). unfold sent_ids. simpl.
  rewrite <- (take_drop_middle _ _ _ Hi) at 2. rewrite fmap_app, fmap_cons.
  by rewrite app_comm_cons, last_app_cons.
Qed.

Lemma acknowledges_shutdown p p' :
  wf_protocol p → acknowledges p p' → local_shutdown_sent p' = local_shutdown_sent p.
Proof.
  intros Hp [[E1 E2]|(k & E1 & E2)]; unfold local_shutdown_sent; rewrite E1; [done|].
  destruct (wf_sent p Hp) as (spec & Hs & _).
  pose proof (process_acknowledgement_spec k p spec Hs) as Ha.
  destruct (process_acknowledgement k p) as [p1 r]. destruct Ha as [_ Ha]. simpl in *.
  destruct (retained k p); [|by subst p1]. destruct Ha as (states & l & -> & Hsh). simpl.
  destruct (front_back _ _ _ Hsh) as [_ ->]. destruct (front_back _ _ _ Hs) as [_ ->]. simpl.
  by rewrite last_id_ack.
Qed.
End protocol_lemmas.

(** ** Properties *)

(** C19: The sent states and instructions refine their specification, the log of all
    states sent since the confirmed one: a successful send appends the state with
    its batch (whatever middle states the limit of 32 removed); the
    acknowledgement of any state still kept, in any order, confirms it and drops
    exactly the instructions up to it, and any other acknowledgement changes
    nothing; and a retransmission is built on the confirmed state, for the
    newest one, with exactly the instructions not yet acknowledged. *)
Theorem sent_states_refine_log `{Vt100Laws} `{Vte} `{Aead} `{Prost} `{Zlib} (p : ClientProtocol) spec :
  wf_protocol p → sent_history spec (sent_states p) (local_instructions p) →
  (∀ ts batch target, last_id spec < target → batch_fits p batch →
     let '(p', r) := build_state_update ts batch target p in
     r ≠ Panic ∧
     sent_history (if is_ok r then spec_send target (instructions batch) spec else spec)
       (sent_states p') (local_instructions p')) ∧
  (∀ k, let '(p', r) := process_acknowledgement k p in
     r = Ok tt ∧
     if retained k p then sent_history (spec_ack k spec) (sent_states p') (local_instructions p')
     else p' = p) ∧
  pending_update p =
    Ok (update_for (confirmed spec) (last_id spec) (latest_remote_state p) (confirmed spec)
          (encode_bytes (mkInstructionBatch (pending spec))) (local_capabilities p), last_id spec).
Proof.
  intros Hp Hs. split_and!.
  - intros ts batch target Hid Hfit.
    pose proof (build_state_update_spec ts batch target p spec Hp Hs Hid Hfit) as Hb.
    destruct (build_state_update ts batch target p) as [p' r]. destruct Hb as (c & _ & Hn & Hb).
    split; [done|]. destruct r; simpl; [|by subst p'..]. by destruct Hb as (states & -> & Hsh).
  - intros k. pose proof (process_acknowledgement_spec k p spec Hs) as Ha.
    destruct (process_acknowledgement k p) as [p' r]. destruct Ha as [-> Ha]. split; [done|].
    destruct (retained k p); [|done]. by destruct Ha as (states & l & -> & Hsh).
  - by apply pending_update_eq.
Qed.

(** C21: The replay window implements the set of accepted counters: after any
    sequence of counters, a counter is accepted exactly when it has not been
    accepted before and is less than 128 behind the highest one, and no counter
    is ever accepted twice. *)
Theorem replay_window_exact l :
  Forall (λ c, 0 ≤ c) l →
  let '(w, accepted) := foldl (λ '(w, acc) c,
    let '(w, b) := replay_accept c w in (w, if b then acc ++ [c] else acc)) (replay_default, []) l in
  NoDup accepted ∧
  ∀ c, 0 ≤ c →
    snd (replay_accept c w) = true ↔
    c ∉ accepted ∧ ∀ h, highest w = Some h → h - c < REPLAY_WINDOW_BITS.
Proof.
  intros Hl. destruct (foldl _ _ l) as [w accepted] eqn:Hf.
  assert (window_of w accepted ∧ NoDup accepted) as [Hw Hnd].
  { revert w accepted Hf. induction l as [|c l IH] using rev_ind; intros w accepted.
    - intros [= <- <-]. split; [|constructor].
      apply window_of_default.
    - apply Forall_app in Hl as [Hl Hc]. rewrite Forall_singleton in Hc.
      rewrite foldl_app. simpl. destruct (foldl _ _ l) as [w0 acc0].
      destruct (IH Hl w0 acc0 eq_refl) as [Hw0 Hn0].
      pose proof (replay_accept_spec w0 acc0 c Hw0 Hc) as Ha.
      destruct (replay_accept c w0) as [w1 b]. destruct Ha as [Hb Hw1]. intros [= <- <-].
      split; [done|]. destruct b; [|done]. apply NoDup_app. split_and!; [done| |apply NoDup_singleton].
      intros x Hx Hx'. apply list_elem_of_singleton in Hx' as ->. by apply Hb in Hx. }
  split; [done|]. intros c Hc. pose proof (replay_accept_spec w accepted c Hw Hc) as Ha.
  destruct (replay_accept c w) as [w' b]. apply Ha.
Qed.

(** C20: From any reachable client, any sequence of packets whatsoever is handled
    without a panic and keeps the bounds (at most 64 reassemblies of 16 MiB, 1024
    remote states, 32 sent states); no packet counter is processed twice; and the
    remote states delivered to the host have strictly increasing numbers, the
    newest of which is acknowledged. *)
Theorem hostile_packets_are_safe `{Vt100Laws} `{Vte} `{Aead} `{Prost} `{Zlib} key (p : ClientProtocol) l packet :
  protocol_reach key p →
  let '(receipts, p') := ingest_all l p in
  wf_protocol p' ∧ snd (ingest_packet packet p') ≠ Panic ∧
  NoDup (packet_counter <$> receipts) ∧
  StronglySorted Z.lt (latest_remote_state p :: delivered_numbers receipts) ∧
  latest_remote_state p' = default (latest_remote_state p) (last (delivered_numbers receipts)).
Proof.
  intros Hp. apply protocol_reach_wf in Hp. destruct (wf_window p Hp) as [acc Hacc].
  pose proof (ingest_all_spec l p acc Hp Hacc) as Hall.
  destruct (ingest_all l p) as [receipts p']. destruct Hall as (Hp' & Hnd & _ & Hs & Hlast).
  split_and!; try done. destruct (wf_window p' Hp') as [acc' Hacc'].
  pose proof (ingest_packet_spec packet p' acc' Hp' Hacc') as Hi.
  destruct (ingest_packet packet p') as [p2 r]. apply Hi.
Qed.

(** A packet that advances the remote state is delivered as a diff: the update
    handed to the host encodes [diff_from] of the new delivered state against the
    one delivered before; a packet that does not advance it leaves the delivered
    state as it was. *)
Theorem delivery_is_a_diff `{Vt100Laws} `{Vte} `{Aead} `{Prost} `{Zlib} key (p : ClientProtocol) packet :
  protocol_reach key p →
  let '(p', r) := ingest_packet packet p in delivery p p' (advanced_state r).
Proof.
  intros Hp. apply protocol_reach_wf in Hp. destruct (wf_window p Hp) as [acc Hacc].
  pose proof (ingest_packet_spec packet p acc Hp Hacc) as Hi.
  destruct (ingest_packet packet p) as [p' r]. tauto.
Qed.

(** Building updates is safe from any reachable client: no builder panics, and
    the number of sent states, their order and the instructions they stand for
    stay consistent. *)
Theorem builders_are_safe `{Vt100Laws} `{Vte} `{Aead} `{Prost} `{Zlib} key (p : ClientProtocol) ts batch :
  protocol_reach key p → batch_fits p batch →
  (∃ spec, sent_history spec (sent_states p) (local_instructions p)) ∧
  (local_shutdown_sent p = false → snd (build_update ts batch p) ≠ Panic) ∧
  snd (build_shutdown ts batch p) ≠ Panic ∧ snd (build_shutdown_ack ts p) ≠ Panic ∧
  snd (build_acknowledgement ts p) ≠ Panic ∧ snd (retransmit_pending ts p) ≠ Panic.
Proof.
  intros Hp Hfit. apply protocol_reach_wf in Hp. destruct (wf_sent p Hp) as (spec & Hs & _).
  destruct (builders_wf ts p Hp) as ([_ B1] & [_ B2] & [_ B3]). split_and!; try done.
  - by exists spec.
  - intros Hl. by apply build_update_wf.
  - by apply build_shutdown_wf.
Qed.

(** ** From the client to the server *)
Section end_to_end.
Context `{Vt100Laws} `{Vte} `{AeadLaws} `{ProstLaws} `{ZlibLaws}.

(** The fragment a server of the same key reads from a packet. *)
Definition server_fragment (key : SessionKey) (packet : bytes) : option Fragment :=
  match open (SecureChannel_new Server key) packet with
  | Ok r => match parse (plaintext r) with Ok f => Some f | _ => None end
  | _ => None
  end.

Definition client_channel (key : SessionKey) (c : SecureChannel) : Prop :=
  outbound_cipher c = expose key ∧ outbound_direction c = ClientToServer ∧ channel_ok c ∧
  inbound_cipher c = expose key ∧ inbound_direction c = ServerToClient.

Lemma seal_each_received key l c c' packets :
  client_channel key c → Forall wf_fragment l →
  seal_each l c = (c', Ok packets) → (server_fragment key) <$> packets = Some <$> l.
Proof.
  intros Hc Hl. revert c c' packets Hc. induction Hl as [|f l Hf Hl IH]; intros c c' packets Hc;
    cbn [seal_each]; [by intros [= <- <-]|].
  destruct Hc as (Hkey & Hdir & Hok & Hin). unfold bindM, zoomM. rewrite seal_next_eq by done.
  destruct (next_counter c) as [n|] eqn:Hn; [|done].
  destruct (aead_encrypt _ _ _) as [s|] eqn:He; [|done]. simpl map_err. cbv iota beta.
  set (c1 := c <| next_counter := following n |>).
  assert (client_channel key c1) as Hc1.
  { split_and!; [done|done| |by apply Hin..]. intros m Hm. eapply following_fits; [|exact Hm]. by apply Hok. }
  pose proof (IH c1) as IH1. destruct (seal_each l c1) as [c2 [ps|e|]]; [|done|done].
  intros Hret. apply pair_equal_spec in Hret as [<- Hret]. apply Ok_inj in Hret as <-.
  rewrite fmap_cons, (IH1 c2 ps Hc1 eq_refl), fmap_cons. f_equal.
  unfold server_fragment. rewrite Hdir, Hkey in *.
  rewrite (open_sealed (SecureChannel_new Server key) ClientToServer n (encode f) s) by (done || by apply Hok).
  rewrite bool_decide_eq_false_2 by (intros Hx; by apply Hx). simpl. by rewrite parse_encode.
Qed.

Lemma split_wf message st et id frs :
  fits 16 st → fits 16 et → fits 64 id → split message st et id = Ok frs → Forall wf_fragment frs.
Proof.
  intros Hst Het Hid Hs. apply Forall_lookup. intros i f Hf.
  pose proof Hs as Hs'. rewrite split_eq in Hs'.
  destruct (Z.ltb_spec MAX_SPLIT_BYTES (len message)); [done|]. injection Hs' as Hs'.
  apply (split_lookup _ _ _ _ _ _ _ Hs) in Hf as (b & Hb & ->).
  pose proof (lookup_lt_Some _ _ _ Hb) as Hlt.
  assert (Z.of_nat (length (split_bodies message)) ≤ 32768) as Hc.
  { apply Z.nlt_ge. intros Hn. apply chunk_count_limit in Hn. lia. }
  split; [split; simpl; try done; unfold fits; lia|]. simpl.
  pose proof (Forall_lookup_1 _ _ _ _ (split_bodies_bound message) Hb) as Hbb. simpl in Hbb.
  unfold MAX_FRAGMENT_BODY_BYTES, MAX_RECEIVED_FRAGMENT_BODY_BYTES in *. lia.
Qed.

(** The packets are those of the update: a server of the same key reads from each of them, in
    order, one fragment of the compressed encoding of the update, which an update of
    another protocol version does not have. *)
Definition sealed_as (key : SessionKey) (packets : list bytes) (id : Z) (u : StateUpdate) : Prop :=
  ∃ compressed sent_timestamp echo_timestamp frs,
    encode_compressed_update u = Ok compressed ∧
    split compressed sent_timestamp echo_timestamp id = Ok frs ∧
    (server_fragment key) <$> packets = Some <$> frs.

(** A message of this client carries an update to a server of the same key: each
    packet is authentic to it and carries one fragment; in whatever order the
    fragments arrive, and however often, as soon as all are there the reassembled
    message decodes to the update. *)
Definition carries (key : SessionKey) (packets : list bytes) (id : Z) (u : StateUpdate) : Prop :=
  ∃ frs compressed, (server_fragment key) <$> packets = Some <$> frs ∧
    (∀ l f, l ⊆ frs → f ∈ frs → frs ⊆ l ++ [f] →
       snd (push f (push_all (accumulator_new id MAXIMUM_REASSEMBLED_BYTES) l))
       = Ok (Some compressed)) ∧
    decode_compressed_update compressed = Ok u.

(** An update whose fields have their widths, and whose encodings are within the limits of
    the receiver. *)
Record transmissible (u : StateUpdate) : Prop := {
  tr_wf : wf_update u;
  tr_encoded : len (prost_encode_update u) ≤ MAXIMUM_DECOMPRESSED_BYTES;
  tr_compressed : ∀ c, zlib_compress (prost_encode_update u) = Some c → len c ≤ MAXIMUM_REASSEMBLED_BYTES;
}.

Lemma sealed_update_packets key u ts id (p p' : ClientProtocol) packets :
  client_channel key (secure_channel p) → fits 16 ts → fits 64 id →
  (∀ t, latest_peer_timestamp p = Some t → fits 16 t) →
  seal_update u ts id p = (p', Ok packets) → sealed_as key packets id u.
Proof.
  intros Hkey Hts Hid Hpeer Hseal.
  unfold seal_update in Hseal. rewrite bindM_get in Hseal. unfold bindM, liftM, zoomM in Hseal.
  destruct (encode_compressed_update u) as [c|e|] eqn:He; [|done..]. cbn [map_err] in Hseal.
  unfold seal_fragments, bindM, liftM in Hseal.
  destruct (split c ts _ _) as [frs|e|] eqn:Hsplit; [|done..]. cbn [map_err] in Hseal.
  destruct (seal_each frs (secure_channel p)) as [c' r] eqn:Hseals.
  apply pair_equal_spec in Hseal as [_ Hr]. apply map_err_Ok in Hr as ->.
  assert (fits 16 (default NO_ECHO_TIMESTAMP (latest_peer_timestamp p))) as Hecho.
  { destruct (latest_peer_timestamp p) as [t|]; [by apply Hpeer|].
    unfold fits, NO_ECHO_TIMESTAMP, u16_max. simpl. lia. }
  exists c, ts, (default NO_ECHO_TIMESTAMP (latest_peer_timestamp p)), frs. split_and!; [done..|].
  eapply seal_each_received; [exact Hkey| |exact Hseals]. exact (split_wf _ _ _ _ _ Hts Hecho Hid Hsplit).
Qed.

Lemma sealed_carries key u batch id packets :
  wf_batch batch → delta u = encode_bytes batch → sealed_as key packets id u →
  transmissible u → carries key packets id u.
Proof.
  intros Hb Hdelta (c & st & et & frs & He & Hsplit & Hfr) [Hu Hulen Hclen].
  assert (len c ≤ MAXIMUM_REASSEMBLED_BYTES) as Hc.
  { unfold encode_compressed_update in He. destruct (negb _); [done|]. by apply ok_or_Ok, Hclen in He. }
  exists frs, c. split_and!; [done| |by eapply decode_encode_update].
  intros l f Hl Hf Hall.
  assert (MAXIMUM_REASSEMBLED_BYTES < 2 ^ 64) as Hmaxb by done.
  pose proof (received_push_all c st _ _ _ frs Hsplit Hc Hmaxb l Hl) as Hrc.
  destruct (received_push c st _ _ _ frs Hsplit Hc Hmaxb l _ f Hrc Hf) as [Hrc' ->].
  assert (l ++ [f] ⊆ frs) as Hlf by set_solver.
  etransitivity; [eapply received_complete; eauto|]. by destruct (decide (frs ⊆ l ++ [f])).
Qed.

Lemma sealed_update_carried key u batch ts id (p p' : ClientProtocol) packets :
  client_channel key (secure_channel p) → fits 16 ts → fits 64 id →
  (∀ t, latest_peer_timestamp p = Some t → fits 16 t) →
  wf_batch batch → delta u = encode_bytes batch →
  seal_update u ts id p = (p', Ok packets) →
  sealed_as key packets id u ∧ (transmissible u → carries key packets id u).
Proof.
  intros Hkey Hts Hid Hpeer Hb Hdelta Hseal.
  pose proof (sealed_update_packets key u ts id p p' packets Hkey Hts Hid Hpeer Hseal) as Hs.
  split; [done|]. intros Ht. by eapply sealed_carries.
Qed.
End end_to_end.

(** C18: What [build_update] sends is what a server of the same key receives: each
    packet is authentic to it and carries one fragment; in whatever order the
    fragments arrive, and however often, as soon as all are there the
    reassembled message decodes to the update from the last sent state to the
    new one, and its batch is the one given to [build_update]. *)
Theorem built_update_reaches_server `{Vt100Laws} `{Vte} `{AeadLaws} `{ProstLaws} `{ZlibLaws}
    key (p p' : ClientProtocol) spec ts batch packets :
  wf_protocol p → sent_history spec (sent_states p) (local_instructions p) →
  client_channel key (secure_channel p) →
  fits 16 ts → (∀ t, latest_peer_timestamp p = Some t → fits 16 t) →
  batch_fits p batch → wf_batch batch →
  let u := update_for (last_id spec) (next_local_state p) (latest_remote_state p)
             (confirmed spec) (encode_bytes batch) (local_capabilities p) in
  wf_update u → len (prost_encode_update u) ≤ MAXIMUM_DECOMPRESSED_BYTES →
  (∀ c, zlib_compress (prost_encode_update u) = Some c → len c ≤ MAXIMUM_REASSEMBLED_BYTES) →
  build_update ts batch p = (p', Ok packets) →
  ∃ frs compressed, (server_fragment key) <$> packets = Some <$> frs ∧
    (∀ l f, l ⊆ frs → f ∈ frs → frs ⊆ l ++ [f] →
       snd (push f (push_all (accumulator_new (next_local_state p) MAXIMUM_REASSEMBLED_BYTES) l))
       = Ok (Some compressed)) ∧
    decode_compressed_update compressed = Ok u ∧ decode_instructions u = Ok batch.
Proof.
  intros Hp Hs Hkey Hts Hpeer Hfit Hb u Hu Hulen Hclen Hbuild.
  unfold build_update in Hbuild. rewrite bindM_get in Hbuild.
  destruct (Z.eqb_spec (next_local_state p) u64_max) as [|Hmax]; [done|].
  unfold bindM at 1 in Hbuild.
  rewrite (build_state_update_eq ts batch (next_local_state p) p spec Hs Hfit) in Hbuild.
  fold u in Hbuild.
  destruct (seal_update u ts (next_local_state p) p) as [p1 r] eqn:Hseal.
  destruct r as [pk|e|]; [|done..]. apply pair_equal_spec in Hbuild as [_ Hbuild].
  apply Ok_inj in Hbuild as ->.
  assert (fits 64 (next_local_state p)) as Hnext
    by (pose proof (wf_next p Hp); unfold u64_max in *; unfold fits; lia).
  destruct (sealed_update_carried key u batch ts (next_local_state p) p p1 packets
    Hkey Hts Hnext Hpeer Hb eq_refl Hseal) as [_ Hcar].
  destruct Hcar as (frs & c & Hfr & Hre & Hde); [by split|].
  exists frs, c. split_and!; [done..|]. by apply decode_instructions_encode.
Qed.
