(* ===== verification/Runtime.v ===== *)
(** * The session runtime

    The model of [crates/ferrumtty-runtime/src/lib.rs]: the deterministic,
    host-driven runtime around the client protocol.  Time is a number of
    milliseconds the host supplies.  The methods on [&mut self] are computations
    of the monad [M] over [SessionRuntime]; the actions a method returns are the
    effects the host applies in order. *)
From S2P Require Import Prelude Emulators Fragment Message Crypto State Session.
Local Open Scope Z_scope.

Definition INITIAL_RETRANSMIT_MILLISECONDS : Z := 1000.
Definition MINIMUM_RETRANSMIT_MILLISECONDS : Z := 250.
Definition MAXIMUM_RETRANSMIT_MILLISECONDS : Z := 10000.
Definition SERVER_UNRESPONSIVE_MILLISECONDS : Z := 30000.
Definition MAXIMUM_QUEUED_INPUT_BYTES : Z := 1024 * 1024.
Definition SHUTDOWN_RETRY_LIMIT : Z := 16.
Definition SHUTDOWN_TIMEOUT_MILLISECONDS : Z := 10000.

(** [MonotonicTime] is its number of milliseconds. *)
Abbreviation MonotonicTime := Z.
Definition elapsed_since (self earlier : MonotonicTime) : Z := saturating_sub self earlier.

Inductive ShutdownOutcome := Acknowledged | OutcomePeerRequested | TimedOut.
Inductive SessionLifecycle := Running | Paused | Cancelled.
Inductive ConnectionState := Connecting | Connected | Interrupted.
Inductive ShutdownState :=
| Open
| LocalRequested (started_at : MonotonicTime) (transmissions : Z)
| PeerRequested
| Complete (outcome : ShutdownOutcome).
Inductive AssociationState := Due | Sent.

#[export] Instance ShutdownOutcome_eq_dec : EqDecision ShutdownOutcome.
Proof. solve_decision. Defined.
#[export] Instance SessionLifecycle_eq_dec : EqDecision SessionLifecycle.
Proof. solve_decision. Defined.
#[export] Instance ConnectionState_eq_dec : EqDecision ConnectionState.
Proof. solve_decision. Defined.
#[export] Instance ShutdownState_eq_dec : EqDecision ShutdownState.
Proof. solve_decision. Defined.
#[export] Instance AssociationState_eq_dec : EqDecision AssociationState.
Proof. solve_decision. Defined.

Inductive DiagnosticEvent :=
| DiagConnectionStateChanged (state : ConnectionState)
| FreshUpdatePrepared (state_id datagram_count datagram_bytes instruction_count input_bytes : Z)
| RetransmissionPrepared (state_id datagram_count datagram_bytes retransmit_delay_milliseconds : Z)
| InboundUpdateAccepted (packet_counter base_state target_state acknowledged_state discard_before
    delta_bytes : Z) (advances_remote_state : bool)
| RoundTripUpdated (milliseconds : Z)
| DiagSessionLifecycleChanged (state : SessionLifecycle)
| DiagUdpBindingChanged (generation : Z)
| ShutdownStarted
| DiagShutdownComplete (outcome : ShutdownOutcome).

Inductive SessionAction :=
| SendDatagram (datagram : bytes)
| WriteTerminal (text : bytes)
| ResizeTerminal (columns rows : Z)
| AcknowledgePrediction (value : Z)
| RemoteStateAdvanced (value : Z)
| ConnectionStateChanged (state : ConnectionState)
| RoundTripEstimate (value : Z)
| CapabilitiesChanged (value : bytes)
| RemoteSessionControl (kind : Z) (payload : bytes)
| SessionLifecycleChanged (state : SessionLifecycle)
| ShutdownComplete (outcome : ShutdownOutcome)
| UdpBindingChanged (generation : Z)
| Diagnostic (event : DiagnosticEvent).

Inductive TerminalInputEvent :=
| InputBytes (value : bytes)
| InputResize (columns rows : Z).

Inductive RuntimeError :=
| InputQueueFull
| CapabilityNotNegotiated
| SessionPaused
| SessionCancelled
| ShutdownInProgress
| RuntimeSession (e : SessionError)
| RuntimeMessage (e : MessageError).

(** ** What [Debug] prints

    The derived and the handwritten [fmt] of the actions. *)
Definition show_outcome (o : ShutdownOutcome) : bytes :=
  match o with
  | Acknowledged => lit "Acknowledged"
  | OutcomePeerRequested => lit "PeerRequested"
  | TimedOut => lit "TimedOut"
  end.
Definition show_lifecycle (l : SessionLifecycle) : bytes :=
  match l with Running => lit "Running" | Paused => lit "Paused" | Cancelled => lit "Cancelled" end.
Definition show_connection (c : ConnectionState) : bytes :=
  match c with
  | Connecting => lit "Connecting"
  | Connected => lit "Connected"
  | Interrupted => lit "Interrupted"
  end.

Definition show_diagnostic (event : DiagnosticEvent) : bytes :=
  match event with
  | DiagConnectionStateChanged state =>
      debug_struct "ConnectionStateChanged" [("state"%string, show_connection state)]
  | FreshUpdatePrepared id count size instr input =>
      debug_struct "FreshUpdatePrepared"
        [("state_id"%string, decimal id); ("datagram_count"%string, decimal count);
         ("datagram_bytes"%string, decimal size); ("instruction_count"%string, decimal instr);
         ("input_bytes"%string, decimal input)]
  | RetransmissionPrepared id count size delay =>
      debug_struct "RetransmissionPrepared"
        [("state_id"%string, decimal id); ("datagram_count"%string, decimal count);
         ("datagram_bytes"%string, decimal size);
         ("retransmit_delay_milliseconds"%string, decimal delay)]
  | InboundUpdateAccepted counter base target ack discard delta adv =>
      debug_struct "InboundUpdateAccepted"
        [("packet_counter"%string, decimal counter); ("base_state"%string, decimal base);
         ("target_state"%string, decimal target); ("acknowledged_state"%string, decimal ack);
         ("discard_before"%string, decimal discard); ("delta_bytes"%string, decimal delta);
         ("advances_remote_state"%string, show_bool adv)]
  | RoundTripUpdated ms => debug_struct "RoundTripUpdated" [("milliseconds"%string, decimal ms)]
  | DiagSessionLifecycleChanged state =>
      debug_struct "SessionLifecycleChanged" [("state"%string, show_lifecycle state)]
  | DiagUdpBindingChanged generation =>
      debug_struct "UdpBindingChanged" [("generation"%string, decimal generation)]
  | ShutdownStarted => lit "ShutdownStarted"
  | DiagShutdownComplete outcome =>
      debug_struct "ShutdownComplete" [("outcome"%string, show_outcome outcome)]
  end.

Definition SessionAction_fmt (self : SessionAction) : bytes :=
  match self with
  | SendDatagram datagram => debug_struct "SendDatagram" [("bytes"%string, decimal (len datagram))]
  | WriteTerminal text => debug_struct "WriteTerminal" [("bytes"%string, decimal (len text))]
  | ResizeTerminal columns rows =>
      debug_struct "ResizeTerminal" [("columns"%string, decimal columns); ("rows"%string, decimal rows)]
  | AcknowledgePrediction value => debug_tuple "AcknowledgePrediction" (decimal value)
  | RemoteStateAdvanced value => debug_tuple "RemoteStateAdvanced" (decimal value)
  | ConnectionStateChanged value => debug_tuple "ConnectionStateChanged" (show_connection value)
  | RoundTripEstimate value => debug_tuple "RoundTripEstimate" (decimal value)
  | CapabilitiesChanged value => debug_struct "CapabilitiesChanged" [("bytes"%string, decimal (len value))]
  | RemoteSessionControl kind payload =>
      debug_struct "RemoteSessionControl"
        [("kind"%string, decimal kind); ("payload_bytes"%string, decimal (len payload))]
  | SessionLifecycleChanged value => debug_tuple "SessionLifecycleChanged" (show_lifecycle value)
  | ShutdownComplete value => debug_tuple "ShutdownComplete" (show_outcome value)
  | UdpBindingChanged value => debug_tuple "UdpBindingChanged" (decimal value)
  | Diagnostic value => debug_tuple "Diagnostic" (show_diagnostic value)
  end.

Definition TerminalInputEvent_fmt (self : TerminalInputEvent) : bytes :=
  match self with
  | InputBytes value => debug_struct "Bytes" [("length"%string, decimal (len value))]
  | InputResize columns rows =>
      debug_struct "Resize" [("columns"%string, decimal columns); ("rows"%string, decimal rows)]
  end.

#[export] Instance eta_Instruction : Eta Instruction := λ i,
  mkInstruction (instr_bytes i) (viewport i) (marker i) (session_control i).
#[export] Instance upd_viewport : Update viewport := ltac:(solve_update).

(** ** The state of the runtime *)
Record SessionRuntime `{Vt100} := mkSessionRuntime {
  protocol : ClientProtocol;
  queued_instructions : list Instruction;
  queued_input_bytes : Z;
  last_send : option MonotonicTime;
  last_receive : MonotonicTime;
  retransmit_milliseconds : Z;
  smoothed_round_trip_milliseconds : option Z;
  round_trip_variation_milliseconds : Z;
  association : AssociationState;
  acknowledgement_due : bool;
  received_server_state : bool;
  round_trip_milliseconds : option Z;
  connection_state : ConnectionState;
  lifecycle : SessionLifecycle;
  udp_binding_generation : Z;
  shutdown : ShutdownState;
  peer_shutdown_acknowledgement_due : bool;
}.

#[export] Instance eta_SessionRuntime `{Vt100} : Eta SessionRuntime := λ r,
  mkSessionRuntime _ (protocol r) (queued_instructions r) (queued_input_bytes r) (last_send r)
    (last_receive r) (retransmit_milliseconds r) (smoothed_round_trip_milliseconds r)
    (round_trip_variation_milliseconds r) (association r) (acknowledgement_due r)
    (received_server_state r) (round_trip_milliseconds r) (connection_state r) (lifecycle r)
    (udp_binding_generation r) (shutdown r) (peer_shutdown_acknowledgement_due r).
#[export] Instance upd_protocol `{Vt100} : Update protocol := ltac:(solve_update).
#[export] Instance upd_queued_instructions `{Vt100} : Update queued_instructions := ltac:(solve_update).
#[export] Instance upd_queued_input_bytes `{Vt100} : Update queued_input_bytes := ltac:(solve_update).
#[export] Instance upd_last_send `{Vt100} : Update last_send := ltac:(solve_update).
#[export] Instance upd_last_receive `{Vt100} : Update last_receive := ltac:(solve_update).
#[export] Instance upd_retransmit_milliseconds `{Vt100} : Update retransmit_milliseconds := ltac:(solve_update).
#[export] Instance upd_smoothed `{Vt100} : Update smoothed_round_trip_milliseconds := ltac:(solve_update).
#[export] Instance upd_variation `{Vt100} : Update round_trip_variation_milliseconds := ltac:(solve_update).
#[export] Instance upd_association `{Vt100} : Update association := ltac:(solve_update).
#[export] Instance upd_acknowledgement_due `{Vt100} : Update acknowledgement_due := ltac:(solve_update).
#[export] Instance upd_received_server_state `{Vt100} : Update received_server_state := ltac:(solve_update).
#[export] Instance upd_round_trip `{Vt100} : Update round_trip_milliseconds := ltac:(solve_update).
#[export] Instance upd_connection_state `{Vt100} : Update connection_state := ltac:(solve_update).
#[export] Instance upd_lifecycle `{Vt100} : Update lifecycle := ltac:(solve_update).
#[export] Instance upd_udp_binding `{Vt100} : Update udp_binding_generation := ltac:(solve_update).
#[export] Instance upd_shutdown `{Vt100} : Update shutdown := ltac:(solve_update).
#[export] Instance upd_peer_shutdown `{Vt100} : Update peer_shutdown_acknowledgement_due := ltac:(solve_update).

(** ** Helper functions of the module *)
Definition lifecycle_actions (state : SessionLifecycle) : list SessionAction :=
  [SessionLifecycleChanged state; Diagnostic (DiagSessionLifecycleChanged state)].

Definition total_packet_bytes (packets : list bytes) : Z :=
  foldl (λ total packet, saturating_add 64 total (len packet)) 0 packets.

Definition fresh_update_diagnostic (state_id : Z) (packets : list bytes)
    (instruction_count input_bytes : Z) : DiagnosticEvent :=
  FreshUpdatePrepared state_id (len packets) (total_packet_bytes packets) instruction_count input_bytes.

Definition retransmission_diagnostic (state_id : Z) (packets : list bytes)
    (retransmit_delay_milliseconds : Z) : DiagnosticEvent :=
  RetransmissionPrepared state_id (len packets) (total_packet_bytes packets)
    retransmit_delay_milliseconds.

Definition timestamp (now : MonotonicTime) : Z := Z.land now u16_max.

Definition send_actions (packets : list bytes) : list SessionAction := SendDatagram <$> packets.

(** The effects of one instruction in [receive_datagram]. *)
Definition instruction_actions (instruction : Instruction) : list SessionAction :=
  match instr_bytes instruction with Some b => [WriteTerminal (run_value b)] | None => [] end
  ++ match viewport instruction with
     | Some vp =>
         match try_into 16 (columns vp), try_into 16 (rows vp) with
         | Some columns, Some rows => [ResizeTerminal columns rows]
         | _, _ => []
         end
     | None => []
     end
  ++ match marker instruction with
     | Some m => [AcknowledgePrediction (marker_value m)]
     | None => []
     end
  ++ match session_control instruction with
     | Some c => [RemoteSessionControl (kind c) (payload c)]
     | None => []
     end.

Definition RuntimeError_fmt (debug_session : SessionError → bytes) (debug_message : MessageError → bytes)
    (self : RuntimeError) : bytes :=
  match self with
  | InputQueueFull => lit "terminal input queue is full"
  | CapabilityNotNegotiated => lit "session-control capability was not negotiated"
  | SessionPaused => lit "session is paused"
  | SessionCancelled => lit "session is cancelled"
  | ShutdownInProgress => lit "session shutdown is in progress"
  | RuntimeSession error => lit "session protocol failed: " ++ debug_session error
  | RuntimeMessage error => lit "session message failed: " ++ debug_message error
  end.

(** ** The operations of the runtime *)
Section operations.
Context `{Vt100} `{Vte} `{Aead} `{Prost} `{Zlib}.
Abbreviation RM := (M SessionRuntime RuntimeError).

(** An operation of [self.protocol], with [map_err(RuntimeError::Session)]. *)
Definition on_protocol {A} (m : M ClientProtocol SessionError A) : RM A :=
  zoomM protocol (λ p self, self <| protocol := p |>) RuntimeSession m.

Definition runtime_new (key : SessionKey) (now : MonotonicTime) : outcome SessionError SessionRuntime :=
  let? p := protocol_new key in
  Ok {|
    protocol := p;
    queued_instructions := [];
    queued_input_bytes := 0;
    last_send := None;
    last_receive := now;
    retransmit_milliseconds := INITIAL_RETRANSMIT_MILLISECONDS;
    smoothed_round_trip_milliseconds := None;
    round_trip_variation_milliseconds := 0;
    association := Due;
    acknowledgement_due := false;
    received_server_state := false;
    round_trip_milliseconds := None;
    connection_state := Connecting;
    lifecycle := Running;
    udp_binding_generation := 0;
    shutdown := Open;
    peer_shutdown_acknowledgement_due := false;
  |}.

Definition ensure_running : RM unit :=
  let! self := getM in
  match lifecycle self with
  | Running => retM tt
  | Paused => errM SessionPaused
  | Cancelled => errM SessionCancelled
  end.

Definition ensure_accepting_input : RM unit :=
  ensure_running ;!
  let! self := getM in
  if negb (bool_decide (shutdown self = Open)) then errM ShutdownInProgress else retM tt.

(** The bound on the queued bytes, as [queue_input] and [queue_session_control]
    compute it. *)
Definition reserve_input (size : Z) : RM unit :=
  let! self := getM in
  let! new_size := liftM (ok_or InputQueueFull (checked_add 64 (queued_input_bytes self) size)) in
  if MAXIMUM_QUEUED_INPUT_BYTES <? new_size then errM InputQueueFull
  else modM (λ self, self <| queued_input_bytes := new_size |>).

Definition queue_input (input : bytes) : RM unit :=
  ensure_accepting_input ;!
  reserve_input (len input) ;!
  modM (λ self, self <| queued_instructions ::= λ l, l ++ [{|
    instr_bytes := Some {| run_value := input |};
    viewport := None; marker := None; session_control := None |}] |>).

(** The test on the last queued instruction, a resize and nothing else. *)
Definition is_resize (last : Instruction) : bool :=
  negb (is_some (instr_bytes last)) && negb (is_some (marker last))
  && negb (is_some (session_control last)) && is_some (viewport last).

Definition queue_resize (columns rows : Z) : RM unit :=
  let! self := getM in
  if negb (bool_decide (lifecycle self = Running)) || negb (bool_decide (shutdown self = Open))
  then retM tt
  else
    let! p := liftM (map_err RuntimeSession
      (set_initial_remote_viewport columns rows (protocol self))) in
    modM (λ self, self <| protocol := p |>) ;!
    let size := {| columns := columns; rows := rows |} in
    let! self := getM in
    let previous_is_resize := is_some_and is_resize (last (queued_instructions self)) in
    if previous_is_resize then
      modM (λ self, self <| queued_instructions ::=
        λ l, alter (λ last, last <| viewport := Some size |>) (length l - 1)%nat l |>)
    else
      modM (λ self, self <| queued_instructions ::= λ l, l ++ [{|
        instr_bytes := None; viewport := Some size; marker := None; session_control := None |}] |>).

Definition queue_terminal_event (event : TerminalInputEvent) : RM unit :=
  ensure_accepting_input ;!
  match event with
  | InputBytes input => queue_input input
  | InputResize columns rows => queue_resize columns rows ;! retM tt
  end.

Definition runtime_set_local_capabilities (caps : bytes) (self : SessionRuntime) : SessionRuntime :=
  self <| protocol ::= set_local_capabilities caps |>.

Definition runtime_remote_capabilities (self : SessionRuntime) : bytes :=
  remote_capabilities (protocol self).

Definition runtime_has_negotiated_capability (self : SessionRuntime) (capability : Z) : bool :=
  has_negotiated_capability (protocol self) capability.

Definition queue_session_control (control_kind : Z) (control_payload : bytes) : RM unit :=
  ensure_accepting_input ;!
  let! self := getM in
  if negb (runtime_has_negotiated_capability self SESSION_CONTROL_CAPABILITY)
  then errM CapabilityNotNegotiated
  else
    reserve_input (len control_payload) ;!
    modM (λ self, self <| queued_instructions ::= λ l, l ++ [{|
      instr_bytes := None; viewport := None; marker := None;
      session_control := Some {| kind := control_kind; payload := control_payload |} |}] |>).

Definition pause : RM (list SessionAction) :=
  let! self := getM in
  if negb (bool_decide (lifecycle self = Running)) then retM []
  else
    modM (λ self, self <| lifecycle := Paused |>) ;!
    retM (lifecycle_actions Paused).

Definition cancel : RM (list SessionAction) :=
  let! self := getM in
  if bool_decide (lifecycle self = Cancelled) then retM []
  else
    modM (λ self, self <| lifecycle := Cancelled |>) ;!
    modM (λ self, self <| queued_instructions := [] |>) ;!
    modM (λ self, self <| queued_input_bytes := 0 |>) ;!
    retM (lifecycle_actions Cancelled).

Definition request_shutdown (now : MonotonicTime) : RM (list SessionAction) :=
  ensure_running ;!
  let! self := getM in
  if bool_decide (shutdown self = Open) then
    modM (λ self, self <| shutdown := LocalRequested now 0 |>) ;!
    retM [Diagnostic ShutdownStarted]
  else retM [].

Definition notify_udp_rebound : RM (list SessionAction) :=
  let! self := getM in
  if bool_decide (lifecycle self = Cancelled) then retM []
  else
    modM (λ self, self <| udp_binding_generation ::= λ g, saturating_add 64 g 1 |>) ;!
    modM (λ self, self <| last_send := None |>) ;!
    let! self := getM in
    retM [UdpBindingChanged (udp_binding_generation self);
          Diagnostic (DiagUdpBindingChanged (udp_binding_generation self))].

Definition resume_state (now : MonotonicTime) : RM unit :=
  let! self := getM in
  if bool_decide (lifecycle self = Cancelled) then retM tt
  else
    modM (λ self, self <| lifecycle := Running |>) ;!
    modM (λ self, self <| last_receive := now |>) ;!
    modM (λ self, self <| last_send := None |>).

Definition resume (now : MonotonicTime) : RM unit := resume_state now.

Definition resume_with_actions (now : MonotonicTime) : RM (list SessionAction) :=
  let! self := getM in
  if bool_decide (lifecycle self = Cancelled) then retM []
  else
    let was_paused := bool_decide (lifecycle self = Paused) in
    resume_state now ;!
    if was_paused then retM (lifecycle_actions Running) else retM [].

(** *** Round-trip time *)
Definition update_retransmit_timeout (sample : Z) (self : SessionRuntime) : SessionRuntime :=
  let self :=
    match smoothed_round_trip_milliseconds self with
    | Some smoothed =>
        let difference := abs_diff smoothed sample in
        (self <| round_trip_variation_milliseconds ::= λ v,
                   saturating_add 64 (saturating_mul 64 v 3) difference / 4 |>)
             <| smoothed_round_trip_milliseconds := Some
                  (saturating_add 64 (saturating_mul 64 smoothed 7) sample / 8) |>
    | None =>
        (self <| smoothed_round_trip_milliseconds := Some sample |>)
             <| round_trip_variation_milliseconds := sample / 2 |>
    end in
  let smoothed := default sample (smoothed_round_trip_milliseconds self) in
  self <| retransmit_milliseconds :=
    clamp MINIMUM_RETRANSMIT_MILLISECONDS MAXIMUM_RETRANSMIT_MILLISECONDS
      (saturating_add 64 smoothed
         (saturating_mul 64 (round_trip_variation_milliseconds self) 4)) |>.

Definition record_round_trip_sample (milliseconds : Z) : RM (list SessionAction) :=
  modM (update_retransmit_timeout milliseconds) ;!
  let! self := getM in
  if bool_decide (round_trip_milliseconds self = Some milliseconds) then retM []
  else
    modM (λ self, self <| round_trip_milliseconds := Some milliseconds |>) ;!
    retM [RoundTripEstimate milliseconds; Diagnostic (RoundTripUpdated milliseconds)].

(** *** Receiving *)

(** The connection becomes [Connected], with its two actions the first time. *)
Definition mark_connected : RM (list SessionAction) :=
  let! self := getM in
  if negb (bool_decide (connection_state self = Connected)) then
    modM (λ self, self <| connection_state := Connected |>) ;!
    retM [ConnectionStateChanged Connected; Diagnostic (DiagConnectionStateChanged Connected)]
  else retM [].

(** The round-trip sample of an echoed timestamp. *)
Definition sample_echo (echoed : Z) (now : MonotonicTime) : RM (list SessionAction) :=
  if negb (echoed =? u16_max) then
    let elapsed := wrapping_sub 16 (timestamp now) echoed in
    if elapsed <=? 30000 then record_round_trip_sample elapsed else retM []
  else retM [].

(** The flags set for a state of the server. *)
Definition note_state (state : ReceivedState) : RM unit :=
  modM (λ self, self <| acknowledgement_due ::= λ due, due || advances_remote_state state |>) ;!
  modM (λ self, self <| received_server_state := true |>) ;!
  if target_state (rs_update state) =? u64_max then
    modM (λ self, self <| peer_shutdown_acknowledgement_due := true |>) ;!
    let! self := getM in
    if bool_decide (shutdown self = Open)
    then modM (λ self, self <| shutdown := PeerRequested |>) else retM tt
  else retM tt.

Definition accepted_diagnostic (state : ReceivedState) : SessionAction :=
  Diagnostic (InboundUpdateAccepted (rs_packet_counter state) (base_state (rs_update state))
    (target_state (rs_update state)) (acknowledged_state (rs_update state))
    (discard_before (rs_update state)) (len (delta (rs_update state)))
    (advances_remote_state state)).

Definition receive_datagram (packet : bytes) (now : MonotonicTime) : RM (list SessionAction) :=
  ensure_running ;!
  let! self := getM in
  let previous_capabilities := remote_capabilities (protocol self) in
  let! receipt := on_protocol (ingest_packet packet) in
  modM (λ self, self <| last_receive := now |>) ;!
  let! self := getM in
  let actions :=
    if negb (bool_decide (remote_capabilities (protocol self) = previous_capabilities))
    then [CapabilitiesChanged (remote_capabilities (protocol self))] else [] in
  let! connected := mark_connected in
  let actions := actions ++ connected in
  let! sampled := sample_echo (pr_echoed_timestamp receipt) now in
  let actions := actions ++ sampled in
  match pr_state receipt with
  | None => retM actions
  | Some state =>
      note_state state ;!
      let actions := actions ++ [accepted_diagnostic state] in
      if negb (advances_remote_state state) then retM actions
      else
        let actions := actions ++ [RemoteStateAdvanced (target_state (rs_update state))] in
        let! batch := liftM (map_err RuntimeMessage (decode_instructions (rs_update state))) in
        retM (actions ++ mjoin (instruction_actions <$> instructions batch))
  end.

Definition receive_datagram_lossy (packet : bytes) (now : MonotonicTime) : RM (list SessionAction) :=
  λ self, match receive_datagram packet now self with
          | (self, Err _) => (self, Ok [])
          | r => r
          end.

(** *** Timers *)
Definition is_server_responsive (self : SessionRuntime) (now : MonotonicTime) : bool :=
  elapsed_since now (last_receive self) <? SERVER_UNRESPONSIVE_MILLISECONDS.

Definition milliseconds_since_server_response (self : SessionRuntime) (now : MonotonicTime) : Z :=
  elapsed_since now (last_receive self).

Definition prediction_frame_id (self : SessionRuntime) : Z := next_local_state (protocol self).

Definition shutdown_outcome (self : SessionRuntime) : option ShutdownOutcome :=
  match shutdown self with Complete outcome => Some outcome | _ => None end.

Definition shutdown_in_progress (self : SessionRuntime) : bool :=
  match shutdown self with Open | Complete _ => false | _ => true end.

Definition connection_state_action (now : MonotonicTime) : RM (option ConnectionState) :=
  let! self := getM in
  if bool_decide (connection_state self = Connected) && negb (is_server_responsive self now) then
    modM (λ self, self <| connection_state := Interrupted |>) ;!
    retM (Some Interrupted)
  else retM None.

Definition shutdown_timed_out (now : MonotonicTime) (self : SessionRuntime) : bool :=
  match shutdown self with
  | LocalRequested started_at transmissions =>
      (SHUTDOWN_RETRY_LIMIT <=? transmissions)
      || (SHUTDOWN_TIMEOUT_MILLISECONDS <=? elapsed_since now started_at)
  | _ => false
  end.

Definition record_shutdown_transmission (self : SessionRuntime) : SessionRuntime :=
  match shutdown self with
  | LocalRequested started_at transmissions =>
      self <| shutdown := LocalRequested started_at (saturating_add 8 transmissions 1) |>
  | _ => self
  end.

Definition complete_shutdown (outcome : ShutdownOutcome) : RM (list SessionAction) :=
  modM (λ self, self <| shutdown := Complete outcome |>) ;!
  retM [ShutdownComplete outcome; Diagnostic (DiagShutdownComplete outcome)].

Definition complete_peer_shutdown_after_ack (actions : list SessionAction) : RM (list SessionAction) :=
  let! self := getM in
  if peer_shutdown_acknowledgement_due self then
    modM (λ self, self <| peer_shutdown_acknowledgement_due := false |>) ;!
    let! completed := complete_shutdown OutcomePeerRequested in
    retM (actions ++ completed)
  else retM actions.

(** [matches!(self.shutdown, LocalRequested { .. }) && !self.protocol.local_shutdown_sent()]. *)
Definition local_shutdown_unsent (self : SessionRuntime) : bool :=
  match shutdown self with LocalRequested _ _ => true | _ => false end
  && negb (local_shutdown_sent (protocol self)).

Definition shutdown_ack_due (self : SessionRuntime) : bool :=
  peer_shutdown_acknowledgement_due self && local_shutdown_acknowledged (protocol self).

Definition build_queued_update (now : MonotonicTime) : RM (list bytes * DiagnosticEvent) :=
  let! self := getM in
  let state_id := if local_shutdown_unsent self || shutdown_ack_due self
                  then u64_max else next_local_state (protocol self) in
  let input_bytes := queued_input_bytes self in
  let batch := {| instructions := queued_instructions self |} in
  modM (λ self, self <| queued_instructions := [] |>) ;!
  let instruction_count := len (instructions batch) in
  modM (λ self, self <| queued_input_bytes := 0 |>) ;!
  modM (λ self, self <| acknowledgement_due := false |>) ;!
  let! packets :=
    if shutdown_ack_due self then on_protocol (build_shutdown_ack (timestamp now))
    else if local_shutdown_unsent self then on_protocol (build_shutdown (timestamp now) batch)
    else on_protocol (build_update (timestamp now) batch) in
  modM (λ self, self <| last_send := Some now |>) ;!
  retM (packets, fresh_update_diagnostic state_id packets instruction_count input_bytes).

(** *** Polling *)

(** The association datagram, sent once. *)
Definition poll_association (now : MonotonicTime) : RM (list SessionAction) :=
  let! self := getM in
  if bool_decide (association self = Due) then
    let! packets := on_protocol (build_association (timestamp now)) in
    let diagnostic := fresh_update_diagnostic 0 packets 0 0 in
    modM (λ self, self <| association := Sent |>) ;!
    modM (λ self, self <| last_send := Some now |>) ;!
    retM (send_actions packets ++ [Diagnostic diagnostic])
  else retM [].

(** [self.last_send.is_none_or(|last_send| ..)]: the retransmission timer expired. *)
Definition send_timer_expired (now : MonotonicTime) (self : SessionRuntime) : bool :=
  match last_send self with
  | Some last_send => retransmit_milliseconds self <=? elapsed_since now last_send
  | None => true
  end.

(** The queued update or the shutdown state, as [poll] sends it. *)
Definition poll_queued (now : MonotonicTime) (actions : list SessionAction)
    : RM (list SessionAction) :=
  let! (packets, diagnostic) := build_queued_update now in
  modM record_shutdown_transmission ;!
  complete_peer_shutdown_after_ack (actions ++ send_actions packets ++ [Diagnostic diagnostic]).

(** The pending update, resent when the timer expired or an acknowledgement is due. *)
Definition poll_pending (now : MonotonicTime) (actions : list SessionAction)
    : RM (list SessionAction) :=
  let! self := getM in
  if negb (acknowledgement_due self) && negb (send_timer_expired now self) then retM actions
  else
    let! packets := on_protocol (retransmit_pending (timestamp now)) in
    let! self := getM in
    let diagnostic := retransmission_diagnostic (latest_local_state (protocol self)) packets
                        (retransmit_milliseconds self) in
    modM (λ self, self <| last_send := Some now |>) ;!
    modM (λ self, self <| acknowledgement_due := false |>) ;!
    modM record_shutdown_transmission ;!
    complete_peer_shutdown_after_ack (actions ++ send_actions packets ++ [Diagnostic diagnostic]).

(** The acknowledgement or heartbeat when nothing else is to be sent. *)
Definition poll_idle (now : MonotonicTime) (actions : list SessionAction)
    : RM (list SessionAction) :=
  let! self := getM in
  let heartbeat_due := send_timer_expired now self in
  if negb (acknowledgement_due self) && negb heartbeat_due then retM actions
  else
    let! packets := on_protocol (build_acknowledgement (timestamp now)) in
    let! self := getM in
    let diagnostic := fresh_update_diagnostic (latest_local_state (protocol self)) packets 0 0 in
    modM (λ self, self <| last_send := Some now |>) ;!
    modM (λ self, self <| acknowledgement_due := false |>) ;!
    complete_peer_shutdown_after_ack (actions ++ send_actions packets ++ [Diagnostic diagnostic]).

Definition is_complete (s : ShutdownState) : bool :=
  match s with Complete _ => true | _ => false end.

(** What [poll] does after the association datagram. *)
Definition poll_rest (now : MonotonicTime) (actions : list SessionAction)
    : RM (list SessionAction) :=
  let! self := getM in
  if local_shutdown_acknowledged (protocol self) && negb (peer_shutdown_acknowledgement_due self)
  then complete_shutdown Acknowledged
  else if negb (peer_shutdown_acknowledgement_due self) && shutdown_timed_out now self
  then complete_shutdown TimedOut
  else
    let! state := connection_state_action now in
    let actions := actions ++
      match state with
      | Some state => [ConnectionStateChanged state; Diagnostic (DiagConnectionStateChanged state)]
      | None => []
      end in
    let! self := getM in
    let has_queued_state := negb (bool_decide (queued_instructions self = [])) in
    if (has_queued_state || local_shutdown_unsent self) && negb (has_pending_update (protocol self))
    then poll_queued now actions
    else if has_pending_update (protocol self) then poll_pending now actions
    else poll_idle now actions.

Definition poll (now : MonotonicTime) : RM (list SessionAction) :=
  let! self := getM in
  if negb (bool_decide (lifecycle self = Running)) then retM []
  else if is_complete (shutdown self) then retM []
  else
    let! actions := poll_association now in
    poll_rest now actions.

Definition milliseconds_until_next_poll (self : SessionRuntime) (now : MonotonicTime) : Z :=
  if negb (bool_decide (lifecycle self = Running)) || is_complete (shutdown self) then u64_max
  else
    let can_send_queued := negb (has_pending_update (protocol self)) in
    let protocol_wait :=
      if bool_decide (association self = Due)
         || acknowledgement_due self
         || (can_send_queued && negb (bool_decide (queued_instructions self = [])))
         || (local_shutdown_unsent self && can_send_queued)
      then 0
      else if has_pending_update (protocol self) then
        match last_send self with
        | Some last_send => saturating_sub (retransmit_milliseconds self) (elapsed_since now last_send)
        | None => 0
        end
      else
        match last_send self with
        | Some last_send => saturating_sub (retransmit_milliseconds self) (elapsed_since now last_send)
        | None => 0
        end in
    match shutdown self with
    | LocalRequested started_at transmissions =>
        let timeout_wait :=
          if SHUTDOWN_RETRY_LIMIT <=? transmissions then 0
          else saturating_sub SHUTDOWN_TIMEOUT_MILLISECONDS (elapsed_since now started_at) in
        Z.min protocol_wait timeout_wait
    | _ => protocol_wait
    end.

(** ** The host

    Every call a host can make on a runtime. *)
Inductive HostCall :=
| CallQueueEvent (event : TerminalInputEvent)
| CallQueueInput (input : bytes)
| CallQueueResize (columns rows : Z)
| CallQueueControl (kind : Z) (payload : bytes)
| CallCapabilities (caps : bytes)
| CallPause
| CallCancel
| CallShutdown (now : MonotonicTime)
| CallRebound
| CallResume (now : MonotonicTime)
| CallResumeActions (now : MonotonicTime)
| CallReceive (packet : bytes) (now : MonotonicTime)
| CallReceiveLossy (packet : bytes) (now : MonotonicTime)
| CallPoll (now : MonotonicTime).

Definition no_actions (m : RM unit) : RM (list SessionAction) := m ;! retM [].

Definition call (c : HostCall) : RM (list SessionAction) :=
  match c with
  | CallQueueEvent event => no_actions (queue_terminal_event event)
  | CallQueueInput input => no_actions (queue_input input)
  | CallQueueResize columns rows => no_actions (queue_resize columns rows)
  | CallQueueControl kind payload => no_actions (queue_session_control kind payload)
  | CallCapabilities caps => no_actions (modM (runtime_set_local_capabilities caps))
  | CallPause => pause
  | CallCancel => cancel
  | CallShutdown now => request_shutdown now
  | CallRebound => notify_udp_rebound
  | CallResume now => no_actions (resume now)
  | CallResumeActions now => resume_with_actions now
  | CallReceive packet now => receive_datagram packet now
  | CallReceiveLossy packet now => receive_datagram_lossy packet now
  | CallPoll now => poll now
  end.

(** A host's calls one after the other: what each returned, and the state at the end. *)
Fixpoint calls (l : list HostCall) (self : SessionRuntime)
    : list (outcome RuntimeError (list SessionAction)) * SessionRuntime :=
  match l with
  | [] => ([], self)
  | c :: l =>
      let '(self, r) := call c self in
      let '(rs, self) := calls l self in (r :: rs, self)
  end.
End operations.

(** ** Equations of the operations *)
Section equations.
Context `{Vt100} `{Vte} `{Aead} `{Prost} `{Zlib}.
Implicit Types rt : SessionRuntime.

Lemma on_protocol_eq {A} (m : M ClientProtocol SessionError A) rt :
  on_protocol m rt =
  (rt <| protocol := fst (m (protocol rt)) |>, map_err RuntimeSession (snd (m (protocol rt)))).
Proof. unfold on_protocol, zoomM. by destruct (m (protocol rt)). Qed.

(** Why an input is refused, if it is. *)
Definition refusal rt : option RuntimeError :=
  match lifecycle rt with
  | Paused => Some SessionPaused
  | Cancelled => Some SessionCancelled
  | Running => if bool_decide (shutdown rt = Open) then None else Some ShutdownInProgress
  end.

Lemma ensure_accepting_input_eq rt :
  ensure_accepting_input rt =
  (rt, match refusal rt with Some e => Err e | None => Ok tt end).
Proof.
  unfold ensure_accepting_input, ensure_running, refusal, bindM, getM.
  destruct (lifecycle rt); [|done..]. unfold retM at 1.
  by destruct (bool_decide (shutdown rt = Open)).
Qed.

Lemma reserve_input_eq size rt :
  reserve_input size rt =
  if MAXIMUM_QUEUED_INPUT_BYTES <? queued_input_bytes rt + size then (rt, Err InputQueueFull)
  else (rt <| queued_input_bytes := queued_input_bytes rt + size |>, Ok tt).
Proof.
  unfold reserve_input. rewrite bindM_get. unfold checked_add, bindM at 1, liftM at 1.
  destruct (Z.ltb_spec (queued_input_bytes rt + size) (2 ^ 64)) as [Hlt|Hge]; cbn [ok_or].
  - by destruct (MAXIMUM_QUEUED_INPUT_BYTES <? _).
  - rewrite (proj2 (Z.ltb_lt _ _)); [done|]. eapply Z.lt_le_trans; [|exact Hge]. done.
Qed.

(** The instructions of an event that is queued. *)
Definition input_instruction (input : bytes) : Instruction :=
  {| instr_bytes := Some {| run_value := input |}; viewport := None; marker := None;
     session_control := None |}.
Definition resize_instruction (columns rows : Z) : Instruction :=
  {| instr_bytes := None; viewport := Some {| columns := columns; rows := rows |};
     marker := None; session_control := None |}.
Definition control_instruction (control_kind : Z) (control_payload : bytes) : Instruction :=
  {| instr_bytes := None; viewport := None; marker := None;
     session_control := Some {| kind := control_kind; payload := control_payload |} |}.

(** A resize replaces a resize at the end of the queue. *)
Definition queue_push (i : Instruction) (l : list Instruction) : list Instruction :=
  if is_resize i && is_some_and is_resize (last l) then removelast l ++ [i] else l ++ [i].

Definition enqueue (i : Instruction) (size : Z) rt : SessionRuntime * outcome RuntimeError unit :=
  match refusal rt with
  | Some e => (rt, Err e)
  | None =>
      if MAXIMUM_QUEUED_INPUT_BYTES <? queued_input_bytes rt + size then (rt, Err InputQueueFull)
      else ((rt <| queued_input_bytes := queued_input_bytes rt + size |>)
                <| queued_instructions ::= queue_push i |>, Ok tt)
  end.

Lemma queue_input_eq input rt :
  queue_input input rt = enqueue (input_instruction input) (len input) rt.
Proof.
  unfold queue_input, enqueue. unfold bindM at 1. rewrite ensure_accepting_input_eq.
  destruct (refusal rt); [done|]. unfold bindM at 1. rewrite reserve_input_eq.
  by destruct (_ <? _).
Qed.

Lemma queue_session_control_eq k pl rt :
  queue_session_control k pl rt =
  match refusal rt with
  | None => if runtime_has_negotiated_capability rt SESSION_CONTROL_CAPABILITY
            then enqueue (control_instruction k pl) (len pl) rt
            else (rt, Err CapabilityNotNegotiated)
  | Some e => (rt, Err e)
  end.
Proof.
  unfold queue_session_control, enqueue. unfold bindM at 1. rewrite ensure_accepting_input_eq.
  destruct (refusal rt); [done|]. rewrite bindM_get.
  destruct (runtime_has_negotiated_capability _ _); [|done]. cbn [negb].
  unfold bindM at 1. rewrite reserve_input_eq. by destruct (_ <? _).
Qed.

Lemma alter_last (f : Instruction → Instruction) l i :
  last l = Some i → alter f (length l - 1)%nat l = removelast l ++ [f i].
Proof.
  intros Hl. apply last_Some in Hl as (l' & ->). rewrite removelast_last, length_app. simpl.
  replace (length l' + 1 - 1)%nat with (length l' + 0)%nat by lia. by rewrite alter_app_r.
Qed.

Lemma is_resize_spec i : is_resize i = true → ∃ vp, i = mkInstruction None (Some vp) None None.
Proof.
  destruct i as [[b|] [vp|] [mk|] [sc|]]; unfold is_resize; simpl; try done. by exists vp.
Qed.

Lemma queue_resize_eq c r rt :
  queue_resize c r rt =
  match refusal rt with
  | Some _ => (rt, Ok tt)
  | None =>
      match set_initial_remote_viewport c r (protocol rt) with
      | Ok p => ((rt <| protocol := p |>)
                    <| queued_instructions ::= queue_push (resize_instruction c r) |>, Ok tt)
      | Err e => (rt, Err (RuntimeSession e))
      | Panic => (rt, Panic)
      end
  end.
Proof.
  unfold queue_resize, refusal. rewrite bindM_get. destruct (lifecycle rt); [|done..].
  destruct (bool_decide (shutdown rt = Open)); [|done]. cbn [negb orb].
  rewrite bool_decide_eq_true_2 by done. cbn [negb orb]. unfold bindM at 1, liftM at 1.
  destruct (set_initial_remote_viewport _ _ _) as [p|e|]; [|done..]. cbn [map_err].
  rewrite bindM_mod, bindM_get.
  change (queued_instructions (rt <| protocol := p |>)) with (queued_instructions rt).
  assert (∀ f g : list Instruction → list Instruction, f (queued_instructions rt) = g (queued_instructions rt) →
    (rt <| protocol := p |>) <| queued_instructions ::= f |> =
    (rt <| protocol := p |>) <| queued_instructions ::= g |>) as Hext.
  { intros f g Hfg. unfold update, upd_queued_instructions. cbn [queued_instructions].
    change (queued_instructions (upd_protocol _ rt)) with (queued_instructions rt). by rewrite Hfg. }
  unfold modM. destruct (is_some_and is_resize (last (queued_instructions rt))) eqn:Hl;
    (f_equal; apply Hext; unfold queue_push; rewrite Hl; [..|]).
  - apply is_some_and_true in Hl as (i & Hi & Hr). apply is_resize_spec in Hr as [vp ->].
    by rewrite (alter_last _ _ _ Hi).
  - done.
Qed.

Lemma queue_terminal_event_eq event rt :
  queue_terminal_event event rt =
  match refusal rt with
  | Some e => (rt, Err e)
  | None => match event with
            | InputBytes input => enqueue (input_instruction input) (len input) rt
            | InputResize c r => queue_resize c r rt
            end
  end.
Proof.
  unfold queue_terminal_event. unfold bindM at 1. rewrite ensure_accepting_input_eq.
  destruct (refusal rt) eqn:Hr; [done|]. destruct event as [input|c r]; [apply queue_input_eq|].
  unfold bindM. rewrite queue_resize_eq, Hr.
  by destruct (set_initial_remote_viewport _ _ _).
Qed.

(** The bytes an instruction takes of the bound. *)
Definition input_size (i : Instruction) : Z :=
  match instr_bytes i with Some b => len (run_value b) | None => 0 end
  + match session_control i with Some c => len (payload c) | None => 0 end.
Definition queue_bytes (l : list Instruction) : Z := sum_list_Z (input_size <$> l).

Lemma queue_push_bytes i l : queue_bytes (queue_push i l) = queue_bytes l + input_size i.
Proof.
  unfold queue_push, queue_bytes. destruct (is_resize i) eqn:Hi.
  2: { cbn [andb]. rewrite fmap_app, sum_list_Z_app. simpl. lia. }
  apply is_resize_spec in Hi as [vp ->]. cbn [andb].
  destruct (is_some_and is_resize (last l)) eqn:Hl.
  - apply is_some_and_true in Hl as (j & Hj & Hr). apply is_resize_spec in Hr as [vp' ->].
    apply last_Some in Hj as (l' & ->). rewrite removelast_last, !fmap_app, !sum_list_Z_app. simpl. unfold input_size. simpl. lia.
  - rewrite fmap_app, sum_list_Z_app. simpl. lia.
Qed.

Lemma queue_push_length i l : (length (queue_push i l) ≤ S (length l))%nat.
Proof.
  unfold queue_push. destruct (_ && _) eqn:Hb; rewrite length_app; simpl; [|lia].
  apply andb_prop in Hb as [_ Hl]. apply is_some_and_true in Hl as (j & Hj & _).
  apply last_Some in Hj as (l' & ->). rewrite removelast_last, length_app. simpl. lia.
Qed.
End equations.

(** ** The invariant of the runtime *)

(** What the shutdown state says of the pending acknowledgement and of the
    retries; a retry is counted when its datagrams were built. *)
Definition shutdown_ok (s : ShutdownState) (peer_due : bool) : Prop :=
  match s with
  | Open => peer_due = false
  | LocalRequested _ transmissions => 0 ≤ transmissions ≤ SHUTDOWN_RETRY_LIMIT
  | PeerRequested => peer_due = true
  | Complete _ => True
  end.

Definition timer_ok (rto : Z) : Prop :=
  MINIMUM_RETRANSMIT_MILLISECONDS ≤ rto ≤ MAXIMUM_RETRANSMIT_MILLISECONDS.

(** The estimates stay within the largest sample accepted. *)
Definition estimate_ok (smoothed : option Z) (variation : Z) : Prop :=
  (∀ s, smoothed = Some s → 0 ≤ s ≤ 30000) ∧ 0 ≤ variation ≤ 30000.

Section invariant.
Context `{Vt100Laws} `{Vte} `{Aead} `{Prost} `{Zlib} (key : SessionKey).
Implicit Types rt : SessionRuntime.

Record wf_runtime rt : Prop := {
  rt_protocol : protocol_reach key (protocol rt);
  rt_flight : one_in_flight (protocol rt);
  rt_queue : queued_input_bytes rt = queue_bytes (queued_instructions rt);
  rt_queue_bound : queued_input_bytes rt ≤ MAXIMUM_QUEUED_INPUT_BYTES;
  rt_timer : timer_ok (retransmit_milliseconds rt);
  rt_estimate : estimate_ok (smoothed_round_trip_milliseconds rt)
                  (round_trip_variation_milliseconds rt);
  rt_shutdown : shutdown_ok (shutdown rt) (peer_shutdown_acknowledgement_due rt);
}.

Lemma wf_set_protocol rt p :
  wf_runtime rt → protocol_reach key p → one_in_flight p → wf_runtime (rt <| protocol := p |>).
Proof. intros [] Hp Hf. by split. Qed.

Lemma wf_set_queue rt l n :
  wf_runtime rt → n = queue_bytes l → n ≤ MAXIMUM_QUEUED_INPUT_BYTES →
  wf_runtime ((rt <| queued_input_bytes := n |>) <| queued_instructions := l |>).
Proof. intros [] Hn Hb. by split. Qed.

Lemma wf_set_shutdown rt s peer :
  wf_runtime rt → shutdown_ok s peer →
  wf_runtime ((rt <| shutdown := s |>) <| peer_shutdown_acknowledgement_due := peer |>).
Proof. intros [] Hs. by split. Qed.

Lemma wf_reach_protocol rt : wf_runtime rt → wf_protocol (protocol rt).
Proof. intros Hw. eapply protocol_reach_wf, rt_protocol, Hw. Qed.

Lemma runtime_new_ok now : ∃ rt, runtime_new key now = Ok rt ∧ queued_instructions rt = [].
Proof.
  unfold runtime_new, protocol_new.
  destruct (terminal_new DEFAULT_REMOTE_COLUMNS DEFAULT_REMOTE_ROWS) as [s|e|] eqn:Hs; [|done..].
  destruct (clone_wf s (terminal_new_wf _ _ _ Hs)) as (s' & Hc & _). cbn [bind_ok]. rewrite Hc.
  by eexists.
Qed.

Lemma runtime_new_wf now rt : runtime_new key now = Ok rt → wf_runtime rt.
Proof.
  unfold runtime_new. intros Hn. apply bind_ok_Ok in Hn as (p & Hp & [= <-]).
  split; simpl; try done.
  - by constructor.
  - unfold protocol_new in Hp. apply bind_ok_Ok in Hp as (s & _ & Hp).
    apply bind_ok_Ok in Hp as (s' & _ & [= <-]). exists (mkSentSpec 0 []). split; [|simpl; lia].
    split; simpl; [done | repeat constructor | done |]. exists [0%nat]. split_and!; try done.
    repeat constructor.
Qed.

(** *** Queueing *)
Lemma enqueue_wf i rt :
  wf_runtime rt → wf_runtime (fst (enqueue i (input_size i) rt)) ∧
  snd (enqueue i (input_size i) rt) ≠ Panic.
Proof.
  intros Hw. unfold enqueue. destruct (refusal rt); [done|].
  destruct (Z.ltb_spec MAXIMUM_QUEUED_INPUT_BYTES (queued_input_bytes rt + input_size i)); [done|].
  split; [|done]. simpl.
  apply (wf_set_queue rt (queue_push i (queued_instructions rt))); [done| |done].
  by rewrite queue_push_bytes, (rt_queue rt Hw).
Qed.

Lemma queue_resize_wf c r rt :
  fits 16 c → fits 16 r → wf_runtime rt →
  wf_runtime (fst (queue_resize c r rt)) ∧ snd (queue_resize c r rt) ≠ Panic.
Proof.
  intros Hc Hr Hw. rewrite queue_resize_eq. destruct (refusal rt); [done|].
  destruct (set_viewport_wf c r (protocol rt)) as (p & Hp & _); [by apply wf_reach_protocol|done|done|].
  rewrite Hp. split; [|done]. simpl.
  assert (wf_runtime (rt <| protocol := p |>)) as Hw'.
  { apply wf_set_protocol; [done| |].
    - eapply reach_viewport; [by apply rt_protocol|exact Hc|exact Hr|exact Hp].
    - destruct (rt_flight rt Hw) as (spec & Hs & Hl). exists spec. split; [|done].
      unfold set_initial_remote_viewport in Hp. destruct (_ || _); [by injection Hp as <-|].
      destruct (terminal_new _ _) as [s|e|]; [|by injection Hp as <-..].
      apply bind_ok_Ok in Hp as (s' & _ & [= <-]). done. }
  pose proof (wf_set_queue (rt <| protocol := p |>)
    (queue_push (resize_instruction c r) (queued_instructions rt)) (queued_input_bytes rt) Hw') as Hq.
  apply Hq; [|apply (rt_queue_bound rt Hw)].
  rewrite queue_push_bytes, <- (rt_queue rt Hw). unfold input_size. simpl. lia.
Qed.

Lemma queue_terminal_event_wf event rt :
  (∀ c r, event = InputResize c r → fits 16 c ∧ fits 16 r) → wf_runtime rt →
  wf_runtime (fst (queue_terminal_event event rt)) ∧ snd (queue_terminal_event event rt) ≠ Panic.
Proof.
  intros He Hw. rewrite queue_terminal_event_eq. destruct (refusal rt); [done|].
  destruct event as [input|c r]; [|destruct (He c r eq_refl); by apply queue_resize_wf].
  pose proof (enqueue_wf (input_instruction input) rt Hw) as Hq.
  unfold input_size in Hq. simpl in Hq. by rewrite Z.add_0_r in Hq.
Qed.

(** *** The round-trip estimate *)
Lemma timer_clamp z : timer_ok (clamp MINIMUM_RETRANSMIT_MILLISECONDS MAXIMUM_RETRANSMIT_MILLISECONDS z).
Proof.
  unfold timer_ok, clamp, MINIMUM_RETRANSMIT_MILLISECONDS, MAXIMUM_RETRANSMIT_MILLISECONDS. lia.
Qed.

(** Within the range of the samples nothing saturates. *)
Lemma saturating_add_id a b : a + b < 2 ^ 64 → saturating_add 64 a b = a + b.
Proof. intros. unfold saturating_add. apply Z.min_l. lia. Qed.

Lemma saturating_mul_id a b : a * b < 2 ^ 64 → saturating_mul 64 a b = a * b.
Proof. intros. unfold saturating_mul. apply Z.min_l. lia. Qed.

(** One step of the estimator on unbounded integers. *)
Definition estimate (sample : Z) (e : option Z * Z) : option Z * Z :=
  match e with
  | (None, _) => (Some sample, sample / 2)
  | (Some s, v) => (Some ((7 * s + sample) / 8), (3 * v + Z.abs (s - sample)) / 4)
  end.
Definition timeout_of (e : option Z * Z) : Z :=
  clamp MINIMUM_RETRANSMIT_MILLISECONDS MAXIMUM_RETRANSMIT_MILLISECONDS
    (default 0 (fst e) + 4 * snd e).

Lemma update_retransmit_timeout_eq sample rt :
  0 ≤ sample ≤ 30000 →
  estimate_ok (smoothed_round_trip_milliseconds rt) (round_trip_variation_milliseconds rt) →
  let e := estimate sample (smoothed_round_trip_milliseconds rt, round_trip_variation_milliseconds rt) in
  update_retransmit_timeout sample rt =
    ((rt <| smoothed_round_trip_milliseconds := fst e |>)
        <| round_trip_variation_milliseconds := snd e |>)
        <| retransmit_milliseconds := timeout_of e |> ∧
  estimate_ok (fst e) (snd e).
Proof.
  intros Hx [Hs Hv]. unfold update_retransmit_timeout, estimate, timeout_of, abs_diff.
  assert (2 ^ 64 = 18446744073709551616) as E by done.
  destruct rt as [p qi qb ls lr rto sm v a ad rs rr cs lc ub sh pd]. cbn [smoothed_round_trip_milliseconds
    round_trip_variation_milliseconds] in *. set (MINIMUM := MINIMUM_RETRANSMIT_MILLISECONDS).
  set (MAXIMUM := MAXIMUM_RETRANSMIT_MILLISECONDS).
  destruct sm as [s|]; cbn -[saturating_add saturating_mul clamp Z.add Z.mul Z.div Z.abs Z.sub Z.pow].
  - specialize (Hs s eq_refl).
    rewrite (saturating_mul_id s 7), (saturating_mul_id v 3) by (rewrite E; lia).
    rewrite (saturating_add_id (s * 7)), (saturating_add_id (v * 3)) by (rewrite E; lia).
    rewrite (Z.mul_comm s 7), (Z.mul_comm v 3).
    assert (0 ≤ (3 * v + Z.abs (s - sample)) / 4 ≤ 30000) by (Z.to_euclidean_division_equations; lia).
    assert (0 ≤ (7 * s + sample) / 8 ≤ 30000) by (Z.to_euclidean_division_equations; lia).
    rewrite saturating_mul_id, saturating_add_id by (rewrite ?saturating_mul_id; rewrite E; lia).
    rewrite (Z.mul_comm _ 4). split; [done|]. split; [|done]. by intros ? [= <-].
  - assert (0 ≤ sample / 2 ≤ 15000) by (Z.to_euclidean_division_equations; lia).
    rewrite saturating_mul_id, saturating_add_id by (rewrite ?saturating_mul_id; rewrite E; lia).
    rewrite (Z.mul_comm _ 4). split; [done|]. split; [|lia]. by intros ? [= <-].
Qed.

Lemma update_retransmit_timeout_wf sample rt :
  0 ≤ sample ≤ 30000 → wf_runtime rt → wf_runtime (update_retransmit_timeout sample rt).
Proof.
  intros Hx Hw. destruct (update_retransmit_timeout_eq sample rt Hx (rt_estimate rt Hw)) as [-> He].
  destruct Hw. split; try done. simpl. apply timer_clamp.
Qed.

Lemma sample_echo_safe echoed now : safe wf_runtime (sample_echo echoed now).
Proof.
  unfold sample_echo. apply safe_if; [|apply safe_ret].
  destruct (Z.leb_spec (wrapping_sub 16 (timestamp now) echoed) 30000) as [Hle|]; [|apply safe_ret].
  assert (0 ≤ wrapping_sub 16 (timestamp now) echoed) by by apply Z.mod_pos_bound.
  unfold record_round_trip_sample. apply safe_bind.
  - apply safe_mod. intros rt. by apply update_retransmit_timeout_wf.
  - intros _. apply safe_bind; [apply safe_get|]. intros rt. apply safe_if; [apply safe_ret|].
    apply safe_bind; [|intros _; apply safe_ret]. apply safe_mod. intros rt' []. by split.
Qed.

(** *** Receiving *)
Lemma on_protocol_ingest_safe packet : safe wf_runtime (on_protocol (ingest_packet packet)).
Proof.
  intros rt Hw. rewrite on_protocol_eq. simpl.
  pose proof (wf_reach_protocol rt Hw) as Hp. split.
  - apply wf_set_protocol; [done|by apply reach_ingest, rt_protocol|].
    eapply acknowledges_in_flight; [exact Hp|by apply ingest_packet_acknowledges|apply (rt_flight rt Hw)].
  - destruct (wf_window _ Hp) as [acc Hacc].
    pose proof (ingest_packet_spec packet (protocol rt) acc Hp Hacc) as Hi.
    destruct (ingest_packet packet (protocol rt)) as [p r]. destruct Hi as (_ & Hn & _).
    by destruct r.
Qed.

Lemma mark_connected_safe : safe wf_runtime mark_connected.
Proof.
  apply safe_bind; [apply safe_get|]. intros rt. apply safe_if; [|apply safe_ret].
  apply safe_bind; [|intros _; apply safe_ret]. apply safe_mod. intros rt' []. by split.
Qed.

Lemma note_state_eq state rt :
  note_state state rt =
  (let rt1 := (rt <| acknowledgement_due ::= λ due, due || advances_remote_state state |>)
                  <| received_server_state := true |> in
   if target_state (rs_update state) =? u64_max then
     (rt1 <| shutdown ::= λ s, if bool_decide (s = Open) then PeerRequested else s |>)
          <| peer_shutdown_acknowledgement_due := true |>
   else rt1, Ok tt).
Proof.
  unfold note_state. rewrite !bindM_mod. destruct (_ =? u64_max); [|done].
  rewrite bindM_mod, bindM_get. destruct rt as [p qi qb ls lr rto sm v a ad rs rr cs lc ub sh pd].
  by destruct sh.
Qed.

Lemma note_state_safe state : safe wf_runtime (note_state state).
Proof.
  intros rt Hw. rewrite note_state_eq. split; [|done]. cbn [fst].
  set (rt1 := _ <| received_server_state := true |>).
  assert (wf_runtime rt1) as Hw1 by (destruct Hw; by split). clearbody rt1.
  destruct (_ =? u64_max); [|done]. apply (wf_set_shutdown rt1 _ true Hw1).
  pose proof (rt_shutdown rt1 Hw1) as Hs. destruct (shutdown rt1); [done|..|done]; done.
Qed.

Lemma receive_datagram_safe packet now : safe wf_runtime (receive_datagram packet now).
Proof.
  unfold receive_datagram. apply safe_bind.
  { intros rt Hw. unfold ensure_running, bindM, getM. by destruct (lifecycle rt). }
  intros _. apply safe_bind; [apply safe_get|]. intros rt0.
  apply safe_bind; [apply on_protocol_ingest_safe|]. intros receipt.
  apply safe_bind; [apply safe_mod; intros rt' []; by split|]. intros _.
  apply safe_bind; [apply safe_get|]. intros rt1.
  apply safe_bind; [apply mark_connected_safe|]. intros connected.
  apply safe_bind; [apply sample_echo_safe|]. intros sampled.
  destruct (pr_state receipt) as [state|]; [|apply safe_ret].
  apply safe_bind; [apply note_state_safe|]. intros _. apply safe_if; [apply safe_ret|].
  apply safe_bind; [|intros batch; apply safe_ret]. apply safe_lift.
  pose proof (decode_instructions_safe (rs_update state)). by destruct (decode_instructions _).
Qed.

(** *** Polling *)
Definition resend_ok {A} (m : M ClientProtocol SessionError A) : Prop :=
  ∀ p, protocol_reach key p → protocol_reach key (fst (m p)) ∧
    (∃ c, fst (m p) = p <| secure_channel := c |>) ∧ snd (m p) ≠ Panic.

Lemma resends_ok ts :
  resend_ok (build_acknowledgement ts) ∧ resend_ok (build_shutdown_ack ts) ∧
  resend_ok (retransmit_pending ts).
Proof.
  assert (∀ p, protocol_reach key p → wf_protocol p) as Hwf by apply protocol_reach_wf.
  split_and!; intros p Hp; destruct (builders_wf ts p (Hwf p Hp)) as ([_ N1] & [_ N2] & [_ N3]);
    destruct (resending_keeps ts p (Hwf p Hp)) as (C1 & C2 & C3); (split; [by constructor|done]).
Qed.

Lemma on_protocol_resend {A} (m : M ClientProtocol SessionError A) rt :
  resend_ok m → wf_runtime rt →
  ∃ c r, on_protocol m rt = (rt <| protocol ::= λ p, p <| secure_channel := c |> |>, r) ∧
    wf_runtime (fst (on_protocol m rt)) ∧ r ≠ Panic.
Proof.
  intros Hm Hw. rewrite on_protocol_eq.
  destruct (Hm (protocol rt) (rt_protocol rt Hw)) as (Hr & (c & Hc) & Hn).
  exists c, (map_err RuntimeSession (snd (m (protocol rt)))). split_and!.
  - by rewrite Hc.
  - apply wf_set_protocol; [done|done|]. rewrite Hc. exact (rt_flight rt Hw).
  - by destruct (snd (m (protocol rt))).
Qed.

(** The retries left, unless the peer's shutdown is to be acknowledged. *)
Definition retry_left rt : Prop :=
  peer_shutdown_acknowledgement_due rt = false →
  ∀ t n, shutdown rt = LocalRequested t n → n < SHUTDOWN_RETRY_LIMIT.

Definition after_sending (acts : list SessionAction) : M SessionRuntime RuntimeError (list SessionAction) :=
  modM record_shutdown_transmission ;! complete_peer_shutdown_after_ack acts.

Lemma complete_peer_eq acts rt :
  complete_peer_shutdown_after_ack acts rt =
  if peer_shutdown_acknowledgement_due rt then
    ((rt <| peer_shutdown_acknowledgement_due := false |>)
         <| shutdown := Complete OutcomePeerRequested |>,
     Ok (acts ++ [ShutdownComplete OutcomePeerRequested;
                  Diagnostic (DiagShutdownComplete OutcomePeerRequested)]))
  else (rt, Ok acts).
Proof.
  unfold complete_peer_shutdown_after_ack. rewrite bindM_get.
  by destruct (peer_shutdown_acknowledgement_due rt).
Qed.

Lemma complete_peer_safe acts : safe wf_runtime (complete_peer_shutdown_after_ack acts).
Proof.
  intros rt Hw. rewrite complete_peer_eq.
  destruct (peer_shutdown_acknowledgement_due rt); [|done]. split; [|done]. simpl.
  destruct Hw. by split.
Qed.

Lemma record_transmission_eq rt :
  record_shutdown_transmission rt =
  rt <| shutdown ::= λ s, match s with
                         | LocalRequested t n => LocalRequested t (saturating_add 8 n 1)
                         | _ => s
                         end |>.
Proof. unfold record_shutdown_transmission. by destruct rt as [p qi qb ls lr rto sm v a ad rs rr cs lc ub [] pd]. Qed.

Lemma after_sending_wf acts rt :
  wf_runtime rt → retry_left rt →
  wf_runtime (fst (after_sending acts rt)) ∧ snd (after_sending acts rt) ≠ Panic.
Proof.
  intros Hw Hr. unfold after_sending. rewrite bindM_mod, complete_peer_eq, record_transmission_eq.
  change (peer_shutdown_acknowledgement_due (rt <| shutdown ::= _ |>))
    with (peer_shutdown_acknowledgement_due rt).
  destruct (peer_shutdown_acknowledgement_due rt) eqn:Hd; (split; [|done]); simpl.
  - destruct Hw. by split.
  - specialize (Hr Hd). pose proof (rt_shutdown rt Hw) as Hs. rewrite Hd in Hs.
    destruct Hw. split; try done. simpl. rewrite Hd. destruct (shutdown rt) as [|t n| |]; try done.
    specialize (Hr t n eq_refl). simpl in *. unfold saturating_add, SHUTDOWN_RETRY_LIMIT in *. lia.
Qed.

Lemma build_queued_update_wf now rt :
  wf_runtime rt → len (queued_instructions rt) < 2 ^ 64 →
  has_pending_update (protocol rt) = false →
  (local_shutdown_acknowledged (protocol rt) = true → peer_shutdown_acknowledgement_due rt = true) →
  let '(rt', r) := build_queued_update now rt in
  wf_runtime rt' ∧ r ≠ Panic ∧ shutdown rt' = shutdown rt ∧
  peer_shutdown_acknowledgement_due rt' = peer_shutdown_acknowledgement_due rt.
Proof.
  intros Hw Hlen Hpend Hack. unfold build_queued_update. rewrite bindM_get, !bindM_mod.
  set (batch := {| instructions := queued_instructions rt |}).
  set (rt1 := _ <| acknowledgement_due := false |>).
  assert (wf_runtime rt1) as Hw1.
  { destruct Hw. by split. }
  pose proof (wf_reach_protocol rt Hw) as Hp.
  assert (batch_fits (protocol rt) batch) as Hfit.
  { destruct (wf_sent _ Hp) as (spec & Hs & _). destruct (not_pending_log _ spec Hs Hpend) as [_ Hl].
    unfold batch_fits. rewrite Hl, (@len_nil Instruction). done. }
  assert (∀ m : M ClientProtocol SessionError (list bytes),
    protocol_reach key (fst (m (protocol rt))) → one_in_flight (fst (m (protocol rt))) →
    snd (m (protocol rt)) ≠ Panic →
    wf_runtime (fst (on_protocol m rt1)) ∧ snd (on_protocol m rt1) ≠ Panic ∧
    shutdown (fst (on_protocol m rt1)) = shutdown rt ∧
    peer_shutdown_acknowledgement_due (fst (on_protocol m rt1)) =
      peer_shutdown_acknowledgement_due rt) as Hm.
  { intros m Hr Hf Hn. rewrite on_protocol_eq. cbn [fst snd]. split_and!; try done.
    - by apply wf_set_protocol.
    - change (protocol rt1) with (protocol rt). by destruct (snd (m (protocol rt))). }
  set (m := if shutdown_ack_due rt then _ else _).
  assert (wf_runtime (fst (m rt1)) ∧ snd (m rt1) ≠ Panic ∧ shutdown (fst (m rt1)) = shutdown rt ∧
    peer_shutdown_acknowledgement_due (fst (m rt1)) = peer_shutdown_acknowledgement_due rt) as Hspec.
  { unfold m. destruct (shutdown_ack_due rt) eqn:Hdue; [|destruct (local_shutdown_unsent rt) eqn:Huns].
    - destruct (resends_ok (timestamp now)) as (_ & Hs & _).
      destruct (Hs (protocol rt) (rt_protocol rt Hw)) as (Hr & (c & Hc) & Hn).
      apply Hm; [done| |done]. rewrite Hc. apply (rt_flight rt Hw).
    - apply Hm; [|by apply build_shutdown_in_flight|by apply build_shutdown_wf].
      apply reach_shutdown; [apply (rt_protocol rt Hw)|done].
    - assert (local_shutdown_sent (protocol rt) = false) as Hsent.
      { rewrite <- not_pending_shutdown by done.
        destruct (local_shutdown_acknowledged (protocol rt)) eqn:Ha; [|done].
        unfold shutdown_ack_due in Hdue. by rewrite Hack, Ha in Hdue. }
      apply Hm; [|by apply build_update_in_flight|by apply build_update_wf].
      apply reach_update; [apply (rt_protocol rt Hw)|done|done]. }
  unfold bindM at 1. destruct (m rt1) as [rt2 [packets|e|]]; simpl in Hspec; [|by split_and!; try tauto|tauto].
  destruct Hspec as (Hw2 & _ & Hs2 & Hd2). unfold bindM, modM, retM. split_and!; try done.
  destruct Hw2. by split.
Qed.

Lemma bind_wf {A B} (m : M SessionRuntime RuntimeError A) (k : A → M SessionRuntime RuntimeError B) rt :
  (let '(rt', r) := m rt in wf_runtime rt' ∧ r ≠ Panic ∧
     ∀ a, r = Ok a → wf_runtime (fst (k a rt')) ∧ snd (k a rt') ≠ Panic) →
  wf_runtime (fst (bindM m k rt)) ∧ snd (bindM m k rt) ≠ Panic.
Proof.
  unfold bindM. destruct (m rt) as [rt' [a|e|]]; intros (Hw & Hn & Hk); [by apply Hk|done|done].
Qed.

Lemma poll_queued_wf now acts rt :
  wf_runtime rt → len (queued_instructions rt) < 2 ^ 64 → retry_left rt →
  has_pending_update (protocol rt) = false →
  (local_shutdown_acknowledged (protocol rt) = true → peer_shutdown_acknowledgement_due rt = true) →
  wf_runtime (fst (poll_queued now acts rt)) ∧ snd (poll_queued now acts rt) ≠ Panic.
Proof.
  intros Hw Hlen Hr Hp Ha. apply bind_wf.
  pose proof (build_queued_update_wf now rt Hw Hlen Hp Ha) as Hb.
  destruct (build_queued_update now rt) as [rt' r]. destruct Hb as (Hw' & Hn & Hs & Hd).
  split_and!; [done|done|]. intros [packets diagnostic] _. apply after_sending_wf; [done|].
  unfold retry_left. by rewrite Hs, Hd.
Qed.

Lemma poll_pending_wf now acts rt :
  wf_runtime rt → retry_left rt →
  wf_runtime (fst (poll_pending now acts rt)) ∧ snd (poll_pending now acts rt) ≠ Panic.
Proof.
  intros Hw Hr. unfold poll_pending. rewrite bindM_get. destruct (_ && _); [done|]. apply bind_wf.
  destruct (resends_ok (timestamp now)) as (_ & _ & Hm).
  destruct (on_protocol_resend _ rt Hm Hw) as (c & r & He & Hw' & Hn). rewrite He in *.
  split_and!; [done|done|]. intros packets _. rewrite bindM_get, !bindM_mod.
  apply after_sending_wf; [|done]. simpl in Hw'. destruct Hw'. by split.
Qed.

Lemma poll_idle_wf now acts rt :
  wf_runtime rt → wf_runtime (fst (poll_idle now acts rt)) ∧ snd (poll_idle now acts rt) ≠ Panic.
Proof.
  intros Hw. unfold poll_idle. rewrite bindM_get. destruct (_ && _); [done|]. apply bind_wf.
  destruct (resends_ok (timestamp now)) as (Hm & _).
  destruct (on_protocol_resend _ rt Hm Hw) as (c & r & He & Hw' & Hn). rewrite He in *.
  split_and!; [done|done|]. intros packets _. rewrite bindM_get, !bindM_mod.
  apply complete_peer_safe. simpl in Hw'. destruct Hw'. by split.
Qed.

(** What [poll_association] and [connection_state_action] leave alone. *)
Record same_work rt rt' : Prop := {
  sw_queue : queued_instructions rt' = queued_instructions rt;
  sw_sent : sent_states (protocol rt') = sent_states (protocol rt);
  sw_shutdown : shutdown rt' = shutdown rt;
  sw_peer : peer_shutdown_acknowledgement_due rt' = peer_shutdown_acknowledgement_due rt;
  sw_ack : acknowledgement_due rt' = acknowledgement_due rt;
  sw_timer : retransmit_milliseconds rt' = retransmit_milliseconds rt;
}.

Lemma poll_association_spec now rt :
  wf_runtime rt →
  let '(rt', r) := poll_association now rt in
  wf_runtime rt' ∧ r ≠ Panic ∧ same_work rt rt'.
Proof.
  intros Hw. unfold poll_association. rewrite bindM_get. destruct (bool_decide _); [|done].
  destruct (resends_ok (timestamp now)) as (Hm & _).
  destruct (on_protocol_resend _ rt Hm Hw) as (c & r & He & Hw' & Hn).
  unfold build_association, bindM at 1. rewrite He in *. simpl in Hw'.
  destruct r; [|split_and!; try done..]. rewrite !bindM_mod. split_and!; [|done|done].
  destruct Hw'. by split.
Qed.

Lemma connection_state_action_spec now rt :
  wf_runtime rt →
  let '(rt', r) := connection_state_action now rt in
  wf_runtime rt' ∧ is_ok r = true ∧ same_work rt rt' ∧ protocol rt' = protocol rt ∧
  last_send rt' = last_send rt.
Proof.
  intros Hw. unfold connection_state_action. rewrite bindM_get.
  destruct (_ && _); [|done]. split_and!; try done. destruct Hw. by split.
Qed.

Lemma complete_shutdown_safe o : safe wf_runtime (complete_shutdown o).
Proof.
  apply safe_bind; [|intros _; apply safe_ret]. apply safe_mod. intros rt []. by split.
Qed.

Lemma shutdown_timed_out_false now rt :
  shutdown_timed_out now rt = false → ∀ t n, shutdown rt = LocalRequested t n →
  n < SHUTDOWN_RETRY_LIMIT ∧ elapsed_since now t < SHUTDOWN_TIMEOUT_MILLISECONDS.
Proof.
  unfold shutdown_timed_out. intros Ht t n Hs. rewrite Hs in Ht. apply orb_false_iff in Ht as [H1' H2'].
  by rewrite Z.leb_gt in H1', H2'.
Qed.

Lemma poll_rest_wf now acts rt :
  wf_runtime rt → len (queued_instructions rt) < 2 ^ 64 →
  wf_runtime (fst (poll_rest now acts rt)) ∧ snd (poll_rest now acts rt) ≠ Panic.
Proof.
  intros Hw Hlen. unfold poll_rest. rewrite bindM_get.
  destruct (local_shutdown_acknowledged (protocol rt) && _) eqn:Hack; [by apply complete_shutdown_safe|].
  destruct (negb _ && _) eqn:Hout; [by apply complete_shutdown_safe|].
  apply bind_wf. pose proof (connection_state_action_spec now rt Hw) as Hc.
  destruct (connection_state_action now rt) as [rt1 r]. destruct Hc as (Hw1 & Hr & [Hq Hs Hsh Hpd _ _] & Hpr & _).
  split_and!; [done|by destruct r|]. intros state _. rewrite bindM_get.
  assert (retry_left rt1) as Hleft.
  { intros Hdue t n Hst. rewrite Hsh in Hst. rewrite Hpd in Hdue. rewrite Hdue in Hout.
    by destruct (shutdown_timed_out_false now rt Hout t n Hst). }
  destruct (_ && negb (has_pending_update (protocol rt1))) eqn:Hqueued;
    [|destruct (has_pending_update (protocol rt1)); [by apply poll_pending_wf|by apply poll_idle_wf]].
  apply andb_prop in Hqueued as [_ Hpend]. apply negb_true_iff in Hpend.
  apply poll_queued_wf; [done|by rewrite Hq|done|done|]. rewrite Hpr, Hpd. intros Ha.
  rewrite Ha in Hack. by destruct (peer_shutdown_acknowledgement_due rt).
Qed.

Lemma poll_wf now rt :
  wf_runtime rt → len (queued_instructions rt) < 2 ^ 64 →
  wf_runtime (fst (poll now rt)) ∧ snd (poll now rt) ≠ Panic.
Proof.
  intros Hw Hlen. unfold poll. rewrite bindM_get. destruct (negb _); [done|].
  destruct (is_complete _); [done|]. apply bind_wf.
  pose proof (poll_association_spec now rt Hw) as Ha.
  destruct (poll_association now rt) as [rt1 r]. destruct Ha as (Hw1 & Hn & [Hq _ _ _ _ _]).
  split_and!; [done|done|]. intros acts _. apply poll_rest_wf; [done|by rewrite Hq].
Qed.

(** *** All calls

    A host passes window sizes of 16 bits, and a queue has a machine length. *)
Definition call_ok (c : HostCall) rt : Prop :=
  match c with
  | CallQueueEvent (InputResize columns rows) | CallQueueResize columns rows =>
      fits 16 columns ∧ fits 16 rows
  | CallPoll _ => len (queued_instructions rt) < 2 ^ 64
  | _ => True
  end.

Lemma no_actions_wf (m : M SessionRuntime RuntimeError unit) rt :
  wf_runtime (fst (m rt)) ∧ snd (m rt) ≠ Panic →
  wf_runtime (fst (no_actions m rt)) ∧ snd (no_actions m rt) ≠ Panic.
Proof. unfold no_actions, bindM. destruct (m rt) as [rt' []]; simpl; naive_solver. Qed.

Lemma resume_state_safe now : safe wf_runtime (resume_state now).
Proof.
  apply safe_bind; [apply safe_get|]. intros rt. apply safe_if; [apply safe_ret|].
  intros rt' []. split; [by split|done].
Qed.

Lemma queue_session_control_wf k pl rt :
  wf_runtime rt →
  wf_runtime (fst (queue_session_control k pl rt)) ∧ snd (queue_session_control k pl rt) ≠ Panic.
Proof.
  intros Hw. rewrite queue_session_control_eq. destruct (refusal rt); [done|].
  destruct (runtime_has_negotiated_capability _ _); [|done].
  by apply (enqueue_wf (control_instruction k pl)).
Qed.

Lemma call_wf c rt :
  wf_runtime rt → call_ok c rt → wf_runtime (fst (call c rt)) ∧ snd (call c rt) ≠ Panic.
Proof.
  intros Hw Hok. destruct c as [event|input|c r|k pl|caps| | |now| |now|now|packet now|packet now|now];
    simpl in Hok; cbn [call].
  - apply no_actions_wf, queue_terminal_event_wf; [|done]. by intros c r ->.
  - apply no_actions_wf. rewrite queue_input_eq.
    pose proof (enqueue_wf (input_instruction input) rt Hw) as Hq.
    unfold input_size in Hq. simpl in Hq. by rewrite Z.add_0_r in Hq.
  - apply no_actions_wf. destruct Hok; by apply queue_resize_wf.
  - by apply no_actions_wf, queue_session_control_wf.
  - split; [|done]. simpl. destruct Hw. split; try done. by apply reach_capabilities.
  - unfold pause. rewrite bindM_get. destruct (negb _); [done|]. split; [|done]. destruct Hw. by split.
  - unfold cancel. rewrite bindM_get. destruct (bool_decide _); [done|]. split; [|done]. destruct Hw. by split.
  - unfold request_shutdown. revert rt Hw Hok. intros rt Hw _. apply bind_wf.
    unfold ensure_running, bindM, getM. destruct (lifecycle rt); [|done..].
    split_and!; [done|done|]. intros _ _. destruct (bool_decide _) eqn:Ho; [|done].
    split; [|done]. destruct Hw. by split.
  - unfold notify_udp_rebound. rewrite bindM_get. destruct (bool_decide _); [done|].
    split; [|done]. destruct Hw. by split.
  - by apply no_actions_wf, resume_state_safe.
  - unfold resume_with_actions. rewrite bindM_get. destruct (bool_decide _); [done|].
    apply bind_wf. pose proof (resume_state_safe now rt Hw) as Hs.
    destruct (resume_state now rt) as [rt' r]. destruct Hs as [Hw' Hn].
    split_and!; [done|done|]. intros _ _. by destruct (bool_decide _).
  - by apply receive_datagram_safe.
  - unfold receive_datagram_lossy. pose proof (receive_datagram_safe packet now rt Hw) as Hs.
    destruct (receive_datagram packet now rt) as [rt' []]; simpl in *; naive_solver.
  - by apply poll_wf.
Qed.

(** The states a host can reach. *)
Inductive runtime_reach : SessionRuntime → Prop :=
| reach_start now rt : runtime_new key now = Ok rt → runtime_reach rt
| reach_call c rt : runtime_reach rt → call_ok c rt → runtime_reach (fst (call c rt)).

Lemma runtime_reach_wf rt : runtime_reach rt → wf_runtime rt.
Proof.
  induction 1 as [now rt Hn|c rt _ IH Hok]; [by eapply runtime_new_wf|by apply call_wf].
Qed.
End invariant.

(** ** What the actions do *)
Definition is_datagram (a : SessionAction) : bool :=
  match a with SendDatagram _ => true | _ => false end.
Definition quiet (acts : list SessionAction) : Prop := Forall (λ a, is_datagram a = false) acts.
Definition quiet_result (r : outcome RuntimeError (list SessionAction)) : Prop :=
  ∀ acts, r = Ok acts → quiet acts.

Lemma quiet_app l k : quiet (l ++ k) ↔ quiet l ∧ quiet k.
Proof. apply Forall_app. Qed.

Lemma quiet_nil : quiet [].
Proof. constructor. Qed.
#[export] Hint Resolve quiet_nil : core.

#[export] Instance quiet_dec acts : Decision (quiet acts).
Proof. unfold quiet. apply _. Defined.

(** The operation sends no datagram, whatever it returns. *)
Notation silent := (returns quiet).

Lemma quiet_instruction i : quiet (instruction_actions i).
Proof.
  destruct i as [[b|] [vp|] [mk|] [sc|]]; unfold instruction_actions; cbn;
    repeat first [destruct (try_into _ _)]; repeat constructor.
Qed.

Lemma quiet_join (l : list Instruction) : quiet (mjoin (instruction_actions <$> l)).
Proof.
  induction l as [|i l IH]; [constructor|]. rewrite fmap_cons. simpl. apply quiet_app.
  split; [apply quiet_instruction|exact IH].
Qed.

Section silence.
Context `{Vt100} `{Vte} `{Aead} `{Prost} `{Zlib}.
Implicit Types rt : SessionRuntime.

Lemma mark_connected_silent : silent mark_connected.
Proof.
  apply returns_then. intros rt. apply returns_if; [|by apply returns_ret].
  apply returns_then. intros _. apply returns_ret. by repeat constructor.
Qed.

Lemma sample_echo_silent echoed now : silent (sample_echo echoed now).
Proof.
  unfold sample_echo. apply returns_if; [|by apply returns_ret].
  apply returns_if; [|by apply returns_ret]. unfold record_round_trip_sample.
  apply returns_then. intros _. apply returns_then. intros rt. apply returns_if; [by apply returns_ret|].
  apply returns_then. intros _. apply returns_ret. by repeat constructor.
Qed.

Lemma receive_datagram_silent packet now : silent (receive_datagram packet now).
Proof.
  unfold receive_datagram. do 5 (apply returns_then; intros ?).
  eapply returns_bind; [apply mark_connected_silent|]. intros connected Hc.
  eapply returns_bind; [apply sample_echo_silent|]. intros sampled Hs.
  set (caps := if negb _ then _ else _).
  assert (quiet caps) as Hq by (unfold caps; destruct (negb _); by repeat constructor).
  destruct (pr_state _) as [state|]; [|apply returns_ret; by rewrite !quiet_app].
  apply returns_then. intros _. apply returns_if.
  - apply returns_ret. rewrite !quiet_app. split_and!; try done. by repeat constructor.
  - apply returns_then. intros batch. apply returns_ret. rewrite !quiet_app.
    split_and!; try done; [by repeat constructor..|apply quiet_join].
Qed.

Lemma complete_shutdown_silent o : silent (complete_shutdown o).
Proof. apply returns_then. intros _. apply returns_ret. by repeat constructor. Qed.

(** Only [poll] sends. *)
Lemma call_silent c : (∀ now, c ≠ CallPoll now) → silent (call c).
Proof.
  intros Hc. assert (∀ m, silent (no_actions m)) as Hno
    by (intros m; apply returns_then; intros _; by apply returns_ret).
  assert (∀ s, quiet (lifecycle_actions s)) as Hl by by repeat constructor.
  destruct c as [event|input|c r|k pl|caps| | |now| |now|now|packet now|packet now|now];
    cbn [call]; try apply Hno; try by destruct (Hc now).
  - apply returns_then. intros rt. apply returns_if; [by apply returns_ret|].
    apply returns_then. intros _. by apply returns_ret.
  - apply returns_then. intros rt. apply returns_if; [by apply returns_ret|].
    do 3 (apply returns_then; intros ?). by apply returns_ret.
  - do 2 (apply returns_then; intros ?). apply returns_if; [|by apply returns_ret].
    apply returns_then. intros _. apply returns_ret. by repeat constructor.
  - apply returns_then. intros rt. apply returns_if; [by apply returns_ret|].
    do 3 (apply returns_then; intros ?). apply returns_ret. by repeat constructor.
  - apply returns_then. intros rt. apply returns_if; [by apply returns_ret|].
    apply returns_then. intros _. apply returns_if; by apply returns_ret.
  - apply receive_datagram_silent.
  - intros rt. unfold receive_datagram_lossy. pose proof (receive_datagram_silent packet now rt) as Hs.
    destruct (receive_datagram packet now rt) as [rt' []]; [done| |done]. simpl. by intros ? [= <-].
Qed.

Definition completed (o : ShutdownOutcome) rt : Prop := shutdown rt = Complete o.

Lemma enqueue_keeps i n rt :
  shutdown (fst (enqueue i n rt)) = shutdown rt ∧ lifecycle (fst (enqueue i n rt)) = lifecycle rt.
Proof.
  unfold enqueue. destruct (refusal rt); [done|]. by destruct (_ <? _).
Qed.

Lemma queue_resize_keeps c r rt :
  shutdown (fst (queue_resize c r rt)) = shutdown rt ∧
  lifecycle (fst (queue_resize c r rt)) = lifecycle rt.
Proof.
  rewrite queue_resize_eq. destruct (refusal rt); [done|].
  by destruct (set_initial_remote_viewport _ _ _).
Qed.

(** A receive keeps whatever its field updates keep. *)
Lemma on_protocol_keeps {A} P (m : M ClientProtocol SessionError A) :
  (∀ rt p, P rt → P (rt <| protocol := p |>)) → keeps P (on_protocol m).
Proof. intros Hp rt HP. rewrite on_protocol_eq. by apply Hp. Qed.

Lemma receive_datagram_keeps_gen (P : SessionRuntime → Prop) packet now :
  keeps P (on_protocol (ingest_packet packet)) → (∀ rt t, P rt → P (rt <| last_receive := t |>)) →
  (∀ rt c, P rt → P (rt <| connection_state := c |>)) →
  (∀ rt x, P rt → P (update_retransmit_timeout x rt)) →
  (∀ rt x, P rt → P (rt <| round_trip_milliseconds := x |>)) →
  (∀ state, keeps P (note_state state)) → keeps P (receive_datagram packet now).
Proof.
  intros P1 P2 P3 P4 P5 P6. unfold receive_datagram. apply keeps_bind.
  { apply keeps_pure. intros rt. unfold ensure_running, bindM, getM. by destruct (lifecycle rt). }
  intros _. apply keeps_bind; [by apply keeps_pure|]. intros rt0. apply keeps_bind; [exact P1|].
  intros receipt. apply keeps_bind; [apply keeps_mod; auto|]. intros _.
  apply keeps_bind; [by apply keeps_pure|]. intros rt1. apply keeps_bind.
  { apply keeps_bind; [by apply keeps_pure|]. intros rt2. destruct (negb _); [|by apply keeps_pure].
    apply keeps_bind; [apply keeps_mod; auto|]. intros _. by apply keeps_pure. }
  intros connected. apply keeps_bind.
  { unfold sample_echo. destruct (negb _); [|by apply keeps_pure].
    destruct (_ <=? _); [|by apply keeps_pure]. apply keeps_bind; [apply keeps_mod; auto|].
    intros _. apply keeps_bind; [by apply keeps_pure|]. intros rt2.
    destruct (bool_decide _); [by apply keeps_pure|].
    apply keeps_bind; [apply keeps_mod; auto|]. intros _. by apply keeps_pure. }
  intros sampled. destruct (pr_state receipt); [|by apply keeps_pure].
  apply keeps_bind; [apply P6|]. intros _. destruct (negb _); [by apply keeps_pure|].
  apply keeps_bind; [by apply keeps_pure|]. intros batch. by apply keeps_pure.
Qed.

(** What a measured timeout leaves alone. *)
Lemma update_retransmit_timeout_keeps x rt :
  shutdown (update_retransmit_timeout x rt) = shutdown rt ∧
  lifecycle (update_retransmit_timeout x rt) = lifecycle rt ∧
  association (update_retransmit_timeout x rt) = association rt ∧
  last_send (update_retransmit_timeout x rt) = last_send rt ∧
  queued_instructions (update_retransmit_timeout x rt) = queued_instructions rt.
Proof. unfold update_retransmit_timeout. by destruct (smoothed_round_trip_milliseconds rt). Qed.

Lemma receive_datagram_keeps packet now :
  (∀ o, keeps (completed o) (receive_datagram packet now)) ∧
  (∀ s, keeps (λ rt, lifecycle rt = s) (receive_datagram packet now)).
Proof.
  split; intros y; apply receive_datagram_keeps_gen; try (done || by apply on_protocol_keeps); unfold completed.
  - intros rt x. by rewrite (proj1 (update_retransmit_timeout_keeps x rt)).
  - intros state rt Hs. rewrite note_state_eq. simpl. destruct (_ =? u64_max); [|done]. simpl.
    by rewrite Hs.
  - intros rt x. by rewrite (proj1 (proj2 (update_retransmit_timeout_keeps x rt))).
  - intros state rt Hs. rewrite note_state_eq. simpl. by destruct (_ =? u64_max).
Qed.

(** *** The length of the queue *)
Definition queue_within (n : nat) rt : Prop := (length (queued_instructions rt) ≤ n)%nat.

Lemma receive_datagram_queue n packet now : keeps (queue_within n) (receive_datagram packet now).
Proof.
  unfold queue_within. apply receive_datagram_keeps_gen; try (done || by apply on_protocol_keeps).
  - intros rt x. by rewrite (proj2 (proj2 (proj2 (proj2 (update_retransmit_timeout_keeps x rt))))).
  - intros state rt Hs. rewrite note_state_eq. simpl. by destruct (_ =? u64_max).
Qed.

(** With the lifecycle, which a poll leaves alone. *)
Definition framed (n : nat) (s : SessionLifecycle) rt : Prop := queue_within n rt ∧ lifecycle rt = s.

Lemma complete_peer_queue n s acts : keeps (framed n s) (complete_peer_shutdown_after_ack acts).
Proof.
  apply keeps_bind; [by apply keeps_pure|]. intros rt0.
  destruct (peer_shutdown_acknowledgement_due rt0); [|by apply keeps_pure].
  apply keeps_bind; [by apply keeps_mod|]. intros _.
  apply keeps_bind; [|intros; by apply keeps_pure].
  apply keeps_bind; [by apply keeps_mod|]. intros _. by apply keeps_pure.
Qed.

Lemma record_transmission_queue n s rt :
  framed n s rt → framed n s (record_shutdown_transmission rt).
Proof. unfold record_shutdown_transmission. by destruct (shutdown rt). Qed.

Lemma on_protocol_queue {A} n s (m : M ClientProtocol SessionError A) : keeps (framed n s) (on_protocol m).
Proof. intros rt Hr. by rewrite on_protocol_eq. Qed.

(** The tail of every sending step. *)
Lemma sent_queue n s now acts :
  keeps (framed n s) (modM (λ self, self <| last_send := Some now |>) ;!
    modM (λ self, self <| acknowledgement_due := false |>) ;!
    modM record_shutdown_transmission ;! complete_peer_shutdown_after_ack acts).
Proof.
  do 2 (apply keeps_bind; [by apply keeps_mod|]; intros _).
  apply keeps_bind; [apply keeps_mod; intros; by apply record_transmission_queue|]. intros _.
  apply complete_peer_queue.
Qed.

Lemma poll_queued_queue n s now acts : keeps (framed n s) (poll_queued now acts).
Proof.
  apply keeps_bind.
  - apply keeps_bind; [by apply keeps_pure|]. intros rt0.
    apply keeps_bind; [apply keeps_mod; intros ? []; split; [unfold queue_within in *; simpl; lia|done]|]. intros _.
    do 2 (apply keeps_bind; [by apply keeps_mod|]; intros _). apply keeps_bind.
    { destruct (shutdown_ack_due rt0); [|destruct (local_shutdown_unsent rt0)]; apply on_protocol_queue. }
    intros packets. apply keeps_bind; [by apply keeps_mod|]. intros _. by apply keeps_pure.
  - intros [packets d].
    apply keeps_bind; [apply keeps_mod; intros; by apply record_transmission_queue|]. intros _.
    apply complete_peer_queue.
Qed.

Lemma poll_pending_queue n s now acts : keeps (framed n s) (poll_pending now acts).
Proof.
  apply keeps_bind; [by apply keeps_pure|]. intros rt0. cbv beta zeta.
  destruct (negb (acknowledgement_due rt0) && _); [by apply keeps_pure|].
  apply keeps_bind; [apply on_protocol_queue|]. intros packets.
  apply keeps_bind; [by apply keeps_pure|]. intros rt1. apply sent_queue.
Qed.

Lemma poll_idle_queue n s now acts : keeps (framed n s) (poll_idle now acts).
Proof.
  apply keeps_bind; [by apply keeps_pure|]. intros rt0. cbv beta zeta.
  destruct (negb (acknowledgement_due rt0) && _); [by apply keeps_pure|].
  apply keeps_bind; [apply on_protocol_queue|]. intros packets.
  apply keeps_bind; [by apply keeps_pure|]. intros rt1.
  do 2 (apply keeps_bind; [by apply keeps_mod|]; intros _). apply complete_peer_queue.
Qed.

Lemma poll_framed n s now : keeps (framed n s) (poll now).
Proof.
  apply keeps_bind; [by apply keeps_pure|]. intros rt0. destruct (negb _); [by apply keeps_pure|].
  destruct (is_complete _); [by apply keeps_pure|]. apply keeps_bind.
  { apply keeps_bind; [by apply keeps_pure|]. intros rt1. destruct (bool_decide _); [|by apply keeps_pure].
    apply keeps_bind; [apply on_protocol_queue|]. intros packets.
    do 2 (apply keeps_bind; [by apply keeps_mod|]; intros _). by apply keeps_pure. }
  intros acts. apply keeps_bind; [by apply keeps_pure|]. intros rt1.
  assert (Hc : ∀ o, keeps (framed n s) (complete_shutdown o)).
  { intros o. apply keeps_bind; [by apply keeps_mod|]. intros _. by apply keeps_pure. }
  cbv beta. destruct (local_shutdown_acknowledged _ && _); [apply Hc|].
  destruct (negb (peer_shutdown_acknowledgement_due rt1) && _); [apply Hc|]. apply keeps_bind.
  { apply keeps_bind; [by apply keeps_pure|]. intros rt2. cbv beta.
    destruct (bool_decide _ && _); [|by apply keeps_pure].
    apply keeps_bind; [by apply keeps_mod|]. intros _. by apply keeps_pure. }
  intros st. apply keeps_bind; [by apply keeps_pure|]. intros rt2. cbv beta zeta.
  destruct ((_ || _) && _); [apply poll_queued_queue|].
  destruct (has_pending_update _); [apply poll_pending_queue|apply poll_idle_queue].
Qed.

Lemma poll_queue n now : keeps (queue_within n) (poll now).
Proof. intros rt Hr. by apply (poll_framed n (lifecycle rt) now rt). Qed.

Lemma no_actions_fst m rt : fst (no_actions m rt) = fst (m rt).
Proof. unfold no_actions, bindM. by destruct (m rt) as [rt' []]. Qed.

(** No call reopens a completed shutdown, and none but a resumption changes the
    lifecycle back to [Running]. *)
Lemma call_keeps_complete o c rt : completed o rt → completed o (fst (call c rt)).
Proof.
  unfold completed. intros Hc.
  destruct c as [event|input|c r|k pl|caps| | |now| |now|now|packet now|packet now|now];
    cbn [call]; rewrite ?no_actions_fst.
  - rewrite queue_terminal_event_eq. destruct (refusal rt); [done|].
    destruct event; [by rewrite (proj1 (enqueue_keeps _ _ _))|by rewrite (proj1 (queue_resize_keeps _ _ _))].
  - by rewrite queue_input_eq, (proj1 (enqueue_keeps _ _ _)).
  - by rewrite (proj1 (queue_resize_keeps _ _ _)).
  - rewrite queue_session_control_eq. destruct (refusal rt); [done|].
    destruct (runtime_has_negotiated_capability _ _); [|done]. by rewrite (proj1 (enqueue_keeps _ _ _)).
  - done.
  - unfold pause. rewrite bindM_get. by destruct (negb _).
  - unfold cancel. rewrite bindM_get. by destruct (bool_decide _).
  - unfold request_shutdown, bindM at 1, ensure_running, bindM at 1, getM.
    destruct (lifecycle rt); [|done..]. unfold retM at 1, bindM, getM. by rewrite Hc.
  - unfold notify_udp_rebound. rewrite bindM_get. by destruct (bool_decide _).
  - unfold resume, resume_state. rewrite bindM_get. by destruct (bool_decide _).
  - unfold resume_with_actions. rewrite bindM_get. destruct (bool_decide _) eqn:Hl; [done|].
    unfold bindM at 1, resume_state. rewrite bindM_get, Hl. rewrite bindM_mod.
    unfold modM. simpl. by destruct (bool_decide (lifecycle rt = Paused)).
  - by apply receive_datagram_keeps.
  - unfold receive_datagram_lossy. pose proof (proj1 (receive_datagram_keeps packet now) o rt Hc) as Hk.
    by destruct (receive_datagram packet now rt) as [rt' []].
  - unfold poll. rewrite bindM_get. destruct (negb _); [done|]. by rewrite Hc.
Qed.

Definition resumes (c : HostCall) : bool :=
  match c with CallResume _ | CallResumeActions _ => true | _ => false end.

Lemma call_keeps_stopped c rt :
  lifecycle rt ≠ Running → resumes c = false ∨ lifecycle rt = Cancelled →
  lifecycle (fst (call c rt)) ≠ Running ∧
  (lifecycle rt = Cancelled →
     lifecycle (fst (call c rt)) = Cancelled ∧
     queued_instructions (fst (call c rt)) = queued_instructions rt).
Proof.
  intros Hn Hr.
  destruct c as [event|input|c r|k pl|caps| | |now| |now|now|packet now|packet now|now];
    cbn [call]; rewrite ?no_actions_fst.
  1-4: rewrite ?queue_terminal_event_eq, ?queue_input_eq, ?queue_resize_eq,
    ?queue_session_control_eq; unfold enqueue, refusal; (destruct (lifecycle rt) eqn:Hl; simpl; rewrite ?Hl; done).
  - done.
  - unfold pause. rewrite bindM_get. (destruct (lifecycle rt) eqn:Hl; simpl; rewrite ?Hl; done).
  - unfold cancel. rewrite bindM_get. (destruct (lifecycle rt) eqn:Hl; simpl; rewrite ?Hl; done).
  - unfold request_shutdown, ensure_running, bindM, getM. (destruct (lifecycle rt) eqn:Hl; simpl; rewrite ?Hl; done).
  - unfold notify_udp_rebound. rewrite bindM_get. (destruct (lifecycle rt) eqn:Hl; simpl; rewrite ?Hl; done).
  - unfold resume, resume_state. rewrite bindM_get. (destruct Hr as [|Hr]; [done|]; rewrite !Hr; simpl; rewrite Hr; done).
  - unfold resume_with_actions. rewrite bindM_get. (destruct Hr as [|Hr]; [done|]; rewrite !Hr; simpl; rewrite Hr; done).
  - unfold receive_datagram, ensure_running, bindM, getM. (destruct (lifecycle rt) eqn:Hl; simpl; rewrite ?Hl; done).
  - unfold receive_datagram_lossy, receive_datagram, ensure_running, bindM, getM.
    (destruct (lifecycle rt) eqn:Hl; simpl; rewrite ?Hl; done).
  - unfold poll. rewrite bindM_get. (destruct (lifecycle rt) eqn:Hl; simpl; rewrite ?Hl; done).
Qed.

Lemma poll_stopped now rt :
  lifecycle rt ≠ Running ∨ is_complete (shutdown rt) = true → poll now rt = (rt, Ok []).
Proof.
  intros Hs. unfold poll. rewrite bindM_get. destruct (bool_decide (lifecycle rt = Running)) eqn:Hl;
    [|done]. apply bool_decide_eq_true in Hl. destruct Hs as [|Hs]; [done|]. by rewrite Hs.
Qed.

Lemma stopped_silent c rt :
  lifecycle rt ≠ Running ∨ is_complete (shutdown rt) = true → quiet_result (snd (call c rt)).
Proof.
  intros Hs. destruct c; try by (intros ?; eapply call_silent). cbn [call]. rewrite poll_stopped by done.
  by intros ? [= <-].
Qed.
End silence.

(** ** Timers *)
Section timers.
Context `{Vt100Laws} `{Vte} `{Aead} `{Prost} `{Zlib}.
Implicit Types rt : SessionRuntime.

(** The conditions under which [poll] has something to send at once. *)
Definition send_due rt : bool :=
  acknowledgement_due rt
  || (negb (has_pending_update (protocol rt))
      && (negb (bool_decide (queued_instructions rt = [])) || local_shutdown_unsent rt)).

(** The wait of the retransmission timer, and of the shutdown. *)
Definition timer_wait rt (now : MonotonicTime) : Z :=
  match last_send rt with
  | Some last_send => saturating_sub (retransmit_milliseconds rt) (elapsed_since now last_send)
  | None => 0
  end.
Definition shutdown_wait rt (now : MonotonicTime) : option Z :=
  match shutdown rt with
  | LocalRequested started_at transmissions =>
      Some (if SHUTDOWN_RETRY_LIMIT <=? transmissions then 0
            else saturating_sub SHUTDOWN_TIMEOUT_MILLISECONDS (elapsed_since now started_at))
  | _ => None
  end.

Lemma next_poll_eq rt now :
  lifecycle rt = Running → is_complete (shutdown rt) = false →
  milliseconds_until_next_poll rt now =
  let wait := if bool_decide (association rt = Due) || send_due rt then 0 else timer_wait rt now in
  match shutdown_wait rt now with Some t => Z.min wait t | None => wait end.
Proof.
  intros Hl Hc. unfold milliseconds_until_next_poll, send_due, shutdown_wait, timer_wait.
  rewrite Hl, Hc, bool_decide_eq_true_2 by done. cbn [negb orb].
  set (q := bool_decide (queued_instructions rt = [])).
  by destruct (bool_decide (association rt = Due)), (acknowledgement_due rt),
    (has_pending_update (protocol rt)), q, (local_shutdown_unsent rt), (shutdown rt).
Qed.

Lemma send_timer_eq rt now :
  send_timer_expired now rt = (timer_wait rt now <=? 0).
Proof.
  unfold send_timer_expired, timer_wait, saturating_sub. destruct (last_send rt) as [t|]; [|done].
  destruct (Z.leb_spec (retransmit_milliseconds rt) (elapsed_since now t)); symmetry;
    rewrite ?Z.leb_le, ?Z.leb_gt; lia.
Qed.

Lemma timer_wait_later rt now now' :
  now ≤ now' < now + timer_wait rt now → 0 < timer_wait rt now'.
Proof.
  unfold timer_wait, saturating_sub, elapsed_since, saturating_sub. destruct (last_send rt); lia.
Qed.

Lemma shutdown_wait_later rt now now' w :
  shutdown_wait rt now = Some w → now ≤ now' < now + w → shutdown_timed_out now' rt = false.
Proof.
  unfold shutdown_wait, shutdown_timed_out, saturating_sub, elapsed_since, saturating_sub.
  destruct (shutdown rt) as [|t n| |]; try done. intros [= <-] Hw.
  destruct (Z.leb_spec SHUTDOWN_RETRY_LIMIT n); [lia|]. apply Z.leb_gt. lia.
Qed.

(** The rest of [poll] when nothing is to be sent. *)
Lemma poll_rest_idle now acts rt :
  send_due rt = false → send_timer_expired now rt = false →
  shutdown_timed_out now rt = false → quiet acts →
  let '(rt', r) := poll_rest now acts rt in
  ∃ acts', r = Ok acts' ∧ quiet acts' ∧ protocol rt' = protocol rt.
Proof.
  intros Hdue Htimer Hout Hq. unfold poll_rest. rewrite bindM_get.
  destruct (_ && _); [eexists; split_and!; [done| |done]; by repeat constructor|].
  rewrite Hout, andb_false_r.
  unfold bindM at 1, connection_state_action. rewrite bindM_get.
  assert (∀ rt1 acts1, send_due rt1 = send_due rt → send_timer_expired now rt1 = send_timer_expired now rt →
    quiet acts1 → protocol rt1 = protocol rt →
    let '(rt', r) := bindM getM (λ self,
      if (negb (bool_decide (queued_instructions self = [])) || local_shutdown_unsent self)
         && negb (has_pending_update (protocol self))
      then poll_queued now acts1
      else if has_pending_update (protocol self) then poll_pending now acts1
      else poll_idle now acts1) rt1 in
    ∃ acts', r = Ok acts' ∧ quiet acts' ∧ protocol rt' = protocol rt) as Hrun.
  { intros rt1 acts1 E1 E2 Hq1 Hp. rewrite bindM_get. rewrite Hdue in E1. rewrite Htimer in E2.
    unfold send_due in E1. apply orb_false_iff in E1 as [Hack Hsend].
    rewrite andb_comm, Hsend. unfold poll_pending, poll_idle.
    destruct (has_pending_update (protocol rt1)); rewrite bindM_get, Hack, E2; by eexists. }
  destruct (_ && _).
  - rewrite bindM_mod. unfold retM at 1. apply Hrun; [done|done| |done].
    apply quiet_app. split; [done|by repeat constructor].
  - unfold retM at 1. apply Hrun; [done|done| |done]. by rewrite app_nil_r.
Qed.

Lemma poll_early now now' rt :
  now ≤ now' < now + milliseconds_until_next_poll rt now →
  let '(rt', r) := poll now' rt in
  ∃ acts, r = Ok acts ∧ quiet acts ∧ protocol rt' = protocol rt.
Proof.
  intros Hn.
  destruct (decide (lifecycle rt ≠ Running ∨ is_complete (shutdown rt) = true)) as [Hs|Hs].
  { rewrite poll_stopped by done. by eexists. }
  destruct (decide (lifecycle rt = Running)) as [Hl|]; [|naive_solver].
  destruct (is_complete (shutdown rt)) eqn:Hc; [naive_solver|].
  rewrite next_poll_eq in Hn by done. cbv zeta in Hn.
  unfold poll. rewrite bindM_get, bool_decide_eq_true_2, Hc by done. cbn [negb].
  set (wait := if _ || _ then 0 else timer_wait rt now) in *.
  assert (now ≤ now' < now + wait) as Hwait by (destruct (shutdown_wait rt now); lia).
  unfold wait in Hwait. destruct (bool_decide (association rt = Due)) eqn:Ha; [simpl in Hwait; lia|].
  destruct (send_due rt) eqn:Hd; simpl in Hwait; [lia|].
  unfold bindM at 1, poll_association. rewrite bindM_get, Ha. unfold retM at 1.
  apply poll_rest_idle; [done| | |done].
  - rewrite send_timer_eq. apply Z.leb_gt. by eapply timer_wait_later.
  - destruct (shutdown_wait rt now) as [w|] eqn:Hw.
    + eapply shutdown_wait_later; [exact Hw|]. lia.
    + unfold shutdown_wait in Hw. unfold shutdown_timed_out. by destruct (shutdown rt).
Qed.

(** *** Progress *)
Definition productive (m : M SessionRuntime RuntimeError (list SessionAction)) : Prop :=
  ∀ rt, snd (m rt) ≠ Ok [].

Lemma productive_bind {A} (m : M SessionRuntime RuntimeError A) k :
  (∀ a, productive (k a)) → productive (bindM m k).
Proof. intros Hk rt. unfold bindM. destruct (m rt) as [rt' [a|e|]]; [apply Hk|done|done]. Qed.

Lemma complete_peer_productive acts : acts ≠ [] → productive (complete_peer_shutdown_after_ack acts).
Proof.
  intros Ha rt. rewrite complete_peer_eq. destruct (peer_shutdown_acknowledgement_due rt); simpl.
  - intros [= Hx]. by destruct acts.
  - by intros [= Hx].
Qed.

Lemma sent_not_nil (acts : list SessionAction) packets d : acts ++ send_actions packets ++ [Diagnostic d] ≠ [].
Proof. by destruct acts, packets. Qed.

Lemma poll_queued_productive now acts : productive (poll_queued now acts).
Proof.
  apply productive_bind. intros [packets d]. apply productive_bind. intros _.
  apply complete_peer_productive, sent_not_nil.
Qed.

Lemma poll_pending_productive now acts rt :
  acts ≠ [] ∨ acknowledgement_due rt = true ∨ send_timer_expired now rt = true →
  snd (poll_pending now acts rt) ≠ Ok [].
Proof.
  intros Hd. unfold poll_pending. rewrite bindM_get.
  destruct (_ && _) eqn:Hb.
  - apply andb_prop in Hb as [E1 E2]. apply negb_true_iff in E1, E2. intros Hx. apply Ok_inj in Hx.
    destruct Hd as [Hd|[Hd|Hd]]; congruence.
  - apply productive_bind. intros packets. do 4 (apply productive_bind; intros ?).
    apply complete_peer_productive, sent_not_nil.
Qed.

Lemma poll_idle_productive now acts rt :
  acts ≠ [] ∨ acknowledgement_due rt = true ∨ send_timer_expired now rt = true →
  snd (poll_idle now acts rt) ≠ Ok [].
Proof.
  intros Hd. unfold poll_idle. rewrite bindM_get.
  destruct (_ && _) eqn:Hb.
  - apply andb_prop in Hb as [E1 E2]. apply negb_true_iff in E1, E2. intros Hx. apply Ok_inj in Hx.
    destruct Hd as [Hd|[Hd|Hd]]; congruence.
  - apply productive_bind. intros packets. do 3 (apply productive_bind; intros ?).
    apply complete_peer_productive, sent_not_nil.
Qed.

Lemma poll_rest_productive now acts rt :
  acts ≠ [] ∨ send_due rt = true ∨ send_timer_expired now rt = true ∨
  (peer_shutdown_acknowledgement_due rt = false ∧ shutdown_timed_out now rt = true) →
  snd (poll_rest now acts rt) ≠ Ok [].
Proof.
  intros Hd. unfold poll_rest. rewrite bindM_get. destruct (_ && _); [done|].
  destruct (negb _ && _) eqn:Hout; [done|].
  assert (acts ≠ [] ∨ send_due rt = true ∨ send_timer_expired now rt = true) as Hd'.
  { destruct Hd as [Hd|[Hd|[Hd|[Hp Ht]]]]; [tauto..|]. by rewrite Hp, Ht in Hout. }
  unfold bindM at 1, connection_state_action. rewrite bindM_get.
  assert (∀ rt1 acts1, send_due rt1 = send_due rt → send_timer_expired now rt1 = send_timer_expired now rt →
    (acts ≠ [] → acts1 ≠ []) →
    snd (bindM getM (λ self,
      if (negb (bool_decide (queued_instructions self = [])) || local_shutdown_unsent self)
         && negb (has_pending_update (protocol self))
      then poll_queued now acts1
      else if has_pending_update (protocol self) then poll_pending now acts1
      else poll_idle now acts1) rt1) ≠ Ok []) as Hrun.
  { intros rt1 acts1 E1 E2 Ha. rewrite bindM_get. rewrite <- E1, <- E2 in Hd'. unfold send_due in Hd'.
    rewrite andb_comm in Hd'.
    destruct ((negb (bool_decide (queued_instructions rt1 = [])) || local_shutdown_unsent rt1)
      && negb (has_pending_update (protocol rt1))); [apply poll_queued_productive|].
    rewrite orb_false_r in Hd'.
    destruct (has_pending_update (protocol rt1)); [apply poll_pending_productive|apply poll_idle_productive];
      naive_solver. }
  clear Hout. destruct (bool_decide (connection_state rt = Connected) && negb (is_server_responsive rt now)).
  - rewrite bindM_mod. unfold retM at 1. apply Hrun; [done|done|]. by destruct acts.
  - unfold retM at 1. apply Hrun; [done|done|]. by rewrite app_nil_r.
Qed.

(** The times recorded are not in the future. *)
Definition clock_past (now : MonotonicTime) rt : Prop :=
  (∀ t, last_send rt = Some t → t ≤ now) ∧
  (∀ t n, shutdown rt = LocalRequested t n → t ≤ now).

Lemma poll_progress now now' rt :
  lifecycle rt = Running → is_complete (shutdown rt) = false → clock_past now rt →
  now + milliseconds_until_next_poll rt now ≤ now' → now ≤ now' →
  peer_shutdown_acknowledgement_due rt = false ∨ shutdown_timed_out now' rt = false →
  snd (poll now' rt) ≠ Ok [].
Proof.
  intros Hl Hc [Hlast Hstart] Hn Hnow Hpeer. rewrite next_poll_eq in Hn by done. cbv zeta in Hn.
  unfold poll. rewrite bindM_get, bool_decide_eq_true_2, Hc by done. cbn [negb].
  unfold bindM at 1, poll_association. rewrite bindM_get.
  destruct (bool_decide (association rt = Due)) eqn:Ha.
  { unfold bindM at 1. destruct (on_protocol _ rt) as [rt1 [packets|e|]]; [|done|done].
    rewrite !bindM_mod. unfold retM at 1. apply poll_rest_productive. left. by destruct packets. }
  unfold retM at 1. apply poll_rest_productive. right.
  destruct (send_due rt) eqn:Hd; [by left|right]. cbn [orb] in Hn.
  destruct (shutdown_timed_out now' rt) eqn:Hout; [right; naive_solver|left].
  rewrite send_timer_eq. apply Z.leb_le.
  assert (now + timer_wait rt now ≤ now' → timer_wait rt now' ≤ 0) as Hw.
  { unfold timer_wait, saturating_sub, elapsed_since, saturating_sub.
    destruct (last_send rt) as [t|]; [|lia]. specialize (Hlast t eq_refl). lia. }
  apply Hw. unfold shutdown_wait in Hn. unfold shutdown_timed_out in Hout.
  destruct (shutdown rt) as [|t n| |] eqn:Hs; try done.
  apply orb_false_iff in Hout as [E1 E2]. rewrite E1 in Hn. apply Z.leb_gt in E2.
  specialize (Hstart t n eq_refl). revert Hn E2.
  unfold saturating_sub at 1, elapsed_since, saturating_sub. lia.
Qed.

(** *** Completion of the shutdown *)
Definition finished (res : SessionRuntime * outcome RuntimeError (list SessionAction)) : Prop :=
  ∀ acts, snd res = Ok acts →
  ∃ o, shutdown (fst res) = Complete o ∧ ShutdownComplete o ∈ acts.

Definition peer_due rt : Prop := peer_shutdown_acknowledgement_due rt = true.

(** [m] acknowledges the peer's shutdown, unless it fails. *)
Definition completes (m : M SessionRuntime RuntimeError (list SessionAction)) : Prop :=
  ∀ rt, peer_due rt → finished (m rt).

Lemma completes_bind {A} (m : M SessionRuntime RuntimeError A) k :
  keeps peer_due m → (∀ a, completes (k a)) → completes (bindM m k).
Proof.
  intros Hm Hk rt Hp. specialize (Hm rt Hp). unfold bindM.
  destruct (m rt) as [rt' [a|e|]]; [by apply Hk|done|done].
Qed.

Lemma complete_peer_completes acts : completes (complete_peer_shutdown_after_ack acts).
Proof.
  intros rt Hp. rewrite complete_peer_eq, Hp. intros acts' [= <-]. exists OutcomePeerRequested.
  split; [done|]. apply elem_of_app. right. by left.
Qed.

Lemma record_transmission_peer rt : peer_due rt → peer_due (record_shutdown_transmission rt).
Proof. by rewrite record_transmission_eq. Qed.

Lemma poll_queued_completes now acts : completes (poll_queued now acts).
Proof.
  apply completes_bind.
  - unfold build_queued_update. apply keeps_bind; [by apply keeps_pure|]. intros rt0.
    do 3 (apply keeps_bind; [by apply keeps_mod|]; intros _). apply keeps_bind.
    { destruct (shutdown_ack_due rt0); [|destruct (local_shutdown_unsent rt0)]; by apply on_protocol_keeps. }
    intros packets. apply keeps_bind; [by apply keeps_mod|]. intros _. by apply keeps_pure.
  - intros [packets d]. apply completes_bind; [apply keeps_mod, record_transmission_peer|].
    intros _. apply complete_peer_completes.
Qed.

Lemma poll_pending_completes now acts rt :
  peer_due rt → acknowledgement_due rt = true ∨ send_timer_expired now rt = true →
  finished (poll_pending now acts rt).
Proof.
  intros Hp Hd. unfold poll_pending. rewrite bindM_get.
  assert (negb (acknowledgement_due rt) && negb (send_timer_expired now rt) = false) as ->
    by (destruct Hd as [-> | ->]; [done|by rewrite andb_false_r]).
  revert rt Hp Hd. intros rt Hp _. apply completes_bind; [by apply on_protocol_keeps| |done].
  intros packets. apply completes_bind; [by apply keeps_pure|]. intros rt1.
  do 2 (apply completes_bind; [by apply keeps_mod|]; intros _).
  apply completes_bind; [apply keeps_mod, record_transmission_peer|]. intros _.
  apply complete_peer_completes.
Qed.

Lemma poll_idle_completes now acts rt :
  peer_due rt → acknowledgement_due rt = true ∨ send_timer_expired now rt = true →
  finished (poll_idle now acts rt).
Proof.
  intros Hp Hd. unfold poll_idle. rewrite bindM_get.
  assert (negb (acknowledgement_due rt) && negb (send_timer_expired now rt) = false) as ->
    by (destruct Hd as [-> | ->]; [done|by rewrite andb_false_r]).
  revert rt Hp Hd. intros rt Hp _. apply completes_bind; [by apply on_protocol_keeps| |done].
  intros packets. apply completes_bind; [by apply keeps_pure|]. intros rt1.
  do 2 (apply completes_bind; [by apply keeps_mod|]; intros _). apply complete_peer_completes.
Qed.

Lemma poll_rest_completes now acts rt :
  peer_due rt → send_timer_expired now rt = true → finished (poll_rest now acts rt).
Proof.
  intros Hp Ht. unfold poll_rest. rewrite bindM_get, Hp, andb_false_r. cbn [negb andb].
  unfold bindM at 1.
  assert (peer_due (fst (connection_state_action now rt)) ∧
          send_timer_expired now (fst (connection_state_action now rt)) = true ∧
          is_ok (snd (connection_state_action now rt)) = true) as (Hp1 & Ht1 & Hok).
  { unfold connection_state_action. rewrite bindM_get.
    by destruct (bool_decide (connection_state rt = Connected) && _). }
  destruct (connection_state_action now rt) as [rt1 [state|e|]]; [|done|done].
  rewrite bindM_get. simpl in Hp1, Ht1.
  destruct (_ && _); [by apply poll_queued_completes|].
  destruct (has_pending_update _); [apply poll_pending_completes|apply poll_idle_completes]; auto.
Qed.

Lemma poll_associated now rt :
  lifecycle rt = Running → is_complete (shutdown rt) = false → association rt ≠ Due →
  poll now rt = poll_rest now [] rt.
Proof.
  intros Hl Hc Ha. unfold poll. rewrite bindM_get, bool_decide_eq_true_2, Hc by done. cbn [negb].
  unfold bindM at 1, poll_association. by rewrite bindM_get, bool_decide_eq_false_2.
Qed.

Lemma poll_completes key now rt :
  wf_runtime key rt → lifecycle rt = Running → association rt = Sent →
  shutdown_in_progress rt = true →
  (∀ t n, shutdown rt = LocalRequested t n → t + SHUTDOWN_TIMEOUT_MILLISECONDS ≤ now) →
  (∀ t, last_send rt = Some t → t + MAXIMUM_RETRANSMIT_MILLISECONDS ≤ now) →
  finished (poll now rt) ∧ (peer_shutdown_acknowledgement_due rt = false → is_ok (snd (poll now rt)) = true).
Proof.
  intros Hw Hl Ha Hprog Hstart Hlast. rewrite poll_associated; [|done| |by rewrite Ha].
  2: { unfold shutdown_in_progress in Hprog. by destruct (shutdown rt). }
  destruct (peer_shutdown_acknowledgement_due rt) eqn:Hp.
  - split; [|done]. apply poll_rest_completes; [done|]. unfold send_timer_expired.
    destruct (last_send rt) as [t|]; [|done]. specialize (Hlast t eq_refl).
    pose proof (rt_timer key rt Hw) as [_ Ht]. apply Z.leb_le. unfold elapsed_since, saturating_sub. lia.
  - assert (shutdown_timed_out now rt = true) as Hout.
    { pose proof (rt_shutdown key rt Hw) as Hs. rewrite Hp in Hs. unfold shutdown_in_progress in Hprog.
      unfold shutdown_timed_out. destruct (shutdown rt) as [|t n| |]; try done.
      specialize (Hstart t n eq_refl). apply orb_true_iff. right. apply Z.leb_le.
      unfold elapsed_since, saturating_sub. lia. }
    unfold poll_rest. rewrite !bindM_get, Hp, Hout. cbn [negb andb]. rewrite andb_true_r.
    destruct (local_shutdown_acknowledged (protocol rt)); (split; [|done]); intros acts [= <-];
      eexists; (split; [done|by left]).
Qed.
End timers.

(** ** Delivery to the host *)
Definition terminal_effect (a : SessionAction) : bool :=
  match a with
  | WriteTerminal _ | ResizeTerminal _ _ | AcknowledgePrediction _ | RemoteSessionControl _ _ => true
  | _ => false
  end.
Definition host_effects (acts : list SessionAction) : list SessionAction :=
  filter (λ a, terminal_effect a = true) acts.
Definition effectless (acts : list SessionAction) : Prop := Forall (λ a, terminal_effect a = false) acts.

Lemma host_effects_app l k : host_effects (l ++ k) = host_effects l ++ host_effects k.
Proof. apply filter_app. Qed.

Lemma host_effects_none l : effectless l → host_effects l = [].
Proof.
  unfold host_effects. induction 1 as [|a l Ha _ IH]; [done|].
  rewrite filter_cons_False; [done|]. by rewrite Ha.
Qed.

Lemma host_effects_all l : Forall (λ a, terminal_effect a = true) l → host_effects l = l.
Proof.
  unfold host_effects. induction 1 as [|a l Ha _ IH]; [done|].
  by rewrite filter_cons_True, IH.
Qed.

Lemma instruction_effects (l : list Instruction) :
  host_effects (mjoin (instruction_actions <$> l)) = mjoin (instruction_actions <$> l).
Proof.
  apply host_effects_all. induction l as [|i l IH]; [constructor|]. rewrite fmap_cons. simpl.
  apply Forall_app. split; [|exact IH].
  destruct i as [[b|] [vp|] [mk|] [sc|]]; unfold instruction_actions; cbn;
    repeat first [destruct (try_into _ _)]; repeat constructor.
Qed.

Section delivery.
Context `{Vt100Laws} `{Vte} `{Aead} `{ProstLaws} `{Zlib}.
Implicit Types rt : SessionRuntime.

Lemma mark_connected_run rt :
  ∃ rt' acts, mark_connected rt = (rt', Ok acts) ∧ effectless acts ∧ protocol rt' = protocol rt.
Proof.
  unfold mark_connected. rewrite bindM_get. destruct (negb _); do 2 eexists; (split_and!; [done| |done]);
    by repeat constructor.
Qed.

Lemma sample_echo_run echoed now rt :
  ∃ rt' acts, sample_echo echoed now rt = (rt', Ok acts) ∧ effectless acts ∧ protocol rt' = protocol rt.
Proof.
  unfold sample_echo. destruct (negb _); [|do 2 eexists; (split_and!; [done| |done]); by constructor].
  destruct (_ <=? _); [|do 2 eexists; (split_and!; [done| |done]); by constructor].
  unfold record_round_trip_sample. rewrite bindM_mod, bindM_get.
  set (rt1 := update_retransmit_timeout _ rt).
  assert (protocol rt1 = protocol rt) as Hp
    by (unfold rt1, update_retransmit_timeout; by destruct (smoothed_round_trip_milliseconds rt)).
  destruct (bool_decide (round_trip_milliseconds rt1 = _)); do 2 eexists;
    (split_and!; [done| |done]); by repeat constructor.
Qed.

Lemma note_state_protocol state rt :
  ∃ rt', note_state state rt = (rt', Ok tt) ∧ protocol rt' = protocol rt.
Proof.
  rewrite note_state_eq. eexists. split; [done|]. by destruct (_ =? u64_max).
Qed.

(** What [receive_datagram] makes of the receipt of the packet. *)
Lemma receive_datagram_run packet now rt :
  lifecycle rt = Running →
  let '(p, receipt) := ingest_packet packet (protocol rt) in
  let '(rt', r) := receive_datagram packet now rt in
  protocol rt' = p ∧
  match receipt with
  | Ok receipt =>
      match advanced_state (Ok receipt) with
      | Some u =>
          ∃ acts, effectless acts ∧ RemoteStateAdvanced (target_state u) ∈ acts ∧
            r = (let? batch := map_err RuntimeMessage (decode_instructions u) in
                 Ok (acts ++ mjoin (instruction_actions <$> instructions batch)))
      | None => ∃ acts, effectless acts ∧ r = Ok acts
      end
  | Err e => r = Err (RuntimeSession e)
  | Panic => r = Panic
  end.
Proof.
  intros Hl. destruct (ingest_packet packet (protocol rt)) as [p receipt] eqn:Hi.
  unfold receive_datagram. unfold bindM at 1, ensure_running. rewrite bindM_get, Hl.
  unfold retM at 1. rewrite bindM_get. unfold bindM at 1. rewrite on_protocol_eq, Hi. cbn [fst snd].
  destruct receipt as [receipt|e|]; [|done|done]. cbn [map_err]. rewrite bindM_mod, bindM_get.
  set (rt1 := _ <| last_receive := now |>). set (caps := if negb _ then _ else _).
  assert (effectless caps) as Hcaps by (unfold caps; destruct (negb _); by repeat constructor).
  destruct (mark_connected_run rt1) as (rt2 & connected & Hc & Hcq & Hp2). unfold bindM at 1. rewrite Hc.
  destruct (sample_echo_run (pr_echoed_timestamp receipt) now rt2) as (rt3 & sampled & Hs & Hsq & Hp3).
  unfold bindM at 1. rewrite Hs.
  assert (protocol rt3 = p) as Hp by by rewrite Hp3, Hp2. clearbody caps.
  assert (effectless ((caps ++ connected) ++ sampled)) as Hq
    by (apply Forall_app; split; [by apply Forall_app|done]).
  unfold advanced_state. destruct (pr_state receipt) as [state|]; [|by split; [|eexists]].
  destruct (note_state_protocol state rt3) as (rt4 & Hn & Hp4). unfold bindM at 1. rewrite Hn.
  assert (protocol rt4 = p) as Hp' by by rewrite Hp4.
  assert (effectless (((caps ++ connected) ++ sampled) ++ [accepted_diagnostic state])) as Hq'
    by (apply Forall_app; split; [done|by repeat constructor]).
  destruct (advances_remote_state state); cbn [negb]; [|by split; [|eexists]].
  unfold bindM, liftM.
  assert (∃ acts, effectless acts ∧ RemoteStateAdvanced (target_state (rs_update state)) ∈ acts ∧
    acts = (((caps ++ connected) ++ sampled) ++ [accepted_diagnostic state])
           ++ [RemoteStateAdvanced (target_state (rs_update state))]) as (acts & Ha & Hin & <-).
  { eexists. split_and!; [|apply elem_of_app; right; by left|done].
    apply Forall_app. split; [done|by repeat constructor]. }
  destruct (decode_instructions (rs_update state)) as [batch|e|]; cbn [map_err bind_ok retM];
    (split; [done|]); by exists acts.
Qed.
End delivery.

(** ** The queue of the host *)

(** A resize directly followed by a resize is superseded. *)
Fixpoint coalesce (l : list Instruction) : list Instruction :=
  match l with
  | [] => []
  | i :: l' =>
      match l' with
      | j :: _ => if is_resize i && is_resize j then coalesce l' else i :: coalesce l'
      | [] => [i]
      end
  end.

Lemma coalesce_cons i l :
  coalesce (i :: l) =
  match l with
  | j :: _ => if is_resize i && is_resize j then coalesce l else i :: coalesce l
  | [] => [i]
  end.
Proof. done. Qed.

Lemma coalesce_not_nil i l : coalesce (i :: l) ≠ [].
Proof.
  revert i. induction l as [|j l IH]; intros i; [done|]. rewrite coalesce_cons.
  destruct (_ && _); [apply IH|done].
Qed.

Lemma queue_push_cons i a l : l ≠ [] → queue_push i (a :: l) = a :: queue_push i l.
Proof.
  intros Hl. unfold queue_push. destruct l as [|b l]; [done|]. rewrite last_cons_cons.
  by destruct (_ && _).
Qed.

Lemma coalesce_push i l : queue_push i (coalesce l) = coalesce (l ++ [i]).
Proof.
  induction l as [|a l IH]; [unfold queue_push; simpl; by rewrite andb_false_r|].
  destruct l as [|b l].
  - unfold queue_push. simpl. rewrite andb_comm. by destruct (_ && _).
  - change ((a :: b :: l) ++ [i]) with (a :: b :: (l ++ [i])).
    change ((b :: l) ++ [i]) with (b :: (l ++ [i])) in IH.
    rewrite (coalesce_cons a (b :: l)), (coalesce_cons a (b :: (l ++ [i]))).
    destruct (is_resize a && is_resize b); [exact IH|].
    rewrite queue_push_cons by apply coalesce_not_nil. by rewrite IH.
Qed.

Section queue.
Context `{Vt100Laws} `{Vte} `{Aead} `{Prost} `{Zlib}.
Implicit Types rt : SessionRuntime.

(** A host's events one after the other, and what each returned. *)
Fixpoint queue_events (l : list TerminalInputEvent) rt
    : list (outcome RuntimeError unit) * SessionRuntime :=
  match l with
  | [] => ([], rt)
  | event :: l =>
      let '(rt, r) := queue_terminal_event event rt in
      let '(rs, rt) := queue_events l rt in (r :: rs, rt)
  end.

Definition event_instruction (event : TerminalInputEvent) : Instruction :=
  match event with
  | InputBytes input => input_instruction input
  | InputResize columns rows => resize_instruction columns rows
  end.
Definition event_size (event : TerminalInputEvent) : Z :=
  match event with InputBytes input => len input | InputResize _ _ => 0 end.
Definition event_ok (event : TerminalInputEvent) : Prop :=
  match event with InputResize columns rows => fits 16 columns ∧ fits 16 rows | _ => True end.

#[global] Instance event_ok_dec event : Decision (event_ok event).
Proof. destruct event; unfold event_ok; apply _. Defined.

Lemma queue_event_accepted key event rt :
  wf_runtime key rt → refusal rt = None → event_ok event →
  queued_input_bytes rt + event_size event ≤ MAXIMUM_QUEUED_INPUT_BYTES →
  ∃ rt', queue_terminal_event event rt = (rt', Ok tt) ∧ wf_runtime key rt' ∧ refusal rt' = None ∧
    queued_input_bytes rt' = queued_input_bytes rt + event_size event ∧
    queued_instructions rt' = queue_push (event_instruction event) (queued_instructions rt).
Proof.
  intros Hw Hr Hok Hb.
  assert (∀ c r, event = InputResize c r → fits 16 c ∧ fits 16 r) as Hok' by by intros c r ->.
  pose proof (queue_terminal_event_wf key event rt Hok' Hw) as [Hw' _].
  rewrite queue_terminal_event_eq, Hr in *. destruct event as [input|c r]; simpl in Hb.
  - unfold enqueue in *. rewrite Hr in *. rewrite (proj2 (Z.ltb_ge _ _)) in * by done.
    eexists. split_and!; done.
  - rewrite queue_resize_eq, Hr in *. destruct Hok as [Hc Hrr].
    destruct (set_viewport_wf c r (protocol rt)) as (p & Hp & _); [by eapply wf_reach_protocol|done|done|].
    rewrite Hp in *. eexists. split_and!; try done. simpl. lia.
Qed.

Lemma queue_events_accepted key l rt l0 :
  wf_runtime key rt → refusal rt = None → Forall event_ok l →
  queued_input_bytes rt + sum_list_Z (event_size <$> l) ≤ MAXIMUM_QUEUED_INPUT_BYTES →
  queued_instructions rt = coalesce l0 →
  let '(rs, rt') := queue_events l rt in
  Forall (λ r, r = Ok tt) rs ∧ refusal rt' = None ∧
  queued_instructions rt' = coalesce (l0 ++ (event_instruction <$> l)) ∧
  queued_input_bytes rt' = queued_input_bytes rt + sum_list_Z (event_size <$> l).
Proof.
  revert rt l0. induction l as [|event l IH]; intros rt l0 Hw Hr Hok Hb Hq; cbn [queue_events].
  { split_and!; [constructor|done|by rewrite app_nil_r|simpl; lia]. }
  apply Forall_cons in Hok as [Hok Hl]. rewrite fmap_cons, sum_list_Z_cons in Hb.
  assert (0 ≤ sum_list_Z (event_size <$> l)) as Hpos.
  { clear. induction l as [|e l IH]; [done|]. rewrite fmap_cons, sum_list_Z_cons.
    destruct e as [i|c r]; cbn [event_size]; [pose proof (len_nonneg i)|]; lia. }
  destruct (queue_event_accepted key event rt Hw Hr Hok) as (rt1 & -> & Hw1 & Hr1 & Hb1 & Hq1); [lia|].
  rewrite Hq, coalesce_push in Hq1.
  specialize (IH rt1 (l0 ++ [event_instruction event]) Hw1 Hr1 Hl ltac:(lia) Hq1).
  destruct (queue_events l rt1) as [rs rt2]. destruct IH as (Hrs & Hr2 & Hq2 & Hb2). split_and!.
  - by constructor.
  - done.
  - rewrite Hq2, fmap_cons. by rewrite <- app_assoc.
  - rewrite fmap_cons, sum_list_Z_cons. lia.
Qed.
End queue.

(** ** The round-trip estimator on a steady path *)

(** How far the smoothed estimate is from [x - 7, x]. *)
Definition estimate_gap (x s : Z) : Z := Z.max 0 (Z.max (s - x) (x - 7 - s)).

Lemma estimate_gap_step x s :
  0 ≤ x → 0 ≤ s → estimate_gap x ((7 * s + x) / 8) ≤ Z.max 0 (estimate_gap x s - 1).
Proof. unfold estimate_gap. intros. Z.to_euclidean_division_equations; lia. Qed.

Lemma variation_step v d : 0 ≤ v → 0 ≤ d ≤ 7 → (3 * v + d) / 4 ≤ Z.max 7 (v - 1).
Proof. intros. Z.to_euclidean_division_equations; lia. Qed.

Section steady.
Context `{Vt100Laws} `{Vte} `{Aead} `{Prost} `{Zlib} (key : SessionKey).
Implicit Types rt : SessionRuntime.

Definition samples (n : nat) (x : Z) rt : SessionRuntime := Nat.iter n (update_retransmit_timeout x) rt.

Lemma samples_wf n x rt : 0 ≤ x ≤ 30000 → wf_runtime key rt → wf_runtime key (samples n x rt).
Proof. intros Hx Hw. induction n as [|n IH]; [done|]. simpl. by apply update_retransmit_timeout_wf. Qed.

Definition gap x rt : Z :=
  match smoothed_round_trip_milliseconds rt with Some s => estimate_gap x s | None => 30001 end.

Lemma sample_step x rt :
  0 ≤ x ≤ 30000 → wf_runtime key rt →
  let rt' := update_retransmit_timeout x rt in
  ∃ s, smoothed_round_trip_milliseconds rt' = Some s ∧
    estimate_gap x s ≤ Z.max 0 (gap x rt - 1) ∧
    (gap x rt = 0 → round_trip_variation_milliseconds rt' ≤
       Z.max 7 (round_trip_variation_milliseconds rt - 1)) ∧
    retransmit_milliseconds rt' = timeout_of (Some s, round_trip_variation_milliseconds rt').
Proof.
  intros Hx Hw. destruct (rt_estimate key rt Hw) as [Hs Hv].
  destruct (update_retransmit_timeout_eq x rt Hx (conj Hs Hv)) as [-> _].
  unfold estimate, gap. destruct (smoothed_round_trip_milliseconds rt) as [s|].
  - specialize (Hs s eq_refl). exists ((7 * s + x) / 8). split_and!; [done| | |done].
    + apply estimate_gap_step; lia.
    + intros Hg. apply variation_step; [lia|]. unfold estimate_gap in Hg. lia.
  - exists x. split_and!; [done| |lia|done]. unfold estimate_gap. lia.
Qed.

Lemma gap_bound x rt : 0 ≤ x ≤ 30000 → wf_runtime key rt → 0 ≤ gap x rt ≤ 30001.
Proof.
  intros Hx Hw. destruct (rt_estimate key rt Hw) as [Hs _]. unfold gap, estimate_gap.
  destruct (smoothed_round_trip_milliseconds rt) as [s|]; [specialize (Hs s eq_refl)|]; lia.
Qed.

Lemma samples_gap n x rt :
  0 ≤ x ≤ 30000 → wf_runtime key rt → gap x (samples n x rt) ≤ Z.max 0 (30001 - Z.of_nat n).
Proof.
  intros Hx Hw. induction n as [|n IH].
  - pose proof (gap_bound x rt Hx Hw). simpl. lia.
  - destruct (sample_step x (samples n x rt) Hx (samples_wf n x rt Hx Hw)) as (s & Hs & Hg & _).
    change (samples (S n) x rt) with (update_retransmit_timeout x (samples n x rt)).
    unfold gap at 1. rewrite Hs. lia.
Qed.

Lemma samples_variation n m x rt :
  0 ≤ x ≤ 30000 → wf_runtime key rt → 30001 ≤ Z.of_nat m →
  round_trip_variation_milliseconds (samples (n + m) x rt) ≤ Z.max 7 (30000 - Z.of_nat n).
Proof.
  intros Hx Hw Hm. induction n as [|n IH].
  - destruct (rt_estimate key _ (samples_wf (0 + m) x rt Hx Hw)) as [_ Hv]. lia.
  - pose proof (samples_wf (n + m) x rt Hx Hw) as Hwn.
    destruct (sample_step x (samples (n + m) x rt) Hx Hwn) as (s & _ & _ & Hv & _).
    change (samples (S n + m) x rt) with (update_retransmit_timeout x (samples (n + m) x rt)).
    assert (gap x (samples (n + m) x rt) = 0) as Hz.
    { pose proof (samples_gap (n + m) x rt Hx Hw). pose proof (gap_bound x _ Hx Hwn). lia. }
    specialize (Hv Hz). lia.
Qed.
End steady.

(** ** Properties *)

(** C22: From any state a host can reach, every call keeps the invariant of the
    runtime and does not panic: at most one state is unacknowledged, the counted
    input is the queued input and at most 1 MiB, the retransmission timeout stays
    between 250 ms and 10 s, at most 16 transmissions of the shutdown state are
    made, and the protocol is only driven through its own reachable states. *)
Theorem runtime_invariant `{Vt100Laws} `{Vte} `{Aead} `{Prost} `{Zlib} key (rt : SessionRuntime) c :
  runtime_reach key rt → call_ok c rt →
  let '(rt', r) := call c rt in
  r ≠ Panic ∧ protocol_reach key (protocol rt') ∧
  len (sent_states (protocol rt')) ≤ 2 ∧
  queued_input_bytes rt' = queue_bytes (queued_instructions rt') ∧
  queued_input_bytes rt' ≤ MAXIMUM_QUEUED_INPUT_BYTES ∧
  250 ≤ retransmit_milliseconds rt' ≤ 10000 ∧
  (∀ t n, shutdown rt' = LocalRequested t n → 0 ≤ n ≤ SHUTDOWN_RETRY_LIMIT) ∧
  (shutdown rt' = PeerRequested → peer_shutdown_acknowledgement_due rt' = true).
Proof.
  intros Hr Hok. apply runtime_reach_wf in Hr.
  pose proof (call_wf key c rt Hr Hok) as [Hw Hn]. destruct (call c rt) as [rt' r].
  simpl in Hw, Hn. split; [done|]. split; [by apply (rt_protocol key rt' Hw)|].
  split; [by apply one_in_flight_bound, (rt_flight key rt' Hw)|].
  split; [apply (rt_queue key rt' Hw)|]. split; [apply (rt_queue_bound key rt' Hw)|].
  split; [apply (rt_timer key rt' Hw)|]. pose proof (rt_shutdown key rt' Hw) as Hs.
  split; [intros t n He|intros He]; by rewrite He in Hs.
Qed.

(** C25: [milliseconds_until_next_poll] is exact: a host that polls before the wait is
    over sends nothing and changes nothing of the protocol; one that polls when it
    is over gets something to do, except while the peer's shutdown waits for its
    acknowledgement after the local shutdown timed out. *)
Theorem next_poll_exact `{Vt100Laws} `{Vte} `{Aead} `{Prost} `{Zlib} (rt : SessionRuntime) now now' :
  now ≤ now' →
  (now' < now + milliseconds_until_next_poll rt now →
   let '(rt', r) := poll now' rt in ∃ acts, r = Ok acts ∧ quiet acts ∧ protocol rt' = protocol rt) ∧
  (now + milliseconds_until_next_poll rt now ≤ now' → clock_past now rt →
   lifecycle rt = Running → is_complete (shutdown rt) = false →
   peer_shutdown_acknowledgement_due rt = false ∨ shutdown_timed_out now' rt = false →
   snd (poll now' rt) ≠ Ok []).
Proof.
  intros Hn. split.
  - intros Hlt. by apply (poll_early now).
  - intros Hle Hc Hl Hs Hp. by apply (poll_progress now).
Qed.

(** C24: The shutdown handshake is bounded: once 10 s passed since it started and since
    the last transmission, a poll completes it (and a poll that fails does so only
    because it could not seal the acknowledgement of the peer's shutdown), whatever
    was received; a completed shutdown stays completed. *)
Theorem shutdown_bounded `{Vt100Laws} `{Vte} `{Aead} `{Prost} `{Zlib} key (rt : SessionRuntime) now :
  runtime_reach key rt → lifecycle rt = Running → association rt = Sent →
  shutdown_in_progress rt = true →
  (∀ t n, shutdown rt = LocalRequested t n → t + SHUTDOWN_TIMEOUT_MILLISECONDS ≤ now) →
  (∀ t, last_send rt = Some t → t + MAXIMUM_RETRANSMIT_MILLISECONDS ≤ now) →
  let '(rt', r) := poll now rt in
  (∀ acts, r = Ok acts → ∃ o, shutdown rt' = Complete o ∧ ShutdownComplete o ∈ acts ∧
     ∀ l, shutdown (snd (calls l rt')) = Complete o) ∧
  (peer_shutdown_acknowledgement_due rt = false → is_ok r = true).
Proof.
  intros Hr Hl Ha Hp Hs Ht. apply runtime_reach_wf in Hr.
  destruct (poll_completes key now rt Hr Hl Ha Hp Hs Ht) as [Hf Hok].
  destruct (poll now rt) as [rt' r]. split; [|done]. intros acts Hacts.
  destruct (Hf acts Hacts) as (o & Ho & Hin). exists o. split_and!; [done|done|]. intros l.
  simpl in Ho. clear -Ho. revert rt' Ho. induction l as [|c l IH]; intros rt' Ho; [done|]. simpl.
  pose proof (call_keeps_complete o c rt' Ho) as Hc. destruct (call c rt') as [rt1 r].
  specialize (IH rt1 Hc). by destruct (calls l rt1).
Qed.

(** C26: A stopped runtime is silent: after [cancel] no sequence of calls sends a
    datagram, resumes the session or accepts input; after a completed shutdown no
    sequence of calls sends a datagram; and a paused runtime sends none until the
    host resumes it. *)
Theorem stopped_runtime_silent `{Vt100Laws} `{Vte} `{Aead} `{Prost} `{Zlib} (rt : SessionRuntime) l :
  lifecycle rt = Cancelled ∨ is_complete (shutdown rt) = true ∨
    (lifecycle rt = Paused ∧ Forall (λ c, resumes c = false) l) →
  let '(rs, rt') := calls l rt in
  Forall quiet_result rs ∧
  (lifecycle rt = Cancelled → lifecycle rt' = Cancelled ∧
     queued_instructions rt' = queued_instructions rt).
Proof.
  revert rt. induction l as [|c l IH]; intros rt Hs; cbn [calls]; [by split; [constructor|]|].
  assert (quiet_result (snd (call c rt))) as Hq.
  { apply stopped_silent. destruct Hs as [Hs|[Hs|[Hs _]]]; [|by right|]; left; congruence. }
  assert ((lifecycle (fst (call c rt)) = Cancelled ∨ is_complete (shutdown (fst (call c rt))) = true ∨
    (lifecycle (fst (call c rt)) = Paused ∧ Forall (λ c, resumes c = false) l)) ∧
    (lifecycle rt = Cancelled → lifecycle (fst (call c rt)) = Cancelled ∧
       queued_instructions (fst (call c rt)) = queued_instructions rt)) as [Hs' Hk].
  { assert (lifecycle rt = Cancelled → lifecycle (fst (call c rt)) = Cancelled ∧
       queued_instructions (fst (call c rt)) = queued_instructions rt) as Hk.
    { intros Hc. apply call_keeps_stopped; [by rewrite Hc|by right|done]. }
    split; [|done]. destruct Hs as [Hs|[Hs|[Hs Hr]]]; [left; by apply Hk|right; left|].
    - destruct (shutdown rt) as [| | |o] eqn:Ho; try done.
      by rewrite (call_keeps_complete o c rt Ho).
    - apply Forall_cons in Hr as [Hc Hr].
      destruct (call_keeps_stopped c rt) as [Hn _]; [by rewrite Hs|by left|].
      destruct (lifecycle (fst (call c rt))); [done|by right; right|by left]. }
  destruct (call c rt) as [rt1 r]. cbn [fst snd] in *. specialize (IH rt1 Hs').
  destruct (calls l rt1) as [rs rt2]. destruct IH as [Hrs Hc]. split; [by constructor|].
  intros Hl. destruct (Hk Hl) as [Hl1 <-]. by apply Hc.
Qed.


(** The input queue keeps the host's events in order: while the bound is not
    exceeded every event is accepted, and the queue holds all of them, a resize
    directly followed by a resize left out. *)
Theorem queue_coalesces_resizes `{Vt100Laws} `{Vte} `{Aead} `{Prost} `{Zlib}
    key (rt : SessionRuntime) l l0 :
  runtime_reach key rt → refusal rt = None → Forall event_ok l →
  queued_instructions rt = coalesce l0 →
  (queued_input_bytes rt + sum_list_Z (event_size <$> l) ≤ MAXIMUM_QUEUED_INPUT_BYTES →
   let '(rs, rt') := queue_events l rt in
   Forall (λ r, r = Ok tt) rs ∧
   queued_instructions rt' = coalesce (l0 ++ (event_instruction <$> l)) ∧
   queued_input_bytes rt' = queued_input_bytes rt + sum_list_Z (event_size <$> l)) ∧
  ∀ input, MAXIMUM_QUEUED_INPUT_BYTES < queued_input_bytes rt + len input →
    queue_terminal_event (InputBytes input) rt = (rt, Err InputQueueFull).
Proof.
  intros Hr Hacc Hok Hq. apply runtime_reach_wf in Hr. split.
  - intros Hb. pose proof (queue_events_accepted key l rt l0 Hr Hacc Hok Hb Hq) as Hl.
    destruct (queue_events l rt). tauto.
  - intros input Hfull. rewrite queue_terminal_event_eq, Hacc. unfold enqueue.
    by rewrite Hacc, (proj2 (Z.ltb_lt _ _)).
Qed.

(** On a steady path the retransmission timeout converges: from any reachable
    state, at most 60001 equal round-trip samples [x] bring the smoothed estimate
    within 7 ms below [x], and the timeout between the clamped [x - 7] and
    [x + 28], without an intermediate saturation. *)
Theorem round_trip_estimate_converges `{Vt100Laws} `{Vte} `{Aead} `{Prost} `{Zlib}
    key (rt : SessionRuntime) x n :
  runtime_reach key rt → 0 ≤ x ≤ 30000 → 60001 ≤ Z.of_nat n →
  let rt' := samples n x rt in
  ∃ s, smoothed_round_trip_milliseconds rt' = Some s ∧ x - 7 ≤ s ≤ x ∧
    clamp 250 10000 (x - 7) ≤ retransmit_milliseconds rt' ≤ clamp 250 10000 (x + 28).
Proof.
  intros Hr Hx Hn rt'. apply runtime_reach_wf in Hr.
  destruct n as [|n]; [lia|]. unfold rt'.
  change (samples (S n) x rt) with (update_retransmit_timeout x (samples n x rt)).
  pose proof (samples_wf key n x rt Hx Hr) as Hw.
  destruct (sample_step key x (samples n x rt) Hx Hw) as (s & Hs & Hg & Hv & Ht).
  assert (gap x (samples n x rt) = 0) as Hz.
  { pose proof (samples_gap key n x rt Hx Hr). pose proof (gap_bound key x _ Hx Hw). lia. }
  specialize (Hv Hz).
  assert (round_trip_variation_milliseconds (samples n x rt) ≤ 7) as Hv7.
  { pose proof (samples_variation key (n - Z.to_nat 30001) (Z.to_nat 30001) x rt Hx Hr) as Hs7.
    replace (n - Z.to_nat 30001 + Z.to_nat 30001)%nat with n in Hs7 by lia. lia. }
  pose proof (rt_estimate key _ (update_retransmit_timeout_wf key x _ Hx Hw)) as [_ Hpos].
  exists s. unfold estimate_gap in Hg. split; [done|]. split; [lia|].
  rewrite Ht. unfold timeout_of, clamp, MINIMUM_RETRANSMIT_MILLISECONDS, MAXIMUM_RETRANSMIT_MILLISECONDS.
  cbn [fst snd default]. unfold id. lia.
Qed.
