(* ===== verification/Ssp.v ===== *)
(** * State synchronisation, abstractly

    The State Synchronisation Protocol keeps two copies of an object in step by messages
    that may be lost, repeated and reordered. The object's states are numbered, and a
    message says how to get from a base state to a target state. A receiver keeps the
    states it was able to build: state 0, and the target of every message whose base it
    keeps. What the client sends is proved against this specification in Uplink.v and
    Arrival.v. *)
From S2P Require Import Prelude Message.
Local Open Scope Z_scope.

Section ssp.
Context {A : Type}.

(** What a message makes of the content of its base; [None] if it does not apply. *)
Variable extend : list A → StateUpdate → option (list A).

(** The states a receiver of the messages [sent] can build, in whatever order the
    messages arrive, however often, and whichever are lost. *)
Inductive holds (sent : list StateUpdate) : Z → list A → Prop :=
| holds_initial : holds sent 0 []
| holds_update u content content' :
    u ∈ sent → holds sent (base_state u) content → extend content u = Some content' →
    holds sent (target_state u) content'.

(** A log gives every number its one content. *)
Record consistent (log : Z → list A) (sent : list StateUpdate) : Prop := {
  log_initial : log 0 = [];
  log_sent : Forall (λ u, extend (log (base_state u)) u = Some (log (target_state u))) sent;
}.

Lemma holds_log log sent k content : consistent log sent → holds sent k content → content = log k.
Proof.
  intros [H0 Hs]. induction 1 as [|u content content' Hu _ -> He]; [done|].
  rewrite Forall_forall in Hs. specialize (Hs u Hu). congruence.
Qed.

Lemma holds_more sent sent' k content : sent ⊆ sent' → holds sent k content → holds sent' k content.
Proof.
  intros Hs. induction 1 as [|u content content' Hu _ IH He]; [constructor|].
  apply (holds_update _ u content); [by apply Hs|exact IH|exact He].
Qed.

Lemma consistent_nil log : log 0 = [] → consistent log [].
Proof. by split. Qed.

Lemma consistent_app log sent sent' :
  consistent log sent → consistent log sent' → consistent log (sent ++ sent').
Proof. intros [] []. split; [done|]. by apply Forall_app. Qed.

(** A log may change where no message mentions it. *)
Lemma consistent_ext log log' sent :
  log' 0 = [] → (∀ u, u ∈ sent → log' (base_state u) = log (base_state u) ∧
    log' (target_state u) = log (target_state u)) →
  consistent log sent → consistent log' sent.
Proof.
  intros H0 Hl [_ Hs]. split; [done|]. rewrite Forall_forall in *. intros u Hu.
  destruct (Hl u Hu) as [-> ->]. by apply Hs.
Qed.
End ssp.
