(* ===== verification/Uplink.v ===== *)
(** * From the user to the server

    The composition of the queue of the runtime, its timers and retransmissions, the sent
    states of the protocol, sealing and fragmentation, seen from the server: whatever the
    network does with the datagrams, the input a server of the same key can hold is what
    the user typed, in order, each instruction once. *)
From Stdlib Require Import Sorted.
From S2P Require Import Prelude Emulators Fragment Message Crypto State Session Runtime Ssp.
Local Open Scope Z_scope.

(** What a message of the client adds to the input that the server holds. *)
Definition add_input `{Prost} `{Zlib} (input : list Instruction) (u : StateUpdate)
    : option (list Instruction) :=
  match decode_instructions u with
  | Ok batch => Some (input ++ instructions batch)
  | _ => None
  end.

Section sending.
Context `{Vt100Laws} `{Vte} `{AeadLaws} `{ProstLaws} `{ZlibLaws} (key : SessionKey).
Implicit Types p : ClientProtocol.

(** The numbers that may be in use. *)
Definition used p (k : Z) : Prop :=
  0 ≤ k < next_local_state p ∨ k = u64_max ∧ local_shutdown_sent p = true.

(** The sent states follow the log, each from the one before it. *)
Fixpoint chain (log : Z → list Instruction) (k : Z) (l : list (Z * list Instruction)) : Prop :=
  match l with
  | [] => True
  | (id, batch) :: l => log id = log k ++ batch ∧ chain log id l
  end.

Lemma chain_app log k l id batch :
  chain log k (l ++ [(id, batch)]) ↔
  chain log k l ∧ log id = log (default k (last l.*1)) ++ batch.
Proof.
  revert k. induction l as [|[i b] l IH]; intros k; [simpl; tauto|].
  cbn [chain app]. rewrite IH, fmap_cons, last_cons. cbn [fst].
  by destruct (last l.*1); simpl; tauto.
Qed.

Lemma chain_drop log k l i e :
  chain log k l → l !! i = Some e → chain log e.1 (drop (S i) l).
Proof.
  revert k i. induction l as [|[id b] l IH]; intros k [|i] Hc Hi; [done|done| |].
  - injection Hi as <-. apply Hc.
  - destruct Hc as [_ Hc]. by apply (IH id i).
Qed.

Lemma chain_ext log log' k l :
  log' k = log k → (∀ e, e ∈ l → log' e.1 = log e.1) → chain log k l → chain log' k l.
Proof.
  revert k. induction l as [|[id b] l IH]; intros k Hk Hl Hch; [done|].
  destruct Hch as [Hid Hc].
  assert (log' id = log id) as He by (apply (Hl (id, b)); by left).
  split; [by rewrite He, Hk|]. apply IH; [done| |done]. intros e Hin. apply Hl. by right.
Qed.

Lemma chain_last log spec :
  chain log (confirmed spec) (sent_log spec) →
  log (last_id spec) = log (confirmed spec) ++ pending spec.
Proof.
  unfold last_id, id_at, pending. rewrite take_ge by done. destruct spec as [c l]. simpl.
  induction l as [|[id b] l IH] using rev_ind; [by rewrite app_nil_r|].
  rewrite chain_app. intros [Hc Hid]. rewrite !fmap_app. simpl. rewrite last_snoc, join_app. simpl.
  rewrite app_nil_r, Hid, (IH Hc). by rewrite <- app_assoc.
Qed.

(** The client has sent the messages [msgs], each with its packets, and was given [input]. *)
Record sending p (msgs : list (list bytes * StateUpdate)) (input : list Instruction)
    (spec : SentSpec) (log : Z → list Instruction) : Prop := {
  sg_wf : wf_protocol p;
  sg_history : sent_history spec (sent_states p) (local_instructions p);
  sg_chain : chain log (confirmed spec) (sent_log spec);
  sg_input : log (last_id spec) = input;
  sg_prefix : ∀ k, used p k → log k `prefix_of` input;
  sg_consistent : consistent add_input log msgs.*2;
  sg_used : Forall (λ u, used p (base_state u) ∧ used p (target_state u)) msgs.*2;
  sg_ids : Forall (used p) (sent_ids spec);
  sg_valid : Forall (λ e, wf_batch (mkInstructionBatch e.2)) (sent_log spec);
  sg_channel : client_channel key (secure_channel p);
  sg_peer : ∀ t, latest_peer_timestamp p = Some t → fits 16 t;
  sg_carried : Forall (λ m, sealed_as key m.1 (target_state m.2) m.2 ∧
    (transmissible m.2 → carries key m.1 (target_state m.2) m.2)) msgs;
}.

#[local] Arguments sg_wf {p msgs input spec log} _.
#[local] Arguments sg_channel {p msgs input spec log} _.
#[local] Arguments sg_history {p msgs input spec log} _.
#[local] Arguments sg_peer {p msgs input spec log} _ _ _.

Lemma seal_each_channel l c :
  client_channel key c → client_channel key (fst (seal_each l c)).
Proof.
  revert c. induction l as [|f l IH]; intros c Hc; [done|]. cbn [seal_each]. unfold bindM, zoomM.
  pose proof Hc as (Hk & Hd & Hok & Hin). rewrite seal_next_eq by done.
  destruct (next_counter c) as [n|] eqn:Hn; [|done].
  destruct (aead_encrypt _ _ _); [|done]. cbn [map_err].
  assert (client_channel key (c <| next_counter := following n |>)) as Hc1.
  { split_and!; [done|done| |by apply Hin..]. intros m Hm. eapply following_fits; [|exact Hm]. by apply Hok. }
  specialize (IH _ Hc1). by destruct (seal_each l _) as [c2 []].
Qed.

Lemma seal_update_channel u ts id p :
  client_channel key (secure_channel p) →
  ∃ c, fst (seal_update u ts id p) = p <| secure_channel := c |> ∧ client_channel key c.
Proof.
  intros Hc. unfold seal_update. rewrite bindM_get. unfold bindM, liftM, zoomM.
  destruct (encode_compressed_update u) as [b|e|]; simpl;
    [|exists (secure_channel p); split; [by destruct p|done]..].
  unfold seal_fragments, bindM, liftM. destruct (split b ts _ id) as [frs|e|]; simpl;
    [|exists (secure_channel p); split; [by destruct p|done]..].
  pose proof (seal_each_channel frs (secure_channel p) Hc) as Hs.
  destruct (seal_each frs (secure_channel p)) as [c r]. by exists c.
Qed.

Lemma sending_channel p msgs input spec log c :
  sending p msgs input spec log → client_channel key c →
  sending (p <| secure_channel := c |>) msgs input spec log.
Proof.
  intros [] Hc. split; try done. apply wf_set_channel; [done|apply Hc].
Qed.

Lemma pending_valid spec :
  Forall (λ e, wf_batch (mkInstructionBatch e.2)) (sent_log spec) →
  wf_batch (mkInstructionBatch (pending spec)).
Proof.
  unfold pending. induction 1 as [|e l He _ IH]; [apply wf_batch_nil|]. simpl. by apply wf_batch_app.
Qed.

Lemma encode_nothing : encode_bytes (mkInstructionBatch []) = [].
Proof. unfold encode_bytes. by rewrite encode_batch_wire. Qed.

(** A message of the client that follows the log joins the messages sent. *)
Lemma sending_message u batch ts p msgs input spec log :
  sending p msgs input spec log → fits 16 ts → wf_batch batch → delta u = encode_bytes batch →
  used p (base_state u) → used p (target_state u) →
  log (target_state u) = log (base_state u) ++ instructions batch →
  let '(p', r) := seal_update u ts (target_state u) p in
  match r with
  | Ok packets => sending p' (msgs ++ [(packets, u)]) input spec log
  | _ => sending p' msgs input spec log
  end.
Proof.
  intros Hs Hts Hb Hd Hub Hut Hl.
  destruct (seal_update_channel u ts (target_state u) p (sg_channel Hs)) as (c & Hf & Hc).
  destruct (seal_update u ts (target_state u) p) as [p' r] eqn:Hseal. cbn [fst] in Hf. subst p'.
  pose proof (sending_channel _ _ _ _ _ c Hs Hc) as Hs'. destruct r as [packets|e|]; [|done..].
  assert (fits 64 (target_state u)) as Hid.
  { pose proof (wf_next p (sg_wf Hs)). unfold used, fits, u64_max in *. lia. }
  pose proof (sealed_update_carried key u batch ts (target_state u) p (p <| secure_channel := c |>) packets
    (sg_channel Hs) Hts Hid (sg_peer Hs) Hb Hd Hseal) as Hcar.
  destruct Hs'. split; try done.
  - rewrite fmap_app. apply consistent_app; [done|]. split; [apply sg_consistent0|].
    apply Forall_singleton. cbn [snd]. unfold add_input.
    destruct (decode_instructions_encode batch u Hb Hd) as [_ ->]. by rewrite Hl.
  - rewrite fmap_app. apply Forall_app. split; [done|]. by apply Forall_singleton.
  - apply Forall_app. split; [done|]. by apply Forall_singleton.
Qed.

(** *** Building *)
Definition uplink p msgs input : Prop := ∃ spec log, sending p msgs input spec log.

(** What a builder leaves: on success its packets are a message that adds [added]. *)
Definition sends (res : ClientProtocol * outcome SessionError (list bytes)) msgs input
    (added : list Instruction) : Prop :=
  let '(p', r) := res in
  match r with
  | Ok packets => ∃ u, uplink p' (msgs ++ [(packets, u)]) (input ++ added)
  | _ => uplink p' msgs input
  end.

Lemma used_last p msgs input spec log : sending p msgs input spec log → used p (last_id spec).
Proof. intros []. rewrite Forall_forall in sg_ids0. apply sg_ids0, last_id_in. Qed.

Lemma used_confirmed p msgs input spec log : sending p msgs input spec log → used p (confirmed spec).
Proof. intros []. rewrite Forall_forall in sg_ids0. apply sg_ids0. by left. Qed.

(** A message from a used number to a used number, as the log says. *)
Lemma sends_message u batch ts p msgs input spec log :
  sending p msgs input spec log → fits 16 ts → wf_batch batch → delta u = encode_bytes batch →
  used p (base_state u) → used p (target_state u) →
  log (target_state u) = log (base_state u) ++ instructions batch →
  sends (seal_update u ts (target_state u) p) msgs input [].
Proof.
  intros Hs Hts Hb Hd Hub Hut Hl.
  pose proof (sending_message u batch ts p msgs input spec log Hs Hts Hb Hd Hub Hut Hl) as Hm.
  destruct (seal_update u ts (target_state u) p) as [p' [packets|e|]]; simpl; [|by do 2 eexists..].
  rewrite app_nil_r. exists u. by do 2 eexists.
Qed.

(** The number that a message is sent under is its target. *)
#[local] Ltac name_target :=
  match goal with |- sends (seal_update ?u ?ts ?id ?p) ?msgs ?input ?added =>
    change (sends (seal_update u ts (target_state u) p) msgs input added) end.

Lemma acknowledgement_sends ts p msgs input :
  uplink p msgs input → fits 16 ts →
  sends (build_acknowledgement ts p) msgs input [].
Proof.
  intros (spec & log & Hs) Hts. pose proof Hs as [_ Hh _ _ _ _ _ _ _ _ _ _].
  destruct (front_back _ _ _ Hh) as [Hf Hb].
  unfold build_acknowledgement. rewrite bindM_get. unfold back_state, front_state. rewrite Hf, Hb.
  unfold bindM, liftM, ok_or. name_target.
  apply (sends_message _ (mkInstructionBatch []) _ _ _ _ spec log);
    try solve [done | apply wf_batch_nil].
  - by rewrite encode_nothing.
  - by eapply used_last.
  - by eapply used_last.
  - simpl. by rewrite app_nil_r.
Qed.

Lemma shutdown_ack_sends ts p msgs input :
  uplink p msgs input → fits 16 ts →
  sends (build_shutdown_ack ts p) msgs input [].
Proof.
  intros (spec & log & Hs) Hts. pose proof Hs as [_ Hh _ _ _ _ _ _ _ _ _ _].
  unfold build_shutdown_ack. rewrite bindM_get.
  destruct (local_shutdown_acknowledged p) eqn:Ha; [|by do 2 eexists]. cbn [negb].
  rewrite (proj2 (shutdown_flags p spec Hh)) in Ha. apply Z.eqb_eq in Ha.
  pose proof (used_confirmed _ _ _ _ _ Hs) as Hu. rewrite Ha in Hu. name_target.
  apply (sends_message _ (mkInstructionBatch []) _ _ _ _ spec log);
    try solve [done | apply wf_batch_nil].
  - simpl. by rewrite app_nil_r.
Qed.

Lemma retransmission_sends ts p msgs input :
  uplink p msgs input → fits 16 ts →
  sends (retransmit_pending ts p) msgs input [].
Proof.
  intros (spec & log & Hs) Hts. pose proof Hs as [_ Hh Hc _ _ _ _ _ Hv _ _ _].
  unfold retransmit_pending. rewrite bindM_get. destruct (negb _); [by do 2 eexists|].
  rewrite (pending_update_eq p spec Hh). unfold bindM, liftM. name_target.
  apply (sends_message _ (mkInstructionBatch (pending spec)) _ _ _ _ spec log); try done.
  - by apply pending_valid.
  - by eapply used_confirmed.
  - by eapply used_last.
  - simpl. by rewrite chain_last.
Qed.

Lemma last_id_send id b spec : last_id (spec_send id b spec) = id.
Proof.
  assert (Some (last_id (spec_send id b spec)) = Some id) as [= ->]; [|done].
  by rewrite <- last_id_eq, sent_ids_send, last_snoc.
Qed.

(** A new state: [p2] is the protocol after it, with the next number to use. *)
Lemma state_sends ts batch target next p msgs input spec log :
  sending p msgs input spec log → fits 16 ts → wf_batch batch → batch_fits p batch →
  last_id spec < target ≤ u64_max → ¬ used p target → 0 ≤ target →
  let '(p', r) := build_state_update ts batch target p in
  let p2 := p' <| next_local_state := next |> in
  match r with
  | Ok packets =>
      wf_protocol p2 → (∀ k, used p2 k ↔ used p k ∨ k = target) →
      ∃ u, uplink p2 (msgs ++ [(packets, u)]) (input ++ instructions batch)
  | _ => uplink p' msgs input
  end.
Proof.
  intros Hs Hts Hb Hfit [Hid Hmax] Hnew Hpos. pose proof Hs as [Hwf Hh Hch Hin Hpre Hcon Hused Hids Hval Hchan Hpeer Hcar].
  pose proof (build_state_update_spec ts batch target p spec Hwf Hh Hid Hfit) as Hspec.
  rewrite (build_state_update_eq ts batch target p spec Hh Hfit) in *.
  set (u := update_for _ _ _ _ _ _) in *.
  destruct (seal_update_channel u ts target p Hchan) as (c & Hf & Hc).
  destruct (seal_update u ts target p) as [p1 r] eqn:Hseal. cbn [fst] in Hf. subst p1.
  destruct r as [packets|e|]; [|do 2 eexists; by apply sending_channel..].
  destruct Hspec as (c' & _ & _ & states & Heq & Hsh).
  assert (c' = c) as -> by (apply (f_equal secure_channel) in Heq; by symmetry).
  rewrite Heq. clear Heq. intros p2 Hwf2 Hu2.
  assert (∀ k, used p k → k ≠ target) as Hold by (intros k Hk ->; done).
  set (log' := λ k, if k =? target then input ++ instructions batch else log k).
  assert (∀ k, used p k → log' k = log k) as Hlog.
  { intros k Hk. unfold log'. destruct (Z.eqb_spec k target); [by apply Hold in Hk|done]. }
  assert (log' target = input ++ instructions batch) as Htarget by (unfold log'; by rewrite Z.eqb_refl).
  pose proof (used_last _ _ _ _ _ Hs) as Hlast. pose proof (used_confirmed _ _ _ _ _ Hs) as Hconf.
  assert (used p 0) as Hzero by (left; pose proof (wf_next p Hwf); lia).
  rewrite Forall_forall in Hids. rewrite Forall_forall in Hused.
  exists u, (spec_send target (instructions batch) spec), log'. split; try done.
  - unfold spec_send. simpl. apply chain_app. split.
    + apply (chain_ext log); [by apply Hlog| |done]. intros e He. apply Hlog, Hids. right.
      apply list_elem_of_fmap. by exists e.
    + rewrite Htarget. assert (default (confirmed spec) (last (sent_log spec).*1) = last_id spec) as ->
        by (unfold last_id, id_at; by rewrite take_ge).
      by rewrite (Hlog _ Hlast), Hin.
  - by rewrite last_id_send.
  - intros k Hk. apply Hu2 in Hk as [Hk| ->].
    + rewrite (Hlog k Hk). by apply prefix_app_r, Hpre.
    + by rewrite Htarget.
  - rewrite fmap_app. apply consistent_app.
    + apply (consistent_ext _ log); [rewrite (Hlog 0 Hzero); apply Hcon| |done].
      intros v Hv. destruct (Hused v Hv). split; by apply Hlog.
    + split; [rewrite (Hlog 0 Hzero); apply Hcon|]. apply Forall_singleton. cbn [snd u].
      unfold add_input. destruct (decode_instructions_encode batch u Hb eq_refl) as [_ ->].
      change (base_state u) with (last_id spec). change (target_state u) with target.
      by rewrite (Hlog _ Hlast), Hin, Htarget.
  - rewrite fmap_app. apply Forall_app. split.
    + rewrite Forall_forall. intros v Hv. destruct (Hused v Hv). rewrite !Hu2. tauto.
    + apply Forall_singleton. cbn [snd]. rewrite !Hu2. split; [by left|by right].
  - rewrite sent_ids_send. apply Forall_app. split; [|apply Forall_singleton, Hu2; by right].
    rewrite Forall_forall. intros k Hk. apply Hu2. left. by apply Hids.
  - unfold spec_send. simpl. apply Forall_app. split; [done|]. apply Forall_singleton. by destruct batch.
  - apply Forall_app. split; [done|]. apply Forall_singleton. cbn [fst snd].
    apply (sealed_update_carried key u batch ts target p (p <| secure_channel := c |>) packets); try done.
    unfold fits, u64_max in *. lia.
Qed.

Lemma shutdown_sent_history p spec l :
  sent_history spec (sent_states p) l → local_shutdown_sent p = (last_id spec =? u64_max).
Proof.
  intros Hs. destruct (front_back _ _ _ Hs) as [_ Hl]. unfold local_shutdown_sent. by rewrite Hl.
Qed.

Lemma shutdown_sent_last p msgs input spec log :
  sending p msgs input spec log → local_shutdown_sent p = (last_id spec =? u64_max).
Proof. intros []. by eapply shutdown_sent_history. Qed.

(** No update is the shutdown state. *)
Lemma update_not_shutdown ts batch p :
  wf_protocol p → batch_fits p batch → local_shutdown_sent p = false →
  local_shutdown_sent (fst (build_update ts batch p)) = false.
Proof.
  intros Hwf Hfit Hsent. destruct (wf_sent p Hwf) as (spec & Hh & Hids).
  pose proof (not_shutdown_last p spec Hh Hsent) as Hlast. pose proof (wf_next p Hwf) as Hnext.
  unfold build_update. rewrite bindM_get.
  destruct (Z.eqb_spec (next_local_state p) u64_max) as [|Hmax]; [done|].
  assert (last_id spec < next_local_state p) as Hid.
  { rewrite Forall_forall in Hids. destruct (Hids _ (last_id_in spec)); [done|]. lia. }
  pose proof (build_state_update_spec ts batch _ p spec Hwf Hh Hid Hfit) as Hsp. unfold bindM.
  destruct (build_state_update ts batch (next_local_state p) p) as [p' r].
  destruct Hsp as (c & _ & _ & Hsp). destruct r as [packets|e|]; [|by subst p'..].
  destruct Hsp as (states & -> & Hsh). cbn [fst modM retM].
  etransitivity; [eapply shutdown_sent_history; exact Hsh|]. rewrite last_id_send. by apply Z.eqb_neq.
Qed.

Lemma update_sends ts batch p msgs input :
  uplink p msgs input → fits 16 ts → wf_batch batch → batch_fits p batch →
  local_shutdown_sent p = false → sends (build_update ts batch p) msgs input (instructions batch).
Proof.
  intros (spec & log & Hs) Hts Hb Hfit Hsent. pose proof (sg_wf Hs) as Hwf.
  pose proof (wf_next p Hwf) as Hnext.
  pose proof (build_update_wf ts batch p Hwf Hsent Hfit) as [Hwf2 _].
  pose proof (update_not_shutdown ts batch p Hwf Hfit Hsent) as Hsent'.
  unfold build_update in *. rewrite bindM_get in *.
  destruct (Z.eqb_spec (next_local_state p) u64_max) as [|Hmax]; [by do 2 eexists|].
  pose proof (used_last _ _ _ _ _ Hs) as Hlast. rewrite (shutdown_sent_last _ _ _ _ _ Hs) in Hsent.
  assert (last_id spec < next_local_state p ≤ u64_max) as Hid.
  { apply Z.eqb_neq in Hsent. destruct Hlast as [|[]]; lia. }
  assert (¬ used p (next_local_state p)) as Hnew by (intros [|[]]; lia).
  pose proof (state_sends ts batch (next_local_state p) (next_local_state p + 1) p msgs input spec log
    Hs Hts Hb Hfit Hid Hnew ltac:(lia)) as Hst.
  unfold bindM in *. destruct (build_state_update ts batch (next_local_state p) p) as [p' r] eqn:Hbu.
  destruct r as [packets|e|]; [|done..]. apply Hst; [done|]. intros k.
  unfold used. rewrite (shutdown_sent_last _ _ _ _ _ Hs), Hsent.
  cbn [fst modM retM] in Hsent'. rewrite Hsent'. simpl. split; [|]; intros; intuition (try done; lia).
Qed.

Lemma shutdown_sends ts batch p msgs input :
  uplink p msgs input → fits 16 ts → wf_batch batch → batch_fits p batch →
  sends (build_shutdown ts batch p) msgs input (instructions batch).
Proof.
  intros (spec & log & Hs) Hts Hb Hfit. pose proof (sg_wf Hs) as Hwf.
  pose proof (wf_next p Hwf) as Hnext. pose proof (build_shutdown_wf ts batch p Hwf Hfit) as [Hwf2 _].
  unfold build_shutdown in *. rewrite bindM_get in *.
  destruct (local_shutdown_sent p) eqn:Hsent; [by do 2 eexists|].
  pose proof (used_last _ _ _ _ _ Hs) as Hlast. pose proof Hsent as Hlid.
  rewrite (shutdown_sent_last _ _ _ _ _ Hs) in Hlid. apply Z.eqb_neq in Hlid.
  assert (last_id spec < u64_max ≤ u64_max) as Hid by (destruct Hlast as [|[]]; lia).
  assert (¬ used p u64_max) as Hnew by (intros [|[]]; [lia|congruence]).
  pose proof (state_sends ts batch u64_max (next_local_state p) p msgs input spec log
    Hs Hts Hb Hfit Hid Hnew ltac:(done)) as Hst.
  pose proof (build_state_update_spec ts batch u64_max p spec Hwf (sg_history Hs) (proj1 Hid) Hfit) as Hsp.
  destruct (build_state_update ts batch u64_max p) as [p' r].
  destruct r as [packets|e|]; [|done..]. destruct Hsp as (c & _ & _ & states & -> & Hsh).
  apply Hst; [done|]. intros k.
  assert (local_shutdown_sent (p <| sent_states := states |>) = true) as Hnow
    by (etransitivity; [eapply shutdown_sent_history; exact Hsh|]; by rewrite last_id_send).
  unfold used. rewrite Hsent. unfold local_shutdown_sent in *. cbn in *. rewrite Hnow.
  intuition (try done; lia).
Qed.

(** *** Receiving *)

(** What [sending] depends on, apart from the sent states. *)
Definition same_sender p p' : Prop :=
  secure_channel p' = secure_channel p ∧ next_local_state p' = next_local_state p ∧
  ∀ t, latest_peer_timestamp p' = Some t → latest_peer_timestamp p = Some t ∨ fits 16 t.

Lemma sending_states p p' msgs input spec spec' log :
  sending p msgs input spec log → wf_protocol p' → same_sender p p' →
  sent_history spec' (sent_states p') (local_instructions p') →
  (spec' = spec ∨ ∃ i e, sent_log spec !! i = Some e ∧
     spec' = mkSentSpec e.1 (drop (S i) (sent_log spec))) →
  sending p' msgs input spec' log.
Proof.
  intros Hs Hwf (Hc & Hn & Ht) Hh Hspec.
  assert (chain log (confirmed spec') (sent_log spec') ∧ last_id spec' = last_id spec ∧
    (∀ i, i ∈ sent_ids spec' → i ∈ sent_ids spec) ∧
    Forall (λ e, wf_batch (mkInstructionBatch e.2)) (sent_log spec')) as (Hchain & Hlast & Hids & Hval).
  { destruct Hspec as [->|(i & e & Hi & ->)]; [by destruct Hs|]. simpl. split_and!.
    - eapply chain_drop; [apply Hs|done].
    - assert (Some (last_id (mkSentSpec e.1 (drop (S i) (sent_log spec)))) = Some (last_id spec))
        as [= ->]; [|done].
      rewrite <- !last_id_eq. unfold sent_ids. simpl. rewrite <- (take_drop_middle _ _ _ Hi) at 2.
      by rewrite fmap_app, fmap_cons, app_comm_cons, last_app_cons.
    - intros j. unfold sent_ids. simpl. rewrite <- (take_drop_middle _ _ _ Hi) at 2.
      rewrite fmap_app, fmap_cons. set_solver.
    - apply Forall_drop, Hs. }
  assert (∀ k, used p' k ↔ used p k) as Hu.
  { intros k. unfold used. rewrite Hn. destruct Hs.
    rewrite (shutdown_sent_history p' _ _ Hh), (shutdown_sent_history p _ _ sg_history0). by rewrite Hlast. }
  destruct Hs. rewrite Forall_forall in sg_ids0. split; try done.
  - by rewrite Hlast.
  - intros k Hk. by apply sg_prefix0, Hu.
  - eapply Forall_impl; [exact sg_used0|]. intros u. by rewrite !Hu.
  - rewrite Forall_forall. intros k Hk. by apply Hu, sg_ids0, Hids.
  - by rewrite Hc.
  - intros t Hp. destruct (Ht t Hp) as [Ho|]; [by apply sg_peer0|done].
Qed.

Lemma acknowledges_uplink p p' msgs input :
  uplink p msgs input → wf_protocol p' → same_sender p p' → acknowledges p p' → uplink p' msgs input.
Proof.
  intros (spec & log & Hs) Hwf Hsame Ha. pose proof (sg_history Hs) as Hh.
  assert (same_sent p p' → uplink p' msgs input) as Hkeep.
  { intros [E1 E2]. exists spec, log.
    apply (sending_states p p' _ _ spec spec); try done; [by rewrite E1, E2|by left]. }
  destruct Ha as [Hsent|(k & E1 & E2)]; [by apply Hkeep|].
  pose proof (process_acknowledgement_spec k p spec Hh) as Hk.
  destruct (process_acknowledgement k p) as [p1 r]. destruct Hk as [_ Hk]. cbn [fst] in *.
  destruct (retained k p); [|subst p1; apply Hkeep; by split].
  destruct Hk as (states & l & -> & Hsh). exists (spec_ack k spec), log.
  apply (sending_states p p' _ _ spec); try done; [by rewrite E1, E2|].
  unfold spec_ack. destruct (list_find _ _) as [[i e]|] eqn:Hf; [|by left].
  apply list_find_Some in Hf as (Hi & <- & _). right. by exists i, e.
Qed.

(** Receiving leaves the outbound side alone. *)
Lemma same_sender_refl p : same_sender p p.
Proof. split_and!; auto. Qed.

Lemma keeps_same_sender_mod p0 (f : ClientProtocol → ClientProtocol) :
  (∀ p, secure_channel (f p) = secure_channel p ∧ next_local_state (f p) = next_local_state p ∧
    latest_peer_timestamp (f p) = latest_peer_timestamp p) →
  keeps (E:=SessionError) (same_sender p0) (modM f).
Proof.
  intros Hf. apply keeps_mod. intros p (E1 & E2 & E3). destruct (Hf p) as (F1 & F2 & F3).
  split_and!; [congruence..|]. by rewrite F3.
Qed.

#[local] Ltac keep :=
  repeat first
    [ apply keeps_bind; [|intros ?]
    | apply keeps_if
    | apply keeps_same_sender_mod; by intros
    | by apply keeps_pure
    | case_match ].

Lemma process_acknowledgement_sender p0 k : keeps (same_sender p0) (process_acknowledgement k).
Proof. unfold process_acknowledgement. keep. Qed.

Lemma accept_update_sender p0 u : keeps (same_sender p0) (accept_remote_update u).
Proof. unfold accept_remote_update. keep. Qed.

Lemma receive_update_sender p0 counter st et compressed h :
  keeps (same_sender p0) (receive_update counter st et compressed h).
Proof.
  unfold receive_update. apply keeps_bind; [by apply keeps_pure|]. intros u.
  apply keeps_bind; [apply process_acknowledgement_sender|]. intros _.
  apply keeps_bind; [apply accept_update_sender|]. intros [adv u']. keep.
Qed.

Lemma header_timestamp l th :
  Forall is_byte l → get_to TIMESTAMP_HEADER_BYTES l = Some th → fits 16 (from_be (take 2 th)).
Proof.
  intros Hl. unfold get_to. destruct (_ <=? _); [|done]. intros [= <-].
  pose proof (from_be_bound (take 2 (take (Z.to_nat TIMESTAMP_HEADER_BYTES) l))) as Hb.
  assert (len (take 2 (take (Z.to_nat TIMESTAMP_HEADER_BYTES) l)) ≤ 2) as Hlen
    by (unfold len; rewrite length_take; lia).
  specialize (Hb ltac:(by apply Forall_take, Forall_take)). unfold fits.
  pose proof (Z.pow_le_mono_r 256 _ _ ltac:(lia) Hlen). change (2 ^ 16) with (256 ^ 2). lia.
Qed.

Lemma ingest_packet_sender p0 packet : keeps (same_sender p0) (ingest_packet packet).
Proof.
  intros p Hp. unfold ingest_packet. rewrite bindM_get. unfold bindM at 1, liftM at 1.
  destruct (map_err SessionOpen _) as [auth|e|] eqn:Ho; [|done..]. apply map_err_Ok, open_bytes in Ho.
  destruct (replay_accept _ _) as [w b]. rewrite bindM_mod. destruct (negb b); [exact Hp|].
  unfold bindM at 1, liftM at 1. destruct (ok_or _ _) as [th|e|] eqn:Ht; [|exact Hp..].
  apply ok_or_Ok in Ht. rewrite bindM_mod. set (p1 := _ <| latest_peer_timestamp := _ |>).
  assert (same_sender p0 p1) as Hp1.
  { destruct Hp as (E1 & E2 & _). split_and!; [done..|]. simpl. intros t [= <-]. right.
    by eapply header_timestamp. }
  clearbody p1. destruct (_ <? _); [exact Hp1|]. revert p1 Hp1.
  match goal with |- ∀ p1, _ → same_sender _ (fst (?m p1)) => change (keeps (same_sender p0) m) end.
  apply keeps_bind; [by apply keeps_pure|]. intros f.
  apply keeps_if; [by apply keeps_pure|]. apply keeps_bind.
  { intros p1 Hp1. destruct (push_fragment_keeps f p1) as [a ->]. exact Hp1. }
  intros [compressed|]; [|by apply keeps_pure].
  apply keeps_bind; [by apply keeps_same_sender_mod|]. intros _. apply receive_update_sender.
Qed.

Lemma ingest_uplink packet p msgs input :
  uplink p msgs input → uplink (fst (ingest_packet packet p)) msgs input.
Proof.
  intros Hu. pose proof Hu as (spec & log & Hs). pose proof (sg_wf Hs) as Hwf.
  apply (acknowledges_uplink p); [done| | |by apply ingest_packet_acknowledges].
  - destruct (wf_window p Hwf) as [acc Hacc]. pose proof (ingest_packet_spec packet p acc Hwf Hacc) as Hi.
    destruct (ingest_packet packet p). apply Hi.
  - apply ingest_packet_sender, same_sender_refl.
Qed.

(** *** The start, and the calls that send nothing *)
Lemma protocol_new_uplink p : protocol_new key = Ok p → uplink p [] [].
Proof.
  intros Hn. pose proof (protocol_new_wf key p Hn) as Hwf. unfold protocol_new in Hn.
  apply bind_ok_Ok in Hn as (s & _ & Hn). apply bind_ok_Ok in Hn as (s' & _ & [= <-]).
  exists (mkSentSpec 0 []), (λ _, []). split; try done.
  - split; simpl; [done | repeat constructor | done |]. exists [0%nat]. split_and!; try done.
    repeat constructor.
  - apply Forall_singleton. left. simpl. lia.
  - split_and!; [done|done| |done|done]. intros n [= <-]. unfold fits. lia.
Qed.

Lemma same_uplink p p' msgs input :
  uplink p msgs input → wf_protocol p' → same_sender p p' → same_sent p p' → uplink p' msgs input.
Proof. intros Hu Hwf Hs Hsent. apply (acknowledges_uplink p); [done..|by left]. Qed.

(** Datagrams that are built and not sent are like datagrams lost. *)
Lemma uplink_forget p msgs more input : uplink p (msgs ++ more) input → uplink p msgs input.
Proof.
  intros (spec & log & []). exists spec, log. split; try done.
  - rewrite fmap_app in sg_consistent0. destruct sg_consistent0 as [H0' Hs]. split; [done|].
    by apply Forall_app in Hs as [Hs _].
  - rewrite fmap_app in sg_used0. by apply Forall_app in sg_used0 as [Hs _].
  - by apply Forall_app in sg_carried0 as [Hs _].
Qed.

(** *** What a server can hold *)
Lemma uplink_holds p msgs input k content :
  uplink p msgs input → holds add_input msgs.*2 k content →
  content `prefix_of` input ∧ (k = latest_local_state p → content = input) ∧
  ∀ content', holds add_input msgs.*2 k content' → content' = content.
Proof.
  intros (spec & log & Hs) Hk. pose proof (holds_log _ log _ k content (sg_consistent _ _ _ _ _ Hs) Hk) as ->.
  assert (used p k) as Hu.
  { destruct Hk as [|u ? ? Hin]; [left; pose proof (wf_next p (sg_wf Hs)); lia|].
    pose proof (sg_used _ _ _ _ _ Hs) as Hused. rewrite Forall_forall in Hused. by apply Hused. }
  split_and!.
  - by eapply sg_prefix.
  - intros ->. rewrite <- (sg_input _ _ _ _ _ Hs). f_equal. unfold latest_local_state.
    by destruct (front_back _ _ _ (sg_history Hs)) as [_ ->].
  - intros content' Hc. by apply (holds_log _ log _ _ _ (sg_consistent _ _ _ _ _ Hs)) in Hc.
Qed.

(** One retransmission is enough for a server that holds the confirmed state. *)
Lemma retransmission_completes ts p p' msgs input packets :
  uplink p msgs input → fits 16 ts → retransmit_pending ts p = (p', Ok packets) →
  ∃ u, sealed_as key packets (target_state u) u ∧
    (transmissible u → carries key packets (target_state u) u) ∧
    Some (base_state u) = sent_id <$> head (sent_states p) ∧ target_state u = latest_local_state p ∧
    ∀ content, holds add_input msgs.*2 (base_state u) content →
      holds add_input (msgs.*2 ++ [u]) (target_state u) input.
Proof.
  intros (spec & log & Hs) Hts. pose proof Hs as [_ Hh Hc _ _ _ _ _ Hv _ _ _].
  destruct (front_back _ _ _ Hh) as [Hhead Hlast].
  unfold retransmit_pending. rewrite bindM_get. destruct (negb _); [done|].
  rewrite (pending_update_eq p spec Hh). unfold bindM, liftM. set (u := update_for _ _ _ _ _ _).
  intros Hseal. exists u.
  pose proof (sending_message u (mkInstructionBatch (pending spec)) ts p msgs input spec log Hs Hts
    (pending_valid spec Hv) eq_refl (used_confirmed _ _ _ _ _ Hs) (used_last _ _ _ _ _ Hs)
    (chain_last log spec Hc)) as Hm.
  change (target_state u) with (last_id spec) in *. rewrite Hseal in Hm. split_and!.
  - pose proof (sg_carried _ _ _ _ _ Hm) as Hcar. apply Forall_app in Hcar as [_ Hcar].
    rewrite Forall_singleton in Hcar. apply Hcar.
  - pose proof (sg_carried _ _ _ _ _ Hm) as Hcar. apply Forall_app in Hcar as [_ Hcar].
    rewrite Forall_singleton in Hcar. apply Hcar.
  - by rewrite Hhead.
  - unfold latest_local_state. by rewrite Hlast.
  - intros content Hk. pose proof (sg_consistent _ _ _ _ _ Hm) as Hcon.
    rewrite fmap_app in Hcon. pose proof (holds_log _ log _ _ content (sg_consistent _ _ _ _ _ Hs) Hk) as ->.
    rewrite <- (sg_input _ _ _ _ _ Hs). destruct Hcon as [_ Hcon].
    apply Forall_app in Hcon as [_ Hcon]. cbn in Hcon. rewrite Forall_singleton in Hcon.
    apply (holds_update _ _ u (log (base_state u))); [set_solver| |exact Hcon].
    eapply holds_more; [|exact Hk]. set_solver.
Qed.
End sending.
