(* ===== verification/Arrival.v ===== *)
(** * What the user typed arrives

    The runtime over the outbound protocol (Uplink.v): the input that a host queues, the
    datagrams its polls return, and the input that a server of the same key can hold. *)
From S2P Require Import Prelude Emulators Fragment Message Crypto State Session Runtime Ssp Uplink.
Local Open Scope Z_scope.

(** The datagrams of a call. *)
Definition datagrams (r : outcome RuntimeError (list SessionAction)) : list bytes :=
  match r with
  | Ok acts => omap (λ a, match a with SendDatagram packet => Some packet | _ => None end) acts
  | _ => []
  end.

Lemma datagrams_app acts acts' :
  datagrams (Ok (acts ++ acts')) = datagrams (Ok acts) ++ datagrams (Ok acts').
Proof. simpl. by rewrite omap_app. Qed.

Lemma datagrams_sent packets : datagrams (Ok (send_actions packets)) = packets.
Proof. unfold send_actions, datagrams. induction packets as [|p l IH]; [done|]. by f_equal/=. Qed.

Lemma datagrams_quiet acts : quiet acts → datagrams (Ok acts) = [].
Proof.
  unfold datagrams. induction 1 as [|a l Ha _ IH]; [done|]. by destruct a.
Qed.

Section accepting.
Context `{Vt100} `{Vte} `{Aead} `{Prost} `{Zlib}.
Implicit Types rt : SessionRuntime.

(** The instruction of a call that queues input. *)
Definition input_call (c : HostCall) : option Instruction :=
  match c with
  | CallQueueEvent event => Some (event_instruction event)
  | CallQueueInput input => Some (input_instruction input)
  | CallQueueResize columns rows => Some (resize_instruction columns rows)
  | CallQueueControl kind payload => Some (control_instruction kind payload)
  | _ => None
  end.

(** The input that a call was given and that was not refused. *)
Definition accepted (c : HostCall) rt : list Instruction :=
  match input_call c, refusal rt with
  | Some i, None => if is_ok (snd (call c rt)) then [i] else []
  | _, _ => []
  end.

Fixpoint accepted_input (l : list HostCall) rt : list Instruction :=
  match l with
  | [] => []
  | c :: l => accepted c rt ++ accepted_input l (fst (call c rt))
  end.

(** A call after which queued input may be gone: cancelling the session, and a poll
    that failed, which the host takes for the end of the session. *)
Definition keeps_input (c : HostCall) rt : bool :=
  match c with
  | CallCancel => false
  | CallPoll _ => is_ok (snd (call c rt))
  | _ => true
  end.

Fixpoint all_keep_input (l : list HostCall) rt : bool :=
  match l with
  | [] => true
  | c :: l => keeps_input c rt && all_keep_input l (fst (call c rt))
  end.

(** The arguments have the sizes of their types. *)
Definition call_fits (c : HostCall) rt : Prop :=
  call_ok c rt ∧ match c with CallQueueControl kind _ => fits 32 kind | _ => True end.

Fixpoint calls_fit (l : list HostCall) rt : Prop :=
  match l with
  | [] => True
  | c :: l => call_fits c rt ∧ calls_fit l (fst (call c rt))
  end.
End accepting.

(** A step of the queue: [acc] was accepted, [sent] was handed to the protocol. *)
Inductive queue_step (q : list Instruction) :
    list Instruction → list Instruction → list Instruction → bool → Prop :=
| step_accept i : queue_step q [i] [] (queue_push i q) true
| step_send sent q' keeping : q = sent ++ q' → queue_step q [] sent q' keeping
| step_lose : queue_step q [] [] [] false.

(** Everything but window sizes, which newer ones supersede. *)
Definition typed (l : list Instruction) : list Instruction := filter (λ i, is_resize i = false) l.

Lemma typed_app a b : typed (a ++ b) = typed a ++ typed b.
Proof. apply filter_app. Qed.

Lemma queue_push_sublist i q : queue_push i q `sublist_of` q ++ [i].
Proof.
  unfold queue_push. destruct (_ && _); [|done].
  destruct q as [|j q] using rev_ind; [by apply sublist_skip|].
  rewrite removelast_last. apply sublist_app; [|done]. apply sublist_inserts_r. done.
Qed.

Lemma queue_push_last i q : last (queue_push i q) = Some i.
Proof. unfold queue_push. destruct (_ && _); by rewrite last_snoc. Qed.

Lemma queue_push_typed i q : typed (queue_push i q) = typed (q ++ [i]).
Proof.
  unfold queue_push. destruct (is_resize i) eqn:Hi; [|done]. cbn [andb].
  destruct (is_some_and is_resize (last q)) eqn:Hl; [|done].
  apply is_some_and_true in Hl as (j & Hj & Hr). apply last_Some in Hj as [q' ->].
  assert (typed [j] = []) as Hn by (unfold typed; by rewrite filter_cons_False by congruence).
  by rewrite removelast_last, !typed_app, Hn, app_nil_r.
Qed.

(** What was handed over and what is queued, against what was accepted. *)
Record accounted (accepted given q : list Instruction) (keeping : bool) : Prop := {
  acc_order : given ++ q `sublist_of` accepted;
  acc_typed : keeping = true → typed (given ++ q) = typed accepted;
  acc_last : keeping = true → last (given ++ q) = last accepted;
}.

Lemma accounted_step a given q keeping acc sent q' keeping' :
  accounted a given q keeping → queue_step q acc sent q' keeping' →
  accounted (a ++ acc) (given ++ sent) q' (keeping && keeping').
Proof.
  intros [Ho Ht Hl] Hs. destruct Hs as [i|sent q' keeping' ->|].
  - rewrite app_nil_r, andb_true_r. split.
    + etransitivity; [apply sublist_app; [reflexivity|apply queue_push_sublist]|].
      rewrite app_assoc. by apply sublist_app.
    + intros Hk. rewrite typed_app, queue_push_typed, <- typed_app, app_assoc, !(typed_app _ [i]).
      by rewrite Ht.
    + intros _. rewrite last_snoc, last_app, queue_push_last. done.
  - rewrite app_nil_r. split; rewrite <- app_assoc; [done|..]; intros [Hk _]%andb_prop; auto.
  - rewrite !app_nil_r, andb_false_r. split; [|done..]. rewrite app_nil_r. etransitivity; [|exact Ho].
    by apply sublist_inserts_r.
Qed.

Section arrival.
Context `{Vt100Laws} `{Vte} `{AeadLaws} `{ProstLaws} `{ZlibLaws} (key : SessionKey).
Implicit Types rt : SessionRuntime.

(** The session so far: [msgs] were sent, [given] was handed to the protocol. *)
Record carrying rt (msgs : list (list bytes * StateUpdate)) (given : list Instruction) : Prop := {
  ca_runtime : wf_runtime key rt;
  ca_uplink : uplink key (protocol rt) msgs given;
  ca_queue : wf_batch (mkInstructionBatch (queued_instructions rt));
  ca_closed : local_shutdown_sent (protocol rt) = true →
    queued_instructions rt = [] ∧ shutdown rt ≠ Open;
}.

(** The outbound side of the runtime. *)
Definition outbound (s : ShutdownState) msgs given q sent rt : Prop :=
  uplink key (protocol rt) msgs given ∧ queued_instructions rt = q ∧
  local_shutdown_sent (protocol rt) = sent ∧ (s ≠ Open → shutdown rt ≠ Open).

Lemma carrying_outbound rt msgs given :
  carrying rt msgs given →
  outbound (shutdown rt) msgs given (queued_instructions rt) (local_shutdown_sent (protocol rt)) rt.
Proof. intros []. by split_and!. Qed.

Lemma outbound_carrying rt rt' msgs given :
  carrying rt msgs given → wf_runtime key rt' →
  outbound (shutdown rt) msgs given (queued_instructions rt) (local_shutdown_sent (protocol rt)) rt' →
  carrying rt' msgs given.
Proof.
  intros [_ _ Hq Hc] Hw (Hu & Hq' & Hs & Hsh). split; [done|done|by rewrite Hq'|].
  rewrite Hs, Hq'. intros Hsent. destruct (Hc Hsent). auto.
Qed.

(** *** Calls that send nothing and queue nothing *)
Lemma ingest_outbound s msgs given q sent packet :
  keeps (outbound s msgs given q sent) (on_protocol (ingest_packet packet)).
Proof.
  intros rt (Hu & Hq & Hs & Hsh). rewrite on_protocol_eq. split_and!; simpl; try done.
  - by apply ingest_uplink.
  - destruct Hu as (spec & log & Hg).
    rewrite <- Hs. apply acknowledges_shutdown; [apply Hg|apply ingest_packet_acknowledges, Hg].
Qed.

Lemma receive_outbound s msgs given q sent packet now :
  keeps (outbound s msgs given q sent) (receive_datagram packet now).
Proof.
  apply receive_datagram_keeps_gen; try done.
  - apply ingest_outbound.
  - intros rt x (Hu & Hq & Hs & Hsh). destruct (update_retransmit_timeout_keeps x rt) as (E & _ & _ & _ & E').
    assert (protocol (update_retransmit_timeout x rt) = protocol rt) as Ep
      by (unfold update_retransmit_timeout; by destruct (smoothed_round_trip_milliseconds rt)).
    unfold outbound. by rewrite E, E', Ep.
  - intros state rt (Hu & Hq & Hs & Hsh). rewrite note_state_eq. unfold outbound. simpl.
    destruct (_ =? u64_max); simpl; split_and!; try done. intros Ho.
    rewrite bool_decide_eq_false_2; auto.
Qed.

Lemma no_actions_keeps (P : SessionRuntime → Prop) m : keeps P m → keeps P (no_actions m).
Proof. intros Hm. apply keeps_bind; [done|]. intros _. by apply keeps_pure. Qed.

Lemma ensure_running_keeps (P : SessionRuntime → Prop) : keeps P ensure_running.
Proof. apply keeps_pure. intros rt. unfold ensure_running. rewrite bindM_get. by destruct (lifecycle rt). Qed.

#[local] Ltac keep_outbound :=
  repeat first
    [ apply ensure_running_keeps
    | apply keeps_bind; [|intros ?]
    | apply keeps_if
    | apply receive_outbound
    | by apply keeps_pure
    | apply keeps_mod; intros ? (? & ? & ? & ?); by split_and! ].

Lemma quiet_call_outbound s msgs given q sent c :
  input_call c = None → (∀ now, c ≠ CallPoll now) → c ≠ CallCancel →
  keeps (outbound s msgs given q sent) (call c).
Proof.
  intros Hi Hp Hc.
  destruct c as [event|input|c r|k pl|caps| | |now| |now|now|packet now|packet now|now]; try done;
    cbn [call].
  - apply no_actions_keeps, keeps_mod. intros rt (Hu & ? & ? & ?). split_and!; try done.
    destruct Hu as (spec & log & Hg). apply (same_uplink key (protocol rt)); [by do 2 eexists|..]; try done.
    + destruct (sg_wf key _ _ _ _ _ Hg). by split.
    + split_and!; auto.
  - unfold pause. keep_outbound.
  - unfold request_shutdown. keep_outbound.
  - unfold notify_udp_rebound. keep_outbound.
  - apply no_actions_keeps. unfold resume, resume_state. keep_outbound.
  - unfold resume_with_actions, resume_state. keep_outbound.
  - apply receive_outbound.
  - intros rt Hr. pose proof (receive_outbound s msgs given q sent packet now rt Hr) as Hk.
    unfold receive_datagram_lossy. by destruct (receive_datagram packet now rt) as [rt' []].
  - by destruct (Hp now).
Qed.

(** *** Calls that queue input *)
Lemma queued_bytes n : n ≤ MAXIMUM_QUEUED_INPUT_BYTES → n < 2 ^ 62.
Proof. assert (MAXIMUM_QUEUED_INPUT_BYTES < 2 ^ 62) by done. lia. Qed.

Lemma queue_bytes_nonneg l : 0 ≤ queue_bytes l.
Proof.
  unfold queue_bytes. induction l as [|i l IH]; [done|]. rewrite fmap_cons, sum_list_Z_cons.
  assert (0 ≤ input_size i); [|lia]. unfold input_size.
  destruct (instr_bytes i) as [b|], (session_control i) as [c|];
    repeat match goal with |- context [len ?x] => pose proof (len_nonneg x); generalize dependent (len x); intros end; lia.
Qed.

Lemma queue_push_valid i q :
  wf_batch (mkInstructionBatch q) → wf_batch (mkInstructionBatch [i]) →
  wf_batch (mkInstructionBatch (queue_push i q)).
Proof.
  intros Hq Hi. unfold queue_push. destruct (_ && _); apply wf_batch_app; try done.
  destruct q as [|j q] using rev_ind; [done|]. rewrite removelast_last. by eapply wf_batch_app_l.
Qed.

(** The instruction [i] was queued. *)
Record queued (i : Instruction) rt rt' : Prop := {
  qd_accepting : refusal rt = None;
  qd_valid : wf_batch (mkInstructionBatch [i]);
  qd_queue : queued_instructions rt' = queue_push i (queued_instructions rt);
  qd_shutdown : shutdown rt' = shutdown rt;
  qd_sent : same_sent (protocol rt) (protocol rt');
  qd_sender : same_sender (protocol rt) (protocol rt');
}.

Lemma enqueue_shape i rt :
  wf_runtime key rt →
  (input_size i ≤ MAXIMUM_QUEUED_INPUT_BYTES → wf_batch (mkInstructionBatch [i])) →
  let '(rt', r) := enqueue i (input_size i) rt in
  r = Ok tt ∧ queued i rt rt' ∨ rt' = rt ∧ is_ok r = false.
Proof.
  intros Hw Hv. unfold enqueue. destruct (refusal rt) eqn:Hr; [by right|].
  destruct (Z.ltb_spec MAXIMUM_QUEUED_INPUT_BYTES (queued_input_bytes rt + input_size i)); [by right|].
  left. split; [done|]. split; try done.
  - apply Hv. pose proof (rt_queue key rt Hw). pose proof (queue_bytes_nonneg (queued_instructions rt)). lia.
  - split_and!; auto.
Qed.

Lemma queue_resize_shape c r rt :
  wf_runtime key rt → fits 16 c → fits 16 r →
  let '(rt', r') := queue_resize c r rt in
  r' = Ok tt ∧ queued (resize_instruction c r) rt rt' ∨ rt' = rt ∧ (refusal rt ≠ None ∨ is_ok r' = false).
Proof.
  intros Hw Hc Hr. rewrite queue_resize_eq. destruct (refusal rt) eqn:Href; [right; by auto|].
  destruct (set_initial_remote_viewport c r (protocol rt)) as [p|e|] eqn:Hp; [|right; by auto..].
  left. split; [done|]. split; try done; [by apply viewport_batch_valid|..].
  all: unfold same_sent, same_sender, set_initial_remote_viewport in *; destruct (_ || _);
    [injection Hp as <-; simpl; split_and!; by auto|].
  all: destruct (terminal_new _ _) as [s|e|]; [|injection Hp as <-; simpl; split_and!; by auto..].
  all: apply bind_ok_Ok in Hp as (s' & _ & [= <-]); simpl; split_and!; by auto.
Qed.

Lemma input_call_shape c i rt :
  wf_runtime key rt → call_fits c rt → input_call c = Some i →
  let '(rt', r) := call c rt in
  is_ok r = true ∧ queued i rt rt' ∨ rt' = rt ∧ (refusal rt ≠ None ∨ is_ok r = false).
Proof.
  intros Hw [Hok Hk] Hi.
  assert (∀ m, (let '(rt', r) := m rt in r = Ok tt ∧ queued i rt rt' ∨
      rt' = rt ∧ (refusal rt ≠ None ∨ is_ok r = false)) →
    let '(rt', r) := no_actions m rt in is_ok r = true ∧ queued i rt rt' ∨
      rt' = rt ∧ (refusal rt ≠ None ∨ is_ok r = false)) as Hno.
  { intros m Hm. unfold no_actions, bindM. destruct (m rt) as [rt' [[]|e|]]; simpl in *; naive_solver. }
  assert (∀ n, n = input_size i →
    (input_size i ≤ MAXIMUM_QUEUED_INPUT_BYTES → wf_batch (mkInstructionBatch [i])) →
    let '(rt', r) := enqueue i n rt in r = Ok tt ∧ queued i rt rt' ∨
      rt' = rt ∧ (refusal rt ≠ None ∨ is_ok r = false)) as Henq.
  { intros n -> Hv. pose proof (enqueue_shape i rt Hw Hv). destruct (enqueue i _ rt). naive_solver. }
  assert (∀ b, len b = input_size (input_instruction b)) as Hsize
    by (intros b; unfold input_size; simpl; lia).
  destruct c as [event|input|c r|k pl|caps| | |now| |now|now|packet now|packet now|now]; try done;
    cbn [call]; injection Hi as <-; apply Hno.
  - rewrite queue_terminal_event_eq. destruct (refusal rt) eqn:Hr; [right; split; [done|by left]|].
    destruct event as [input|c r]; simpl in *.
    2: { pose proof (queue_resize_shape c r rt Hw (proj1 Hok) (proj2 Hok)) as Hq. by rewrite Hr in Hq. }
    apply Henq; [apply Hsize|]. intros Hl. apply bytes_batch_valid, queued_bytes. by rewrite Hsize.
  - rewrite queue_input_eq. apply Henq; [apply Hsize|]. intros Hl. apply bytes_batch_valid, queued_bytes. by rewrite Hsize.
  - destruct Hok. by apply queue_resize_shape.
  - rewrite queue_session_control_eq. destruct (refusal rt) eqn:Hr; [right; split; [done|by left]|].
    destruct (runtime_has_negotiated_capability _ _); [|by auto].
    apply Henq; [done|]. intros Hl. apply control_batch_valid; [done|]. apply queued_bytes, Hl.
Qed.

Lemma input_call_carries c i rt msgs given :
  carrying rt msgs given → call_fits c rt → input_call c = Some i →
  let '(rt', r) := call c rt in
  carrying rt' msgs given ∧ queue_step (queued_instructions rt) (accepted c rt) [] (queued_instructions rt') true.
Proof.
  intros Hc Hf Hi. pose proof Hc as [Hw Hu Hq Hcl].
  pose proof (input_call_shape c i rt Hw Hf Hi) as Hs. pose proof (call_wf key c rt Hw (proj1 Hf)) as [Hw' _].
  unfold accepted. rewrite Hi. destruct (call c rt) as [rt' r]. cbn [fst snd] in *.
  destruct Hs as [[Hr [Ha Hv Hq' Hsh Hsent Hsender]]|[-> Hr]].
  - rewrite Ha, Hr, Hq'. split; [|by constructor].
    assert (local_shutdown_sent (protocol rt') = local_shutdown_sent (protocol rt)) as Hl
      by (unfold local_shutdown_sent; destruct Hsent as [-> _]; done).
    split; [done| |by rewrite Hq'; apply queue_push_valid|].
    + apply (same_uplink key (protocol rt)); [done|by eapply wf_reach_protocol|done|done].
    + rewrite Hl. intros Hls. destruct (Hcl Hls) as [_ Hopen]. unfold refusal in Ha.
      destruct (lifecycle rt); [|done..]. by rewrite bool_decide_eq_false_2 in Ha.
  - split; [done|]. assert ((match refusal rt with None => if is_ok r then [i] else [] | _ => [] end) = []) as ->.
    { destruct (refusal rt); [done|]. destruct Hr as [|Hr]; [done|]. by rewrite Hr. }
    by constructor.
Qed.

(** *** Polling *)
Definition closed rt : Prop :=
  local_shutdown_sent (protocol rt) = true → queued_instructions rt = [] ∧ shutdown rt ≠ Open.

(** The result of a part of a poll: the messages it sent, and the input it handed over. *)
Definition shipped q msgs given (before : list bytes)
    (res : SessionRuntime * outcome RuntimeError (list SessionAction)) : Prop :=
  let '(rt', r) := res in
  closed rt' ∧
  match r with
  | Ok acts => ∃ new sent, uplink key (protocol rt') (msgs ++ new) (given ++ sent) ∧
      datagrams (Ok acts) = before ++ mjoin new.*1 ∧ sent ++ queued_instructions rt' = q
  | _ => uplink key (protocol rt') msgs given ∧
      (queued_instructions rt' = q ∨ queued_instructions rt' = [])
  end.

(** A part of a poll that sends nothing. *)
Lemma shipped_nothing q msgs given acts rt :
  closed rt → uplink key (protocol rt) msgs given → queued_instructions rt = q →
  shipped q msgs given (datagrams (Ok acts)) (rt, Ok acts).
Proof.
  intros Hc Hu Hq. split; [done|]. exists [], []. by rewrite !app_nil_r.
Qed.

(** The end of a part that sends a message. *)
Lemma shipped_message q msgs given sent packets u acts d rt :
  closed rt → uplink key (protocol rt) (msgs ++ [(packets, u)]) (given ++ sent) →
  sent ++ queued_instructions rt = q →
  shipped q msgs given (datagrams (Ok acts))
    (complete_peer_shutdown_after_ack (acts ++ send_actions packets ++ [Diagnostic d]) rt).
Proof.
  intros Hc Hu Hq. rewrite complete_peer_eq.
  assert (datagrams (Ok (acts ++ send_actions packets ++ [Diagnostic d]))
    = datagrams (Ok acts) ++ mjoin [(packets, u)].*1) as Hd.
  { rewrite !datagrams_app, datagrams_sent. simpl. by rewrite !app_nil_r. }
  destruct (peer_shutdown_acknowledgement_due rt); (split; [|exists [(packets, u)], sent; split_and!]); try done.
  - intros Hs. by destruct (Hc Hs).
  - by rewrite datagrams_app, Hd, app_nil_r.
Qed.

Lemma record_transmission_outbound rt :
  protocol (record_shutdown_transmission rt) = protocol rt ∧
  queued_instructions (record_shutdown_transmission rt) = queued_instructions rt ∧
  (closed rt → closed (record_shutdown_transmission rt)).
Proof.
  rewrite record_transmission_eq. split_and!; [done..|]. intros Hc Hs. destruct (Hc Hs) as [Hq Ho].
  split; [done|]. simpl. by destruct (shutdown rt).
Qed.

Lemma timestamp_fits now : fits 16 (timestamp now).
Proof.
  unfold timestamp, fits, u16_max. change (2 ^ 16 - 1) with (Z.ones 16). rewrite Z.land_ones by done.
  by apply Z.mod_pos_bound.
Qed.

(** The protocol operations that resend leave the sent states alone. *)
Lemma resending_sent ts p m :
  wf_protocol p → m = build_acknowledgement ts ∨ m = build_shutdown_ack ts ∨ m = retransmit_pending ts →
  local_shutdown_sent (fst (m p)) = local_shutdown_sent p.
Proof.
  intros Hp Hm. destruct (resending_keeps ts p Hp) as ((c1 & E1) & (c2 & E2) & (c3 & E3)).
  destruct Hm as [->|[->| ->]]; [rewrite E1|rewrite E2|rewrite E3]; done.
Qed.

Lemma poll_idle_shipped now acts msgs given rt :
  closed rt → uplink key (protocol rt) msgs given →
  shipped (queued_instructions rt) msgs given (datagrams (Ok acts)) (poll_idle now acts rt).
Proof.
  intros Hc Hu. unfold poll_idle. rewrite bindM_get. destruct (_ && _); [by apply shipped_nothing|].
  unfold bindM at 1. rewrite on_protocol_eq.
  pose proof (acknowledgement_sends key (timestamp now) _ _ _ Hu (timestamp_fits now)) as Hs.
  assert (wf_protocol (protocol rt)) as Hwf by (destruct Hu as (spec & log & Hg); apply Hg).
  pose proof (resending_sent (timestamp now) _ _ Hwf (or_introl eq_refl)) as Hk.
  destruct (build_acknowledgement (timestamp now) (protocol rt)) as [p' r]. cbn [fst snd] in *.
  assert (∀ rt', protocol rt' = p' → queued_instructions rt' = queued_instructions rt →
    shutdown rt' = shutdown rt → closed rt') as Hcl.
  { intros rt' E1 E2 E3 Hs'. rewrite E2, E3. apply Hc. by rewrite <- Hk, <- E1. }
  destruct r as [packets|e|]; cbn [map_err]; [|split; [by apply Hcl|by split; [|left]]..].
  destruct Hs as [u Hs]. rewrite bindM_get, !bindM_mod.
  eapply (shipped_message _ _ _ []); [by apply Hcl|exact Hs|done].
Qed.

Lemma poll_pending_shipped now acts msgs given rt :
  closed rt → uplink key (protocol rt) msgs given →
  shipped (queued_instructions rt) msgs given (datagrams (Ok acts)) (poll_pending now acts rt).
Proof.
  intros Hc Hu. unfold poll_pending. rewrite bindM_get. destruct (_ && _); [by apply shipped_nothing|].
  unfold bindM at 1. rewrite on_protocol_eq.
  pose proof (retransmission_sends key (timestamp now) _ _ _ Hu (timestamp_fits now)) as Hs.
  assert (wf_protocol (protocol rt)) as Hwf by (destruct Hu as (spec & log & Hg); apply Hg).
  pose proof (resending_sent (timestamp now) _ _ Hwf (or_intror (or_intror eq_refl))) as Hk.
  destruct (retransmit_pending (timestamp now) (protocol rt)) as [p' r]. cbn [fst snd] in *.
  assert (∀ rt', protocol rt' = p' → queued_instructions rt' = queued_instructions rt →
    shutdown rt' = shutdown rt → closed rt') as Hcl.
  { intros rt' E1 E2 E3 Hs'. rewrite E2, E3. apply Hc. by rewrite <- Hk, <- E1. }
  destruct r as [packets|e|]; cbn [map_err]; [|split; [by apply Hcl|by split; [|left]]..].
  destruct Hs as [u Hs]. rewrite bindM_get, !bindM_mod.
  match goal with |- context [record_shutdown_transmission ?x] =>
    destruct (record_transmission_outbound x) as (Ep & Eq & Ec) end.
  eapply (shipped_message _ _ _ []); [by apply Ec, Hcl|by rewrite Ep|by rewrite Eq].
Qed.

(** The tail of [build_queued_update] and [poll_queued]. *)
Lemma queued_shipped now acts sent msgs given rt
    (m : M SessionRuntime RuntimeError (list bytes)) d :
  let '(rt1, r) := m rt in
  queued_instructions rt1 = [] → closed rt1 →
  match r with
  | Ok packets => ∃ u, uplink key (protocol rt1) (msgs ++ [(packets, u)]) (given ++ sent)
  | _ => uplink key (protocol rt1) msgs given
  end →
  shipped sent msgs given (datagrams (Ok acts))
    (bindM (bindM m (λ packets, modM (λ self, self <| last_send := Some now |>) ;!
                                retM (packets, d packets)))
       (λ '(packets, diagnostic), modM record_shutdown_transmission ;!
          complete_peer_shutdown_after_ack (acts ++ send_actions packets ++ [Diagnostic diagnostic])) rt).
Proof.
  destruct (m rt) as [rt1 r] eqn:Hm. intros Hq Hc Hr. unfold bindM at 1 2. rewrite Hm.
  destruct r as [packets|e|]; [|split; [done|by split; [|right]]..].
  destruct Hr as [u Hr]. rewrite bindM_mod. unfold retM. cbv iota beta. rewrite bindM_mod.
  match goal with |- context [record_shutdown_transmission ?x] =>
    destruct (record_transmission_outbound x) as (Ep & Eq & Ec) end.
  eapply (shipped_message _ _ _ sent); [by apply Ec|by rewrite Ep|].
  rewrite Eq. change (sent ++ queued_instructions rt1 = sent). by rewrite Hq, app_nil_r.
Qed.

(** What the queued update builds, by what is due. *)
Lemma queued_message ts msgs given rt :
  closed rt → uplink key (protocol rt) msgs given → fits 16 ts →
  wf_batch (mkInstructionBatch (queued_instructions rt)) → len (queued_instructions rt) < 2 ^ 64 →
  has_pending_update (protocol rt) = false →
  (local_shutdown_acknowledged (protocol rt) = true → peer_shutdown_acknowledgement_due rt = true) →
  let batch := {| instructions := queued_instructions rt |} in
  let m := if shutdown_ack_due rt then build_shutdown_ack ts
           else if local_shutdown_unsent rt then build_shutdown ts batch else build_update ts batch in
  let '(p', r) := m (protocol rt) in
  (local_shutdown_sent p' = true → shutdown rt ≠ Open) ∧
  match r with
  | Ok packets => ∃ u, uplink key p' (msgs ++ [(packets, u)]) (given ++ queued_instructions rt)
  | _ => uplink key p' msgs given
  end.
Proof.
  intros Hc Hu Hts Hb Hlen Hpend Hack batch m.
  assert (wf_protocol (protocol rt)) as Hwf by (destruct Hu as (spec & log & Hg); apply Hg).
  pose proof (not_pending_shutdown _ Hwf Hpend) as Hsame.
  assert (batch_fits (protocol rt) batch) as Hfit.
  { destruct (wf_sent _ Hwf) as (spec & Hs & _). destruct (not_pending_log _ spec Hs Hpend) as [_ Hl].
    unfold batch_fits. rewrite Hl, (@len_nil Instruction). done. }
  unfold m, shutdown_ack_due. destruct (_ && local_shutdown_acknowledged _) eqn:Hdue.
  - apply andb_prop in Hdue as [_ Ha]. rewrite Hsame in Ha. destruct (Hc Ha) as [-> Ho].
    pose proof (shutdown_ack_sends key ts _ _ _ Hu Hts) as Hs.
    by destruct (build_shutdown_ack ts (protocol rt)) as [p' r].
  - destruct (local_shutdown_unsent rt) eqn:Huns.
    + pose proof (shutdown_sends key ts batch _ _ _ Hu Hts Hb Hfit) as Hs.
      destruct (build_shutdown ts batch (protocol rt)) as [p' r]. split; [|done]. intros _ Ho.
      unfold local_shutdown_unsent in Huns. by rewrite Ho in Huns.
    + assert (local_shutdown_sent (protocol rt) = false) as Hsent.
      { rewrite <- Hsame. destruct (local_shutdown_acknowledged (protocol rt)); [|done].
        by rewrite Hack in Hdue. }
      pose proof (update_sends key ts batch _ _ _ Hu Hts Hb Hfit Hsent) as Hs.
      pose proof (update_not_shutdown ts batch _ Hwf Hfit Hsent) as Hn.
      destruct (build_update ts batch (protocol rt)) as [p' r]. cbn [fst] in Hn. split; [congruence|done].
Qed.

Lemma poll_queued_shipped now acts msgs given rt :
  closed rt → uplink key (protocol rt) msgs given →
  wf_batch (mkInstructionBatch (queued_instructions rt)) → len (queued_instructions rt) < 2 ^ 64 →
  has_pending_update (protocol rt) = false →
  (local_shutdown_acknowledged (protocol rt) = true → peer_shutdown_acknowledgement_due rt = true) →
  shipped (queued_instructions rt) msgs given (datagrams (Ok acts)) (poll_queued now acts rt).
Proof.
  intros Hc Hu Hb Hlen Hpend Hack.
  pose proof (queued_message (timestamp now) msgs given rt Hc Hu (timestamp_fits now) Hb Hlen Hpend Hack) as Hm.
  unfold poll_queued, build_queued_update.
  match goal with |- shipped _ _ _ _ (bindM (bindM getM ?k) ?h rt) =>
    change (bindM (bindM getM k) h rt) with (bindM (k rt) h rt) end.
  cbv beta zeta.
  set (rt1 := ((rt <| queued_instructions := [] |>) <| queued_input_bytes := 0 |>)
                   <| acknowledgement_due := false |>).
  match goal with |- shipped _ _ _ _ (bindM (modM _ ;! modM _ ;! modM _ ;! bindM ?m ?k) ?h rt) =>
    change (shipped (queued_instructions rt) msgs given (datagrams (Ok acts)) (bindM (bindM m k) h rt1));
    pose proof (queued_shipped now acts (queued_instructions rt) msgs given rt1 m) as Hs end.
  cbv beta zeta in Hm.
  destruct (shutdown_ack_due rt); [|destruct (local_shutdown_unsent rt)]; rewrite on_protocol_eq in Hs;
    change (protocol rt1) with (protocol rt) in Hs;
    match type of Hm with context [?m (protocol rt)] => destruct (m (protocol rt)) as [p' r] end;
    destruct Hm as [Hsent Hm]; cbn [fst snd] in Hs; (apply Hs; [done| |by destruct r]);
    intros Hls; (split; [done|by apply Hsent]).
Qed.

(** A shutdown that completes keeps what an earlier part of the poll has built. *)
Definition completing q msgs given (res : SessionRuntime * outcome RuntimeError (list SessionAction)) : Prop :=
  let '(rt', r) := res in
  closed rt' ∧ uplink key (protocol rt') msgs given ∧ queued_instructions rt' = q ∧
  is_ok r = true ∧ datagrams r = [].

Lemma complete_shutdown_completing o msgs given rt :
  closed rt → uplink key (protocol rt) msgs given →
  completing (queued_instructions rt) msgs given (complete_shutdown o rt).
Proof. intros Hc Hu. split_and!; try done. intros Hs. destruct (Hc Hs). by split. Qed.

Lemma poll_rest_shipped now acts msgs given rt :
  closed rt → uplink key (protocol rt) msgs given →
  wf_batch (mkInstructionBatch (queued_instructions rt)) → len (queued_instructions rt) < 2 ^ 64 →
  shipped (queued_instructions rt) msgs given (datagrams (Ok acts)) (poll_rest now acts rt) ∨
  completing (queued_instructions rt) msgs given (poll_rest now acts rt).
Proof.
  intros Hc Hu Hq Hlen. unfold poll_rest. rewrite bindM_get.
  destruct (local_shutdown_acknowledged _ && _) eqn:Hack; [right; by apply complete_shutdown_completing|].
  destruct (negb _ && shutdown_timed_out _ _); [right; by apply complete_shutdown_completing|].
  left. unfold bindM at 1.
  assert (∃ rt1 o, connection_state_action now rt = (rt1, Ok o) ∧ protocol rt1 = protocol rt ∧
    queued_instructions rt1 = queued_instructions rt ∧ shutdown rt1 = shutdown rt ∧
    peer_shutdown_acknowledgement_due rt1 = peer_shutdown_acknowledgement_due rt)
    as (rt1 & o & -> & Ep & Eq & Es & Ed).
  { unfold connection_state_action. rewrite bindM_get. 
    destruct (bool_decide (connection_state rt = Connected) && negb (is_server_responsive rt now));
    [exists (rt <| connection_state := Interrupted |>), (Some Interrupted)|exists rt, None]; by split_and!. }
  set (acts' := acts ++ _).
  assert (datagrams (Ok acts') = datagrams (Ok acts)) as <-.
  { unfold acts'. rewrite datagrams_app. destruct o; simpl; by rewrite app_nil_r. }
  rewrite bindM_get. clearbody acts'. rewrite <- Eq, <- Ep in *.
  assert (closed rt1) as Hc1 by (unfold closed; by rewrite Es, Eq, Ep).
  destruct (_ && negb (has_pending_update (protocol rt1))) eqn:Hqueued;
    [|destruct (has_pending_update (protocol rt1)); [by apply poll_pending_shipped|by apply poll_idle_shipped]].
  apply andb_prop in Hqueued as [_ Hp]. apply negb_true_iff in Hp.
  apply poll_queued_shipped; try done. intros Ha. rewrite Ha in Hack.
  rewrite Ed. by destruct (peer_shutdown_acknowledgement_due rt).
Qed.

(** The association, if it is due. *)
Lemma poll_association_sends now msgs given rt :
  closed rt → uplink key (protocol rt) msgs given →
  let '(rt', r) := poll_association now rt in
  closed rt' ∧ queued_instructions rt' = queued_instructions rt ∧
  match r with
  | Ok acts => ∃ new, uplink key (protocol rt') (msgs ++ new) given ∧ datagrams (Ok acts) = mjoin new.*1
  | _ => uplink key (protocol rt') msgs given
  end.
Proof.
  intros Hc Hu. unfold poll_association. rewrite bindM_get. destruct (bool_decide _).
  2: { split_and!; [done..|]. exists []. by rewrite app_nil_r. }
  unfold build_association, bindM at 1. rewrite on_protocol_eq.
  pose proof (acknowledgement_sends key (timestamp now) _ _ _ Hu (timestamp_fits now)) as Hs.
  assert (wf_protocol (protocol rt)) as Hwf by (destruct Hu as (spec & log & Hg); apply Hg).
  pose proof (resending_sent (timestamp now) _ _ Hwf (or_introl eq_refl)) as Hk.
  destruct (build_acknowledgement (timestamp now) (protocol rt)) as [p' r]. cbn [fst snd] in *.
  assert (∀ rt', protocol rt' = p' → queued_instructions rt' = queued_instructions rt →
    shutdown rt' = shutdown rt → closed rt') as Hcl.
  { intros rt' E1 E2 E3 Hs'. rewrite E2, E3. apply Hc. by rewrite <- Hk, <- E1. }
  destruct r as [packets|e|]; cbn [map_err]; [|split_and!; [by apply Hcl|done|done]..].
  destruct Hs as [u Hs]. rewrite !bindM_mod. rewrite app_nil_r in Hs.
  split_and!; [by apply Hcl|done|]. exists [(packets, u)]. split; [exact Hs|].
  by rewrite datagrams_app, datagrams_sent.
Qed.

Lemma poll_carries now msgs given rt :
  carrying rt msgs given → len (queued_instructions rt) < 2 ^ 64 →
  let '(rt', r) := poll now rt in
  ∃ new sent, carrying rt' (msgs ++ new) (given ++ sent) ∧ datagrams r = mjoin new.*1 ∧
    queue_step (queued_instructions rt) [] sent (queued_instructions rt') (is_ok r).
Proof.
  intros [Hw Hu Hq Hc] Hlen. pose proof (poll_wf key now rt Hw Hlen) as [Hw' _].
  assert (∀ rt' r, wf_runtime key rt' → (∃ new sent, closed rt' ∧
      uplink key (protocol rt') (msgs ++ new) (given ++ sent) ∧ datagrams r = mjoin new.*1 ∧
      (sent ++ queued_instructions rt' = queued_instructions rt ∨
       is_ok r = false ∧ sent = [] ∧ queued_instructions rt' = [])) →
    ∃ new sent, carrying rt' (msgs ++ new) (given ++ sent) ∧ datagrams r = mjoin new.*1 ∧
      queue_step (queued_instructions rt) [] sent (queued_instructions rt') (is_ok r)) as Hfin.
  { intros rt' r Hwr (new & sent & Hcr & Hur & Hd & Hqr). exists new, sent. split_and!; [|done|].
    - split; [done|done| |done]. destruct Hqr as [Hqr|(_ & _ & ->)]; [|apply wf_batch_nil].
      rewrite <- Hqr in Hq. by eapply wf_batch_app_r.
    - destruct Hqr as [<-|(-> & -> & ->)]; by constructor. }
  revert Hw'. unfold poll. rewrite bindM_get.
  destruct (negb _); [intros Hw'; apply Hfin; [done|]; exists [], []; rewrite !app_nil_r; by auto|].
  destruct (is_complete _); [intros Hw'; apply Hfin; [done|]; exists [], []; rewrite !app_nil_r; by auto|].
  unfold bindM. pose proof (poll_association_sends now msgs given rt Hc Hu) as Ha.
  destruct (poll_association now rt) as [rt1 r1]. destruct Ha as (Hc1 & Hq1 & Ha).
  destruct r1 as [acts|e|]; [|intros Hw'; apply Hfin; [done|]; exists [], []; rewrite !app_nil_r; by auto..].
  destruct Ha as (new1 & Hu1 & Hd1). rewrite <- Hq1 in Hq, Hlen.
  pose proof (poll_rest_shipped now acts _ _ rt1 Hc1 Hu1 Hq Hlen) as Hr.
  destruct (poll_rest now acts rt1) as [rt2 r2]. intros Hw'. apply Hfin; [done|]. rewrite Hq1 in Hr.
  destruct Hr as [[Hc2 Hr]|(Hc2 & Hu2 & Hq2 & Hok & Hd2)].
  - destruct r2 as [acts2|e|].
    + destruct Hr as (new2 & sent & Hu2 & Hd2 & Hq2). exists (new1 ++ new2), sent.
      rewrite app_assoc. split_and!; [done|done| |by left]. by rewrite Hd2, Hd1, fmap_app, join_app.
    + destruct Hr as [Hu2 Hq2]. exists [], []. rewrite !app_nil_r.
      split_and!; [done|by eapply uplink_forget|done|]. destruct Hq2; auto.
    + destruct Hr as [Hu2 Hq2]. exists [], []. rewrite !app_nil_r.
      split_and!; [done|by eapply uplink_forget|done|]. destruct Hq2; auto.
  - exists [], []. rewrite !app_nil_r. split_and!; [done|by eapply uplink_forget|done|by left].
Qed.

(** *** Whole sessions *)
Lemma call_carries c msgs given rt :
  carrying rt msgs given → call_fits c rt →
  let '(rt', r) := call c rt in
  ∃ new sent, carrying rt' (msgs ++ new) (given ++ sent) ∧ datagrams r = mjoin new.*1 ∧
    queue_step (queued_instructions rt) (accepted c rt) sent (queued_instructions rt') (keeps_input c rt).
Proof.
  intros Hc Hf.
  assert ((∃ now, c = CallPoll now) ∨ ∀ now, c ≠ CallPoll now) as [[now ->]|Hp']
    by (destruct c; first [right; by intros ? | left; by eexists]).
  { pose proof (poll_carries now msgs given rt Hc (proj1 Hf)) as H'. cbn [call].
    unfold accepted, keeps_input. cbn [input_call call]. by destruct (poll now rt). }
  pose proof (call_silent c Hp' rt) as Hq. pose proof (call_wf key c rt (ca_runtime _ _ _ Hc) (proj1 Hf)) as [Hw' _].
  assert (∀ r, quiet_result r → datagrams r = []) as Hd
    by (intros [acts| |] Hr; [by apply datagrams_quiet, Hr|done..]).
  destruct (input_call c) as [i|] eqn:Hi.
  { pose proof (input_call_carries c i rt msgs given Hc Hf Hi) as H'.
    destruct (call c rt) as [rt' r]. destruct H' as [Hc' Hs]. exists [], []. rewrite !app_nil_r.
    split_and!; [done|by apply Hd|]. by destruct c. }
  assert (c = CallCancel ∨ c ≠ CallCancel) as [->|Hcan] by (destruct c; auto).
  { cbn [call] in *. unfold cancel, accepted, keeps_input in *. rewrite bindM_get in *. cbn [input_call].
    destruct (bool_decide _); exists [], []; rewrite !app_nil_r;
      [split; [done|]; split; [done|by apply step_send]|].
    split_and!; [|done|by constructor]. destruct Hc. split; try done.
    intros Hs. split; [done|]. by apply ca_closed0. }
  pose proof (quiet_call_outbound (shutdown rt) msgs given (queued_instructions rt)
    (local_shutdown_sent (protocol rt)) c Hi Hp' Hcan rt (carrying_outbound _ _ _ Hc)) as Ho.
  assert (keeps_input c rt = true) as -> by (destruct c; try done; by destruct (Hp' now)).
  unfold accepted. rewrite Hi. destruct (call c rt) as [rt' r]. cbn [fst snd] in *.
  exists [], []. rewrite !app_nil_r. split_and!; [by eapply outbound_carrying|by apply Hd|].
  destruct Ho as (_ & -> & _). by constructor.
Qed.

Lemma calls_carry l msgs given rt a keeping :
  carrying rt msgs given → calls_fit l rt → accounted a given (queued_instructions rt) keeping →
  let '(rs, rt') := calls l rt in
  ∃ new sent, carrying rt' (msgs ++ new) (given ++ sent) ∧
    mjoin (datagrams <$> rs) = mjoin new.*1 ∧
    accounted (a ++ accepted_input l rt) (given ++ sent) (queued_instructions rt')
      (keeping && all_keep_input l rt).
Proof.
  revert msgs given rt a keeping. induction l as [|c l IH]; intros msgs given rt a keeping Hc Hf Ha;
    cbn [calls accepted_input all_keep_input].
  { exists [], []. by rewrite !app_nil_r, andb_true_r. }
  destruct Hf as [Hf Hl]. pose proof (call_carries c msgs given rt Hc Hf) as Hs.
  destruct (call c rt) as [rt1 r] eqn:Hcall. cbn [fst] in *.
  destruct Hs as (new & sent & Hc1 & Hd & Hq).
  pose proof (accounted_step _ _ _ _ _ _ _ _ Ha Hq) as Ha1.
  specialize (IH _ _ rt1 _ _ Hc1 Hl Ha1). destruct (calls l rt1) as [rs rt2].
  destruct IH as (new' & sent' & Hc2 & Hd2 & Ha2). exists (new ++ new'), (sent ++ sent').
  rewrite !app_assoc, <- andb_assoc in *. split_and!; [done| |].
  - rewrite fmap_app, join_app, fmap_cons. simpl. by rewrite Hd, Hd2.
  - by rewrite andb_assoc in *.
Qed.

Lemma runtime_new_carrying now rt :
  runtime_new key now = Ok rt → carrying rt [] [] ∧ accounted [] [] (queued_instructions rt) true.
Proof.
  intros Hn. pose proof (runtime_new_wf key now rt Hn) as Hw. unfold runtime_new in Hn.
  apply bind_ok_Ok in Hn as (p & Hp & [= <-]). pose proof (protocol_new_uplink key p Hp) as Hu.
  split; [|done]. split; [done|done|apply wf_batch_nil|]. simpl. unfold protocol_new in Hp.
  apply bind_ok_Ok in Hp as (s & _ & Hp). by apply bind_ok_Ok in Hp as (s' & _ & [= <-]).
Qed.
End arrival.

(** ** Properties *)

(** C3: What the user typed arrives, once and in order. Take any session: any calls of the
    host, with any datagrams received, lost or forged. The datagrams it sent are exactly the
    packets of messages, each message an update of the supported version whose packets open,
    for a server of the same key, to the fragments of its compressed encoding, in order;
    within the limits of the receiver (field widths, encoded and compressed length) such a
    server reads the update from them in whatever order and however often they come. Let
    the network deliver these messages in any order, any number of times, and lose any of
    them: every state the server can build holds a prefix of the input handed to the
    protocol, its number determines it, and the newest number holds all of it. The input
    handed over, followed by the queue, is the input the host's calls were accepted with,
    in order and without repetition; until the host cancels or a poll fails it lacks
    nothing but superseded window sizes, and ends with the newest input. And one
    retransmission, whose packets are those of its update in the same way, brings a server
    that holds the confirmed state everything. *)
Theorem typed_input_arrives_once `{Vt100Laws} `{Vte} `{AeadLaws} `{ProstLaws} `{ZlibLaws}
    key now (rt0 : SessionRuntime) l :
  runtime_new key now = Ok rt0 → calls_fit l rt0 →
  let '(rs, rt) := calls l rt0 in
  ∃ msgs given,
    mjoin (datagrams <$> rs) = mjoin msgs.*1 ∧
    Forall (λ m, sealed_as key m.1 (target_state m.2) m.2 ∧
      (transmissible m.2 → carries key m.1 (target_state m.2) m.2)) msgs ∧
    (∀ k content, holds add_input msgs.*2 k content →
       content `prefix_of` given ∧ (k = latest_local_state (protocol rt) → content = given) ∧
       ∀ content', holds add_input msgs.*2 k content' → content' = content) ∧
    accounted (accepted_input l rt0) given (queued_instructions rt) (all_keep_input l rt0) ∧
    (∀ ts p' packets, fits 16 ts → retransmit_pending ts (protocol rt) = (p', Ok packets) →
       ∃ u, sealed_as key packets (target_state u) u ∧
         (transmissible u → carries key packets (target_state u) u) ∧
         Some (base_state u) = sent_id <$> head (sent_states (protocol rt)) ∧
         target_state u = latest_local_state (protocol rt) ∧
         ∀ content, holds add_input msgs.*2 (base_state u) content →
           holds add_input (msgs.*2 ++ [u]) (target_state u) given).
Proof.
  intros Hn Hf. destruct (runtime_new_carrying key now rt0 Hn) as [Hc Ha].
  pose proof (calls_carry key l [] [] rt0 [] true Hc Hf Ha) as Hr. destruct (calls l rt0) as [rs rt].
  destruct Hr as (msgs & given & Hc' & Hd & Ha'). pose proof (ca_uplink _ _ _ _ Hc') as Hu.
  exists msgs, given. split_and!; [done| | |done|].
  - destruct Hu as (spec & log & Hg). apply Hg.
  - intros k content Hk. by apply (uplink_holds key).
  - intros ts p' packets Hts Hp. by eapply retransmission_completes.
Qed.
