(* ===== verification/Downlink.v ===== *)
(** * From the server to the screen

    The composition of the receiving protocol, the terminal states and their diffs, and
    the effects the runtime returns, seen from the host: whatever the network does with
    the datagrams of a server whose output grows, the output that reached the screen is
    what the server had written in the newest state the client holds, each byte once. *)
From S2P Require Import Prelude Emulators Fragment Message Crypto State Session Runtime Arrival.
Local Open Scope Z_scope.

(** ** The effects on the host's terminal *)
Definition effect_events (a : SessionAction) : list event :=
  match a with
  | WriteTerminal b => EByte <$> b
  | ResizeTerminal c r => [EResize c r]
  | RemoteSessionControl k pl => [EControl (mkSessionControl k pl)]
  | _ => []
  end.

(** What the result of a call shows. *)
Definition shown (r : outcome RuntimeError (list SessionAction)) : list event :=
  match r with Ok acts => mjoin (effect_events <$> acts) | _ => [] end.

Lemma shown_app a b : shown (Ok (a ++ b)) = shown (Ok a) ++ shown (Ok b).
Proof. simpl. by rewrite fmap_app, join_app. Qed.

Lemma shown_effectless acts : effectless acts → shown (Ok acts) = [].
Proof.
  induction 1 as [|a l Ha _ IH]; [done|]. change (a :: l) with ([a] ++ l). rewrite shown_app, IH.
  by destruct a.
Qed.

Lemma shown_operation op vp l :
  proper_events vp (events op ++ l) → shown (Ok (instruction_actions (op_instruction op))) = events op.
Proof.
  destruct op as [v|c r|[k pl]]; intros Hp; unfold instruction_actions; simpl; [by rewrite app_nil_r| |done].
  destruct Hp as (_ & [Hc Hr] & _). by rewrite !try_into_valid by done.
Qed.

(** Operations that are instructions of a diff show their events. *)
Lemma shown_operations ops vp :
  proper_events vp (flatten ops) →
  shown (Ok (mjoin (instruction_actions <$> (op_instruction <$> ops)))) = flatten ops.
Proof.
  revert vp. induction ops as [|op ops IH]; intros vp Hp; [done|].
  rewrite !fmap_cons, flatten_cons in *. cbn [mjoin list_join foldr] in *.
  change (mjoin (?x :: ?l)) with (x ++ mjoin l). rewrite shown_app.
  rewrite (shown_operation op vp (flatten ops)) by done. f_equal.
  apply proper_events_app in Hp as [_ Hp]. by eapply IH.
Qed.

Lemma shown_echo `{Vt100} target delivered :
  shown (Ok (mjoin (instruction_actions <$> echo_part target delivered))) = [].
Proof. unfold echo_part. case_bool_decide; [|done]. by destruct (echo_ack target). Qed.

Section downlink.
Context `{Vt100Laws} `{Vte} `{Aead} `{ProstLaws} `{ZlibLaws}.
Implicit Types p : ClientProtocol.

(** ** The updates that arrive *)

(** [ingest_packet] up to the complete message, which the rest of it reads. *)
Definition reassembled (packet : bytes)
    : M ClientProtocol SessionError (PacketReceipt + Z * Z * Z * bytes * FragmentHeader) :=
  let! self := getM in
  let! authenticated := liftM (map_err SessionOpen (open (secure_channel self) packet)) in
  let counter := counter authenticated in
  let plaintext := plaintext authenticated in
  let '(window, accepted) := replay_accept counter (replay_window self) in
  modM (λ self, self <| replay_window := window |>) ;!
  if negb accepted then errM ReplayDetected
  else
    let! timestamp_header := liftM (ok_or (SessionFragment HeaderTooShort)
                                      (get_to TIMESTAMP_HEADER_BYTES plaintext)) in
    let sent := from_be (take 2 timestamp_header) in
    let echoed := from_be (take 2 (drop 2 timestamp_header)) in
    let incomplete := {| packet_counter := counter; pr_sent_timestamp := sent;
                         pr_echoed_timestamp := echoed; pr_state := None |} in
    modM (λ self, self <| latest_peer_timestamp := Some sent |>) ;!
    if len plaintext <? MINIMUM_FRAGMENT_PLAINTEXT_BYTES then retM (inl incomplete)
    else
      let! fragment := liftM (map_err SessionFragment (parse plaintext)) in
      let header := header fragment in
      if negb (is_some (assemblies self !! state_id header))
         && (MAXIMUM_ACTIVE_ASSEMBLIES <=? Z.of_nat (size (assemblies self)))
      then errM TooManyActiveAssemblies
      else
        let! complete := push_fragment fragment in
        match complete with
        | None => retM (inl incomplete)
        | Some compressed =>
            modM (λ self, self <| assemblies ::= delete (state_id header) |>) ;!
            retM (inr (counter, sent, echoed, compressed, header))
        end.

Lemma ingest_packet_eq packet p :
  ingest_packet packet p =
  bindM (reassembled packet) (λ r,
    match r with
    | inl receipt => retM receipt
    | inr (counter, sent, echoed, compressed, header) =>
        receive_update counter sent echoed compressed header
    end) p.
Proof.
  unfold ingest_packet, reassembled, bindM, getM, modM, liftM, retM, errM. cbn beta iota.
  destruct (map_err SessionOpen _) as [auth|e|]; [|done..].
  destruct (replay_accept _ _) as [w [|]]; [|done]. cbn [negb].
  destruct (ok_or _ _) as [th|e|]; [|done..]. destruct (_ <? _); [done|].
  destruct (map_err SessionFragment _) as [f|e|]; [|done..]. destruct (_ && _); [done|].
  by destruct (push_fragment f _) as [p' [[compressed|]|e|]].
Qed.
(** The update of the message that a packet completes. *)
Definition arriving (packet : bytes) p : option StateUpdate :=
  match snd (reassembled packet p) with
  | Ok (inr (_, _, _, compressed, _)) =>
      match decode_compressed_update compressed with Ok u => Some u | _ => None end
  | _ => None
  end.

(** The receiving side of the protocol. *)
Definition same_receiver p p' : Prop :=
  received_states p' = received_states p ∧ latest_remote_state p' = latest_remote_state p ∧
  delivered_remote_state p' = delivered_remote_state p.

(** What only depends on the other fields survives reassembly. *)
Lemma reassembled_keeps (P : ClientProtocol → Prop) packet :
  (∀ p w, P p → P (p <| replay_window := w |>)) →
  (∀ p t, P p → P (p <| latest_peer_timestamp := t |>)) →
  (∀ p f, P p → P (p <| assemblies ::= f |>)) →
  keeps P (reassembled packet).
Proof.
  intros Hw Ht Ha p Hp. unfold reassembled. rewrite bindM_get. unfold bindM at 1, liftM at 1.
  destruct (map_err SessionOpen _) as [auth|e|]; [|done..].
  destruct (replay_accept _ _) as [w b]. rewrite bindM_mod. specialize (Hw p w Hp).
  destruct (negb b); [exact Hw|].
  unfold bindM at 1, liftM at 1. destruct (ok_or _ _) as [th|e|]; [|exact Hw..].
  rewrite bindM_mod. specialize (Ht _ (Some (from_be (take 2 th))) Hw). set (p1 := _ <| latest_peer_timestamp := _ |>) in *.
  clearbody p1. destruct (_ <? _); [exact Ht|]. revert p1 Ht.
  match goal with |- ∀ p1, _ → P (fst (?m p1)) => change (keeps P m) end.
  apply keeps_bind; [by apply keeps_pure|]. intros f.
  apply keeps_if; [by apply keeps_pure|]. apply keeps_bind.
  { intros p1 Hp1. destruct (push_fragment_keeps f p1) as [a ->]. by apply Ha. }
  intros [compressed|]; [|by apply keeps_pure].
  apply keeps_bind; [apply keeps_mod; intros ?; apply Ha|]. intros _. by apply keeps_pure.
Qed.

Lemma process_acknowledgement_receiver p0 k : keeps (same_receiver p0) (process_acknowledgement k).
Proof.
  intros p Hp. unfold process_acknowledgement. rewrite bindM_get.
  destruct (list_find _ _) as [[i st]|]; [|done]. rewrite bindM_mod, bindM_get.
  unfold bindM at 1, liftM at 1. destruct (expect _) as [front|e|]; [|done..].
  destruct (_ =? 0); [done|]. unfold bindM at 1, liftM at 1. destruct (slice_from _ _); [|done..].
  rewrite bindM_mod. unfold bindM, liftM. by destruct (collect _).
Qed.

(** ** The states held

    [log] is what the server had written in each of its states, from the first viewport
    [vp] on: bytes, resizes and controls. *)
Definition sane_event (e : event) : Prop :=
  match e with EControl c => bounded_control MAXIMUM_DECOMPRESSED_BYTES c | _ => True end.

Record held (log : Z → list event) (vp : ViewportSize) (k : Z) (s : RemoteTerminalState) : Prop := {
  hd_reached : reached s;
  hd_viewport : initial_viewport s = vp;
  hd_log : history_events s = log k;
  hd_sane : Forall sane_event (log k);
  hd_echo : ∀ e, echo_ack s = Some e → fits 64 e;
}.

(** The first viewport of the states that are held. *)
Definition first_viewport p : ViewportSize := initial_viewport (delivered_remote_state p).

Record following (log : Z → list event) p : Prop := {
  fw_received : map_Forall (λ k s, 0 ≤ k ≤ latest_remote_state p ∧ held log (first_viewport p) k s)
    (received_states p);
  fw_delivered : held log (first_viewport p) (latest_remote_state p) (delivered_remote_state p);
  fw_latest : 0 ≤ latest_remote_state p;
}.

Lemma following_same log p p' : following log p → same_receiver p p' → following log p'.
Proof.
  intros [Hr Hd Hl] (E1 & E2 & E3). unfold first_viewport in *.
  split; unfold first_viewport; rewrite ?E1, ?E2, ?E3; done.
Qed.

(** The server's states only grow. *)
Definition append_only (log : Z → list event) : Prop := ∀ j k, 0 ≤ j ≤ k → log j `prefix_of` log k.

(** An update of the server: from its base it writes what the server wrote. *)
Definition written (vp : ViewportSize) (content : list event) (batch : InstructionBatch) : list event :=
  flatten (batch_ops (foldl ev_viewport vp content) (instructions batch)).

Definition genuine (log : Z → list event) (vp : ViewportSize) (u : StateUpdate) : Prop :=
  ∀ batch, decode_instructions u = Ok batch →
    log (target_state u) = log (base_state u) ++ written vp (log (base_state u)) batch.

(** The history of its base has room for it. *)
Definition roomy p (u : StateUpdate) : Prop :=
  ∀ s batch, received_states p !! base_state u = Some s → decode_instructions u = Ok batch →
    limited s batch = true.

Lemma arriving_bounded packet p u :
  arriving packet p = Some u → len (delta u) ≤ MAXIMUM_DECOMPRESSED_BYTES.
Proof.
  unfold arriving. destruct (snd (reassembled packet p)) as [[|[[[[c st] et] z] h]]|e|]; try done.
  unfold decode_compressed_update. destruct (ok_or _ _) as [l|e|] eqn:Hl; [|done..]. cbn [bind_ok].
  destruct (Z.ltb_spec MAXIMUM_DECOMPRESSED_BYTES (len l)) as [|Hb]; [done|].
  destruct (validate_fields _ _); [|done..]. cbn [bind_ok].
  destruct (ok_or MalformedProtobuf _) as [u'|e|] eqn:Hu; [|done..]. cbn [bind_ok].
  destruct (negb _); [done|]. destruct (validate_instruction_batch _); [|done..]. cbn [bind_ok].
  intros [= <-]. apply ok_or_Ok, decode_update_bounded in Hu. lia.
Qed.

Lemma instr_ops_sane n vp i :
  bounded_instruction n i → n ≤ MAXIMUM_DECOMPRESSED_BYTES →
  Forall sane_event (flatten (instr_ops vp i)).
Proof.
  intros [_ Hc] Hn. rewrite instr_ops_parts, !flatten_app. repeat (apply Forall_app; split).
  - unfold bytes_ops, host_bytes_tail. destruct (instr_bytes i) as [b|]; [|constructor].
    case_bool_decide; [constructor|]. unfold flatten. simpl. rewrite app_nil_r.
    apply Forall_fmap. by apply Forall_true.
  - unfold viewport_ops. destruct (viewport i); [|constructor]. case_bool_decide; repeat constructor.
  - unfold control_ops. destruct (session_control i) as [c|]; [|constructor].
    destruct (Hc c eq_refl). apply Forall_singleton. split; [done|lia].
Qed.

Lemma batch_ops_sane n vp l :
  Forall (bounded_instruction n) l → n ≤ MAXIMUM_DECOMPRESSED_BYTES →
  Forall sane_event (flatten (batch_ops vp l)).
Proof.
  intros Hl Hn. revert vp. induction Hl as [|i l Hi _ IH]; intros vp; [constructor|].
  cbn [batch_ops]. rewrite flatten_app. apply Forall_app. split; [by eapply instr_ops_sane|apply IH].
Qed.

Lemma last_marker_fits n l e :
  Forall (bounded_instruction n) l → (∀ v, e = Some v → fits 64 v) →
  ∀ v, last_marker e l = Some v → fits 64 v.
Proof.
  intros Hl. revert e. induction Hl as [|i l [Hi _] _ IH]; intros e He; [done|]. cbn. apply IH.
  destruct (marker i) as [m|]; [|done]. intros v [= <-]. by apply Hi.
Qed.

Lemma decode_instructions_bounded u batch :
  decode_instructions u = Ok batch → Forall (bounded_instruction (len (delta u))) (instructions batch).
Proof.
  unfold decode_instructions. intros Hd. apply bind_ok_Ok in Hd as (_ & _ & Hd).
  by apply ok_or_Ok, decode_batch_bounded in Hd.
Qed.

(** A held state takes a genuine update to the held state of its target. *)
Lemma held_applied log vp u base batch s' r :
  held log vp (base_state u) base → genuine log vp u → decode_instructions u = Ok batch →
  limited base batch = true → len (delta u) ≤ MAXIMUM_DECOMPRESSED_BYTES →
  apply batch base = (s', Ok r) → held log vp (target_state u) s'.
Proof.
  intros [Hreach Hvp Hlog Hsane Hecho] Hg Hd Hl Hlen Ha.
  destruct (reached_spec base Hreach) as [Hw _].
  pose proof (decode_instructions_bounded u batch Hd) as Hb.
  pose proof (reached_apply base batch s' _ Hreach Ha Hl) as Hreach'.
  rewrite apply_eq in Ha by done. destruct (can_apply base batch) as [[]|e|]; [|done..].
  injection Ha as <- <-. unfold applied in *. rewrite Hl in *. specialize (Hg batch Hd).
  unfold written in Hg. rewrite <- Hlog, <- Hvp in Hg. unfold history_events in Hg at 2.
  rewrite <- (wf_viewport base Hw) in Hg. split; [done|done| | |].
  - rewrite Hg. unfold history_events. simpl.
    destruct (record_ops (history base) (batch_ops (st_viewport base) (instructions batch))) as [Hr _].
    simpl in Hr. by rewrite Hr, flatten_app.
  - rewrite Hg. apply Forall_app. split; [by rewrite Hlog|]. by eapply batch_ops_sane.
  - simpl. by eapply last_marker_fits.
Qed.

(** ** The diff that is delivered *)
Lemma flatten_length l : len (flatten l) ≤ ops_bytes l + len l.
Proof.
  induction l as [|op l IH]; [done|]. rewrite flatten_cons, len_app, len_cons. unfold ops_bytes in *.
  rewrite fmap_cons, sum_list_Z_cons. destruct op as [v|c r|sc]; simpl; [|rewrite len_cons, (@len_nil event); lia..].
  unfold len in *. rewrite length_fmap. lia.
Qed.

Lemma wf_events_bounded s : wf_terminal s → len (history_events s) < 2 ^ 62.
Proof.
  intros []. pose proof (flatten_length (operations (history s))) as Hl. unfold history_events.
  assert (MAX_RETAINED_HOST_BYTES + MAX_RETAINED_OPERATIONS < 2 ^ 62) by done. lia.
Qed.

Lemma operation_valid op vp l :
  proper_events vp (events op ++ l) → Forall sane_event (events op) → len (events op) < 2 ^ 62 →
  wf_batch (mkInstructionBatch [op_instruction op]).
Proof.
  assert (MAXIMUM_DECOMPRESSED_BYTES < 2 ^ 62) as Hm by done.
  destruct op as [v|c r|[k pl]]; intros Hp Hs Hl.
  - apply bytes_batch_valid. cbn [events] in Hl. unfold len in *. by rewrite length_fmap in Hl.
  - destruct Hp as (_ & [Hc Hr] & _). simpl in *. apply viewport_batch_valid; unfold fits; lia.
  - simpl in Hs. apply Forall_singleton in Hs as [Hk Hpl]. simpl in Hk, Hpl.
    apply control_batch_valid; [done|lia].
Qed.

Lemma operations_valid ops vp :
  proper_events vp (flatten ops) → Forall sane_event (flatten ops) → len (flatten ops) < 2 ^ 62 →
  wf_batch (mkInstructionBatch (op_instruction <$> ops)).
Proof.
  revert vp. induction ops as [|op ops IH]; intros vp Hp Hs Hl; [apply wf_batch_nil|].
  rewrite flatten_cons in *. apply Forall_app in Hs as [Hs1 Hs2]. rewrite len_app in Hl.
  pose proof (len_nonneg (events op)). pose proof (len_nonneg (flatten ops)).
  apply (wf_batch_app [op_instruction op]); [by eapply operation_valid; [| |lia]|].
  apply proper_events_app in Hp as [_ Hp]. eapply IH; [done|done|lia].
Qed.

Lemma echo_valid target delivered :
  (∀ e, echo_ack target = Some e → fits 64 e) →
  wf_batch (mkInstructionBatch (echo_part target delivered)).
Proof.
  intros He. unfold echo_part. case_bool_decide; [|apply wf_batch_nil].
  destruct (echo_ack target) as [e|]; [|apply wf_batch_nil]. by apply marker_batch_valid, He.
Qed.

(** The diff between held states: it can be sent, and it shows what is missing. *)
Lemma held_diff log vp j k delivered target :
  append_only log → 0 ≤ j ≤ k → held log vp j delivered → held log vp k target →
  ∃ d, diff_from target delivered = Ok d ∧ wf_batch d ∧
    log k = log j ++ shown (Ok (mjoin (instruction_actions <$> instructions d))).
Proof.
  intros Hgrow Hjk [Hrd Hvd Hld _ _] [Hrt Hvt Hlt Hsane Hecho].
  destruct (reached_spec _ Hrd) as [Wd _]. destruct (reached_spec _ Hrt) as [Wt _].
  destruct (diff_from_prefix target delivered Wt Wd) as (ops & Hd & Hf & _ & Hp); [congruence| |].
  { rewrite Hld, Hlt. by apply Hgrow. }
  exists (mkInstructionBatch (echo_part target delivered ++ (op_instruction <$> ops))). split_and!; [done| |].
  - apply wf_batch_app; [by apply echo_valid|].
    pose proof (wf_events_bounded target Wt) as Hl. rewrite <- Hlt in Hsane.
    rewrite Hf in Hl, Hsane. rewrite len_app in Hl. pose proof (len_nonneg (history_events delivered)).
    apply Forall_app in Hsane as [_ Hsane]. eapply operations_valid; [done|done|lia].
  - rewrite <- Hlt, <- Hld, Hf. f_equal. cbn [instructions]. rewrite fmap_app, join_app, shown_app.
    rewrite shown_echo. symmetry. by eapply shown_operations.
Qed.

(** ** Receiving *)

(** What is needed for an update to be delivered at once. *)
Record current p (u : StateUpdate) : Prop := {
  cu_newer : latest_remote_state p < target_state u;
  cu_base : ∃ base batch, received_states p !! base_state u = Some base ∧
    decode_instructions u = Ok batch ∧ is_ok (snd (apply batch base)) = true;
  cu_discard : discard_before u ≤ base_state u;
  cu_room : Z.of_nat (size (received_states p)) < MAXIMUM_RECEIVED_STATES;
}.

Definition currentb p (u : StateUpdate) : bool :=
  (latest_remote_state p <? target_state u)
  && match received_states p !! base_state u, decode_instructions u with
     | Some base, Ok batch => is_ok (snd (apply batch base))
     | _, _ => false
     end
  && (discard_before u <=? base_state u)
  && (Z.of_nat (size (received_states p)) <? MAXIMUM_RECEIVED_STATES).

Lemma currentb_spec p u : currentb p u = true ↔ current p u.
Proof.
  unfold currentb. rewrite !andb_true_iff, !Z.ltb_lt, Z.leb_le.
  split; [intros [[[? Hb] ?] ?]|intros [? (base & batch & Hb & Hd & Ha) ? ?]].
  - split; try done. destruct (received_states p !! base_state u); [|done].
    destruct (decode_instructions u); [|done..]. eauto.
  - by rewrite Hb, Hd, Ha.
Qed.

Lemma following_hold log p k s :
  following log p → 0 ≤ k ≤ latest_remote_state p → held log (first_viewport p) k s →
  following log (p <| received_states ::= <[k := s]> |>).
Proof.
  intros [Hr Hd Hl] Hk Hs. split; [|done|done]. simpl. by apply map_Forall_insert_2.
Qed.

Lemma following_deliver log p k s :
  following log p → latest_remote_state p ≤ k → held log (first_viewport p) k s →
  following log (((p <| received_states ::= <[k := s]> |>) <| latest_remote_state := k |>)
                   <| delivered_remote_state := s |>).
Proof.
  intros [Hr Hd Hl] Hk Hs.
  assert (∀ p', delivered_remote_state p' = s → first_viewport p' = first_viewport p) as Hvp.
  { intros p' E. unfold first_viewport at 1. rewrite E. apply Hs. }
  split; rewrite ?Hvp by done; simpl; [|done|lia]. apply map_Forall_insert_2; [split; [lia|done]|].
  intros j t Hj. destruct (Hr j t Hj). split; [lia|done].
Qed.

Lemma accept_following log u p :
  append_only log → following log p → genuine log (first_viewport p) u → roomy p u →
  len (delta u) ≤ MAXIMUM_DECOMPRESSED_BYTES →
  let '(p', r) := accept_remote_update u p in
  following log p' ∧ first_viewport p' = first_viewport p ∧
  (current p u → ∃ u', r = Ok (true, u') ∧ latest_remote_state p' = target_state u).
Proof.
  intros Hgrow Hf Hg Hroom Hlen. unfold accept_remote_update. rewrite bindM_get.
  destruct (received_states p !! target_state u) as [st|] eqn:Hheld; cbn [is_some].
  { split_and!; [done..|]. intros [Hn _ _ _]. destruct (fw_received _ _ Hf _ _ Hheld). lia. }
  destruct ((_ <? _) || _) eqn:Hvalid.
  { split_and!; [done..|]. intros [Hn (base & batch & Hb & _) Hdis _].
    destruct (fw_received _ _ Hf _ _ Hb).
    apply orb_true_iff in Hvalid as [?%Z.ltb_lt|?%Z.leb_le]; lia. }
  destruct (received_states p !! base_state u) as [base|] eqn:Hbase.
  2: { split_and!; [done..|]. intros [_ (? & ? & Hb & _) _ _]. congruence. }
  destruct (fw_received _ _ Hf _ _ Hbase) as [Hbl Hbh].
  rewrite (reached_clone base (hd_reached _ _ _ _ Hbh)). unfold bindM at 1, liftM at 1. cbn [map_err].
  destruct (decode_instructions u) as [batch|e|] eqn:Hdec; cbn [map_err];
    [|split_and!; [done..|]; intros [_ (? & ? & _ & Hd & _) _ _]; congruence..].
  unfold bindM at 1, liftM at 1. pose proof (Hroom base batch Hbase Hdec) as Hlim.
  destruct (apply batch base) as [target [[]|e|]] eqn:Happ;
    [|split_and!; [done..|]; intros [_ (base' & batch' & Hb & Hd & Ha) _ _];
      assert (base' = base) as -> by congruence; assert (batch' = batch) as -> by congruence;
      by rewrite Happ in Ha..].
  pose proof (held_applied log _ u base batch target tt Hbh Hg Hdec Hlim Hlen Happ) as Ht.
  unfold bindM at 1, liftM at 1. rewrite !bindM_mod, bindM_get.
  set (floor := Z.max _ _).
  set (m := filter (λ entry : Z * RemoteTerminalState, floor ≤ entry.1) (received_states p)).
  set (p1 := (p <| received_states := m |>) <| remote_throwaway_floor := floor |>).
  change ((p <| received_states ::= filter (λ entry, floor ≤ entry.1) |>)
            <| remote_throwaway_floor := floor |>) with p1.
  assert (m ⊆ received_states p) as Hsub by apply map_filter_subseteq.
  assert (following log p1) as Hf1.
  { destruct Hf as [Hr Hd Hl]. split; [|done|done]. intros k s Hk. apply Hr. by eapply lookup_weaken. }
  destruct (Z.leb_spec MAXIMUM_RECEIVED_STATES (Z.of_nat (size (received_states p1)))) as [Hfull|_].
  { split_and!; [done..|]. intros [_ _ _ Hr]. pose proof (map_subseteq_size _ _ Hsub) as Hsz.
    change (received_states p1) with m in Hfull. lia. }
  rewrite (reached_clone target (hd_reached _ _ _ _ Ht)). unfold bindM at 1, liftM at 1. cbn [map_err].
  rewrite bindM_mod. change (first_viewport p) with (first_viewport p1) in Ht |- *.
  change (latest_remote_state p1) with (latest_remote_state p).
  apply orb_false_iff in Hvalid as [_ Hafter%Z.leb_gt].
  destruct (Z.leb_spec (target_state u) (latest_remote_state p)) as [Hle|Hnew].
  { unfold retM. split_and!; [apply following_hold; [done|simpl; lia|done]|done|]. intros [Hn _ _ _]. lia. }
  destruct (held_diff log (first_viewport p1) (latest_remote_state p) (target_state u)
    (delivered_remote_state p) target) as (d & Hdiff & _); [done|destruct Hf; lia|apply (fw_delivered _ _ Hf)|done|].
  change (delivered_remote_state p1) with (delivered_remote_state p). rewrite Hdiff, !bindM_mod. unfold retM.
  split_and!.
  - apply (following_deliver log p1); [done|simpl; lia|done].
  - apply Ht.
  - intros _. by eexists.
Qed.

(** What an arriving update has to satisfy. *)
Definition faithful (log : Z → list event) p (u : StateUpdate) : Prop :=
  genuine log (first_viewport p) u ∧ roomy p u.

Lemma same_receiver_facts log p p' u :
  same_receiver p p' → (faithful log p u → faithful log p' u) ∧ (current p u → current p' u) ∧
    first_viewport p' = first_viewport p.
Proof.
  intros (E1 & E2 & E3). unfold faithful, roomy, first_viewport. rewrite E1, E3. split_and!; [done| |done].
  intros []. split; by rewrite ?E1, ?E2.
Qed.

Lemma receive_update_following log counter st et compressed h u p spec :
  append_only log → following log p → sent_history spec (sent_states p) (local_instructions p) →
  decode_compressed_update compressed = Ok u → faithful log p u →
  len (delta u) ≤ MAXIMUM_DECOMPRESSED_BYTES →
  let '(p', r) := receive_update counter st et compressed h p in
  following log p' ∧ first_viewport p' = first_viewport p ∧
  (current p u → is_some (advanced_state r) = true ∧ latest_remote_state p' = target_state u).
Proof.
  intros Hgrow Hf Hs Hd Hfu Hlen. unfold receive_update. rewrite Hd. unfold bindM at 1, liftM at 1. cbn [map_err].
  pose proof (process_acknowledgement_spec (acknowledged_state u) p spec Hs) as Hack.
  pose proof (process_acknowledgement_receiver p (acknowledged_state u) p ltac:(done)) as Hsame.
  unfold bindM at 1. destruct (process_acknowledgement (acknowledged_state u) p) as [p1 r1].
  destruct Hack as [-> _]. cbn [fst] in Hsame.
  destruct (same_receiver_facts log p p1 u Hsame) as (Hfu1 & Hcur & Hvp). destruct (Hfu1 Hfu) as [Hg Hr].
  pose proof (accept_following log u p1 Hgrow (following_same _ _ _ Hf Hsame) Hg Hr Hlen) as Ha.
  unfold bindM at 1. destruct (accept_remote_update u p1) as [p2 r2]. rewrite Hvp in Ha.
  destruct Ha as (Hf2 & Hvp2 & Hc).
  destruct r2 as [[adv u2]|e|]; [|split_and!; [done..|]; intros Hcp; by destruct (Hc (Hcur Hcp)) as (? & ? & _)..].
  unfold bindM, modM, retM. destruct (negb _); (split_and!; [|done|]);
    try (by apply (following_same log p2)); try done; intros Hcp;
    destruct (Hc (Hcur Hcp)) as (u' & [= -> ->] & Hl); by split.
Qed.

Lemma ingest_following log packet p :
  append_only log → following log p → wf_protocol p →
  (∀ u, arriving packet p = Some u → faithful log p u) →
  let '(p', r) := ingest_packet packet p in
  following log p' ∧ first_viewport p' = first_viewport p ∧
  (∀ u, arriving packet p = Some u → current p u →
     is_some (advanced_state r) = true ∧ latest_remote_state p' = target_state u).
Proof.
  intros Hgrow Hf Hwf Hfaith. rewrite ingest_packet_eq. destruct (wf_sent p Hwf) as (spec & Hs & _).
  assert (keeps (λ p', same_receiver p p' ∧ sent_history spec (sent_states p') (local_instructions p'))
    (reassembled packet)) as Hk by (by apply reassembled_keeps; intros ? ? [? ?]; split).
  destruct (Hk p) as [Hsame Hs1]; [split; [done|exact Hs]|].
  assert (∀ u, arriving packet p = Some u → len (delta u) ≤ MAXIMUM_DECOMPRESSED_BYTES) as Hlen
    by (intros u; apply arriving_bounded).
  unfold arriving in *. unfold bindM.
  destruct (reassembled packet p) as [p1 r1]. cbn [fst snd] in *.
  destruct (same_receiver_facts log p p1 (StateUpdate_new 0 0 0) Hsame) as (_ & _ & Hvp).
  pose proof (following_same _ _ _ Hf Hsame) as Hf1.
  destruct r1 as [[receipt|[[[[c st] et] z] h]]|e|]; [by split_and!| |by split_and!..].
  destruct (decode_compressed_update z) as [u|e|] eqn:Hd.
  2,3: unfold receive_update, bindM at 1, liftM at 1; rewrite Hd; by split_and!.
  destruct (same_receiver_facts log p p1 u Hsame) as (Hfu & Hcur & _).
  pose proof (receive_update_following log c st et z h u p1 spec Hgrow Hf1 Hs1 Hd
    (Hfu (Hfaith u eq_refl)) (Hlen u eq_refl)) as Hr.
  destruct (receive_update c st et z h p1) as [p2 r2]. rewrite Hvp in Hr.
  destruct Hr as (Hf2 & Hvp2 & Hc). split_and!; [done..|]. intros u' [= <-] Hcu. auto.
Qed.

(** ** The other calls *)
#[local] Ltac keep_receiver := keeping ltac:(intros; done).

Lemma builders_receiver p0 ts batch :
  keeps (same_receiver p0) (build_acknowledgement ts) ∧ keeps (same_receiver p0) (build_update ts batch) ∧
  keeps (same_receiver p0) (build_shutdown ts batch) ∧ keeps (same_receiver p0) (build_shutdown_ack ts) ∧
  keeps (same_receiver p0) (retransmit_pending ts).
Proof.
  unfold build_acknowledgement, build_update, build_shutdown, build_shutdown_ack, retransmit_pending.
  split_and!; keep_receiver.
Qed.

Definition receiver_of p0 (rt : SessionRuntime) : Prop := same_receiver p0 (protocol rt).

Lemma on_protocol_receiver {A} p0 (m : M ClientProtocol SessionError A) :
  keeps (same_receiver p0) m → keeps (receiver_of p0) (on_protocol m).
Proof. intros Hm rt Hr. rewrite on_protocol_eq. by apply Hm. Qed.

#[local] Ltac keep_runtime :=
  keeping ltac:(intros; done);
  repeat match goal with
  | |- keeps (receiver_of _) (on_protocol _) =>
      apply on_protocol_receiver; first [by apply builders_receiver | by apply (builders_receiver _ _ (mkInstructionBatch []))]
  | |- keeps (receiver_of _) (modM record_shutdown_transmission) =>
      apply keeps_mod; intros rt; unfold receiver_of; by rewrite record_transmission_eq
  end.

Lemma poll_receiver p0 now : keeps (receiver_of p0) (poll now).
Proof.
  unfold poll, poll_association, build_association, poll_rest, poll_queued, poll_pending, poll_idle.
  keep_runtime.
Qed.

(** Every call that neither receives nor resizes leaves the receiving side alone. *)
Lemma other_call_receiver p0 c :
  match c with
  | CallReceive _ _ | CallReceiveLossy _ _ | CallQueueResize _ _ | CallQueueEvent (InputResize _ _) => False
  | _ => True
  end →
  keeps (receiver_of p0) (call c).
Proof.
  destruct c as [[input|]|input|c r|k pl|caps| | |now| |now|now|packet now|packet now|now]; intros Hc; try done;
    cbn [call].
  11: apply poll_receiver.
  all: unfold no_actions, pause, cancel, request_shutdown, notify_udp_rebound, resume, resume_with_actions,
    resume_state, queue_input, queue_session_control, queue_terminal_event, ensure_running, ensure_accepting_input, reserve_input;
    keep_runtime.
Qed.

(** *** What a poll shows *)
Lemma poll_effectless now : returns effectless (poll now).
Proof.
  assert (∀ acts, effectless acts → returns effectless (complete_peer_shutdown_after_ack acts)) as Hc.
  { intros acts Ha. apply returns_then. intros rt. apply returns_if; [|by apply returns_ret].
    apply returns_then. intros _. apply (returns_bind effectless).
    - apply returns_then. intros _. apply returns_ret. by repeat constructor.
    - intros l Hl. apply returns_ret. by apply Forall_app. }
  assert (∀ acts packets d, effectless acts → effectless (acts ++ send_actions packets ++ [Diagnostic d])) as Hs.
  { intros acts packets d Ha. apply Forall_app. split; [done|]. apply Forall_app. split; [|by repeat constructor].
    apply Forall_fmap. by apply Forall_true. }
  unfold poll. apply returns_then. intros rt. do 2 (apply returns_if; [apply returns_ret; constructor|]).
  apply (returns_bind effectless).
  - unfold poll_association. apply returns_then. intros rt'. apply returns_if; [|apply returns_ret; constructor].
    do 3 (apply returns_then; intros ?). apply returns_ret. apply (Hs []); constructor.
  - intros acts Ha. unfold poll_rest. apply returns_then. intros rt'.
    unfold complete_shutdown.
    do 2 (apply returns_if; [apply returns_then; intros _; apply returns_ret; by repeat constructor|]).
    apply returns_then. intros state. set (acts' := acts ++ _).
    assert (effectless acts') as Ha' by (apply Forall_app; split; [done|]; destruct state; by repeat constructor).
    apply returns_then. intros rt1. apply returns_if; [|apply returns_if].
    + apply returns_then. intros [packets d]. apply returns_then. intros _. by apply Hc, Hs.
    + apply returns_then. intros rt2. apply returns_if; [by apply returns_ret|].
      do 5 (apply returns_then; intros ?). by apply Hc, Hs.
    + apply returns_then. intros rt2. apply returns_if; [by apply returns_ret|].
      do 4 (apply returns_then; intros ?). by apply Hc, Hs.
Qed.

Lemma other_call_effectless c :
  match c with CallReceive _ _ | CallReceiveLossy _ _ => False | _ => True end →
  returns effectless (call c).
Proof.
  assert (∀ m, returns effectless (no_actions m)) as Hno
    by (intros m; apply returns_then; intros _; apply returns_ret; constructor).
  assert (∀ s, effectless (lifecycle_actions s)) as Hl by by repeat constructor.
  assert (effectless []) as Hn by constructor.
  destruct c as [event|input|c r|k pl|caps| | |now| |now|now|packet now|packet now|now]; intros Hc; try done;
    cbn [call]; try apply Hno; try apply poll_effectless;
    unfold pause, cancel, request_shutdown, notify_udp_rebound, resume_with_actions;
    repeat first
      [ apply returns_if
      | apply returns_ret; first [done | by repeat constructor | by auto]
      | apply returns_then; intros ? ].
Qed.

(** *** Receiving, and the first viewport *)
Lemma receive_following log packet now rt :
  append_only log → following log (protocol rt) → wf_protocol (protocol rt) →
  (lifecycle rt = Running → ∀ u, arriving packet (protocol rt) = Some u → faithful log (protocol rt) u) →
  let '(rt', r) := receive_datagram packet now rt in
  following log (protocol rt') ∧
  log (latest_remote_state (protocol rt')) = log (latest_remote_state (protocol rt)) ++ shown r ∧
  (∀ u, lifecycle rt = Running → arriving packet (protocol rt) = Some u → current (protocol rt) u →
     is_ok r = true ∧ latest_remote_state (protocol rt') = target_state u).
Proof.
  intros Hgrow Hf Hwf Hfaith. assert (lifecycle rt = Running ∨ lifecycle rt ≠ Running) as [Hl|Hl]
    by (destruct (lifecycle rt); auto).
  2: { unfold receive_datagram, bindM at 1, ensure_running. rewrite bindM_get.
    destruct (lifecycle rt); [done|..]; cbn; (split_and!; [done|by rewrite app_nil_r|done]). }
  destruct (wf_window _ Hwf) as [acc Hacc].
  pose proof (ingest_packet_spec packet (protocol rt) acc Hwf Hacc) as Hi.
  pose proof (ingest_following log packet (protocol rt) Hgrow Hf Hwf (Hfaith Hl)) as Hin.
  pose proof (receive_datagram_run packet now rt Hl) as Hrun.
  destruct (ingest_packet packet (protocol rt)) as [p receipt]. destruct Hin as (Hf' & Hvp & Hprog).
  destruct Hi as (_ & _ & Hdel & _). destruct (receive_datagram packet now rt) as [rt' r].
  destruct Hrun as [-> Hrun]. split; [done|].
  assert (∀ acts, delivery (protocol rt) p None → effectless acts → r = Ok acts →
    log (latest_remote_state p) = log (latest_remote_state (protocol rt)) ++ shown r) as Hnone.
  { intros acts [-> _] Hq ->. by rewrite (shown_effectless _ Hq), app_nil_r. }
  destruct receipt as [receipt|e|]; cbn [advanced_state] in *.
  2,3: destruct Hdel as [-> _]; subst r; split; [by rewrite app_nil_r|];
    intros u _ Hu Hc; by destruct (Hprog u Hu Hc).
  destruct (advanced_state (Ok receipt)) as [u|] eqn:Hadv; unfold advanced_state in Hadv; rewrite Hadv in *.
  - destruct Hdel as (Hlt & Heq & d & Hd & Hdelta). destruct Hrun as (acts & Hq & _ & ->).
    destruct (held_diff log (first_viewport (protocol rt)) (latest_remote_state (protocol rt))
      (latest_remote_state p) (delivered_remote_state (protocol rt)) (delivered_remote_state p))
      as (d' & Hd' & Hwd & Hlog); [done|destruct Hf; lia|apply (fw_delivered _ _ Hf)| |].
    { rewrite <- Hvp. apply (fw_delivered _ _ Hf'). }
    rewrite Hd in Hd'. injection Hd' as <-. destruct (decode_instructions_encode d u Hwd Hdelta) as [_ ->].
    cbn [map_err bind_ok]. split.
    + by rewrite shown_app, (shown_effectless _ Hq).
    + intros u' _ Hu Hc. split; [done|]. by destruct (Hprog u' Hu Hc).
  - destruct Hrun as (acts & Hq & Hr). split; [by eapply Hnone|].
    intros u' _ Hu Hc. by destruct (Hprog u' Hu Hc).
Qed.

Lemma held_new log c r s : log 0 = [] → terminal_new c r = Ok s → held log (initial_viewport s) 0 s.
Proof.
  intros Hlog0 Hn. pose proof (reached_new c r s Hn) as Hr. unfold terminal_new in Hn.
  apply bind_ok_Ok in Hn as (_ & _ & [= <-]). split; [done|done|by rewrite Hlog0| |done].
  rewrite Hlog0. constructor.
Qed.

Lemma resize_following log c r p p' :
  log 0 = [] → following log p → set_initial_remote_viewport c r p = Ok p' →
  following log p' ∧ latest_remote_state p' = latest_remote_state p.
Proof.
  intros Hlog0 Hf. unfold set_initial_remote_viewport.
  destruct (negb _ || _) eqn:Hcond; [by intros [= <-]|]. apply orb_false_iff in Hcond as [Hl _].
  apply negb_false_iff, Z.eqb_eq in Hl.
  destruct (terminal_new _ _) as [s|e|] eqn:Hs; [|by intros [= <-]..].
  pose proof (held_new log _ _ s Hlog0 Hs) as Hh. rewrite (reached_clone s (hd_reached _ _ _ _ Hh)).
  cbn [map_err bind_ok]. intros [= <-]. split; [|done]. destruct Hf as [Hr _ _].
  split; simpl; rewrite ?Hl; [|exact Hh|done].
  intros k t Hk. apply lookup_insert_Some in Hk as [[<- <-]|[Hne Hk]]; [by split|].
  destruct (Hr k t Hk). lia.
Qed.

Lemma protocol_new_following key log p :
  log 0 = [] → protocol_new key = Ok p → following log p ∧ latest_remote_state p = 0.
Proof.
  intros Hlog0 Hn. unfold protocol_new in Hn.
  apply bind_ok_Ok in Hn as (s & Hs & Hn). destruct (terminal_new _ _) as [s0|e|] eqn:Ht; [|done..].
  injection Hs as ->. pose proof (held_new log _ _ s Hlog0 Ht) as Hh.
  rewrite (reached_clone s (hd_reached _ _ _ _ Hh)) in Hn. cbn [map_err bind_ok] in Hn. injection Hn as <-.
  split; [|done]. split; [|exact Hh|done]. simpl. intros k t Hk.
  apply lookup_singleton_Some in Hk as [<- <-]. by split.
Qed.

(** ** Whole sessions *)

(** The update that a call makes arrive. *)
Definition arrives (c : HostCall) (rt : SessionRuntime) : option StateUpdate :=
  match c with
  | CallReceive packet _ | CallReceiveLossy packet _ =>
      if bool_decide (lifecycle rt = Running) then arriving packet (protocol rt) else None
  | _ => None
  end.

(** Both are decided by computation. *)
Definition faithfulb (log : Z → list event) p (u : StateUpdate) : bool :=
  match decode_instructions u with
  | Ok batch =>
      bool_decide (log (target_state u) =
        log (base_state u) ++ written (first_viewport p) (log (base_state u)) batch)
      && match received_states p !! base_state u with Some s => limited s batch | None => true end
  | _ => true
  end.

Lemma faithfulb_spec log p u : faithfulb log p u = true ↔ faithful log p u.
Proof.
  unfold faithfulb, faithful, genuine, roomy.
  destruct (decode_instructions u) as [batch|e|]; [|naive_solver..].
  rewrite andb_true_iff, bool_decide_eq_true.
  destruct (received_states p !! base_state u) as [s|]; naive_solver.
Qed.

(** Everything that arrives in a run is the server's. *)
Fixpoint all_faithful (log : Z → list event) (l : list HostCall) (rt : SessionRuntime) : Prop :=
  match l with
  | [] => True
  | c :: l =>
      match arrives c rt with Some u => faithful log (protocol rt) u | None => True end ∧
      all_faithful log l (fst (call c rt))
  end.

Fixpoint all_faithfulb (log : Z → list event) (l : list HostCall) (rt : SessionRuntime) : bool :=
  match l with
  | [] => true
  | c :: l =>
      match arrives c rt with Some u => faithfulb log (protocol rt) u | None => true end
      && all_faithfulb log l (fst (call c rt))
  end.

Lemma all_faithfulb_spec log l rt : all_faithfulb log l rt = true ↔ all_faithful log l rt.
Proof.
  revert rt. induction l as [|c l IH]; intros rt; cbn [all_faithful all_faithfulb]; [done|].
  rewrite andb_true_iff, IH. destruct (arrives c rt); rewrite ?faithfulb_spec; naive_solver.
Qed.

Lemma all_faithful_app log l k rt :
  all_faithful log (l ++ k) rt ↔ all_faithful log l rt ∧ all_faithful log k (snd (calls l rt)).
Proof.
  revert rt. induction l as [|c l IH]; intros rt; cbn [all_faithful calls app]; [naive_solver|].
  rewrite IH. destruct (call c rt) as [rt1 r]. cbn [fst]. destruct (calls l rt1). naive_solver.
Qed.

Lemma call_following key log c rt :
  append_only log → log 0 = [] → wf_runtime key rt → following log (protocol rt) →
  match arrives c rt with Some u => faithful log (protocol rt) u | None => True end →
  let '(rt', r) := call c rt in
  following log (protocol rt') ∧
  log (latest_remote_state (protocol rt')) = log (latest_remote_state (protocol rt)) ++ shown r.
Proof.
  intros Hgrow Hlog0 Hw Hf Hc. pose proof (wf_reach_protocol key rt Hw) as Hwf.
  assert (∀ packet now, arrives c rt = arrives (CallReceive packet now) rt →
    let '(rt', r) := receive_datagram packet now rt in
    following log (protocol rt') ∧
    log (latest_remote_state (protocol rt')) = log (latest_remote_state (protocol rt)) ++ shown r) as Hrec.
  { intros packet now Ha. rewrite Ha in Hc. unfold arrives in Hc.
    pose proof (receive_following log packet now rt Hgrow Hf Hwf) as Hr.
    destruct (receive_datagram packet now rt) as [rt' r]. destruct Hr as (? & ? & _); [|done].
    intros Hl u Hu. by rewrite Hl, Hu in Hc. }
  assert (∀ m, returns effectless m → keeps (receiver_of (protocol rt)) m → let '(rt', r) := m rt in
    following log (protocol rt') ∧
    log (latest_remote_state (protocol rt')) = log (latest_remote_state (protocol rt)) ++ shown r) as Hother.
  { intros m He Hk. specialize (He rt). specialize (Hk rt ltac:(done)). destruct (m rt) as [rt' r].
    cbn [fst snd] in *. split; [by eapply following_same|]. destruct Hk as (_ & -> & _).
    destruct r as [acts|e|]; [|by rewrite app_nil_r..]. by rewrite (shown_effectless acts), app_nil_r by auto. }
  assert (∀ cols rws, let '(rt', r) := no_actions (queue_resize cols rws) rt in
    following log (protocol rt') ∧
    log (latest_remote_state (protocol rt')) = log (latest_remote_state (protocol rt)) ++ shown r) as Hresize.
  { intros cols rws. unfold no_actions, bindM. rewrite queue_resize_eq.
    destruct (refusal rt); [cbn; by rewrite app_nil_r|].
    destruct (set_initial_remote_viewport cols rws (protocol rt)) as [p'|e|] eqn:Hp; cbn; rewrite ?app_nil_r; [|done..].
    destruct (resize_following log cols rws _ p' Hlog0 Hf Hp) as [? ->]. done. }
  destruct c as [[input|cols rws]|input|cols rws|k pl|caps| | |now| |now|now|packet now|packet now|now];
    try (by apply Hother; [by apply other_call_effectless|by apply other_call_receiver]).
  - specialize (Hresize cols rws). cbn [call]. unfold no_actions, bindM in *.
    rewrite queue_terminal_event_eq. destruct (refusal rt); [cbn; by rewrite app_nil_r|]. exact Hresize.
  - apply Hresize.
  - by apply Hrec.
  - specialize (Hrec packet now eq_refl). cbn [call]. unfold receive_datagram_lossy.
    by destruct (receive_datagram packet now rt) as [rt' [acts|e|]].
Qed.

Lemma calls_following key log l rt :
  append_only log → log 0 = [] → wf_runtime key rt → following log (protocol rt) →
  calls_fit l rt → all_faithful log l rt →
  let '(rs, rt') := calls l rt in
  wf_runtime key rt' ∧ following log (protocol rt') ∧
  log (latest_remote_state (protocol rt')) =
    log (latest_remote_state (protocol rt)) ++ mjoin (shown <$> rs).
Proof.
  intros Hgrow Hlog0. revert rt. induction l as [|c l IH]; intros rt Hw Hf Hfit Hall; cbn [calls].
  { by rewrite app_nil_r. }
  destruct Hfit as [Hfit Hfits]. destruct Hall as [Hc Hall].
  pose proof (call_wf key c rt Hw (proj1 Hfit)) as [Hw' _].
  pose proof (call_following key log c rt Hgrow Hlog0 Hw Hf Hc) as Hs.
  destruct (call c rt) as [rt1 r]. cbn [fst snd] in *. destruct Hs as [Hf1 Hl1].
  specialize (IH rt1 Hw' Hf1 Hfits Hall). destruct (calls l rt1) as [rs rt2].
  destruct IH as (Hw2 & Hf2 & Hl2). split_and!; [done..|].
  rewrite Hl2, Hl1, fmap_cons. simpl. by rewrite app_assoc.
Qed.
End downlink.

(** A run from the start. *)
Lemma session_following `{Vt100Laws} `{Vte} `{Aead} `{ProstLaws} `{ZlibLaws} key now rt0 log l :
  runtime_new key now = Ok rt0 → log 0 = [] → append_only log →
  calls_fit l rt0 → all_faithful log l rt0 →
  let '(rs, rt) := calls l rt0 in
  wf_runtime key rt ∧ following log (protocol rt) ∧
  log (latest_remote_state (protocol rt)) = mjoin (shown <$> rs).
Proof.
  intros Hn Hlog0 Hgrow Hfit Hall. pose proof (runtime_new_wf key now rt0 Hn) as Hw.
  assert (following log (protocol rt0) ∧ latest_remote_state (protocol rt0) = 0) as [Hf Hl].
  { unfold runtime_new in Hn. apply bind_ok_Ok in Hn as (p & Hp & [= <-]).
    by apply (protocol_new_following key). }
  pose proof (calls_following key log l rt0 Hgrow Hlog0 Hw Hf Hfit Hall) as Hr.
  destruct (calls l rt0) as [rs rt]. by rewrite Hl, Hlog0 in Hr.
Qed.

(** ** Properties *)

(** C4: What the server wrote is shown, once and in order. Take any session: any calls of
    the host, with any datagrams received, lost, repeated, reordered or forged. Let every
    update that arrives be one of a server whose states only grow, with room for it in the
    history of its base. Then all that the session ever showed on the screen (bytes,
    resizes, controls) is exactly what the server had written in the newest state the
    client took; the client's copy of the terminal is an emulator fed with just that; every
    state it holds is the server's state of that number. And a newer update on a base that
    is held is shown at once and in full. *)
Theorem server_output_shown_once `{Vt100Laws} `{Vte} `{Aead} `{ProstLaws} `{ZlibLaws}
    key now (rt0 : SessionRuntime) log l :
  runtime_new key now = Ok rt0 → log 0 = [] → append_only log →
  calls_fit l rt0 → all_faithful log l rt0 →
  let '(rs, rt) := calls l rt0 in
  let p := protocol rt in
  let output := mjoin (shown <$> rs) in
  output = log (latest_remote_state p) ∧
  parser (delivered_remote_state p) = foldl replay_event
    (vt_new (rows (first_viewport p)) (columns (first_viewport p)) 0) output ∧
  (∀ k s, received_states p !! k = Some s → history_events s = log k) ∧
  (∀ packet later u, lifecycle rt = Running → arriving packet p = Some u →
     faithful log p u → current p u →
     let '(rt', r) := receive_datagram packet later rt in
     is_ok r = true ∧ output ++ shown r = log (target_state u)).
Proof.
  intros Hn Hlog0 Hgrow Hfit Hall.
  pose proof (session_following key now rt0 log l Hn Hlog0 Hgrow Hfit Hall) as Hr.
  destruct (calls l rt0) as [rs rt]. destruct Hr as (Hw' & Hf' & Hout).
  cbv zeta. rewrite <- Hout.
  pose proof (fw_delivered _ _ Hf') as Hd. split_and!; [done| | |].
  - destruct (reached_spec _ (hd_reached _ _ _ _ Hd)) as [_ Hc].
    unfold coherent in Hc. rewrite Hc, replay_events, <- (hd_log _ _ _ _ Hd). done.
  - intros k s Hk. by destruct (fw_received _ _ Hf' k s Hk) as [_ []].
  - intros packet later u Hrun Hu Hfu Hcu.
    pose proof (receive_following log packet later rt Hgrow Hf' (wf_reach_protocol key rt Hw')) as Hr.
    destruct (receive_datagram packet later rt) as [rt' r]. destruct Hr as (_ & Hshow & Hprog).
    { intros _ u' Hu'. congruence. }
    destruct (Hprog u Hrun Hu Hcu) as [? Hlast]. split; [done|]. by rewrite <- Hshow, Hlast.
Qed.
