(* ===== verification/Utf8.v ===== *)
(** * UTF-8

    What the program uses of [char], [str::from_utf8] and [char::encode_utf8] of the
    Rust standard library.  A [char] is its scalar value. *)
From S2P Require Import Prelude.
Local Open Scope Z_scope.

(** Unicode scalar values. *)
Definition is_char (c : Z) : Prop := 0 ≤ c < 0xD800 ∨ 0xE000 ≤ c ≤ 0x10FFFF.

#[global] Instance is_char_dec c : Decision (is_char c).
Proof. unfold is_char. apply _. Defined.

(** [c.is_ascii()] and [c.is_control()] (general category Cc). *)
Definition is_ascii (c : Z) : bool := c <? 0x80.
Definition is_control (c : Z) : bool := (c <=? 0x1F) || ((0x7F <=? c) && (c <=? 0x9F)).
Definition is_ascii_graphic (c : Z) : bool := (0x21 <=? c) && (c <=? 0x7E).

(** [c.encode_utf8(..)]. *)
Definition encode_utf8 (c : Z) : bytes :=
  if c <? 0x80 then [c]
  else if c <? 0x800 then [0xC0 + c / 64; 0x80 + c mod 64]
  else if c <? 0x10000 then [0xE0 + c / 4096; 0x80 + c / 64 mod 64; 0x80 + c mod 64]
  else [0xF0 + c / 262144; 0x80 + c / 4096 mod 64; 0x80 + c / 64 mod 64; 0x80 + c mod 64].

Definition in_range (lo hi b : Z) : bool := (lo <=? b) && (b <=? hi).
Definition is_continuation (b : Z) : bool := in_range 0x80 0xBF b.

(** The first character of well-formed UTF-8, by the table of well-formed byte
    sequences of the Unicode standard. *)
Definition next_char (l : bytes) : option (Z * bytes) :=
  match l with
  | b0 :: l =>
      if in_range 0 0x7F b0 then Some (b0, l)
      else
        match l with
        | b1 :: l =>
            if in_range 0xC2 0xDF b0 then
              if is_continuation b1 then Some ((b0 - 0xC0) * 64 + (b1 - 0x80), l) else None
            else
              match l with
              | b2 :: l =>
                  if in_range 0xE0 0xEF b0 then
                    if in_range (if b0 =? 0xE0 then 0xA0 else 0x80) (if b0 =? 0xED then 0x9F else 0xBF) b1
                       && is_continuation b2
                    then Some ((b0 - 0xE0) * 4096 + (b1 - 0x80) * 64 + (b2 - 0x80), l) else None
                  else
                    match l with
                    | b3 :: l =>
                        if in_range 0xF0 0xF4 b0
                           && in_range (if b0 =? 0xF0 then 0x90 else 0x80)
                                (if b0 =? 0xF4 then 0x8F else 0xBF) b1
                           && is_continuation b2 && is_continuation b3
                        then Some ((b0 - 0xF0) * 262144 + (b1 - 0x80) * 4096
                                   + (b2 - 0x80) * 64 + (b3 - 0x80), l)
                        else None
                    | [] => None
                    end
              | [] => None
              end
        | [] => None
        end
  | [] => None
  end.

(** [str::from_utf8(l)?.chars()]: every byte of [l] is part of a character.  A
    character takes at least one byte, so that the length is enough fuel. *)
Fixpoint chars_loop (fuel : nat) (l : bytes) : option (list Z) :=
  match l with
  | [] => Some []
  | _ =>
      match fuel with
      | O => None
      | S fuel =>
          match next_char l with
          | Some (c, l) => match chars_loop fuel l with Some cs => Some (c :: cs) | None => None end
          | None => None
          end
      end
  end.

Definition utf8_chars (l : bytes) : option (list Z) := chars_loop (length l) l.

(** *** The two directions *)
Lemma in_range_true lo hi b : in_range lo hi b = true ↔ lo ≤ b ≤ hi.
Proof. unfold in_range. rewrite andb_true_iff, !Z.leb_le. done. Qed.

Lemma in_range_false lo hi b : in_range lo hi b = false ↔ b < lo ∨ hi < b.
Proof. unfold in_range. rewrite andb_false_iff, !Z.leb_gt. done. Qed.

Ltac range_cases :=
  repeat match goal with
  | H : context [in_range ?lo ?hi ?b] |- _ => destruct (in_range lo hi b) eqn:?
  | |- context [in_range ?lo ?hi ?b] => destruct (in_range lo hi b) eqn:?
  | H : in_range _ _ _ = true |- _ => rewrite in_range_true in H
  | H : in_range _ _ _ = false |- _ => rewrite in_range_false in H
  | H : context [if ?x =? ?y then _ else _] |- _ => destruct (Z.eqb_spec x y)
  | |- context [if ?x =? ?y then _ else _] => destruct (Z.eqb_spec x y)
  end; simpl in *.

Lemma next_char_encode c l : is_char c → next_char (encode_utf8 c ++ l) = Some (c, l).
Proof.
  unfold is_char, encode_utf8. intros Hc.
  destruct (Z.ltb_spec c 0x80); [|destruct (Z.ltb_spec c 0x800); [|destruct (Z.ltb_spec c 0x10000)]];
    unfold next_char, is_continuation; cbn [app].
  - by rewrite (proj2 (in_range_true _ _ _)) by lia.
  - rewrite (proj2 (in_range_false 0 0x7F _)) by (Z.to_euclidean_division_equations; lia).
    rewrite !(proj2 (in_range_true _ _ _)) by (Z.to_euclidean_division_equations; lia).
    do 2 f_equal. Z.to_euclidean_division_equations; lia.
  - rewrite (proj2 (in_range_false 0 0x7F _)), (proj2 (in_range_false 0xC2 0xDF _))
      by (Z.to_euclidean_division_equations; lia).
    rewrite (proj2 (in_range_true 0xE0 _ _)), (proj2 (in_range_true 0x80 0xBF _))
      by (Z.to_euclidean_division_equations; lia).
    rewrite (proj2 (in_range_true _ _ _)). 
    + cbn [andb]. do 2 f_equal. Z.to_euclidean_division_equations; lia.
    + destruct (Z.eqb_spec (0xE0 + c / 4096) 0xE0), (Z.eqb_spec (0xE0 + c / 4096) 0xED);
        Z.to_euclidean_division_equations; lia.
  - rewrite (proj2 (in_range_false 0 0x7F _)), (proj2 (in_range_false 0xC2 0xDF _)),
      (proj2 (in_range_false 0xE0 0xEF _)) by (Z.to_euclidean_division_equations; lia).
    rewrite (proj2 (in_range_true 0xF0 _ _)), (proj2 (in_range_true 0x80 0xBF (0x80 + c / 64 mod 64))),
      (proj2 (in_range_true 0x80 0xBF (0x80 + c mod 64))) by (Z.to_euclidean_division_equations; lia).
    rewrite (proj2 (in_range_true _ _ _)).
    + cbn [andb]. do 2 f_equal. Z.to_euclidean_division_equations; lia.
    + destruct (Z.eqb_spec (0xF0 + c / 262144) 0xF0), (Z.eqb_spec (0xF0 + c / 262144) 0xF4);
        Z.to_euclidean_division_equations; lia.
Qed.

Lemma next_char_Some l c l' :
  next_char l = Some (c, l') → is_char c ∧ l = encode_utf8 c ++ l'.
Proof.
  unfold next_char, is_continuation. intros Hn.
  assert (∀ b0 b1 : Z, 0 ≤ b1 < 64 → (b0 * 64 + b1) / 64 = b0 ∧ (b0 * 64 + b1) mod 64 = b1) as D64
    by (intros; Z.to_euclidean_division_equations; lia).
  destruct l as [|b0 l]; [done|].
  destruct (in_range 0 0x7F b0) eqn:E0.
  { injection Hn as <- <-. rewrite in_range_true in E0. unfold is_char, encode_utf8.
    rewrite (proj2 (Z.ltb_lt _ _)) by lia. split; [lia|done]. }
  destruct l as [|b1 l]; [done|]. rewrite in_range_false in E0.
  destruct (in_range 0xC2 0xDF b0) eqn:E1.
  { destruct (in_range 0x80 0xBF b1) eqn:E2; [|done]. injection Hn as <- <-.
    rewrite in_range_true in E1, E2. split; [unfold is_char; lia|]. unfold encode_utf8.
    rewrite (proj2 (Z.ltb_ge _ _)), (proj2 (Z.ltb_lt _ _)) by lia.
    destruct (D64 (b0 - 0xC0) (b1 - 0x80)) as [-> ->]; [lia|]. cbn [app]. repeat f_equal; lia. }
  destruct l as [|b2 l]; [done|]. rewrite in_range_false in E1.
  destruct (in_range 0xE0 0xEF b0) eqn:E2.
  { destruct (_ && _) eqn:E3; [|done]. injection Hn as <- <-. apply andb_prop in E3 as [E3 E4].
    rewrite in_range_true in E2, E3, E4.
    destruct (Z.eqb_spec b0 0xE0), (Z.eqb_spec b0 0xED); try lia;
      (split; [unfold is_char; lia|]); unfold encode_utf8;
      rewrite !(proj2 (Z.ltb_ge _ _)), (proj2 (Z.ltb_lt _ _)) by lia; cbn [app];
      repeat f_equal; Z.to_euclidean_division_equations; lia. }
  destruct l as [|b3 l]; [done|]. destruct (_ && _) eqn:E3; [|done]. injection Hn as <- <-.
  apply andb_prop in E3 as [E3 E4]. apply andb_prop in E3 as [E3 E5]. apply andb_prop in E3 as [E3 E6].
  rewrite in_range_true in E3, E4, E5, E6.
  destruct (Z.eqb_spec b0 0xF0), (Z.eqb_spec b0 0xF4); try lia;
    (split; [unfold is_char; lia|]); unfold encode_utf8;
    rewrite !(proj2 (Z.ltb_ge _ _)) by lia; cbn [app];
    repeat f_equal; Z.to_euclidean_division_equations; lia.
Qed.

Lemma encode_utf8_length c : (1 ≤ length (encode_utf8 c) ≤ 4)%nat.
Proof. unfold encode_utf8. repeat (destruct (_ <? _); [simpl; lia|]). simpl. lia. Qed.

Lemma chars_loop_encode fuel cs :
  Forall is_char cs → (length cs ≤ fuel)%nat → chars_loop fuel (mjoin (encode_utf8 <$> cs)) = Some cs.
Proof.
  intros Hcs. revert fuel. induction Hcs as [|c cs Hc Hcs IH]; intros fuel Hf; [by destruct fuel|].
  simpl in Hf. rewrite fmap_cons, mjoin_cons.
  pose proof (encode_utf8_length c) as Hlen. pose proof (next_char_encode c (mjoin (encode_utf8 <$> cs)) Hc) as Hn.
  destruct fuel as [|fuel]; [lia|]. cbn [chars_loop]. rewrite Hn, (IH fuel) by lia.
  by destruct (encode_utf8 c); [simpl in Hlen; lia|].
Qed.

Lemma chars_loop_Some fuel l cs :
  chars_loop fuel l = Some cs → Forall is_char cs ∧ l = mjoin (encode_utf8 <$> cs).
Proof.
  revert l cs. induction fuel as [|fuel IH]; intros [|b l] cs; cbn [chars_loop]; try done;
    try (by intros [= <-]).
  destruct (next_char (b :: l)) as [[c l']|] eqn:Hn; [|done].
  destruct (chars_loop fuel l') as [cs'|] eqn:Hc; [|done]. intros [= <-].
  apply next_char_Some in Hn as [Hcc ->]. apply IH in Hc as [Hcs ->]. split; [by constructor|done].
Qed.

(** [from_utf8] decodes exactly the encodings of characters. *)
Lemma utf8_chars_spec l cs :
  utf8_chars l = Some cs ↔ Forall is_char cs ∧ l = mjoin (encode_utf8 <$> cs).
Proof.
  split; [apply chars_loop_Some|]. intros [Hcs ->]. apply chars_loop_encode; [done|].
  clear. induction cs as [|c cs IH]; [done|]. rewrite fmap_cons, mjoin_cons, length_app. pose proof (encode_utf8_length c). simpl. lia.
Qed.
