(* ===== verification/Predict.v ===== *)
(** * Prediction overlays

    The model of [crates/ferrumtty-predict/src/lib.rs]: the tentative single-line
    edits that are drawn before the server confirms them.  The methods on
    [&mut self] take the overlay and return the new one with their result. *)
From S2P Require Import Prelude Utf8.
Local Open Scope Z_scope.

(** An escape sequence, [b"\x1b.."]. *)
Definition esc (s : string) : bytes := 27 :: lit s.

Definition UNDERLINE_RENDITION : bytes := esc "[4m".
Definition NO_UNDERLINE_RENDITION : bytes := esc "[24m".
Definition INSERT_CHARACTER : bytes := esc "[@".
Definition DELETE_CHARACTER : bytes := esc "[P".
Definition CURSOR_LEFT : bytes := esc "[D".
Definition CURSOR_RIGHT : bytes := esc "[C".
Definition ADAPTIVE_DISPLAY_MILLISECONDS : Z := 20.
Definition MAXIMUM_PENDING_PREDICTIONS : Z := 1024.

Inductive PredictionDisplay := Adaptive | Always | Never.
Inductive InputKind := Key | Paste | Mouse | Focus.

Inductive PredictionAction :=
| PrintableAscii (byte : Z)
| PrintableUtf8 (character : Z)
| Backspace
| Left
| Right
| Barrier.

#[export] Instance PredictionDisplay_eq_dec : EqDecision PredictionDisplay.
Proof. solve_decision. Defined.
#[export] Instance InputKind_eq_dec : EqDecision InputKind.
Proof. solve_decision. Defined.
#[export] Instance PredictionAction_eq_dec : EqDecision PredictionAction.
Proof. solve_decision. Defined.

Definition PredictionAction_fmt (self : PredictionAction) : bytes :=
  match self with
  | PrintableAscii _ => lit "PrintableAscii([REDACTED])"
  | PrintableUtf8 _ => lit "PrintableUtf8([REDACTED])"
  | Backspace => lit "Backspace"
  | Left => lit "Left"
  | Right => lit "Right"
  | Barrier => lit "Barrier"
  end.

Definition single_printable_action (input : bytes) : option PredictionAction :=
  match utf8_chars input with
  | Some (character :: rest) =>
      if negb (bool_decide (rest = [])) || is_control character then None
      else if is_ascii character then Some (PrintableAscii character)
      else Some (PrintableUtf8 character)
  | _ => None
  end.

Record PredictionMetrics := mkPredictionMetrics {
  offered : Z;
  displayed : Z;
  latest_acknowledgement : option Z;
  reconciled : Z;
}.

Record PredictionEntry := mkPredictionEntry { entry_frame_id : Z; entry_action : PredictionAction }.
Record PredictedCell := mkPredictedCell { cell_frame_id : Z; acknowledged : bool }.

Record PredictionContext := mkPredictionContext {
  row : Z;
  column : Z;
  columns : Z;
  attributes : bytes;
  cursor_state : bytes;
}.

Inductive LineConfidence := Tentative | LineAcknowledged.

Record PredictionLineStatus := mkPredictionLineStatus {
  status_row : Z;
  confidence : LineConfidence;
}.

Inductive PredictionReconciliation :=
| NoReconciliation
| Local (restoration : bytes)
| Redraw.

Record PredictionOverlay := mkPredictionOverlay {
  display : PredictionDisplay;
  overwrite : bool;
  round_trip_milliseconds : option Z;
  pending : list PredictionEntry;
  predicted_ascii : list PredictedCell;
  cursor_offset : Z;
  highest_frame_id : option Z;
  displayed_cells : Z;
  rollback_cells : Z;
  overlay_active : bool;
  reconciliation_required : bool;
  line_context : option PredictionContext;
  metrics : PredictionMetrics;
}.

#[export] Instance eta_PredictionMetrics : Eta PredictionMetrics := λ m,
  mkPredictionMetrics (offered m) (displayed m) (latest_acknowledgement m) (reconciled m).
#[export] Instance upd_offered : Update offered := ltac:(solve_update).
#[export] Instance upd_displayed : Update displayed := ltac:(solve_update).
#[export] Instance upd_latest_acknowledgement : Update latest_acknowledgement := ltac:(solve_update).
#[export] Instance upd_reconciled : Update reconciled := ltac:(solve_update).
#[export] Instance eta_PredictedCell : Eta PredictedCell := λ c,
  mkPredictedCell (cell_frame_id c) (acknowledged c).
#[export] Instance upd_acknowledged : Update acknowledged := ltac:(solve_update).
#[export] Instance eta_PredictionOverlay : Eta PredictionOverlay := λ o,
  mkPredictionOverlay (display o) (overwrite o) (round_trip_milliseconds o) (pending o)
    (predicted_ascii o) (cursor_offset o) (highest_frame_id o) (displayed_cells o)
    (rollback_cells o) (overlay_active o) (reconciliation_required o) (line_context o) (metrics o).
#[export] Instance upd_round_trip : Update round_trip_milliseconds := ltac:(solve_update).
#[export] Instance upd_pending : Update pending := ltac:(solve_update).
#[export] Instance upd_predicted_ascii : Update predicted_ascii := ltac:(solve_update).
#[export] Instance upd_cursor_offset : Update cursor_offset := ltac:(solve_update).
#[export] Instance upd_highest_frame_id : Update highest_frame_id := ltac:(solve_update).
#[export] Instance upd_displayed_cells : Update displayed_cells := ltac:(solve_update).
#[export] Instance upd_rollback_cells : Update rollback_cells := ltac:(solve_update).
#[export] Instance upd_overlay_active : Update overlay_active := ltac:(solve_update).
#[export] Instance upd_reconciliation_required : Update reconciliation_required := ltac:(solve_update).
#[export] Instance upd_line_context : Update line_context := ltac:(solve_update).
#[export] Instance upd_metrics : Update metrics := ltac:(solve_update).

Definition overlay_new (display : PredictionDisplay) (overwrite : bool) : PredictionOverlay := {|
  display := display;
  overwrite := overwrite;
  round_trip_milliseconds := None;
  pending := [];
  predicted_ascii := [];
  cursor_offset := 0;
  highest_frame_id := None;
  displayed_cells := 0;
  rollback_cells := 0;
  overlay_active := false;
  reconciliation_required := false;
  line_context := None;
  metrics := {| offered := 0; displayed := 0; latest_acknowledgement := None; reconciled := 0 |};
|}.

Definition overlay_default : PredictionOverlay := overlay_new Adaptive false.

Definition set_round_trip_milliseconds (milliseconds : option Z) (self : PredictionOverlay)
    : PredictionOverlay :=
  self <| round_trip_milliseconds := milliseconds |>.

Definition invalidate_span (self : PredictionOverlay) : PredictionOverlay :=
  (((self <| pending := [] |>)
         <| predicted_ascii := [] |>)
         <| cursor_offset := 0 |>)
         <| reconciliation_required ::= λ required, required || overlay_active self |>.

(** The anchor of the span: the context it started with. *)
Definition anchored (context : PredictionContext) (self : PredictionOverlay) : PredictionContext :=
  default context (line_context self).

(** The span left the anchor's line or reached the right margin. *)
Definition off_anchor (context : PredictionContext) (self : PredictionOverlay) : bool :=
  let anchor := anchored context self in
  negb (row anchor =? row context) || negb (column anchor =? column context)
  || negb (columns anchor =? columns context)
  || (saturating_sub (columns anchor) 1 <=? saturating_add 64 (column anchor) (cursor_offset self)).

Definition predict_printable (frame_id : Z) (text : bytes) (context : option PredictionContext)
    (self : PredictionOverlay) : PredictionOverlay * option bytes :=
  if negb (cursor_offset self =? len (predicted_ascii self)) then (self, None)
  else
    let self' := match context with
                 | Some context => self <| line_context := Some (anchored context self) |>
                 | None => self
                 end in
    if is_some_and (λ context, off_anchor context self) context then (invalidate_span self', None)
    else
      let self' := self' <| predicted_ascii ::= λ l, l ++ [mkPredictedCell frame_id false] |> in
      let self' := self' <| cursor_offset ::= λ n, saturating_add 64 n 1 |> in
      let self' := self' <| displayed_cells ::= λ n, saturating_add 64 n 1 |> in
      let self' := self' <| rollback_cells ::= λ n, saturating_add 64 n 1 |> in
      let self' := self' <| overlay_active := true |> in
      (self', Some ((if overwrite self then [] else INSERT_CHARACTER)
                    ++ UNDERLINE_RENDITION ++ text
                    ++ match context with
                       | Some context => attributes context
                       | None => NO_UNDERLINE_RENDITION
                       end)).

Definition predict_backspace (self : PredictionOverlay) : PredictionOverlay * option bytes :=
  if (cursor_offset self =? 0) || negb (cursor_offset self =? len (predicted_ascii self))
  then (self, None)
  else if is_some_and (λ cell, is_some_and (λ acknowledgement, cell_frame_id cell <=? acknowledgement)
                                 (latest_acknowledgement (metrics self))) (last (predicted_ascii self))
  then (self, None)
  else if overwrite self then (invalidate_span self, None)
  else
    let self := self <| predicted_ascii ::= @removelast PredictedCell |> in
    let self := self <| cursor_offset ::= λ n, n - 1 |> in
    let self := self <| displayed_cells ::= λ n, saturating_sub n 1 |> in
    let self := self <| rollback_cells ::= λ n, saturating_sub n 1 |> in
    let self := self <| overlay_active := true |> in
    (self, Some (CURSOR_LEFT ++ DELETE_CHARACTER)).

Definition predict_left (self : PredictionOverlay) : PredictionOverlay * option bytes :=
  if cursor_offset self =? 0 then (self, None)
  else
    let self := self <| cursor_offset ::= λ n, n - 1 |> in
    let self := self <| overlay_active := true |> in
    (self, Some CURSOR_LEFT).

Definition predict_right (self : PredictionOverlay) : PredictionOverlay * option bytes :=
  if len (predicted_ascii self) <=? cursor_offset self then (self, None)
  else
    let self := self <| cursor_offset ::= λ n, n + 1 |> in
    let self := self <| overlay_active := true |> in
    (self, Some CURSOR_RIGHT).

Definition display_enabled (self : PredictionOverlay) : bool :=
  match display self with
  | Adaptive => is_some_and (λ milliseconds, ADAPTIVE_DISPLAY_MILLISECONDS <=? milliseconds)
                  (round_trip_milliseconds self)
  | Always => true
  | Never => false
  end.

(** The edit of an action that is neither refused nor a barrier. *)
Definition predict (frame_id : Z) (action : PredictionAction) (context : option PredictionContext)
    (self : PredictionOverlay) : PredictionOverlay * option bytes :=
  match action with
  | PrintableAscii byte =>
      if is_ascii_graphic byte || (byte =? 32) then predict_printable frame_id [byte] context self
      else (invalidate_span self, None)
  | PrintableUtf8 character =>
      if negb (is_control character)
      then predict_printable frame_id (encode_utf8 character) context self
      else (invalidate_span self, None)
  | Backspace => predict_backspace self
  | Left => predict_left self
  | Right => predict_right self
  | Barrier => (self, None)
  end.

Definition offer_for_frame_with_context (frame_id : Z) (action : PredictionAction)
    (context : option PredictionContext) (self : PredictionOverlay)
    : PredictionOverlay * option bytes :=
  let self := self <| metrics ::= λ m, m <| offered ::= λ n, saturating_add 64 n 1 |> |> in
  if is_some_and (λ highest, frame_id <? highest) (highest_frame_id self) then (self, None)
  else
    let self := self <| highest_frame_id := Some frame_id |> in
    if bool_decide (action = Barrier) then (invalidate_span self, None)
    else if negb (display_enabled self) then (self, None)
    else if reconciliation_required self then (self, None)
    else if (MAXIMUM_PENDING_PREDICTIONS <=? len (pending self))
            || (MAXIMUM_PENDING_PREDICTIONS <=? len (predicted_ascii self))
    then (invalidate_span self, None)
    else
      let '(self, output) := predict frame_id action context self in
      if is_some output then
        ((self <| pending ::= λ l, l ++ [mkPredictionEntry frame_id action] |>)
              <| metrics ::= λ m, m <| displayed ::= λ n, saturating_add 64 n 1 |> |>, output)
      else (self, output).

Definition offer_for_frame (frame_id : Z) (action : PredictionAction) (self : PredictionOverlay)
    : PredictionOverlay * option bytes :=
  offer_for_frame_with_context frame_id action None self.

Definition offer (kind : InputKind) (input : bytes) (self : PredictionOverlay)
    : PredictionOverlay * option bytes :=
  match match highest_frame_id self with
        | Some highest => checked_add 64 highest 1
        | None => Some 0
        end with
  | None => (self, None)
  | Some frame_id =>
      let action := if bool_decide (kind = Key)
                    then default Barrier (single_printable_action input) else Barrier in
      offer_for_frame frame_id action self
  end.

(** [format!("\x1b[{};{}H", ..)] and [format!("\x1b[{}P", ..)]. *)
Definition cursor_position (row column : Z) : bytes :=
  esc "[" ++ decimal row ++ lit ";" ++ decimal column ++ lit "H".
Definition delete_characters (count : Z) : bytes := esc "[" ++ decimal count ++ lit "P".

Definition local_reconciliation (self : PredictionOverlay) : option bytes :=
  match line_context self with
  | None => None
  | Some context =>
      Some ((if negb (rollback_cells self =? 0) then
               cursor_position (saturating_add 16 (row context) 1) (saturating_add 16 (column context) 1)
               ++ delete_characters (rollback_cells self)
             else []) ++ cursor_state context)
  end.

Definition take_reconciliation (self : PredictionOverlay)
    : PredictionOverlay * PredictionReconciliation :=
  if negb (overlay_active self) && negb (reconciliation_required self) then (self, NoReconciliation)
  else
    let local := if overwrite self then None else local_reconciliation self in
    let cells := displayed_cells self in
    let self := self <| displayed_cells := 0 |> in
    let self := self <| metrics ::= λ m, m <| reconciled ::= λ n, saturating_add 64 n cells |> |> in
    let self := self <| pending := [] |> in
    let self := self <| predicted_ascii := [] |> in
    let self := self <| cursor_offset := 0 |> in
    let self := self <| overlay_active := false |> in
    let self := self <| reconciliation_required := false |> in
    let self := self <| rollback_cells := 0 |> in
    let self := self <| line_context := None |> in
    (self, match local with Some restoration => Local restoration | None => Redraw end).

Definition reconcile (self : PredictionOverlay) : PredictionOverlay * bool :=
  let '(self, reconciliation) := take_reconciliation self in
  (self, match reconciliation with NoReconciliation => false | _ => true end).

(** [while front.frame_id <= acknowledgement { pop_front }]. *)
Fixpoint pop_acknowledged (acknowledgement : Z) (l : list PredictionEntry) : list PredictionEntry :=
  match l with
  | entry :: l' => if entry_frame_id entry <=? acknowledgement
                   then pop_acknowledged acknowledgement l' else l
  | [] => []
  end.

Definition acknowledge (acknowledgement : Z) (self : PredictionOverlay) : PredictionOverlay :=
  match highest_frame_id self with
  | None => self
  | Some highest_frame_id =>
      if (highest_frame_id <? acknowledgement)
         || is_some_and (λ current, acknowledgement <=? current) (latest_acknowledgement (metrics self))
      then self
      else
        let self := self <| metrics ::= λ m, m <| latest_acknowledgement := Some acknowledgement |> |> in
        let self := self <| pending ::= pop_acknowledged acknowledgement |> in
        self <| predicted_ascii ::= λ l, (λ cell, if cell_frame_id cell <=? acknowledgement
                                                  then cell <| acknowledged := true |> else cell) <$> l |>
  end.

Definition line_confidence (self : PredictionOverlay) : option LineConfidence :=
  if bool_decide (predicted_ascii self = []) then None
  else Some (if forallb acknowledged (predicted_ascii self) then LineAcknowledged else Tentative).

Definition line_status (self : PredictionOverlay) : option PredictionLineStatus :=
  match line_context self with
  | None => None
  | Some context =>
      match line_confidence self with
      | None => None
      | Some confidence => Some {| status_row := row context; confidence := confidence |}
      end
  end.

(** ** A line of a terminal

    What the control functions the overlay uses do to the cells of the line of the
    cursor and to the cursor on it (ECMA-48: ICH, DCH, CUB, CUF and SGR), for
    characters of one column.  [DeleteCells None] is DCH without a parameter. *)
Definition blank : bytes := [32].

Record line := mkLine { cells : list bytes; cursor : nat }.

Inductive line_op :=
| InsertBlank
| DeleteCells (count : option Z)
| CursorBack
| CursorForward
| Print (glyph : bytes)
| Render (rendition : bytes).

Definition op_bytes (op : line_op) : bytes :=
  match op with
  | InsertBlank => INSERT_CHARACTER
  | DeleteCells None => DELETE_CHARACTER
  | DeleteCells (Some count) => delete_characters count
  | CursorBack => CURSOR_LEFT
  | CursorForward => CURSOR_RIGHT
  | Print glyph => glyph
  | Render rendition => rendition
  end.

Definition delete_cells (n : nat) (ln : line) : line :=
  mkLine (take (cursor ln) (cells ln) ++ drop (cursor ln + n) (cells ln)
          ++ replicate (min n (length (cells ln) - cursor ln)) blank) (cursor ln).

Definition edit_line (ln : line) (op : line_op) : line :=
  match op with
  | InsertBlank =>
      mkLine (take (cursor ln) (cells ln) ++ [blank] ++ removelast (drop (cursor ln) (cells ln))) (cursor ln)
  | DeleteCells count => delete_cells (Z.to_nat (default 1 count)) ln
  | CursorBack => mkLine (cells ln) (cursor ln - 1)
  | CursorForward => mkLine (cells ln) (min (cursor ln + 1) (length (cells ln) - 1))
  | Print glyph => mkLine (<[cursor ln := glyph]> (cells ln)) (cursor ln + 1)
  | Render _ => ln
  end.

Definition run_edits (ops : list line_op) (ln : line) : line := foldl edit_line ln ops.

Definition ops_bytes (ops : list line_op) : bytes := mjoin (op_bytes <$> ops).

Lemma run_edits_app a b ln : run_edits (a ++ b) ln = run_edits b (run_edits a ln).
Proof. apply foldl_app. Qed.

Lemma edit_bytes_app a b : ops_bytes (a ++ b) = ops_bytes a ++ ops_bytes b.
Proof. unfold ops_bytes. by rewrite fmap_app, mjoin_app. Qed.

(** What a displayed edit means, and what removes [count] predicted cells. *)
Definition edit_ops (attrs : bytes) (action : PredictionAction) : list line_op :=
  match action with
  | PrintableAscii byte => [InsertBlank; Render UNDERLINE_RENDITION; Print [byte]; Render attrs]
  | PrintableUtf8 character =>
      [InsertBlank; Render UNDERLINE_RENDITION; Print (encode_utf8 character); Render attrs]
  | Backspace => [CursorBack; DeleteCells None]
  | Left => [CursorBack]
  | Right => [CursorForward]
  | Barrier => []
  end.

(** *** A screen

    The lines of a terminal and its cursor. A control function that edits works on the
    line of the cursor; CUP moves the cursor to a row and a column counted from 1, within
    the screen. *)
Record grid := mkGrid { lines : list (list bytes); cursor_row : nat; cursor_column : nat }.

Inductive grid_op :=
| Edit (op : line_op)
| CursorTo (row column : Z).

Definition grid_op_bytes (op : grid_op) : bytes :=
  match op with
  | Edit op => op_bytes op
  | CursorTo row column => cursor_position row column
  end.

(** A parameter of CUP, for a cursor that has [n] places to go. *)
Definition place (parameter : Z) (n : nat) : nat := min (Z.to_nat (parameter - 1)) (n - 1).

Definition line_at (g : grid) (i : nat) : list bytes := default [] (lines g !! i).

Definition run_op (g : grid) (op : grid_op) : grid :=
  match op with
  | Edit op =>
      let ln := edit_line (mkLine (line_at g (cursor_row g)) (cursor_column g)) op in
      mkGrid (<[cursor_row g := cells ln]> (lines g)) (cursor_row g) (cursor ln)
  | CursorTo row column =>
      let i := place row (length (lines g)) in
      mkGrid (lines g) i (place column (length (line_at g i)))
  end.

Definition run_ops (ops : list grid_op) (g : grid) : grid := foldl run_op g ops.

Definition grid_bytes (ops : list grid_op) : bytes := mjoin (grid_op_bytes <$> ops).

(** What takes away [count] predicted cells from the row [r] and the column [c], counted
    from 0. *)
Definition restore_ops (r c count : Z) : list grid_op :=
  if count =? 0 then [] else [CursorTo (r + 1) (c + 1); Edit (DeleteCells (Some count))].

(** The grid [rows] with the line [ln] in the place of its row [r], where the cursor is. *)
Definition on_grid (rows : list (list bytes)) (r : nat) (ln : line) : grid :=
  mkGrid (<[r := cells ln]> rows) r (cursor ln).

Lemma line_on_grid rows r ln : (r < length rows)%nat → line_at (on_grid rows r ln) r = cells ln.
Proof. intros Hr. unfold line_at, on_grid. cbn. by rewrite list_lookup_insert_eq. Qed.

Lemma edits_on_grid rows r ops ln :
  (r < length rows)%nat → run_ops (Edit <$> ops) (on_grid rows r ln) = on_grid rows r (run_edits ops ln).
Proof.
  intros Hr. revert ln. induction ops as [|op ops IH]; intros ln; [done|].
  rewrite fmap_cons. change (run_ops (Edit op :: (Edit <$> ops)) ?g) with (run_ops (Edit <$> ops) (run_op g (Edit op))).
  cbn [run_op]. rewrite line_on_grid by done. unfold on_grid at 1 2 3 4. cbn [lines cursor_row cursor_column].
  rewrite list_insert_insert_eq. destruct ln as [cs cur]. apply IH.
Qed.

(** *** The overlay on a line *)

(** [P] drawn at column [c0] of the line [cells0]. *)
Definition drawn (c0 : nat) (cells0 P : list bytes) : list bytes :=
  take c0 cells0 ++ P ++ take (length cells0 - c0 - length P) (drop c0 cells0).

Definition blank_tail (k : nat) (cells0 : list bytes) : Prop :=
  ∀ i x, cells0 !! i = Some x → (length cells0 ≤ i + k)%nat → x = blank.

Section lines.
Context (c0 : nat) (cells0 : list bytes).
Hypothesis Hc0 : (c0 < length cells0)%nat.

Lemma drawn_nil : drawn c0 cells0 [] = cells0.
Proof.
  unfold drawn. cbn [length app]. rewrite (take_ge (drop c0 cells0)) by (rewrite length_drop; lia).
  apply take_drop.
Qed.

Lemma drawn_length P : (c0 + length P ≤ length cells0)%nat → length (drawn c0 cells0 P) = length cells0.
Proof. intros HP. unfold drawn. rewrite !length_app, !length_take, length_drop. lia. Qed.

Lemma removelast_take {A} n (l : list A) : (S n ≤ length l)%nat → removelast (take (S n) l) = take n l.
Proof.
  intros Hn. destruct (lookup_lt_is_Some_2 l n) as [x Hx]; [lia|].
  by rewrite (take_S_r l n x Hx), removelast_last.
Qed.

Lemma take_drawn P : take (c0 + length P) (drawn c0 cells0 P) = take c0 cells0 ++ P.
Proof.
  unfold drawn. rewrite app_assoc. apply take_app_length'. rewrite length_app, length_take. lia.
Qed.

Lemma drop_drawn P :
  drop (c0 + length P) (drawn c0 cells0 P) = take (length cells0 - c0 - length P) (drop c0 cells0).
Proof.
  unfold drawn. rewrite app_assoc. apply drop_app_length'. rewrite length_app, length_take. lia.
Qed.

(** Inserting and printing one character extends the drawn cells. *)
Lemma draw_print P glyph attrs :
  (S (c0 + length P) < length cells0)%nat →
  run_edits [InsertBlank; Render UNDERLINE_RENDITION; Print glyph; Render attrs]
    (mkLine (drawn c0 cells0 P) (c0 + length P))
  = mkLine (drawn c0 cells0 (P ++ [glyph])) (c0 + length (P ++ [glyph])).
Proof.
  intros HP. unfold run_edits. cbn [foldl edit_line cells cursor].
  rewrite take_drawn, drop_drawn.
  replace (length cells0 - c0 - length P)%nat with (S (length cells0 - c0 - length (P ++ [glyph])))
    by (rewrite length_app; simpl; lia).
  rewrite removelast_take by (rewrite length_drop, length_app; simpl; lia).
  f_equal; [|rewrite length_app; simpl; lia]. unfold drawn.
  rewrite insert_app_r_alt by (rewrite length_app, length_take; lia).
  replace (c0 + length P - length (take c0 cells0 ++ P))%nat with 0%nat
    by (rewrite length_app, length_take; lia).
  rewrite <- !app_assoc. done.
Qed.

(** Deleting cells at the start of what was drawn restores the line, the tail being
    blank where it was shifted out. *)
Lemma delete_drawn k P Q :
  blank_tail k cells0 → (length (P ++ Q) ≤ k)%nat → (c0 + length (P ++ Q) ≤ length cells0)%nat →
  delete_cells (length Q) (mkLine (drawn c0 cells0 (P ++ Q)) (c0 + length P))
  = mkLine (drawn c0 cells0 P) (c0 + length P).
Proof.
  intros Hb Hk HP. rewrite length_app in Hk, HP. unfold delete_cells. cbn [cells cursor].
  rewrite drawn_length by (rewrite length_app; lia). f_equal.
  assert (take (c0 + length P) (drawn c0 cells0 (P ++ Q)) = take c0 cells0 ++ P) as ->.
  { unfold drawn. rewrite <- (app_assoc P), app_assoc. apply take_app_length'.
    rewrite length_app, length_take. lia. }
  assert (drop (c0 + length P + length Q) (drawn c0 cells0 (P ++ Q))
    = take (length cells0 - c0 - length (P ++ Q)) (drop c0 cells0)) as ->.
  { rewrite <- drop_drawn. f_equal. rewrite length_app. lia. }
  unfold drawn. rewrite <- app_assoc. do 2 f_equal. rewrite length_app.
  replace (min (length Q) (length cells0 - (c0 + length P))) with (length Q) by lia.
  apply list_eq. intros i.
  destruct (decide (i < length cells0 - c0 - (length P + length Q))%nat) as [Hi|Hi].
  - rewrite lookup_app_l by (rewrite length_take, length_drop; lia).
    by rewrite !lookup_take_lt by lia.
  - rewrite lookup_app_r by (rewrite length_take, length_drop; lia).
    rewrite length_take, length_drop, Nat.min_l by lia.
    destruct (decide (i < length cells0 - c0 - length P)%nat) as [Hi'|Hi'].
    + rewrite lookup_replicate_2 by lia. rewrite lookup_take_lt, lookup_drop by lia.
      destruct (lookup_lt_is_Some_2 cells0 (c0 + i)) as [x Hx]; [lia|]. rewrite Hx. f_equal.
      symmetry. apply (Hb _ _ Hx). lia.
    + rewrite lookup_take_ge by lia. apply lookup_replicate_None. lia.
Qed.
End lines.

(** *** The overlay and the line it is drawn on *)
Section overlay_line.
Context (show : bytes → grid → grid) (r : Z) (c0 : nat) (cells0 : list bytes) (k : nat).
Hypothesis Hc0 : (c0 < length cells0)%nat.
Hypothesis Hwidth : len cells0 ≤ u16_max.
Hypothesis Hblank : blank_tail k cells0.

(** The context of an offer: the authoritative cursor, which no prediction moves, and bytes
    that put the cursor of a terminal there. *)
Definition on_line (context : PredictionContext) : Prop :=
  row context = r ∧ column context = Z.of_nat c0 ∧ columns context = len cells0 ∧
  ∀ g, show (cursor_state context) g = mkGrid (lines g) (Z.to_nat r) c0.

(** The line holds the predicted cells of the overlay, at most [j] of them. *)
Record tracks (j : nat) (o : PredictionOverlay) (ln : line) : Prop := {
  tr_overwrite : overwrite o = false;
  tr_cells : ∃ P, cells ln = drawn c0 cells0 P ∧ Z.of_nat (length P) = rollback_cells o ∧
    (length P ≤ j)%nat ∧ (c0 + length P < length cells0)%nat ∧
    (reconciliation_required o = false →
       len (predicted_ascii o) = rollback_cells o ∧ 0 ≤ cursor_offset o ≤ rollback_cells o ∧
       Z.of_nat (cursor ln) = Z.of_nat c0 + cursor_offset o);
  tr_idle : overlay_active o = false →
    rollback_cells o = 0 ∧ predicted_ascii o = [] ∧ reconciliation_required o = false ∧ cursor ln = c0;
  tr_anchor : ∀ a, line_context o = Some a → on_line a;
  tr_active : overlay_active o = true → is_Some (line_context o);
}.

Lemma tracks_mono j j' o ln : tracks j o ln → (j ≤ j')%nat → tracks j' o ln.
Proof.
  intros [] Hj. split; try done. destruct tr_cells0 as (P & ? & ? & ? & ?). exists P.
  split_and!; try done; [lia|tauto|tauto].
Qed.

Lemma tracks_new d : tracks 0 (overlay_new d false) (mkLine cells0 c0).
Proof.
  split; simpl; try done. exists []. rewrite drawn_nil.
  split_and!; [done|done|done|simpl; lia|]. intros _. split_and!; [done|done|done|lia].
  exact Hc0.
Qed.

Lemma tracks_invalidate j o ln : tracks j o ln → tracks j (invalidate_span o) ln.
Proof.
  intros [Hov (P & Hcells & Hlen & Hj & Hw & Hopen) Hidle Hanchor Hactive]. split; simpl; try done.
  - exists P. split_and!; try done. intros Hrec. apply orb_false_iff in Hrec as [Hrec Hact].
    destruct (Hidle Hact) as (Hr & Hp & _ & Hcur). rewrite Hr. split_and!; try done; [lia..|].
    rewrite Hcur. lia.
  - intros Hact. destruct (Hidle Hact) as (? & ? & Hrec & ?). by rewrite Hrec, Hact.
Qed.

Lemma tracks_anchor j o ln context :
  tracks j o ln → on_line context → tracks j (o <| line_context := Some (anchored context o) |>) ln.
Proof.
  intros [] Hon. split; simpl; try done. intros a [= <-]. unfold anchored.
  destruct (line_context o) as [a|]; [by apply tr_anchor0|done].
Qed.

Definition drawn_step (j : nat) (ops : list line_op) (ln : line)
    (res : PredictionOverlay * option bytes) : Prop :=
  match snd res with
  | Some b => b = ops_bytes ops ∧ tracks (S j) (fst res) (run_edits ops ln)
  | None => tracks (S j) (fst res) ln
  end.

Lemma drawn_step_none j ops ln o : tracks j o ln → drawn_step j ops ln (o, None).
Proof. intros Ht. unfold drawn_step. simpl. eapply tracks_mono; [exact Ht|lia]. Qed.

Lemma predict_printable_step j frame text context o ln :
  tracks j o ln → on_line context → reconciliation_required o = false →
  len (predicted_ascii o) < MAXIMUM_PENDING_PREDICTIONS →
  drawn_step j [InsertBlank; Render UNDERLINE_RENDITION; Print text; Render (attributes context)] ln
    (predict_printable frame text (Some context) o).
Proof.
  intros Ht Hon Hrec Hmax. unfold predict_printable.
  destruct (negb (cursor_offset o =? len (predicted_ascii o))) eqn:Hoff; [by apply drawn_step_none|].
  apply negb_false_iff, Z.eqb_eq in Hoff. cbn [is_some_and].
  destruct (off_anchor context o) eqn:Hanch.
  { by apply drawn_step_none, tracks_invalidate, tracks_anchor. }
  pose proof (tracks_anchor j o ln context Ht Hon) as Hta.
  destruct Ht as [Hov (P & Hcells & Hlen & Hj & Hw & Hopen) Hidle Hanchor Hactive].
  destruct (Hopen Hrec) as (Hpred & Hbound & Hcur).
  assert (on_line (anchored context o)) as (Har & Hac & Haw & _).
  { unfold anchored. destruct (line_context o) as [a|] eqn:Ha; [by apply Hanchor|done]. }
  unfold off_anchor in Hanch. cbv zeta in Hanch. apply orb_false_iff in Hanch as [_ Hmargin].
  rewrite Hac, Haw in Hmargin. apply Z.leb_gt in Hmargin. unfold saturating_sub, saturating_add in Hmargin.
  assert (Z.of_nat c0 + cursor_offset o < len cells0 - 1) as Hroom.
  { assert (u16_max = 65535 ∧ 2 ^ 64 = 18446744073709551616) as [E1 E2] by done.
    unfold MAXIMUM_PENDING_PREDICTIONS in Hmax. rewrite E2 in Hmargin. rewrite E1 in Hwidth.
    unfold len in *. lia. }
  unfold len in Hroom. unfold drawn_step. cbn [fst snd]. split.
  { rewrite Hov. unfold ops_bytes. cbn. by rewrite app_nil_r. }
  assert (mkLine (cells ln) (cursor ln) = mkLine (drawn c0 cells0 P) (c0 + length P)) as Hln
    by (f_equal; [done|lia]).
  destruct ln as [cs cur]. cbn [cells cursor] in Hln. rewrite Hln, draw_print by lia.
  destruct Hta. split; simpl; try done.
  exists (P ++ [text]). unfold saturating_add. rewrite Z.min_l
    by (change (2 ^ 64) with 18446744073709551616; unfold MAXIMUM_PENDING_PREDICTIONS in Hmax; lia).
  rewrite length_app. cbn [length].
  split_and!; [done|lia|lia|lia|]. intros _. rewrite len_app. cbn [len length].
  rewrite Z.min_l by (change (2 ^ 64) with 18446744073709551616; unfold MAXIMUM_PENDING_PREDICTIONS in Hmax; lia).
  change (len [mkPredictedCell frame false]) with 1. split_and!; lia.
Qed.

Lemma predict_backspace_step j attrs o ln :
  (j ≤ k)%nat → tracks j o ln → reconciliation_required o = false →
  drawn_step j (edit_ops attrs Backspace) ln (predict_backspace o).
Proof.
  intros Hjk Ht Hrec. unfold predict_backspace.
  destruct ((cursor_offset o =? 0) || _) eqn:Hoff; [by apply drawn_step_none|].
  destruct (is_some_and _ (last (predicted_ascii o))); [by apply drawn_step_none|].
  rewrite (tr_overwrite _ _ _ Ht). apply orb_false_iff in Hoff as [Hz Hoff].
  apply Z.eqb_neq in Hz. apply negb_false_iff, Z.eqb_eq in Hoff.
  destruct Ht as [Hov (P & Hcells & Hlen & Hj & Hw & Hopen) Hidle Hanchor Hactive].
  destruct (Hopen Hrec) as (Hpred & Hbound & Hcur).
  destruct P as [|x P _] using rev_ind; [simpl in Hlen; lia|].
  rewrite length_app in Hlen, Hj, Hw. simpl in Hlen, Hj, Hw.
  unfold drawn_step. cbn [fst snd]. split; [done|].
  assert (run_edits (edit_ops attrs Backspace) ln = mkLine (drawn c0 cells0 P) (c0 + length P)) as ->.
  { unfold run_edits. cbn [edit_ops foldl edit_line cells cursor]. rewrite Hcells.
    replace (cursor ln - 1)%nat with (c0 + length P)%nat by lia.
    change (Z.to_nat (default 1 None)) with (length [x]).
    apply (delete_drawn c0 cells0 Hc0 k); [done|rewrite length_app; simpl; lia..]. }
  split; simpl; try done.
  - exists P. unfold saturating_sub. rewrite Z.max_r by lia. split_and!; [done|lia..|].
    intros _. split_and!; try lia. unfold len in *.
    destruct (predicted_ascii o) as [|c l _] using rev_ind; [simpl in Hpred; lia|].
    rewrite removelast_last. rewrite length_app in Hpred. simpl in Hpred. lia.
  - intros _. apply Hactive. destruct (overlay_active o) eqn:Ha; [done|].
    destruct (Hidle eq_refl) as (Hz' & _). lia.
Qed.

Lemma tracks_active j o ln : tracks j o ln → 0 < len (predicted_ascii o) → is_Some (line_context o).
Proof.
  intros Ht Hp. apply (tr_active _ _ _ Ht). destruct (overlay_active o) eqn:Ha; [done|].
  destruct (tr_idle _ _ _ Ht Ha) as (_ & He & _). rewrite He in Hp. done.
Qed.

Lemma predict_left_step j attrs o ln :
  tracks j o ln → reconciliation_required o = false →
  drawn_step j (edit_ops attrs Left) ln (predict_left o).
Proof.
  intros Ht Hrec. unfold predict_left. destruct (Z.eqb_spec (cursor_offset o) 0) as [|Hz];
    [by apply drawn_step_none|].
  pose proof (tracks_active j o ln Ht) as Hact.
  destruct Ht as [Hov (P & Hcells & Hlen & Hj & Hw & Hopen) Hidle Hanchor Hactive].
  destruct (Hopen Hrec) as (Hpred & Hbound & Hcur).
  unfold drawn_step. cbn [fst snd]. split; [done|]. split; simpl; try done.
  - exists P. split_and!; try done; [lia|]. intros _. split_and!; lia.
  - intros _. apply Hact. lia.
Qed.

Lemma predict_right_step j attrs o ln :
  tracks j o ln → reconciliation_required o = false →
  drawn_step j (edit_ops attrs Right) ln (predict_right o).
Proof.
  intros Ht Hrec. unfold predict_right. destruct (Z.leb_spec (len (predicted_ascii o)) (cursor_offset o));
    [by apply drawn_step_none|].
  pose proof (tracks_active j o ln Ht) as Hact.
  destruct Ht as [Hov (P & Hcells & Hlen & Hj & Hw & Hopen) Hidle Hanchor Hactive].
  destruct (Hopen Hrec) as (Hpred & Hbound & Hcur).
  pose proof (drawn_length c0 cells0 Hc0 P ltac:(lia)) as Hdl. rewrite <- Hcells in Hdl.
  unfold drawn_step. cbn [fst snd]. split; [done|]. split; simpl; try done.
  - exists P. split_and!; try done; [lia|]. intros _. split_and!; lia.
  - intros _. apply Hact. lia.
Qed.

Lemma predict_step j frame action context o ln :
  (j ≤ k)%nat → tracks j o ln → on_line context → reconciliation_required o = false →
  len (predicted_ascii o) < MAXIMUM_PENDING_PREDICTIONS →
  drawn_step j (edit_ops (attributes context) action) ln (predict frame action (Some context) o).
Proof.
  intros Hjk Ht Hon Hrec Hmax. destruct action as [b|c| | | |]; cbn [predict].
  - destruct (_ || _); [by apply predict_printable_step|by apply drawn_step_none, tracks_invalidate].
  - destruct (negb _); [by apply predict_printable_step|by apply drawn_step_none, tracks_invalidate].
  - by apply predict_backspace_step.
  - by apply predict_left_step.
  - by apply predict_right_step.
  - by apply drawn_step_none.
Qed.

(** The fields the drawing does not depend on. *)
Lemma tracks_bookkeeping j o o' ln :
  tracks j o ln →
  overwrite o' = overwrite o → rollback_cells o' = rollback_cells o →
  len (predicted_ascii o') = len (predicted_ascii o) → cursor_offset o' = cursor_offset o →
  overlay_active o' = overlay_active o → reconciliation_required o' = reconciliation_required o →
  line_context o' = line_context o → tracks j o' ln.
Proof.
  intros [Hov Hcells Hidle Hanchor Hactive] E1 E2 E3 E4 E5 E6 E7.
  split; rewrite ?E1, ?E2, ?E3, ?E4, ?E5, ?E6, ?E7; try done.
  intros Ha. destruct (Hidle Ha) as (? & Hp & ? & ?). split_and!; try done.
  apply len_zero. rewrite E3, Hp. done.
Qed.

Lemma offer_step j frame action context o ln :
  (j ≤ k)%nat → tracks j o ln → on_line context →
  drawn_step j (edit_ops (attributes context) action) ln
    (offer_for_frame_with_context frame action (Some context) o).
Proof.
  intros Hjk Ht Hon. unfold offer_for_frame_with_context.
  set (o1 := o <| metrics ::= _ |>).
  assert (tracks j o1 ln) as Ht1 by (by eapply tracks_bookkeeping).
  destruct (is_some_and _ (highest_frame_id o1)); [by apply drawn_step_none|].
  set (o2 := o1 <| highest_frame_id := _ |>).
  assert (tracks j o2 ln) as Ht2 by (by eapply tracks_bookkeeping). clearbody o2.
  destruct (bool_decide _); [by apply drawn_step_none, tracks_invalidate|].
  destruct (negb _); [by apply drawn_step_none|].
  destruct (reconciliation_required o2) eqn:Hrec; [by apply drawn_step_none|].
  destruct (_ || _) eqn:Hfull; [by apply drawn_step_none, tracks_invalidate|].
  apply orb_false_iff in Hfull as [_ Hmax]. apply Z.leb_gt in Hmax.
  pose proof (predict_step j frame action context o2 ln Hjk Ht2 Hon Hrec Hmax) as Hs.
  destruct (predict frame action (Some context) o2) as [o3 [b|]]; [|exact Hs].
  unfold drawn_step in *. simpl in *. destruct Hs as [-> Hs]. split; [done|].
  by eapply tracks_bookkeeping.
Qed.
End overlay_line.

(** ** Sessions of predictions *)
Inductive overlay_event :=
| Offered (frame_id : Z) (action : PredictionAction) (context : PredictionContext)
| EchoAck (acknowledgement : Z)
| RoundTrip (milliseconds : option Z).

(** The overlay after the events, the bytes written to the terminal, and the edits
    these stand for. *)
Fixpoint session (l : list overlay_event) (o : PredictionOverlay)
    : PredictionOverlay * bytes * list line_op :=
  match l with
  | [] => (o, [], [])
  | Offered frame action context :: l =>
      let '(o, output) := offer_for_frame_with_context frame action (Some context) o in
      let '(o, out, ops) := session l o in
      match output with
      | Some b => (o, b ++ out, edit_ops (attributes context) action ++ ops)
      | None => (o, out, ops)
      end
  | EchoAck k :: l => session l (acknowledge k o)
  | RoundTrip ms :: l => session l (set_round_trip_milliseconds ms o)
  end.

Lemma tracks_acknowledge show r c0 cells0 j a o ln :
  tracks show r c0 cells0 j o ln → tracks show r c0 cells0 j (acknowledge a o) ln.
Proof.
  intros Ht. unfold acknowledge. destruct (highest_frame_id o); [|done].
  destruct (_ || _); [done|]. eapply tracks_bookkeeping; [exact Ht|done|done| |done|done|done|done].
  unfold len. cbn. by rewrite length_fmap.
Qed.

Lemma session_tracks show r c0 cells0 k l o ln j :
  (c0 < length cells0)%nat → len cells0 ≤ u16_max → blank_tail k cells0 →
  (j + length l ≤ k)%nat →
  Forall (λ e, match e with Offered _ _ context => on_line show r c0 cells0 context | _ => True end) l →
  tracks show r c0 cells0 j o ln →
  let '(o', out, ops) := session l o in
  out = ops_bytes ops ∧ tracks show r c0 cells0 (j + length l) o' (run_edits ops ln).
Proof.
  intros Hc Hw Hb. revert o ln j. induction l as [|e l IH]; intros o ln j Hk Hl Ht; cbn [session].
  { split; [done|]. eapply (tracks_mono _ _ _ _ Hc); [exact Ht|lia]. }
  apply Forall_cons in Hl as [He Hl]. simpl in Hk. destruct e as [frame action context|a|ms].
  - pose proof (offer_step show r c0 cells0 k Hc Hw Hb j frame action context o ln ltac:(lia) Ht He) as Hs.
    destruct (offer_for_frame_with_context frame action (Some context) o) as [o1 [b|]].
    + destruct Hs as [-> Ht1]. specialize (IH o1 _ (S j) ltac:(lia) Hl Ht1).
      destruct (session l o1) as [[o2 out] ops]. destruct IH as [-> Ht2].
      rewrite edit_bytes_app, run_edits_app. split; [done|]. eapply (tracks_mono _ _ _ _ Hc); [exact Ht2|simpl; lia].
    + specialize (IH o1 ln (S j) ltac:(lia) Hl Hs).
      destruct (session l o1) as [[o2 out] ops]. destruct IH as [-> Ht2]. split; [done|].
      eapply (tracks_mono _ _ _ _ Hc); [exact Ht2|simpl; lia].
  - specialize (IH (acknowledge a o) ln j ltac:(lia) Hl (tracks_acknowledge _ _ _ _ _ _ _ _ Ht)).
    destruct (session l (acknowledge a o)) as [[o2 out] ops]. destruct IH as [-> Ht2]. split; [done|].
    eapply (tracks_mono _ _ _ _ Hc); [exact Ht2|simpl; lia].
  - assert (tracks show r c0 cells0 j (set_round_trip_milliseconds ms o) ln) as Ht'
      by (by eapply tracks_bookkeeping).
    specialize (IH _ ln j ltac:(lia) Hl Ht').
    destruct (session l (set_round_trip_milliseconds ms o)) as [[o2 out] ops]. destruct IH as [-> Ht2].
    split; [done|]. eapply (tracks_mono _ _ _ _ Hc); [exact Ht2|simpl; lia].
Qed.

(** Restoring the screen of an overlay. *)
Lemma restore_grid show rows r c0 cells0 k o ln :
  rows !! r = Some cells0 →
  (c0 < length cells0)%nat → len cells0 ≤ u16_max → blank_tail k cells0 →
  tracks show (Z.of_nat r) c0 cells0 k o ln →
  lines (run_ops (restore_ops (Z.of_nat r) (Z.of_nat c0) (rollback_cells o)) (on_grid rows r ln)) = rows.
Proof.
  intros Hrow Hc Hw Hb Ht. pose proof (lookup_lt_Some _ _ _ Hrow) as Hr.
  destruct (tr_cells _ _ _ _ _ _ _ Ht) as (P & Hcells & Hlen & Hk & Hroom & _).
  unfold restore_ops. destruct (Z.eqb_spec (rollback_cells o) 0) as [Hz|Hz].
  - destruct P; [|simpl in Hlen; lia]. simpl. rewrite Hcells, drawn_nil by done. by apply list_insert_id.
  - assert (Hcursor : run_op (on_grid rows r ln) (CursorTo (Z.of_nat r + 1) (Z.of_nat c0 + 1))
      = on_grid rows r (mkLine (cells ln) c0)).
    { cbn [run_op]. unfold place. change (length (lines (on_grid rows r ln))) with (length (<[r := cells ln]> rows)). rewrite length_insert.
      replace (min (Z.to_nat (Z.of_nat r + 1 - 1)) (length rows - 1)) with r by lia.
      rewrite line_on_grid by done. unfold on_grid. cbn [lines cells cursor]. f_equal.
      rewrite Hcells, drawn_length by lia. lia. }
    unfold run_ops. cbn [foldl]. rewrite Hcursor. clear Hcursor.
    pose proof (edits_on_grid rows r [DeleteCells (Some (rollback_cells o))] (mkLine (cells ln) c0) Hr) as He.
    unfold run_ops in He. cbn [fmap list_fmap foldl] in He. rewrite He. clear He.
    unfold run_edits. cbn [foldl edit_line]. rewrite <- Hlen, Hcells.
    change (Z.to_nat (default 1 (Some (Z.of_nat (length P))))) with (Z.to_nat (Z.of_nat (length P))).
    rewrite Nat2Z.id. pose proof (delete_drawn c0 cells0 Hc k [] P) as Hd.
    change (drawn c0 cells0 P) with (drawn c0 cells0 ([] ++ P)).
    replace (mkLine (drawn c0 cells0 ([] ++ P)) c0) with (mkLine (drawn c0 cells0 ([] ++ P)) (c0 + length (@nil bytes)))
      by (f_equal; simpl; lia).
    rewrite Hd by (done || simpl; lia). cbn [on_grid lines cells]. rewrite drawn_nil by done. by apply list_insert_id.
Qed.

(** ** The invariant of the overlay *)

(** The cells belong to frames offered, and are marked by an acknowledgement of
    their frame. *)
Record wf_overlay (o : PredictionOverlay) : Prop := {
  wo_offset : 0 ≤ cursor_offset o ≤ len (predicted_ascii o);
  wo_predicted : len (predicted_ascii o) ≤ MAXIMUM_PENDING_PREDICTIONS;
  wo_pending : len (pending o) ≤ MAXIMUM_PENDING_PREDICTIONS;
  wo_acknowledged : Forall (λ cell, acknowledged cell = true →
    ∃ a, latest_acknowledgement (metrics o) = Some a ∧ cell_frame_id cell ≤ a) (predicted_ascii o);
  wo_highest : ∀ a, latest_acknowledgement (metrics o) = Some a →
    ∃ h, highest_frame_id o = Some h ∧ a ≤ h;
  wo_frames : Forall (λ cell, ∃ h, highest_frame_id o = Some h ∧ cell_frame_id cell ≤ h) (predicted_ascii o);
  wo_entries : Forall (λ entry, ∃ h, highest_frame_id o = Some h ∧ entry_frame_id entry ≤ h) (pending o);
}.

Lemma wf_overlay_new d w : wf_overlay (overlay_new d w).
Proof. split; simpl; done. Qed.

Lemma wf_invalidate o : wf_overlay o → wf_overlay (invalidate_span o).
Proof. intros []. split; simpl; done. Qed.

Lemma wf_set_context c o : wf_overlay o → wf_overlay (o <| line_context := c |>).
Proof. intros []. by split. Qed.

Lemma wf_predict_printable frame text context o :
  wf_overlay o → highest_frame_id o = Some frame → len (predicted_ascii o) < MAXIMUM_PENDING_PREDICTIONS →
  let o' := fst (predict_printable frame text context o) in
  wf_overlay o' ∧ highest_frame_id o' = Some frame ∧ pending o' = pending o ∨
  wf_overlay o' ∧ highest_frame_id o' = Some frame ∧ snd (predict_printable frame text context o) = None.
Proof.
  intros Hw Hf Hmax. unfold predict_printable. destruct (negb _) eqn:Hoff; [by right|].
  apply negb_false_iff, Z.eqb_eq in Hoff.
  set (o1 := match context with Some c => _ | None => o end).
  assert (wf_overlay o1 ∧ highest_frame_id o1 = Some frame) as [Hw1 Hf1]
    by (unfold o1; destruct context; [split; [by apply wf_set_context|done]|done]).
  destruct (is_some_and _ context); [right; split_and!; [by apply wf_invalidate|done|done]|].
  left. assert (pending o1 = pending o ∧ predicted_ascii o1 = predicted_ascii o ∧
    cursor_offset o1 = cursor_offset o) as (E1 & E2 & E3) by (unfold o1; by destruct context).
  clearbody o1. cbn [fst]. split_and!; [|done|done]. rewrite <- E2 in *. rewrite <- E3 in *.
  pose proof (len_nonneg (predicted_ascii o1)). unfold MAXIMUM_PENDING_PREDICTIONS in Hmax.
  destruct Hw1. split; simpl; try done.
  - rewrite len_app. change (len [mkPredictedCell frame false]) with 1. rewrite Hoff.
    unfold saturating_add. change (2 ^ 64) with 18446744073709551616. lia.
  - rewrite len_app. change (len [mkPredictedCell frame false]) with 1.
    unfold MAXIMUM_PENDING_PREDICTIONS. lia.
  - apply Forall_app. split; [done|]. by repeat constructor.
  - apply Forall_app. split; [done|]. constructor; [|constructor]. by exists frame.
Qed.

Lemma wf_predict_backspace o :
  wf_overlay o → wf_overlay (fst (predict_backspace o)) ∧
  highest_frame_id (fst (predict_backspace o)) = highest_frame_id o.
Proof.
  intros Hw. unfold predict_backspace. destruct ((cursor_offset o =? 0) || _) eqn:Hoff; [done|].
  apply orb_false_iff in Hoff as [Hz Hoff]. apply Z.eqb_neq in Hz. apply negb_false_iff, Z.eqb_eq in Hoff.
  destruct (is_some_and _ (last (predicted_ascii o))); [done|].
  destruct (overwrite o); [by split; [apply wf_invalidate|]|]. split; [|done].
  destruct Hw as [H1' H2' H3' H4' H5' H6' H7']. unfold len in Hoff.
  split; simpl; try done; destruct (predicted_ascii o) as [|c l _] using rev_ind; simpl in *; try lia;
    rewrite ?removelast_last; rewrite ?length_app, ?len_app in *; simpl in *;
    rewrite ?Forall_app in *; unfold len in *; simpl in *; tauto || lia.
Qed.

Lemma wf_predict frame action context o :
  wf_overlay o → highest_frame_id o = Some frame → len (predicted_ascii o) < MAXIMUM_PENDING_PREDICTIONS →
  let o' := fst (predict frame action context o) in
  wf_overlay o' ∧ highest_frame_id o' = Some frame.
Proof.
  intros Hw Hf Hmax.
  assert (∀ text, wf_overlay (fst (predict_printable frame text context o)) ∧
    highest_frame_id (fst (predict_printable frame text context o)) = Some frame) as Hprint
    by (intros text; destruct (wf_predict_printable frame text context o Hw Hf Hmax); tauto).
  destruct action as [b|c| | | |]; cbn [predict].
  - destruct (_ || _); [done|]. by split; [apply wf_invalidate|].
  - destruct (negb _); [done|]. by split; [apply wf_invalidate|].
  - rewrite <- Hf. by apply wf_predict_backspace.
  - unfold predict_left. destruct (Z.eqb_spec (cursor_offset o) 0); [done|]. split; [|done].
    destruct Hw. split; simpl; (done || lia).
  - unfold predict_right. destruct (Z.leb_spec (len (predicted_ascii o)) (cursor_offset o)); [done|].
    split; [|done]. destruct Hw. split; simpl; (done || lia).
  - done.
Qed.

Lemma wf_raise_frame o frame :
  wf_overlay o → (∀ h, highest_frame_id o = Some h → h ≤ frame) →
  wf_overlay (o <| highest_frame_id := Some frame |>).
Proof.
  intros [] Hf. split; simpl; try done.
  - intros a Ha. destruct (wo_highest0 a Ha) as (h & Hh & Hle). exists frame.
    specialize (Hf h Hh). split; [done|lia].
  - eapply Forall_impl; [exact wo_frames0|]. intros c (h & Hh & Hle). exists frame.
    specialize (Hf h Hh). split; [done|lia].
  - eapply Forall_impl; [exact wo_entries0|]. intros c (h & Hh & Hle). exists frame.
    specialize (Hf h Hh). split; [done|lia].
Qed.

Lemma wf_offer frame action context o :
  wf_overlay o → wf_overlay (fst (offer_for_frame_with_context frame action context o)).
Proof.
  intros Hw. unfold offer_for_frame_with_context. set (o1 := o <| metrics ::= _ |>).
  assert (wf_overlay o1) as Hw1 by (destruct Hw; by split). clearbody o1. clear o Hw.
  destruct (is_some_and _ (highest_frame_id o1)) eqn:Hold; [done|].
  assert (wf_overlay (o1 <| highest_frame_id := Some frame |>)) as Hw2.
  { apply wf_raise_frame; [done|]. intros h Hh. rewrite is_some_and_false in Hold.
    by apply Z.ltb_ge, Hold. }
  assert (highest_frame_id (o1 <| highest_frame_id := Some frame |>) = Some frame) as Hf by done.
  set (o2 := o1 <| highest_frame_id := Some frame |>) in *. clearbody o2.
  destruct (bool_decide _); [by apply wf_invalidate|]. destruct (negb _); [done|].
  destruct (reconciliation_required o2); [done|].
  destruct (_ || _) eqn:Hfull; [by apply wf_invalidate|].
  apply orb_false_iff in Hfull as [Hpend Hmax]. apply Z.leb_gt in Hpend, Hmax.
  pose proof (wf_predict frame action context o2 Hw2 Hf Hmax) as [Hw3 Hf3].
  assert (len (pending (fst (predict frame action context o2))) < MAXIMUM_PENDING_PREDICTIONS) as Hp3.
  { unfold MAXIMUM_PENDING_PREDICTIONS in *.
    destruct action as [b|c| | | |]; cbn [predict]; unfold predict_printable, predict_backspace,
      predict_left, predict_right; repeat (destruct (if _ then _ else _) || case_match); simpl; try done. }
  destruct (predict frame action context o2) as [o3 [b|]]; [|done]. simpl in *.
  destruct Hw3. split; simpl; try done.
  - rewrite len_app. change (len [mkPredictionEntry frame action]) with 1. lia.
  - apply Forall_app. split; [done|]. constructor; [|constructor]. by exists frame.
Qed.

Lemma pop_acknowledged_suffix a l : ∃ k, pop_acknowledged a l = drop k l.
Proof.
  induction l as [|e l [k IH]]; [by exists 0%nat|]. cbn [pop_acknowledged].
  destruct (_ <=? _); [by exists (S k)|by exists 0%nat].
Qed.

Lemma wf_acknowledge a o : wf_overlay o → wf_overlay (acknowledge a o).
Proof.
  intros Hw. unfold acknowledge. destruct (highest_frame_id o) as [h|] eqn:Hh; [|done].
  destruct (_ || _) eqn:Hold; [done|]. apply orb_false_iff in Hold as [Hle Hnew].
  apply Z.ltb_ge in Hle. rewrite is_some_and_false in Hnew.
  destruct (pop_acknowledged_suffix a (pending o)) as [k Hk].
  destruct Hw. split; cbn.
  - unfold len in *. by rewrite length_fmap.
  - unfold len in *. by rewrite length_fmap.
  - rewrite Hk. unfold len in *. rewrite length_drop. lia.
  - apply Forall_fmap. eapply Forall_impl; [exact wo_acknowledged0|]. intros c Hc. simpl.
    destruct (Z.leb_spec (cell_frame_id c) a); simpl; [by exists a|]. intros Ht.
    destruct (Hc Ht) as (b & Hb & Hcb). exists a. split; [done|].
    specialize (Hnew b Hb). apply Z.leb_gt in Hnew. lia.
  - intros b [= <-]. by exists h.
  - apply Forall_fmap. eapply Forall_impl; [exact wo_frames0|]. intros c Hc. simpl.
    by destruct (_ <=? _).
  - rewrite Hk. by apply Forall_drop.
Qed.

Lemma wf_take_reconciliation o : wf_overlay o → wf_overlay (fst (take_reconciliation o)).
Proof.
  intros Hw. unfold take_reconciliation. destruct (_ && _); [done|]. destruct Hw. split; simpl; done.
Qed.

(** The overlays a client can reach. *)
Inductive overlay_reach : PredictionOverlay → Prop :=
| reach_overlay_new d w : overlay_reach (overlay_new d w)
| reach_overlay_offer frame action context o :
    overlay_reach o → overlay_reach (fst (offer_for_frame_with_context frame action context o))
| reach_overlay_input kind input o : overlay_reach o → overlay_reach (fst (offer kind input o))
| reach_overlay_acknowledge a o : overlay_reach o → overlay_reach (acknowledge a o)
| reach_overlay_round_trip ms o : overlay_reach o → overlay_reach (set_round_trip_milliseconds ms o)
| reach_overlay_reconcile o : overlay_reach o → overlay_reach (fst (take_reconciliation o)).

Lemma overlay_reach_wf o : overlay_reach o → wf_overlay o.
Proof.
  induction 1 as [d w|f a c o _ IH|kind input o _ IH|a o _ IH|ms o _ IH|o _ IH].
  - apply wf_overlay_new.
  - by apply wf_offer.
  - unfold offer. destruct (match highest_frame_id o with Some _ => _ | None => _ end); [|done].
    by apply wf_offer.
  - by apply wf_acknowledge.
  - destruct IH. by split.
  - by apply wf_take_reconciliation.
Qed.

(** ** Properties *)

(** C27: Predictions are invisible after reconciliation: whatever edits,
    acknowledgements and round-trip times an insert-mode overlay sees while the
    authoritative cursor stays at one place of the screen, each written piece is
    the edit it claims to be, no other line changes, and the local reconciliation
    (the cursor addressed at this place, the predicted cells deleted and the
    cursor state of an offer) gives back the whole screen and the cursor,
    provided the cells at the right margin of its line that the insertions shift
    out are blank. [show] is what the terminal does with a cursor state: it puts
    the cursor where the emulator that made it had its own. *)
Theorem reconciliation_restores_line d l (show : bytes → grid → grid) rows r c0 cells0 :
  rows !! r = Some cells0 → len rows ≤ u16_max →
  (c0 < length cells0)%nat → len cells0 ≤ u16_max → blank_tail (length l) cells0 →
  Forall (λ e, match e with
    | Offered _ _ context => on_line show (Z.of_nat r) c0 cells0 context
    | _ => True
    end) l →
  let '(o, out, ops) := session l (overlay_new d false) in
  let before := mkGrid rows r c0 in
  let after := run_ops (Edit <$> ops) before in
  out = ops_bytes ops ∧
  (∀ i, i ≠ r → lines after !! i = rows !! i) ∧
  match snd (take_reconciliation o) with
  | NoReconciliation => after = before
  | Local restoration =>
      ∃ context, let restore := restore_ops (Z.of_nat r) (Z.of_nat c0) (rollback_cells o) in
        restoration = grid_bytes restore ++ cursor_state context ∧
        show (cursor_state context) (run_ops restore after) = before
  | Redraw => False
  end.
Proof.
  intros Hrow Hrows Hc Hw Hb Hl. pose proof (lookup_lt_Some _ _ _ Hrow) as Hr.
  pose proof (session_tracks show (Z.of_nat r) c0 cells0 (length l) l _ _ 0 Hc Hw Hb ltac:(lia) Hl
    (tracks_new show (Z.of_nat r) c0 cells0 Hc d)) as Hs.
  destruct (session l (overlay_new d false)) as [[o out] ops]. destruct Hs as [Hout Ht]. cbv zeta.
  assert (Hstart : mkGrid rows r c0 = on_grid rows r (mkLine cells0 c0))
    by (unfold on_grid; cbn; by rewrite list_insert_id).
  rewrite Hstart, edits_on_grid by done. rewrite <- Hstart.
  split; [done|]. split; [intros i Hi; cbn; by apply list_lookup_insert_ne, not_eq_sym|].
  simpl in Ht. pose proof Ht as [Hov _ Hidle Hanchor Hactive].
  unfold take_reconciliation. destruct (overlay_active o) eqn:Ha.
  - cbn [negb andb snd]. rewrite Hov. destruct (Hactive eq_refl) as [context Hctx].
    unfold local_reconciliation. rewrite Hctx. pose proof (Hanchor context Hctx) as (Er & Ec & Ew & Hshow).
    exists context. split.
    + unfold restore_ops. rewrite Er, Ec. destruct (rollback_cells o =? 0); [done|].
      unfold saturating_add. rewrite !Z.min_l by (unfold u16_max, len in *; lia).
      unfold grid_bytes. cbn. by rewrite app_nil_r.
    + rewrite Hshow, Nat2Z.id. f_equal. by eapply restore_grid.
  - destruct (Hidle eq_refl) as (Hz & _ & Hrec & Hcur). rewrite Hrec. cbn [negb andb snd].
    destruct (tr_cells _ _ _ _ _ _ _ Ht) as (P & Hcells & Hlen & _). rewrite Hz in Hlen.
    destruct P; [|simpl in Hlen; lia]. rewrite drawn_nil in Hcells by done.
    rewrite Hstart. f_equal. destruct (run_edits ops _). simpl in *. congruence.
Qed.

(** C28: The overlay stays bounded and its confidence is sound: from any sequence of
    operations the predicted cells and the pending entries number at most 1024,
    the cursor stays within the span (so that moving it left never underflows),
    and a line is reported as acknowledged only when the server acknowledged the
    frame of each of its cells, an acknowledgement that is never ahead of the
    frames offered. *)
Theorem overlay_bounded_and_sound o :
  overlay_reach o →
  0 ≤ cursor_offset o ≤ len (predicted_ascii o) ∧
  len (predicted_ascii o) ≤ MAXIMUM_PENDING_PREDICTIONS ∧
  len (pending o) ≤ MAXIMUM_PENDING_PREDICTIONS ∧
  (line_confidence o = Some LineAcknowledged →
   ∃ a h, latest_acknowledgement (metrics o) = Some a ∧ highest_frame_id o = Some h ∧ a ≤ h ∧
     Forall (λ cell, cell_frame_id cell ≤ a) (predicted_ascii o)).
Proof.
  intros Hr. apply overlay_reach_wf in Hr. destruct Hr. split_and!; try done; try lia.
  unfold line_confidence. destruct (predicted_ascii o) as [|c l] eqn:Hp; [done|].
  rewrite bool_decide_eq_false_2 by done. destruct (forallb acknowledged (c :: l)) eqn:Hall; [|done].
  intros _. rewrite forallb_forall in Hall.
  rewrite Forall_forall in wo_acknowledged0.
  destruct (wo_acknowledged0 c) as (a & Ha & _); [by left|apply Hall; by left|].
  destruct (wo_highest0 a Ha) as (h & Hh & Hle). exists a, h. split_and!; try done.
  apply Forall_forall. intros x Hx. destruct (wo_acknowledged0 x Hx) as (b & Hb & Hxb).
  { apply Hall. by apply list_elem_of_In. }
  congruence.
Qed.

(** Only typed characters are displayed: [offer] writes something only for a key
    whose bytes are the UTF-8 encoding of one character that is no control
    character, and what it writes shows these bytes, underlined. *)
Theorem offer_echoes_typed kind input o :
  let '(o', output) := offer kind input o in
  ∀ out, output = Some out →
  kind = Key ∧ display o ≠ Never ∧
  ∃ character, is_char character ∧ is_control character = false ∧
    input = encode_utf8 character ∧
    out = (if overwrite o then [] else INSERT_CHARACTER) ++ UNDERLINE_RENDITION ++ input
          ++ NO_UNDERLINE_RENDITION.
Proof.
  destruct (offer kind input o) as [o' output] eqn:Ho. intros out ->. revert Ho. unfold offer.
  destruct (match highest_frame_id o with Some _ => _ | None => _ end) as [frame|]; [|done].
  unfold offer_for_frame, offer_for_frame_with_context. set (o1 := o <| metrics ::= _ |>).
  destruct (is_some_and _ (highest_frame_id o1)); [done|]. set (o2 := o1 <| highest_frame_id := _ |>).
  destruct (bool_decide (kind = Key)) eqn:Hk.
  2: { rewrite bool_decide_eq_true_2 by done. done. }
  apply bool_decide_eq_true in Hk. destruct (bool_decide (default Barrier _ = Barrier)) eqn:Hbar; [done|].
  destruct (negb (display_enabled o2)) eqn:Hd; [done|]. destruct (reconciliation_required o2); [done|].
  destruct (_ || _); [done|]. apply bool_decide_eq_false in Hbar.
  assert (display o ≠ Never) as Hnever.
  { intros Hn. unfold display_enabled in Hd. change (display o2) with (display o) in Hd. by rewrite Hn in Hd. }
  destruct (single_printable_action input) as [action|] eqn:Ha; [|done]. simpl in Hbar. clear Hbar.
  unfold single_printable_action in Ha.
  destruct (utf8_chars input) as [[|c rest]|] eqn:Hu; [done| |done]. apply utf8_chars_spec in Hu as [Hc Hin].
  destruct (negb (bool_decide (rest = [])) || is_control c) eqn:Hone; [done|].
  apply orb_false_iff in Hone as [Hone Hctl]. apply negb_false_iff, bool_decide_eq_true in Hone as ->.
  rewrite fmap_cons, mjoin_cons in Hin. change (mjoin (encode_utf8 <$> [])) with (@nil Z) in Hin.
  rewrite app_nil_r in Hin. apply Forall_cons in Hc as [Hc _]. intros Hp.
  assert (predict frame action None o2 = predict_printable frame input None o2 ∨
          snd (predict frame action None o2) = None) as Hcase.
  { destruct (is_ascii c) eqn:Hasc; injection Ha as <-; cbn [predict].
    - destruct (_ || _); [left|by right]. unfold is_ascii in Hasc. rewrite Hin. unfold encode_utf8.
      by rewrite Hasc.
    - rewrite Hctl. left. by rewrite Hin. }
  change (default Barrier (Some action)) with action in Hp.
  destruct Hcase as [He|He]; [|by destruct (predict frame action None o2) as [o3 ?]; simpl in He; subst].
  rewrite He in Hp. unfold predict_printable in Hp. cbn [is_some_and] in Hp.
  destruct (negb (cursor_offset o2 =? len (predicted_ascii o2))); [done|]. cbn [is_some] in Hp. apply pair_equal_spec in Hp as [_ Hp].
  split; [done|]. split; [done|]. exists c. split_and!; try done. by injection Hp as <-.
Qed.

(** ** Witnesses *)
Definition demo_context : PredictionContext :=
  {| row := 3; column := 2; columns := 10; attributes := esc "[m"; cursor_state := esc "[4;3H" |}.
Definition demo_cells : list bytes := [[97]; [98]] ++ replicate 8 blank.
Definition demo_session : list overlay_event :=
  [Offered 1 (PrintableAscii 120) demo_context; Offered 1 (PrintableUtf8 233) demo_context;
   Offered 2 Left demo_context; EchoAck 1; Offered 2 Right demo_context;
   Offered 2 (PrintableAscii 121) demo_context; Offered 2 Backspace demo_context].

Lemma blank_tail_drop j cells0 :
  blank_tail j cells0 ↔ Forall (λ x, x = blank) (drop (length cells0 - j) cells0).
Proof.
  rewrite Forall_lookup. split.
  - intros Hb i x Hi. rewrite lookup_drop in Hi. apply (Hb _ _ Hi). lia.
  - intros Hf i x Hi Hj. apply (Hf (i - (length cells0 - j))%nat). rewrite lookup_drop, <- Hi.
    f_equal. lia.
Qed.

(** A screen of five lines, with text on the line below and above. *)
Definition demo_rows : list (list bytes) :=
  [replicate 10 blank; replicate 10 [65]; replicate 10 [66]; demo_cells; replicate 10 [67]].

(** What the terminal does with the cursor state of the context. *)
Definition demo_show (state : bytes) (g : grid) : grid :=
  if bool_decide (state = cursor_state demo_context) then mkGrid (lines g) 3 2 else g.

Lemma reconciliation_restores_line_witness :
  let '(o, out, ops) := session demo_session (overlay_new Always false) in
  let before := mkGrid demo_rows 3 2 in
  let after := run_ops (Edit <$> ops) before in
  out = ops_bytes ops ∧
  (∀ i, i ≠ 3%nat → lines after !! i = demo_rows !! i) ∧
  match snd (take_reconciliation o) with
  | NoReconciliation => after = before
  | Local restoration =>
      ∃ context, let restore := restore_ops 3 2 (rollback_cells o) in
        restoration = grid_bytes restore ++ cursor_state context ∧
        demo_show (cursor_state context) (run_ops restore after) = before
  | Redraw => False
  end.
Proof.
  apply (reconciliation_restores_line Always demo_session demo_show demo_rows 3 2 demo_cells).
  - reflexivity.
  - decide_closed.
  - simpl. lia.
  - decide_closed.
  - apply blank_tail_drop. decide_closed.
  - repeat constructor.
Defined.

(** The line between: [x] and [é] inserted, the rest of the session done. *)
Example demo_session_draws :
  let '(o, _, ops) := session demo_session (overlay_new Always false) in
  run_edits ops (mkLine demo_cells 2)
    = mkLine ([[97]; [98]; [120]; [195; 169]] ++ replicate 6 blank) 4 ∧
  snd (take_reconciliation o) = Local (esc "[4;3H" ++ esc "[2P" ++ esc "[4;3H").
Proof. vm_compute. split; reflexivity. Qed.

(** With text at the right margin the local reconciliation loses it. *)
Example reconciliation_loses_margin :
  let rows := [replicate 9 blank ++ [[90]]] in
  let context := mkPredictionContext 0 2 10 (esc "[m") (esc "[1;3H") in
  let '(o, _, ops) := session [Offered 1 (PrintableAscii 120) context] (overlay_new Always false) in
  snd (take_reconciliation o) = Local (grid_bytes (restore_ops 0 2 1) ++ esc "[1;3H") ∧
  lines (run_ops (restore_ops 0 2 1) (run_ops (Edit <$> ops) (mkGrid rows 0 2))) = [replicate 10 blank].
Proof. vm_compute. split; reflexivity. Qed.

Definition demo_overlay : PredictionOverlay :=
  fst (offer_for_frame_with_context 4 (PrintableAscii 120) (Some demo_context) (overlay_new Always true)).

Lemma overlay_bounded_and_sound_witness :
  let o := acknowledge 4 demo_overlay in
  line_confidence o = Some LineAcknowledged ∧
  0 ≤ cursor_offset o ≤ len (predicted_ascii o) ∧
  len (predicted_ascii o) ≤ MAXIMUM_PENDING_PREDICTIONS ∧
  len (pending o) ≤ MAXIMUM_PENDING_PREDICTIONS ∧
  (line_confidence o = Some LineAcknowledged →
   ∃ a h, latest_acknowledgement (metrics o) = Some a ∧ highest_frame_id o = Some h ∧ a ≤ h ∧
     Forall (λ cell, cell_frame_id cell ≤ a) (predicted_ascii o)).
Proof.
  split; [vm_compute; reflexivity|]. apply (overlay_bounded_and_sound (acknowledge 4 demo_overlay)).
  apply reach_overlay_acknowledge, reach_overlay_offer, reach_overlay_new.
Defined.

Lemma offer_echoes_typed_witness :
  let '(o', output) := offer Key [195; 169] (overlay_new Always false) in
  ∀ out, output = Some out →
  Key = Key ∧ Always ≠ Never ∧
  ∃ character, is_char character ∧ is_control character = false ∧
    [195; 169] = encode_utf8 character ∧
    out = INSERT_CHARACTER ++ UNDERLINE_RENDITION ++ [195; 169] ++ NO_UNDERLINE_RENDITION.
Proof. apply (offer_echoes_typed Key [195; 169] (overlay_new Always false)). Defined.
