(* ===== verification/Decimal.v ===== *)
(** * Decimal numerals

    What [format!("{}")] writes for a number, and what [str::parse] for an unsigned
    integer type reads: facts of the Rust standard library that the mouse reports, the
    command line and the prediction overlay rely on. *)
From S2P Require Import Prelude.
Local Open Scope Z_scope.

Definition is_digit (b : Z) : bool := (48 <=? b) && (b <=? 57).

Definition digits_value (l : bytes) : Z := fold_left (λ acc b, acc * 10 + (b - 48)) l 0.

(** [str::parse::<u16>] and the like: an optional plus sign, then digits, in range. *)
Definition parse_unsigned (w : Z) (l : bytes) : option Z :=
  let digits := match l with 43 :: rest => rest | _ => l end in
  if bool_decide (digits = []) then None
  else if forallb is_digit digits then try_into w (digits_value digits) else None.

Lemma digits_value_snoc l b : digits_value (l ++ [b]) = digits_value l * 10 + (b - 48).
Proof. unfold digits_value. by rewrite fold_left_app. Qed.

Lemma lit_cons c s : lit (String c s) = Z.of_N (Ascii.N_of_ascii c) :: lit s.
Proof. done. Qed.

Lemma pretty_char_digit x :
  (x < 10)%N → Z.of_N (Ascii.N_of_ascii (pretty_N_char x)) = 48 + Z.of_N x.
Proof.
  intros Hx. assert (x = 0 ∨ x = 1 ∨ x = 2 ∨ x = 3 ∨ x = 4 ∨ x = 5 ∨ x = 6 ∨ x = 7 ∨ x = 8 ∨ x = 9)%N
    as Hc by lia. by repeat (destruct Hc as [->|Hc]; [reflexivity|]); subst.
Qed.

Lemma pretty_go_digits x s :
  ∃ ds, lit (pretty_N_go x s) = ds ++ lit s ∧ Forall (λ b, is_digit b = true) ds ∧
        digits_value ds = Z.of_N x ∧ ((0 < x)%N → ds ≠ []).
Proof.
  revert s. induction (N.lt_wf_0 x) as [x _ IH]; intros s.
  assert (x = 0 ∨ 0 < x)%N as [->|Hx] by lia; [by exists []|].
  rewrite pretty_N_go_step by done.
  destruct (IH (x / 10)%N ltac:(by apply N.div_lt) (String (pretty_N_char (x `mod` 10)) s))
    as (ds & Hds & Hd & Hv & _).
  assert (Hm : (x `mod` 10 < 10)%N) by (by apply N.mod_lt).
  rewrite Hds, lit_cons, pretty_char_digit by done.
  exists (ds ++ [48 + Z.of_N (x `mod` 10)]). split_and!.
  - by rewrite <- app_assoc.
  - apply Forall_app. split; [done|]. apply Forall_singleton. unfold is_digit.
    apply andb_true_iff. rewrite !Z.leb_le. apply N2Z.inj_lt in Hm. pose proof (N2Z.is_nonneg (x mod 10)).
    change (Z.of_N 10) with 10 in Hm. lia.
  - rewrite digits_value_snoc, Hv. pose proof (N.div_mod x 10 ltac:(done)) as Hx10.
    apply (f_equal Z.of_N) in Hx10. rewrite N2Z.inj_add, N2Z.inj_mul in Hx10.
    change (Z.of_N 10) with 10 in Hx10. lia.
  - intros _ Hn. by destruct ds.
Qed.

Lemma decimal_digits z :
  0 ≤ z → Forall (λ b, is_digit b = true) (decimal z) ∧ digits_value (decimal z) = z ∧ decimal z ≠ [].
Proof.
  intros Hz. unfold decimal. destruct z as [|p|p]; [|..|lia].
  { split_and!; [|done|done]. by repeat constructor. }
  change (pretty (Z.pos p)) with (pretty_N_go (N.pos p) "").
  destruct (pretty_go_digits (N.pos p) "") as (ds & -> & Hd & Hv & Hn).
  rewrite app_nil_r. split_and!; [done|done|]. by apply Hn.
Qed.

(** Digits followed by a byte that is no digit can be told apart. *)
Lemma digits_split x y c d l k :
  Forall (λ b, is_digit b = true) x → Forall (λ b, is_digit b = true) y →
  is_digit c = false → is_digit d = false →
  x ++ c :: l = y ++ d :: k → x = y ∧ c = d ∧ l = k.
Proof.
  intros Fx Fy Hc Hd. revert y Fy. induction Fx as [|u x Hu Fx IH]; intros y Fy He.
  - destruct Fy as [|v y Hv Fy]; simplify_eq/=; [done|congruence].
  - destruct Fy as [|v y Hv Fy]; simplify_eq/=; [congruence|].
    destruct (IH y Fy) as (-> & -> & ->); done.
Qed.

Lemma decimal_split a b c d l k :
  0 ≤ a → 0 ≤ b → is_digit c = false → is_digit d = false →
  decimal a ++ c :: l = decimal b ++ d :: k → a = b ∧ c = d ∧ l = k.
Proof.
  intros Ha Hb Hc Hd He. destruct (decimal_digits a Ha) as (Fa & Va & _).
  destruct (decimal_digits b Hb) as (Fb & Vb & _).
  destruct (digits_split _ _ _ _ _ _ Fa Fb Hc Hd He) as (Hn & -> & ->).
  rewrite Hn in Va. split_and!; congruence.
Qed.

Lemma parse_unsigned_decimal w z : fits w z → parse_unsigned w (decimal z) = Some z.
Proof.
  intros Hz. destruct (decimal_digits z) as (Hd & Hv & Hn); [by destruct Hz|].
  unfold parse_unsigned. destruct (decimal z) as [|b l] eqn:Hl; [done|].
  assert (Hp : (match b :: l with 43 :: rest => rest | _ => b :: l end) = b :: l).
  { apply Forall_cons in Hd as [Hb _]. destruct (decide (b = 43)) as [->|Hne]; [done|].
    by repeat case_match; simplify_eq. }
  rewrite Hp, bool_decide_eq_false_2 by done.
  rewrite (proj2 (forallb_forall _ _)).
  - unfold try_into. rewrite Hv. by rewrite (proj2 (fitsb_spec w z)).
  - intros x Hx. rewrite Forall_forall in Hd. by apply Hd, list_elem_of_In.
Qed.
