(* ===== verification/TitleFilter.v ===== *)
(** * The title filter

    The model of [TitleOutputFilter] of [crates/ferrumtty-terminal/src/lib.rs], which
    rewrites the title controls in the server's output: a state machine over the
    bytes, the titles the server set, and what was last displayed. *)
From S2P Require Import Prelude.
Local Open Scope Z_scope.

Definition MOSH_TITLE_PREFIX : bytes := lit "[mosh] ".
Definition MAX_OSC_COMMAND_BYTES : Z := 16.
Definition MAX_REMOTE_TITLE_BYTES : Z := 1024.

Inductive TitlePolicy := PreserveRemote | MoshPrefix.
Inductive OscTitleCommand := IconAndWindow | Icon | Window.

#[export] Instance TitlePolicy_eq_dec : EqDecision TitlePolicy.
Proof. solve_decision. Defined.
#[export] Instance OscTitleCommand_eq_dec : EqDecision OscTitleCommand.
Proof. solve_decision. Defined.

Inductive TitleFilterState :=
| Ground
| Escape
| OscHeader (header : bytes) (escape_pending : bool)
| Title (command : OscTitleCommand) (title : bytes) (escape_pending : bool)
| PassthroughOsc (escape_pending : bool)
| DiscardTitle (escape_pending : bool).

Record RemoteTitles := mkRemoteTitles { initialized : bool; icon : bytes; window : bytes }.

Record TitleOutputFilter := mkTitleOutputFilter {
  policy : TitlePolicy;
  state : TitleFilterState;
  remote : RemoteTitles;
  prefix_active : bool;
  displayed : option (bytes * bytes);
}.

#[export] Instance eta_TitleOutputFilter : Eta TitleOutputFilter := λ f,
  mkTitleOutputFilter (policy f) (state f) (remote f) (prefix_active f) (displayed f).
#[export] Instance upd_state : Update state := ltac:(solve_update).
#[export] Instance upd_remote : Update remote := ltac:(solve_update).
#[export] Instance upd_prefix_active : Update prefix_active := ltac:(solve_update).
#[export] Instance upd_displayed : Update displayed := ltac:(solve_update).

(** What [Debug] prints: no title. *)
Definition show_policy (p : TitlePolicy) : bytes :=
  match p with PreserveRemote => lit "PreserveRemote" | MoshPrefix => lit "MoshPrefix" end.
Definition show_flag (b : bool) : bytes := if b then lit "true" else lit "false".
Definition TitleOutputFilter_fmt (self : TitleOutputFilter) : bytes :=
  lit "TitleOutputFilter { policy: " ++ show_policy (policy self)
  ++ lit ", remote_title_initialized: " ++ show_flag (initialized (remote self))
  ++ lit ", prefix_active: " ++ show_flag (prefix_active self) ++ lit ", .. }".

Definition filter_new (policy : TitlePolicy) : TitleOutputFilter := {|
  policy := policy;
  state := Ground;
  remote := {| initialized := false; icon := []; window := [] |};
  prefix_active := bool_decide (policy = MoshPrefix);
  displayed := None;
|}.

(** [bytes.starts_with(b"\x1b]")]. *)
Definition introduced_by_escape (l : bytes) : bool := bool_decide (take 2 l = [0x1b; 93]).

Definition osc_command_length (l : bytes) : Z :=
  saturating_sub (len l) (if introduced_by_escape l then 2 else 1).

Definition title_command (l : bytes) : option OscTitleCommand :=
  let offset := if introduced_by_escape l then 2 else 1 in
  match get_from offset l with
  | Some [] | Some [48] => Some IconAndWindow
  | Some [49] => Some Icon
  | Some [50] => Some Window
  | _ => None
  end.

Definition encode_titles (icon window : bytes) : bytes :=
  if bool_decide (icon = window) then [0x1b; 93; 48; 59] ++ window ++ [0x07]
  else [0x1b; 93; 49; 59] ++ icon ++ [0x07; 0x1b; 93; 50; 59] ++ window ++ [0x07].

Definition set_remote_title (command : OscTitleCommand) (title : bytes) (self : TitleOutputFilter)
    : TitleOutputFilter :=
  self <| remote ::= λ r,
    match command with
    | IconAndWindow => mkRemoteTitles true title title
    | Icon => mkRemoteTitles true title (window r)
    | Window => mkRemoteTitles true (icon r) title
    end |>.

(** The titles as they are displayed. *)
Definition shown_window (self : TitleOutputFilter) : bytes :=
  (if prefix_active self then MOSH_TITLE_PREFIX else []) ++ window (remote self).
Definition shown_icon (self : TitleOutputFilter) : bytes :=
  if prefix_active self && bool_decide (icon (remote self) = window (remote self))
  then shown_window self else icon (remote self).

Definition emit_titles (self : TitleOutputFilter) : TitleOutputFilter * bytes :=
  if negb (initialized (remote self)) then (self, [])
  else
    let window := shown_window self in
    let icon := shown_icon self in
    if bool_decide (displayed self = Some (icon, window)) then (self, [])
    else (self <| displayed := Some (icon, window) |>, encode_titles icon window).

(** [0x07 | 0x9c | 0x18 | 0x1a]: the end of an OSC. *)
Definition ends_osc (byte : Z) : bool :=
  (byte =? 0x07) || (byte =? 0x9c) || (byte =? 0x18) || (byte =? 0x1a).

(** One arm of [process_byte] per state: the next state and the bytes written. *)
Definition ground_byte (byte : Z) : TitleFilterState * bytes :=
  if byte =? 0x1b then (Escape, [])
  else if byte =? 0x9d then (OscHeader [byte] false, [])
  else (Ground, [byte]).

Definition escape_byte (byte : Z) : TitleFilterState * bytes :=
  if byte =? 93 then (OscHeader [0x1b; 93] false, [])
  else (Ground, [0x1b; byte]).

Definition header_byte (header : bytes) (escape_pending : bool) (byte : Z)
    : TitleFilterState * bytes :=
  if escape_pending && (byte =? 92) then (Ground, header ++ [0x1b; 92])
  else
    let header := if escape_pending then header ++ [0x1b] else header in
    if ends_osc byte then (Ground, header ++ [byte])
    else if byte =? 0x1b then (OscHeader header true, [])
    else if byte =? 59 then
      match title_command header with
      | Some command => (Title command [] false, [])
      | None => (PassthroughOsc false, header ++ [byte])
      end
    else
      let header := header ++ [byte] in
      if MAX_OSC_COMMAND_BYTES <? osc_command_length header then (PassthroughOsc false, header)
      else (OscHeader header false, []).

Definition passthrough_byte (escape_pending : bool) (byte : Z) : TitleFilterState * bytes :=
  (if escape_pending && (byte =? 92) then Ground
   else if ends_osc byte then Ground
   else if byte =? 0x1b then PassthroughOsc true
   else PassthroughOsc false, [byte]).

Definition discard_byte (escape_pending : bool) (byte : Z) : TitleFilterState * bytes :=
  (if escape_pending && (byte =? 92) then Ground
   else if ends_osc byte then Ground
   else if byte =? 0x1b then DiscardTitle true
   else DiscardTitle false, []).

(** The end of a title control: the title is stored and the titles are emitted. *)
Definition finish_title (command : OscTitleCommand) (title : bytes) (self : TitleOutputFilter)
    : TitleOutputFilter * bytes :=
  emit_titles (set_remote_title command title self).

Definition title_byte (command : OscTitleCommand) (title : bytes) (escape_pending : bool)
    (byte : Z) (self : TitleOutputFilter) : TitleOutputFilter * bytes :=
  if escape_pending && (byte =? 92) then finish_title command title self
  else
    let capacity_reached := escape_pending && negb (len title <? MAX_REMOTE_TITLE_BYTES) in
    let title := if escape_pending && (len title <? MAX_REMOTE_TITLE_BYTES)
                 then title ++ [0x1b] else title in
    if (byte =? 0x07) || (byte =? 0x9c) then finish_title command title self
    else if (byte =? 0x18) || (byte =? 0x1a) then (self, [])
    else if byte =? 0x1b then (self <| state := Title command title true |>, [])
    else if capacity_reached || (len title =? MAX_REMOTE_TITLE_BYTES)
    then (self <| state := DiscardTitle false |>, [])
    else (self <| state := Title command (title ++ [byte]) false |>, []).

(** [process_byte] takes the state out of the filter, leaving [Ground]. *)
Definition process_byte (byte : Z) (self : TitleOutputFilter) : TitleOutputFilter * bytes :=
  let taken := state self in
  let self := self <| state := Ground |> in
  let next '(next, output) := (self <| state := next |>, output) in
  match taken with
  | Ground => next (ground_byte byte)
  | Escape => next (escape_byte byte)
  | OscHeader header escape_pending => next (header_byte header escape_pending byte)
  | Title command title escape_pending => title_byte command title escape_pending byte self
  | PassthroughOsc escape_pending => next (passthrough_byte escape_pending byte)
  | DiscardTitle escape_pending => next (discard_byte escape_pending byte)
  end.

Fixpoint process_bytes (l : bytes) (self : TitleOutputFilter) : TitleOutputFilter * bytes :=
  match l with
  | [] => (self, [])
  | byte :: l =>
      let '(self, output) := process_byte byte self in
      let '(self, rest) := process_bytes l self in (self, output ++ rest)
  end.

Definition process (l : bytes) (self : TitleOutputFilter) : TitleOutputFilter * bytes :=
  if bool_decide (policy self = PreserveRemote) then (self, l) else process_bytes l self.

Definition restore_remote_title (self : TitleOutputFilter) : TitleOutputFilter * bytes :=
  if negb (bool_decide (policy self = MoshPrefix)) || negb (prefix_active self) then (self, [])
  else emit_titles (self <| prefix_active := false |>).

Definition reapply_policy (self : TitleOutputFilter) : TitleOutputFilter * bytes :=
  if negb (bool_decide (policy self = MoshPrefix)) || prefix_active self then (self, [])
  else emit_titles (self <| prefix_active := true |>).

(** ** Runs of the filter *)
Section runs.
Implicit Types self : TitleOutputFilter.

Lemma process_bytes_app a b self :
  process_bytes (a ++ b) self =
  let '(self, x) := process_bytes a self in
  let '(self, y) := process_bytes b self in (self, x ++ y).
Proof.
  revert self. induction a as [|byte a IH]; intros self; cbn [app process_bytes];
    [by destruct (process_bytes b self)|].
  destruct (process_byte byte self) as [s1 x1]. rewrite IH.
  destruct (process_bytes a s1) as [s2 x2]. destruct (process_bytes b s2) as [s3 x3].
  by rewrite app_assoc.
Qed.

Lemma state_twice self s t : (self <| state := s |>) <| state := t |> = self <| state := t |>.
Proof. done. Qed.

Lemma state_same self s : state self = s → self <| state := s |> = self.
Proof. intros <-. by destruct self. Qed.

(** A byte of the text of an OSC. *)
Definition text_byte (b : Z) : Prop := ends_osc b = false ∧ b ≠ 0x1b.

Lemma text_byte_tests b : text_byte b → (b =? 0x1b) = false ∧ ends_osc b = false ∧
  ((b =? 0x07) || (b =? 0x9c)) = false ∧ ((b =? 0x18) || (b =? 0x1a)) = false.
Proof.
  intros [He Hb]. unfold ends_osc in He. apply orb_false_iff in He as [He E4].
  apply orb_false_iff in He as [He E3]. apply orb_false_iff in He as [E1 E2].
  unfold ends_osc. rewrite E1, E2, E3, E4. split_and!; try done. by apply Z.eqb_neq.
Qed.

Lemma introduced_app h l : introduced_by_escape h = true ∨ h = [0x9d] → l ≠ [] →
  introduced_by_escape (h ++ l) = introduced_by_escape h.
Proof.
  unfold introduced_by_escape. intros [Hh| ->] Hl.
  - rewrite Hh. apply bool_decide_eq_true in Hh. apply bool_decide_eq_true.
    destruct h as [|a [|b h]]; [done|done|]. by simpl in *.
  - destruct l as [|x l]; [done|]. rewrite bool_decide_eq_false_2; [|done].
    by rewrite bool_decide_eq_false_2.
Qed.

(** The two introducers of an OSC. *)
Definition is_introducer (intro : bytes) : Prop := intro = [0x1b; 93] ∨ intro = [0x9d].

Lemma osc_command_length_app intro l :
  is_introducer intro → osc_command_length (intro ++ l) = len l.
Proof.
  unfold osc_command_length, introduced_by_escape, saturating_sub. intros [-> | ->].
  - cbn [app]. rewrite bool_decide_eq_true_2 by done. rewrite !len_cons.
    pose proof (len_nonneg l). lia.
  - rewrite bool_decide_eq_false_2 by (by destruct l). cbn [app]. rewrite len_cons.
    pose proof (len_nonneg l). lia.
Qed.

Lemma introducer_run intro self :
  is_introducer intro → state self = Ground →
  process_bytes intro self = (self <| state := OscHeader intro false |>, []).
Proof.
  intros [-> | ->] Hs; cbn [process_bytes]; unfold process_byte; by rewrite Hs.
Qed.

(** The bytes of the command, before any semicolon. *)
Definition command_byte (b : Z) : Prop := text_byte b ∧ b ≠ 59.

Lemma passthrough_run l self :
  Forall text_byte l →
  process_bytes l (self <| state := PassthroughOsc false |>)
  = (self <| state := PassthroughOsc false |>, l).
Proof.
  intros Hl. induction Hl as [|b l Ht Hl IH]; cbn [process_bytes]; [done|].
  destruct (text_byte_tests b Ht) as (E1 & E2 & _).
  assert (Hstep : process_byte b (self <| state := PassthroughOsc false |>)
                  = (self <| state := PassthroughOsc false |>, [b])).
  { unfold process_byte. cbn [state update upd_state]. unfold passthrough_byte. cbn [andb].
    by rewrite E1, E2. }
  by rewrite Hstep, IH.
Qed.

Lemma discard_run l self :
  Forall text_byte l →
  process_bytes l (self <| state := DiscardTitle false |>)
  = (self <| state := DiscardTitle false |>, []).
Proof.
  intros Hl. induction Hl as [|b l Ht Hl IH]; cbn [process_bytes]; [done|].
  destruct (text_byte_tests b Ht) as (E1 & E2 & _).
  assert (Hstep : process_byte b (self <| state := DiscardTitle false |>)
                  = (self <| state := DiscardTitle false |>, [])).
  { unfold process_byte. cbn [state update upd_state]. unfold discard_byte. cbn [andb].
    by rewrite E1, E2. }
  by rewrite Hstep, IH.
Qed.

(** The title is collected up to its bound, and discarded beyond it. *)
Lemma title_run command t l self :
  Forall text_byte l → len t ≤ MAX_REMOTE_TITLE_BYTES →
  process_bytes l (self <| state := Title command t false |>)
  = (self <| state := if len t + len l <=? MAX_REMOTE_TITLE_BYTES
                      then Title command (t ++ l) false else DiscardTitle false |>, []).
Proof.
  intros Hl. revert t. induction Hl as [|b l Ht Hl IH]; intros t Hlen; cbn [process_bytes].
  { rewrite (@len_nil Z), Z.add_0_r, (proj2 (Z.leb_le _ _)), app_nil_r by done. done. }
  destruct (text_byte_tests b Ht) as (E1 & _ & E3 & E4). rewrite len_cons.
  assert (Hstep : process_byte b (self <| state := Title command t false |>)
                  = (self <| state := if len t =? MAX_REMOTE_TITLE_BYTES then DiscardTitle false
                                      else Title command (t ++ [b]) false |>, [])).
  { unfold process_byte. cbn [state update upd_state]. unfold title_byte. cbn [andb].
    rewrite E1, E3, E4. cbn [orb]. by destruct (len t =? MAX_REMOTE_TITLE_BYTES). }
  rewrite Hstep. pose proof (len_nonneg l).
  destruct (Z.eqb_spec (len t) MAX_REMOTE_TITLE_BYTES) as [Hf|Hf].
  - rewrite discard_run by done. by rewrite (proj2 (Z.leb_gt _ _)) by lia.
  - rewrite IH by (rewrite len_app, len_cons, (@len_nil Z); lia).
    rewrite len_app, len_cons, (@len_nil Z), <- app_assoc.
    replace (len t + (1 + 0) + len l) with (len t + (1 + len l)) by lia. done.
Qed.

(** The ways to end an OSC: BEL, C1 ST, or ESC and a backslash; CAN and SUB cancel it. *)
Definition is_terminator (term : bytes) : Prop := term = [0x07] ∨ term = [0x9c] ∨ term = [0x1b; 92].
Definition is_cancel (term : bytes) : Prop := term = [0x18] ∨ term = [0x1a].

Lemma header_end header term self :
  is_terminator term ∨ is_cancel term →
  process_bytes term (self <| state := OscHeader header false |>)
  = (self <| state := Ground |>, header ++ term).
Proof.
  intros [[-> |[-> | ->]]|[-> | ->]]; cbn [process_bytes]; unfold process_byte; cbn;
    by rewrite app_nil_r.
Qed.

Lemma passthrough_end term self :
  is_terminator term ∨ is_cancel term →
  process_bytes term (self <| state := PassthroughOsc false |>) = (self <| state := Ground |>, term).
Proof. by intros [[-> |[-> | ->]]|[-> | ->]]. Qed.

Lemma discard_end term self :
  is_terminator term ∨ is_cancel term →
  process_bytes term (self <| state := DiscardTitle false |>) = (self <| state := Ground |>, []).
Proof. by intros [[-> |[-> | ->]]|[-> | ->]]. Qed.

Lemma title_cancel command t term self :
  is_cancel term →
  process_bytes term (self <| state := Title command t false |>) = (self <| state := Ground |>, []).
Proof. by intros [-> | ->]. Qed.

Lemma title_end command t term self :
  is_terminator term →
  process_bytes term (self <| state := Title command t false |>)
  = finish_title command t (self <| state := Ground |>).
Proof.
  intros [-> |[-> | ->]]; cbn [process_bytes].
  - change (process_byte 7 (self <| state := Title command t false |>))
      with (finish_title command t (self <| state := Ground |>)).
    destruct (finish_title _ _ _). by rewrite app_nil_r.
  - change (process_byte 156 (self <| state := Title command t false |>))
      with (finish_title command t (self <| state := Ground |>)).
    destruct (finish_title _ _ _). by rewrite app_nil_r.
  - change (process_byte 27 (self <| state := Title command t false |>))
      with (self <| state := Title command t true |>, @nil Z). cbv iota beta.
    change (process_byte 92 (self <| state := Title command t true |>))
      with (finish_title command t (self <| state := Ground |>)).
    destruct (finish_title _ _ _). by rewrite app_nil_r.
Qed.

Lemma passthrough_tail text term self :
  Forall text_byte text → is_terminator term ∨ is_cancel term →
  process_bytes (text ++ term) (self <| state := PassthroughOsc false |>)
  = (self <| state := Ground |>, text ++ term).
Proof. intros Ht Hterm. by rewrite process_bytes_app, passthrough_run, passthrough_end. Qed.

(** The specification of an OSC: the text before its first semicolon names the command. *)
Fixpoint split_semicolon (l : bytes) : option (bytes * bytes) :=
  match l with
  | [] => None
  | b :: l => if b =? 59 then Some ([], l) else prod_map (cons b) id <$> split_semicolon l
  end.

Definition osc_command (l : bytes) : option OscTitleCommand :=
  match l with
  | [] | [48] => Some IconAndWindow
  | [49] => Some Icon
  | [50] => Some Window
  | _ => None
  end.

Definition osc_title (text : bytes) : option (OscTitleCommand * bytes) :=
  '(command, title) ← split_semicolon text; command ← osc_command command; Some (command, title).

Lemma title_command_spec intro c : is_introducer intro → title_command (intro ++ c) = osc_command c.
Proof.
  intros Hi. assert (get_from (len intro) (intro ++ c) = Some c) as Hget.
  { apply get_from_Some. rewrite len_app. pose proof (len_nonneg c). split; [lia|].
    unfold len. by rewrite Nat2Z.id, drop_app_length. }
  unfold title_command, introduced_by_escape. destruct Hi as [-> | ->].
  - rewrite bool_decide_eq_true_2 by done. by rewrite (Hget : get_from 2 _ = _).
  - rewrite bool_decide_eq_false_2 by (by destruct c). by rewrite (Hget : get_from 1 _ = _).
Qed.

Lemma osc_command_long c : 1 < len c → osc_command c = None.
Proof.
  destruct c as [|a [|b c]]; rewrite ?len_cons, ?(@len_nil Z); [lia|lia|].
  intros _. unfold osc_command. by repeat case_match.
Qed.

Lemma split_semicolon_app c l :
  Forall command_byte c →
  split_semicolon (c ++ l) = prod_map (app c) id <$> split_semicolon l.
Proof.
  induction 1 as [|b c [_ Hb] Hc IH]; cbn [app split_semicolon].
  { by destruct (split_semicolon l) as [[]|]. }
  rewrite (proj2 (Z.eqb_neq _ _)), IH by done. by destruct (split_semicolon l) as [[]|].
Qed.

(** What an OSC between its introducer and its terminator does: a title is stored and
    shown, or dropped when it is cancelled or too long; any other is copied. *)
Definition run_osc (intro text term : bytes) (self : TitleOutputFilter)
    : TitleOutputFilter * bytes :=
  match osc_title text with
  | Some (command, title) =>
      if bool_decide (is_cancel term) || (MAX_REMOTE_TITLE_BYTES <? len title) then (self, [])
      else finish_title command title self
  | None => (self, intro ++ text ++ term)
  end.

Lemma title_tail command text term self :
  Forall text_byte text → is_terminator term ∨ is_cancel term →
  process_bytes (text ++ term) (self <| state := Title command [] false |>)
  = let self := self <| state := Ground |> in
    if bool_decide (is_cancel term) || (MAX_REMOTE_TITLE_BYTES <? len text) then (self, [])
    else finish_title command text self.
Proof.
  intros Ht Hterm. rewrite process_bytes_app, title_run, Z.leb_antisym, (@len_nil Z), Z.add_0_l by done.
  destruct (Z.ltb_spec MAX_REMOTE_TITLE_BYTES (len text)) as [Hl|Hl]; cbn [negb].
  { rewrite orb_true_r, discard_end by done. done. }
  rewrite orb_false_r. case_bool_decide as Hc; [by rewrite title_cancel|].
  rewrite title_end by naive_solver. by destruct (finish_title _ _ _).
Qed.

Lemma header_semicolon intro c self :
  is_introducer intro →
  process_byte 59 (self <| state := OscHeader (intro ++ c) false |>)
  = match osc_command c with
    | Some command => (self <| state := Title command [] false |>, [])
    | None => (self <| state := PassthroughOsc false |>, intro ++ c ++ [59])
    end.
Proof.
  intros Hi. unfold process_byte. cbn [state update upd_state]. unfold header_byte.
  cbn [andb ends_osc orb Z.eqb Pos.eqb]. rewrite title_command_spec, <- app_assoc by done.
  by destruct (osc_command c).
Qed.

Lemma header_command intro c b self :
  is_introducer intro → command_byte b →
  process_byte b (self <| state := OscHeader (intro ++ c) false |>)
  = if MAX_OSC_COMMAND_BYTES <? len (c ++ [b])
    then (self <| state := PassthroughOsc false |>, intro ++ c ++ [b])
    else (self <| state := OscHeader (intro ++ c ++ [b]) false |>, []).
Proof.
  intros Hi [Ht H59]. destruct (text_byte_tests b Ht) as (E1 & E2 & _). apply Z.eqb_neq in H59.
  unfold process_byte. cbn [state update upd_state]. unfold header_byte. cbn [andb].
  rewrite E1, E2, H59, <- app_assoc, osc_command_length_app by done.
  by destruct (MAX_OSC_COMMAND_BYTES <? len (c ++ [b])).
Qed.

Lemma osc_title_prefix c l :
  Forall command_byte c → MAX_OSC_COMMAND_BYTES < len c → osc_title (c ++ l) = None.
Proof.
  intros Hc Hlen. unfold osc_title. rewrite split_semicolon_app by done.
  destruct (split_semicolon l) as [[d t]|]; [|done]. cbn. rewrite osc_command_long; [done|].
  rewrite len_app. pose proof (len_nonneg d). unfold MAX_OSC_COMMAND_BYTES in Hlen. lia.
Qed.

Lemma osc_title_semicolon c l :
  Forall command_byte c →
  osc_title (c ++ 59 :: l) = command ← osc_command c; Some (command, l).
Proof.
  intros Hc. unfold osc_title. rewrite split_semicolon_app by done. cbn. by rewrite app_nil_r.
Qed.

Lemma header_tail intro text c term self :
  is_introducer intro → Forall command_byte c → len c ≤ MAX_OSC_COMMAND_BYTES →
  Forall text_byte text → is_terminator term ∨ is_cancel term →
  process_bytes (text ++ term) (self <| state := OscHeader (intro ++ c) false |>)
  = run_osc intro (c ++ text) term (self <| state := Ground |>).
Proof.
  intros Hi Hc Hlen Ht Hterm. revert c Hc Hlen.
  induction Ht as [|b text Hb Ht IH]; intros c Hc Hlen; cbn [app process_bytes].
  { rewrite header_end by done. unfold run_osc, osc_title.
    rewrite split_semicolon_app by done. cbn. by rewrite app_nil_r, <- app_assoc. }
  destruct (decide (b = 59)) as [->|H59].
  { rewrite header_semicolon by done. unfold run_osc. rewrite osc_title_semicolon by done.
    destruct (osc_command c) as [command|]; cbn [mbind option_bind].
    - rewrite title_tail by done. cbn zeta. destruct (bool_decide (is_cancel term) || _); [done|].
      by destruct (finish_title _ _ _).
    - rewrite passthrough_tail by done. by rewrite <- !app_assoc. }
  assert (Hcb : Forall command_byte (c ++ [b])) by (apply Forall_app; split; [done|]; by apply Forall_singleton).
  rewrite header_command by done. replace (c ++ b :: text) with ((c ++ [b]) ++ text)
    by (by rewrite <- app_assoc).
  destruct (Z.ltb_spec MAX_OSC_COMMAND_BYTES (len (c ++ [b]))) as [Hl|Hl].
  - rewrite passthrough_tail by done. unfold run_osc. rewrite osc_title_prefix by done.
    by rewrite <- !app_assoc.
  - rewrite IH by done. by destruct (run_osc _ _ _ _).
Qed.

(** ** The refinement of the token specification *)

(** The output of a terminal program as the filter reads it. *)
Inductive token :=
| Plain (b : Z)
| EscapePair (b : Z)
| Osc (intro text term : bytes).

Definition token_wf (t : token) : Prop :=
  match t with
  | Plain b => b ≠ 0x1b ∧ b ≠ 0x9d
  | EscapePair b => b ≠ 93
  | Osc intro text term =>
      is_introducer intro ∧ Forall text_byte text ∧ (is_terminator term ∨ is_cancel term)
  end.

Definition render (t : token) : bytes :=
  match t with
  | Plain b => [b]
  | EscapePair b => [0x1b; b]
  | Osc intro text term => intro ++ text ++ term
  end.

Definition run_token (t : token) (self : TitleOutputFilter) : TitleOutputFilter * bytes :=
  match t with
  | Plain b => (self, [b])
  | EscapePair b => (self, [0x1b; b])
  | Osc intro text term => run_osc intro text term self
  end.

Fixpoint run_tokens (l : list token) (self : TitleOutputFilter) : TitleOutputFilter * bytes :=
  match l with
  | [] => (self, [])
  | t :: l =>
      let '(self, output) := run_token t self in
      let '(self, rest) := run_tokens l self in (self, output ++ rest)
  end.

(** One fragment of the output after the other. *)
Fixpoint process_all (fragments : list bytes) (self : TitleOutputFilter)
    : TitleOutputFilter * bytes :=
  match fragments with
  | [] => (self, [])
  | l :: fragments =>
      let '(self, output) := process l self in
      let '(self, rest) := process_all fragments self in (self, output ++ rest)
  end.

Lemma emit_titles_keeps self :
  state (emit_titles self).1 = state self ∧ policy (emit_titles self).1 = policy self ∧
  prefix_active (emit_titles self).1 = prefix_active self ∧
  remote (emit_titles self).1 = remote self.
Proof. unfold emit_titles. by repeat case_match. Qed.

Lemma run_osc_state intro text term self : state (run_osc intro text term self).1 = state self.
Proof.
  unfold run_osc. repeat case_match; try done. unfold finish_title.
  by rewrite (proj1 (emit_titles_keeps _)).
Qed.

Lemma run_token_state t self : state (run_token t self).1 = state self.
Proof. destruct t; [done..|]. apply run_osc_state. Qed.

Lemma process_byte_policy b self : policy (process_byte b self).1 = policy self.
Proof.
  assert (Hf : ∀ c t self, policy (finish_title c t self).1 = policy self).
  { intros c t f. unfold finish_title. by rewrite (proj1 (proj2 (emit_titles_keeps _))). }
  unfold process_byte. destruct (state self) as [| |h e|c t e|e|e]; cbn zeta.
  - by destruct (ground_byte b).
  - by destruct (escape_byte b).
  - by destruct (header_byte h e b).
  - unfold title_byte. cbn zeta.
    destruct (e && (b =? 92)); [by rewrite Hf|].
    destruct ((b =? 0x07) || _); [by rewrite Hf|].
    destruct ((b =? 0x18) || _); [done|]. destruct (b =? 0x1b); [done|].
    by destruct (_ || _).
  - by destruct (passthrough_byte e b).
  - by destruct (discard_byte e b).
Qed.

Lemma process_bytes_policy l self : policy (process_bytes l self).1 = policy self.
Proof.
  revert self. induction l as [|b l IH]; intros self; cbn [process_bytes]; [done|].
  pose proof (process_byte_policy b self) as Hb. destruct (process_byte b self) as [s o].
  pose proof (IH s) as Hs. destruct (process_bytes l s). simpl in *. congruence.
Qed.

Lemma process_all_bytes fragments self :
  policy self = MoshPrefix → process_all fragments self = process_bytes (mjoin fragments) self.
Proof.
  revert self. induction fragments as [|l fragments IH]; intros self Hp; [done|].
  cbn [process_all]. rewrite mjoin_cons, process_bytes_app. unfold process.
  rewrite bool_decide_eq_false_2 by (by rewrite Hp).
  pose proof (process_bytes_policy l self) as Hl. destruct (process_bytes l self) as [s o].
  simpl in Hl. by rewrite IH by congruence.
Qed.

Lemma process_token t self :
  token_wf t → state self = Ground → process_bytes (render t) self = run_token t self.
Proof.
  intros Ht Hs. destruct t as [b|b|intro text term]; simpl in Ht.
  - destruct Ht as [H1 H2]. apply Z.eqb_neq in H1, H2. cbn [render process_bytes run_token].
    unfold process_byte. rewrite Hs. unfold ground_byte. rewrite H1, H2.
    cbv beta iota zeta. by rewrite state_twice, state_same.
  - apply Z.eqb_neq in Ht. cbn [render process_bytes run_token].
    assert (process_byte 0x1b self = (self <| state := Escape |>, [])) as ->.
    { unfold process_byte. by rewrite Hs. }
    assert (process_byte b (self <| state := Escape |>) = (self, [0x1b; b])) as ->; [|done].
    unfold process_byte. cbn [state update upd_state]. unfold escape_byte. rewrite Ht.
    destruct self. simpl in *. by subst.
  - destruct Ht as (Hi & Ht & Hterm). cbn [render run_token].
    rewrite process_bytes_app, introducer_run by done.
    pose proof (header_tail intro text [] term self) as Htail. rewrite app_nil_r in Htail.
    rewrite Htail, state_same by done. cbn [app].
    by destruct (run_osc intro text term self).
Qed.
End runs.

(** C29: On output that is a sequence of plain bytes, escape pairs and OSC controls, the
    filter copies every byte that is not a title control unchanged and in order, stores
    and re-emits the titles (dropping cancelled and oversized ones), ends in the ground
    state, and its result depends only on the bytes: not on how the output is cut into
    fragments, in the middle of a control or not. *)
Theorem title_filter_refines_tokens toks fragments self :
  policy self = MoshPrefix → state self = Ground → Forall token_wf toks →
  mjoin fragments = mjoin (render <$> toks) →
  process_all fragments self = run_tokens toks self.
Proof.
  intros Hp Hs Hw Hj. rewrite process_all_bytes, Hj by done. clear Hj Hp.
  revert self Hs. induction Hw as [|t toks Ht Hw IH]; intros self Hs; [done|].
  rewrite fmap_cons, mjoin_cons, process_bytes_app, process_token by done. cbn [run_tokens].
  pose proof (run_token_state t self) as Hst. destruct (run_token t self) as [s o].
  by rewrite IH by (simpl in Hst; congruence).
Qed.

(** ** Bounds on what the filter retains *)
Section bounds.
Implicit Types self : TitleOutputFilter.

(** The ESC bytes of the input: an OSC header keeps each of them. *)
Definition escapes (l : bytes) : Z := len (filter (λ b, b = 0x1b) l).

Lemma escapes_cons b l : escapes (b :: l) = (if b =? 0x1b then 1 else 0) + escapes l.
Proof.
  unfold escapes. rewrite filter_cons. destruct (Z.eqb_spec b 0x1b), (decide (b = 0x1b)); try done.
  by rewrite len_cons.
Qed.

Definition state_bounded (n : Z) (s : TitleFilterState) : Prop :=
  match s with
  | OscHeader header pending => len header + (if pending then 1 else 0) ≤ 2 + MAX_OSC_COMMAND_BYTES + n
  | Title _ title _ => len title ≤ MAX_REMOTE_TITLE_BYTES
  | _ => True
  end.

Definition filter_bounded (n : Z) self : Prop :=
  len (icon (remote self)) ≤ MAX_REMOTE_TITLE_BYTES ∧
  len (window (remote self)) ≤ MAX_REMOTE_TITLE_BYTES ∧ state_bounded n (state self).

Lemma osc_command_length_bound l : len l ≤ osc_command_length l + 2.
Proof. unfold osc_command_length, saturating_sub. destruct (introduced_by_escape l); lia. Qed.

Lemma header_byte_bounded n header pending byte :
  0 ≤ n → state_bounded n (OscHeader header pending) →
  state_bounded (n + if byte =? 0x1b then 1 else 0) (header_byte header pending byte).1.
Proof.
  intros Hn Hb. simpl in Hb. unfold header_byte.
  destruct (pending && (byte =? 92)); [done|]. cbn zeta.
  assert (len (if pending then header ++ [0x1b] else header) ≤ 2 + MAX_OSC_COMMAND_BYTES + n).
  { destruct pending; [rewrite len_app, len_cons, (@len_nil Z)|]; lia. }
  generalize dependent (if pending then header ++ [0x1b] else header). intros h Hh.
  destruct (ends_osc byte); [done|]. destruct (byte =? 0x1b); [simpl; lia|].
  destruct (byte =? 59).
  { destruct (title_command h); simpl; [by rewrite (@len_nil Z)|done]. }
  destruct (Z.ltb_spec MAX_OSC_COMMAND_BYTES (osc_command_length (h ++ [byte]))); [done|].
  pose proof (osc_command_length_bound (h ++ [byte])). simpl. lia.
Qed.

Lemma finish_title_bounded n c t self :
  filter_bounded n self → state self = Ground → len t ≤ MAX_REMOTE_TITLE_BYTES →
  filter_bounded n (finish_title c t self).1.
Proof.
  intros (Hi & Hw & Hs) Hg Ht. unfold filter_bounded, finish_title.
  destruct (emit_titles_keeps (set_remote_title c t self)) as (-> & _ & _ & ->).
  unfold set_remote_title. cbn. rewrite Hg. by destruct c.
Qed.

Lemma title_byte_bounded n c t pending byte self :
  filter_bounded n self → state self = Ground → len t ≤ MAX_REMOTE_TITLE_BYTES →
  filter_bounded n (title_byte c t pending byte self).1.
Proof.
  intros Hf Hg Ht. unfold title_byte.
  destruct (pending && (byte =? 92)); [by apply finish_title_bounded|]. cbn zeta.
  assert (Ht' : len (if pending && (len t <? MAX_REMOTE_TITLE_BYTES) then t ++ [0x1b] else t)
                ≤ MAX_REMOTE_TITLE_BYTES).
  { destruct (Z.ltb_spec (len t) MAX_REMOTE_TITLE_BYTES), pending; cbn [andb]; try done.
    rewrite len_app, len_cons, (@len_nil Z). lia. }
  generalize dependent (if pending && (len t <? MAX_REMOTE_TITLE_BYTES) then t ++ [0x1b] else t).
  intros u Hu. destruct ((byte =? 0x07) || (byte =? 0x9c)); [by apply finish_title_bounded|].
  destruct ((byte =? 0x18) || (byte =? 0x1a)); [done|]. destruct Hf as (Hi & Hw & _).
  destruct (byte =? 0x1b); [done|].
  destruct (pending && negb (len t <? MAX_REMOTE_TITLE_BYTES)); [done|]. cbn [orb].
  destruct (Z.eqb_spec (len u) MAX_REMOTE_TITLE_BYTES); [done|].
  split_and!; [done..|]. cbn. rewrite len_app, len_cons, (@len_nil Z). lia.
Qed.

Lemma process_byte_bounded n b self :
  0 ≤ n → filter_bounded n self →
  filter_bounded (n + if b =? 0x1b then 1 else 0) (process_byte b self).1.
Proof.
  intros Hn Hf. pose proof Hf as (Hi & Hw & Hs). unfold process_byte. destruct (state self) as [| |h e|c t e|e|e].
  - unfold ground_byte. destruct (b =? 0x1b); [done|]. destruct (b =? 0x9d); [|done].
    split_and!; [done..|]. cbn. rewrite len_cons, (@len_nil Z). unfold MAX_OSC_COMMAND_BYTES. lia.
  - unfold escape_byte. destruct (b =? 93); [|done].
    split_and!; [done..|]. cbn. rewrite !len_cons, (@len_nil Z). unfold MAX_OSC_COMMAND_BYTES.
    destruct (b =? 0x1b); lia.
  - pose proof (header_byte_bounded n h e b Hn Hs) as Hb. by destruct (header_byte h e b).
  - cbn [state_bounded] in Hs. assert (Hg : filter_bounded (n + if b =? 0x1b then 1 else 0) (self <| state := Ground |>)) by done.
    by apply title_byte_bounded.
  - unfold passthrough_byte. by repeat case_match.
  - unfold discard_byte. by repeat case_match.
Qed.

Lemma process_bytes_bounded n l self :
  0 ≤ n → filter_bounded n self → filter_bounded (n + escapes l) (process_bytes l self).1.
Proof.
  revert n self. induction l as [|b l IH]; intros n self Hn Hf; cbn [process_bytes].
  { unfold escapes. cbn. by rewrite (@len_nil Z), Z.add_0_r. }
  pose proof (process_byte_bounded n b self Hn Hf) as Hb. destruct (process_byte b self) as [s o].
  apply IH in Hb; [|destruct (b =? 0x1b); lia]. rewrite escapes_cons, Z.add_assoc.
  revert Hb. cbn [fst]. by destruct (process_bytes l s).
Qed.
End bounds.

(** C30: Whatever bytes arrive in whatever fragments, the titles the filter keeps never
    exceed 1024 bytes, and an OSC header exceeds its 18 bytes by at most the number of ESC
    bytes received; that excess is real, an unbroken run of ESC is kept whole. *)
Theorem title_filter_bounded self n l :
  0 ≤ n → filter_bounded n self →
  filter_bounded (n + escapes l) (process l self).1 ∧
  ∀ header k, process_bytes (replicate k 0x1b) (self <| state := OscHeader header true |>)
              = (self <| state := OscHeader (header ++ replicate k 0x1b) true |>, []).
Proof.
  intros Hn Hf. split.
  - unfold process. case_bool_decide; [|by apply process_bytes_bounded].
    destruct Hf as (Hi & Hw & Hs). split_and!; [done..|]. cbn [fst].
    assert (0 ≤ escapes l) by apply len_nonneg.
    destruct (state self) as [| |h e|c t e|e|e]; cbn [state_bounded] in *; done || lia.
  - intros header k. revert header. induction k as [|k IH]; intros header.
    { cbn [replicate process_bytes]. by rewrite app_nil_r. }
    cbn [replicate process_bytes].
    change (process_byte 27 (self <| state := OscHeader header true |>))
      with (self <| state := OscHeader (header ++ [0x1b]) true |>, @nil Z).
    cbv iota beta. by rewrite IH, <- app_assoc.
Qed.

Lemma title_filter_bounded_witness :
  filter_bounded (0 + escapes [0x1b; 93; 48; 59; 97; 7])
    (process [0x1b; 93; 48; 59; 97; 7] (filter_new MoshPrefix)).1.
Proof.
  refine (proj1 (title_filter_bounded (filter_new MoshPrefix) 0 _ _ _)); [lia|].
  split_and!; vm_compute; done.
Defined.

(** ** The titles on display *)

(** The calls of a host. *)
Inductive title_call := Process (l : bytes) | RestoreTitle | ReapplyPolicy.

Definition call_filter (c : title_call) (self : TitleOutputFilter) : TitleOutputFilter * bytes :=
  match c with
  | Process l => process l self
  | RestoreTitle => restore_remote_title self
  | ReapplyPolicy => reapply_policy self
  end.

Definition run_calls (cs : list title_call) (self : TitleOutputFilter) : TitleOutputFilter :=
  fold_left (λ f c, (call_filter c f).1) cs self.

Section displayed.
Implicit Types self : TitleOutputFilter.

(** The last titles sent to the terminal are the ones the filter stands for. *)
Definition display_current self : Prop :=
  displayed self = (if initialized (remote self) then Some (shown_icon self, shown_window self)
                    else None).

Lemma emit_titles_current self :
  (initialized (remote self) = false → displayed self = None) →
  display_current (emit_titles self).1.
Proof.
  unfold emit_titles, display_current. intros Hd.
  destruct self as [p s [i ic w] b d]. cbn in *. destruct i; cbn; [|by apply Hd].
  case_bool_decide as Hb; by cbn.
Qed.

Lemma finish_title_current c t self : display_current (finish_title c t self).1.
Proof. apply emit_titles_current. by destruct c. Qed.

Lemma process_byte_current b self : display_current self → display_current (process_byte b self).1.
Proof.
  intros Hd. unfold process_byte. destruct (state self) as [| |h e|c t e|e|e]; cbn zeta.
  - by destruct (ground_byte b).
  - by destruct (escape_byte b).
  - by destruct (header_byte h e b).
  - unfold title_byte. cbn zeta.
    destruct (e && (b =? 92)); [apply finish_title_current|].
    destruct ((b =? 0x07) || _); [apply finish_title_current|].
    destruct ((b =? 0x18) || _); [done|]. destruct (b =? 0x1b); [done|].
    by destruct (_ || _).
  - by destruct (passthrough_byte e b).
  - by destruct (discard_byte e b).
Qed.

Lemma process_bytes_current l self :
  display_current self → display_current (process_bytes l self).1.
Proof.
  revert self. induction l as [|b l IH]; intros self Hd; cbn [process_bytes]; [done|].
  apply (process_byte_current b) in Hd. destruct (process_byte b self) as [s o].
  apply IH in Hd. cbn [fst] in Hd. revert Hd. by destruct (process_bytes l s).
Qed.

Lemma display_uninitialized self :
  display_current self → initialized (remote self) = false → displayed self = None.
Proof. unfold display_current. by intros -> ->. Qed.

Lemma call_filter_current c self :
  policy self = MoshPrefix → display_current self →
  policy (call_filter c self).1 = MoshPrefix ∧ display_current (call_filter c self).1.
Proof.
  intros Hp Hd. pose proof (display_uninitialized self Hd) as Hu. destruct c as [l| |]; simpl.
  - unfold process. rewrite bool_decide_eq_false_2 by (by rewrite Hp).
    rewrite process_bytes_policy. auto using process_bytes_current.
  - unfold restore_remote_title. destruct (_ || negb (prefix_active self)); [done|].
    rewrite (proj1 (proj2 (emit_titles_keeps _))). split; [done|]. by apply emit_titles_current.
  - unfold reapply_policy. destruct (_ || prefix_active self); [done|].
    rewrite (proj1 (proj2 (emit_titles_keeps _))). split; [done|]. by apply emit_titles_current.
Qed.

Lemma run_calls_current cs self :
  policy self = MoshPrefix → display_current self →
  policy (run_calls cs self) = MoshPrefix ∧ display_current (run_calls cs self).
Proof.
  revert self. induction cs as [|c cs IH]; intros self Hp Hd; [done|].
  destruct (call_filter_current c self Hp Hd). by apply IH.
Qed.

Lemma emit_titles_toggle self b :
  display_current self → prefix_active self ≠ b →
  let other := self <| prefix_active := b |> in
  emit_titles other
  = if initialized (remote self)
    then (other <| displayed := Some (shown_icon other, shown_window other) |>,
          encode_titles (shown_icon other) (shown_window other))
    else (other, []).
Proof.
  intros Hd Hb other. unfold emit_titles, display_current in *.
  change (remote other) with (remote self). change (displayed other) with (displayed self).
  rewrite Hd. destruct (initialized (remote self)); cbn [negb]; [|done].
  rewrite bool_decide_eq_false_2; [done|]. intros [= _ Hw]. revert Hw.
  unfold shown_window. cbn. destruct (prefix_active self), b; try done.
  - intros Hw. apply (f_equal length) in Hw. cbn in Hw. rewrite ?app_length in Hw. simpl in Hw. lia.
  - intros Hw. apply (f_equal length) in Hw. cbn in Hw. rewrite ?app_length in Hw. simpl in Hw. lia.
Qed.

(** The filter with its prefix switched, and what the switch sends. *)
Definition toggled (b : bool) self : TitleOutputFilter :=
  let other := self <| prefix_active := b |> in
  if initialized (remote self)
  then other <| displayed := Some (shown_icon other, shown_window other) |> else other.
Definition toggle_output (b : bool) self : bytes :=
  let other := self <| prefix_active := b |> in
  if initialized (remote self)
  then encode_titles (shown_icon other) (shown_window other) else [].

Lemma restore_spec self :
  policy self = MoshPrefix → prefix_active self = true → display_current self →
  restore_remote_title self = (toggled false self, toggle_output false self).
Proof.
  intros Hp Hpre Hd. unfold restore_remote_title. rewrite Hp, Hpre.
  rewrite bool_decide_eq_true_2 by done. cbn [negb orb].
  rewrite emit_titles_toggle by congruence. unfold toggled, toggle_output.
  by destruct (initialized (remote self)).
Qed.

Lemma reapply_spec self :
  policy self = MoshPrefix → prefix_active self = false → display_current self →
  reapply_policy self = (toggled true self, toggle_output true self).
Proof.
  intros Hp Hpre Hd. unfold reapply_policy. rewrite Hp, Hpre.
  rewrite bool_decide_eq_true_2 by done. cbn [negb orb].
  rewrite emit_titles_toggle by congruence. unfold toggled, toggle_output.
  by destruct (initialized (remote self)).
Qed.

Lemma toggled_keeps b self :
  policy (toggled b self) = policy self ∧ prefix_active (toggled b self) = b.
Proof. unfold toggled. by destruct (initialized (remote self)). Qed.
End displayed.

#[local] Opaque MOSH_TITLE_PREFIX.

(** C31: After any calls to a filter that prefixes titles, giving the terminal back and
    taking it again is a round trip: restoring sends exactly the titles the server set,
    without the prefix and as the server last set them, a second restore sends nothing,
    and reapplying sends the prefixed titles and returns the filter to the state it was
    in before. *)
Theorem restored_titles_round_trip cs self :
  self = run_calls cs (filter_new MoshPrefix) → prefix_active self = true →
  let '(restored, unprefixed) := restore_remote_title self in
  let '(reapplied, prefixed) := reapply_policy restored in
  unprefixed = (if initialized (remote self)
                then encode_titles (icon (remote self)) (window (remote self)) else []) ∧
  restore_remote_title restored = (restored, []) ∧
  prefixed = (if initialized (remote self)
              then encode_titles (shown_icon self) (MOSH_TITLE_PREFIX ++ window (remote self))
              else []) ∧
  reapplied = self.
Proof.
  intros -> Hpre. destruct (run_calls_current cs (filter_new MoshPrefix)) as [Hp Hd]; [done..|].
  generalize dependent (run_calls cs (filter_new MoshPrefix)). intros f Hpre Hp Hd.
  destruct (call_filter_current RestoreTitle f Hp Hd) as [_ Hr]. cbn [call_filter] in Hr.
  rewrite restore_spec in * by done. cbn [fst] in Hr. rewrite reapply_spec by (done || apply toggled_keeps || by rewrite (proj1 (toggled_keeps _ _))).
  destruct f as [p s [i ic w] b d]. unfold display_current, shown_icon in Hd.
  cbn in Hp, Hpre, Hd. subst. unfold restore_remote_title. destruct i; split_and!; done.
Qed.

Definition demo_title_calls : list title_call :=
  [Process (lit "x" ++ [0x1b; 93; 49; 59; 105; 7]); Process [0x1b; 93; 50; 59; 119; 7];
   RestoreTitle; ReapplyPolicy].

Lemma restored_titles_round_trip_witness :
  let '(restored, unprefixed) :=
    restore_remote_title (run_calls demo_title_calls (filter_new MoshPrefix)) in
  unprefixed = [0x1b; 93; 49; 59; 105; 7; 0x1b; 93; 50; 59; 119; 7] ∧
  restore_remote_title restored = (restored, []).
Proof.
  pose proof (restored_titles_round_trip demo_title_calls
    (run_calls demo_title_calls (filter_new MoshPrefix)) eq_refl eq_refl) as H.
  destruct (restore_remote_title _) as [r u]. destruct (reapply_policy r) as [r' u'].
  destruct H as (-> & Hr & _). exact (conj eq_refl Hr).
Defined.

Definition demo_tokens : list token :=
  [Plain 97; Osc [0x1b; 93] (lit "0;ti") [7]; EscapePair 91; Osc [0x9d] (lit "7;x") [0x1b; 92]].

Lemma title_filter_refines_tokens_witness :
  process_all [[97; 0x1b]; [93; 48; 59; 116]; [105; 7; 0x1b; 91; 0x9d; 55; 59; 120; 0x1b]; [92]]
    (filter_new MoshPrefix)
  = run_tokens demo_tokens (filter_new MoshPrefix).
Proof.
  apply title_filter_refines_tokens; [done|done| |vm_compute; reflexivity].
  repeat (apply Forall_cons; split); [| | | |apply Forall_nil; done]; cbn;
    split_and?; try done; try (by left); try (by right);
    repeat (apply Forall_cons; split); try done; try (left; unfold is_terminator; naive_solver).
Defined.

(** A UTF-8 continuation byte that equals the C1 OSC introducer starts a control: the
    letter U+00DD (bytes C3 9D) in the output holds back everything after it. *)
Example c1_introducer_in_utf8 :
  (process ([0xc3; 0x9d] ++ lit "text") (filter_new MoshPrefix)).2 = [0xc3].
Proof. vm_compute. reflexivity. Qed.

(** An OSC after a doubled ESC is not recognised: the title goes out unprefixed. *)
Example doubled_escape_bypasses_prefix :
  (process ([0x1b; 0x1b; 93] ++ lit "0;x" ++ [7]) (filter_new MoshPrefix)).2
  = [0x1b; 0x1b; 93] ++ lit "0;x" ++ [7].
Proof. vm_compute. reflexivity. Qed.
