(* ===== verification/Input.v ===== *)
(** * Local input

    The model of the input half of [crates/ferrumtty-terminal/src/lib.rs]: the local
    command prefix ([EscapeInterpreter]) and the translation of the events of the local
    terminal (keys, mouse, paste, focus) to the bytes a remote application expects. The
    events are the ones crossterm reports; only what the code reads of them is kept. *)
From S2P Require Import Prelude Message Utf8 Decimal.
Local Open Scope Z_scope.

(** ** Events of the local terminal *)

(** The modifiers [KeyModifiers] that the code tests. *)
Record KeyModifiers := mkKeyModifiers { SHIFT : bool; ALT : bool; CONTROL : bool }.

Module KeyCode.
Inductive t :=
| Char (character : Z)
  | Enter | Backspace | Tab | BackTab | Esc
  | Up | Down | Right | Left | Home | End_ | PageUp | PageDown | Insert | Delete
  | F (number : Z)
  | Other.
End KeyCode.

Record KeyEvent := mkKeyEvent { code : KeyCode.t; key_modifiers : KeyModifiers }.

Module MouseButton.
Inductive t := Left | Middle | Right.
End MouseButton.

Module MouseEventKind.
Inductive t :=
  | Down (button : MouseButton.t)
  | Up (button : MouseButton.t)
  | Drag (button : MouseButton.t)
  | Moved | ScrollUp | ScrollDown | ScrollLeft | ScrollRight.
End MouseEventKind.

Record MouseEvent := mkMouseEvent {
  mouse_kind : MouseEventKind.t;
  column : Z;
  row : Z;
  mouse_modifiers : KeyModifiers;
}.

#[export] Instance KeyModifiers_eq_dec : EqDecision KeyModifiers.
Proof. solve_decision. Defined.
#[export] Instance KeyCode_eq_dec : EqDecision KeyCode.t.
Proof. solve_decision. Defined.
#[export] Instance KeyEvent_eq_dec : EqDecision KeyEvent.
Proof. solve_decision. Defined.
#[export] Instance MouseButton_eq_dec : EqDecision MouseButton.t.
Proof. solve_decision. Defined.
#[export] Instance MouseEventKind_eq_dec : EqDecision MouseEventKind.t.
Proof. solve_decision. Defined.

(** ** The local command prefix *)
Definition DEFAULT_ESCAPE_BYTE : Z := 0x1e.

Inductive EscapeAction :=
| Hold
| Forward (value : bytes)
| Help
| Quit
| Suspend.

#[export] Instance EscapeAction_eq_dec : EqDecision EscapeAction.
Proof. solve_decision. Defined.

(** What [Debug] prints: the length of the forwarded bytes, not the bytes. *)
Definition EscapeAction_fmt (self : EscapeAction) : bytes :=
  match self with
  | Hold => lit "Hold"
  | Forward value => lit "Forward { bytes: " ++ decimal (len value) ++ lit " }"
  | Help => lit "Help"
  | Quit => lit "Quit"
  | Suspend => lit "Suspend"
  end.

Record EscapeInterpreter := mkEscapeInterpreter {
  escape_byte : Z;
  prefix_held : bool;
  at_line_start : bool;
}.

#[export] Instance eta_EscapeInterpreter : Eta EscapeInterpreter := λ e,
  mkEscapeInterpreter (escape_byte e) (prefix_held e) (at_line_start e).
#[export] Instance upd_prefix_held : Update prefix_held := ltac:(solve_update).
#[export] Instance upd_at_line_start : Update at_line_start := ltac:(solve_update).

Definition escape_new (escape_byte : Z) : EscapeInterpreter :=
  {| escape_byte := escape_byte; prefix_held := false; at_line_start := true |}.
Definition escape_default : EscapeInterpreter := escape_new DEFAULT_ESCAPE_BYTE.

Definition literal_escape_suffix (self : EscapeInterpreter) : Z :=
  let e := escape_byte self in
  if (1 <=? e) && (e <=? 31) then e + 64 else if e =? 127 then 63 else e.

Definition ends_line (l : bytes) : bool :=
  is_some_and (λ byte, (byte =? 13) || (byte =? 10)) (last l).

Definition forward (l : bytes) (self : EscapeInterpreter) : EscapeInterpreter * EscapeAction :=
  (self <| at_line_start := ends_line l |>, Forward l).

Definition printable_escape (self : EscapeInterpreter) : bool :=
  is_ascii_graphic (escape_byte self) || (escape_byte self =? 32).

Definition input (l : bytes) (self : EscapeInterpreter) : EscapeInterpreter * EscapeAction :=
  if negb (prefix_held self) then
    if bool_decide (l = [escape_byte self])
       && (negb (printable_escape self) || at_line_start self)
    then (self <| prefix_held := true |>, Hold)
    else forward l self
  else
    let self := self <| prefix_held := false |> in
    if bool_decide (l = [46]) then (self, Quit)
    else if bool_decide (l = [63]) then (self, Help)
    else if bool_decide (l = [0x1a]) then (self, Suspend)
    else if bool_decide (l = [literal_escape_suffix self]) then forward [escape_byte self] self
    else forward (escape_byte self :: l) self.

Definition flush (self : EscapeInterpreter) : EscapeInterpreter * option bytes :=
  if prefix_held self
  then (self <| prefix_held := false |> <| at_line_start := false |>, Some [escape_byte self])
  else (self, None).

(** ** Keys *)
Definition CSI_MODIFIER_BASE : Z := 1.
Definition SHIFT_MODIFIER_VALUE : Z := 1.
Definition ALT_MODIFIER_VALUE : Z := 2.
Definition CONTROL_MODIFIER_VALUE : Z := 4.

Inductive CursorKeyMode := Normal | Application.

#[export] Instance CursorKeyMode_eq_dec : EqDecision CursorKeyMode.
Proof. solve_decision. Defined.

Definition key_modifier_parameter (modifiers : KeyModifiers) : option Z :=
  let modifier_value := Z.b2z (SHIFT modifiers) * SHIFT_MODIFIER_VALUE
    + Z.b2z (ALT modifiers) * ALT_MODIFIER_VALUE
    + Z.b2z (CONTROL modifiers) * CONTROL_MODIFIER_VALUE in
  if negb (modifier_value =? 0) then Some (CSI_MODIFIER_BASE + modifier_value) else None.

(** [format!("\x1b[1;{parameter}{}", char::from(final_byte))]. *)
Definition csi_modified (parameter final_byte : Z) : bytes :=
  [0x1b] ++ lit "[1;" ++ decimal parameter ++ [final_byte].

Definition encode_cursor_key (final_byte : Z) (modifiers : KeyModifiers)
    (cursor_key_mode : CursorKeyMode) : bytes :=
  match key_modifier_parameter modifiers with
  | Some modifier_parameter => csi_modified modifier_parameter final_byte
  | None =>
      let introducer := match cursor_key_mode with Normal => 91 | Application => 79 end in
      [0x1b; introducer; final_byte]
  end.

Definition encode_control (character : Z) : option Z :=
  if (64 <=? character) && (character <=? 95) then Some (character - 64)
  else if (97 <=? character) && (character <=? 122) then Some (character - 97 + 1)
  else match character with
  | 50 => Some 0x00
  | 51 => Some 0x1b
  | 52 => Some 0x1c
  | 53 => Some 0x1d
  | 54 => Some 0x1e
  | 55 => Some 0x1f
  | 56 | 63 => Some 0x7f
  | _ => None
  end.

(** The parameter of the keys F5 to F12. *)
Definition function_key_parameter (number : Z) : Z :=
  match number with
  | 5 => 15 | 6 => 17 | 7 => 18 | 8 => 19 | 9 => 20 | 10 => 21 | 11 => 23 | _ => 24
  end.

Definition encode_function_key (number : Z) (modifiers : KeyModifiers) : option bytes :=
  let modifier_parameter := key_modifier_parameter modifiers in
  if (1 <=? number) && (number <=? 4) then
    match modifier_parameter with
    | None => Some [0x1b; 79; 80 + number - 1]
    | Some parameter => Some (csi_modified parameter (80 + number - 1))
    end
  else if (5 <=? number) && (number <=? 12) then
    let key_parameter := function_key_parameter number in
    match modifier_parameter with
    | Some parameter =>
        Some ([0x1b; 91] ++ decimal key_parameter ++ [59] ++ decimal parameter ++ [126])
    | None => Some ([0x1b; 91] ++ decimal key_parameter ++ [126])
    end
  else None.

Definition encode_key_with_mode (event : KeyEvent) (cursor_key_mode : CursorKeyMode)
    : option bytes :=
  let modifiers := key_modifiers event in
  match code event with
  | KeyCode.Char character =>
      if CONTROL modifiers then byte ← encode_control character; Some [byte]
      else Some ((if ALT modifiers then [0x1b] else []) ++ encode_utf8 character)
  | KeyCode.Enter => Some [13]
  | KeyCode.Backspace => Some [0x7f]
  | KeyCode.Tab => Some [9]
  | KeyCode.BackTab => Some [0x1b; 91; 90]
  | KeyCode.Esc => Some [0x1b]
  | KeyCode.Up => Some (encode_cursor_key 65 modifiers cursor_key_mode)
  | KeyCode.Down => Some (encode_cursor_key 66 modifiers cursor_key_mode)
  | KeyCode.Right => Some (encode_cursor_key 67 modifiers cursor_key_mode)
  | KeyCode.Left => Some (encode_cursor_key 68 modifiers cursor_key_mode)
  | KeyCode.Home => Some [0x1b; 91; 72]
  | KeyCode.End_ => Some [0x1b; 91; 70]
  | KeyCode.PageUp => Some [0x1b; 91; 53; 126]
  | KeyCode.PageDown => Some [0x1b; 91; 54; 126]
  | KeyCode.Insert => Some [0x1b; 91; 50; 126]
  | KeyCode.Delete => Some [0x1b; 91; 51; 126]
  | KeyCode.F number => encode_function_key number modifiers
  | KeyCode.Other => None
  end.

Definition encode_key (event : KeyEvent) : option bytes := encode_key_with_mode event Normal.

(** ** Instructions, paste and focus *)
Definition bytes_instruction (value : bytes) : Instruction :=
  {| instr_bytes := Some {| run_value := value |}; viewport := None; marker := None;
     session_control := None |}.

Definition local_viewport_instruction (columns rows : Z) : Instruction :=
  {| instr_bytes := None; viewport := Some {| columns := columns; rows := rows |}; marker := None;
     session_control := None |}.

Definition paste_start : bytes := [0x1b] ++ lit "[200~".
Definition paste_end : bytes := [0x1b] ++ lit "[201~".

Definition encode_paste_with_mode (contents : bytes) (bracketed_paste : bool) : bytes :=
  if negb bracketed_paste then contents else paste_start ++ contents ++ paste_end.

Definition encode_paste (contents : bytes) : bytes := encode_paste_with_mode contents true.

Definition encode_focus (focused : bool) : bytes :=
  if focused then [0x1b; 91; 73] else [0x1b; 91; 79].

Definition encode_focus_with_mode (focused focus_reporting : bool) : option bytes :=
  if focus_reporting then Some (encode_focus focused) else None.

(** ** Mouse reports *)
Inductive MouseTrackingMode := MouseDisabled | Press | PressRelease | ButtonMotion | AnyMotion.
Inductive MouseEncoding := DefaultEncoding | Utf8Encoding | Sgr.

#[export] Instance MouseTrackingMode_eq_dec : EqDecision MouseTrackingMode.
Proof. solve_decision. Defined.
#[export] Instance MouseEncoding_eq_dec : EqDecision MouseEncoding.
Proof. solve_decision. Defined.

Definition mouse_button_code (button : MouseButton.t) : Z :=
  match button with MouseButton.Left => 0 | MouseButton.Middle => 1 | MouseButton.Right => 2 end.

Definition mouse_event_is_reportable (kind : MouseEventKind.t) (tracking : MouseTrackingMode)
    : bool :=
  match tracking with
  | MouseDisabled => false
  | Press =>
      match kind with
      | MouseEventKind.Down _ | MouseEventKind.ScrollUp | MouseEventKind.ScrollDown
      | MouseEventKind.ScrollLeft | MouseEventKind.ScrollRight => true
      | _ => false
      end
  | PressRelease =>
      negb match kind with MouseEventKind.Drag _ | MouseEventKind.Moved => true | _ => false end
  | ButtonMotion => negb (bool_decide (kind = MouseEventKind.Moved))
  | AnyMotion => true
  end.

(** The code of an event, before its modifiers, and whether it is a release. *)
Definition mouse_base (kind : MouseEventKind.t) : Z * bool :=
  match kind with
  | MouseEventKind.Down button => (mouse_button_code button, false)
  | MouseEventKind.Up button => (mouse_button_code button, true)
  | MouseEventKind.Drag button => (mouse_button_code button + 32, false)
  | MouseEventKind.Moved => (35, false)
  | MouseEventKind.ScrollUp => (64, false)
  | MouseEventKind.ScrollDown => (65, false)
  | MouseEventKind.ScrollLeft => (66, false)
  | MouseEventKind.ScrollRight => (67, false)
  end.

Definition mouse_modifier_code (modifiers : KeyModifiers) : Z :=
  Z.b2z (SHIFT modifiers) * 4 + Z.b2z (ALT modifiers) * 8 + Z.b2z (CONTROL modifiers) * 16.

(** [char::from_u32(value)?] and its UTF-8 encoding. *)
Definition encode_scalar (value : Z) : option bytes :=
  if bool_decide (is_char value) then Some (encode_utf8 value) else None.

Definition encode_legacy_mouse (event : MouseEvent) (code : Z) (released utf8 : bool)
    : option bytes :=
  let legacy_code := (if released then 3 else code) + 32 in
  let column := column event + 33 in
  let row := row event + 33 in
  let header := [0x1b] ++ lit "[M" in
  if utf8 then
    a ← encode_scalar legacy_code; b ← encode_scalar column; c ← encode_scalar row;
    Some (header ++ a ++ b ++ c)
  else
    a ← try_into 8 legacy_code; b ← try_into 8 column; c ← try_into 8 row;
    Some (header ++ [a; b; c]).

(** The SGR report of a code at one-based coordinates. *)
Definition sgr_report (code column row : Z) (released : bool) : bytes :=
  [0x1b] ++ lit "[<" ++ decimal code ++ [59] ++ decimal column ++ [59] ++ decimal row
  ++ [if released then 109 else 77].

Definition encode_mouse_with_mode (event : MouseEvent) (tracking : MouseTrackingMode)
    (encoding : MouseEncoding) : option bytes :=
  if negb (mouse_event_is_reportable (mouse_kind event) tracking) then None
  else
    let '(base_code, released) := mouse_base (mouse_kind event) in
    let code := base_code + mouse_modifier_code (mouse_modifiers event) in
    match encoding with
    | Sgr => Some (sgr_report code (column event + 1) (row event + 1) released)
    | DefaultEncoding => encode_legacy_mouse event code released false
    | Utf8Encoding => encode_legacy_mouse event code released true
    end.

Definition encode_mouse (event : MouseEvent) : option bytes :=
  encode_mouse_with_mode event AnyMotion Sgr.

(** ** The prefix conserves what is typed *)

(** What the client does with the interpreter: the bytes of a key, or the flush before an
    event of another kind. *)
Inductive typed := Key (value : bytes) | Interrupt.

Definition escape_step (t : typed) (self : EscapeInterpreter) : EscapeInterpreter * list EscapeAction :=
  match t with
  | Key value => let '(self, action) := input value self in (self, [action])
  | Interrupt => let '(self, prefix) := flush self in
                 (self, from_option (λ l, [Forward l]) [] prefix)
  end.

Fixpoint escape_run (ts : list typed) (self : EscapeInterpreter)
    : EscapeInterpreter * list EscapeAction :=
  match ts with
  | [] => (self, [])
  | t :: ts =>
      let '(self, actions) := escape_step t self in
      let '(self, rest) := escape_run ts self in (self, actions ++ rest)
  end.

(** The specification: what is typed is read as tokens. *)
Inductive token :=
| Plain (value : bytes)
| QuitCommand
| HelpCommand
| SuspendCommand
| LiteralPrefix
| PrefixAnd (value : bytes)
| PrefixInterrupted
| NoPrefix.

Section tokens.
Context (e : Z).

Definition suffix_of_prefix : Z := literal_escape_suffix (escape_new e).

(** What was typed. *)
Definition token_typed (t : token) : list typed :=
  match t with
  | Plain value => [Key value]
  | QuitCommand => [Key [e]; Key (lit ".")]
  | HelpCommand => [Key [e]; Key (lit "?")]
  | SuspendCommand => [Key [e]; Key [0x1a]]
  | LiteralPrefix => [Key [e]; Key [suffix_of_prefix]]
  | PrefixAnd value => [Key [e]; Key value]
  | PrefixInterrupted => [Key [e]; Interrupt]
  | NoPrefix => [Interrupt]
  end.

(** What the client is told to do about it: the keys are sent, except the three commands
    and the suffix of a literal prefix. *)
Definition token_actions (t : token) : list EscapeAction :=
  match t with
  | Plain value => [Forward value]
  | QuitCommand => [Hold; Quit]
  | HelpCommand => [Hold; Help]
  | SuspendCommand => [Hold; Suspend]
  | LiteralPrefix => [Hold; Forward [e]]
  | PrefixAnd value => [Hold; Forward (e :: value)]
  | PrefixInterrupted => [Hold; Forward [e]]
  | NoPrefix => []
  end.

(** Whether a command can start: a prefix that prints starts one at the start of a line. *)
Definition opens (line_start : bool) : Prop := (33 ≤ e ≤ 126 ∨ e = 32) → line_start = true.

Definition command_keys : list bytes := [lit "."; lit "?"; [0x1a]].

Definition token_legal (line_start : bool) (t : token) : Prop :=
  match t with
  | Plain value => value = [e] → ¬ opens line_start
  | QuitCommand | HelpCommand | SuspendCommand | PrefixInterrupted => opens line_start
  | LiteralPrefix => opens line_start ∧ [suffix_of_prefix] ∉ command_keys
  | PrefixAnd value => opens line_start ∧ value ∉ command_keys ∧ value ≠ [suffix_of_prefix]
  | NoPrefix => True
  end.

(** Whether a line starts after a token: what was sent last decides. *)
Definition line_start_after (line_start : bool) (t : token) : bool :=
  match t with
  | Plain value => ends_line value
  | QuitCommand | HelpCommand | SuspendCommand | NoPrefix => line_start
  | LiteralPrefix => ends_line [e]
  | PrefixAnd value => ends_line (e :: value)
  | PrefixInterrupted => false
  end.

Fixpoint legal (line_start : bool) (ts : list token) : Prop :=
  match ts with
  | [] => True
  | t :: ts => token_legal line_start t ∧ legal (line_start_after line_start t) ts
  end.
End tokens.

(** A prefix that is held back: typed, answered by a hold, and not read as a token yet. *)
Definition held_typed (self : EscapeInterpreter) : list typed :=
  if prefix_held self then [Key [escape_byte self]] else [].
Definition held_actions (self : EscapeInterpreter) : list EscapeAction :=
  if prefix_held self then [Hold] else [].

Section escape.
Implicit Types self : EscapeInterpreter.

Lemma input_escape_byte l self : escape_byte (input l self).1 = escape_byte self.
Proof.
  unfold input, forward. destruct (negb (prefix_held self)); cbn zeta.
  - by destruct (bool_decide _ && _).
  - by repeat (case_bool_decide; [done|]).
Qed.

Lemma flush_escape_byte self : escape_byte (flush self).1 = escape_byte self.
Proof. unfold flush. by destruct (prefix_held self). Qed.

Lemma step_escape_byte t self : escape_byte (escape_step t self).1 = escape_byte self.
Proof.
  destruct t as [l|]; simpl.
  - pose proof (input_escape_byte l self). by destruct (input l self).
  - pose proof (flush_escape_byte self). by destruct (flush self).
Qed.

Lemma opens_spec self :
  negb (printable_escape self) || at_line_start self = true ↔ opens (escape_byte self) (at_line_start self).
Proof.
  unfold opens, printable_escape, is_ascii_graphic.
  destruct (at_line_start self); rewrite ?orb_true_r, ?orb_false_r; [by split|].
  rewrite negb_true_iff, orb_false_iff, andb_false_iff, !Z.leb_gt, Z.eqb_neq. split; [lia|].
  intros Ho. split; [destruct (decide (33 ≤ escape_byte self)); [|lia]|];
    try (intros He); try (destruct (decide (escape_byte self ≤ 126)); [|lia]);
    enough (false = true) by done; apply Ho; lia.
Qed.

(** What holds between the calls: a prefix is held only where it opens a command. *)
Definition sound_prefix self : Prop :=
  prefix_held self = true → opens (escape_byte self) (at_line_start self).

(** One step completes at most one token. *)
Definition step_reads self (t : typed) : Prop :=
  let '(self', actions) := escape_step t self in
  sound_prefix self' ∧ ∃ ts,
    legal (escape_byte self) (at_line_start self) ts ∧
    held_typed self ++ [t] = (ts ≫= token_typed (escape_byte self)) ++ held_typed self' ∧
    held_actions self ++ actions = (ts ≫= token_actions (escape_byte self)) ++ held_actions self' ∧
    at_line_start self' = foldl (line_start_after (escape_byte self)) (at_line_start self) ts.

Lemma step_tokens t self : sound_prefix self → step_reads self t.
Proof.
  intros Hs. unfold sound_prefix, step_reads, held_typed, held_actions in *.
  destruct t as [l|]; cbn [escape_step].
  2: { unfold flush. destruct (prefix_held self) eqn:Hh; cbn; rewrite ?Hh.
       - split; [done|]. exists [PrefixInterrupted]. split_and!; [by split; [apply Hs|]|done..].
       - split; [by unfold sound_prefix; rewrite Hh|]. exists [NoPrefix]. by split_and!. }
  unfold input, forward. destruct (prefix_held self) eqn:Hh; cbn [negb].
  - change (literal_escape_suffix (self <| prefix_held := false |>)) with (suffix_of_prefix (escape_byte self)).
    specialize (Hs eq_refl).
    case_bool_decide as H1; [subst; split; [done|]; exists [QuitCommand]; by split_and!|].
    case_bool_decide as H2; [subst; split; [done|]; exists [HelpCommand]; by split_and!|].
    case_bool_decide as H3; [subst; split; [done|]; exists [SuspendCommand]; by split_and!|].
    assert (l ∉ command_keys) by (unfold command_keys; set_solver).
    case_bool_decide as H4; [subst; split; [done|]; exists [LiteralPrefix]; by split_and!|].
    split; [done|]. exists [PrefixAnd l]. by split_and!.
  - pose proof (opens_spec self) as Ho. case_bool_decide as H1; cbn [andb].
    + destruct (negb (printable_escape self) || at_line_start self); cbn; rewrite ?Hh.
      * split; [intros _; by apply Ho|]. exists []. by rewrite H1.
      * split; [done|]. exists [Plain l]. split_and!; [|done..]. split; [|done]. intros _ Hop. by apply Ho in Hop.
    + cbn. rewrite Hh. split; [done|]. exists [Plain l]. split_and!; [|done..]. split; [|done]. intros ?; done.
Qed.

Lemma legal_app e b ts us : legal e b (ts ++ us) ↔ legal e b ts ∧ legal e (foldl (line_start_after e) b ts) us.
Proof. revert b. induction ts as [|t ts IH]; intros b; cbn; [tauto|]. rewrite IH. tauto. Qed.

Lemma run_tokens ts self :
  sound_prefix self →
  let '(self', actions) := escape_run ts self in ∃ tokens,
    legal (escape_byte self) (at_line_start self) tokens ∧
    held_typed self ++ ts = (tokens ≫= token_typed (escape_byte self)) ++ held_typed self' ∧
    held_actions self ++ actions = (tokens ≫= token_actions (escape_byte self)) ++ held_actions self' ∧
    at_line_start self' = foldl (line_start_after (escape_byte self)) (at_line_start self) tokens ∧
    escape_byte self' = escape_byte self ∧ sound_prefix self'.
Proof.
  revert self. induction ts as [|t ts IH]; intros self Hs; cbn [escape_run].
  { exists []. rewrite !app_nil_r. by split_and!. }
  pose proof (step_tokens t self Hs) as Ht. pose proof (step_escape_byte t self) as He.
  unfold step_reads in Ht. destruct (escape_step t self) as [s1 a1]. cbn [fst] in He.
  destruct Ht as (Hs1 & us & Hl & H1 & H2 & H3). specialize (IH s1 Hs1).
  destruct (escape_run ts s1) as [s2 a2]. destruct IH as (vs & Hl' & H4 & H5 & H6 & H7 & H8).
  rewrite He, H3 in *. exists (us ++ vs). rewrite !bind_app, foldl_app, legal_app. split_and!; try done.
  - change (t :: ts) with ([t] ++ ts). by rewrite (app_assoc _ [t]), H1, <- !app_assoc, H4.
  - by rewrite app_assoc, H2, <- !app_assoc, H5.
Qed.

Definition literal_run (e : Z) : list EscapeAction :=
  (escape_run [Key [e]; Key [literal_escape_suffix (escape_new e)]] (escape_new e)).2.

Lemma literal_prefix_works e :
  1 ≤ e ≤ 127 → literal_run e = [Hold; Forward [e]] ↔ e ≠ 46 ∧ e ≠ 63 ∧ e ≠ 127.
Proof.
  intros He. assert (Hall : Forall (λ n, bool_decide (literal_run (Z.of_nat n) = [Hold; Forward [Z.of_nat n]])
      = negb ((Z.of_nat n =? 46) || (Z.of_nat n =? 63) || (Z.of_nat n =? 127))) (seq 1 127))
    by decide_closed.
  rewrite Forall_forall in Hall. specialize (Hall (Z.to_nat e)).
  rewrite Z2Nat.id in Hall by lia. rewrite <- (bool_decide_eq_true (literal_run e = _)), Hall
    by (apply elem_of_seq; lia).
  rewrite negb_true_iff, !orb_false_iff, !Z.eqb_neq. tauto.
Qed.
End escape.

(** C32: Whatever is typed, and whenever other events interrupt it, nothing is lost or made
    up and every command has its effect: what was typed reads as a sequence of tokens (a
    key; the prefix followed by '.', '?' or Control-Z; by its literal suffix; by another key;
    or by an interruption) followed by the prefix still held, where a prefix that prints
    starts a token only at the start of a line; and the actions are exactly those of the
    tokens: quit, help and suspend for the commands, the prefix alone for the literal one,
    and everything typed, in order, for the others. The literal prefix can be typed after
    any line end just when its suffix is no command: for '.', '?' and DEL it cannot. *)
Theorem escape_conserves_input e ts :
  1 ≤ e ≤ 127 →
  (let '(self, actions) := escape_run ts (escape_new e) in
   ∃ tokens, legal e true tokens ∧
     ts = (tokens ≫= token_typed e) ++ (if prefix_held self then [Key [e]] else []) ∧
     actions = (tokens ≫= token_actions e) ++ (if prefix_held self then [Hold] else []) ∧
     at_line_start self = foldl (line_start_after e) true tokens) ∧
  ((escape_run [Key [e]; Key [literal_escape_suffix (escape_new e)]] (escape_new e)).2
   = [Hold; Forward [e]] ↔ e ≠ 46 ∧ e ≠ 63 ∧ e ≠ 127).
Proof.
  intros He. split; [|apply literal_prefix_works; lia].
  pose proof (run_tokens ts (escape_new e) ltac:(done)) as Hr.
  destruct (escape_run ts (escape_new e)) as [self actions].
  destruct Hr as (tokens & Hl & Ht & Ha & Hb & Hsame & _). exists tokens.
  unfold held_typed, held_actions in *. rewrite Hsame in *. by split_and!.
Qed.

Lemma escape_conserves_input_witness :
  ∃ tokens, legal 30 true tokens ∧
    [Key [97]; Key [30]; Key [94]; Key [30]; Key [46]; Key [30]; Interrupt] = tokens ≫= token_typed 30 ∧
    [Forward [97]; Hold; Forward [30]; Hold; Quit; Hold; Forward [30]] = tokens ≫= token_actions 30.
Proof.
  destruct (escape_conserves_input 30
    [Key [97]; Key [30]; Key [94]; Key [30]; Key [46]; Key [30]; Interrupt]) as [H _]; [lia|].
  vm_compute (escape_run _ _) in H. cbn [prefix_held] in H.
  destruct H as (tokens & Hl & Ht & Ha & _). exists tokens. rewrite app_nil_r in Ht, Ha. by split_and!.
Defined.

(** The help text promises that the prefix typed twice sends one prefix; with the default
    prefix it sends two. *)
Example prefix_twice :
  (escape_run [Key [30]; Key [30]] escape_default).2 = [Hold; Forward [30; 30]].
Proof. vm_compute. reflexivity. Qed.

(** ** The sequences of the special keys *)
Definition special_keys : list KeyCode.t :=
  [KeyCode.Up; KeyCode.Down; KeyCode.Right; KeyCode.Left; KeyCode.Home; KeyCode.End_;
   KeyCode.PageUp; KeyCode.PageDown; KeyCode.Insert; KeyCode.Delete; KeyCode.BackTab]
  ++ (KeyCode.F <$> seqZ 1 12).

(** The keys whose sequence carries the modifiers. *)
Definition carries_modifiers (k : KeyCode.t) : bool :=
  match k with
  | KeyCode.Up | KeyCode.Down | KeyCode.Right | KeyCode.Left | KeyCode.F _ => true
  | _ => false
  end.

Definition all_modifiers : list KeyModifiers :=
  s ← [true; false]; a ← [true; false]; c ← [true; false]; [mkKeyModifiers s a c].

Lemma elem_of_all_modifiers m : m ∈ all_modifiers.
Proof. destruct m as [[] [] []]; decide_closed. Qed.

Definition special_events : list KeyEvent :=
  k ← special_keys; m ← all_modifiers; [mkKeyEvent k m].

Lemma elem_of_special_events e : code e ∈ special_keys → e ∈ special_events.
Proof.
  intros Hk. unfold special_events. apply list_elem_of_bind. exists (code e). split; [|done].
  apply list_elem_of_bind. exists (key_modifiers e).
  split; [destruct e; apply list_elem_of_singleton; done|]. apply elem_of_all_modifiers.
Qed.

(** No sequence starts another, unless the keys are the same. *)
Definition unambiguous (mode : CursorKeyMode) (e1 e2 : KeyEvent) : bool :=
  match encode_key_with_mode e1 mode, encode_key_with_mode e2 mode with
  | Some b1, Some b2 =>
      negb (bool_decide (b1 `prefix_of` b2)) ||
      (bool_decide (code e1 = code e2) &&
       (negb (carries_modifiers (code e1)) || bool_decide (key_modifiers e1 = key_modifiers e2)))
  | _, _ => true
  end.

Lemma special_unambiguous mode e1 e2 :
  code e1 ∈ special_keys → code e2 ∈ special_keys → unambiguous mode e1 e2 = true.
Proof.
  intros H1%elem_of_special_events H2%elem_of_special_events.
  assert (Hall : forallb (λ mode, forallb (λ e1, forallb (unambiguous mode e1) special_events)
    special_events) [Normal; Application] = true) by (vm_compute; reflexivity).
  rewrite forallb_forall in Hall. specialize (Hall mode).
  rewrite forallb_forall in Hall. specialize (Hall ltac:(destruct mode; simpl; auto) e1).
  rewrite forallb_forall in Hall. apply Hall; by apply list_elem_of_In.
Qed.

Lemma encode_control_image b : (∃ c, encode_control c = Some b) ↔ 0 ≤ b < 32 ∨ b = 127.
Proof.
  unfold encode_control. split.
  - intros [c Hc]. destruct (Z.leb_spec 64 c), (Z.leb_spec c 95); cbn [andb] in Hc;
      [simplify_eq; lia|..];
      destruct (Z.leb_spec 97 c), (Z.leb_spec c 122); cbn [andb] in Hc; try (simplify_eq; lia);
      repeat case_match; simplify_eq; lia.
  - intros [Hb| ->]; [|by exists 63]. exists (b + 64).
    rewrite (proj2 (Z.leb_le 64 _)), (proj2 (Z.leb_le _ 95)) by lia. cbn [andb]. f_equal. lia.
Qed.

(** In either cursor-key mode the byte sequences of the special keys (cursor, paging,
    editing and function keys F1 to F12, with any modifiers) can be told apart as they
    arrive: if the sequence of one begins the sequence of another, the keys are the same,
    and for the cursor and function keys so are the modifiers; and the control keys send
    exactly the 33 control bytes. *)
Theorem special_keys_unambiguous mode e1 e2 b1 b2 :
  code e1 ∈ special_keys → code e2 ∈ special_keys →
  encode_key_with_mode e1 mode = Some b1 → encode_key_with_mode e2 mode = Some b2 →
  b1 `prefix_of` b2 →
  code e1 = code e2 ∧
  (carries_modifiers (code e1) = true → key_modifiers e1 = key_modifiers e2) ∧
  ∀ b, (∃ c, encode_control c = Some b) ↔ 0 ≤ b < 32 ∨ b = 127.
Proof.
  intros H1 H2 E1 E2 Hp. pose proof (special_unambiguous mode e1 e2 H1 H2) as Hu.
  unfold unambiguous in Hu. rewrite E1, E2, (bool_decide_eq_true_2 _ Hp) in Hu. cbn [negb orb] in Hu.
  apply andb_true_iff in Hu as [Hc%bool_decide_eq_true Hm]. split_and!; [done| |].
  - intros Hk. rewrite Hk in Hm. by apply bool_decide_eq_true in Hm.
  - apply encode_control_image.
Qed.

Lemma special_keys_unambiguous_witness :
  [0x1b; 79; 65] `prefix_of` [0x1b; 79; 65] ∧ KeyCode.Up = KeyCode.Up ∧
  ∃ c, encode_control c = Some 27.
Proof.
  set (e := mkKeyEvent KeyCode.Up (mkKeyModifiers false false false)).
  destruct (special_keys_unambiguous Application e e [0x1b; 79; 65] [0x1b; 79; 65])
    as (H1 & _ & H3); [decide_closed|decide_closed|reflexivity|reflexivity|done|].
  split; [done|]. split; [exact H1|]. apply H3. lia.
Defined.

(** Ctrl-Space and Ctrl with a digit outside 2 to 8 send nothing: NUL needs Ctrl-@. *)
Example control_space_is_dropped :
  encode_key (mkKeyEvent (KeyCode.Char 32) (mkKeyModifiers false false true)) = None.
Proof. reflexivity. Qed.

(** ** What a mouse report says *)
Definition all_buttons : list MouseButton.t :=
  [MouseButton.Left; MouseButton.Middle; MouseButton.Right].
Definition all_kinds : list MouseEventKind.t :=
  (MouseEventKind.Down <$> all_buttons) ++ (MouseEventKind.Up <$> all_buttons)
  ++ (MouseEventKind.Drag <$> all_buttons)
  ++ [MouseEventKind.Moved; MouseEventKind.ScrollUp; MouseEventKind.ScrollDown;
      MouseEventKind.ScrollLeft; MouseEventKind.ScrollRight].

Lemma elem_of_all_kinds k : k ∈ all_kinds.
Proof. destruct k as [[]|[]|[]| | | | |]; decide_closed. Qed.

(** The code of an event with its modifiers, and whether it is a release. *)
Definition mouse_code (k : MouseEventKind.t) (m : KeyModifiers) : Z * bool :=
  let '(base_code, released) := mouse_base k in (base_code + mouse_modifier_code m, released).

Lemma mouse_code_inj k1 m1 k2 m2 : mouse_code k1 m1 = mouse_code k2 m2 → k1 = k2 ∧ m1 = m2.
Proof.
  assert (Hall : forallb (λ k1, forallb (λ m1, forallb (λ k2, forallb (λ m2,
    negb (bool_decide (mouse_code k1 m1 = mouse_code k2 m2)) || bool_decide (k1 = k2 ∧ m1 = m2))
    all_modifiers) all_kinds) all_modifiers) all_kinds = true) by (vm_compute; reflexivity).
  rewrite forallb_forall in Hall. specialize (Hall k1 (proj1 (list_elem_of_In _ _) (elem_of_all_kinds k1))).
  rewrite forallb_forall in Hall. specialize (Hall m1 (proj1 (list_elem_of_In _ _) (elem_of_all_modifiers m1))).
  rewrite forallb_forall in Hall. specialize (Hall k2 (proj1 (list_elem_of_In _ _) (elem_of_all_kinds k2))).
  rewrite forallb_forall in Hall. specialize (Hall m2 (proj1 (list_elem_of_In _ _) (elem_of_all_modifiers m2))).
  intros He. rewrite (bool_decide_eq_true_2 _ He) in Hall. by apply bool_decide_eq_true in Hall.
Qed.

Lemma mouse_code_bounds k m : 0 ≤ (mouse_code k m).1 ≤ 95.
Proof. destruct k as [[]|[]|[]| | | | |], m as [[] [] []]; decide_closed. Qed.

Definition mouse_event_wf (e : MouseEvent) : Prop := fits 16 (column e) ∧ fits 16 (row e).

Lemma sgr_report_inj c1 x1 y1 r1 c2 x2 y2 r2 :
  0 ≤ c1 → 0 ≤ c2 → 0 ≤ x1 → 0 ≤ x2 → 0 ≤ y1 → 0 ≤ y2 →
  sgr_report c1 x1 y1 r1 = sgr_report c2 x2 y2 r2 → c1 = c2 ∧ x1 = x2 ∧ y1 = y2 ∧ r1 = r2.
Proof.
  intros ?????? He. unfold sgr_report in He. apply app_inv_head, app_inv_head in He.
  apply decimal_split in He as (-> & _ & He); [|done..].
  apply decimal_split in He as (-> & _ & He); [|done..].
  apply decimal_split in He as (-> & Hr & _); [|done|done|by destruct r1|by destruct r2].
  split_and!; [done..|]. by destruct r1, r2.
Qed.

Lemma encode_mouse_spec e :
  encode_mouse e = let '(c, released) := mouse_code (mouse_kind e) (mouse_modifiers e) in
    Some (sgr_report c (column e + 1) (row e + 1) released).
Proof.
  unfold encode_mouse, encode_mouse_with_mode, mouse_code. cbn [mouse_event_is_reportable negb].
  by destruct (mouse_base (mouse_kind e)).
Qed.

Lemma encode_mouse_inj e1 e2 :
  mouse_event_wf e1 → mouse_event_wf e2 → encode_mouse e1 = encode_mouse e2 → e1 = e2.
Proof.
  intros [[? _] [? _]] [[? _] [? _]]. rewrite !encode_mouse_spec.
  pose proof (mouse_code_bounds (mouse_kind e1) (mouse_modifiers e1)) as B1.
  pose proof (mouse_code_bounds (mouse_kind e2) (mouse_modifiers e2)) as B2.
  destruct (mouse_code (mouse_kind e1) _) as [c1 r1] eqn:E1, (mouse_code (mouse_kind e2) _) as [c2 r2] eqn:E2.
  intros He%Some_inj. cbn [fst] in B1, B2.
  apply sgr_report_inj in He as (-> & ? & ? & ->); [|lia..].
  rewrite <- E2 in E1. apply mouse_code_inj in E1 as [??].
  destruct e1, e2. cbn in *. f_equal; done || lia.
Qed.

(** The legacy code of an event: every release is button 3, whatever the modifiers. *)
Definition legacy_code (e : MouseEvent) : Z :=
  let '(c, released) := mouse_code (mouse_kind e) (mouse_modifiers e) in
  if (released : bool) then 3 else c.

Lemma legacy_spec e tracking (utf8 : bool) :
  mouse_event_is_reportable (mouse_kind e) tracking = true →
  encode_mouse_with_mode e tracking (if utf8 then Utf8Encoding else DefaultEncoding)
  = let released := (mouse_code (mouse_kind e) (mouse_modifiers e)).2 in
    encode_legacy_mouse e (legacy_code e) released utf8.
Proof.
  intros Hr. unfold encode_mouse_with_mode, legacy_code, mouse_code. rewrite Hr. cbn [negb].
  destruct (mouse_base (mouse_kind e)) as [b r]. destruct utf8; cbn; unfold encode_legacy_mouse;
    by destruct r.
Qed.

Lemma encode_scalar_spec v : is_char v → encode_scalar v = Some (encode_utf8 v).
Proof. intros Hv. unfold encode_scalar. by rewrite bool_decide_eq_true_2. Qed.

Lemma legacy_code_bounds e : 0 ≤ legacy_code e ≤ 95.
Proof.
  unfold legacy_code. pose proof (mouse_code_bounds (mouse_kind e) (mouse_modifiers e)) as Hb.
  destruct (mouse_code _ _) as [c []]; cbn in Hb; lia.
Qed.

(** C33: Mouse reports say what happened. Two events with the same SGR report are the same
    event (button, motion or wheel, modifiers, cell, press or release). In the legacy
    encoding a reportable event has a report exactly when its column and row are at most
    222, six bytes with the offsets of 32 and 33; in the UTF-8 encoding the report decodes
    to the code and the cell, on every cell below the surrogates. *)
Theorem mouse_reports_faithful e1 e2 tracking :
  mouse_event_wf e1 → mouse_event_wf e2 →
  mouse_event_is_reportable (mouse_kind e1) tracking = true →
  (encode_mouse e1 = encode_mouse e2 → e1 = e2) ∧
  encode_mouse_with_mode e1 tracking DefaultEncoding
    = (if (column e1 <=? 222) && (row e1 <=? 222)
       then Some [27; 91; 77; legacy_code e1 + 32; column e1 + 33; row e1 + 33] else None) ∧
  (column e1 + 33 < 0xD800 → row e1 + 33 < 0xD800 →
   ∃ report, encode_mouse_with_mode e1 tracking Utf8Encoding = Some report ∧
     utf8_chars report = Some [27; 91; 77; legacy_code e1 + 32; column e1 + 33; row e1 + 33]).
Proof.
  intros H1 H2 Hr. split; [by apply encode_mouse_inj|]. destruct H1 as [[Hc1 _] [Hr1 _]].
  pose proof (legacy_code_bounds e1) as Hb.
  pose proof (legacy_spec e1 tracking false Hr) as Hd. pose proof (legacy_spec e1 tracking true Hr) as Hu.
  cbn zeta iota in Hd, Hu. rewrite Hd, Hu. unfold encode_legacy_mouse.
  assert (Hl : (if (mouse_code (mouse_kind e1) (mouse_modifiers e1)).2 then 3 else legacy_code e1)
               = legacy_code e1).
  { unfold legacy_code. by destruct (mouse_code _ _) as [c []]. }
  rewrite Hl. cbn zeta. split.
  - unfold try_into, fitsb. rewrite (proj2 (Z.leb_le 0 (legacy_code e1 + 32))) by lia.
    rewrite (proj2 (Z.ltb_lt (legacy_code e1 + 32) _)) by lia.
    rewrite (proj2 (Z.leb_le 0 (column e1 + 33))), (proj2 (Z.leb_le 0 (row e1 + 33))) by lia. cbn [andb].
    destruct (Z.leb_spec (column e1) 222).
    + rewrite (proj2 (Z.ltb_lt (column e1 + 33) _)) by lia. destruct (Z.leb_spec (row e1) 222).
      * by rewrite (proj2 (Z.ltb_lt (row e1 + 33) _)) by lia.
      * by rewrite (proj2 (Z.ltb_ge (row e1 + 33) _)) by lia.
    + by rewrite (proj2 (Z.ltb_ge (column e1 + 33) _)) by lia.
  - intros Hc Hw. eexists. rewrite !encode_scalar_spec by (left; lia). split; [reflexivity|].
    apply utf8_chars_spec. split; [|by rewrite !fmap_cons, !mjoin_cons, app_nil_r].
    repeat (apply Forall_cons; split); [left; lia..|done].
Qed.

Lemma mouse_reports_faithful_witness :
  let e := mkMouseEvent (MouseEventKind.Drag MouseButton.Left) 222 7 (mkKeyModifiers true false false) in
  encode_mouse_with_mode e ButtonMotion DefaultEncoding = Some [27; 91; 77; 68; 255; 40] ∧
  utf8_chars [27; 91; 77; 68; 195; 191; 40] = Some [27; 91; 77; 68; 255; 40].
Proof.
  set (e := mkMouseEvent (MouseEventKind.Drag MouseButton.Left) 222 7 (mkKeyModifiers true false false)).
  destruct (mouse_reports_faithful e e ButtonMotion) as (_ & H2 & H3);
    [split; split; vm_compute; done|split; split; vm_compute; done|reflexivity|].
  split; [exact H2|]. destruct H3 as (report & Hr & Hu); [reflexivity|reflexivity|].
  vm_compute in Hr. injection Hr as <-. exact Hu.
Defined.

(** A paste is not inspected: a terminator inside the contents ends it early for the
    remote application, which takes the rest as typed. *)
Example paste_terminator_passes :
  encode_paste (paste_end ++ lit "rm -rf x") = paste_start ++ paste_end ++ lit "rm -rf x" ++ paste_end.
Proof. vm_compute. reflexivity. Qed.
