(* ===== verification/Modes.v ===== *)
(** * The modes of the remote terminal

    The model of [AuthoritativeScreen] and [FocusReportingState] of
    [crates/ferrumtty-terminal/src/lib.rs]: what the server's output selects on the remote
    terminal. Two parsers of other packages read the output: [vte], which calls back for
    every control sequence, and the emulator [vt100], whose screen is only queried. Both
    are classes of Emulators.v. *)
From S2P Require Import Prelude Emulators TextTerminal Utf8 Input TitleFilter.
Local Open Scope Z_scope.

Inductive CursorShape :=
| DefaultShape | BlinkingBlock | SteadyBlock | BlinkingUnderline | SteadyUnderline | BlinkingBar
| SteadyBar.
Inductive TerminalMode := Disabled | Enabled.

#[export] Instance CursorShape_eq_dec : EqDecision CursorShape.
Proof. solve_decision. Defined.
#[export] Instance TerminalMode_eq_dec : EqDecision TerminalMode.
Proof. solve_decision. Defined.

(** [TerminalMode::from]. *)
Definition terminal_mode (enabled : bool) : TerminalMode := if enabled then Enabled else Disabled.

Record FocusReportingState := mkFocusReportingState {
  enabled : bool;
  insert_mode : TerminalMode;
  origin_mode : TerminalMode;
  auto_wrap : TerminalMode;
  cursor_shape : CursorShape;
  scroll_region : option (Z * Z);
  title : option bytes;
}.

#[export] Instance eta_FocusReportingState : Eta FocusReportingState := λ s,
  mkFocusReportingState (enabled s) (insert_mode s) (origin_mode s) (auto_wrap s) (cursor_shape s)
    (scroll_region s) (title s).
#[export] Instance upd_enabled : Update enabled := ltac:(solve_update).
#[export] Instance upd_insert_mode : Update insert_mode := ltac:(solve_update).
#[export] Instance upd_origin_mode : Update origin_mode := ltac:(solve_update).
#[export] Instance upd_auto_wrap : Update auto_wrap := ltac:(solve_update).
#[export] Instance upd_cursor_shape : Update cursor_shape := ltac:(solve_update).
#[export] Instance upd_scroll_region : Update scroll_region := ltac:(solve_update).
#[export] Instance upd_title : Update title := ltac:(solve_update).

Definition focus_state_default : FocusReportingState := {|
  enabled := false;
  insert_mode := Disabled;
  origin_mode := Disabled;
  auto_wrap := Enabled;
  cursor_shape := DefaultShape;
  scroll_region := None;
  title := None;
|}.

(** ** The callbacks *)

Definition set_private_mode (enabled : bool) (self : FocusReportingState) (parameter : list Z)
    : FocusReportingState :=
  match parameter with
  | [6] => self <| origin_mode := terminal_mode enabled |>
  | [7] => self <| auto_wrap := terminal_mode enabled |>
  | [1004] => self <| Modes.enabled := enabled |>
  | _ => self
  end.

Definition shape_of (parameter : Z) : CursorShape :=
  match parameter with
  | 1 => BlinkingBlock
  | 2 => SteadyBlock
  | 3 => BlinkingUnderline
  | 4 => SteadyUnderline
  | 5 => BlinkingBar
  | 6 => SteadyBar
  | _ => DefaultShape
  end.

Definition region_of (params : Params) : option (Z * Z) :=
  match omap head params with
  | top :: bottom :: _ => if (0 <? top) && (top <=? bottom) then Some (top, bottom) else None
  | _ => None
  end.

(** The final characters [h], [l], [r] and [q]. *)
Definition csi_dispatch (params : Params) (intermediates : bytes) (ignore : bool) (action : Z)
    (self : FocusReportingState) : FocusReportingState :=
  let mode_action := (action =? 104) || (action =? 108) in
  if ignore then self
  else if bool_decide (intermediates = [63]) && mode_action then
    fold_left (set_private_mode (action =? 104)) params self
  else if bool_decide (intermediates = []) && mode_action then
    if existsb (λ parameter, bool_decide (parameter = [4])) params
    then self <| insert_mode := terminal_mode (action =? 104) |> else self
  else if bool_decide (intermediates = []) && (action =? 114) then
    self <| scroll_region := region_of params |>
  else if bool_decide (intermediates = [32]) && (action =? 113) then
    self <| cursor_shape := shape_of (default 0 (head params ≫= head)) |>
  else self.

(** [slice.join(&b';')]. *)
Fixpoint join_semicolon (l : list bytes) : bytes :=
  match l with
  | [] => []
  | [x] => x
  | x :: l => x ++ [59] ++ join_semicolon l
  end.

Definition osc_dispatch (params : list bytes) (self : FocusReportingState) : FocusReportingState :=
  match params with
  | [] => self
  | command :: rest =>
      if negb (bool_decide (command = []) || bool_decide (command = [48]) || bool_decide (command = [50]))
      then self
      else
        let title_bytes := join_semicolon rest in
        if is_some (utf8_chars title_bytes) then self <| title := Some title_bytes |> else self
  end.

Definition esc_dispatch (intermediates : bytes) (ignore : bool) (byte : Z)
    (self : FocusReportingState) : FocusReportingState :=
  if negb ignore && bool_decide (intermediates = []) && (byte =? 99) then focus_state_default else self.

(** The callbacks the state does not implement do nothing. *)
Definition perform (self : FocusReportingState) (c : vte_action) : FocusReportingState :=
  match c with
  | VteCsiDispatch params intermediates ignore action =>
      csi_dispatch params intermediates ignore action self
  | VteOscDispatch params => osc_dispatch params self
  | VteEscDispatch intermediates ignore byte => esc_dispatch intermediates ignore byte self
  | _ => self
  end.

Record RemoteTerminalModes := mkRemoteTerminalModes {
  cursor_key : CursorKeyMode;
  application_keypad : bool;
  bracketed_paste : bool;
  mouse_tracking : MouseTrackingMode;
  mouse_encoding : MouseEncoding;
  focus_reporting : bool;
  m_insert_mode : TerminalMode;
  m_origin_mode : TerminalMode;
  m_auto_wrap : TerminalMode;
  cursor_visible : TerminalMode;
  m_cursor_shape : CursorShape;
  alternate_screen : TerminalMode;
  m_scroll_region : option (Z * Z);
}.

Definition RemoteTerminalModes_default : RemoteTerminalModes := {|
  cursor_key := Normal;
  application_keypad := false;
  bracketed_paste := false;
  mouse_tracking := MouseDisabled;
  mouse_encoding := DefaultEncoding;
  focus_reporting := false;
  m_insert_mode := Disabled;
  m_origin_mode := Disabled;
  m_auto_wrap := Enabled;
  cursor_visible := Enabled;
  m_cursor_shape := DefaultShape;
  alternate_screen := Disabled;
  m_scroll_region := None;
|}.

(** The cursor and rendition that the prediction overlay anchors to. *)
Record PredictionCursorContext := mkPredictionCursorContext {
  pc_row : Z;
  pc_column : Z;
  pc_columns : Z;
  pc_attributes : bytes;
  pc_cursor_state : bytes;
}.

Section screen.
Context `{Vte} `{Vt100Queries}.

Record AuthoritativeScreen := mkAuthoritativeScreen {
  parser : vt_parser;
  focus_parser : vte_parser;
  focus_state : FocusReportingState;
}.

Definition screen_new (columns rows : Z) : AuthoritativeScreen := {|
  parser := vt_new rows columns 0;
  focus_parser := vte_new;
  focus_state := focus_state_default;
|}.

Definition screen_process (l : bytes) (self : AuthoritativeScreen) : AuthoritativeScreen :=
  let '(focus_parser, calls) := vte_advance l (focus_parser self) in
  {| parser := vt_process l (parser self);
     focus_parser := focus_parser;
     focus_state := fold_left perform calls (focus_state self) |}.

Definition screen_resize (columns rows : Z) (self : AuthoritativeScreen) : AuthoritativeScreen :=
  {| parser := vt_set_size rows columns (parser self);
     focus_parser := focus_parser self;
     focus_state := (focus_state self) <| scroll_region := None |> |}.

Definition formatted (self : AuthoritativeScreen) : bytes := contents_formatted (vt_get_screen (parser self)).

Definition remote_modes (self : AuthoritativeScreen) : RemoteTerminalModes :=
  let screen := vt_get_screen (parser self) in
  {|
    cursor_key := if application_cursor screen then Application else Normal;
    application_keypad := vt_application_keypad screen;
    bracketed_paste := vt_bracketed_paste screen;
    mouse_tracking :=
      match mouse_protocol_mode screen with
      | PNone => MouseDisabled
      | PPress => Press
      | PPressRelease => PressRelease
      | PButtonMotion => ButtonMotion
      | PAnyMotion => AnyMotion
      end;
    mouse_encoding :=
      match mouse_protocol_encoding screen with
      | PDefault => DefaultEncoding
      | PUtf8 => Utf8Encoding
      | PSgr => Sgr
      end;
    focus_reporting := enabled (focus_state self);
    m_insert_mode := insert_mode (focus_state self);
    m_origin_mode := origin_mode (focus_state self);
    m_auto_wrap := auto_wrap (focus_state self);
    cursor_visible := terminal_mode (negb (hide_cursor screen));
    m_cursor_shape := cursor_shape (focus_state self);
    alternate_screen := terminal_mode (vt_alternate_screen screen);
    m_scroll_region := scroll_region (focus_state self);
  |}.

Definition remote_title (self : AuthoritativeScreen) : option bytes := title (focus_state self).

Definition prediction_cursor_context (self : AuthoritativeScreen) : PredictionCursorContext :=
  let screen := vt_get_screen (parser self) in
  let '(row, column) := cursor_position screen in
  let '(_, columns) := screen_size screen in
  {| pc_row := row; pc_column := column; pc_columns := columns;
     pc_attributes := attributes_formatted screen;
     pc_cursor_state := cursor_state_formatted screen |}.
End screen.
Arguments AuthoritativeScreen : clear implicits.
Arguments AuthoritativeScreen {_ _}.

(** ** The last setting wins *)

(** What a control sequence selects. *)
Inductive setting :=
| SetFocus (value : bool)
| SetInsert (value : TerminalMode)
| SetOrigin (value : TerminalMode)
| SetWrap (value : TerminalMode)
| SetShape (value : CursorShape)
| SetRegion (value : option (Z * Z))
| SetTitle (value : option bytes)
| ResetAll.

#[export] Instance setting_eq_dec : EqDecision setting.
Proof. solve_decision. Defined.

Definition apply_setting (self : FocusReportingState) (s : setting) : FocusReportingState :=
  match s with
  | SetFocus v => self <| enabled := v |>
  | SetInsert v => self <| insert_mode := v |>
  | SetOrigin v => self <| origin_mode := v |>
  | SetWrap v => self <| auto_wrap := v |>
  | SetShape v => self <| cursor_shape := v |>
  | SetRegion v => self <| scroll_region := v |>
  | SetTitle v => self <| title := v |>
  | ResetAll => focus_state_default
  end.

Definition private_setting (enabled : bool) (parameter : list Z) : list setting :=
  if bool_decide (parameter = [6]) then [SetOrigin (terminal_mode enabled)]
  else if bool_decide (parameter = [7]) then [SetWrap (terminal_mode enabled)]
  else if bool_decide (parameter = [1004]) then [SetFocus enabled]
  else [].

(** The settings of a callback, in order. *)
Definition settings (c : vte_action) : list setting :=
  match c with
  | VteCsiDispatch params [63] false 104 => params ≫= private_setting true
  | VteCsiDispatch params [63] false 108 => params ≫= private_setting false
  | VteCsiDispatch params [] false 104 => if bool_decide ([4] ∈ params) then [SetInsert Enabled] else []
  | VteCsiDispatch params [] false 108 => if bool_decide ([4] ∈ params) then [SetInsert Disabled] else []
  | VteCsiDispatch params [] false 114 => [SetRegion (region_of params)]
  | VteCsiDispatch params [32] false 113 => [SetShape (shape_of (default 0 (head params ≫= head)))]
  | VteOscDispatch ([] :: rest) | VteOscDispatch ([48] :: rest) | VteOscDispatch ([50] :: rest) =>
      if is_some (utf8_chars (join_semicolon rest)) then [SetTitle (Some (join_semicolon rest))] else []
  | VteEscDispatch [] false 99 => [ResetAll]
  | _ => []
  end.

(** The value that the last relevant setting since the last reset selects; the list
    starts with the latest setting. *)
Fixpoint last_value {A} (get : setting → option A) (initial : A) (latest_first : list setting) : A :=
  match latest_first with
  | [] => initial
  | ResetAll :: _ => initial
  | s :: l => default (last_value get initial l) (get s)
  end.

Definition selected {A} (get : setting → option A) (initial : A) (h : list setting) : A :=
  last_value get initial (reverse h).

Definition focus_of (s : setting) : option bool := if s is SetFocus v then Some v else None.
Definition insert_of (s : setting) : option TerminalMode := if s is SetInsert v then Some v else None.
Definition origin_of (s : setting) : option TerminalMode := if s is SetOrigin v then Some v else None.
Definition wrap_of (s : setting) : option TerminalMode := if s is SetWrap v then Some v else None.
Definition shape_setting (s : setting) : option CursorShape := if s is SetShape v then Some v else None.
Definition region_setting (s : setting) : option (option (Z * Z)) :=
  if s is SetRegion v then Some v else None.
Definition title_setting (s : setting) : option (option bytes) :=
  if s is SetTitle v then Some v else None.

(** The state that a history of settings selects, field by field. *)
Definition selected_state (h : list setting) : FocusReportingState := {|
  enabled := selected focus_of false h;
  insert_mode := selected insert_of Disabled h;
  origin_mode := selected origin_of Disabled h;
  auto_wrap := selected wrap_of Enabled h;
  cursor_shape := selected shape_setting DefaultShape h;
  scroll_region := selected region_setting None h;
  title := selected title_setting None h;
|}.

Section settings_lemmas.
Implicit Types self : FocusReportingState.

Lemma set_private_mode_settings on parameter self :
  set_private_mode on self parameter = fold_left apply_setting (private_setting on parameter) self.
Proof.
  unfold private_setting. repeat (case_bool_decide; [by subst|]).
  unfold set_private_mode. by repeat case_match; simplify_eq.
Qed.

Lemma fold_left_bind {A B C} (f : C → B → C) (g : A → list B) (h : C → A → C) l c :
  (∀ a c, h c a = fold_left f (g a) c) → fold_left h l c = fold_left f (l ≫= g) c.
Proof.
  intros Hh. revert c. induction l as [|a l IH]; intros c; [done|].
  rewrite bind_cons, fold_left_app, <- Hh. apply IH.
Qed.

Lemma existsb_elem (params : Params) :
  existsb (λ parameter, bool_decide (parameter = [4])) params = bool_decide ([4] ∈ params).
Proof.
  induction params as [|x params IH]; [done|].
  cbn [existsb]. rewrite IH. repeat case_bool_decide; set_solver.
Qed.
Lemma csi_settings params intermediates ignore action self :
  csi_dispatch params intermediates ignore action self
  = fold_left apply_setting (settings (VteCsiDispatch params intermediates ignore action)) self.
Proof.
  unfold csi_dispatch. destruct ignore; [cbn; by repeat case_match; simplify_eq|].
  destruct (decide (action = 104)) as [->|H1]; [|destruct (decide (action = 108)) as [->|H2]].
  1,2: cbn [Z.eqb Pos.eqb orb]; rewrite !andb_true_r, ?andb_false_r.
  1,2: case_bool_decide; [subst; cbn [settings]; apply fold_left_bind;
         intros; apply set_private_mode_settings|].
  1,2: case_bool_decide; [subst; cbn [settings]; rewrite existsb_elem; by case_bool_decide|].
  1,2: cbn; by repeat case_match; simplify_eq.
  rewrite (proj2 (Z.eqb_neq _ _) H1), (proj2 (Z.eqb_neq _ _) H2). cbn [orb].
  rewrite !andb_false_r. destruct (Z.eqb_spec action 114) as [->|H3].
  - rewrite andb_true_r, andb_false_r. case_bool_decide; [by subst|]. cbn. by repeat case_match; simplify_eq.
  - rewrite andb_false_r. destruct (Z.eqb_spec action 113) as [->|H4].
    + rewrite andb_true_r. case_bool_decide; [by subst|]. cbn. by repeat case_match; simplify_eq.
    + rewrite andb_false_r. cbn. by repeat case_match; simplify_eq.
Qed.

Ltac title_command_case rest :=
  match goal with |- (if negb ?b then _ else _) = _ => change (negb b) with false end;
  cbv zeta; cbn [settings]; destruct (is_some (utf8_chars (join_semicolon rest))).

Lemma perform_settings c self : perform self c = fold_left apply_setting (settings c) self.
Proof.
  destruct c as [| | | | |params|params intermediates ignore action|intermediates ignore byte];
    cbn [perform]; try done.
  - unfold osc_dispatch. destruct params as [|command rest]; [done|].
    destruct (decide (command = [])) as [->|H1]; [by title_command_case rest|].
    destruct (decide (command = [48])) as [->|H2]; [by title_command_case rest|].
    destruct (decide (command = [50])) as [->|H3]; [by title_command_case rest|].
    rewrite !bool_decide_eq_false_2 by done. cbn. by repeat case_match; simplify_eq.
  - apply csi_settings.
  - unfold esc_dispatch. destruct ignore; cbn [negb andb]; [by destruct intermediates|].
    case_bool_decide; cbn [andb]; [|cbn; by repeat case_match; simplify_eq]. subst.
    destruct (Z.eqb_spec byte 99) as [->|Hb]; [done|]. cbn. by repeat case_match; simplify_eq.
Qed.
End settings_lemmas.

Lemma selected_snoc {A} (get : setting → option A) initial h s :
  s ≠ ResetAll → selected get initial (h ++ [s]) = default (selected get initial h) (get s).
Proof. unfold selected. rewrite reverse_app, reverse_singleton. cbn. by destruct s. Qed.

Lemma selected_reset {A} (get : setting → option A) initial h :
  selected get initial (h ++ [ResetAll]) = initial.
Proof. unfold selected. by rewrite reverse_app, reverse_singleton. Qed.

Lemma apply_settings_selected h : fold_left apply_setting h focus_state_default = selected_state h.
Proof.
  induction h as [|s h IH] using rev_ind; [done|]. rewrite fold_left_app, IH. cbn [fold_left].
  unfold selected_state. destruct (decide (s = ResetAll)) as [->|Hs]; [by rewrite !selected_reset|].
  rewrite !selected_snoc by done. by destruct s.
Qed.

(** What the output and the resizes of a session select, with the parser they go through. *)
Inductive screen_event := Output (l : bytes) | Resized (columns rows : Z).

Section screen_history.
Context `{Vte} `{Vt100Queries}.

Definition screen_event_step (self : AuthoritativeScreen) (e : screen_event) : AuthoritativeScreen :=
  match e with
  | Output l => screen_process l self
  | Resized columns rows => screen_resize columns rows self
  end.

Definition screen_run (es : list screen_event) (self : AuthoritativeScreen) : AuthoritativeScreen :=
  fold_left screen_event_step es self.

Fixpoint history (es : list screen_event) (p : vte_parser) : list setting :=
  match es with
  | [] => []
  | Output l :: es => let '(p, calls) := vte_advance l p in (calls ≫= settings) ++ history es p
  | Resized _ _ :: es => SetRegion None :: history es p
  end.

Lemma screen_run_history es self :
  focus_state (screen_run es self)
  = fold_left apply_setting (history es (focus_parser self)) (focus_state self).
Proof.
  revert self. induction es as [|[l|columns rows] es IH]; intros self; [done| |].
  - change (screen_run (Output l :: es) self) with (screen_run es (screen_process l self)).
    rewrite IH. unfold screen_process. cbn [history].
    destruct (vte_advance l (focus_parser self)) as [p calls]. cbn [focus_state focus_parser].
    rewrite fold_left_app. f_equal. apply fold_left_bind. intros. apply perform_settings.
  - change (screen_run (Resized columns rows :: es) self)
      with (screen_run es (screen_resize columns rows self)).
    by rewrite IH.
Qed.

Lemma screen_process_app `{!VteLaws, !Vt100Laws} a b self :
  screen_process (a ++ b) self = screen_process b (screen_process a self).
Proof.
  unfold screen_process. rewrite vte_advance_app.
  destruct (vte_advance a (focus_parser self)) as [p x]. cbn [focus_parser focus_state parser].
  destruct (vte_advance b p) as [q y]. by rewrite vt_process_app, fold_left_app.
Qed.
End screen_history.

(** C34: Each mode the client keeps for the remote terminal (focus reporting, insert,
    origin and wrap mode, cursor shape, margins, title) has the value that the last
    control sequence setting it since the last reset or, for the margins, resize selected,
    or its default; and the screen is the same however the output is cut into fragments. *)
Theorem remote_modes_are_last_settings `{VteLaws} `{Vt100Laws} `{!Vt100Queries} columns rows before a b after :
  let start := screen_new columns rows in
  let es := before ++ [Output (a ++ b)] ++ after in
  focus_state (screen_run es start) = selected_state (history es (focus_parser start)) ∧
  screen_run es start = screen_run (before ++ [Output a; Output b] ++ after) start.
Proof.
  intros start es. split.
  - rewrite screen_run_history. apply apply_settings_selected.
  - unfold es, screen_run. rewrite !fold_left_app. cbn. by rewrite screen_process_app.
Qed.

(** ** The types of the state *)

(** The values that [(u16, u16)] and [String] can take, with ordered margins. *)
Definition region_wf (r : option (Z * Z)) : Prop :=
  match r with Some (top, bottom) => 1 ≤ top ≤ bottom ∧ bottom ≤ u16_max | None => True end.
Definition title_wf (t : option bytes) : Prop :=
  match t with Some t => is_some (utf8_chars t) = true | None => True end.
Definition focus_state_wf (s : FocusReportingState) : Prop :=
  region_wf (scroll_region s) ∧ title_wf (title s).

Lemma region_of_wf params : Forall (Forall (fits 16)) params → region_wf (region_of params).
Proof.
  intros Hp. assert (Hh : Forall (fits 16) (omap head params)).
  { induction Hp as [|x params Hx Hp IH]; [constructor|]. cbn. destruct Hx; cbn; [done|].
    by constructor. }
  unfold region_of. destruct (omap head params) as [|top [|bottom l]]; [done..|].
  apply Forall_cons in Hh as [_ Hh]. apply Forall_cons in Hh as [[_ Hb] _].
  destruct (Z.ltb_spec 0 top), (Z.leb_spec top bottom); cbn; [|done..].
  assert (u16_max = 2 ^ 16 - 1) by done. lia.
Qed.

Lemma perform_wf c s : action_wf c → focus_state_wf s → focus_state_wf (perform s c).
Proof.
  intros Hc [Hr Ht]. rewrite perform_settings.
  destruct c as [| | | | |params|params im ig action|im ig byte]; cbn [settings action_wf] in *; try done.
  - repeat case_match; done.
  - assert (Hpriv : ∀ on, focus_state_wf (fold_left apply_setting (params ≫= private_setting on) s)).
    { intros on. generalize dependent s. clear Hc. induction params as [|x params IH]; intros s Hr Ht;
        [done|]. rewrite bind_cons, fold_left_app. apply IH; unfold private_setting;
        repeat (case_bool_decide; [done|]); done. }
    repeat case_match; try apply Hpriv; try done. split; [by apply region_of_wf|done].
  - repeat case_match; done.
Qed.

(** C35: On every screen a session can reach, whatever the server sends, the margins are
    one-based, ordered and within 16 bits, and the title is valid UTF-8; the parameters of
    the parser being 16-bit is all this needs. *)
Theorem remote_state_well_typed `{Vte} `{Vt100Queries} columns rows es :
  (∀ l p, Forall action_wf (vte_advance l p).2) →
  focus_state_wf (focus_state (screen_run es (screen_new columns rows))).
Proof.
  intros Hvte. assert (Hs : focus_state_wf (focus_state (screen_new columns rows))) by done.
  generalize dependent (screen_new columns rows). induction es as [|[l|c r] es IH]; intros s Hs; [done| |].
  - apply IH. unfold screen_event_step, screen_process.
    specialize (Hvte l (focus_parser s)). destruct (vte_advance l (focus_parser s)) as [p calls].
    cbn [snd focus_state] in *. generalize dependent (focus_state s).
    induction Hvte as [|call calls Hc Hcs IHc]; intros f Hf; [done|]. by apply IHc, perform_wf.
  - apply IH. destruct Hs as [_ Ht]. done.
Qed.

(** ** Concrete runs *)
#[local] Existing Instance csi_vte.
#[local] Existing Instance csi_vte_laws.

Definition demo_events : list screen_event :=
  [Output ([27; 91] ++ lit "2;5r" ++ [27; 91] ++ lit "?6;1004h")].

Lemma remote_modes_are_last_settings_witness :
  let es := demo_events ++ [Output ([27; 91] ++ lit "?7l")] ++ [Resized 80 24] in
  let s := screen_run es (screen_new 80 24) in
  focus_state s = selected_state (history es (focus_parser (screen_new 80 24))) ∧
  history es (focus_parser (screen_new 80 24))
    = [SetRegion (Some (2, 5)); SetOrigin Enabled; SetFocus true; SetWrap Disabled; SetRegion None] ∧
  s = screen_run (demo_events ++ [Output [27; 91]; Output (lit "?7l")] ++ [Resized 80 24]) (screen_new 80 24).
Proof.
  destruct (remote_modes_are_last_settings 80 24 demo_events [27; 91] (lit "?7l") [Resized 80 24])
    as [H1 H2].
  split; [exact H1|]. split; [vm_compute; reflexivity|exact H2].
Defined.

Lemma remote_state_well_typed_witness :
  let s := focus_state (screen_run demo_events (screen_new 80 24)) in
  scroll_region s = Some (2, 5) ∧ focus_state_wf s.
Proof.
  split; [vm_compute; reflexivity|].
  apply (remote_state_well_typed 80 24 demo_events). intros l p. apply demo_advance_wf.
Defined.

(** [CSI r] with the top margin omitted or zero, which terminals take as the first line,
    is no region here. *)
Example omitted_top_margin : region_of [[0]; [10]] = None ∧ region_of [[5]] = None.
Proof. split; reflexivity. Qed.
