(* ===== verification/Guard.v ===== *)
(** * The local terminal

    The model of [TerminalGuard] of [crates/ferrumtty-terminal/src/lib.rs]: entering the
    session modes of the local terminal, writing to it, suspension and the restoration on
    exit. Every operation on the terminal may fail; [tty] decides which do and records
    what was attempted. *)
From S2P Require Import Prelude Emulators TextTerminal Decimal TitleFilter Input Modes.
Local Open Scope Z_scope.

(** ** The terminal *)

(** What the code does to the terminal, in calls to crossterm, rustix and [io::Write]. *)
Inductive tty_op :=
| EnableRawMode | DisableRawMode
| EnableUtf8InputMode
| EnterAlternateScreen | LeaveAlternateScreen
| EnableBracketedPaste | DisableBracketedPaste
| DisableMouseCapture | DisableFocusChange
| WriteAll (l : bytes)
| Flush.

#[export] Instance tty_op_eq_dec : EqDecision tty_op.
Proof. solve_decision. Defined.

Section guard.
Context {io_error : Type}.

(** The outcomes that the operating system has in store (no more failures when they are
    used up), and the operations attempted so far with their outcomes. *)
Record tty := mkTty {
  outcomes : list (option io_error);
  attempts : list (tty_op * option io_error);
}.

Definition attempt {G} (op : tty_op) : M (G * tty) io_error unit := λ '(g, t),
  let result := default None (head (outcomes t)) in
  ((g, mkTty (tail (outcomes t)) (attempts t ++ [(op, result)])),
   match result with Some e => Err e | None => Ok tt end).

(** [crossterm::execute!]: the commands in order, then a flush. *)
Fixpoint execute {G} (commands : list tty_op) : M (G * tty) io_error unit :=
  match commands with
  | [] => attempt Flush
  | op :: commands => attempt op ;! execute commands
  end.

(** [let _ = operation]. *)
Definition ignore {G} (m : M (G * tty) io_error unit) : M (G * tty) io_error unit := λ s,
  let '(s, r) := m s in (s, match r with Panic => Panic | _ => Ok tt end).

(** [operation.err()]. *)
Definition error_of {G} (m : M (G * tty) io_error unit) : M (G * tty) io_error (option io_error) := λ s,
  let '(s, r) := m s in
  (s, match r with Ok _ => Ok None | Err e => Ok (Some e) | Panic => Panic end).

(** ** The guard *)
Context `{Vte} `{Vt100Queries}.

Record TerminalGuard := mkTerminalGuard {
  authoritative : AuthoritativeScreen;
  title_output : TitleOutputFilter;
  alternate_screen_active : bool;
  session_terminal_active : bool;
  local_notice_active : bool;
}.

#[export] Instance eta_TerminalGuard : Eta TerminalGuard := λ g,
  mkTerminalGuard (authoritative g) (title_output g) (alternate_screen_active g)
    (session_terminal_active g) (local_notice_active g).
#[export] Instance upd_authoritative : Update authoritative := ltac:(solve_update).
#[export] Instance upd_title_output : Update title_output := ltac:(solve_update).
#[export] Instance upd_session_terminal_active : Update session_terminal_active := ltac:(solve_update).
#[export] Instance upd_local_notice_active : Update local_notice_active := ltac:(solve_update).

Definition guarded (A : Type) : Type := M (TerminalGuard * tty) io_error A.

Definition self_get : guarded TerminalGuard := λ '(g, t), ((g, t), Ok g).
Definition self_mod (f : TerminalGuard → TerminalGuard) : guarded unit := λ '(g, t), ((f g, t), Ok tt).

Definition enable_session_raw_mode {G} : M (G * tty) io_error unit :=
  attempt EnableRawMode ;!
  let! failed := error_of (attempt EnableUtf8InputMode) in
  match failed with
  | Some e => ignore (attempt DisableRawMode) ;! errM e
  | None => retM tt
  end.

(** [terminal_size]: the size of the console, or of the environment. *)
Definition environment_terminal_size (env_var : string → option bytes) : option (Z * Z) :=
  columns_text ← env_var "COLUMNS"%string; columns ← parse_unsigned 16 columns_text;
  rows_text ← env_var "LINES"%string; rows ← parse_unsigned 16 rows_text;
  Some (Z.max columns 1, Z.max rows 1).

Definition terminal_size (console : outcome io_error (Z * Z)) (env_var : string → option bytes)
    : outcome io_error (Z * Z) :=
  match console with
  | Ok (columns, rows) => Ok (Z.max columns 1, Z.max rows 1)
  | Err e => ok_or e (environment_terminal_size env_var)
  | Panic => Panic
  end.

(** The commands that switch the terminal to a session. *)
Definition set_up {G} (alternate_screen_active : bool) : M (G * tty) io_error unit :=
  if alternate_screen_active then
    execute [EnterAlternateScreen; EnableBracketedPaste] ;!
    attempt (WriteAll ([0x1b] ++ lit "[?1h")) ;! attempt Flush
  else execute [EnableBracketedPaste].

(** [skip_initialization]: whether MOSH_NO_TERM_INIT is set. *)
Definition enter_with_title_policy (title_policy : TitlePolicy)
    (console : outcome io_error (Z * Z)) (env_var : string → option bytes)
    (skip_initialization : bool) : M (unit * tty) io_error TerminalGuard :=
  let! size := liftM (terminal_size console env_var) in
  let '(columns, rows) := size in
  enable_session_raw_mode ;!
  let alternate_screen_active := negb skip_initialization in
  let! failed := error_of (set_up alternate_screen_active) in
  match failed with
  | Some e =>
      (if alternate_screen_active then ignore (execute [LeaveAlternateScreen]) else retM tt) ;!
      ignore (attempt DisableRawMode) ;! errM e
  | None =>
      retM {| authoritative := screen_new columns rows;
              title_output := filter_new title_policy;
              alternate_screen_active := alternate_screen_active;
              session_terminal_active := true;
              local_notice_active := false |}
  end.

Definition write_bytes (l : bytes) : guarded unit := attempt (WriteAll l) ;! attempt Flush.

Definition redraw_authoritative : guarded unit :=
  let! self := self_get in write_bytes (formatted (authoritative self)).

Definition clear_local_notice : guarded unit :=
  let! self := self_get in
  if negb (local_notice_active self) then retM tt
  else self_mod (λ g, g <| local_notice_active := false |>) ;! redraw_authoritative.

(** The filter writes into the guard and answers with the bytes to send. *)
Definition with_titles (f : TitleOutputFilter → TitleOutputFilter * bytes) : guarded bytes :=
  let! self := self_get in
  let '(filter, output) := f (title_output self) in
  self_mod (λ g, g <| title_output := filter |>) ;! retM output.

Definition write_server_bytes (l : bytes) : guarded unit :=
  clear_local_notice ;!
  self_mod (λ g, g <| authoritative ::= screen_process l |>) ;!
  let! filtered := with_titles (process l) in
  write_bytes filtered.

Definition write_overlay_bytes (l : bytes) : guarded unit := write_bytes l.

Definition write_local_notice (l : bytes) : guarded unit :=
  clear_local_notice ;! write_bytes l ;!
  self_mod (λ g, g <| local_notice_active := true |>).

Definition resize_model (columns rows : Z) : guarded unit :=
  self_mod (λ g, g <| authoritative ::= screen_resize columns rows |>).

(** [first_error.get_or_insert(error)]. *)
Definition get_or_insert (first_error error : option io_error) : option io_error :=
  match first_error with Some e => Some e | None => error end.

Definition deactivate_terminal : guarded unit :=
  let! self := self_get in
  if negb (session_terminal_active self) then retM tt
  else
    let! e0 := error_of (execute [DisableBracketedPaste; DisableMouseCapture; DisableFocusChange]) in
    let! remote_title := with_titles restore_remote_title in
    let! e1 := error_of (write_bytes remote_title) in
    let first_error := get_or_insert e0 e1 in
    let! first_error :=
      (if alternate_screen_active self then
         let! e2 := error_of (attempt (WriteAll ([0x1b] ++ lit "[?1l"))) in
         let! e3 := error_of (execute [LeaveAlternateScreen]) in
         retM (get_or_insert (get_or_insert first_error e2) e3)
       else retM first_error) in
    let! e4 := error_of (attempt DisableRawMode) in
    let first_error := get_or_insert first_error e4 in
    self_mod (λ g, g <| session_terminal_active := false |>) ;!
    match first_error with Some e => errM e | None => retM tt end.

Definition leave_for_suspend : guarded unit :=
  self_mod (λ g, g <| local_notice_active := false |>) ;! deactivate_terminal.

Definition resume_after_suspend : guarded unit :=
  let! self := self_get in
  if session_terminal_active self then retM tt
  else
    enable_session_raw_mode ;!
    let! failed := error_of (set_up (alternate_screen_active self)) in
    match failed with
    | Some e => ignore (attempt DisableRawMode) ;! errM e
    | None =>
        self_mod (λ g, g <| session_terminal_active := true |> <| local_notice_active := false |>) ;!
        redraw_authoritative ;!
        let! title := with_titles reapply_policy in
        write_bytes title
    end.

(** [Drop]: what remains to be restored is, and errors are ignored. *)
Definition guard_drop : guarded unit := ignore deactivate_terminal.

(** The calls of a client on a guard. *)
Inductive guard_call :=
| WriteServer (l : bytes)
| WriteOverlay (l : bytes)
| WriteNotice (l : bytes)
| ClearNotice
| Redraw
| Resize (columns rows : Z)
| LeaveForSuspend
| ResumeAfterSuspend.

Definition run_call (c : guard_call) : guarded unit :=
  match c with
  | WriteServer l => write_server_bytes l
  | WriteOverlay l => write_overlay_bytes l
  | WriteNotice l => write_local_notice l
  | ClearNotice => clear_local_notice
  | Redraw => redraw_authoritative
  | Resize columns rows => resize_model columns rows
  | LeaveForSuspend => leave_for_suspend
  | ResumeAfterSuspend => resume_after_suspend
  end.

Definition guard_remote_modes (self : TerminalGuard) : RemoteTerminalModes :=
  remote_modes (authoritative self).
Definition guard_remote_title (self : TerminalGuard) : option bytes :=
  remote_title (authoritative self).
Definition guard_prediction_cursor_context (self : TerminalGuard) : PredictionCursorContext :=
  prediction_cursor_context (authoritative self).

(** ** Reasoning about attempts

    [holds m g Q]: run from the guard [g] on any terminal, [m] makes some attempts [new],
    and [Q] holds of the outcome, the guard left behind and [new]. *)
Definition attempted := list (tty_op * option io_error).

Definition holds {G A} (m : M (G * tty) io_error A) (g : G)
    (Q : outcome io_error A → G → attempted → Prop) : Prop :=
  ∀ t, let '((g', t'), r) := m (g, t) in ∃ new, attempts t' = attempts t ++ new ∧ Q r g' new.

Section holds.
Context {G : Type}.
Implicit Types g : G.

Lemma holds_mono {A} (m : M (G * tty) io_error A) g (P Q : outcome io_error A → G → attempted → Prop) :
  holds m g P → (∀ r g' new, P r g' new → Q r g' new) → holds m g Q.
Proof.
  intros Hm Hq t. specialize (Hm t). destruct (m (g, t)) as [[g' t'] r].
  destruct Hm as (new & ? & ?). exists new. auto.
Qed.

Lemma holds_bind {A B} (m : M (G * tty) io_error A) (k : A → M (G * tty) io_error B) g Q :
  holds m g (λ r g' new, match r with
    | Ok a => holds (k a) g' (λ r' g'' new', Q r' g'' (new ++ new'))
    | Err e => Q (Err e) g' new
    | Panic => Q Panic g' new
    end) → holds (bindM m k) g Q.
Proof.
  intros Hm t. specialize (Hm t). unfold bindM. destruct (m (g, t)) as [[g' t'] r].
  destruct Hm as (new & Hnew & Hq). destruct r as [a|e|]; [|by exists new..].
  specialize (Hq t'). destruct (k a (g', t')) as [[g'' t''] r'].
  destruct Hq as (new' & Hnew' & Hq). exists (new ++ new').
  by rewrite Hnew', Hnew, app_assoc.
Qed.

Lemma holds_ret {A} (a : A) g (Q : outcome io_error A → G → attempted → Prop) :
  Q (Ok a) g [] → holds (retM a) g Q.
Proof. intros Hq t. cbn. exists []. by rewrite app_nil_r. Qed.

Lemma holds_err {A} e g (Q : outcome io_error A → G → attempted → Prop) :
  Q (Err e) g [] → holds (errM e) g Q.
Proof. intros Hq t. cbn. exists []. by rewrite app_nil_r. Qed.

Definition result_of (r : option io_error) : outcome io_error unit :=
  match r with Some e => Err e | None => Ok tt end.

Lemma holds_attempt op g Q :
  (∀ r, Q (result_of r) g [(op, r)]) → holds (attempt op) g Q.
Proof. intros Hq t. cbn. eexists. split; [reflexivity|]. apply Hq. Qed.

Lemma holds_error_of (m : M (G * tty) io_error unit) g Q :
  holds m g (λ r g' new, match r with
    | Ok _ => Q (Ok None) g' new
    | Err e => Q (Ok (Some e)) g' new
    | Panic => Q Panic g' new
    end) → holds (error_of m) g Q.
Proof.
  intros Hm t. specialize (Hm t). unfold error_of. destruct (m (g, t)) as [[g' t'] r].
  destruct Hm as (new & Hnew & Hq). destruct r; by exists new.
Qed.

Lemma holds_ignore (m : M (G * tty) io_error unit) g Q :
  holds m g (λ r g' new, match r with Panic => Q Panic g' new | _ => Q (Ok tt) g' new end) →
  holds (ignore m) g Q.
Proof.
  intros Hm t. specialize (Hm t). unfold ignore. destruct (m (g, t)) as [[g' t'] r].
  destruct Hm as (new & Hnew & Hq). destruct r; by exists new.
Qed.

(** *** Reports: the outcome is the first failure of the attempts *)
Definition first_failure (l : attempted) : option io_error := head (omap snd l).

Lemma first_failure_app l k :
  first_failure (l ++ k) = get_or_insert (first_failure l) (first_failure k).
Proof. unfold first_failure. rewrite omap_app. by destruct (omap snd l). Qed.

Definition reported {A} (r : outcome io_error A) (l : attempted) : Prop :=
  match r with
  | Ok _ => first_failure l = None
  | Err e => first_failure l = Some e
  | Panic => False
  end.

Lemma reported_ok {A} (r : outcome io_error A) l k :
  first_failure l = None → reported r k → reported r (l ++ k).
Proof. unfold reported. rewrite first_failure_app. by intros ->. Qed.

Lemma reported_err {A} e l k : first_failure l = Some e → reported (A:=A) (Err e) (l ++ k).
Proof. unfold reported. rewrite first_failure_app. by intros ->. Qed.

Lemma reported_result r op : reported (result_of r) [(op, r)].
Proof. by destruct r. Qed.
End holds.

(** *** Raw mode

    Whether the terminal is in raw mode: an operation that fails leaves it as it was. *)
Definition raw_step (on : bool) (a : tty_op * option io_error) : bool :=
  match a with
  | (EnableRawMode, None) => true
  | (DisableRawMode, None) => false
  | _ => on
  end.
Definition raw_after (on : bool) (l : attempted) : bool := fold_left raw_step l on.

(** Whether raw mode was enabled with no attempt to disable it since: what the guard can
    know, since it does not retry an attempt that failed. *)
Definition held_step (held : bool) (a : tty_op * option io_error) : bool :=
  match a with
  | (EnableRawMode, None) => true
  | (DisableRawMode, _) => false
  | _ => held
  end.
Definition held_after (held : bool) (l : attempted) : bool := fold_left held_step l held.

Lemma held_after_app held l k : held_after held (l ++ k) = held_after (held_after held l) k.
Proof. apply fold_left_app. Qed.

(** The terminal refused the last attempt to disable raw mode, which was not enabled again. *)
Definition refused (l : attempted) : Prop :=
  ∃ before e after, l = before ++ (DisableRawMode, Some e) :: after ∧
    Forall (λ a, a.1 ≠ DisableRawMode ∧ a ≠ (EnableRawMode, None)) after.

(** Raw mode is off, unless the terminal refused that. *)
Definition disabled (l : attempted) : Prop := raw_after false l = false ∨ refused l.

Lemma refused_snoc l a :
  refused l → a.1 ≠ DisableRawMode → a ≠ (EnableRawMode, None) → refused (l ++ [a]).
Proof.
  intros (before & e & after & -> & Hafter) Ha Hb. exists before, e, (after ++ [a]).
  split; [by rewrite <- app_assoc|]. apply Forall_app. split; [done|]. by apply Forall_singleton.
Qed.

Lemma held_spec l :
  if held_after false l then raw_after false l = true else disabled l.
Proof.
  induction l as [|[op r] l IH] using rev_ind; [by left|].
  unfold disabled, held_after, raw_after in *. rewrite !fold_left_app. cbn [fold_left].
  destruct (decide (op = DisableRawMode)) as [->|Hop].
  { destruct r as [e|]; cbn [held_step raw_step]; [right|by left]. exists l, e, []. by split. }
  assert (op = EnableRawMode ∧ r = None ∨ (op, r) ≠ (EnableRawMode, None)) as [[-> ->]|Hen]
    by (destruct op, r; try (by left); by right); [done|].
  assert (∀ b, held_step b (op, r) = b ∧ raw_step b (op, r) = b) as Hb
    by (intros b; destruct op, r; try done; by destruct Hen).
  destruct (Hb (fold_left held_step l false)) as [-> _], (Hb (fold_left raw_step l false)) as [_ ->].
  destruct (fold_left held_step l false); [done|]. destruct IH as [IH|IH]; [by left|right].
  by apply refused_snoc.
Qed.

Lemma held_raw l : held_after false l = true → raw_after false l = true.
Proof. intros Hl. pose proof (held_spec l) as Hs. by rewrite Hl in Hs. Qed.

Lemma not_held_disabled l : held_after false l = false → disabled l.
Proof. intros Hl. pose proof (held_spec l) as Hs. by rewrite Hl in Hs. Qed.

(** A step that reports its first failure and leaves the hold on raw mode to the flag of the guard. *)
Definition well_behaved {A} (m : guarded A) : Prop :=
  ∀ g, holds m g (λ r g' new, reported r new ∧
    held_after (session_terminal_active g) new = session_terminal_active g').

Section well_behaved.
Implicit Types g : TerminalGuard.

Lemma behaved_bind {A B} (m : guarded A) (k : A → guarded B) :
  well_behaved m → (∀ a, well_behaved (k a)) → well_behaved (bindM m k).
Proof.
  intros Hm Hk g. apply holds_bind. eapply holds_mono; [apply Hm|]. intros r g' new [Hr Hraw].
  destruct r as [a|e|]; [|done..]. eapply holds_mono; [apply Hk|]. intros r g'' new' [Hr' Hraw'].
  split; [by apply reported_ok|]. by rewrite held_after_app, Hraw.
Qed.

Lemma behaved_ret {A} (a : A) : well_behaved (retM a).
Proof. intros g. by apply holds_ret. Qed.

Lemma behaved_get : well_behaved self_get.
Proof. intros g t. exists []. by rewrite app_nil_r. Qed.

Lemma behaved_mod f :
  (∀ g, session_terminal_active (f g) = session_terminal_active g) → well_behaved (self_mod f).
Proof. intros Hf g t. cbn. exists []. rewrite app_nil_r. by split; [|split; [|rewrite Hf]]. Qed.

Definition raw_op (op : tty_op) : bool := bool_decide (op = EnableRawMode ∨ op = DisableRawMode).

Lemma behaved_attempt op : raw_op op = false → well_behaved (attempt op).
Proof.
  intros Hop g. apply holds_attempt. intros r. split; [apply reported_result|].
  by destruct op, r.
Qed.

Lemma behaved_write l : well_behaved (write_bytes l).
Proof. apply behaved_bind; intros; by apply behaved_attempt. Qed.

Lemma behaved_titles f : well_behaved (with_titles f).
Proof.
  apply behaved_bind; [apply behaved_get|]. intros self. destruct (f (title_output self)) as [filter output].
  apply behaved_bind; [by apply behaved_mod|]. intros. apply behaved_ret.
Qed.

Lemma behaved_redraw : well_behaved redraw_authoritative.
Proof. apply behaved_bind; [apply behaved_get|]. intros. apply behaved_write. Qed.

Lemma behaved_clear : well_behaved clear_local_notice.
Proof.
  apply behaved_bind; [apply behaved_get|]. intros self. destruct (negb _); [apply behaved_ret|].
  apply behaved_bind; [by apply behaved_mod|]. intros. apply behaved_redraw.
Qed.

Lemma behaved_server l : well_behaved (write_server_bytes l).
Proof.
  apply behaved_bind; [apply behaved_clear|]. intros. apply behaved_bind; [by apply behaved_mod|]. intros.
  apply behaved_bind; [apply behaved_titles|]. intros. apply behaved_write.
Qed.

Lemma behaved_notice l : well_behaved (write_local_notice l).
Proof.
  apply behaved_bind; [apply behaved_clear|]. intros. apply behaved_bind; [apply behaved_write|]. intros.
  by apply behaved_mod.
Qed.
End well_behaved.
(** *** Steps that leave the guard and raw mode alone *)
Definition not_raw (l : attempted) : Prop := Forall (λ a, raw_op a.1 = false) l.

Lemma held_after_not_raw on l : not_raw l → held_after on l = on.
Proof.
  induction 1 as [|[op r] l Hop Hl IH]; [done|]. cbn [held_after fold_left].
  assert (held_step on (op, r) = on) as -> by (destruct op; done). exact IH.
Qed.

(** The operations of a group are attempted in order, up to the first that fails. *)
Fixpoint stops_at_failure (group : list tty_op) (l : attempted) : Prop :=
  match group, l with
  | [], [] => True
  | op :: _, [(op', Some _)] => op' = op
  | op :: group, (op', None) :: l => op' = op ∧ stops_at_failure group l
  | _, _ => False
  end.

Lemma stops_app group l group' l' :
  stops_at_failure group l → first_failure l = None → stops_at_failure group' l' →
  stops_at_failure (group ++ group') (l ++ l').
Proof.
  revert l. induction group as [|op group IH]; intros [|[op' [e|]] l]; cbn; [done..| | |]; try done.
  intros [-> Hl] Hf Hk. split; [done|]. by apply IH.
Qed.

Lemma stops_failed group l e group' :
  stops_at_failure group l → first_failure l = Some e → stops_at_failure (group ++ group') l.
Proof.
  revert l. induction group as [|op group IH]; intros [|[op' [e'|]] l] Hl Hf; try by destruct Hl || done.
  destruct Hl as [-> Hl]. split; [done|]. by apply IH.
Qed.

(** The first one is always attempted. *)
Lemma stops_head op group l : stops_at_failure (op :: group) l → op ∈ fst <$> l.
Proof. destruct l as [|[op' [e|]] l]; cbn; [done| |intros [-> _]; set_solver]. destruct l; [intros ->; set_solver|done]. Qed.

Definition quiet {G} (group : list tty_op) (m : M (G * tty) io_error unit) : Prop :=
  ∀ g, holds m g (λ r g' new, g' = g ∧ reported r new ∧ not_raw new ∧ stops_at_failure group new).

Section quiet.
Context {G : Type}.

Lemma quiet_attempt op : raw_op op = false → quiet (G:=G) [op] (attempt op).
Proof.
  intros Hop g. apply holds_attempt. intros r. split_and!; [done|apply reported_result| |by destruct r].
  by apply Forall_singleton.
Qed.

Lemma quiet_seq group group' (m k : M (G * tty) io_error unit) :
  quiet group m → quiet group' k → quiet (group ++ group') (m ;! k).
Proof.
  intros Hm Hk g. apply holds_bind. eapply holds_mono; [apply Hm|]. intros r g' new (-> & Hr & Hn & Hi).
  destruct r as [[]|e|]; [| |done].
  2: { split_and!; [done..|]. by eapply stops_failed. }
  eapply holds_mono; [apply Hk|]. intros r g'' new' (-> & Hr' & Hn' & Hi').
  split_and!; [done|by apply reported_ok|by apply Forall_app|]. by apply stops_app.
Qed.

Lemma quiet_execute commands :
  Forall (λ c, raw_op c = false) commands → quiet (G:=G) (commands ++ [Flush]) (execute commands).
Proof.
  induction 1 as [|op commands Hop Hc IH]; [by apply quiet_attempt|].
  change ((op :: commands) ++ [Flush]) with ([op] ++ commands ++ [Flush]).
  apply quiet_seq; [by apply quiet_attempt|done].
Qed.

Lemma quiet_write l : quiet (G:=G) [WriteAll l; Flush] (attempt (WriteAll l) ;! attempt Flush).
Proof. change [WriteAll l; Flush] with ([WriteAll l] ++ [Flush]). by apply quiet_seq; apply quiet_attempt. Qed.

Lemma quiet_set_up alternate :
  ∃ group, quiet (G:=G) group (set_up alternate).
Proof.
  destruct alternate; eexists; cbn [set_up].
  - apply quiet_seq; [apply quiet_execute; by repeat constructor|apply quiet_write].
  - apply quiet_execute. by repeat constructor.
Qed.

Lemma holds_error_of_quiet group (m : M (G * tty) io_error unit) g Q :
  quiet group m →
  (∀ new, not_raw new → stops_at_failure group new → Q (Ok (first_failure new)) g new) →
  holds (error_of m) g Q.
Proof.
  intros Hm Hq. apply holds_error_of. eapply holds_mono; [apply Hm|].
  intros r g' new (-> & Hr & Hn & Hi). destruct r as [[]|e|]; [| |done]; cbn in Hr;
    specialize (Hq new Hn Hi); by rewrite Hr in Hq.
Qed.

(** Entering raw mode, or giving it up again. *)
Lemma holds_enable_raw (g : G) Q :
  (∀ r new, reported r new → held_after false new = is_ok r →
            EnterAlternateScreen ∉ fst <$> new → Q r g new) →
  holds enable_session_raw_mode g Q.
Proof.
  intros Hq. unfold enable_session_raw_mode. apply holds_bind, holds_attempt. intros [e|]; cbn [result_of].
  { apply Hq; [done|done|]. cbn. set_solver. }
  apply holds_bind, holds_error_of, holds_attempt. intros [e|]; cbn [result_of].
  - apply holds_bind, holds_ignore, holds_attempt. intros r. destruct r as [e'|]; cbn [result_of];
      apply holds_err, Hq; cbn; done || set_solver.
  - apply holds_ret, Hq; cbn; done || set_solver.
Qed.
End quiet.

Lemma holds_titles f g Q :
  Q (Ok (f (title_output g)).2) (g <| title_output := (f (title_output g)).1 |>) [] →
  holds (with_titles f) g Q.
Proof.
  intros Hq t. unfold with_titles. cbn. destruct (f (title_output g)) as [filter output]. cbn.
  exists []. by rewrite app_nil_r.
Qed.

Lemma holds_get g Q : Q (Ok g) g [] → holds self_get g Q.
Proof. intros Hq t. exists []. by rewrite app_nil_r. Qed.

Lemma holds_mod f g Q : Q (Ok tt) (f g) [] → holds (self_mod f) g Q.
Proof. intros Hq t. exists []. by rewrite app_nil_r. Qed.

Lemma reported_first l : reported (result_of (first_failure l)) l.
Proof. unfold reported. by destruct (first_failure l). Qed.

Lemma holds_result {G} r (g : G) Q :
  Q (result_of r) g [] → holds (match r with Some e => errM e | None => retM tt end) g Q.
Proof. destruct r; [apply holds_err|apply holds_ret]. Qed.

(** What deactivating an active guard attempts: groups of operations, each up to its first
    failure, and the next group whatever became of the ones before. *)
Definition clean_up (g : TerminalGuard) : list (list tty_op) :=
  [[DisableBracketedPaste; DisableMouseCapture; DisableFocusChange; Flush];
   [WriteAll (restore_remote_title (title_output g)).2; Flush]]
  ++ (if alternate_screen_active g
      then [[WriteAll ([0x1b] ++ lit "[?1l")]; [LeaveAlternateScreen; Flush]] else [])
  ++ [[DisableRawMode]].

Definition cleaned_up (g : TerminalGuard) (new : attempted) : Prop :=
  ∃ parts, new = mjoin parts ∧ Forall2 stops_at_failure (clean_up g) parts.

Lemma deactivate_holds g :
  session_terminal_active g = true →
  holds deactivate_terminal g (λ r g' new, reported r new ∧ held_after true new = false ∧
    session_terminal_active g' = false ∧ alternate_screen_active g' = alternate_screen_active g ∧
    cleaned_up g new).
Proof.
  intros Ha. unfold deactivate_terminal, cleaned_up, clean_up.
  apply holds_bind, holds_get. rewrite Ha. cbn [negb].
  apply holds_bind. eapply holds_error_of_quiet; [apply quiet_execute; by repeat constructor|].
  intros n0 Hn0 Hi0. apply holds_bind, holds_titles. cbn [snd].
  apply holds_bind. eapply holds_error_of_quiet; [apply quiet_write|].
  intros n1 Hn1 Hi1. rewrite <- first_failure_app. apply holds_bind.
  eapply (holds_mono _ _ (λ r g' new, ∃ ks, r = Ok (first_failure ((n0 ++ n1) ++ mjoin ks)) ∧
    new = mjoin ks ∧ not_raw (mjoin ks) ∧
    session_terminal_active g' = true ∧ alternate_screen_active g' = alternate_screen_active g ∧
    Forall2 stops_at_failure (if alternate_screen_active g
      then [[WriteAll ([0x1b] ++ lit "[?1l")]; [LeaveAlternateScreen; Flush]] else []) ks)).
  { destruct (alternate_screen_active g) eqn:Halt.
    - apply holds_bind. eapply holds_error_of_quiet; [by apply quiet_attempt|]. intros n2 Hn2 Hi2.
      apply holds_bind. eapply holds_error_of_quiet; [apply (quiet_execute [_]); by repeat constructor|].
      intros n3 Hn3 Hi3. apply holds_ret. exists [n2; n3]. cbn [mjoin list_join]. rewrite !app_nil_r. split_and!; try done.
      + by rewrite app_assoc, !first_failure_app.
      + by apply Forall_app.
      + by repeat constructor.
    - apply holds_ret. exists []. split_and!; try done; [by cbn; rewrite app_nil_r|constructor..]. }
  intros r g' new (ks & -> & -> & Hk & Hs & Halt & Hks).
  apply holds_bind, holds_error_of, holds_attempt. intros r4.
  assert (Hend : first_failure (n0 ++ n1 ++ mjoin ks ++ [(DisableRawMode, r4)])
                 = get_or_insert (first_failure ((n0 ++ n1) ++ mjoin ks)) r4).
  { rewrite !app_assoc, first_failure_app. by destruct r4. }
  assert (Hraw : held_after true (n0 ++ n1 ++ mjoin ks ++ [(DisableRawMode, r4)]) = false)
    by (rewrite !held_after_app, (held_after_not_raw _ n0), (held_after_not_raw _ n1),
      (held_after_not_raw _ (mjoin ks)) by done; reflexivity).
  assert (Hall : ∃ parts, n0 ++ n1 ++ mjoin ks ++ [(DisableRawMode, r4)] = mjoin parts ∧
    Forall2 stops_at_failure (clean_up g) parts).
  { exists ([n0; n1] ++ ks ++ [[(DisableRawMode, r4)]]). split.
    - unfold attempted in *. rewrite !join_app. cbn [mjoin list_join]. by rewrite !app_nil_r, <- !app_assoc.
    - apply Forall2_app; [by repeat constructor|]. apply Forall2_app; [done|]. repeat constructor. by destruct r4. }
  destruct r4 as [e|]; cbn [result_of]; apply holds_bind, holds_mod, holds_result; cbn [app];
    rewrite ?app_nil_r; (split_and!; [by rewrite <- Hend; apply reported_first|done..]).
Qed.

(** *** Suspension, resumption and entering *)
Lemma behaved_deactivate : well_behaved deactivate_terminal.
Proof.
  intros g. destruct (session_terminal_active g) eqn:Ha.
  - eapply holds_mono; [by apply deactivate_holds|]. intros r g' new (Hr & Hraw & Hs & _).
    split; [done|congruence].
  - unfold deactivate_terminal. apply holds_bind, holds_get. rewrite Ha. by apply holds_ret.
Qed.

Lemma behaved_leave : well_behaved leave_for_suspend.
Proof. apply behaved_bind; [by apply behaved_mod|]. intros. apply behaved_deactivate. Qed.

Lemma leave_holds g :
  session_terminal_active g = true →
  holds (run_call LeaveForSuspend) g (λ r g' new, reported r new ∧
    session_terminal_active g' = false ∧ cleaned_up g new).
Proof.
  intros Ha. apply holds_bind, holds_mod. eapply holds_mono; [by apply deactivate_holds|].
  by intros r g' new (Hr & _ & Hs & _ & Hc).
Qed.

Lemma behaved_resumed :
  well_behaved (redraw_authoritative ;! let! title := with_titles reapply_policy in write_bytes title).
Proof.
  apply behaved_bind; [apply behaved_redraw|]. intros.
  apply behaved_bind; [apply behaved_titles|]. intros. apply behaved_write.
Qed.

Lemma behaved_resume : well_behaved resume_after_suspend.
Proof.
  intros g. unfold resume_after_suspend. apply holds_bind, holds_get.
  destruct (session_terminal_active g) eqn:Ha; [by apply holds_ret|].
  apply holds_bind, holds_enable_raw. intros [[]|e|] n0 Hr0 Hraw0 _; cbn [is_ok] in Hraw0; [|by rewrite Ha|done].
  apply holds_bind. destruct (quiet_set_up (G:=TerminalGuard) (alternate_screen_active g)) as [op Hop].
  eapply holds_error_of_quiet; [exact Hop|]. intros n1 Hn1 _. cbn in Hr0.
  destruct (first_failure n1) as [e|] eqn:He.
  - apply holds_bind, holds_ignore, holds_attempt. intros r4.
    assert (Hend : reported (A:=unit) (Err e) (n0 ++ n1 ++ [(DisableRawMode, r4)]) ∧
                   held_after false (n0 ++ n1 ++ [(DisableRawMode, r4)]) = false).
    { split; [|by rewrite !held_after_app]. apply reported_ok; [done|]. by apply reported_err. }
    destruct r4; cbn [result_of]; apply holds_err; cbn [app] in *; rewrite ?app_nil_r; rewrite Ha; exact Hend.
  - apply holds_bind, holds_mod. eapply holds_mono; [apply behaved_resumed|].
    intros r g' new [Hr Hraw]. cbn [app]. split.
    + by apply reported_ok, reported_ok.
    + rewrite !held_after_app, Hraw0, (held_after_not_raw _ n1) by done. exact Hraw.
Qed.

Lemma behaved_call c : well_behaved (run_call c).
Proof.
  destruct c; cbn [run_call].
  - apply behaved_server.
  - apply behaved_write.
  - apply behaved_notice.
  - apply behaved_clear.
  - apply behaved_redraw.
  - by apply behaved_mod.
  - apply behaved_leave.
  - apply behaved_resume.
Qed.

(** Entering: an error is the one of the terminal size, with nothing attempted, or the
    first failure, with raw mode given up again. *)
Definition entered (alternate : bool) (r : outcome io_error TerminalGuard) (new : attempted) : Prop :=
  match r with
  | Ok g => reported r new ∧ held_after false new = true ∧ session_terminal_active g = true ∧
            alternate_screen_active g = alternate
  | Err e => (new = [] ∨ reported r new) ∧ held_after false new = false ∧
             (alternate = true → EnterAlternateScreen ∈ fst <$> new → LeaveAlternateScreen ∈ fst <$> new)
  | Panic => False
  end.

Lemma enter_holds policy console env_var skip :
  console ≠ Panic →
  holds (enter_with_title_policy policy console env_var skip) tt (λ r _ new, entered (negb skip) r new).
Proof.
  intros Hconsole. unfold enter_with_title_policy. apply holds_bind.
  assert (Hl : holds (liftM (terminal_size console env_var)) tt (λ r g' new, new = [] ∧ r ≠ Panic)).
  { intros t. exists []. split_and!; [by rewrite app_nil_r|done|]. unfold terminal_size, ok_or.
    destruct console as [[]|e|]; try done. by destruct (environment_terminal_size env_var). }
  eapply holds_mono; [exact Hl|]. intros [[columns rows]|e|] [] new [-> Hp]; [| |done].
  2: { split_and!; [by left|done|set_solver]. }
  cbn [app]. apply holds_bind, holds_enable_raw.
  intros [[]|e|] n0 Hr0 Hraw0 Halt0; cbn [is_ok] in Hraw0; [| |done].
  2: { split_and!; [by right|done|]. intros _ Hin. by destruct Halt0. }
  apply holds_bind. destruct (quiet_set_up (G:=unit) (negb skip)) as [op Hop].
  eapply holds_error_of_quiet; [exact Hop|]. intros n1 Hn1 _. cbn in Hr0.
  destruct (first_failure n1) as [e|] eqn:He.
  2: { apply holds_ret. split_and!; [|by rewrite app_nil_r, held_after_app, Hraw0, held_after_not_raw|done..].
       by rewrite app_nil_r; apply reported_ok. }
  apply holds_bind. eapply (holds_mono _ _ (λ r g' new, r = Ok tt ∧ not_raw new ∧
    (negb skip = true → LeaveAlternateScreen ∈ fst <$> new))).
  { destruct (negb skip); [|apply holds_ret; split_and!; [done|constructor|done]].
    apply holds_ignore. eapply holds_mono; [by apply (quiet_execute [_]); repeat constructor|].
    intros r [] n2 (_ & Hr & Hn2 & Hi%stops_head). by destruct r. }
  intros r [] n2 (-> & Hn2 & Hi2). apply holds_bind, holds_ignore, holds_attempt. intros r4.
  assert (Hend : entered (negb skip) (Err e) (n0 ++ n1 ++ n2 ++ [(DisableRawMode, r4)])).
  { split_and!.
    - right. apply reported_ok; [done|]. by apply reported_err.
    - by rewrite !held_after_app.
    - intros Hskip _. rewrite !fmap_app. specialize (Hi2 Hskip). set_solver. }
  destruct r4; cbn [result_of]; apply holds_err; cbn [app] in *; rewrite ?app_nil_r; exact Hend.
Qed.

(** The calls of a session, whatever they answer. *)
Definition run_session (cs : list guard_call) (s : TerminalGuard * tty) : TerminalGuard * tty :=
  fold_left (λ s c, (run_call c s).1) cs s.

Lemma run_session_raw cs g t on :
  held_after on (attempts t) = session_terminal_active g →
  let '(g', t') := run_session cs (g, t) in
  held_after on (attempts t') = session_terminal_active g'.
Proof.
  revert g t. induction cs as [|c cs IH]; intros g t Hraw; [done|].
  change (run_session (c :: cs) (g, t)) with (run_session cs (run_call c (g, t)).1).
  pose proof (behaved_call c g t) as Hc. destruct (run_call c (g, t)) as [[g1 t1] r].
  destruct Hc as (new & Hnew & _ & Hc). apply IH. by rewrite Hnew, held_after_app, Hraw.
Qed.

(** Dropping the guard disables raw mode, and goes through all of the clean-up. *)
Lemma drop_restores g t :
  held_after false (attempts t) = session_terminal_active g →
  let '((_, t'), r) := guard_drop (g, t) in
  r ≠ Panic ∧ held_after false (attempts t') = false ∧
  ∃ new, attempts t' = attempts t ++ new ∧
    (if session_terminal_active g then cleaned_up g new else new = []).
Proof.
  intros Hrun. unfold guard_drop, ignore. destruct (session_terminal_active g) eqn:Ha.
  - generalize (deactivate_holds g Ha t). destruct (deactivate_terminal (g, t)) as [[g' t'] r].
    intros (new & Hn & Hrep & Hr & _ & _ & Hc). split_and!; [by destruct r| |by exists new].
    by rewrite Hn, held_after_app, Hrun.
  - unfold deactivate_terminal, bindM, self_get. cbn. rewrite Ha. split_and!; [done..|].
    exists []. by rewrite app_nil_r.
Qed.
End guard.

(** C36: Every operation on the terminal guard reports exactly the first failure among the
    terminal operations it attempts, and succeeds only when all of them did. Leaving the
    terminal attempts exactly the clean-up: five groups (bracketed paste, mouse capture and
    focus reports; the title; and with an alternate screen the cursor keys and the screen;
    raw mode), each in order and up to its first failure, which never keeps a later group
    from being attempted. *)
Theorem terminal_errors_reported {io_error} `{Vte} `{Vt100Queries} c g (t : tty (io_error:=io_error)) :
  let '((g', t'), r) := run_call c (g, t) in
  ∃ new, attempts t' = attempts t ++ new ∧
    match r with
    | Ok _ => first_failure new = None
    | Err e => first_failure new = Some e
    | Panic => False
    end ∧
    (c = LeaveForSuspend →
     if session_terminal_active g then session_terminal_active g' = false ∧ cleaned_up g new
     else r = Ok tt ∧ new = []).
Proof.
  destruct (session_terminal_active g) eqn:Ha; [destruct c as [| | | | | | |]|].
  7: { generalize (leave_holds g Ha t). destruct (run_call LeaveForSuspend (g, t)) as [[g' t'] r].
       intros (new & Hn & Hr & Hs & Hc). exists new. by split_and!. }
  all: match goal with |- context [run_call ?c _] => generalize (behaved_call c g t);
         destruct (run_call c (g, t)) as [[g' t'] r] eqn:Hrun end;
       intros (new & Hn & Hr & _); exists new; split_and!; try done.
  intros ->. cbn in Hrun. rewrite Ha in Hrun. cbn in Hrun. injection Hrun as <- <- <-. split; [done|].
  by apply (app_inv_head (attempts t)); rewrite app_nil_r.
Qed.

(** C7: On a terminal that may fail at every step, the client leaves raw mode behind only
    when the terminal refuses to disable it. After any calls on the guard, raw mode is on
    while the guard says so; and while it says otherwise, after dropping it and after
    failing to enter, raw mode is off, or the last attempt to disable it was made and
    failed. A failed entry also attempts to leave an alternate screen that it attempted to
    enter, and dropping an active guard goes through every group of the clean-up. *)
Theorem terminal_always_restored {io_error} `{Vte} `{Vt100Queries} policy console env_var skip cs
    (outcomes : list (option io_error)) :
  console ≠ Panic →
  let '((_, t), r) := enter_with_title_policy policy console env_var skip (tt, mkTty outcomes []) in
  match r with
  | Ok g =>
      let '(g', t') := run_session cs (g, t) in
      (if session_terminal_active g' then raw_after false (attempts t') = true
       else disabled (attempts t')) ∧
      let '((_, t''), _) := guard_drop (g', t') in
      disabled (attempts t'') ∧
      ∃ new, attempts t'' = attempts t' ++ new ∧
        (if session_terminal_active g' then cleaned_up g' new else new = [])
  | _ =>
      disabled (attempts t) ∧
      (skip = false → EnterAlternateScreen ∈ fst <$> attempts t → LeaveAlternateScreen ∈ fst <$> attempts t)
  end.
Proof.
  intros Hconsole. pose proof (enter_holds policy console env_var skip Hconsole (mkTty outcomes [])) as He.
  destruct (enter_with_title_policy _ _ _ _ _) as [[[] t] r]. destruct He as (new & Hnew & He).
  cbn [attempts app] in Hnew. subst new. destruct r as [g|e|]; cbn [entered] in He; [| |done].
  2: { destruct He as (_ & Hraw & Halt). split; [by apply not_held_disabled|]. intros ->. by apply Halt. }
  destruct He as (_ & Hraw & Hs & _). rewrite <- Hs in Hraw.
  pose proof (run_session_raw cs g t false Hraw) as Hrun.
  destruct (run_session cs (g, t)) as [g' t']. split.
  { destruct (session_terminal_active g'); [by apply held_raw|by apply not_held_disabled]. }
  pose proof (drop_restores g' t' Hrun) as Hdrop. destruct (guard_drop (g', t')) as [[g'' t''] r'].
  destruct Hdrop as (_ & Hd & Hnew). split; [by apply not_held_disabled|done].
Qed.

(** ** Concrete runs *)
#[local] Existing Instance csi_vte.

(** Failures are numbered. *)
Definition demo_console : outcome Z (Z * Z) := Ok (80, 24).
Definition demo_calls : list guard_call := [WriteServer (lit "hello"); LeaveForSuspend; ResumeAfterSuspend].

(** The third operation, entering the alternate screen, fails. *)
Definition demo_failed_entry : list (option Z) := [None; None; Some 5].

Lemma terminal_always_restored_witness :
  (let '((_, t), r) := enter_with_title_policy MoshPrefix demo_console (λ _, None) false
                         (tt, mkTty demo_failed_entry []) in
   is_ok r = false ∧ EnterAlternateScreen ∈ fst <$> attempts t ∧
   disabled (attempts t) ∧ LeaveAlternateScreen ∈ fst <$> attempts t) ∧
  (let '((_, t), r) := enter_with_title_policy MoshPrefix demo_console (λ _, None) false (tt, mkTty [] []) in
   is_ok r = true).
Proof.
  split; [|vm_compute; reflexivity].
  pose proof (terminal_always_restored MoshPrefix demo_console (λ _, None) false demo_calls
    demo_failed_entry ltac:(done)) as Hr.
  revert Hr. vm_compute (enter_with_title_policy _ _ _ _ _). cbv beta iota. intros [Hraw Halt].
  assert (Hin : EnterAlternateScreen ∈ [EnableRawMode; EnableUtf8InputMode; EnterAlternateScreen;
                                        LeaveAlternateScreen; Flush; DisableRawMode]) by set_solver.
  split; [reflexivity|]. split; [exact Hin|]. split; [exact Hraw|]. apply Halt; [reflexivity|exact Hin].
Defined.

(** Whether the alternate screen was entered with no attempt to leave it since. *)
Definition alternate_after (l : list (tty_op * option Z)) : bool :=
  fold_left (λ on a, match a with
    | (EnterAlternateScreen, None) => true
    | (LeaveAlternateScreen, _) => false
    | _ => on
    end) l false.

(** A resume that fails after it entered the alternate screen gives up raw mode only: the
    guard counts as inactive, and dropping it leaves the alternate screen behind. *)
Definition demo_failed_resume : list (option Z) :=
  repeat None 18 ++ [None; None; None; Some 7].

Example failed_resume_keeps_alternate_screen :
  let '((_, t), r) := enter_with_title_policy MoshPrefix demo_console (λ _, None) false
                        (tt, mkTty demo_failed_resume []) in
  match r with
  | Ok g =>
      let s := run_session [LeaveForSuspend; ResumeAfterSuspend] (g, t) in
      alternate_after (attempts (guard_drop s).1.2) = true
  | _ => False
  end.
Proof. vm_compute. reflexivity. Qed.
