(* ===== verification/Cli.v ===== *)
(** * The command line

    The model of [crates/ferrumtty-client/src/cli.rs]: the arguments and the environment of
    the client. Strings are their UTF-8 bytes; the package version and the platform are
    parameters. *)
From S2P Require Import Prelude Utf8 Decimal Predict.
Local Open Scope Z_scope.

(** ** Strings of the standard library *)

(** The characters with the White_Space property. *)
Definition is_whitespace (c : Z) : bool :=
  ((9 <=? c) && (c <=? 13)) || (c =? 0x20) || (c =? 0x85) || (c =? 0xA0) || (c =? 0x1680)
  || ((0x2000 <=? c) && (c <=? 0x200A)) || (c =? 0x2028) || (c =? 0x2029) || (c =? 0x202F)
  || (c =? 0x205F) || (c =? 0x3000).

Fixpoint trim_start (cs : list Z) : list Z :=
  match cs with c :: rest => if is_whitespace c then trim_start rest else cs | [] => [] end.

(** [str::trim]. *)
Definition trim (l : bytes) : bytes :=
  match utf8_chars l with
  | Some cs => mjoin (encode_utf8 <$> reverse (trim_start (reverse (trim_start cs))))
  | None => l
  end.

Definition ascii_lowercase_byte (b : Z) : Z := if (65 <=? b) && (b <=? 90) then b + 32 else b.
Definition to_ascii_lowercase (l : bytes) : bytes := ascii_lowercase_byte <$> l.
Definition eq_ignore_ascii_case (l k : bytes) : bool :=
  bool_decide (to_ascii_lowercase l = to_ascii_lowercase k).
Definition starts_with (l prefix : bytes) : bool := bool_decide (take (length prefix) l = prefix).
Definition ends_with (l suffix : bytes) : bool :=
  bool_decide (drop (length l - length suffix) l = suffix).

(** [str::contains]. *)
Fixpoint contains (l pattern : bytes) : bool :=
  starts_with l pattern || match l with [] => false | _ :: l => contains l pattern end.

(** [str::split(c).next()]: what precedes the first [c]. *)
Fixpoint before_first (c : Z) (l : bytes) : bytes :=
  match l with [] => [] | b :: l => if b =? c then [] else b :: before_first c l end.

(** [str::rsplit_once(c)]: what follows the last [c]. *)
Fixpoint after_last (c : Z) (l : bytes) : option bytes :=
  match l with
  | [] => None
  | b :: l => match after_last c l with
              | Some r => Some r
              | None => if b =? c then Some l else None
              end
  end.

(** ** Data *)
Definition CLI_DEFAULT_ESCAPE_BYTE : Z := 0x1e.
Definition MAX_VERBOSITY : Z := 3.
Definition TRUE_COLOR_COUNT : Z := 16777216.

Record ClientConfig := mkClientConfig {
  endpoint : bytes;
  verbosity : Z;
  config_escape_byte : Z;
  title_no_prefix : bool;
  prediction_display : PredictionDisplay;
  prediction_overwrite : bool;
}.

Inductive Command :=
| Help (program : bytes)
| Version
| Colors
| Connect (config : ClientConfig).

Inductive OutputTarget := Stdout | Stderr.

Record CliError := mkCliError { message : bytes; target : OutputTarget; exit_code : Z }.

Definition failure (message : bytes) : CliError :=
  {| message := message; target := Stderr; exit_code := 1 |}.

Inductive PlatformColorCapability := Unknown | Ansi8 | Ansi16 | Indexed256 | TrueColor.

Section cli.
Context (package_version : bytes) (windows : bool).

Definition version : bytes := lit "ferrumtty-client " ++ package_version.

Definition usage (program : bytes) : bytes :=
  version ++ [10; 10] ++ lit "Usage: " ++ program ++ lit " [-# 'ARGS'] [-v...] HOST PORT" ++ [10]
  ++ lit "       " ++ program ++ lit " -c".

Definition missing_key_error : CliError := failure (lit "MOSH_KEY environment variable not found.").
Definition invalid_key_error : CliError := failure (lit "Crypto exception: MOSH_KEY is invalid.").

(** ** The arguments *)

(** What the letters of an option argument ask for, from [option_position] on. *)
Inductive option_scan :=
| ScanDone (verbosity : Z)
| ScanSkipNext (verbosity : Z)
| ScanColors
| ScanUsage.

Fixpoint scan_options (option_bytes : bytes) (verbosity : Z) : option_scan :=
  match option_bytes with
  | [] => ScanDone verbosity
  | b :: rest =>
      if b =? 118 then scan_options rest (Z.min (saturating_add 8 verbosity 1) MAX_VERBOSITY)
      else if b =? 99 then ScanColors
      else if b =? 35 then
        match rest with [] => ScanSkipNext verbosity | _ => ScanDone verbosity end
      else ScanUsage
  end.

(** The loop over the remaining arguments. *)
Inductive arguments_scan :=
| Positionals (verbosity : Z) (positionals : list bytes)
| WantColors
| WantUsage.

Definition is_option (argument : bytes) : bool :=
  starts_with argument [45] && negb (bool_decide (argument = [45])).

Fixpoint scan_arguments (remaining : list bytes) (options_finished : bool) (verbosity : Z)
    (positionals : list bytes) : arguments_scan :=
  match remaining with
  | [] => Positionals verbosity positionals
  | argument :: rest =>
      if negb options_finished && bool_decide (argument = lit "--") then
        scan_arguments rest true verbosity positionals
      else if negb options_finished && is_option argument then
        match scan_options (drop 1 argument) verbosity with
        | ScanDone verbosity => scan_arguments rest options_finished verbosity positionals
        | ScanSkipNext verbosity =>
            match rest with
            | [] => WantUsage
            | _ :: rest => scan_arguments rest options_finished verbosity positionals
            end
        | ScanColors => WantColors
        | ScanUsage => WantUsage
        end
      else scan_arguments rest options_finished verbosity (positionals ++ [argument])
  end.

Definition format_endpoint (host : bytes) (port : Z) : bytes :=
  if contains host [58] && negb (starts_with host [91] && ends_with host [93])
  then [91] ++ host ++ lit "]:" ++ decimal port
  else host ++ [58] ++ decimal port.

Definition parse_prediction_display (value : option bytes) : outcome CliError PredictionDisplay :=
  let value := default (lit "adaptive") value in
  if bool_decide (value = lit "adaptive") then Ok Adaptive
  else if bool_decide (value = lit "always") then Ok Always
  else if bool_decide (value = lit "never") then Ok Never
  else Err (failure (lit "MOSH_PREDICTION_DISPLAY must be adaptive, always, or never")).

Definition parse_escape_key (value : bytes) : outcome CliError Z :=
  match value with
  | [b] => if (1 <=? b) && (b <=? 127) then Ok b
           else Err (failure (lit "MOSH_ESCAPE_KEY must be one literal ASCII character in the range 1-127"))
  | _ => Err (failure (lit "MOSH_ESCAPE_KEY must be one literal ASCII character in the range 1-127"))
  end.

(** The tail of [parse_command]: the host, the port and the environment. *)
Definition connect_command (program host port_text : bytes) (verbosity : Z)
    (environment : string → option bytes) : outcome CliError Command :=
  match parse_unsigned 16 port_text with
  | Some port =>
      if port =? 0 then
        Err (failure (program ++ lit ": Bad UDP port (" ++ port_text ++ lit ")" ++ [10; 10] ++ usage program))
      else
        let? escape_byte := match environment "MOSH_ESCAPE_KEY"%string with
                            | None => Ok CLI_DEFAULT_ESCAPE_BYTE
                            | Some value => parse_escape_key value
                            end in
        let? display := parse_prediction_display (environment "MOSH_PREDICTION_DISPLAY"%string) in
        Ok (Connect {|
          endpoint := format_endpoint host port;
          verbosity := verbosity;
          config_escape_byte := escape_byte;
          title_no_prefix := is_some (environment "MOSH_TITLE_NOPREFIX"%string);
          prediction_display := display;
          prediction_overwrite :=
            bool_decide (environment "MOSH_PREDICTION_OVERWRITE"%string = Some (lit "yes"))
        |})
  | None =>
      Err (failure (program ++ lit ": Bad UDP port (" ++ port_text ++ lit ")" ++ [10; 10] ++ usage program))
  end.

Definition parse_command (arguments : list bytes) (environment : string → option bytes)
    : outcome CliError Command :=
  let program := default (lit "ferrumtty") (head arguments) in
  let remaining := tail arguments in
  if existsb (λ argument, bool_decide (argument = lit "--help")) remaining then Ok (Help program)
  else if existsb (λ argument, bool_decide (argument = lit "--version")) remaining then Ok Version
  else
    match scan_arguments remaining false 0 [] with
    | WantColors => Ok Colors
    | WantUsage => Err (failure (usage program))
    | Positionals verbosity [host; port_text] =>
        connect_command program host port_text verbosity environment
    | Positionals _ _ => Err (failure (usage program))
    end.

(** ** Colours *)
Definition is_true_color_marker (value : bytes) : bool :=
  eq_ignore_ascii_case value (lit "truecolor") || eq_ignore_ascii_case value (lit "24bit").

Definition ansi_prefixes : list bytes :=
  lit <$> ["ansi"; "alacritty"; "cygwin"; "eterm"; "foot"; "kitty"; "linux"; "kterm"; "rxvt";
           "screen"; "tmux"; "vt100"; "wezterm"; "xterm"]%string.

Definition is_known_ansi_terminal (value : bytes) : bool :=
  existsb (starts_with (to_ascii_lowercase value)) ansi_prefixes.

Definition platform_color_count (capability : PlatformColorCapability) : Z :=
  match capability with
  | Unknown => 0
  | Ansi8 => 8
  | Ansi16 => 16
  | Indexed256 => 256
  | TrueColor => TRUE_COLOR_COUNT
  end.

Definition platform_color_capability (color_count : Z) : PlatformColorCapability :=
  if color_count =? 0 then Unknown
  else if color_count =? u16_max then TrueColor
  else if (1 <=? color_count) && (color_count <=? 8) then Ansi8
  else if (9 <=? color_count) && (color_count <=? 255) then Ansi16
  else Indexed256.

Definition not_empty (value : option bytes) : option bytes :=
  value ← value; if bool_decide (trim value = []) then None else Some (trim value).

Definition infer_color_count (term colorterm : option bytes) (platform : PlatformColorCapability) : Z :=
  let term := not_empty term in
  let colorterm := not_empty colorterm in
  if is_some_and (λ value, eq_ignore_ascii_case value (lit "dumb")) term then 0
  else if is_some_and is_true_color_marker colorterm
       || is_some_and (λ value, let value := to_ascii_lowercase value in
            contains value (lit "truecolor") || contains value (lit "24bit")
            || contains value (lit "direct")) term
  then TRUE_COLOR_COUNT
  else if is_some_and (λ value, contains (to_ascii_lowercase value) (lit "256color")) term then 256
  else if is_some_and is_known_ansi_terminal term then
    match platform with
    | TrueColor => TRUE_COLOR_COUNT
    | Indexed256 => 256
    | Ansi16 => 16
    | Ansi8 | Unknown => 8
    end
  else if windows && negb (is_some term) then platform_color_count platform
  else 0.

(** ** The locale *)
Definition locale_is_utf8 (value : bytes) : bool :=
  let normalized := (λ b, if b =? 95 then 45 else b) <$> to_ascii_lowercase (trim value) in
  if bool_decide (normalized = lit "utf8") || bool_decide (normalized = lit "utf-8") then true
  else
    let locale_without_modifier := before_first 64 normalized in
    is_some_and (λ codeset, bool_decide (codeset = lit "utf8") || bool_decide (codeset = lit "utf-8"))
      (after_last 46 locale_without_modifier).

Definition selected_locale (environment : string → option bytes) : option (string * bytes) :=
  head (omap (λ name, value ← environment name;
                      if bool_decide (value = []) then None else Some (name, value))
             ["LC_ALL"; "LC_CTYPE"; "LANG"]%string).

Definition validate_utf8_locale (environment : string → option bytes) (windows : bool)
    : outcome CliError unit :=
  if windows then Ok tt
  else
    match selected_locale environment with
    | None =>
        Err (failure (lit "mosh-client needs a UTF-8 native locale to run." ++ [10; 10]
          ++ lit "The client's environment has no LC_ALL, LC_CTYPE, or LANG value."))
    | Some (name, value) =>
        if locale_is_utf8 value then Ok tt
        else Err (failure (lit "mosh-client needs a UTF-8 native locale to run." ++ [10; 10]
          ++ lit "Unfortunately, the client's environment (" ++ lit name ++ [61] ++ value
          ++ lit ") does not specify UTF-8."))
    end.
End cli.

(** ** What a command line means *)

(** The arguments before a double dash: letters v, the wrapper description as an argument
    of its own or in the same argument, and positionals. *)
Inductive cli_item :=
| Verbose (n : nat)
| Wrapper (n : nat) (text : bytes)
| WrapperJoined (n : nat) (text : bytes)
| Positional (text : bytes).

Definition item_wf (i : cli_item) : Prop :=
  match i with
  | Verbose n => n ≠ O
  | Wrapper _ _ => True
  | WrapperJoined _ text => text ≠ []
  | Positional text => is_option text = false
  end.

Definition vs (n : nat) : bytes := repeat 118 n.

Definition render_item (i : cli_item) : list bytes :=
  match i with
  | Verbose n => [45 :: vs n]
  | Wrapper n text => [45 :: vs n ++ [35]; text]
  | WrapperJoined n text => [45 :: vs n ++ 35 :: text]
  | Positional text => [text]
  end.

Definition item_verbosity (i : cli_item) : Z :=
  match i with
  | Verbose n | Wrapper n _ | WrapperJoined n _ => Z.of_nat n
  | Positional _ => 0
  end.

Definition item_positional (i : cli_item) : list bytes :=
  match i with Positional text => [text] | _ => [] end.

Definition total_verbosity (items : list cli_item) : Z :=
  Z.min (sum_list_Z (item_verbosity <$> items)) MAX_VERBOSITY.

Section command_line.
Context (package_version : bytes).

Lemma scan_vs n l v :
  0 ≤ v ≤ MAX_VERBOSITY →
  scan_options (vs n ++ l) v = scan_options l (Z.min (v + Z.of_nat n) MAX_VERBOSITY).
Proof.
  revert v. induction n as [|n IH]; intros v Hv.
  { cbn [vs repeat app]. f_equal. lia. }
  cbn [vs repeat app scan_options Z.eqb Pos.eqb]. fold (vs n). unfold saturating_add, MAX_VERBOSITY in *.
  rewrite IH by lia. f_equal. lia.
Qed.

Lemma vs_option n l : n ≠ O ∨ l ≠ [] → head l ≠ Some 45 →
  is_option (45 :: vs n ++ l) = true ∧ (45 :: vs n ++ l) ≠ lit "--".
Proof.
  intros Hn Hl. unfold is_option. split.
  - apply andb_true_iff. split; [by apply bool_decide_eq_true|].
    rewrite bool_decide_eq_false_2; [done|]. intros [=He]. apply app_eq_nil in He as [Hv ->].
    destruct Hn as [Hn|Hn]; [|done]. by destruct n.
  - intros [=He]. destruct n as [|n]; [|done]. cbn in He. subst. by cbn in Hl.
Qed.

(** One item, from any verbosity within its bound. *)
Lemma scan_item i rest v ps :
  item_wf i → 0 ≤ v ≤ MAX_VERBOSITY →
  scan_arguments (render_item i ++ rest) false v ps
  = scan_arguments rest false (Z.min (v + item_verbosity i) MAX_VERBOSITY) (ps ++ item_positional i).
Proof.
  intros Hi Hv. destruct i as [n|n text|n text|text]; cbn [item_wf render_item] in *;
    cbn [app item_positional item_verbosity]; rewrite ?app_nil_r; cbn [scan_arguments negb andb].
  - destruct (vs_option n []) as [Ho Hd]; [by left|done|]. rewrite app_nil_r in Ho, Hd.
    rewrite Ho, bool_decide_eq_false_2 by done. pose proof (scan_vs n [] v Hv) as Hs.
    rewrite app_nil_r in Hs. cbn [drop]. by rewrite drop_0, Hs.
  - destruct (vs_option n [35]) as [Ho Hd]; [by right|done|].
    rewrite Ho, bool_decide_eq_false_2 by done. cbn [drop]. by rewrite drop_0, scan_vs.
  - destruct (vs_option n (35 :: text)) as [Ho Hd]; [by right|done|].
    rewrite Ho, bool_decide_eq_false_2 by done. cbn [drop]. rewrite drop_0, scan_vs by done.
    by destruct text.
  - rewrite Hi. rewrite bool_decide_eq_false_2.
    + f_equal. unfold MAX_VERBOSITY in *. lia.
    + intros ->. by vm_compute in Hi.
Qed.

Lemma scan_items items rest v ps :
  Forall item_wf items → 0 ≤ v ≤ MAX_VERBOSITY →
  scan_arguments ((items ≫= render_item) ++ rest) false v ps
  = scan_arguments rest false (Z.min (v + sum_list_Z (item_verbosity <$> items)) MAX_VERBOSITY)
      (ps ++ (items ≫= item_positional)).
Proof.
  intros Hi. revert v ps. induction Hi as [|i items Hi His IH]; intros v ps Hv.
  { cbn. rewrite app_nil_r, Z.add_0_r, Z.min_l by lia. done. }
  rewrite bind_cons, <- app_assoc, scan_item by done.
  assert (0 ≤ item_verbosity i) by (destruct i; cbn; lia). unfold MAX_VERBOSITY in *.
  rewrite IH by lia. rewrite bind_cons, app_assoc, fmap_cons, sum_list_Z_cons.
  f_equal. assert (0 ≤ sum_list_Z (item_verbosity <$> items)).
  { clear. induction items as [|i items IH]; [done|]. rewrite fmap_cons, sum_list_Z_cons.
    assert (0 ≤ item_verbosity i) by (destruct i; cbn; lia). lia. }
  lia.
Qed.

Lemma scan_finished raw v ps : scan_arguments raw true v ps = Positionals v (ps ++ raw).
Proof.
  revert ps. induction raw as [|a raw IH]; intros ps; cbn [scan_arguments negb andb].
  - by rewrite app_nil_r.
  - by rewrite IH, <- app_assoc.
Qed.

Lemma existsb_bool_decide (x : bytes) l :
  existsb (λ argument, bool_decide (argument = x)) l = bool_decide (x ∈ l).
Proof.
  induction l as [|a l IH]; [done|]. cbn [existsb]. rewrite IH. repeat case_bool_decide; set_solver.
Qed.

(** The host and the port as they mean a port: a number from 1 to 65535. *)
Definition port_choice (port_text : bytes) (port : Z) : Prop :=
  parse_unsigned 16 port_text = Some port ∧ port ≠ 0.

(** The escape byte that a setting chooses. *)
Definition escape_choice (value : option bytes) (escape : Z) : Prop :=
  match value with
  | None => escape = 0x1e
  | Some value => value = [escape] ∧ 1 ≤ escape ≤ 127
  end.

Definition display_name (display : PredictionDisplay) : bytes :=
  match display with
  | Adaptive => lit "adaptive"
  | Always => lit "always"
  | Never => lit "never"
  end.

Definition display_choice (value : option bytes) (display : PredictionDisplay) : Prop :=
  value = Some (display_name display) ∨ value = None ∧ display = Adaptive.

Definition bad_port_error (program port_text : bytes) : CliError :=
  failure (program ++ lit ": Bad UDP port (" ++ port_text ++ lit ")" ++ [10; 10]
    ++ usage package_version program).
Definition bad_escape_error : CliError :=
  failure (lit "MOSH_ESCAPE_KEY must be one literal ASCII character in the range 1-127").
Definition bad_display_error : CliError :=
  failure (lit "MOSH_PREDICTION_DISPLAY must be adaptive, always, or never").

Lemma parse_escape_key_spec value :
  match parse_escape_key value with
  | Ok b => escape_choice (Some value) b
  | Err e => e = bad_escape_error ∧ ∀ b, ¬ escape_choice (Some value) b
  | Panic => False
  end.
Proof.
  destruct value as [|b [|b' l]]; cbn; [by split; [|intros ? [??]]| |by split; [|intros ? [??]]].
  destruct (Z.leb_spec 1 b), (Z.leb_spec b 127); cbn; [done|..];
    (split; [done|intros c [[= <-] ?]; lia]).
Qed.

Lemma parse_prediction_display_spec value :
  match parse_prediction_display value with
  | Ok d => display_choice value d
  | Err e => e = bad_display_error ∧ ∀ d, ¬ display_choice value d
  | Panic => False
  end.
Proof.
  unfold parse_prediction_display, display_choice. destruct value as [value|]; cbn; [|by right].
  repeat case_bool_decide; subst; cbn; [by left..|].
  split; [done|]. intros d [[= ->]|[[=] _]]. by destruct d.
Qed.

Definition escape_setting (environment : string → option bytes) : option bytes :=
  environment "MOSH_ESCAPE_KEY"%string.
Definition display_setting (environment : string → option bytes) : option bytes :=
  environment "MOSH_PREDICTION_DISPLAY"%string.

(** What a host, a port and an environment must lead to. *)
Definition connection_decided (program host port_text : bytes) (v : Z)
    (environment : string → option bytes) (r : outcome CliError Command) : Prop :=
  (∀ port escape display, port_choice port_text port →
     escape_choice (escape_setting environment) escape →
     display_choice (display_setting environment) display →
     r = Ok (Connect (mkClientConfig (format_endpoint host port) v escape
           (is_some (environment "MOSH_TITLE_NOPREFIX"%string)) display
           (bool_decide (environment "MOSH_PREDICTION_OVERWRITE"%string = Some (lit "yes")))))) ∧
  ((∀ port, ¬ port_choice port_text port) → r = Err (bad_port_error program port_text)) ∧
  (∀ port, port_choice port_text port →
     (∀ escape, ¬ escape_choice (escape_setting environment) escape) → r = Err bad_escape_error) ∧
  (∀ port escape, port_choice port_text port →
     escape_choice (escape_setting environment) escape →
     (∀ display, ¬ display_choice (display_setting environment) display) → r = Err bad_display_error).

Lemma escape_choice_unique value b c : escape_choice value b → escape_choice value c → b = c.
Proof. destruct value; cbn; [intros [-> _] [[= ->] _]; done|congruence]. Qed.

Lemma display_choice_unique value c d : display_choice value c → display_choice value d → c = d.
Proof. intros [->|[-> ->]] [Hd|[Hd ->]]; [|done..]. by destruct c, d. Qed.

Lemma connect_command_decided program host port_text v environment :
  connection_decided program host port_text v environment
    (connect_command package_version program host port_text v environment).
Proof.
  unfold connection_decided, connect_command, port_choice, escape_setting, display_setting.
  destruct (parse_unsigned 16 port_text) as [port|]; [|split_and!; by naive_solver].
  destruct (Z.eqb_spec port 0) as [|Hport]; [split_and!; [naive_solver|done|naive_solver..]|].
  set (chosen := match environment "MOSH_ESCAPE_KEY"%string with
                 | None => Ok CLI_DEFAULT_ESCAPE_BYTE | Some value => parse_escape_key value end).
  assert (He : match chosen with
    | Ok b => escape_choice (environment "MOSH_ESCAPE_KEY"%string) b
    | Err e => e = bad_escape_error ∧ ∀ b, ¬ escape_choice (environment "MOSH_ESCAPE_KEY"%string) b
    | Panic => False end).
  { unfold chosen. destruct (environment "MOSH_ESCAPE_KEY"%string); [apply parse_escape_key_spec|done]. }
  pose proof (parse_prediction_display_spec (environment "MOSH_PREDICTION_DISPLAY"%string)) as Hd.
  destruct chosen as [escape|e|]; cbn [bind_ok]; [|destruct He as [-> He]|done].
  2: { split_and!; [intros p b d _ Hb; by destruct (He b)|intros Hp; by destruct (Hp port)|done|].
       intros p b _ Hb. by destruct (He b). }
  destruct (parse_prediction_display _) as [display|e|]; cbn [bind_ok]; [|destruct Hd as [-> Hd]|done].
  2: { split_and!; [intros p b d _ _ Hb; by destruct (Hd d)|intros Hp; by destruct (Hp port)| |done].
       intros p _ Hb. by destruct (Hb escape). }
  split_and!.
  - intros p b d [[= <-] _] Hb Hc. by rewrite (escape_choice_unique _ _ _ He Hb), (display_choice_unique _ _ _ Hd Hc).
  - intros Hp. by destruct (Hp port).
  - intros p _ Hb. by destruct (Hb escape).
  - intros p b _ _ Hc. by destruct (Hc display).
Qed.

(** Whatever it leads to is a connection or a failure. *)
Lemma connect_command_ends program host port_text v environment :
  match connect_command package_version program host port_text v environment with
  | Ok c => ∃ config, c = Connect config
  | Err e => target e = Stderr ∧ exit_code e = 1
  | Panic => False
  end.
Proof.
  unfold connect_command. destruct (parse_unsigned 16 port_text) as [port|]; [|done].
  destruct (port =? 0); [done|].
  assert (He : ∀ value, match parse_escape_key value with Err e => e = bad_escape_error | Panic => False | _ => True end).
  { intros value. pose proof (parse_escape_key_spec value) as H. by destruct (parse_escape_key value); try apply H. }
  pose proof (parse_prediction_display_spec (environment "MOSH_PREDICTION_DISPLAY"%string)) as Hd.
  destruct (environment "MOSH_ESCAPE_KEY"%string) as [value|];
    [specialize (He value); destruct (parse_escape_key value) as [b|e|]; cbn [bind_ok]; [|by subst|done]|cbn [bind_ok]];
    (destruct (parse_prediction_display _) as [d|e|]; cbn [bind_ok];
      [by eexists|by destruct Hd as [-> _]|done]).
Qed.
End command_line.

(** C37: The command line is decided by its grammar. "--help" anywhere asks for help, and
    "--version" for the version. Otherwise, items (letters v, wrapper descriptions,
    positionals) followed by an optional double dash and more positionals mean a
    connection exactly when there are two positionals, with the verbosity the number of
    letters up to three and no trace of a wrapper description, and are a usage error
    otherwise. A connection with a port (every decimal number from 1 to 65535 is one), an
    absent or literal escape byte from 1 to 127 and an absent or known display setting is
    accepted, with exactly the endpoint and the settings written; otherwise the first of
    the three that is wrong is the error, reported on standard error with exit code 1. *)
Theorem command_line_decided package_version program items finish raw environment :
  Forall item_wf items →
  (finish = [lit "--"] ∨ finish = [] ∧ raw = []) →
  let arguments := (items ≫= render_item) ++ finish ++ raw in
  let result := parse_command package_version (program :: arguments) environment in
  (lit "--help" ∈ arguments → result = Ok (Help program)) ∧
  (lit "--help" ∉ arguments → lit "--version" ∈ arguments → result = Ok Version) ∧
  (lit "--help" ∉ arguments → lit "--version" ∉ arguments →
   match (items ≫= item_positional) ++ raw with
   | [host; port_text] =>
       connection_decided package_version program host port_text (total_verbosity items) environment result
   | _ => result = Err (failure (usage package_version program))
   end) ∧
  (∀ port, 1 ≤ port ≤ 65535 → port_choice (decimal port) port).
Proof.
  intros Hi Hf arguments result. unfold result, parse_command. cbn [head tail default from_option].
  rewrite !existsb_bool_decide. split_and!.
  - intros Hh. by rewrite bool_decide_eq_true_2.
  - intros Hh Hv. by rewrite bool_decide_eq_false_2, bool_decide_eq_true_2.
  - intros Hh Hv. rewrite !bool_decide_eq_false_2 by done.
    assert (Hs : scan_arguments arguments false 0 []
                 = Positionals (total_verbosity items) ((items ≫= item_positional) ++ raw)).
    { unfold arguments. rewrite scan_items by (done || (unfold MAX_VERBOSITY; lia)). cbn [app]. rewrite Z.add_0_l.
      destruct Hf as [->|[-> ->]]; [|cbn [app scan_arguments]; by rewrite app_nil_r].
      cbn [app scan_arguments negb andb]. rewrite bool_decide_eq_true_2 by done.
      by rewrite scan_finished. }
    rewrite Hs. destruct ((items ≫= item_positional) ++ raw) as [|host [|port_text [|x l]]]; [done..| |done].
    apply connect_command_decided.
  - intros port Hport. split; [apply parse_unsigned_decimal; unfold fits; lia|lia].
Qed.

(** Two letters, a wrapper description and the positionals after a double dash, with an
    escape byte and a low port. *)
Definition demo_environment (x : string) : option bytes :=
  if bool_decide (x = "MOSH_ESCAPE_KEY"%string) then Some (lit "~") else None.

Lemma command_line_decided_witness :
  parse_command (lit "1") [lit "fc"; lit "-vv"; lit "-#"; lit "opts -p"; lit "--"; lit "::1"; lit "61"]
    demo_environment
  = Ok (Connect (mkClientConfig (lit "[::1]:61") 2 126 false Adaptive false)).
Proof.
  destruct (command_line_decided (lit "1") (lit "fc") [Verbose 2; Wrapper 0 (lit "opts -p")]
    [lit "--"] [lit "::1"; lit "61"] demo_environment) as (_ & _ & H & Hports);
    [repeat constructor; done|by left|].
  specialize (H ltac:(decide_closed) ltac:(decide_closed)).
  destruct H as [H _]. apply (H 61 126 Adaptive); [exact (Hports 61 ltac:(lia))|by split|by right].
Defined.

(** A port that was formatted is read back. *)
Lemma port_round_trip port : fits 16 port → parse_unsigned 16 (decimal port) = Some port.
Proof. apply parse_unsigned_decimal. Qed.

Example locales :
  locale_is_utf8 (lit "en_US.UTF-8") = true ∧ locale_is_utf8 (lit "de_DE.utf8@euro") = true ∧
  locale_is_utf8 (lit "C") = false ∧ locale_is_utf8 (lit "POSIX.8859") = false.
Proof. vm_compute. done. Qed.

Example colours :
  infer_color_count false (Some (lit "xterm-256color")) None Unknown = 256 ∧
  infer_color_count false (Some (lit " dumb ")) (Some (lit "truecolor")) TrueColor = 0 ∧
  infer_color_count false (Some (lit "screen")) None Ansi16 = 16 ∧
  infer_color_count true None None Ansi16 = 16.
Proof. vm_compute. done. Qed.
