(* ===== verification/Diagnostics.v ===== *)
(** * Diagnostics

    The model of [crates/ferrumtty-client/src/diagnostics.rs]: what the client writes to
    standard error about the protocol at each verbosity, and the standard streams, whose
    print macros panic when a write fails. *)
From S2P Require Import Prelude Emulators Session Predict Runtime Cli.
Local Open Scope Z_scope.

(** ** The standard streams *)

(** Which of the next prints fail (none, when no more is in store), and the lines printed. *)
Record stream := mkStream { failing : list bool; printed : list bytes }.

(** [println!] and [eprintln!]: a write that fails is a panic. *)
Definition print_line {E} (line : bytes) : M stream E unit := λ s,
  if default false (head (failing s)) then (mkStream (tail (failing s)) (printed s), Panic)
  else (mkStream (tail (failing s)) (printed s ++ [line]), Ok tt).

Fixpoint print_lines {E} (lines : list bytes) : M stream E unit :=
  match lines with
  | [] => retM tt
  | line :: lines => print_line line ;! print_lines lines
  end.

(** The prints from [s] to [s'] used up outcomes, and a panic is a print that failed. *)
Definition prints (s s' : stream) (panicked : Prop) : Prop :=
  ∃ used, failing s = used ++ failing s' ∧ (panicked → ∃ before, used = before ++ [true]).

Lemma prints_same s (P : Prop) : ¬ P → prints s s P.
Proof. intros HP. exists []. by split. Qed.

Lemma prints_trans s1 s2 s3 (P Q : Prop) :
  prints s1 s2 P → prints s2 s3 Q → prints s1 s3 Q.
Proof.
  intros (u & H1 & _) (v & H2 & HQ). exists (u ++ v). rewrite <- app_assoc, <- H2. split; [done|].
  intros [b ->]%HQ. exists (u ++ b). by rewrite app_assoc.
Qed.

Lemma prints_failed s s' (P : Prop) :
  prints s s' P → P → ∃ used, failing s = used ++ true :: failing s'.
Proof. intros (u & Hu & Hb) [b ->]%Hb. exists b. by rewrite Hu, <- app_assoc. Qed.

Lemma prints_panicked {E A} s s' :
  prints s s' (Panic = Panic :> outcome E A) → ∃ used, failing s = used ++ true :: failing s'.
Proof. intros Hp. by eapply prints_failed. Qed.

Lemma print_line_prints {E} line s :
  let '(s', r) := print_line (E:=E) line s in prints s s' (r = Panic) ∧ (∀ e, r ≠ Err e).
Proof.
  unfold print_line. destruct (failing s) as [|[] rest] eqn:Hf; cbn; (split; [|done]).
  - exists []. by rewrite Hf.
  - exists [true]. rewrite Hf. split; [done|]. intros _. by exists [].
  - exists [false]. by rewrite Hf.
Qed.

Lemma print_lines_prints {E} lines s :
  let '(s', r) := print_lines (E:=E) lines s in prints s s' (r = Panic) ∧ (∀ e, r ≠ Err e).
Proof.
  revert s. induction lines as [|line lines IH]; intros s; cbn [print_lines].
  { split; [by apply prints_same|done]. }
  pose proof (print_line_prints (E:=E) line s) as Hl. unfold bindM.
  destruct (print_line line s) as [s1 [[]|e|]]; [|by destruct Hl as [_ Hl]; destruct (Hl e)|done].
  specialize (IH s1). destruct (print_lines lines s1) as [s2 r]. destruct IH as [IH He], Hl as [Hl _].
  split; [by eapply prints_trans|done].
Qed.

(** ** The logger *)
Record DiagnosticLogger := mkDiagnosticLogger { logger_verbosity : Z }.

Definition logger_new (verbosity : Z) : DiagnosticLogger := {| logger_verbosity := verbosity |}.

Definition connection_state_name (state : ConnectionState) : bytes :=
  match state with
  | Connecting => lit "connecting"
  | Connected => lit "connected"
  | Interrupted => lit "interrupted"
  end.

Definition prediction_name (display : PredictionDisplay) : bytes :=
  match display with
  | Adaptive => lit "adaptive"
  | Always => lit "always"
  | Never => lit "never"
  end.

(** The lines at startup. *)
Definition startup_lines (self : DiagnosticLogger) (config : ClientConfig) : list bytes :=
  if logger_verbosity self =? 0 then []
  else
    [lit "ferrumtty: connection state=starting"]
    ++ (if 2 <=? logger_verbosity self
        then [lit "ferrumtty: config escape=" ++ decimal (config_escape_byte config)
              ++ lit " title_prefix=" ++ show_bool (negb (title_no_prefix config))
              ++ lit " prediction=" ++ prediction_name (prediction_display config)
              ++ lit " overwrite=" ++ show_bool (prediction_overwrite config)]
        else [])
    ++ (if 3 <=? logger_verbosity self
        then [lit "ferrumtty: diagnostics mode=metadata-only payload_logging=false"] else []).

(** To standard error, a line at a time. *)
Definition write_startup {E} (self : DiagnosticLogger) (config : ClientConfig) : M stream E unit :=
  print_lines (startup_lines self config).

(** [if self.verbosity >= 3 { message.push_str(..) }]. *)
Definition with_detail (self : DiagnosticLogger) (message detail : bytes) : bytes :=
  message ++ (if 3 <=? logger_verbosity self then detail else []).

Definition format_event (self : DiagnosticLogger) (event : DiagnosticEvent) : option bytes :=
  let from (level : Z) (message : bytes) :=
    if level <=? logger_verbosity self then Some message else None in
  match event with
  | DiagConnectionStateChanged state =>
      from 1 (lit "ferrumtty: connection state=" ++ connection_state_name state)
  | FreshUpdatePrepared state_id datagram_count datagram_bytes instruction_count input_bytes =>
      from 2 (with_detail self (lit "ferrumtty: send kind=fresh state=" ++ decimal state_id)
        (lit " datagrams=" ++ decimal datagram_count ++ lit " bytes=" ++ decimal datagram_bytes
         ++ lit " instructions=" ++ decimal instruction_count ++ lit " input_bytes=" ++ decimal input_bytes))
  | RetransmissionPrepared state_id datagram_count datagram_bytes retransmit_delay_milliseconds =>
      from 2 (with_detail self
        (lit "ferrumtty: send kind=retransmission state=" ++ decimal state_id
         ++ lit " delay_ms=" ++ decimal retransmit_delay_milliseconds)
        (lit " datagrams=" ++ decimal datagram_count ++ lit " bytes=" ++ decimal datagram_bytes))
  | InboundUpdateAccepted packet_counter base_state target_state acknowledged_state discard_before
      delta_bytes advances_remote_state =>
      from 2 (with_detail self
        (lit "ferrumtty: receive old=" ++ decimal base_state ++ lit " new=" ++ decimal target_state
         ++ lit " ack=" ++ decimal acknowledged_state ++ lit " throwaway=" ++ decimal discard_before
         ++ lit " advanced=" ++ show_bool advances_remote_state)
        (lit " packet_counter=" ++ decimal packet_counter ++ lit " delta_bytes=" ++ decimal delta_bytes))
  | RoundTripUpdated milliseconds => from 2 (lit "ferrumtty: rtt milliseconds=" ++ decimal milliseconds)
  | DiagSessionLifecycleChanged state =>
      from 1 (lit "ferrumtty: session lifecycle=" ++ show_lifecycle state)
  | DiagUdpBindingChanged generation =>
      from 1 (lit "ferrumtty: udp binding_generation=" ++ decimal generation)
  | ShutdownStarted => from 1 (lit "ferrumtty: shutdown state=started")
  | DiagShutdownComplete outcome =>
      from 1 (lit "ferrumtty: shutdown state=complete outcome=" ++ show_outcome outcome)
  end.

(** The line written to standard error for an event, if any. *)
Definition write_event {E} (self : DiagnosticLogger) (event : DiagnosticEvent) : M stream E unit :=
  match format_event self event with
  | Some message => print_line message
  | None => retM tt
  end.

Lemma write_event_prints {E} self event s :
  let '(s', r) := write_event (E:=E) self event s in prints s s' (r = Panic) ∧ (∀ e, r ≠ Err e).
Proof.
  unfold write_event. destruct (format_event self event); [apply print_line_prints|].
  split; [by apply prints_same|done].
Qed.

(** More verbosity never loses a line or a part of one. *)
Lemma verbosity_extends v w event message :
  v ≤ w → format_event (logger_new v) event = Some message →
  ∃ more, format_event (logger_new w) event = Some (message ++ more).
Proof.
  intros Hvw. unfold format_event, with_detail. cbn [logger_verbosity logger_new].
  assert (Hfrom : ∀ level m, (if level <=? v then Some m else None) = Some message →
    ∃ more, (if level <=? w then Some m else None) = Some (message ++ more)).
  { intros level m. destruct (Z.leb_spec level v); [|done]. intros [= ->].
    rewrite (proj2 (Z.leb_le _ _)) by lia. exists []. by rewrite app_nil_r. }
  assert (Hdetail : ∀ level m d,
    (if level <=? v then Some (m ++ (if 3 <=? v then d else [])) else None) = Some message →
    ∃ more, (if level <=? w then Some (m ++ (if 3 <=? w then d else [])) else None)
            = Some (message ++ more)).
  { intros level m d. destruct (Z.leb_spec level v); [|done]. intros [= <-].
    rewrite (proj2 (Z.leb_le level w)) by lia. destruct (Z.leb_spec 3 v).
    - rewrite (proj2 (Z.leb_le 3 w)) by lia. exists []. by rewrite app_nil_r.
    - rewrite app_nil_r. by eexists. }
  destruct event; auto.
Qed.

(** Nothing is written at verbosity zero. *)
Lemma silent_by_default {E} event config s :
  write_event (E:=E) (logger_new 0) event s = (s, Ok tt) ∧
  write_startup (E:=E) (logger_new 0) config s = (s, Ok tt).
Proof. by destruct event. Qed.
