(* ===== verification/Client.v ===== *)
(** * The client

    The model of [crates/ferrumtty-client/src/main.rs]: the event loop that composes the
    session runtime, the terminal guard, the prediction overlay and the command prefix.
    What the operating system does (datagrams, input events, the clock, the signals and
    the failures of its operations) is in store in the state of the client, and what the
    client does to it is recorded there. *)
From S2P Require Import Prelude Emulators Utf8 Message Crypto Session Runtime Predict.
From S2P Require Import TitleFilter Input Modes Guard Cli Diagnostics.
Local Open Scope Z_scope.

Definition RECEIVE_BUFFER_BYTES : Z := 65535.
Definition LOOP_INTERVAL : Z := 20.
Definition SUSPEND_DETECTION_MILLISECONDS : Z := 5000.

(** ** Messages *)
Inductive Text :=
| ConnectFailed | ErrorPrefix | InputFailed | TextInputQueueFull | LocalCommandHelp | NoAddress
| ProtocolFailed | ReceiveFailed | ResolveFailed | SendFailed | SignalSetupFailed | SocketFailed
| TerminalRequired | TerminalSetupFailed | TerminalSizeFailed | TerminalWriteFailed
| TextUncleanShutdown.

Definition text_en (message : Text) : bytes :=
  match message with
  | ConnectFailed => lit "could not connect UDP socket"
  | ErrorPrefix => lit "FerrumTTY error"
  | InputFailed => lit "could not read terminal input"
  | TextInputQueueFull => lit "local input queue limit reached"
  | LocalCommandHelp =>
      [13; 10] ++ lit "FerrumTTY local commands: . quit, Ctrl-Z suspend, ? help, prefix prefix sends a literal prefix"
      ++ [13; 10]
  | NoAddress => lit "no address was resolved"
  | ProtocolFailed => lit "protocol operation failed"
  | ReceiveFailed => lit "UDP receive failed"
  | ResolveFailed => lit "host lookup failed"
  | SendFailed => lit "UDP send failed"
  | SignalSetupFailed => lit "could not install termination handling"
  | SocketFailed => lit "could not configure UDP socket"
  | TerminalRequired => lit "standard input and output must be terminals"
  | TerminalSetupFailed => lit "could not enter terminal raw mode"
  | TerminalSizeFailed => lit "could not read terminal size"
  | TerminalWriteFailed => lit "could not write terminal output"
  | TextUncleanShutdown =>
      [10] ++ lit "mosh did not shut down cleanly. Please note that the" ++ [10]
      ++ lit "mosh-server process may still be running on the server."
  end.

Definition text_zh (message : Text) : bytes :=
  match message with
  | ConnectFailed => lit "无法连接 UDP 套接字"
  | ErrorPrefix => lit "FerrumTTY 错误"
  | InputFailed => lit "无法读取终端输入"
  | TextInputQueueFull => lit "本地输入队列已达到上限"
  | LocalCommandHelp =>
      [13; 10] ++ lit "FerrumTTY 本地命令：. 退出，Ctrl-Z 暂停，? 帮助，连续输入两次前缀可发送字面前缀" ++ [13; 10]
  | NoAddress => lit "未解析到可用地址"
  | ProtocolFailed => lit "协议操作失败"
  | ReceiveFailed => lit "UDP 接收失败"
  | ResolveFailed => lit "主机名解析失败"
  | SendFailed => lit "UDP 发送失败"
  | SignalSetupFailed => lit "无法安装终止信号处理"
  | SocketFailed => lit "无法配置 UDP 套接字"
  | TerminalRequired => lit "标准输入和输出必须连接终端"
  | TerminalSetupFailed => lit "无法进入终端原始模式"
  | TerminalSizeFailed => lit "无法读取终端尺寸"
  | TerminalWriteFailed => lit "无法写入终端输出"
  | TextUncleanShutdown =>
      [10] ++ lit "mosh 未能干净关闭。请注意，服务器上的 mosh-server 进程可能仍在运行。"
  end.

(** [language] is the value of LANG, empty when it is not set. *)
Definition text (language : bytes) (message : Text) : bytes :=
  if starts_with language (lit "zh") then text_zh message else text_en message.

(** ** Events of the local terminal *)
Inductive KeyEventKind := Press | Repeat | Release.

Inductive Event :=
| EventKey (kind : KeyEventKind) (key : KeyEvent)
| EventPaste (contents : bytes)
| EventMouse (mouse : MouseEvent)
| EventFocusGained
| EventFocusLost
| EventResize (columns rows : Z).

Definition prediction_action (key : KeyEvent) : PredictionAction :=
  if negb (ALT (key_modifiers key) || CONTROL (key_modifiers key)) then
    match code key with
    | KeyCode.Char character =>
        if negb (is_control character) then
          if is_ascii character then PrintableAscii character else PrintableUtf8 character
        else Barrier
    | KeyCode.Backspace => Backspace
    | KeyCode.Left => Left
    | KeyCode.Right => Right
    | _ => Barrier
    end
  else Barrier.

Section client.
Context `{Vt100} `{Vte} `{Aead} `{Prost} `{Zlib} `{!Vt100Queries} {io_error : Type}.
(** The value of LANG. *)
Context (language : bytes).

(** What a failure is about, and what caused it. *)
Inductive cause :=
| NoCause
| TextCause (t : Text)
| IoCause (e : io_error)
| RuntimeCause (e : RuntimeError).

Record ClientError := mkClientError { error_text : Text; error_cause : cause }.

(** [format!("{}: {error}", text(..))]. *)
Definition show_error (show_io : io_error → bytes)
    (show_runtime : RuntimeError → bytes) (e : ClientError) : bytes :=
  match error_cause e with
  | NoCause => text language (error_text e)
  | TextCause t => text language (error_text e) ++ lit ": " ++ text language t
  | IoCause error => text language (error_text e) ++ lit ": " ++ show_io error
  | RuntimeCause error => text language (error_text e) ++ lit ": " ++ show_runtime error
  end.

Definition format_runtime_error (error : RuntimeError) : ClientError :=
  match error with
  | InputQueueFull => mkClientError TextInputQueueFull NoCause
  | other => mkClientError ProtocolFailed (RuntimeCause other)
  end.

(** What the socket, the input and the signals have in store. [NotReady] is an
    [event::poll] that answers that no event is there yet: what follows comes later. *)
Inductive received :=
| Datagram (packet : bytes)
| WouldBlock
| ConnectionRefused (e : io_error)
| ReceiveError (e : io_error).

Inductive input_poll :=
| Ready (event : Event)
| NotReady
| PollError (e : io_error)
| ReadError (e : io_error).

Record Client := mkClient {
  runtime : SessionRuntime;
  terminal : TerminalGuard * tty (io_error:=io_error);
  predictor : PredictionOverlay;
  escape : EscapeInterpreter;
  logger : DiagnosticLogger;
  previous_poll : MonotonicTime;
  incoming : list received;
  send_outcomes : list (option io_error);
  sent : list bytes;
  events : list input_poll;
  clock : list MonotonicTime;
  termination_requested : list bool;
  suspensions : list (option io_error);
  logged : stream;
  slept : list Z;
}.

#[export] Instance eta_Client : Eta Client := λ c,
  mkClient (runtime c) (terminal c) (predictor c) (escape c) (logger c) (previous_poll c) (incoming c)
    (send_outcomes c) (sent c) (events c) (clock c) (termination_requested c) (suspensions c) (logged c)
    (slept c).
#[export] Instance upd_runtime : Update runtime := ltac:(solve_update).
#[export] Instance upd_terminal : Update terminal := ltac:(solve_update).
#[export] Instance upd_predictor : Update predictor := ltac:(solve_update).
#[export] Instance upd_escape : Update escape := ltac:(solve_update).
#[export] Instance upd_previous_poll : Update previous_poll := ltac:(solve_update).
#[export] Instance upd_incoming : Update incoming := ltac:(solve_update).
#[export] Instance upd_send_outcomes : Update send_outcomes := ltac:(solve_update).
#[export] Instance upd_sent : Update sent := ltac:(solve_update).
#[export] Instance upd_events : Update events := ltac:(solve_update).
#[export] Instance upd_clock : Update clock := ltac:(solve_update).
#[export] Instance upd_termination_requested : Update termination_requested := ltac:(solve_update).
#[export] Instance upd_suspensions : Update suspensions := ltac:(solve_update).
#[export] Instance upd_logged : Update logged := ltac:(solve_update).
#[export] Instance upd_slept : Update slept := ltac:(solve_update).

Definition CM (A : Type) : Type := M Client ClientError A.

(** ** The environment *)

(** [monotonic_time(started_at)]: the next reading of the clock, the last one when no more
    is in store. *)
Definition monotonic_time : CM MonotonicTime := λ c,
  match clock c with
  | [] => (c, Ok (previous_poll c))
  | now :: rest => (c <| clock := rest |>, Ok now)
  end.

Definition load_termination : CM bool := λ c,
  (c <| termination_requested ::= tail |>, Ok (default false (head (termination_requested c)))).

Definition socket_send (packet : bytes) : CM unit := λ c,
  let outcome := default None (head (send_outcomes c)) in
  let c := c <| send_outcomes ::= tail |> in
  match outcome with
  | None => (c <| sent ::= λ l, l ++ [packet] |>, Ok tt)
  | Some e => (c, Err (mkClientError SendFailed (IoCause e)))
  end.

Definition raise_suspension : CM unit := λ c,
  (c <| suspensions ::= tail |>,
   match default None (head (suspensions c)) with
   | None => Ok tt
   | Some e => Err (mkClientError SignalSetupFailed (IoCause e))
   end).

(** [logged] is standard error. *)
Definition on_stderr (m : M stream ClientError unit) : CM unit := λ c,
  let '(s, result) := m (logged c) in (c <| logged := s |>, result).

(** ** The components *)
Definition on_runtime {A} (m : M SessionRuntime RuntimeError A) : CM A := λ c,
  let '(r, result) := m (runtime c) in (c <| runtime := r |>, map_err format_runtime_error result).

Definition on_terminal (failure : Text) (m : guarded (io_error:=io_error) unit) : CM unit := λ c,
  let '(t, result) := m (terminal c) in
  (c <| terminal := t |>, map_err (λ e, mkClientError failure (IoCause e)) result).

Definition on_predictor {A} (f : PredictionOverlay → PredictionOverlay * A) : CM A := λ c,
  let '(p, a) := f (predictor c) in (c <| predictor := p |>, Ok a).

Definition on_escape {A} (f : EscapeInterpreter → EscapeInterpreter * A) : CM A := λ c,
  let '(e, a) := f (escape c) in (c <| escape := e |>, Ok a).

Definition remote_modes_now : CM RemoteTerminalModes := λ c,
  (c, Ok (guard_remote_modes (fst (terminal c)))).

(** [reconcile_prediction]. *)
Definition reconcile_prediction : CM unit :=
  let! reconciliation := on_predictor take_reconciliation in
  match reconciliation with
  | NoReconciliation => retM tt
  | Local restoration => on_terminal TerminalWriteFailed (write_overlay_bytes restoration)
  | Predict.Redraw => on_terminal TerminalWriteFailed redraw_authoritative
  end.

(** ** The actions of the runtime *)
Definition apply_action (action : SessionAction) : CM unit :=
  match action with
  | SendDatagram packet => socket_send packet
  | WriteTerminal text =>
      reconcile_prediction ;! on_terminal TerminalWriteFailed (write_server_bytes text)
  | AcknowledgePrediction value => on_predictor (λ p, (acknowledge value p, tt))
  | Diagnostic event => let! c := getM in on_stderr (write_event (logger c) event)
  | _ => retM tt
  end.

Fixpoint apply_actions (actions : list SessionAction) : CM unit :=
  match actions with
  | [] => retM tt
  | action :: actions => apply_action action ;! apply_actions actions
  end.

(** [drain_network]: the loop over what the socket has in store. *)
Fixpoint drain_received (pending : list received) (now : MonotonicTime) : CM bool :=
  match pending with
  | [] => retM false
  | r :: rest =>
      modM (λ c, c <| incoming := rest |>) ;!
      match r with
      | WouldBlock => retM false
      | ConnectionRefused e =>
          let! c := getM in
          if received_server_state (runtime c) then retM true
          else errM (mkClientError ReceiveFailed (IoCause e))
      | ReceiveError e => errM (mkClientError ReceiveFailed (IoCause e))
      | Datagram packet =>
          let! actions := on_runtime (receive_datagram (take (Z.to_nat RECEIVE_BUFFER_BYTES) packet) now) in
          apply_actions actions ;! drain_received rest now
      end
  end.

Definition drain_network (now : MonotonicTime) : CM bool :=
  let! c := getM in drain_received (incoming c) now.

(** ** The input of the user *)
Definition queue_input_bytes (value : bytes) : CM unit := on_runtime (queue_input value).

Definition flush_escape : CM unit :=
  let! prefix := on_escape flush in
  match prefix with
  | Some prefix => queue_input_bytes prefix
  | None => retM tt
  end.

(** [suspend_result.and(resume_result)]: the signal is raised, and the terminal resumed
    whatever came of it. *)
Definition suspend_client : CM unit :=
  on_terminal TerminalSetupFailed leave_for_suspend ;!
  λ c,
    let '(c, suspend_result) := raise_suspension c in
    let '(c, resume_result) := on_terminal TerminalSetupFailed resume_after_suspend c in
    (c, match suspend_result with Ok _ => resume_result | _ => suspend_result end).

Definition prediction_frame : CM Z := let! c := getM in retM (prediction_frame_id (runtime c)).

Definition prediction_context_now : CM PredictionContext :=
  let! c := getM in
  let terminal_context := guard_prediction_cursor_context (fst (terminal c)) in
  retM {| Predict.row := pc_row terminal_context;
          Predict.column := pc_column terminal_context;
          Predict.columns := pc_columns terminal_context;
          attributes := pc_attributes terminal_context;
          cursor_state := pc_cursor_state terminal_context |}.

(** A key that is no local command. *)
Definition forward_key (key : KeyEvent) (value : bytes) : CM unit :=
  let! frame := prediction_frame in
  let! context := prediction_context_now in
  queue_input_bytes value ;!
  let! prediction :=
    on_predictor (offer_for_frame_with_context frame (prediction_action key) (Some context)) in
  match prediction with
  | Some prediction => on_terminal TerminalWriteFailed (write_overlay_bytes prediction)
  | None => retM tt
  end.

(** Input that is no key: its bytes are queued, and no prediction crosses it. *)
Definition queue_barrier (value : bytes) : CM unit :=
  let! frame := prediction_frame in
  queue_input_bytes value ;!
  let! _ := on_predictor (offer_for_frame frame Barrier) in retM tt.

Definition queue_optional (value : option bytes) : CM unit :=
  match value with Some value => queue_barrier value | None => retM tt end.

(** One event; [true] asks to quit. *)
Definition handle_event (event : Event) : CM bool :=
  match event with
  | EventKey Release _ => retM false
  | EventKey _ key =>
      let! modes := remote_modes_now in
      match encode_key_with_mode key (cursor_key modes) with
      | None => retM false
      | Some value =>
          let! action := on_escape (input value) in
          match action with
          | Hold => retM false
          | Input.Help =>
              on_terminal TerminalWriteFailed (write_local_notice (text language LocalCommandHelp)) ;!
              retM false
          | Quit => retM true
          | Suspend =>
              suspend_client ;!
              let! now := monotonic_time in
              on_runtime (resume now) ;! retM false
          | Forward value => forward_key key value ;! retM false
          end
      end
  | EventPaste contents =>
      flush_escape ;!
      let! modes := remote_modes_now in
      queue_barrier (encode_paste_with_mode contents (bracketed_paste modes)) ;! retM false
  | EventMouse mouse =>
      flush_escape ;!
      let! modes := remote_modes_now in
      queue_optional (encode_mouse_with_mode mouse (mouse_tracking modes) (mouse_encoding modes)) ;!
      retM false
  | EventFocusGained =>
      flush_escape ;!
      let! modes := remote_modes_now in
      queue_optional (encode_focus_with_mode true (focus_reporting modes)) ;! retM false
  | EventFocusLost =>
      flush_escape ;!
      let! modes := remote_modes_now in
      queue_optional (encode_focus_with_mode false (focus_reporting modes)) ;! retM false
  | EventResize columns rows =>
      flush_escape ;! reconcile_prediction ;!
      on_terminal TerminalWriteFailed (resize_model columns rows) ;!
      on_runtime (queue_resize columns rows) ;! retM false
  end.

(** [drain_terminal]: the loop over the events in store, up to the first poll that finds no
    event ready; what comes after it is left in store for the next iterations. *)
Fixpoint drain_events (pending : list input_poll) : CM bool :=
  match pending with
  | [] => retM false
  | p :: rest =>
      modM (λ c, c <| events := rest |>) ;!
      match p with
      | NotReady => retM false
      | PollError e | ReadError e => errM (mkClientError InputFailed (IoCause e))
      | Ready event =>
          on_terminal TerminalWriteFailed clear_local_notice ;!
          let! quit := handle_event event in
          if quit then retM true else drain_events rest
      end
  end.

Definition drain_terminal : CM bool := let! c := getM in drain_events (events c).

(** ** The event loop *)
Definition shut_down (now : MonotonicTime) : CM unit :=
  let! actions := on_runtime (request_shutdown now) in apply_actions actions.

(** What follows the input in an iteration: [Some] leaves the loop. *)
Definition finish_iteration (now : MonotonicTime) : CM (option bool) :=
  let! actions := on_runtime (poll now) in
  apply_actions actions ;!
  let! c := getM in
  match shutdown_outcome (runtime c) with
  | Some outcome => retM (Some (negb (bool_decide (outcome = TimedOut))))
  | None =>
      let! later := monotonic_time in
      let! c := getM in
      let wait_milliseconds := Z.max 1 (milliseconds_until_next_poll (runtime c) later) in
      modM (λ c, c <| slept ::= λ l, l ++ [Z.min LOOP_INTERVAL wait_milliseconds] |>) ;!
      retM None
  end.

Definition read_input : CM unit :=
  let! c := getM in
  if shutdown_in_progress (runtime c) then retM tt
  else
    let! quit := drain_terminal in
    if quit then let! now := monotonic_time in shut_down now else retM tt.

Definition iteration : CM (option bool) :=
  let! now := monotonic_time in
  let! requested := load_termination in
  (if requested then shut_down now else retM tt) ;!
  let! c := getM in
  (if SUSPEND_DETECTION_MILLISECONDS <=? saturating_sub now (previous_poll c)
   then on_runtime (resume now) else retM tt) ;!
  modM (λ c, c <| previous_poll := now |>) ;!
  let! closed := drain_network now in
  if closed then retM (Some true)
  else
    let! c := getM in
    on_predictor (λ p, (set_round_trip_milliseconds (Runtime.round_trip_milliseconds (runtime c)) p, tt)) ;!
    read_input ;!
    finish_iteration now.

(** The loop, for at most [fuel] iterations; [None] is a loop that has not ended. *)
Fixpoint iterations (fuel : nat) : CM (option bool) :=
  match fuel with
  | O => retM None
  | S fuel =>
      let! result := iteration in
      match result with
      | Some clean => retM (Some clean)
      | None => iterations fuel
      end
  end.

(** Whatever ended the loop, the overlay is reconciled before its result is returned. *)
Definition leave_loop (fuel : nat) : CM (option bool) := λ c,
  let '(c, result) := iterations fuel c in
  match result with
  | Ok None | Panic => (c, result)
  | _ =>
      let '(c, reconciled) := reconcile_prediction c in
      (c, match reconciled with Ok _ => result | Err e => Err e | Panic => Panic end)
  end.

(** What the loop starts from: no prediction, no prefix, the clock read once. *)
Definition enter_loop (config : ClientConfig) : CM unit :=
  modM (λ c, c <| predictor := overlay_new (prediction_display config) (prediction_overwrite config) |>
               <| escape := escape_new (config_escape_byte config) |>) ;!
  let! now := monotonic_time in
  modM (λ c, c <| previous_poll := now |>).

Definition event_loop (config : ClientConfig) (fuel : nat) : CM (option bool) :=
  enter_loop config ;! leave_loop fuel.
End client.
