(* ===== verification/ClientSafety.v ===== *)
(** * The client is safe

    The event loop of [Client.v] panics only when a print to standard error fails, keeps the
    runtime within its invariant, and keeps the hold on raw mode in step with the flag of
    the guard, in a panic too. [uses u m] says so of a step that takes at most [u] entries
    of the runtime's queue, so that the entries the events in store can take are accounted
    for. *)
From S2P Require Import Prelude Emulators Utf8 Message Crypto Session Runtime Predict.
From S2P Require Import TitleFilter Input Modes Guard Cli Diagnostics Client.
Local Open Scope Z_scope.

(** ** No panic, and a runtime within its invariant *)
Section safety.
Context `{Vt100Laws} `{Vte} `{Aead} `{Prost} `{Zlib} `{!Vt100Queries} {io_error : Type}.
Context (key : SessionKey) (language : bytes).
(** Standard error at the start. *)
Context (origin : stream).
Notation Client := (Client (io_error:=io_error)).
Notation CM := (CM (io_error:=io_error)).
Notation ClientError := (ClientError (io_error:=io_error)).
Implicit Types c : Client.

(** A window size has 16 bits. *)
Definition event_ok (p : input_poll (io_error:=io_error)) : Prop :=
  match p with Ready (EventResize columns rows) => fits 16 columns ∧ fits 16 rows | _ => True end.

(** The guard says whether raw mode is held. *)
Definition raw_mode_known c : Prop :=
  held_after false (attempts (snd (terminal c))) = session_terminal_active (fst (terminal c)).

(** The runtime was reached by calls of a host, and its queue has room for [room] more
    entries and for the events [l] in store, two for each. *)
Record good (room : Z) (l : list (input_poll (io_error:=io_error))) c : Prop := {
  good_runtime : runtime_reach key (runtime c);
  good_queue : len (queued_instructions (runtime c)) + 2 * len l + room < 2 ^ 64;
  good_events : Forall event_ok l;
  good_pending : events c = l;
  good_terminal : raw_mode_known c;
  good_prints : prints origin (logged c) False;
}.

(** A panic is a print that failed. *)
Definition panic_printed {A} (r : outcome ClientError A) c : Prop := prints origin (logged c) (r = Panic).

(** [m] needs room for [used] entries, and panics only when a print fails. *)
Definition uses {A} (used : Z) (m : CM A) : Prop :=
  ∀ room l, 0 ≤ room →
  triple (good (used + room) l) m (λ r c, good room l c ∧ panic_printed r c).

Lemma printed_ok {A} (r : outcome ClientError A) c room l : good room l c → r ≠ Panic → panic_printed r c.
Proof. intros [_ _ _ _ _ (u & Hu & _)] Hr. exists u. by split. Qed.

Lemma panic_cast {A B} c : panic_printed (A:=A) Panic c → panic_printed (A:=B) Panic c.
Proof. intros (u & Hu & Hp). exists u. split; [done|]. intros _. by apply Hp. Qed.

Lemma good_mono room room' l c : room' ≤ room → good room l c → good room' l c.
Proof. intros Hr [? ? ? ? ? ?]. split; try done. lia. Qed.

Lemma uses_bind {A B} u v (m : CM A) (k : A → CM B) :
  0 ≤ v → uses u m → (∀ a, uses v (k a)) → uses (u + v) (bindM m k).
Proof.
  intros Hv Hm Hk room l Hroom c Hc. unfold bindM.
  assert (Hc' : good (u + (v + room)) l c) by (by rewrite Z.add_assoc).
  specialize (Hm (v + room) l ltac:(lia) c Hc'). destruct (m c) as [c1 [a|e|]]; cbn [fst snd] in Hm |- *.
  - destruct Hm as [Hm _]. by apply Hk.
  - destruct Hm as [Hm _]. assert (good room l c1) by (eapply good_mono; [|done]; lia).
    split; [done|by eapply printed_ok].
  - destruct Hm as [Hm Hp]. split; [eapply good_mono; [|done]; lia|by eapply panic_cast].
Qed.

Lemma uses_seq {A B} (m : CM A) (k : A → CM B) u :
  0 ≤ u → uses 0 m → (∀ a, uses u (k a)) → uses u (bindM m k).
Proof. intros. by apply (uses_bind 0 u). Qed.

Lemma uses_more {A} u v (m : CM A) : u ≤ v → uses u m → uses v m.
Proof. intros Huv Hm room l Hr c Hc. apply Hm; [done|]. eapply good_mono; [|done]. lia. Qed.

Lemma uses_ret {A} u (a : A) : 0 ≤ u → uses u (retM a).
Proof.
  intros Hu room l Hr c Hc. assert (good room l c) by (eapply good_mono; [|done]; lia).
  split; [done|by eapply printed_ok].
Qed.

Lemma uses_err {A} u e : 0 ≤ u → uses (A:=A) u (errM e).
Proof.
  intros Hu room l Hr c Hc. assert (good room l c) by (eapply good_mono; [|done]; lia).
  split; [done|by eapply printed_ok].
Qed.

(** A step that leaves the runtime and the events alone. *)
Lemma uses_frame {A} (m : CM A) :
  (∀ c, runtime (fst (m c)) = runtime c ∧ events (fst (m c)) = events c ∧ logged (fst (m c)) = logged c ∧
        (raw_mode_known c → raw_mode_known (fst (m c))) ∧ snd (m c) ≠ Panic) → uses 0 m.
Proof.
  intros Hm room l Hr c [G1 G2 G3 G4 G5 G6]. destruct (Hm c) as (Er & Ee & El & Ht & Hp).
  assert (Hg : good room l (fst (m c))) by (split; rewrite ?Er, ?Ee, ?El; auto; lia).
  split; [done|by eapply printed_ok].
Qed.

Lemma uses_get {A} u (k : Client → CM A) : (∀ c, uses u (k c)) → uses u (bindM getM k).
Proof. intros Hk room l Hr c Hc. by apply Hk. Qed.

Lemma on_terminal_frame failure (m : guarded (io_error:=io_error) unit) c :
  well_behaved m →
  let c' := fst (on_terminal failure m c) in
  runtime c' = runtime c ∧ events c' = events c ∧ logged c' = logged c ∧ (raw_mode_known c → raw_mode_known c') ∧
  snd (on_terminal failure m c) ≠ Panic.
Proof.
  intros Hm. unfold on_terminal, raw_mode_known. destruct (terminal c) as [g t] eqn:Ht.
  specialize (Hm g t). destruct (m (g, t)) as [[g' t'] r]. destruct Hm as (new & Hn & Hr & Hraw).
  split_and!; [done..| |by destruct r]. cbn. intros Hg. by rewrite Hn, held_after_app, Hg.
Qed.

Lemma uses_terminal failure (m : guarded (io_error:=io_error) unit) :
  well_behaved m → uses 0 (on_terminal failure m).
Proof. intros Hm. apply uses_frame. intros c. by apply on_terminal_frame. Qed.

Lemma uses_predictor {A} (f : PredictionOverlay → PredictionOverlay * A) : uses 0 (on_predictor f).
Proof. apply uses_frame. intros c. unfold on_predictor. by destruct (f (predictor c)). Qed.

Lemma uses_escape {A} (f : EscapeInterpreter → EscapeInterpreter * A) : uses 0 (on_escape f).
Proof. apply uses_frame. intros c. unfold on_escape. by destruct (f (escape c)). Qed.

Lemma uses_clock : uses 0 monotonic_time.
Proof. apply uses_frame. intros c. unfold monotonic_time. by destruct (clock c). Qed.

(** A call on the runtime, which takes [used] entries of the queue. *)
Lemma uses_call {A} used call' (m : M SessionRuntime RuntimeError A) :
  0 ≤ used →
  (∀ rt, fst (m rt) = fst (call call' rt) ∧ (snd (m rt) = Panic → snd (call call' rt) = Panic)) →
  (∀ rt n, (length (queued_instructions rt) ≤ n)%nat →
           (length (queued_instructions (fst (m rt))) ≤ Z.to_nat used + n)%nat) →
  (∀ rt, len (queued_instructions rt) < 2 ^ 64 → call_ok call' rt) →
  uses used (on_runtime m).
Proof.
  intros Hu Hm Hq Hok room l Hroom c [G1 G2 G3 G4 G5 G6]. unfold on_runtime.
  destruct (Hm (runtime c)) as [Hf Hp]. specialize (Hq (runtime c) _ (le_n _)).
  pose proof (len_nonneg l). assert (Hc : call_ok call' (runtime c)) by (apply Hok; lia).
  pose proof (proj2 (call_wf key call' (runtime c) (runtime_reach_wf key _ G1) Hc)) as Hnp.
  pose proof (reach_call key call' (runtime c) G1 Hc) as Hreach. rewrite <- Hf in Hreach.
  destruct (m (runtime c)) as [rt r]. cbn [fst snd] in *.
  assert (Hg : good room l (c <| runtime := rt |>)) by (split; try done; cbn; unfold len in *; lia).
  split; [done|]. eapply printed_ok; [done|]. by destruct r; naive_solver.
Qed.

Lemma uses_receive packet now : uses 0 (on_runtime (receive_datagram packet now)).
Proof.
  apply (uses_call 0 (CallReceive packet now)); [done|done| |done].
  intros rt n Hn. by apply receive_datagram_queue.
Qed.

Lemma uses_poll now : uses 0 (on_runtime (poll now)).
Proof.
  apply (uses_call 0 (CallPoll now)); [done|done| |done]. intros rt n Hn. by apply poll_queue.
Qed.

Lemma uses_shutdown now : uses 0 (on_runtime (request_shutdown now)).
Proof.
  apply (uses_call 0 (CallShutdown now)); [done|done| |done]. intros rt n Hn.
  unfold request_shutdown, ensure_running, bindM, getM. destruct (lifecycle rt); [|done..].
  cbn. by destruct (bool_decide (shutdown rt = Open)).
Qed.

Lemma no_actions_result (m : M SessionRuntime RuntimeError unit) rt :
  fst (m rt) = fst (no_actions m rt) ∧ (snd (m rt) = Panic → snd (no_actions m rt) = Panic).
Proof. unfold no_actions, bindM. destruct (m rt) as [rt' []]; done. Qed.

Lemma uses_resume now : uses 0 (on_runtime (resume now)).
Proof.
  apply (uses_call 0 (CallResume now)); [done|intros; apply no_actions_result| |done]. intros rt n Hn.
  unfold resume, resume_state. rewrite bindM_get. by destruct (bool_decide _).
Qed.

Lemma uses_queue_input value : uses 1 (queue_input_bytes value).
Proof.
  apply (uses_call 1 (CallQueueInput value)); [done|intros; apply no_actions_result| |done].
  intros rt n Hn. rewrite queue_input_eq. unfold enqueue. destruct (refusal rt); [simpl; lia|].
  destruct (_ <? _); simpl; [lia|]. pose proof (queue_push_length (input_instruction value) (queued_instructions rt)). lia.
Qed.

Lemma uses_queue_resize columns rows :
  fits 16 columns → fits 16 rows → uses 1 (on_runtime (queue_resize columns rows)).
Proof.
  intros Hc Hr. apply (uses_call 1 (CallQueueResize columns rows)); [done|intros; apply no_actions_result| |done].
  intros rt n Hn. rewrite queue_resize_eq. destruct (refusal rt); [simpl; lia|].
  destruct (set_initial_remote_viewport _ _ _); simpl; try lia.
  pose proof (queue_push_length (resize_instruction columns rows) (queued_instructions rt)). lia.
Qed.

Lemma uses_stderr (m : M stream ClientError unit) :
  (∀ s, let '(s', r) := m s in prints s s' (r = Panic) ∧ (∀ e, r ≠ Err e)) → uses 0 (on_stderr m).
Proof.
  intros Hm room l Hr c [G1 G2 G3 G4 G5 G6]. unfold on_stderr. specialize (Hm (logged c)).
  destruct (m (logged c)) as [s r]. destruct Hm as [Hm _]. pose proof (prints_trans _ _ _ _ _ G6 Hm) as Hp.
  split; [|done]. destruct Hp as (u & Hu & _). split; cbn; try done; by exists u.
Qed.

Lemma behaved_resize columns rows : well_behaved (io_error:=io_error) (resize_model columns rows).
Proof. by apply behaved_mod. Qed.

Lemma uses_reconcile : uses 0 reconcile_prediction.
Proof.
  apply uses_seq; [done|apply uses_predictor|]. intros [| |]; [by apply uses_ret|..].
  - apply uses_terminal, behaved_write.
  - apply uses_terminal, behaved_redraw.
Qed.

Lemma uses_send packet : uses 0 (socket_send packet).
Proof. apply uses_frame. intros c. unfold socket_send. by destruct (default None (head (send_outcomes c))). Qed.

Lemma uses_action action : uses 0 (apply_action action).
Proof.
  destruct action; cbn [apply_action]; try by apply uses_ret.
  - apply uses_send.
  - apply uses_seq; [done|apply uses_reconcile|]. intros _. apply uses_terminal, behaved_server.
  - apply uses_predictor.
  - apply uses_get. intros c. apply uses_stderr, write_event_prints.
Qed.

Lemma uses_actions actions : uses 0 (apply_actions actions).
Proof.
  induction actions as [|a actions IH]; [by apply uses_ret|].
  apply uses_seq; [done|apply uses_action|]. by intros _.
Qed.

Lemma uses_drain_received pending now : uses 0 (drain_received pending now).
Proof.
  induction pending as [|r pending IH]; [by apply uses_ret|].
  apply uses_seq; [done|by apply uses_frame|]. intros _. destruct r.
  - apply uses_seq; [done|apply uses_receive|]. intros actions.
    apply uses_seq; [done|apply uses_actions|]. by intros _.
  - by apply uses_ret.
  - apply uses_get. intros c. destruct (received_server_state (runtime c)); [by apply uses_ret|by apply uses_err].
  - by apply uses_err.
Qed.

Lemma uses_flush_escape : uses 1 flush_escape.
Proof.
  apply uses_seq; [done|apply uses_escape|]. intros [prefix|]; [apply uses_queue_input|by apply uses_ret].
Qed.

Lemma uses_suspend : uses 0 suspend_client.
Proof.
  apply uses_seq; [done|apply uses_terminal, behaved_leave|]. intros _.
  apply uses_frame. intros c. unfold raise_suspension.
  pose proof (on_terminal_frame TerminalSetupFailed _ (c <| suspensions ::= tail |>) behaved_resume) as Hp.
  destruct (on_terminal _ _ (c <| suspensions ::= tail |>)) as [c' r]. destruct Hp as (H1' & H2' & H3' & H4' & H5').
  destruct (default None (head (suspensions c))); split_and!; done.
Qed.

Lemma uses_modes {A} u (k : RemoteTerminalModes → CM A) :
  0 ≤ u → (∀ modes, uses u (k modes)) → uses u (bindM remote_modes_now k).
Proof. intros. apply uses_seq; [done|by apply uses_frame|done]. Qed.

Lemma uses_frame_id {A} u (k : Z → CM A) :
  0 ≤ u → (∀ frame, uses u (k frame)) → uses u (bindM prediction_frame k).
Proof. intros. apply uses_seq; [done|by apply uses_frame|done]. Qed.

Lemma uses_barrier value : uses 1 (queue_barrier value).
Proof.
  apply uses_frame_id; [done|]. intros frame. apply (uses_bind 1 0); [done|apply uses_queue_input|].
  intros _. apply uses_seq; [done|apply uses_predictor|]. intros _. by apply uses_ret.
Qed.

Lemma uses_optional value : uses 1 (queue_optional value).
Proof. destruct value; [apply uses_barrier|by apply uses_ret]. Qed.

Lemma uses_forward k value : uses 1 (forward_key k value).
Proof.
  apply uses_frame_id; [done|]. intros frame.
  apply uses_seq; [done|apply uses_frame|].
  { intros c. unfold prediction_context_now. by rewrite bindM_get. }
  intros context. apply (uses_bind 1 0); [done|apply uses_queue_input|]. intros _.
  apply uses_seq; [done|apply uses_predictor|]. intros [prediction|]; [|by apply uses_ret].
  apply uses_terminal, behaved_write.
Qed.

Lemma uses_finally {A} u (m : CM unit) (a : A) : 0 ≤ u → uses u m → uses u (m ;! retM a).
Proof.
  intros Hu Hm. replace u with (u + 0) by lia. apply uses_bind; [done|done|]. intros. by apply uses_ret.
Qed.

Lemma uses_flushed {A} (m : CM A) : uses 1 m → uses 2 (flush_escape ;! m).
Proof. intros Hm. apply (uses_bind 1 1); [done|apply uses_flush_escape|]. by intros _. Qed.

(** A key, pressed or repeated. *)
Lemma uses_key k : uses 2 (handle_event language (EventKey Press k)).
Proof.
  apply uses_modes; [done|]. intros modes. destruct (encode_key_with_mode _ _); [|by apply uses_ret].
  apply uses_seq; [done|apply uses_escape|]. intros [|value| | |].
  - by apply uses_ret.
  - apply uses_finally; [done|]. apply (uses_more 1); [done|]. apply uses_forward.
  - apply (uses_more 0); [done|]. apply uses_finally; [done|]. apply uses_terminal, behaved_notice.
  - by apply uses_ret.
  - apply (uses_more 0); [done|]. apply uses_seq; [done|apply uses_suspend|]. intros _.
    apply uses_seq; [done|apply uses_clock|]. intros now. apply uses_finally; [done|]. apply uses_resume.
Qed.

Lemma uses_event event : event_ok (Ready event) → uses 2 (handle_event language event).
Proof.
  intros He. destruct event as [[] k|contents|mouse| | |columns rows];
    try exact (uses_key k); try (by apply uses_ret).
  1-4: apply uses_flushed, uses_modes; [done|]; intros modes; apply uses_finally; [done|].
  - apply uses_barrier.
  - apply uses_optional.
  - apply uses_optional.
  - apply uses_optional.
  - destruct He as [Hc Hr]. apply uses_flushed. apply uses_seq; [done|apply uses_reconcile|]. intros _.
    apply uses_seq; [done|apply uses_terminal, behaved_resize|]. intros _.
    apply uses_finally; [done|by apply uses_queue_resize].
Qed.

(** The client is in a state it can be in. *)
Definition fine c : Prop := good 0 (events c) c.

(** Whatever comes of a step, the client is left so, and a panic is a print that failed. *)
Definition sound {A} (m : CM A) : Prop := triple fine m (λ r c, fine c ∧ panic_printed r c).

Lemma fine_ok {A} (r : outcome ClientError A) c : fine c → r ≠ Panic → fine c ∧ panic_printed r c.
Proof. intros Hc Hr. split; [done|by eapply printed_ok]. Qed.

Lemma sound_bind {A B} (m : CM A) (k : A → CM B) : sound m → (∀ a, sound (k a)) → sound (bindM m k).
Proof.
  intros Hm Hk c Hc. unfold bindM. specialize (Hm c Hc). destruct (m c) as [c1 [a|e|]]; cbn [fst snd] in *.
  - apply (Hk a c1), Hm.
  - apply fine_ok; [apply Hm|done].
  - split; [apply Hm|eapply panic_cast, Hm].
Qed.

Lemma sound_ret {A} (a : A) : sound (retM a).
Proof. intros c Hc. by apply fine_ok. Qed.

Lemma sound_get : sound getM.
Proof. intros c Hc. by apply fine_ok. Qed.

Lemma sound_if {A} (b : bool) (m k : CM A) : sound m → sound k → sound (if b then m else k).
Proof. by destruct b. Qed.

Lemma uses_sound {A} (m : CM A) : uses 0 m → sound m.
Proof.
  intros Hm c Hc. destruct (Hm 0 (events c) ltac:(done) c Hc) as [Hg Hp]. split; [|done].
  unfold fine. by rewrite (good_pending _ _ _ Hg).
Qed.

Lemma drain_events_sound pending c :
  good 0 pending c →
  fine (fst (drain_events language pending c)) ∧
  panic_printed (snd (drain_events language pending c)) (fst (drain_events language pending c)).
Proof.
  revert c. induction pending as [|p rest IH]; intros c Hc.
  { apply fine_ok; [|done]. unfold fine. cbn. by rewrite (good_pending _ _ _ Hc). }
  cbn [drain_events]. rewrite bindM_mod.
  assert (Hc' : good 2 rest (c <| events := rest |>)).
  { destruct Hc as [G1 G2 G3 G4 G5 G6]. apply Forall_cons in G3 as [_ G3]. split; try done.
    rewrite len_cons in G2. cbn. lia. }
  assert (He : event_ok p) by (destruct Hc as [_ _ G3 _ _ _]; apply Forall_cons in G3; apply G3).
  assert (Hend : ∀ room, 0 ≤ room → ∀ c, good room rest c → fine c).
  { intros room Hroom c1 G. unfold fine. rewrite (good_pending _ _ _ G). by eapply good_mono. }
  destruct p as [event| |e|e]; [|apply fine_ok; [exact (Hend 2 ltac:(lia) _ Hc')|done]..].
  assert (Hu : uses 2 (on_terminal TerminalWriteFailed clear_local_notice ;! handle_event language event)).
  { apply uses_seq; [done|apply uses_terminal, behaved_clear|]. intros _. by apply uses_event. }
  pose proof (Hu 0 rest ltac:(done) _ Hc') as Hs. revert Hs. rewrite <- bindM_assoc. clear Hu.
  generalize (on_terminal (io_error:=io_error) TerminalWriteFailed clear_local_notice ;! handle_event language event). intros m.
  unfold bindM, triple. destruct (m (c <| events := rest |>)) as [c3 [quit|e|]]; cbn [fst snd]; intros [Hg Hp].
  - destruct quit; [apply fine_ok; [by apply (Hend 0)|done]|]. by apply IH.
  - apply fine_ok; [by apply (Hend 0)|done].
  - split; [by apply (Hend 0)|by eapply panic_cast].
Qed.

Lemma shut_down_sound now : sound (shut_down now).
Proof.
  apply uses_sound, uses_seq; [done|apply uses_shutdown|]. intros actions. apply uses_actions.
Qed.

Lemma read_input_sound : sound (read_input language).
Proof.
  apply sound_bind; [apply sound_get|]. intros c0. apply sound_if; [apply sound_ret|].
  apply sound_bind.
  { intros c Hc. unfold drain_terminal. rewrite bindM_get. by apply drain_events_sound. }
  intros quit. apply sound_if; [|apply sound_ret].
  apply sound_bind; [apply uses_sound, uses_clock|]. intros now. apply shut_down_sound.
Qed.

Lemma finish_sound now : sound (finish_iteration now).
Proof.
  apply uses_sound, uses_seq; [done|apply uses_poll|]. intros actions.
  apply uses_seq; [done|apply uses_actions|]. intros _. apply uses_get. intros c.
  destruct (shutdown_outcome (runtime c)); [by apply uses_ret|].
  apply uses_seq; [done|apply uses_clock|]. intros later. apply uses_get. intros c1.
  apply uses_finally; [done|]. by apply uses_frame.
Qed.

Lemma iteration_sound : sound (iteration language).
Proof.
  apply sound_bind; [apply uses_sound, uses_clock|]. intros now.
  apply sound_bind; [apply uses_sound; by apply uses_frame|]. intros requested.
  apply sound_bind; [apply sound_if; [apply shut_down_sound|apply sound_ret]|]. intros _.
  apply sound_bind; [apply sound_get|]. intros c0.
  apply sound_bind; [apply sound_if; [apply uses_sound, uses_resume|apply sound_ret]|]. intros _.
  apply sound_bind; [apply uses_sound; by apply uses_frame|]. intros _.
  apply sound_bind.
  { apply uses_sound, uses_get. intros c. apply uses_drain_received. }
  intros closed. apply sound_if; [apply sound_ret|]. apply sound_bind; [apply sound_get|]. intros c1.
  apply sound_bind; [apply uses_sound, uses_predictor|]. intros _.
  apply sound_bind; [apply read_input_sound|]. intros _. apply finish_sound.
Qed.

Lemma iterations_sound fuel : sound (iterations language fuel).
Proof.
  induction fuel as [|fuel IH]; [apply sound_ret|]. apply sound_bind; [apply iteration_sound|].
  intros [clean|]; [apply sound_ret|done].
Qed.

Lemma leave_loop_sound fuel : sound (leave_loop language fuel).
Proof.
  intros c Hc. unfold leave_loop. destruct (iterations_sound fuel c Hc) as [Hc1 Hp].
  destruct (iterations language fuel c) as [c1 r]. cbn [fst snd] in *.
  destruct (uses_sound _ uses_reconcile c1 Hc1) as [Hc2 Hp2].
  destruct r as [[clean|]|e|]; [|by apply fine_ok| |by split];
    destruct (reconcile_prediction c1) as [c2 r2]; cbn in *;
    (destruct r2; [by apply fine_ok..|split; [done|by eapply panic_cast]]).
Qed.

Lemma event_loop_sound config fuel : sound (event_loop language config fuel).
Proof.
  apply sound_bind; [|intros; apply leave_loop_sound].
  apply uses_sound, uses_seq; [done|by apply uses_frame|]. intros _.
  apply uses_seq; [done|apply uses_clock|]. intros now. by apply uses_frame.
Qed.
End safety.
