(* ===== verification/Typing.v ===== *)
(** * What the user types reaches the runtime

    [typed_events] says what a batch of events of the local terminal means, without any
    effect: the bytes and sizes to send to the server, in order, and whether the user
    quits. The theorem refines it by [drain_terminal] of [Client.v], which interleaves
    the queueing with predictions, notices, suspensions and redraws. *)
From S2P Require Import Prelude Emulators Utf8 Message Crypto Session Runtime Predict.
From S2P Require Import TitleFilter Input Modes Guard Cli Diagnostics Client ClientSafety.
Local Open Scope Z_scope.

(** ** The specification *)
Section spec.
Context `{Vt100} `{Vte} `{!Vt100Queries}.

Definition typed_bytes (value : option bytes) : list TerminalInputEvent := option_list (InputBytes <$> value).

(** An event that is no key, with the remote modes in force. *)
Definition typed_other (modes : RemoteTerminalModes) (event : Event) : list TerminalInputEvent :=
  match event with
  | EventKey _ _ => []
  | EventPaste contents => [InputBytes (encode_paste_with_mode contents (bracketed_paste modes))]
  | EventMouse mouse => typed_bytes (encode_mouse_with_mode mouse (mouse_tracking modes) (mouse_encoding modes))
  | EventFocusGained => typed_bytes (encode_focus_with_mode true (focus_reporting modes))
  | EventFocusLost => typed_bytes (encode_focus_with_mode false (focus_reporting modes))
  | EventResize columns rows => [InputResize columns rows]
  end.

(** A key goes through the command prefix; every other event first gives up a prefix held
    back. The answer is what is sent, whether the user quits, and the prefix state. *)
Definition typed_event (screen : AuthoritativeScreen) (prefix : EscapeInterpreter) (event : Event)
    : list TerminalInputEvent * bool * EscapeInterpreter :=
  let modes := remote_modes screen in
  match event with
  | EventKey Release _ => ([], false, prefix)
  | EventKey _ key =>
      match encode_key_with_mode key (cursor_key modes) with
      | None => ([], false, prefix)
      | Some value =>
          let '(prefix, action) := input value prefix in
          match action with
          | Forward value => ([InputBytes value], false, prefix)
          | Quit => ([], true, prefix)
          | _ => ([], false, prefix)
          end
      end
  | _ => let '(prefix, held) := flush prefix in (typed_bytes held ++ typed_other modes event, false, prefix)
  end.

Definition resized (event : Event) (screen : AuthoritativeScreen) : AuthoritativeScreen :=
  match event with EventResize columns rows => screen_resize columns rows screen | _ => screen end.

Fixpoint typed_events (screen : AuthoritativeScreen) (prefix : EscapeInterpreter) (l : list Event)
    : list TerminalInputEvent * bool :=
  match l with
  | [] => ([], false)
  | event :: l =>
      let '(typed, quit, prefix) := typed_event screen prefix event in
      if quit then (typed, true)
      else let '(rest, quit) := typed_events (resized event screen) prefix l in (typed ++ rest, quit)
  end.
End spec.

(** The queue after events, consecutive resizes coalesced. *)
Definition queue_typed (l : list TerminalInputEvent) (queue : list Instruction) : list Instruction :=
  fold_left (λ queue event, queue_push (event_instruction event) queue) l queue.
Definition typed_size (l : list TerminalInputEvent) : Z := sum_list_Z (event_size <$> l).

Lemma typed_size_app l k : typed_size (l ++ k) = typed_size l + typed_size k.
Proof. unfold typed_size. by rewrite fmap_app, sum_list_Z_app. Qed.

(** ** Steps of the guard that leave the server's screen alone *)
Section still.
Context `{Vt100} `{Vte} `{!Vt100Queries} {io_error : Type}.
Notation guarded := (guarded (io_error:=io_error)).

Definition still {A} (m : guarded A) : Prop :=
  ∀ s, authoritative (fst (fst (m s))) = authoritative (fst s).

Lemma still_bind {A B} (m : guarded A) (k : A → guarded B) :
  still m → (∀ a, still (k a)) → still (bindM m k).
Proof.
  intros Hm Hk s. specialize (Hm s). unfold bindM. destruct (m s) as [s' [a|e|]]; [|done..].
  rewrite <- Hm. apply Hk.
Qed.

Lemma still_ret {A} (a : A) : still (retM a).
Proof. done. Qed.

Lemma still_err {A} e : still (A:=A) (errM e).
Proof. done. Qed.

Lemma still_get : still self_get.
Proof. by intros []. Qed.

Lemma still_mod f : (∀ g, authoritative (f g) = authoritative g) → still (self_mod f).
Proof. intros Hf []. apply Hf. Qed.

Lemma still_attempt op : still (attempt op).
Proof. by intros []. Qed.

Lemma still_ignore (m : guarded unit) : still m → still (ignore m).
Proof. intros Hm s. specialize (Hm s). unfold ignore. by destruct (m s). Qed.

Lemma still_error_of (m : guarded unit) : still m → still (error_of m).
Proof. intros Hm s. specialize (Hm s). unfold error_of. by destruct (m s). Qed.

Lemma still_if {A} (b : bool) (m k : guarded A) : still m → still k → still (if b then m else k).
Proof. by destruct b. Qed.

Lemma still_match {A B} (o : option A) (m : A → guarded B) k :
  (∀ a, still (m a)) → still k → still (match o with Some a => m a | None => k end).
Proof. by destruct o. Qed.

Lemma still_execute l : still (execute l).
Proof. induction l; [apply still_attempt|]. apply still_bind; [apply still_attempt|done]. Qed.

Lemma still_titles f : still (with_titles f).
Proof. intros [g t]. unfold with_titles. cbn. by destruct (f (title_output g)). Qed.
End still.

Create HintDb still.
#[export] Hint Resolve still_bind still_ret still_err still_get still_attempt still_ignore still_error_of
  still_if still_match still_execute still_titles : still.
#[export] Hint Extern 1 (still (self_mod _)) => (apply still_mod; done) : still.

Section guard_calls.
Context `{Vt100} `{Vte} `{!Vt100Queries} {io_error : Type}.

Lemma still_write l : still (io_error:=io_error) (write_bytes l).
Proof. unfold write_bytes. auto with still. Qed.

Lemma still_redraw : still (io_error:=io_error) redraw_authoritative.
Proof. unfold redraw_authoritative. apply still_bind; [auto with still|]. intros. apply still_write. Qed.

Lemma still_clear : still (io_error:=io_error) clear_local_notice.
Proof.
  apply still_bind; [auto with still|]. intros. apply still_if; [auto with still|].
  apply still_bind; [auto with still|]. intros _. apply still_redraw.
Qed.

Lemma still_notice l : still (io_error:=io_error) (write_local_notice l).
Proof.
  apply still_bind; [apply still_clear|]. intros _. apply still_bind; [apply still_write|]. auto with still.
Qed.

Lemma still_leave : still (io_error:=io_error) leave_for_suspend.
Proof.
  unfold leave_for_suspend, deactivate_terminal, write_bytes.
  repeat first [apply still_titles | apply still_bind | apply still_if | apply still_match | progress intros]; auto with still.
Qed.

Lemma still_resume : still (io_error:=io_error) resume_after_suspend.
Proof.
  unfold resume_after_suspend, enable_session_raw_mode, set_up, redraw_authoritative, write_bytes.
  repeat first [apply still_titles | apply still_bind | apply still_if | apply still_match | progress intros]; auto 10 with still.
Qed.
End guard_calls.

(** ** What the client does with the events *)
Section typing.
Context `{Vt100Laws} `{Vte} `{Aead} `{Prost} `{Zlib} `{!Vt100Queries} {io_error : Type}.
Context (key : SessionKey) (language : bytes).
Notation Client := (Client (io_error:=io_error)).
Notation CM := (CM (io_error:=io_error)).
Implicit Types c : Client.

Definition screen_of c : AuthoritativeScreen := authoritative (fst (terminal c)).

(** From [c] to [c'] the events [l] were queued, and the session still takes input. *)
Record queued (l : list TerminalInputEvent) c c' : Prop := {
  queued_wf : wf_runtime key (runtime c');
  queued_open : refusal (runtime c') = None;
  queued_all : queued_instructions (runtime c') = queue_typed l (queued_instructions (runtime c));
  queued_size : queued_input_bytes (runtime c') = queued_input_bytes (runtime c) + typed_size l;
}.

(** An error is one of the operating system, or the next input does not fit the queue. *)
Definition blamed (e : ClientError (io_error:=io_error)) (rest : list TerminalInputEvent) c : Prop :=
  (∃ io, error_cause e = IoCause io) ∨
  e = mkClientError TextInputQueueFull NoCause ∧
  ∃ value l, rest = InputBytes value :: l ∧ MAXIMUM_QUEUED_INPUT_BYTES < queued_input_bytes (runtime c) + len value.

(** [m] queues the first of the events [all], and leaves the rest to [Q]. *)
Definition runs {A} (m : CM A) (all : list TerminalInputEvent) (prefix : EscapeInterpreter)
    (screen : AuthoritativeScreen)
    (Q : A → list TerminalInputEvent → EscapeInterpreter → AuthoritativeScreen → Prop) : Prop :=
  ∀ c, wf_runtime key (runtime c) → refusal (runtime c) = None → escape c = prefix → screen_of c = screen →
  let '(c', r) := m c in
  ∃ done rest, all = done ++ rest ∧ queued done c c' ∧
    match r with
    | Ok a => Q a rest (escape c') (screen_of c')
    | Err e => blamed e rest c'
    | Panic => False
    end.

Lemma queued_refl c : wf_runtime key (runtime c) → refusal (runtime c) = None → queued [] c c.
Proof. intros Hw Hr. split; try done. unfold typed_size. simpl. lia. Qed.

Lemma queued_trans l k c1 c2 c3 : queued l c1 c2 → queued k c2 c3 → queued (l ++ k) c1 c3.
Proof.
  intros [W1 R1 A1 S1] [W2 R2 A2 S2]. split; try done.
  - rewrite A2, A1. unfold queue_typed. by rewrite fold_left_app.
  - rewrite S2, S1, typed_size_app. lia.
Qed.

Lemma runs_bind {A B} (m : CM A) (k : A → CM B) all prefix screen Q :
  runs m all prefix screen (λ a rest prefix screen, runs (k a) rest prefix screen Q) →
  runs (bindM m k) all prefix screen Q.
Proof.
  intros Hm c Hw Hr He Hs. specialize (Hm c Hw Hr He Hs). unfold bindM.
  destruct (m c) as [c1 r]. destruct Hm as (l & rest & -> & Hq & Hk).
  destruct r as [a|e|]; [|by exists l, rest|done].
  pose proof (queued_wf _ _ _ Hq) as Hw1. pose proof (queued_open _ _ _ Hq) as Hr1.
  specialize (Hk c1 Hw1 Hr1 eq_refl eq_refl). destruct (k a c1) as [c2 r2].
  destruct Hk as (l2 & rest2 & -> & Hq2 & Hk). exists (l ++ l2), rest2.
  split_and!; [by rewrite app_assoc|by eapply queued_trans|done].
Qed.

Lemma runs_mono {A} (m : CM A) all prefix screen
    (P Q : A → list TerminalInputEvent → EscapeInterpreter → AuthoritativeScreen → Prop) :
  runs m all prefix screen P → (∀ a rest prefix screen, P a rest prefix screen → Q a rest prefix screen) →
  runs m all prefix screen Q.
Proof.
  intros Hm Hpq c Hw Hr He Hs. specialize (Hm c Hw Hr He Hs). destruct (m c) as [c' r].
  destruct Hm as (l & rest & -> & Hq & Hm). exists l, rest. split_and!; [done|done|]. destruct r; auto.
Qed.

(** A step that leaves the runtime alone. *)
Lemma runs_frame {A} (m : CM A) all prefix screen
    (Q : A → list TerminalInputEvent → EscapeInterpreter → AuthoritativeScreen → Prop) :
  (∀ c, escape c = prefix → screen_of c = screen → runtime (fst (m c)) = runtime c ∧
    match snd (m c) with
    | Ok a => Q a all (escape (fst (m c))) (screen_of (fst (m c)))
    | Err e => ∃ io, error_cause e = IoCause io
    | Panic => False
    end) → runs m all prefix screen Q.
Proof.
  intros Hm c Hw Hr He Hs. destruct (Hm c He Hs) as [Hrt Hq]. destruct (m c) as [c' r]. cbn [fst snd] in *.
  exists [], all. split_and!; [done| |].
  - split; rewrite ?Hrt; try done. unfold typed_size. simpl. lia.
  - destruct r; [done|by left|done].
Qed.

Lemma runs_ret {A} (a : A) all prefix screen Q : Q a all prefix screen → runs (retM a) all prefix screen Q.
Proof. intros Hq. apply runs_frame. by intros c <- <-. Qed.

Lemma runs_terminal failure (m : guarded unit) all prefix screen Q :
  well_behaved m → still m → Q tt all prefix screen → runs (on_terminal failure m) all prefix screen Q.
Proof.
  intros Hb Hm Hq. apply runs_frame. intros c <- <-. unfold on_terminal, screen_of in *.
  destruct (terminal c) as [g t] eqn:Ht. specialize (Hm (g, t)). specialize (Hb g t).
  destruct (m (g, t)) as [[g' t'] r]. destruct Hb as (new & _ & Hr & _). split; [done|].
  cbn in Hm |- *. rewrite Hm. destruct r as [[]|e|]; [done|by eexists|done].
Qed.

Lemma runs_predictor {A} (f : PredictionOverlay → PredictionOverlay * A) all prefix screen Q :
  (∀ a, Q a all prefix screen) → runs (on_predictor f) all prefix screen Q.
Proof.
  intros Hq. apply runs_frame. intros c <- <-. unfold on_predictor. destruct (f (predictor c)).
  split; [done|]. apply Hq.
Qed.

Lemma runs_escape {A} (f : EscapeInterpreter → EscapeInterpreter * A) all prefix screen Q :
  Q (snd (f prefix)) all (fst (f prefix)) screen → runs (on_escape f) all prefix screen Q.
Proof.
  intros Hq. apply runs_frame. intros c <- <-. unfold on_escape. revert Hq.
  by destruct (f (escape c)).
Qed.

Lemma runs_modes all prefix screen Q :
  Q (remote_modes screen) all prefix screen → runs remote_modes_now all prefix screen Q.
Proof. intros Hq. apply runs_frame. by intros c <- <-. Qed.

Lemma runs_clock all prefix screen Q :
  (∀ now, Q now all prefix screen) → runs monotonic_time all prefix screen Q.
Proof. intros Hq. apply runs_frame. intros c <- <-. unfold monotonic_time.
  destruct (clock c); (split; [done|apply Hq]). Qed.

Lemma runs_frame_id all prefix screen Q :
  (∀ frame, Q frame all prefix screen) → runs prediction_frame all prefix screen Q.
Proof. intros Hq. apply runs_frame. intros c <- <-. split; [done|apply Hq]. Qed.

Lemma runs_context all prefix screen Q :
  (∀ context, Q context all prefix screen) → runs prediction_context_now all prefix screen Q.
Proof. intros Hq. apply runs_frame. intros c <- <-. split; [done|apply Hq]. Qed.

(** A call that queues nothing and leaves the runtime as able to take input. *)
Lemma runs_resume now all prefix screen Q :
  Q tt all prefix screen → runs (on_runtime (resume now)) all prefix screen Q.
Proof.
  intros Hq c Hw Hr <- <-. unfold on_runtime.
  pose proof (resume_state_safe key now (runtime c) Hw) as [Hw' Hp]. unfold resume.
  assert (Hl : lifecycle (runtime c) = Running) by (revert Hr; unfold refusal; by destruct (lifecycle (runtime c))).
  revert Hw' Hp. unfold resume_state. rewrite bindM_get, bool_decide_eq_false_2 by (by rewrite Hl).
  rewrite !bindM_mod. unfold modM. cbn [fst snd map_err]. intros Hw' _.
  exists [], all. split_and!; [done| |done]. split; [exact Hw'| |done|].
  - unfold refusal in *. cbn. by rewrite Hl in Hr.
  - unfold typed_size. cbn. lia.
Qed.

Lemma runs_queue value rest prefix screen Q :
  Q tt rest prefix screen → runs (queue_input_bytes value) (InputBytes value :: rest) prefix screen Q.
Proof.
  intros Hq c Hw Hr <- <-. unfold queue_input_bytes, on_runtime.
  pose proof (enqueue_wf key (input_instruction value) (runtime c) Hw) as [Hw' _].
  assert (Hsize : input_size (input_instruction value) = len value) by (cbn; unfold input_size; cbn; lia).
  rewrite Hsize in Hw'. rewrite queue_input_eq. unfold enqueue in *. rewrite Hr in *.
  destruct (Z.ltb_spec MAXIMUM_QUEUED_INPUT_BYTES (queued_input_bytes (runtime c) + len value)) as [Hfull|Hfit].
  - exists [], (InputBytes value :: rest). split_and!; [done| |].
    { split; [exact Hw|exact Hr|done|]. unfold typed_size. cbn. lia. }
    right. split; [done|].
    by exists value, rest.
  - exists [InputBytes value], rest. split_and!; [done| |done]. split; [exact Hw'|exact Hr|done|].
    cbn. unfold typed_size. simpl. lia.
Qed.

Lemma runs_resize columns rows rest prefix screen Q :
  fits 16 columns → fits 16 rows →
  Q tt rest prefix screen → runs (on_runtime (queue_resize columns rows)) (InputResize columns rows :: rest) prefix screen Q.
Proof.
  intros Hc Hrr Hq c Hw Hr <- <-. unfold on_runtime.
  pose proof (queue_resize_wf key columns rows (runtime c) Hc Hrr Hw) as [Hw' _].
  rewrite queue_resize_eq, Hr in *.
  destruct (set_viewport_wf columns rows (protocol (runtime c))) as (p & Hp & _);
    [by eapply wf_reach_protocol|done|done|]. rewrite Hp in *.
  exists [InputResize columns rows], rest. split_and!; [done| |done]. split; [exact Hw'|exact Hr|done|].
  unfold typed_size. cbn. lia.
Qed.

Lemma runs_typed (value : option bytes) (m : bytes → CM unit) rest prefix screen Q :
  (∀ value rest, Q tt rest prefix screen → runs (m value) (InputBytes value :: rest) prefix screen Q) →
  Q tt rest prefix screen →
  runs (match value with Some value => m value | None => retM tt end) (typed_bytes value ++ rest) prefix screen Q.
Proof. intros Hm Hq. destruct value; [by apply Hm|by apply runs_ret]. Qed.

Lemma runs_barrier value rest prefix screen Q :
  Q tt rest prefix screen → runs (queue_barrier value) (InputBytes value :: rest) prefix screen Q.
Proof.
  intros Hq. apply runs_bind, runs_frame_id. intros frame. apply runs_bind, runs_queue.
  apply runs_bind, runs_predictor. intros _. by apply runs_ret.
Qed.

Lemma runs_flush rest prefix screen Q :
  Q tt rest (fst (flush prefix)) screen →
  runs flush_escape (typed_bytes (snd (flush prefix)) ++ rest) prefix screen Q.
Proof.
  intros Hq. apply runs_bind, runs_escape. apply runs_typed; [|done]. intros. by apply runs_queue.
Qed.

Lemma runs_forward k value rest prefix screen Q :
  Q tt rest prefix screen → runs (forward_key k value) (InputBytes value :: rest) prefix screen Q.
Proof.
  intros Hq. apply runs_bind, runs_frame_id. intros frame. apply runs_bind, runs_context. intros context.
  apply runs_bind, runs_queue. apply runs_bind, runs_predictor. intros [prediction|]; [|by apply runs_ret].
  apply runs_terminal; [apply behaved_write|apply still_write|done].
Qed.

Lemma runs_reconcile all prefix screen Q :
  Q tt all prefix screen → runs reconcile_prediction all prefix screen Q.
Proof.
  intros Hq. apply runs_bind, runs_predictor. intros [| |]; [by apply runs_ret|..]; apply runs_terminal; try done.
  - apply behaved_write.
  - apply still_write.
  - apply behaved_redraw.
  - apply still_redraw.
Qed.

Lemma runs_suspend all prefix screen Q :
  Q tt all prefix screen → runs suspend_client all prefix screen Q.
Proof.
  intros Hq. apply runs_bind, runs_terminal; [apply behaved_leave|apply still_leave|].
  intros c Hw Hr <- <-.
  assert (Hraise : ∃ c1 r1, raise_suspension c = (c1, r1) ∧ runtime c1 = runtime c ∧ escape c1 = escape c ∧
    terminal c1 = terminal c ∧ (r1 = Ok tt ∨ ∃ io t, r1 = Err (mkClientError t (IoCause io)))).
  { unfold raise_suspension. do 2 eexists. split; [done|]. split_and!; [done..|].
    destruct (default None (head (suspensions c))); [right; by do 2 eexists|by left]. }
  destruct Hraise as (c1 & r1 & Hraise & Hrt & Hesc & Hterm & Hr1). rewrite Hraise.
  assert (Hscreen : screen_of c1 = screen_of c) by (unfold screen_of; by rewrite Hterm).
  rewrite <- Hrt in Hw, Hr.
  pose proof (runs_terminal TerminalSetupFailed resume_after_suspend all (escape c) (screen_of c) Q
    behaved_resume still_resume Hq c1 Hw Hr Hesc Hscreen) as Hres.
  revert Hres. destruct (on_terminal TerminalSetupFailed resume_after_suspend c1) as [c' r].
  intros (l & rest & Hall & Hqd & Hres). exists l, rest. split_and!; [done| |].
  - destruct Hqd as [W R A S]. rewrite Hrt in A, S. by split.
  - destruct Hr1 as [->|(io & t & ->)]; [exact Hres|]. left. by eexists.
Qed.

Lemma runs_resize_model columns rows all prefix screen Q :
  Q tt all prefix (screen_resize columns rows screen) →
  runs (on_terminal TerminalWriteFailed (resize_model columns rows)) all prefix screen Q.
Proof.
  intros Hq. apply runs_frame. intros c <- <-. unfold on_terminal, screen_of in *. by destruct (terminal c).
Qed.

(** One event does what the specification says. *)
Definition event_done (event : Event) (quit : bool) (rest : list TerminalInputEvent)
    (prefix : EscapeInterpreter) (screen : AuthoritativeScreen) (q : bool) (rest' : list TerminalInputEvent)
    (prefix' : EscapeInterpreter) (screen' : AuthoritativeScreen) : Prop :=
  q = quit ∧ rest' = rest ∧ prefix' = prefix ∧ screen' = resized event screen.

Lemma runs_key kind k rest prefix screen :
  let '(typed, quit, prefix') := typed_event screen prefix (EventKey kind k) in
  runs (handle_event language (EventKey kind k)) (typed ++ rest) prefix screen
    (event_done (EventKey kind k) quit rest prefix' screen).
Proof.
  assert (Hpress : let '(typed, quit, prefix') := typed_event screen prefix (EventKey Press k) in
    runs (handle_event language (EventKey Press k)) (typed ++ rest) prefix screen
      (event_done (EventKey Press k) quit rest prefix' screen)).
  { cbn [typed_event handle_event].
    destruct (encode_key_with_mode k (cursor_key (remote_modes screen))) as [value|] eqn:Hvalue.
    2: { apply runs_bind, runs_modes. rewrite Hvalue. by apply runs_ret. }
    destruct (input value prefix) as [prefix' action] eqn:Hinput.
    assert (Hrun : ∀ typed quit,
      runs (match action with
            | Hold => retM false
            | Input.Help =>
                on_terminal TerminalWriteFailed (write_local_notice (text language LocalCommandHelp)) ;! retM false
            | Quit => retM true
            | Suspend => suspend_client ;! let! now := monotonic_time in on_runtime (resume now) ;! retM false
            | Forward value => forward_key k value ;! retM false
            end) (typed ++ rest) prefix' screen (event_done (EventKey Press k) quit rest prefix' screen) →
      runs (handle_event language (EventKey Press k)) (typed ++ rest) prefix screen
        (event_done (EventKey Press k) quit rest prefix' screen)).
    { intros typed quit Hrun. apply runs_bind, runs_modes. rewrite Hvalue.
      apply runs_bind, runs_escape. rewrite Hinput. exact Hrun. }
    destruct action; apply Hrun; cbn [app].
    - by apply runs_ret.
    - apply runs_bind, runs_forward. by apply runs_ret.
    - apply runs_bind, runs_terminal; [apply behaved_notice|apply still_notice|]. by apply runs_ret.
    - by apply runs_ret.
    - apply runs_bind, runs_suspend. apply runs_bind, runs_clock. intros now.
      apply runs_bind, runs_resume. by apply runs_ret. }
  destruct kind; [exact Hpress|exact Hpress|by apply runs_ret].
Qed.

Lemma runs_other event m rest prefix screen :
  runs m (typed_other (remote_modes screen) event ++ rest) (fst (flush prefix)) screen
    (event_done event false rest (fst (flush prefix)) screen) →
  runs (flush_escape ;! m)
    ((typed_bytes (snd (flush prefix)) ++ typed_other (remote_modes screen) event) ++ rest) prefix screen
    (event_done event false rest (fst (flush prefix)) screen).
Proof. intros Hm. rewrite <- app_assoc. by apply runs_bind, runs_flush. Qed.

Lemma runs_queue_optional value rest prefix screen Q :
  Q tt rest prefix screen → runs (queue_optional value) (typed_bytes value ++ rest) prefix screen Q.
Proof. intros Hq. apply runs_typed; [|done]. intros. by apply runs_barrier. Qed.

Lemma runs_event event rest prefix screen :
  event_ok (Ready (io_error:=io_error) event) →
  let '(typed, quit, prefix') := typed_event screen prefix event in
  runs (handle_event language event) (typed ++ rest) prefix screen (event_done event quit rest prefix' screen).
Proof.
  intros Hok. destruct event as [kind k|contents|mouse| | |columns rows]; [apply runs_key| | | | |];
    cbn [typed_event handle_event]; rewrite (surjective_pairing (flush prefix)); apply runs_other.
  1-4: apply runs_bind, runs_modes; cbn [typed_other].
  - apply runs_bind, runs_barrier. by apply runs_ret.
  - apply runs_bind, runs_queue_optional. by apply runs_ret.
  - apply runs_bind, runs_queue_optional. by apply runs_ret.
  - apply runs_bind, runs_queue_optional. by apply runs_ret.
  - apply runs_bind, runs_reconcile. apply runs_bind, runs_resize_model. destruct Hok as [Hc Hr].
    apply runs_bind, runs_resize; [done|done|]. by apply runs_ret.
Qed.

(** The events [l] are ready; the poll after them finds no more in store, or none ready. *)
Definition ready_now (l : list Event) (later : option (list (input_poll (io_error:=io_error)))) :=
  (Ready <$> l) ++ match later with Some rest => NotReady :: rest | None => [] end.

Lemma runs_events l later prefix screen :
  Forall (λ event, event_ok (Ready (io_error:=io_error) event)) l →
  let '(typed, quit) := typed_events screen prefix l in
  runs (drain_events language (ready_now l later)) typed prefix screen
    (λ q rest _ _, q = quit ∧ rest = []).
Proof.
  intros Hl. revert prefix screen. induction Hl as [|event l Hok Hl IH]; intros prefix screen.
  { destruct later; [|by apply runs_ret]. cbn [ready_now fmap list_fmap app drain_events typed_events].
    apply runs_bind, runs_frame. intros c <- <-. split; [done|]. by apply runs_ret. }
  cbn [typed_events]. pose proof (λ rest, runs_event event rest prefix screen Hok) as He.
  destruct (typed_event screen prefix event) as [[typed quit] prefix'].
  specialize (IH prefix' (resized event screen)).
  destruct (typed_events (resized event screen) prefix' l) as [more q].
  assert (Hnext : ∀ rest, runs (if quit then retM true else drain_events language (ready_now l later)) rest prefix'
      (resized event screen) (λ q' rest' _ _, q' = (if quit then true else q) ∧ rest' = []) →
    runs (drain_events language (ready_now (event :: l) later)) (typed ++ rest) prefix screen
      (λ q' rest' _ _, q' = (if quit then true else q) ∧ rest' = [])).
  { intros rest Hrest. cbn [ready_now fmap list_fmap app drain_events]. apply runs_bind, runs_frame. intros c <- <-. split; [done|].
    cbn [fst snd modM]. apply runs_bind, runs_terminal; [apply behaved_clear|apply still_clear|].
    apply runs_bind. eapply runs_mono; [apply (He rest)|]. intros q' rest' prefix'' screen' (-> & -> & -> & ->).
    exact Hrest. }
  destruct quit.
  - rewrite <- (app_nil_r typed). apply Hnext. by apply runs_ret.
  - by apply Hnext.
Qed.
End typing.

(** C38: What the user types reaches the server's queue, in order and complete: draining the
    events of the local terminal that are ready, whatever comes later, queues exactly what the specification says, whatever
    predictions, notices, suspensions and redraws happen on the way, and answers whether
    the user quits. When it fails, an operation of the operating system failed or the
    next input did not fit the queue, and everything typed before was queued. *)
Theorem typed_input_is_queued `{Vt100Laws} `{Vte} `{Aead} `{Prost} `{Zlib} `{!Vt100Queries} {io_error : Type}
    key language l later (c : Client (io_error:=io_error)) :
  runtime_reach key (runtime c) → refusal (runtime c) = None →
  Forall (λ event, event_ok (Ready (io_error:=io_error) event)) l →
  let '(typed, quit) := typed_events (authoritative (fst (terminal c))) (escape c) l in
  let '(c', r) := drain_events language (ready_now l later) c in
  ∃ sent unsent, typed = sent ++ unsent ∧
    queued_instructions (runtime c') = queue_typed sent (queued_instructions (runtime c)) ∧
    queued_input_bytes (runtime c') = queued_input_bytes (runtime c) + typed_size sent ∧
    match r with
    | Ok q => q = quit ∧ unsent = []
    | Err e => (∃ io, error_cause e = IoCause io) ∨
        e = mkClientError TextInputQueueFull NoCause ∧
        ∃ value rest, unsent = InputBytes value :: rest ∧
          MAXIMUM_QUEUED_INPUT_BYTES < queued_input_bytes (runtime c) + typed_size sent + len value
    | Panic => False
    end.
Proof.
  intros Hr Hopen Hl. pose proof (runs_events key language l later (escape c) (screen_of c) Hl) as Hrun.
  unfold screen_of in Hrun. destruct (typed_events _ _ l) as [typed quit].
  specialize (Hrun c (runtime_reach_wf key _ Hr) Hopen eq_refl eq_refl).
  destruct (drain_events language (ready_now l later) c) as [c' r].
  destruct Hrun as (sent & unsent & -> & [_ _ Hq Hs] & Hres). exists sent, unsent. split_and!; [done..|].
  destruct r as [q|e|]; [done| |done]. unfold blamed in Hres. by rewrite Hs in Hres.
Qed.
