(* ===== verification/SessionEnd.v ===== *)
(** * How a session of the client ends

    What the network does to the client ([drain_network] refines the calls of the runtime,
    and stops at the first datagram the runtime refuses), and that a shutdown whose
    deadlines have passed ends the event loop of [Client.v] whatever arrives. *)
From S2P Require Import Prelude Emulators Utf8 Message Crypto Session Runtime Predict.
From S2P Require Import TitleFilter Input Modes Guard Cli Diagnostics Client ClientSafety.
Local Open Scope Z_scope.

(** ** Steps that leave the runtime alone *)
Section inert.
Context `{Vt100} `{Vte} `{Aead} `{Prost} `{Zlib} `{!Vt100Queries} {io_error : Type}.
Notation Client := (Client (io_error:=io_error)).
Notation CM := (CM (io_error:=io_error)).
Implicit Types c : Client.

(** Errors are errors of the operating system, and panics are prints that failed. *)
Definition inert {A} (m : CM A) : Prop :=
  ∀ c, runtime (fst (m c)) = runtime c ∧ prints (logged c) (logged (fst (m c))) (snd (m c) = Panic) ∧
  ∀ e, snd (m c) = Err e → ∃ io, error_cause e = IoCause io.

(** A step that prints nothing. *)
Lemma inert_silent {A} (m : CM A) :
  (∀ c, runtime (fst (m c)) = runtime c ∧ logged (fst (m c)) = logged c ∧
    match snd (m c) with
    | Ok _ => True
    | Err e => ∃ io, error_cause e = IoCause io
    | Panic => False
    end) → inert m.
Proof.
  intros Hm c. destruct (Hm c) as (Hr & Hl & He). split; [done|]. rewrite Hl. split.
  - apply prints_same. intros Hp. by rewrite Hp in He.
  - intros e Ee. by rewrite Ee in He.
Qed.

Lemma inert_bind {A B} (m : CM A) (k : A → CM B) : inert m → (∀ a, inert (k a)) → inert (bindM m k).
Proof.
  intros Hm Hk c. destruct (Hm c) as (Hr & Hp & He). unfold bindM. destruct (m c) as [c' [a|e|]]; cbn [fst snd] in *.
  - destruct (Hk a c') as (Hr' & Hp' & He'). rewrite Hr'. split_and!; [done|by eapply prints_trans|done].
  - split_and!; [done| |by intros e' [= <-]; apply He]. destruct Hp as (u & Hu & _). by exists u.
  - split_and!; [done| |done]. destruct Hp as (u & Hu & Hp). exists u. split; [done|]. intros _. by apply Hp.
Qed.

Lemma inert_ret {A} (a : A) : inert (retM a).
Proof. by apply inert_silent. Qed.

Lemma inert_terminal failure (m : guarded unit) : well_behaved m → inert (on_terminal failure m).
Proof.
  intros Hm. apply inert_silent. intros c. unfold on_terminal. destruct (terminal c) as [g t] eqn:Ht. specialize (Hm g t).
  destruct (m (g, t)) as [[g' t'] r]. destruct Hm as (new & _ & Hr & _). split_and!; [done..|].
  destruct r; [done|by eexists|done].
Qed.

Lemma inert_predictor {A} (f : PredictionOverlay → PredictionOverlay * A) : inert (on_predictor f).
Proof. apply inert_silent. intros c. unfold on_predictor. by destruct (f (predictor c)). Qed.

Lemma inert_clock : inert monotonic_time.
Proof. apply inert_silent. intros c. unfold monotonic_time. by destruct (clock c). Qed.

Lemma inert_send packet : inert (socket_send packet).
Proof.
  apply inert_silent. intros c. unfold socket_send. destruct (default None (head (send_outcomes c))); [|done].
  split_and!; [done..|]. by eexists.
Qed.

Lemma inert_reconcile : inert reconcile_prediction.
Proof.
  apply inert_bind; [apply inert_predictor|]. intros []; [apply inert_ret|..]; apply inert_terminal.
  - apply behaved_write.
  - apply behaved_redraw.
Qed.

Lemma inert_get {A} (k : Client → CM A) : (∀ c, inert (k c)) → inert (bindM getM k).
Proof. intros Hk. apply inert_bind; [by apply inert_silent|done]. Qed.

Lemma inert_event logger event : inert (on_stderr (write_event logger event)).
Proof.
  intros c. unfold on_stderr. pose proof (write_event_prints (E:=ClientError (io_error:=io_error)) logger event (logged c)) as Hw.
  destruct (write_event logger event (logged c)) as [s r]. destruct Hw as [Hp He]. split_and!; [done..|].
  intros e Ee. by destruct (He e).
Qed.

Lemma inert_action action : inert (apply_action action).
Proof.
  destruct action; cbn [apply_action]; try first [apply inert_ret | apply inert_send | apply inert_predictor].
  - apply inert_bind; [apply inert_reconcile|]. intros _. apply inert_terminal, behaved_server.
  - apply inert_get. intros c. apply inert_event.
Qed.

Lemma inert_actions actions : inert (apply_actions actions).
Proof.
  induction actions as [|a actions IH]; [apply inert_ret|]. apply inert_bind; [apply inert_action|]. by intros _.
Qed.
End inert.

(** ** The network *)
Section network.
Context `{Vt100Laws} `{Vte} `{Aead} `{Prost} `{Zlib} `{!Vt100Queries} {io_error : Type}.
Context (key : SessionKey) (now : MonotonicTime).
Notation Client := (Client (io_error:=io_error)).
Notation received := (received (io_error:=io_error)).
Implicit Types c : Client.

(** The datagrams the socket has in store, and what follows them. *)
Fixpoint arrived (l : list received) : list bytes :=
  match l with Datagram packet :: l => take (Z.to_nat RECEIVE_BUFFER_BYTES) packet :: arrived l | _ => [] end.
Fixpoint after_arrived (l : list received) : option received :=
  match l with Datagram _ :: l => after_arrived l | r :: _ => Some r | [] => None end.

Definition receive_calls (l : list bytes) : list HostCall := (λ packet, CallReceive packet now) <$> l.

Definition is_refused_by_peer (r : option received) : bool :=
  match r with Some (ConnectionRefused _) => true | _ => false end.

(** The outcome of draining the network with [pending] in store. *)
Definition drained (pending : list received) (rt : SessionRuntime) c'
    (r : outcome (ClientError (io_error:=io_error)) bool) : Prop :=
  let datagrams := arrived pending in
  match r with
  | Ok closed =>
      let '(results, rt') := calls (receive_calls datagrams) rt in
      Forall (λ r, is_ok r = true) results ∧ runtime c' = rt' ∧
      closed = is_refused_by_peer (after_arrived pending) && received_server_state rt'
  | Err e =>
      (∃ io, error_cause e = IoCause io) ∨
      ∃ n packet refusal, datagrams !! n = Some packet ∧
        let '(results, rt') := calls (receive_calls (take n datagrams)) rt in
        Forall (λ r, is_ok r = true) results ∧
        receive_datagram packet now rt' = (runtime c', Err refusal) ∧ e = format_runtime_error refusal
  | Panic => True
  end.

(** A datagram, and whatever follows when its actions were applied. *)
Lemma datagram_drained packet pending c :
  (∀ c, wf_runtime key (runtime c) →
   let '(c', r) := drain_received pending now c in
   drained pending (runtime c) c' r ∧ prints (logged c) (logged c') (r = Panic)) →
  wf_runtime key (runtime c) →
  let '(c', r) := (let! actions := on_runtime (receive_datagram (take (Z.to_nat RECEIVE_BUFFER_BYTES) packet) now) in
    apply_actions actions ;! drain_received pending now) c in
  drained (Datagram packet :: pending) (runtime c) c' r ∧ prints (logged c) (logged c') (r = Panic).
Proof.
  intros IH Hw. set (bytes := take (Z.to_nat RECEIVE_BUFFER_BYTES) packet).
  pose proof (receive_datagram_safe key bytes now (runtime c) Hw) as [Hw' Hp].
  unfold bindM at 1. unfold on_runtime at 1.
  destruct (receive_datagram bytes now (runtime c)) as [rt1 [actions|e|]] eqn:Hrec; cbn [fst snd map_err] in *; [| |done].
  2: { split; [|by apply prints_same]. right. exists 0%nat, bytes, e. split; [done|]. by split_and!. }
  destruct (inert_actions actions (c <| runtime := rt1 |>)) as (Hr2 & Hp2 & He2). unfold bindM.
  destruct (apply_actions actions _) as [c3 [[]|e|]] eqn:Hact; cbn [fst snd] in *.
  2: { split; [left; by apply He2|]. destruct Hp2 as (u & Hu & _). by exists u. }
  2: { split; [done|]. destruct Hp2 as (u & Hu & Hp2). exists u. split; [done|]. intros _. by apply Hp2. }
  assert (Hr3 : runtime c3 = rt1) by done. rewrite <- Hr3 in Hw'. specialize (IH c3 Hw').
  destruct (drain_received pending now c3) as [c4 r]. rewrite Hr3 in IH. destruct IH as [IH Hp4].
  split; [|by eapply prints_trans]. clear Hp2 Hp4 He2. unfold drained, receive_calls in *.
  cbn [calls call arrived after_arrived receive_calls fmap list_fmap] in *. fold bytes. rewrite Hrec.
  destruct r as [closed|e|]; [| |done].
  - destruct (calls _ rt1) as [results rt']. destruct IH as (Hres & Hrt & Hc).
    split_and!; [by constructor|done|done].
  - destruct IH as [Hio|(n & p & refusal & Hn & IH)]; [by left|]. right. exists (S n), p, refusal.
    split; [done|]. unfold receive_calls in *. cbn [take fmap list_fmap calls call]. rewrite Hrec.
    destruct (calls _ rt1) as [results rt']. destruct IH as (Hres & IH). split; [by constructor|done].
Qed.

Lemma drain_received_drained pending c :
  wf_runtime key (runtime c) →
  let '(c', r) := drain_received pending now c in
  drained pending (runtime c) c' r ∧ prints (logged c) (logged c') (r = Panic).
Proof.
  revert c. induction pending as [|p pending IH]; intros c Hw.
  { split; [by split_and!|by apply prints_same]. }
  cbn [drain_received]. rewrite bindM_mod. set (c1 := c <| incoming := pending |>).
  change (runtime c) with (runtime c1) in *. change (logged c) with (logged c1). clearbody c1.
  destruct p as [packet| |e|e]; cbn [arrived after_arrived].
  - by apply (datagram_drained packet).
  - split; [by split_and!|by apply prints_same].
  - rewrite bindM_get. destruct (received_server_state (runtime c1)) eqn:Hs; (split; [|by apply prints_same]).
    + split_and!; [done..|]. cbn. by rewrite Hs.
    + left. by eexists.
  - split; [left; by eexists|by apply prints_same].
Qed.
End network.

(** ** A shutdown past its deadlines *)
Section closing.
Context `{Vt100Laws} `{Vte} `{Aead} `{Prost} `{Zlib} `{!Vt100Queries} {io_error : Type}.
Context (key : SessionKey) (language : bytes) (now : MonotonicTime).
Notation Client := (Client (io_error:=io_error)).
Notation CM := (CM (io_error:=io_error)).
Implicit Types (c : Client) (rt : SessionRuntime).

(** A shutdown is in progress, and its deadlines passed before [now]. *)
Record overdue rt : Prop := {
  overdue_wf : wf_runtime key rt;
  overdue_running : lifecycle rt = Running;
  overdue_associated : association rt = Sent;
  overdue_shutdown : shutdown_in_progress rt = true;
  overdue_start : ∀ t n, shutdown rt = LocalRequested t n → t + SHUTDOWN_TIMEOUT_MILLISECONDS ≤ now;
  overdue_send : ∀ t, last_send rt = Some t → t + MAXIMUM_RETRANSMIT_MILLISECONDS ≤ now;
}.

(** The part of [overdue] that does not mention the protocol. *)
Definition overdue_flags rt : Prop :=
  lifecycle rt = Running ∧ association rt = Sent ∧ shutdown_in_progress rt = true ∧
  (∀ t n, shutdown rt = LocalRequested t n → t + SHUTDOWN_TIMEOUT_MILLISECONDS ≤ now) ∧
  (∀ t, last_send rt = Some t → t + MAXIMUM_RETRANSMIT_MILLISECONDS ≤ now).

Lemma overdue_split rt : overdue rt ↔ wf_runtime key rt ∧ overdue_flags rt.
Proof. split; [intros []; by unfold overdue_flags|intros (? & ? & ? & ? & ? & ?); by split]. Qed.

Lemma receive_overdue packet at_time : keeps overdue (receive_datagram packet at_time).
Proof.
  intros rt Hrt. apply overdue_split in Hrt as [Hw Hf]. apply overdue_split.
  split; [by apply receive_datagram_safe|]. revert rt Hf Hw.
  enough (Hk : keeps overdue_flags (receive_datagram packet at_time)) by (intros; by apply Hk).
  apply receive_datagram_keeps_gen; try (done || by apply on_protocol_keeps).
  - intros rt x. unfold overdue_flags, shutdown_in_progress.
    by destruct (update_retransmit_timeout_keeps x rt) as (-> & -> & -> & -> & _).
  - intros state rt (Hl & Ha & Hs & Ht & Hd). rewrite note_state_eq. cbn [fst].
    unfold overdue_flags, shutdown_in_progress in *. destruct (_ =? u64_max); [|done]. cbn.
    by destruct (shutdown rt).
Qed.

Lemma request_overdue at_time : keeps overdue (request_shutdown at_time).
Proof.
  intros rt Hrt. apply overdue_split in Hrt as [Hw Hf]. apply overdue_split.
  split; [by apply (call_wf key (CallShutdown at_time))|].
  destruct Hf as (Hl & Ha & Hs & Ht & Hd). unfold request_shutdown, ensure_running, bindM, getM. rewrite Hl. cbn.
  rewrite bool_decide_eq_false_2; [done|]. intros Ho. unfold shutdown_in_progress in Hs. by rewrite Ho in Hs.
Qed.

Lemma resume_overdue at_time : keeps overdue (resume at_time).
Proof.
  intros rt Hrt. apply overdue_split in Hrt as [Hw Hf]. apply overdue_split.
  split; [by apply resume_state_safe|].
  destruct Hf as (Hl & Ha & Hs & Ht & Hd). unfold resume, resume_state.
  rewrite bindM_get, bool_decide_eq_false_2 by (by rewrite Hl). rewrite !bindM_mod. by split_and!.
Qed.

(** What [m] does to the runtime keeps the shutdown overdue, and [Q] holds of the outcome. *)
Definition late {A} (m : CM A) (Q : Client → A → Prop) : Prop :=
  ∀ c, overdue (runtime c) →
  ∀ a, snd (m c) = Ok a → overdue (runtime (fst (m c))) ∧ Q (fst (m c)) a.

Lemma late_inert {A} (m : CM A) : inert m → late m (λ _ _, True).
Proof. intros Hm c Hc a _. destruct (Hm c) as [-> _]. by split. Qed.

Lemma late_runtime {A} (m : M SessionRuntime RuntimeError A) : keeps overdue m → late (on_runtime m) (λ _ _, True).
Proof.
  intros Hm c Hc a _. specialize (Hm _ Hc). unfold on_runtime. destruct (m (runtime c)) as [rt r]. by split.
Qed.

(** The session ended: with an error, with the outcome of the shutdown, or because the
    peer refused the connection. *)
Definition ended (res : Client * outcome (ClientError (io_error:=io_error)) (option bool)) : Prop :=
  let '(c', r) := res in
  r ≠ Ok None ∧
  ∀ clean, r = Ok (Some clean) →
    (∃ o, shutdown_outcome (runtime c') = Some o ∧ clean = negb (bool_decide (o = TimedOut))) ∨
    received_server_state (runtime c') = true ∧ clean = true.

Definition ending (m : CM (option bool)) : Prop := ∀ c, overdue (runtime c) → ended (m c).

Lemma ended_err c e : ended (c, Err e).
Proof. done. Qed.

Lemma ended_panic c : ended (c, Panic).
Proof. done. Qed.

(** After a step that keeps the shutdown overdue, the rest decides how the session ends. *)
Lemma ending_bind {A} (m : CM A) (k : A → CM (option bool)) Q :
  late m Q → (∀ a c, overdue (runtime c) → Q c a → ended (k a c)) → ending (bindM m k).
Proof.
  intros Hm Hk c Hc. specialize (Hm c Hc). unfold bindM. destruct (m c) as [c1 [a|e|]]; [|done..].
  destruct (Hm a eq_refl) as [Hc1 HQ]. by apply Hk.
Qed.

Lemma ending_step {A} (m : CM A) (k : A → CM (option bool)) :
  late m (λ _ _, True) → (∀ a, ending (k a)) → ending (bindM m k).
Proof. intros Hm Hk. apply (ending_bind m k (λ _ _, True)); [done|]. intros a c Hc _. by apply Hk. Qed.

Lemma late_bind {A B} (m : CM A) (k : A → CM B) Q :
  late m (λ _ _, True) → (∀ a, late (k a) Q) → late (bindM m k) Q.
Proof.
  intros Hm Hk c Hc. specialize (Hm c Hc). unfold bindM. destruct (m c) as [c1 [a|e|]]; [|done..].
  destruct (Hm a eq_refl) as [Hc1 _]. by apply Hk.
Qed.

Lemma late_shut_down at_time : late (shut_down at_time) (λ _ _, True).
Proof.
  apply late_bind; [apply late_runtime, request_overdue|]. intros actions. apply late_inert, inert_actions.
Qed.

Lemma late_drain pending at_time :
  late (drain_received pending at_time) (λ c closed, closed = true → received_server_state (runtime c) = true).
Proof.
  induction pending as [|r pending IH]; [by intros c Hc a [= <-]|]. cbn [drain_received].
  apply late_bind; [by apply late_inert, inert_silent|]. intros _. destruct r as [packet| |e|e].
  - apply late_bind; [apply late_runtime, receive_overdue|]. intros actions.
    apply late_bind; [apply late_inert, inert_actions|]. by intros _.
  - by intros c Hc a [= <-].
  - intros c Hc a. rewrite bindM_get. by destruct (received_server_state (runtime c)) eqn:Hs.
  - by intros c Hc a.
Qed.

Lemma ending_finish : ending (finish_iteration now).
Proof.
  intros c [Hw Hl Ha Hs Ht Hd]. unfold finish_iteration, bindM at 1, on_runtime.
  destruct (poll_completes key now (runtime c) Hw Hl Ha Hs Ht Hd) as [Hfin _].
  destruct (poll now (runtime c)) as [rt [actions|e|]]; [|done..].
  destruct (Hfin actions eq_refl) as (o & Ho & _). cbn [fst map_err] in *.
  destruct (inert_actions actions (c <| runtime := rt |>)) as [Hr _]. unfold bindM at 1.
  destruct (apply_actions actions _) as [c1 [[]|e|]]; [|done..].
  assert (Hrt : runtime c1 = rt) by done. rewrite bindM_get, Hrt. unfold shutdown_outcome. rewrite Ho.
  split; [done|]. intros clean [= <-]. left. exists o. unfold shutdown_outcome. by rewrite Hrt, Ho.
Qed.

Lemma ending_rest : ending (
  let! c := getM in
  on_predictor (λ p, (set_round_trip_milliseconds (Runtime.round_trip_milliseconds (runtime c)) p, tt)) ;!
  read_input language ;! finish_iteration now).
Proof.
  apply ending_step; [by apply late_inert, inert_silent|]. intros c1.
  apply ending_step; [apply late_inert, inert_predictor|]. intros _.
  apply ending_step; [|intros _; apply ending_finish].
  intros c2 Hc2 a. unfold read_input. by rewrite bindM_get, (overdue_shutdown _ Hc2).
Qed.

Lemma iteration_ends c rest :
  overdue (runtime c) → clock c = now :: rest → ended (iteration language c).
Proof.
  intros Hc Hclock. unfold iteration, bindM at 1, monotonic_time at 1. rewrite Hclock.
  change (runtime c) with (runtime (c <| clock := rest |>)) in Hc. revert Hc.
  generalize (c <| clock := rest |>). clear c Hclock.
  match goal with |- ∀ c, _ → ended (?m c) => change (ending m) end.
  apply ending_step; [by apply late_inert, inert_silent|]. intros requested.
  apply ending_step; [destruct requested; [apply late_shut_down|by apply late_inert, inert_silent]|]. intros _.
  apply ending_step; [by apply late_inert, inert_silent|]. intros c0.
  apply ending_step; [destruct (_ <=? _); [apply late_runtime, resume_overdue|by apply late_inert, inert_silent]|]. intros _.
  apply ending_step; [by apply late_inert, inert_silent|]. intros _.
  apply (ending_bind _ _ (λ c closed, closed = true → received_server_state (runtime c) = true)).
  { intros c1 Hc1 a. unfold drain_network. rewrite bindM_get. apply late_drain, Hc1. }
  intros [] c1 Hc1 Hclosed; [|by apply ending_rest].
  split; [done|]. intros clean [= <-]. right. by split; [apply Hclosed|].
Qed.
End closing.

(** C39: Draining the network hands the datagrams to the runtime in the order they arrived, all
    at the time of the iteration. It succeeds only when the runtime accepted every one,
    and reports the session closed just when the peer then refuses the connection after
    it sent a state. A single datagram the runtime refuses (a duplicate, a replayed or a
    forged packet) ends the session with the error of the runtime. It panics only when a
    print to standard error fails. *)
Theorem network_drained `{Vt100Laws} `{Vte} `{Aead} `{Prost} `{Zlib} `{!Vt100Queries} {io_error : Type}
    key now (c : Client (io_error:=io_error)) :
  runtime_reach key (runtime c) →
  let datagrams := arrived (incoming c) in
  let '(c', r) := drain_network now c in
  match r with
  | Ok closed =>
      let '(results, rt') := calls (receive_calls now datagrams) (runtime c) in
      Forall (λ r, is_ok r = true) results ∧ runtime c' = rt' ∧
      closed = is_refused_by_peer (after_arrived (incoming c)) && received_server_state rt'
  | Err e =>
      (∃ io, error_cause e = IoCause io) ∨
      ∃ n packet refusal, datagrams !! n = Some packet ∧
        let '(results, rt') := calls (receive_calls now (take n datagrams)) (runtime c) in
        Forall (λ r, is_ok r = true) results ∧
        receive_datagram packet now rt' = (runtime c', Err refusal) ∧ e = format_runtime_error refusal
  | Panic => ∃ used, failing (logged c) = used ++ true :: failing (logged c')
  end.
Proof.
  intros Hr. unfold drain_network. rewrite bindM_get. cbv zeta.
  pose proof (drain_received_drained key now (incoming c) c (runtime_reach_wf key _ Hr)) as Hd.
  destruct (drain_received (incoming c) now c) as [c' r]. destruct Hd as [Hd Hp]. destruct r; [done..|].
  exact (prints_panicked _ _ Hp).
Qed.

(** C40: A shutdown ends the client: in an iteration that starts when the deadlines of a shutdown
    have passed, the event loop is left, with an error, an outcome or the panic of a print
    that failed, whatever datagrams, signals, input and failures arrive. The session counts as clean unless the shutdown
    timed out, or because the peer refused the connection. *)
Theorem overdue_shutdown_ends_client `{Vt100Laws} `{Vte} `{Aead} `{Prost} `{Zlib} `{!Vt100Queries} {io_error : Type}
    key language now rest (c : Client (io_error:=io_error)) :
  runtime_reach key (runtime c) → lifecycle (runtime c) = Running → association (runtime c) = Sent →
  shutdown_in_progress (runtime c) = true →
  (∀ t n, shutdown (runtime c) = LocalRequested t n → t + SHUTDOWN_TIMEOUT_MILLISECONDS ≤ now) →
  (∀ t, last_send (runtime c) = Some t → t + MAXIMUM_RETRANSMIT_MILLISECONDS ≤ now) →
  clock c = now :: rest →
  let '(c', r) := iteration language c in
  r ≠ Ok None ∧
  ∀ clean, r = Ok (Some clean) →
    (∃ o, shutdown_outcome (runtime c') = Some o ∧ clean = negb (bool_decide (o = TimedOut))) ∨
    received_server_state (runtime c') = true ∧ clean = true.
Proof.
  intros Hr Hl Ha Hs Ht Hd. apply (iteration_ends key language now). split; [|done..]. by apply runtime_reach_wf.
Qed.
