(* ===== verification/Drawing.v ===== *)
(** * From the network to the screen of the client

    What an iteration of the client draws while it drains the network ([drain_network] of
    Client.v): the emulator that holds the server's screen is fed with exactly what the
    server wrote since the state shown before, whatever predictions and notices are drawn
    over it. *)
From S2P Require Import Prelude Emulators Utf8 Message Crypto State Session Runtime Arrival Downlink.
From S2P Require Import Predict TitleFilter Input Modes Guard Cli Diagnostics Client ClientSafety.
From S2P Require Import Typing SessionEnd.
Local Open Scope Z_scope.

(** The text among the output of the server. *)
Definition text_of (l : list event) : bytes :=
  omap (λ e, match e with EByte b => Some b | _ => None end) l.

Lemma text_of_app a b : text_of (a ++ b) = text_of a ++ text_of b.
Proof. apply omap_app. Qed.

Lemma text_of_bytes b : text_of (EByte <$> b) = b.
Proof. unfold text_of. induction b as [|x b IH]; [done|]. cbn. by f_equal. Qed.

Section drawing.
Context `{Vt100Laws} `{VteLaws} `{Aead} `{ProstLaws} `{ZlibLaws} `{!Vt100Queries} {io_error : Type}.
Notation Client := (Client (io_error:=io_error)).
Notation CM := (CM (io_error:=io_error)).
Implicit Types c : Client.

(** A step that succeeds feeds [text] to the emulator of the server's screen. *)
Definition draws {A} (text : bytes) (m : CM A) : Prop :=
  ∀ c, is_ok (snd (m c)) = true → screen_of (fst (m c)) = screen_process text (screen_of c).

Lemma screen_process_nil self : screen_process [] self = self.
Proof. unfold screen_process. rewrite vte_advance_nil, vt_process_nil. by destruct self. Qed.

Lemma draws_bind {A B} a b (m : CM A) (k : A → CM B) :
  draws a m → (∀ x, draws b (k x)) → draws (a ++ b) (bindM m k).
Proof.
  intros Hm Hk c. specialize (Hm c). unfold bindM. destruct (m c) as [c' [x|e|]]; [|done..].
  intros Hok. rewrite (Hk x c' Hok), screen_process_app. f_equal. by apply Hm.
Qed.

(** A step that leaves the emulator alone. *)
Lemma draws_nothing {A} (m : CM A) : (∀ c, screen_of (fst (m c)) = screen_of c) → draws [] m.
Proof. intros Hm c _. by rewrite Hm, screen_process_nil. Qed.

Lemma draws_still failure (m : guarded unit) : still m → draws [] (on_terminal failure m).
Proof.
  intros Hm. apply draws_nothing. intros c. unfold on_terminal, screen_of. specialize (Hm (terminal c)).
  destruct (m (terminal c)) as [[g t] r]. exact Hm.
Qed.

Lemma draws_reconcile : draws [] reconcile_prediction.
Proof.
  apply (draws_bind [] []).
  - apply draws_nothing. intros c. unfold on_predictor. by destruct (take_reconciliation (predictor c)).
  - intros []; [by apply draws_nothing|apply draws_still, still_write|apply draws_still, still_redraw].
Qed.

Lemma write_server_screen text (s : TerminalGuard * tty (io_error:=io_error)) :
  is_ok (snd (write_server_bytes text s)) = true →
  authoritative (fst (fst (write_server_bytes text s))) = screen_process text (authoritative (fst s)).
Proof.
  set (m := (let! filtered := with_titles (process text) in write_bytes filtered) : guarded (io_error:=io_error) unit).
  assert (write_server_bytes text s = match clear_local_notice s with
    | ((g, t), Ok _) => m (g <| authoritative ::= screen_process text |>, t)
    | (s', Err e) => (s', Err e)
    | (s', Panic) => (s', Panic)
    end) as ->
    by (unfold write_server_bytes, bindM; by destruct (clear_local_notice s) as [[g t] [[]|e|]]).
  pose proof (still_clear (io_error:=io_error) s) as Hc.
  destruct (clear_local_notice s) as [[g t] [[]|e|]]; [|done..]. cbn [fst snd] in Hc. rewrite <- Hc.
  assert (still (io_error:=io_error) m) as Hs
    by (apply still_bind; [apply still_titles|]; intros; apply still_write).
  intros _. exact (Hs (g <| authoritative ::= screen_process text |>, t)).
Qed.

Lemma draws_server text failure : draws text (on_terminal failure (write_server_bytes text)).
Proof.
  intros c. pose proof (write_server_screen text (terminal c)) as Hw. unfold on_terminal, screen_of.
  destruct (write_server_bytes text (terminal c)) as [[g t] [[]|e|]]; [|done..].
  intros _. by apply Hw.
Qed.

Definition action_text (a : SessionAction) : bytes := match a with WriteTerminal b => b | _ => [] end.

Lemma draws_action a : draws (action_text a) (apply_action a).
Proof.
  destruct a; cbn [apply_action action_text]; try by apply draws_nothing.
  - apply draws_nothing. intros c. unfold socket_send. by destruct (default None (head (send_outcomes c))).
  - apply (draws_bind [] text); [apply draws_reconcile|]. intros _. apply draws_server.
  - apply draws_nothing. intros c. rewrite bindM_get. unfold on_stderr.
    by destruct (write_event (logger c) event (logged c)).
Qed.

Lemma draws_actions acts : draws (text_of (shown (Ok acts))) (apply_actions acts).
Proof.
  induction acts as [|a acts IH]; [by apply draws_nothing|].
  change (a :: acts) with ([a] ++ acts) at 1. rewrite shown_app, text_of_app.
  assert (text_of (shown (Ok [a])) = action_text a) as ->.
  { destruct a; try done. cbn. by rewrite app_nil_r, text_of_bytes. }
  apply draws_bind; [apply draws_action|done].
Qed.

(** Draining draws what the server wrote since the state shown before. *)
Lemma drain_draws key log now pending c :
  append_only log → wf_runtime key (runtime c) → following log (protocol (runtime c)) →
  all_faithful log (receive_calls now (arrived pending)) (runtime c) →
  let '(c', r) := drain_received pending now c in
  is_ok r = true →
  ∃ new, log (latest_remote_state (protocol (runtime c'))) =
      log (latest_remote_state (protocol (runtime c))) ++ new ∧
    screen_of c' = screen_process (text_of new) (screen_of c).
Proof.
  intros Hgrow. revert c. induction pending as [|p pending IH]; intros c Hw Hf Hall.
  { intros _. exists []. by rewrite app_nil_r, screen_process_nil. }
  cbn [drain_received]. rewrite bindM_mod. set (c1 := c <| incoming := pending |>).
  assert (∃ new,
    log (latest_remote_state (protocol (runtime c1))) =
      log (latest_remote_state (protocol (runtime c))) ++ new ∧
    screen_of c1 = screen_process (text_of new) (screen_of c)) as Hsame
    by (exists []; by rewrite app_nil_r, screen_process_nil).
  destruct p as [packet| |e|e]; [|by intros _| |done].
  2: { rewrite bindM_get. destruct (received_server_state (runtime c1)); [by intros _|done]. }
  cbn [arrived receive_calls fmap list_fmap all_faithful] in Hall. destruct Hall as [Hp Hall].
  set (bytes := take (Z.to_nat RECEIVE_BUFFER_BYTES) packet) in *.
  pose proof (receive_datagram_safe key bytes now (runtime c) Hw) as [Hw' _].
  pose proof (receive_following log bytes now (runtime c) Hgrow Hf (wf_reach_protocol key _ Hw)) as Hr.
  cbn [call] in Hall. unfold bindM at 1, on_runtime. change (runtime c1) with (runtime c).
  destruct (receive_datagram bytes now (runtime c)) as [rt1 r] eqn:Hrec. cbn [fst] in *.
  destruct Hr as (Hf1 & Hl1 & _).
  { intros Hl u Hu. cbn [arrives] in Hp. by rewrite Hl, Hu in Hp. }
  destruct r as [acts|e|]; cbn [map_err]; [|done..]. set (c2 := c1 <| runtime := rt1 |>).
  pose proof (draws_actions acts c2) as Hd. destruct (inert_actions acts c2) as [Hr2 _].
  unfold bindM. destruct (apply_actions acts c2) as [c3 [[]|e|]]; cbn [fst snd] in *; [|done..].
  specialize (Hd eq_refl). assert (runtime c3 = rt1) as Hr3 by done.
  rewrite <- Hr3 in Hw', Hf1, Hall, Hl1. specialize (IH c3 Hw' Hf1 Hall).
  destruct (drain_received pending now c3) as [c4 r]. intros Hok. destruct (IH Hok) as (new & Hl4 & Hs4).
  exists (shown (Ok acts) ++ new). split; [by rewrite Hl4, Hl1, app_assoc|].
  by rewrite Hs4, Hd, text_of_app, screen_process_app.
Qed.
End drawing.

(** ** An iteration *)

(** The screen shows what the server wrote. Let a client's runtime be that of any session so
    far ([l], with any datagrams, as in [all_faithful]), and more datagrams wait at its
    socket. An iteration that drains them without an error feeds the emulator of the
    server's screen with exactly the text that the server wrote between the newest state
    shown before and the newest state after, in order and once, whatever of the datagrams
    was repeated or out of order, and whatever predictions are erased on the way. *)
Theorem server_output_is_drawn `{Vt100Laws} `{VteLaws} `{Aead} `{ProstLaws} `{ZlibLaws}
    `{!Vt100Queries} {io_error : Type} key start (rt0 : SessionRuntime) log l now
    (c : Client (io_error:=io_error)) :
  runtime_new key start = Ok rt0 → log 0 = [] → append_only log → runtime c = snd (calls l rt0) →
  calls_fit l rt0 → all_faithful log (l ++ receive_calls now (arrived (incoming c))) rt0 →
  let '(c', r) := drain_network now c in
  is_ok r = true →
  ∃ new, log (latest_remote_state (protocol (runtime c'))) =
      log (latest_remote_state (protocol (runtime c))) ++ new ∧
    screen_of c' = screen_process (text_of new) (screen_of c).
Proof.
  intros Hn Hlog0 Hgrow Hc Hfit Hall. apply all_faithful_app in Hall as [Hall Hnew].
  pose proof (session_following key start rt0 log l Hn Hlog0 Hgrow Hfit Hall) as Hs.
  destruct (calls l rt0) as [rs rt]. cbn [snd] in *. subst rt. destruct Hs as (Hw & Hf & _).
  unfold drain_network. rewrite bindM_get. by apply (drain_draws key).
Qed.
