(* ===== verification/Main.v ===== *)
(** * The client process

    The model of [main], [dispatch], [run], [read_session_key] and [connect_socket] of
    [crates/ferrumtty-client/src/main.rs] (on Unix): from the command line to the exit
    status, with the terminal guard dropped at the end of [run] on every path. What the
    operating system answers is the record [os]. *)
From S2P Require Import Prelude Emulators Utf8 TextTerminal Decimal Message Crypto Session Runtime Predict.
From S2P Require Import TitleFilter Input Guard Cli Diagnostics Client ClientSafety.
Local Open Scope Z_scope.

Section process.
Context `{Vt100Laws} `{Vte} `{Aead} `{Prost} `{Zlib} `{!Vt100Queries} `{Base64} {io_error : Type}.
(** The version of the package. *)
Context (package_version : bytes).
Notation Client := (Client (io_error:=io_error)).
Notation ClientError := (ClientError (io_error:=io_error)).

(** ** The operating system *)

(** An address of the server: the failures of [bind], [connect] and [set_nonblocking]. *)
Record address := mkAddress {
  bind_failure : option io_error;
  connect_failure : option io_error;
  nonblocking_failure : option io_error;
}.

(** Arguments and values of the environment are any bytes. *)
Record os := mkOs {
  arguments : list bytes;
  environment : string → option bytes;
  stdin_is_terminal : bool;
  stdout_is_terminal : bool;
  available_color_count : Z;
  to_socket_addrs : bytes → outcome io_error (list address);
  signal_failures : list (option io_error);
  console_at_entry : outcome io_error (Z * Z);
  console_after_entry : outcome io_error (Z * Z);
  (** In store for the event loop. *)
  readings : list MonotonicTime;
  datagrams : list (received (io_error:=io_error));
  failing_sends : list (option io_error);
  input_events : list (input_poll (io_error:=io_error));
  termination_signals : list bool;
  failing_suspensions : list (option io_error);
}.

(** What the process does to the terminal and the standard streams. *)
Record world := mkWorld {
  console : tty (io_error:=io_error);
  stdout : stream;
  stderr : stream;
}.

#[export] Instance eta_world : Eta world := λ w, mkWorld (console w) (stdout w) (stderr w).
#[export] Instance upd_console : Update console := ltac:(solve_update).
#[export] Instance upd_stdout : Update stdout := ltac:(solve_update).
#[export] Instance upd_stderr : Update stderr := ltac:(solve_update).

Inductive AppError :=
| AppCli (e : CliError)
| AppRuntime (e : ClientError)
| AppUncleanShutdown.

Definition W (A : Type) : Type := M world AppError A.

Context (system : os).

Definition unicode (l : bytes) : bool := is_some (utf8_chars l).

(** [env::args().collect()]: an argument that is not Unicode is a panic. *)
Definition env_args : outcome AppError (list bytes) :=
  if forallb unicode (arguments system) then Ok (arguments system) else Panic.

(** [env::var(name).ok()]: a value that is not Unicode counts as not set. *)
Definition env_var (name : string) : option bytes :=
  value ← environment system name; if unicode value then Some value else None.

(** The value of LANG, empty when it is not set. *)
Definition language : bytes := default [] (env_var "LANG"%string).

Definition read_session_key : outcome AppError SessionKey :=
  let? encoded := ok_or (AppCli missing_key_error) (env_var "MOSH_KEY"%string) in
  map_err (λ _, AppCli invalid_key_error) (SessionKey_decode encoded).

(** [connect_socket]: the loop over the addresses; the answer is the connected one. *)
Fixpoint try_addresses (addresses : list address) (last_error : option io_error) : outcome ClientError address :=
  match addresses with
  | [] =>
      Err (mkClientError ConnectFailed
             (match last_error with Some e => IoCause e | None => TextCause NoAddress end))
  | a :: rest =>
      match bind_failure a with
      | Some e => try_addresses rest (Some e)
      | None =>
          match connect_failure a with
          | None =>
              match nonblocking_failure a with
              | Some e => Err (mkClientError SocketFailed (IoCause e))
              | None => Ok a
              end
          | Some e => try_addresses rest (Some e)
          end
      end
  end.

Definition connect_socket (endpoint : bytes) : outcome ClientError address :=
  let? addresses := map_err (λ e, mkClientError ResolveFailed (IoCause e)) (to_socket_addrs system endpoint) in
  try_addresses addresses None.

(** The signals in order; the first that cannot be handled ends the process. *)
Definition install_termination_flag : outcome ClientError unit :=
  match head (omap id (signal_failures system)) with
  | Some e => Err (mkClientError SignalSetupFailed (IoCause e))
  | None => Ok tt
  end.

(** ** [run] *)
Definition on_stdout (m : M stream AppError unit) : W unit := λ w,
  let '(s, result) := m (stdout w) in (w <| stdout := s |>, result).
Definition on_stderr (m : M stream AppError unit) : W unit := λ w,
  let '(s, result) := m (stderr w) in (w <| stderr := s |>, result).

Definition app {A} (m : outcome ClientError A) : W A := liftM (map_err AppRuntime m).

(** The terminal is entered: its guard is what [run] holds from here on. *)
Definition enter_terminal (config : ClientConfig) : W TerminalGuard := λ w,
  let '((_, t), result) :=
    enter_with_title_policy (if title_no_prefix config then PreserveRemote else MoshPrefix)
      (console_at_entry system) env_var
      (bool_decide (is_Some (environment system "MOSH_NO_TERM_INIT"%string))) (tt, console w) in
  (w <| console := t |>, map_err (λ e, AppRuntime (mkClientError TerminalSetupFailed (IoCause e))) result).

(** What the event loop has in store when it starts. *)
Definition client_of (config : ClientConfig) (session : SessionRuntime) (guard : TerminalGuard) (t : tty)
    (standard_error : stream) : Client := {|
  runtime := session;
  terminal := (guard, t);
  predictor := overlay_new (Cli.prediction_display config) (Cli.prediction_overwrite config);
  escape := escape_new (config_escape_byte config);
  logger := logger_new (verbosity config);
  previous_poll := 0;
  incoming := datagrams system;
  send_outcomes := failing_sends system;
  sent := [];
  events := input_events system;
  clock := tail (readings system);
  termination_requested := termination_signals system;
  suspensions := failing_suspensions system;
  logged := standard_error;
  slept := [];
|}.

(** The session in the terminal: the size of the terminal is queued first. *)
Definition session (config : ClientConfig) (fuel : nat) : M Client ClientError (option bool) :=
  let! size := liftM (map_err (λ e, mkClientError TerminalSizeFailed (IoCause e))
                        (terminal_size (console_after_entry system) env_var)) in
  let '(columns, rows) := size in
  on_runtime (queue_resize columns rows) ;!
  event_loop language config fuel.

(** The rest of [run], from the entered terminal to the end of its scope, where the guard is
    dropped, in a panic too; [None] is a session that goes on. *)
Definition session_scope (config : ClientConfig) (key : SessionKey) (guard : TerminalGuard) (fuel : nat)
    : W (option unit) := λ w,
  match runtime_new key (default 0 (head (readings system))) with
  | Ok rt =>
      let '(c, result) := session config fuel (client_of config rt guard (console w) (stderr w)) in
      match result with
      | Ok None => (w <| console := snd (terminal c) |> <| stderr := logged c |>, Ok None)
      | _ =>
          let '((_, t), _) := guard_drop (terminal c) in
          (w <| console := t |> <| stderr := logged c |>,
           match result with
           | Ok (Some false) => Err AppUncleanShutdown
           | Ok _ => Ok (Some tt)
           | Err e => Err (AppRuntime e)
           | Panic => Panic
           end)
      end
  | _ => (w, Panic)
  end.

Definition run (config : ClientConfig) (fuel : nat) : W (option unit) :=
  let! key := liftM read_session_key in
  liftM (map_err AppCli (validate_utf8_locale env_var false)) ;!
  (if negb (stdin_is_terminal system) || negb (stdout_is_terminal system)
   then errM (AppRuntime (mkClientError TerminalRequired NoCause)) else retM tt) ;!
  on_stderr (write_startup (logger_new (verbosity config)) config) ;!
  app (connect_socket (endpoint config)) ;!
  app install_termination_flag ;!
  let! guard := enter_terminal config in
  session_scope config key guard fuel.

(** ** [dispatch] and [main] *)
Definition write_cli_output (target : OutputTarget) (message : bytes) : W unit :=
  match target with
  | Stdout => on_stdout (print_line message)
  | Stderr => on_stderr (print_line message)
  end.

Definition dispatch (fuel : nat) : W (option Z) :=
  let! arguments := liftM env_args in
  let! command := liftM (map_err AppCli (parse_command package_version arguments env_var)) in
  match command with
  | Help program => write_cli_output Stdout (usage package_version program) ;! retM (Some 0)
  | Version => write_cli_output Stdout (version package_version) ;! retM (Some 0)
  | Colors =>
      let platform := platform_color_capability (available_color_count system) in
      let color_count :=
        infer_color_count false (env_var "TERM"%string) (env_var "COLORTERM"%string) platform in
      on_stdout (print_line (decimal color_count)) ;! retM (Some 0)
  | Connect config =>
      let! finished := run config fuel in retM ((λ _, 0) <$> finished)
  end.

(** The exit status, [None] while the session goes on; errors of the operating system and
    of the runtime are shown by [show_io] and [show_runtime]. *)
Definition main (show_io : io_error → bytes) (show_runtime : RuntimeError → bytes) (fuel : nat)
    : W (option Z) := λ w,
  let '(w, result) := dispatch fuel w in
  match result with
  | Ok exit_code => (w, Ok exit_code)
  | Err (AppCli error) =>
      (write_cli_output (target error) (message error) ;! retM (Some (exit_code error))) w
  | Err (AppRuntime error) =>
      (on_stderr (print_line
         (text language ErrorPrefix ++ lit ": " ++ show_error language show_io show_runtime error)) ;!
       retM (Some 1)) w
  | Err AppUncleanShutdown =>
      (on_stderr (print_line (text language TextUncleanShutdown)) ;! retM (Some 1)) w
  | Panic => (w, Panic)
  end.
End process.

(** ** Safety of the process *)
Section process_safety.
Context `{Vt100Laws} `{Vte} `{Aead} `{Prost} `{Zlib} `{!Vt100Queries} `{Base64} {io_error : Type}.
Context (package_version : bytes).
Notation Client := (Client (io_error:=io_error)).
Notation os := (os (io_error:=io_error)).
Notation world := (world (io_error:=io_error)).

(** A reading of the size of the console. *)
Definition console_ok (size : outcome io_error (Z * Z)) : Prop :=
  match size with
  | Ok (columns, rows) => fits 16 columns ∧ fits 16 rows
  | Err _ => True
  | Panic => False
  end.

(** What the operating system answers has its type, and the events in store can be counted. *)
Record os_ok (system : os) : Prop := {
  entry_ok : console_ok (console_at_entry system);
  after_entry_ok : console_ok (console_after_entry system);
  addresses_ok : ∀ e, to_socket_addrs system e ≠ Panic;
  events_ok : Forall event_ok (input_events system);
  events_count : 2 * len (input_events system) + 1 < 2 ^ 64;
}.

Lemma parse_unsigned_fits w l z : parse_unsigned w l = Some z → fits w z.
Proof.
  unfold parse_unsigned, try_into. destruct (bool_decide _); [done|]. destruct (forallb _ _); [|done].
  destruct (fitsb w _) eqn:Hf; [|done]. intros [= <-]. by apply fitsb_spec.
Qed.

Lemma terminal_size_ok size (env_var : string → option bytes) :
  console_ok size → console_ok (terminal_size size env_var).
Proof.
  assert (Hmax : ∀ z, fits 16 z → fits 16 (Z.max z 1)) by (unfold fits; lia).
  unfold terminal_size. destruct size as [[c r]|e|]; cbn; [intros []; auto| |done]. intros _.
  unfold environment_terminal_size. destruct (env_var "COLUMNS"%string) as [columns|]; [|done]. cbn.
  destruct (parse_unsigned 16 columns) as [c|] eqn:Hc; [|done]. cbn.
  destruct (env_var "LINES"%string) as [rows|]; [|done]. cbn.
  destruct (parse_unsigned 16 rows) as [r|] eqn:Hr; [|done]. cbn.
  split; apply Hmax; by eapply parse_unsigned_fits.
Qed.

Lemma session_sound (system : os) key config fuel c :
  os_ok system → good key (logged c) 1 (events c) c →
  let '(c', r) := session system config fuel c in fine key (logged c) c' ∧ panic_printed (logged c) r c'.
Proof.
  intros Hos Hc. unfold session. pose proof (terminal_size_ok _ (env_var system) (after_entry_ok _ Hos)) as Hsize.
  destruct (terminal_size _ _) as [[columns rows]|e|]; [|apply fine_ok; [by eapply (good_mono key _ 1)|done]|done].
  unfold liftM, map_err, bindM at 1.
  pose proof (uses_queue_resize key (logged c) columns rows (proj1 Hsize) (proj2 Hsize) 0 (events c) ltac:(done) c Hc) as Hq.
  unfold bindM. destruct (on_runtime (queue_resize columns rows) c) as [c1 r1]; cbn [fst snd] in Hq.
  destruct Hq as [Hq Hp].
  assert (Hf : fine key (logged c) c1) by (unfold fine; by rewrite (good_pending _ _ _ _ _ Hq)).
  destruct r1 as [[]|e|]; [|by apply fine_ok|split; [done|by eapply panic_cast]].
  pose proof (event_loop_sound key (language system) (logged c) config fuel c1 Hf) as He.
  by destruct (event_loop _ config fuel c1).
Qed.

(** The process started in the world [start]. *)
Section started.
Context (start : world).

(** The guard does not hold raw mode. *)
Definition restored (w : world) : Prop := held_after false (attempts (console w)) = false.

(** A panic is a print on one of the streams that failed. *)
Definition printed_from (w : world) (panicked : Prop) : Prop :=
  ∃ P Q, prints (stdout start) (stdout w) P ∧ prints (stderr start) (stderr w) Q ∧ (panicked → P ∨ Q).

Lemma printed_step w w' (R : Prop) :
  printed_from w False →
  (prints (stdout w) (stdout w') R ∧ stderr w' = stderr w ∨
   prints (stderr w) (stderr w') R ∧ stdout w' = stdout w) → printed_from w' R.
Proof.
  intros (P & Q & Ho & He & _) [[Hs E]|[Hs E]].
  - exists R, Q. rewrite E. split_and!; [by eapply prints_trans|done|by left].
  - exists P, R. rewrite E. split_and!; [done|by eapply prints_trans|by right].
Qed.

Lemma printed_mono w (R R' : Prop) : (R' → R) → printed_from w R → printed_from w R'.
Proof. intros HR (P & Q & Ho & He & H1'). exists P, Q. split_and!; auto. Qed.

(** From one claim of panics to a weaker one. *)
Ltac mono H := eapply printed_mono; [|exact H]; solve [done | intros []; done].

(** A failure with exit status 1 and a message on standard error. *)
Definition cli_failure (e : CliError) : Prop := target e = Stderr ∧ exit_code e = 1.

Definition ready (w : world) : Prop := restored w ∧ printed_from w False.

Definition ends {A} (r : outcome (AppError (io_error:=io_error)) (option A)) (w : world) : Prop :=
  printed_from w (r = Panic) ∧ (r ≠ Ok None → restored w) ∧ (∀ e, r = Err (AppCli e) → cli_failure e).

Lemma session_scope_ends (system : os) config key g fuel w :
  os_ok system → held_after false (attempts (console w)) = session_terminal_active g → printed_from w False →
  triple (λ w', w' = w) (session_scope system config key g fuel) ends.
Proof.
  intros Hos Hraw Hpr w' ->. unfold session_scope.
  destruct (runtime_new_ok key (default 0 (head (readings system)))) as (rt & Hrt & Hq). rewrite Hrt.
  set (c0 := client_of system config rt g (console w) (stderr w)).
  assert (Hc : good key (logged c0) 1 (input_events system) c0).
  { split; cbn; [by eapply reach_start| |by apply events_ok|done|done|apply prints_same; intros []].
    rewrite Hq. pose proof (events_count _ Hos). unfold len at 1. simpl. lia. }
  pose proof (session_sound system key config fuel c0 Hos Hc) as Hs.
  destruct (session _ _ _ _) as [c r]. destruct Hs as [Hf Hp]. change (logged c0) with (stderr w) in *.
  destruct (terminal c) as [g' t'] eqn:Ht.
  pose proof (drop_restores g' t') as Hd. destruct Hf as [_ _ _ _ Hf _]. unfold raw_mode_known in Hf.
  rewrite Ht in Hf. specialize (Hd Hf). destruct (guard_drop (g', t')) as [[g'' t''] rd].
  destruct Hd as (_ & Hd & _).
  destruct r as [[[]|]|e|]; (split_and!; [|by intros ?|done]);
    (eapply printed_step; [exact Hpr|right; split; [|done]]);
    (destruct Hp as (u & Hu & Hp); exists u; split; [exact Hu|]; intros E; try done; by apply Hp).
Qed.

Lemma enter_terminal_ends (system : os) config (w : world) :
  console_ok (console_at_entry system) → restored w →
  let '(w', r) := enter_terminal system config w in
  stdout w' = stdout w ∧ stderr w' = stderr w ∧
  match r with
  | Ok g => held_after false (attempts (console w')) = session_terminal_active g
  | Err e => restored w' ∧ ∃ e', e = AppRuntime e'
  | Panic => False
  end.
Proof.
  intros Hc Hw. unfold enter_terminal.
  set (policy := if title_no_prefix config then PreserveRemote else MoshPrefix).
  set (skip := bool_decide _).
  assert (Hp : console_at_entry system ≠ Panic) by (by intros E; rewrite E in Hc).
  generalize (enter_holds policy _ (env_var system) skip Hp (console w)).
  destruct (enter_with_title_policy _ _ _ _ _) as [[[] t] r]. intros (new & Hn & He).
  unfold restored in *. cbn. split; [done|]. split; [done|]. rewrite Hn, held_after_app, Hw.
  destruct r as [g|e|]; cbn in He |- *; [|split; [apply He|by eexists]|done].
  destruct He as (_ & -> & -> & _). done.
Qed.

Lemma connect_socket_no_panic (system : os) e :
  (∀ e, to_socket_addrs system e ≠ Panic) → connect_socket system e ≠ Panic.
Proof.
  intros Ha. unfold connect_socket. specialize (Ha e). destruct (to_socket_addrs system e) as [l|x|]; [|done..].
  cbn [map_err bind_ok]. clear Ha. generalize (@None io_error). induction l as [|[b c n] l IH]; intros last; [done|].
  cbn. destruct b; [apply IH|]. destruct c; [apply IH|]. by destruct n.
Qed.

Lemma ends_bind {A B} (m : W A) (k : A → W (option B)) :
  triple ready m (λ r w, restored w ∧ printed_from w (r = Panic) ∧ ∀ e, r = Err (AppCli e) → cli_failure e) →
  (∀ a, triple ready (k a) ends) → triple ready (bindM m k) ends.
Proof.
  intros Hm Hk. eapply triple_bind; [exact Hm| | |].
  - intros a w (Hw & Hp & _). apply Hk. split; [done|mono Hp].
  - intros w e (Hw & Hp & He). split_and!; [mono Hp|done|]. intros e' [= ->]. by apply He.
  - intros w (Hw & Hp & _). split_and!; [mono Hp|done|done].
Qed.

Lemma ends_pure {A B} (m : W A) (k : A → W (option B)) :
  (∀ w, ready w → fst (m w) = w ∧ snd (m w) ≠ Panic ∧ ∀ e, snd (m w) = Err (AppCli e) → cli_failure e) →
  (∀ a, triple ready (k a) ends) → triple ready (bindM m k) ends.
Proof.
  intros Hm. apply ends_bind. intros w Hw. destruct (Hm w Hw) as (-> & Hp & He).
  split_and!; [apply Hw| |done]. mono (proj2 Hw).
Qed.

Lemma ends_lift {A B} (m : outcome AppError A) (k : A → W (option B)) :
  m ≠ Panic → (∀ e, m = Err (AppCli e) → cli_failure e) →
  (∀ a, triple ready (k a) ends) → triple ready (bindM (liftM m) k) ends.
Proof. intros Hp He. by apply ends_pure. Qed.

(** Prints on the standard streams. *)
Definition prints_or_panics (m : M stream (AppError (io_error:=io_error)) unit) : Prop :=
  ∀ s, let '(s', r) := m s in prints s s' (r = Panic) ∧ (∀ e, r ≠ Err e).

Lemma to_stdout m w : prints_or_panics m → ready w →
  restored (fst (on_stdout m w)) ∧ printed_from (fst (on_stdout m w)) (snd (on_stdout m w) = Panic) ∧
  (∀ e, snd (on_stdout m w) ≠ Err e).
Proof.
  intros Hm [Hw Hp]. unfold on_stdout. specialize (Hm (stdout w)). destruct (m (stdout w)) as [s r].
  destruct Hm as [Hm He]. split_and!; [done| |done]. eapply printed_step; [exact Hp|]. by left.
Qed.

Lemma to_stderr m w : prints_or_panics m → ready w →
  restored (fst (on_stderr m w)) ∧ printed_from (fst (on_stderr m w)) (snd (on_stderr m w) = Panic) ∧
  (∀ e, snd (on_stderr m w) ≠ Err e).
Proof.
  intros Hm [Hw Hp]. unfold on_stderr. specialize (Hm (stderr w)). destruct (m (stderr w)) as [s r].
  destruct Hm as [Hm He]. split_and!; [done| |done]. eapply printed_step; [exact Hp|]. by right.
Qed.

Lemma run_ends (system : os) config fuel : os_ok system → triple ready (run system config fuel) ends.
Proof.
  intros Hos. apply ends_lift.
  { unfold read_session_key, SessionKey_decode. destruct (env_var system _); [|done]. cbn.
    destruct (base64_decode _); [|done]. cbn. by destruct (negb _). }
  { intros e. unfold read_session_key. destruct (env_var system _) as [v|]; cbn; [|by intros [= <-]].
    destruct (SessionKey_decode v); [done|by intros [= <-]|done]. }
  intros key. unfold validate_utf8_locale. apply ends_lift.
  { destruct (selected_locale _) as [[]|]; [|done]. by destruct (locale_is_utf8 _). }
  { intros e. destruct (selected_locale _) as [[]|]; cbn; [|by intros [= <-]].
    destruct (locale_is_utf8 _); [done|by intros [= <-]]. }
  intros _. apply ends_pure; [intros w Hw; by destruct (_ || _)|]. intros _.
  apply ends_bind.
  { intros w Hw. destruct (to_stderr (write_startup (logger_new (verbosity config)) config) w) as (Hr & Hp & He);
      [intros s; apply print_lines_prints|done|]. split_and!; [done..|]. intros e Ee. by destruct (He (AppCli e)). }
  intros _. apply ends_lift.
  { pose proof (connect_socket_no_panic system (endpoint config) (addresses_ok _ Hos)).
    by destruct (connect_socket _ _). }
  { intros e. by destruct (connect_socket _ _). }
  intros socket. apply ends_lift.
  { unfold install_termination_flag. by destruct (head _). }
  { intros e. unfold install_termination_flag. by destruct (head _). }
  intros _ w [Hw Hpr]. pose proof (enter_terminal_ends system config w (entry_ok _ Hos) Hw) as He.
  unfold bindM. destruct (enter_terminal system config w) as [w1 r]. destruct He as (Eo & Ee & He).
  assert (Hpr1 : printed_from w1 False) by (unfold printed_from; by rewrite Eo, Ee).
  destruct r as [g|e|]; [| |done].
  - by apply (session_scope_ends system config key g fuel w1 Hos He).
  - destruct He as (He & e' & ->). split_and!; [mono Hpr1|done|done].
Qed.

Lemma parse_command_errors args env :
  match parse_command package_version args env with
  | Ok _ => True
  | Err e => cli_failure e
  | Panic => False
  end.
Proof.
  unfold parse_command. destruct (existsb _ _); [done|]. destruct (existsb _ _); [done|].
  destruct (scan_arguments _ _ _ _) as [v l| |]; [|done|by split].
  destruct l as [|host [|port [|]]]; [by split..| |by split].
  pose proof (connect_command_ends package_version (default (lit "ferrumtty") (head args)) host port v env) as Hc.
  by destruct (connect_command _ _ _ _ _ _).
Qed.

(** A panic of [dispatch] is an argument that is not Unicode, or a print that failed. *)
Definition dispatched (system : os) (r : outcome (AppError (io_error:=io_error)) (option Z)) (w : world) : Prop :=
  printed_from w (r = Panic ∧ forallb unicode (arguments system) = true) ∧ (r ≠ Ok None → restored w) ∧
  (∀ e, r = Err (AppCli e) → cli_failure e) ∧ ∀ status, r = Ok (Some status) → status = 0.

Lemma dispatched_print system m w :
  ready w → prints_or_panics m →
  dispatched system (snd ((on_stdout m ;! retM (Some 0)) w)) (fst ((on_stdout m ;! retM (Some 0)) w)).
Proof.
  intros Hw Hm. destruct (to_stdout m w Hm Hw) as (Hr & Hp & He). unfold bindM.
  destruct (on_stdout m w) as [w1 [[]|e|]]; cbn [fst snd] in *; [|by destruct (He e)|].
  - split_and!; [mono Hp|done|done|by intros status [= <-]].
  - split_and!; [mono Hp|done..].
Qed.

Lemma dispatch_ends (system : os) fuel :
  os_ok system → triple ready (dispatch package_version system fuel) (dispatched system).
Proof.
  intros Hos w Hw. unfold dispatch, env_args.
  destruct (forallb unicode (arguments system)) eqn:Hu.
  2: { split_and!; [|intros _; apply Hw|done..]. rewrite Hu. mono (proj2 Hw). }
  match goal with |- context [bindM (liftM (Ok ?a)) ?k w] => change (bindM (liftM (Ok a)) k w) with (k a w) end.
  cbv beta.
  pose proof (parse_command_errors (arguments system) (env_var system)) as Hp.
  destruct (parse_command _ _ _) as [command|e|]; [| |done].
  2: { split_and!; [mono (proj2 Hw)|intros _; apply Hw|by intros e' [= <-]|done]. }
  unfold liftM, map_err, bindM at 1. destruct command as [program| | |config].
  1-3: apply dispatched_print; [done|]; intros s; apply print_line_prints.
  pose proof (run_ends system config fuel Hos w Hw) as (Hp1 & Hr1 & He1).
  unfold bindM. destruct (run system config fuel w) as [w1 [[[]|]|e|]]; cbn [fst snd] in *.
  - split_and!; [mono Hp1|intros _; by apply Hr1|done|by intros status [= <-]].
  - split_and!; [mono Hp1|done..].
  - split_and!; [mono Hp1|intros _; by apply Hr1| |done]. intros e' [= ->]. by apply He1.
  - split_and!; [mono Hp1|intros _; by apply Hr1|done..].
Qed.

(** The last message, and the exit status 1. *)
Definition reported_failure (r : outcome (AppError (io_error:=io_error)) (option Z)) (w : world) : Prop :=
  restored w ∧ printed_from w (r = Panic) ∧
  (r = Panic ∨ r = Ok (Some 1) ∧ ∃ l message, printed (stderr w) = l ++ [message]).

Lemma report_failure message w :
  ready w →
  reported_failure (snd ((on_stderr (print_line message) ;! retM (Some 1)) w))
    (fst ((on_stderr (print_line message) ;! retM (Some 1)) w)).
Proof.
  intros Hw. destruct (to_stderr (print_line message) w) as (Hr & Hp & He); [intros s; apply print_line_prints|done|].
  unfold bindM, on_stderr, print_line in *. destruct (default false (head (failing (stderr w)))).
  - split_and!; [done|mono Hp|by left].
  - split_and!; [done|mono Hp|]. right. split; [done|]. by do 2 eexists.
Qed.
(** How the process ends. *)
Definition process_end (system : os) (r : outcome (AppError (io_error:=io_error)) (option Z)) (w : world) : Prop :=
  match r with
  | Ok (Some status) =>
      disabled (attempts (console w)) ∧
      (status = 0 ∨ status = 1 ∧ ∃ l message, printed (stderr w) = l ++ [message])
  | Ok None => True
  | Err _ => False
  | Panic =>
      disabled (attempts (console w)) ∧
      (forallb unicode (arguments system) = false ∨
       (∃ used, failing (stdout start) = used ++ true :: failing (stdout w)) ∨
       (∃ used, failing (stderr start) = used ++ true :: failing (stderr w)))
  end.

Lemma panic_end system w :
  restored w → printed_from w (forallb unicode (arguments system) = true) → process_end system Panic w.
Proof.
  intros Hw (P & Q & Ho & He & HPQ). split; [by apply not_held_disabled|].
  destruct (forallb _ _); [right|by left].
  destruct (HPQ eq_refl) as [HP|HQ]; [left; by apply (prints_failed _ _ P)|right; by apply (prints_failed _ _ Q)].
Qed.

Lemma failure_end system message w :
  ready w →
  process_end system (snd ((on_stderr (print_line message) ;! retM (Some 1)) w))
    (fst ((on_stderr (print_line message) ;! retM (Some 1)) w)).
Proof.
  intros Hw. destruct (report_failure message w Hw) as (Hr & Hp & [Hn|[Hn Hl]]); rewrite Hn in *.
  - apply panic_end; [done|]. mono Hp.
  - split; [by apply not_held_disabled|]. by right.
Qed.

Lemma main_end (system : os) show_io show_runtime fuel w :
  os_ok system → ready w →
  let '(w', r) := main package_version system show_io show_runtime fuel w in process_end system r w'.
Proof.
  intros Hos Hw. unfold main. destruct (dispatch_ends system fuel Hos w Hw) as (Hp & Hr & He & Hstatus).
  destruct (dispatch _ _ _ w) as [w1 r]; cbn [fst snd] in *.
  assert (Hfail : r ≠ Ok None → r ≠ Panic → ∀ message,
    let '(w', r') := (on_stderr (print_line message) ;! retM (Some 1)) w1 in process_end system r' w').
  { intros Hn Hnp message. pose proof (failure_end system message w1) as Hf.
    destruct ((on_stderr (print_line message) ;! retM (Some 1)) w1). apply Hf.
    split; [by apply Hr|]. mono Hp. }
  destruct r as [[status|]|[e|e|]|]; try by apply Hfail.
  - split; [by apply not_held_disabled, Hr|]. left. by apply Hstatus.
  - done.
  - destruct (He e eq_refl) as [Ht Hx]. rewrite Ht, Hx. by apply Hfail.
  - apply panic_end; [by apply Hr|]. mono Hp.
Qed.
End started.
End process_safety.

(** C8: The client process always gives the terminal back, and panics only where it prints or
    reads its arguments, whatever the command line, the environment, the network, the
    user, the clock and the terminal do: datagrams may be hostile and every operation of
    the operating system may fail at any point. However it ends, in a panic too, raw mode
    is off unless the terminal refused to disable it when the last attempt was made. The
    exit status is 0, or 1 with a message as the last line of standard error, and the only
    panics are those of [env::args], for an argument that is not Unicode, and of the print
    macros, for a write to standard output or standard error that fails. *)
Theorem process_ends_clean `{Vt100Laws} `{Vte} `{Aead} `{Prost} `{Zlib} `{!Vt100Queries} `{Base64}
    {io_error : Type} package_version (system : os (io_error:=io_error))
    show_io show_runtime fuel (w : world (io_error:=io_error)) :
  os_ok system → raw_after false (attempts (console w)) = false →
  let '(w', r) := main package_version system show_io show_runtime fuel w in
  match r with
  | Ok (Some status) =>
      disabled (attempts (console w')) ∧
      (status = 0 ∨ status = 1 ∧ ∃ l message, printed (stderr w') = l ++ [message])
  | Ok None => True
  | Err _ => False
  | Panic =>
      disabled (attempts (console w')) ∧
      (forallb unicode (arguments system) = false ∨
       (∃ used, failing (stdout w) = used ++ true :: failing (stdout w')) ∨
       (∃ used, failing (stderr w) = used ++ true :: failing (stderr w')))
  end.
Proof.
  intros Hos Hw0. assert (Hw : ready w w).
  { split; [|exists False, False; split_and!; [apply prints_same; intros []..|done]].
    unfold restored. destruct (held_after _ _) eqn:Hh; [|done]. apply held_raw in Hh. congruence. }
  exact (main_end package_version w system show_io show_runtime fuel w Hos Hw).
Qed.
