(* ===== verification/Hosting.v ===== *)
(** * The client as a host of the runtime

    Everything the client does to its runtime is a sequence of the calls of a host
    ([Runtime.calls]), so that what is proved of every such sequence holds of the program
    the user runs. [hosted] is a calculus of postconditions for the computations of
    Client.v: it accounts for the calls made, the datagrams taken from and given to the
    socket, and what the emulator of the server's screen was fed with. *)
From S2P Require Import Main.
From S2P Require Import Prelude Emulators Utf8 Message Crypto Session Runtime Ssp Uplink Arrival Downlink.
From S2P Require Import Predict TitleFilter Input Modes Guard Cli Diagnostics Client ClientSafety.
From S2P Require Import Typing SessionEnd Drawing.
Local Open Scope Z_scope.

(** ** The calls of a client *)

(** The client makes these calls, with window sizes of 16 bits. *)
Definition client_call (k : HostCall) : Prop :=
  match k with
  | CallQueueInput _ | CallReceive _ _ | CallPoll _ | CallShutdown _ | CallResume _ => True
  | CallQueueResize columns rows => fits 16 columns ∧ fits 16 rows
  | _ => False
  end.

Definition call_input (k : HostCall) : option TerminalInputEvent :=
  match k with
  | CallQueueInput value => Some (InputBytes value)
  | CallQueueResize columns rows => Some (InputResize columns rows)
  | _ => None
  end.
Definition call_packet (k : HostCall) : option bytes :=
  match k with CallReceive packet _ => Some packet | _ => None end.

Definition inputs_of (cs : list HostCall) : list TerminalInputEvent := omap call_input cs.
Definition packets_of (cs : list HostCall) : list bytes := omap call_packet cs.

(** The datagrams waiting at the socket, as [recv] hands them over. *)
Definition in_store {io_error} (l : list (received (io_error:=io_error))) : list bytes :=
  omap (λ r, match r with
             | Datagram packet => Some (take (Z.to_nat RECEIVE_BUFFER_BYTES) packet)
             | _ => None
             end) l.

(** What the emulator of the server's screen is made to do. *)
Inductive screen_op :=
| ScreenText (text : bytes)
| ScreenSize (columns rows : Z).

Definition op_text (o : screen_op) : bytes := match o with ScreenText text => text | _ => [] end.
Definition op_size (o : screen_op) : option (Z * Z) :=
  match o with ScreenSize columns rows => Some (columns, rows) | _ => None end.
Definition input_window (e : TerminalInputEvent) : option (Z * Z) :=
  match e with InputResize columns rows => Some (columns, rows) | _ => None end.

Definition texts (ops : list screen_op) : bytes := mjoin (op_text <$> ops).

Section screens.
Context `{Vt100} `{Vte}.

Definition run_op (self : AuthoritativeScreen) (o : screen_op) : AuthoritativeScreen :=
  match o with
  | ScreenText text => screen_process text self
  | ScreenSize columns rows => screen_resize columns rows self
  end.

Definition run_screen (ops : list screen_op) (self : AuthoritativeScreen) : AuthoritativeScreen :=
  foldl run_op self ops.
End screens.

(** ** Sequences of calls *)
Section sequences.
Context `{Vt100} `{Vte} `{Aead} `{Prost} `{Zlib}.
Implicit Types rt : SessionRuntime.

Definition results (cs : list HostCall) rt : list (outcome RuntimeError (list SessionAction)) :=
  fst (calls cs rt).
Definition after (cs : list HostCall) rt : SessionRuntime := snd (calls cs rt).
Definition outbox (cs : list HostCall) rt : list bytes := mjoin (datagrams <$> results cs rt).

Lemma results_cons k cs rt : results (k :: cs) rt = snd (call k rt) :: results cs (fst (call k rt)).
Proof. unfold results. cbn. destruct (call k rt) as [rt1 r]. cbn. by destruct (calls cs rt1). Qed.

Lemma after_cons k cs rt : after (k :: cs) rt = after cs (fst (call k rt)).
Proof. unfold after. cbn. destruct (call k rt) as [rt1 r]. cbn. by destruct (calls cs rt1). Qed.

Lemma after_app cs ks rt : after (cs ++ ks) rt = after ks (after cs rt).
Proof. revert rt. induction cs as [|k cs IH]; intros rt; [done|]. by rewrite <- app_comm_cons, !after_cons. Qed.

Lemma results_app cs ks rt : results (cs ++ ks) rt = results cs rt ++ results ks (after cs rt).
Proof.
  revert rt. induction cs as [|k cs IH]; intros rt; [done|].
  by rewrite <- app_comm_cons, !results_cons, after_cons, IH.
Qed.

Lemma outbox_app cs ks rt : outbox (cs ++ ks) rt = outbox cs rt ++ outbox ks (after cs rt).
Proof. unfold outbox. by rewrite results_app, fmap_app, mjoin_app. Qed.

Lemma accepted_app cs ks rt :
  accepted_input (cs ++ ks) rt = accepted_input cs rt ++ accepted_input ks (after cs rt).
Proof.
  revert rt. induction cs as [|k cs IH]; intros rt; [done|].
  by rewrite <- app_comm_cons, after_cons; cbn [accepted_input]; rewrite IH, app_assoc.
Qed.

(** A call queues its input and no more. *)
Lemma client_call_queue k rt :
  client_call k →
  (length (queued_instructions (fst (call k rt))) ≤
     length (inputs_of [k]) + length (queued_instructions rt))%nat.
Proof.
  intros Hk. destruct k as [e|value|c r|k pl|caps| | |now| |now|now|packet now|packet now|now]; try done; cbn.
  - rewrite <- (proj1 (no_actions_result _ _)), queue_input_eq. unfold enqueue. destruct (refusal rt); [simpl; lia|].
    destruct (_ <? _); simpl; [lia|]. pose proof (queue_push_length (input_instruction value) (queued_instructions rt)). lia.
  - rewrite <- (proj1 (no_actions_result _ _)), queue_resize_eq. destruct (refusal rt); [simpl; lia|].
    destruct (set_initial_remote_viewport _ _ _); simpl; try lia.
    pose proof (queue_push_length (resize_instruction c r) (queued_instructions rt)). lia.
  - unfold request_shutdown, ensure_running, bindM, getM. destruct (lifecycle rt); [|simpl; lia..].
    cbn. by destruct (bool_decide (shutdown rt = Open)).
  - rewrite <- (proj1 (no_actions_result _ _)). unfold resume, resume_state. rewrite bindM_get. by destruct (bool_decide _).
  - apply (receive_datagram_queue _ packet now rt), le_n.
  - apply (poll_queue _ now rt), le_n.
Qed.

(** A queue with room for all input of the calls. *)
Lemma client_calls_fit cs rt :
  Forall client_call cs → len (queued_instructions rt) + len (inputs_of cs) < 2 ^ 64 → calls_fit cs rt.
Proof.
  intros Hcs. revert rt. induction Hcs as [|k cs Hk Hcs IH]; intros rt Hroom; [done|].
  pose proof (client_call_queue k rt Hk) as Hq.
  assert (inputs_of (k :: cs) = inputs_of [k] ++ inputs_of cs) as E
    by (unfold inputs_of; cbn; by destruct (call_input k)).
  rewrite E, len_app in Hroom. unfold len in *. split; [|apply IH; lia].
  by split; destruct k; cbn in *; first [done | unfold len; lia].
Qed.

(** Calls that only queue input, or resume. *)
Definition typing_call (k : HostCall) : bool :=
  match k with CallQueueInput _ | CallQueueResize _ _ | CallResume _ => true | _ => false end.

Lemma typing_call_refusal k rt :
  typing_call k = true → refusal rt = None → refusal (fst (call k rt)) = None.
Proof.
  intros Hk Hr. assert (refusal rt = None → lifecycle rt = Running) as Hl
    by (unfold refusal; by destruct (lifecycle rt)).
  destruct k; try done; cbn [call]; rewrite <- (proj1 (no_actions_result _ _)).
  - rewrite queue_input_eq. unfold enqueue. rewrite Hr. by destruct (_ <? _).
  - rewrite queue_resize_eq, Hr. by destruct (set_initial_remote_viewport _ _ _).
  - unfold resume, resume_state. rewrite bindM_get, bool_decide_eq_false_2 by (by rewrite Hl).
    unfold refusal in *. cbn. by rewrite (Hl Hr) in Hr.
Qed.

(** What is typed is accepted, while the calls succeed. *)
Lemma typing_accepted cs rt :
  Forall (λ k, typing_call k = true) cs → refusal rt = None → Forall (λ r, is_ok r = true) (results cs rt) →
  accepted_input cs rt = event_instruction <$> inputs_of cs ∧ refusal (after cs rt) = None.
Proof.
  intros Hcs. revert rt. induction Hcs as [|k cs Hk Hcs IH]; intros rt Hr Hok; [done|].
  rewrite results_cons in Hok. apply Forall_cons in Hok as [Hok Hoks]. rewrite after_cons.
  destruct (IH (fst (call k rt)) (typing_call_refusal k rt Hk Hr) Hoks) as [IH1 IH2]. split; [|done].
  cbn [accepted_input]. rewrite IH1. unfold accepted. rewrite Hr, Hok. by destruct k.
Qed.

(** Other calls take no input. *)
Lemma quiet_accepted cs rt : Forall (λ k, call_input k = None) cs → Forall client_call cs → accepted_input cs rt = [].
Proof.
  intros Hn Hc. revert rt. induction Hc as [|k cs Hk Hc IH]; intros rt; [done|].
  apply Forall_cons in Hn as [Hn Hns]. cbn [accepted_input]. rewrite IH by done. by destruct k.
Qed.
End sequences.

(** ** The account of a computation *)
Section hosting.
Context `{Vt100Laws} `{VteLaws} `{Aead} `{ProstLaws} `{ZlibLaws} `{!Vt100Queries} {io_error : Type}.
Notation Client := (Client (io_error:=io_error)).
Notation CM := (CM (io_error:=io_error)).
Implicit Types c : Client.

(** From [c] to [c'] the client made the calls [cs], which queue at most [n] inputs and two
    for each event taken; it took the datagrams they received from the socket and handed it
    those they returned, all of them when the computation succeeded ([ok]). *)
Record hosts (n : Z) (cs : list HostCall) (ops : list screen_op) c c' (ok : bool) : Prop := {
  ho_calls : Forall client_call cs;
  ho_runtime : runtime c' = after cs (runtime c);
  ho_budget : len (inputs_of cs) + 2 * len (events c') ≤ n + 2 * len (events c);
  ho_events : events c' `suffix_of` events c;
  ho_incoming : in_store (incoming c) = packets_of cs ++ in_store (incoming c');
  ho_sent : ∃ out, sent c' = sent c ++ out ∧ out `prefix_of` outbox cs (runtime c) ∧
    (ok = true → out = outbox cs (runtime c));
  ho_results : ok = true → Forall (λ r, is_ok r = true) (results cs (runtime c));
  ho_screen : ok = true → screen_of c' = run_screen ops (screen_of c);
  ho_texts : texts ops = text_of (mjoin (shown <$> results cs (runtime c)));
  ho_sizes : ok = true → omap op_size ops = omap input_window (inputs_of cs);
}.

Definition hosted {A} (n : Z) c (m : CM A) (Q : list HostCall → A → Client → Prop) : Prop :=
  ∃ cs ops, hosts n cs ops c (fst (m c)) (is_ok (snd (m c))) ∧
    ∀ a, snd (m c) = Ok a → Q cs a (fst (m c)).

Lemma hosts_refl c ok : hosts 0 [] [] c c ok.
Proof. split; try done. by exists []; rewrite app_nil_r. Qed.

Lemma hosts_app n k cs ks ops ops' c c1 c2 ok :
  hosts n cs ops c c1 true → hosts k ks ops' c1 c2 ok → hosts (n + k) (cs ++ ks) (ops ++ ops') c c2 ok.
Proof.
  intros [A1 A2 A3 A4 A5 A6 A7 A8 A9 A10] [B1 B2 B3 B4 B5 B6 B7 B8 B9 B10]. rewrite A2 in *. split.
  - by apply Forall_app.
  - by rewrite after_app.
  - unfold inputs_of in *. rewrite omap_app, len_app. lia.
  - by etransitivity.
  - unfold packets_of in *. by rewrite omap_app, A5, B5, app_assoc.
  - destruct A6 as (out & E1 & _ & Hout). rewrite Hout in E1 by done. destruct B6 as (out' & E2 & Hp & Ho).
    exists (outbox cs (runtime c) ++ out'). rewrite outbox_app. split_and!.
    + by rewrite E2, E1, app_assoc.
    + by apply prefix_app.
    + intros Hok. by rewrite Ho.
  - intros Hok. rewrite results_app. apply Forall_app. auto.
  - intros Hok. unfold run_screen in *. rewrite foldl_app, <- A8 by done. auto.
  - unfold texts in *. by rewrite results_app, !fmap_app, !mjoin_app, text_of_app, A9, B9.
  - intros Hok. unfold inputs_of in *. rewrite !omap_app. by rewrite A10, B10.
Qed.

Lemma hosts_more n k cs ops c c' ok : n ≤ k → hosts n cs ops c c' ok → hosts k cs ops c c' ok.
Proof. intros Hn []. split; try done. lia. Qed.

Lemma hosted_bind {A B} n k c (m : CM A) (f : A → CM B) P Q :
  0 ≤ k → hosted n c m P →
  (∀ cs a c', P cs a c' → events c' `suffix_of` events c → hosted k c' (f a) (λ ks, Q (cs ++ ks))) →
  hosted (n + k) c (bindM m f) Q.
Proof.
  intros Hk (cs & ops & Hc & Hp) Hf. unfold hosted, bindM. destruct (m c) as [c1 [a|e|]]; cbn [fst snd is_ok] in *.
  - destruct (Hf cs a c1 (Hp a eq_refl) (ho_events _ _ _ _ _ _ Hc)) as (ks & ops' & Hs & Hq).
    exists (cs ++ ks), (ops ++ ops'). split; [by eapply hosts_app|done].
  - exists cs, ops. split; [|done]. eapply hosts_more; [|done]. lia.
  - exists cs, ops. split; [|done]. eapply hosts_more; [|done]. lia.
Qed.

Lemma hosted_mono {A} n k c (m : CM A) (P Q : list HostCall → A → Client → Prop) :
  n ≤ k → hosted n c m P → (∀ cs a c', P cs a c' → Q cs a c') → hosted k c m Q.
Proof.
  intros Hn (cs & ops & Hh & Hp) Hpq. exists cs, ops. split; [by eapply hosts_more|auto].
Qed.

Lemma hosted_ret {A} c (a : A) (Q : list HostCall → A → Client → Prop) : Q [] a c → hosted 0 c (retM a) Q.
Proof. intros Hq. exists [], []. split; [apply hosts_refl|]. by intros a' [= <-]. Qed.

Lemma hosted_err {A} c e (Q : list HostCall → A → Client → Prop) : hosted 0 c (errM e) Q.
Proof. exists [], []. split; [apply hosts_refl|done]. Qed.

(** *** Steps beside the runtime *)
Definition beside c c' : Prop :=
  runtime c' = runtime c ∧ events c' = events c ∧ incoming c' = incoming c ∧ sent c' = sent c ∧
  screen_of c' = screen_of c.
Definition idle {A} (m : CM A) : Prop := ∀ c, beside c (fst (m c)) ∧ escape (fst (m c)) = escape c.

Lemma hosts_beside c c' ok : beside c c' → hosts 0 [] [] c c' ok.
Proof.
  intros (Hr & He & Hi & Hs & Hsc). split; rewrite ?He, ?Hi; try done.
  exists []. by rewrite app_nil_r.
Qed.

Lemma hosted_idle {A} c (m : CM A) (Q : list HostCall → A → Client → Prop) :
  idle m → (∀ a c', beside c c' → escape c' = escape c → Q [] a c') → hosted 0 c m Q.
Proof.
  intros Hm Hq. destruct (Hm c) as [Hb He]. exists [], []. split; [by apply hosts_beside|]. intros a _. by apply Hq.
Qed.

Lemma idle_bind {A B} (m : CM A) (f : A → CM B) : idle m → (∀ a, idle (f a)) → idle (bindM m f).
Proof.
  intros Hm Hf c. destruct (Hm c) as [(E1 & E2 & E3 & E4 & E5) E6]. unfold bindM.
  destruct (m c) as [c1 [a|e|]]; cbn [fst] in *; [|by split..].
  destruct (Hf a c1) as [(F1 & F2 & F3 & F4 & F5) F6]. split; [split_and!|]; congruence.
Qed.

Lemma idle_ret {A} (a : A) : idle (retM a).
Proof. by intros c. Qed.

Lemma idle_terminal failure (m : guarded unit) : still m → idle (on_terminal failure m).
Proof.
  intros Hm c. specialize (Hm (terminal c)). unfold on_terminal, beside, screen_of.
  by destruct (m (terminal c)) as [[g t] r].
Qed.

Lemma idle_predictor {A} (f : PredictionOverlay → PredictionOverlay * A) : idle (on_predictor f).
Proof. intros c. unfold on_predictor. by destruct (f (predictor c)). Qed.

Lemma idle_clock : idle monotonic_time.
Proof. intros c. unfold monotonic_time. by destruct (clock c). Qed.

Lemma idle_reconcile : idle reconcile_prediction.
Proof.
  apply idle_bind; [apply idle_predictor|]. intros []; [apply idle_ret|apply idle_terminal..].
  - apply still_write.
  - apply still_redraw.
Qed.

Lemma idle_event logger event : idle (on_stderr (write_event logger event)).
Proof. intros c. unfold on_stderr. by destruct (write_event logger event (logged c)). Qed.

Lemma idle_suspend : idle suspend_client.
Proof.
  apply idle_bind; [apply idle_terminal, still_leave|]. intros _ c. unfold raise_suspension.
  destruct (idle_terminal TerminalSetupFailed resume_after_suspend still_resume (c <| suspensions ::= tail |>)) as [Hb He].
  by destruct (on_terminal _ _ (c <| suspensions ::= tail |>)) as [c' r].
Qed.

(** *** The actions of a call *)
Definition same_store c c' : Prop :=
  runtime c' = runtime c ∧ events c' = events c ∧ incoming c' = incoming c ∧ escape c' = escape c.

Lemma action_datagrams a acts : datagrams (Ok (a :: acts)) = datagrams (Ok [a]) ++ datagrams (Ok acts).
Proof. apply (datagrams_app [a] acts). Qed.

Lemma apply_action_sends a c :
  let '(c', r) := apply_action a c in
  same_store c c' ∧ ∃ out, sent c' = sent c ++ out ∧ out `prefix_of` datagrams (Ok [a]) ∧
    (is_ok r = true → out = datagrams (Ok [a])).
Proof.
  assert (∀ m : CM unit, idle m → datagrams (Ok [a]) = [] → let '(c', r) := m c in
    same_store c c' ∧ ∃ out, sent c' = sent c ++ out ∧ out `prefix_of` datagrams (Ok [a]) ∧
      (is_ok r = true → out = datagrams (Ok [a]))) as Hidle.
  { intros m Hm ->. destruct (Hm c) as [(E1 & E2 & E3 & E4 & E5) E6]. destruct (m c) as [c' r].
    split; [done|]. exists []. by rewrite app_nil_r. }
  destruct a as [packet|text| |value| | | | | | | | |]; try (apply Hidle; [apply idle_ret|done]); cbn [apply_action].
  - unfold socket_send. destruct (default None (head (send_outcomes c))).
    + split; [done|]. exists []. rewrite app_nil_r. split_and!; [done|apply prefix_nil|done].
    + split; [done|]. by exists [packet].
  - cut (∀ c, same_store c (fst (apply_action (io_error:=io_error) (WriteTerminal text) c)) ∧
      sent (fst (apply_action (WriteTerminal text) c)) = sent c).
    { intros Hc. specialize (Hc c). cbn [apply_action] in Hc. destruct (bindM _ _ c) as [c' r].
      destruct Hc as [Hst Hs]. split; [done|]. exists []. by rewrite app_nil_r. }
    clear. intros c. cbn [apply_action]. destruct (idle_reconcile c) as [(E1 & E2 & E3 & E4 & E5) E6].
    unfold bindM. destruct (reconcile_prediction c) as [c1 [[]|e|]]; cbn [fst] in *; [|done..].
    unfold on_terminal. destruct (write_server_bytes text (terminal c1)) as [[g t] r]. done.
  - apply Hidle; [apply idle_predictor|done].
  - apply Hidle; [|done]. apply idle_bind; [by intros c'|]. intros c'. apply idle_event.
Qed.

Lemma apply_actions_sends acts c :
  let '(c', r) := apply_actions acts c in
  same_store c c' ∧ ∃ out, sent c' = sent c ++ out ∧ out `prefix_of` datagrams (Ok acts) ∧
    (is_ok r = true → out = datagrams (Ok acts)).
Proof.
  revert c. induction acts as [|a acts IH]; intros c; cbn [apply_actions].
  { split; [done|]. exists []. by rewrite app_nil_r. }
  rewrite action_datagrams. pose proof (apply_action_sends a c) as Ha. unfold bindM.
  destruct (apply_action a c) as [c1 [[]|e|]].
  2-3: destruct Ha as (Hst & out & Hs & Hp & _); split; [done|]; exists out; (split_and!; [done|by apply prefix_app_r|done]).
  destruct Ha as ((E1 & E2 & E3 & E4) & out & Hs & _ & Ho). rewrite Ho in Hs by done.
  specialize (IH c1). destruct (apply_actions acts c1) as [c2 r].
  destruct IH as ((F1 & F2 & F3 & F4) & out' & Hs' & Hp & Ho'). split; [split_and!; congruence|].
  exists (datagrams (Ok [a]) ++ out'). split_and!.
  - by rewrite Hs', Hs, app_assoc.
  - by apply prefix_app.
  - intros Hok. by rewrite Ho'.
Qed.

(** A call whose actions are applied; [c0] differs from [c] in the socket and the events. *)
Lemma hosts_call k c c0 :
  client_call k → call_input k = None →
  runtime c0 = runtime c → events c0 = events c → sent c0 = sent c → screen_of c0 = screen_of c →
  in_store (incoming c) = packets_of [k] ++ in_store (incoming c0) →
  let '(c', r) := (let! actions := on_runtime (call k) in apply_actions actions) c0 in
  (∃ ops, hosts 0 [k] ops c c' (is_ok r)) ∧ runtime c' = fst (call k (runtime c)) ∧ escape c' = escape c0 ∧
  events c' = events c0 ∧ incoming c' = incoming c0.
Proof.
  intros Hk Hi Er Ee Es Esc Hin. unfold bindM, on_runtime. rewrite Er.
  assert (inputs_of [k] = []) as Hno by (unfold inputs_of; cbn; by rewrite Hi).
  destruct (call k (runtime c)) as [rt r] eqn:Hcall.
  assert (after [k] (runtime c) = rt ∧ results [k] (runtime c) = [r]) as [Ha Hr]
    by (unfold after, results; cbn; by rewrite Hcall).
  assert (outbox [k] (runtime c) = datagrams r) as Ho
    by (unfold outbox; rewrite Hr; cbn; by rewrite app_nil_r).
  assert (text_of (mjoin (shown <$> results [k] (runtime c))) = text_of (shown r)) as Ht
    by (rewrite Hr; cbn; by rewrite app_nil_r).
  destruct r as [acts|e|]; cbn [map_err fst is_ok].
  - set (c1 := c0 <| runtime := rt |>). pose proof (apply_actions_sends acts c1) as Hs.
    pose proof (draws_actions acts c1) as Hd.
    destruct (apply_actions acts c1) as [c2 r]. cbn [fst snd] in Hd.
    destruct Hs as ((F1 & F2 & F3 & F4) & out & Hs & Hp & Hok). split_and!; [|done..].
    exists [ScreenText (text_of (shown (Ok acts)))]. split.
    + by apply Forall_singleton.
    + by rewrite Ha, F1.
    + by rewrite Hno, F2, <- Ee.
    + by rewrite F2, <- Ee.
    + by rewrite F3.
    + exists out. rewrite Ho, Hs, <- Es. by split_and!.
    + intros _. rewrite Hr. by apply Forall_singleton.
    + intros H'. cbn. by rewrite <- Esc, Hd.
    + rewrite Ht. cbn. by rewrite app_nil_r.
    + by rewrite Hno.
  - split_and!; [|done..]. exists []. split; try done; cbn; rewrite ?Ha, ?Hno, ?Ho, ?Ht, ?Ee, ?Es; try done.
    + by apply Forall_singleton.
    + by rewrite Hi.
    + exists []. by rewrite app_nil_r.
  - split_and!; [|done..]. exists []. split; try done; cbn; rewrite ?Ha, ?Hno, ?Ho, ?Ht, ?Ee, ?Es; try done.
    + by apply Forall_singleton.
    + by rewrite Hi.
    + exists []. by rewrite app_nil_r.
Qed.

(** A call without actions; [c0] differs from [c] in the screen. *)
Lemma hosts_plain k (m : M SessionRuntime RuntimeError unit) ops c c0 :
  client_call k → call k = no_actions m → call_packet k = None →
  runtime c0 = runtime c → events c0 = events c → sent c0 = sent c → incoming c0 = incoming c →
  screen_of c0 = run_screen ops (screen_of c) → texts ops = [] →
  omap op_size ops = omap input_window (inputs_of [k]) →
  let '(c', r) := on_runtime m c0 in
  hosts (len (inputs_of [k])) [k] ops c c' (is_ok r) ∧ escape c' = escape c0.
Proof.
  intros Hk Hm Hp Er Ee Es Ei Hsc Hte Hsz. unfold on_runtime. rewrite Er.
  destruct (m (runtime c)) as [rt r] eqn:Hcall.
  assert (∃ r', after [k] (runtime c) = rt ∧ results [k] (runtime c) = [r'] ∧ is_ok r' = is_ok r ∧
    datagrams r' = [] ∧ shown r' = []) as (r' & Ha & Hr & Hok & Hd & Hsh).
  { unfold after, results. cbn. rewrite Hm. unfold no_actions, bindM. rewrite Hcall.
    destruct r as [[]|e|]; by eexists. }
  split; [|done]. split; cbn; rewrite ?Ha, ?Hr, ?Ee, ?Ei, ?Es; try done.
  - by apply Forall_singleton.
  - unfold packets_of. cbn. by rewrite Hp.
  - exists []. unfold outbox. rewrite Hr. cbn. by rewrite Hd, !app_nil_r.
  - intros H'. apply Forall_singleton. rewrite Hok. by destruct r.
  - rewrite Hte. cbn. by rewrite Hsh.
Qed.

(** Without a change of size, the emulator is fed with the text in one piece. *)
Lemma run_texts ops self : omap op_size ops = [] → run_screen ops self = screen_process (texts ops) self.
Proof.
  revert self. induction ops as [|[text|columns rows] ops IH]; intros self Hs; [by rewrite screen_process_nil| |done].
  change (run_screen (ScreenText text :: ops) self) with (run_screen ops (screen_process text self)).
  rewrite IH by done. unfold texts. by rewrite fmap_cons, mjoin_cons, screen_process_app.
Qed.

(** *** What the user types *)
Definition says {A} (n : Z) c (m : CM A) (typed : list TerminalInputEvent) (prefix : EscapeInterpreter)
    (screen : AuthoritativeScreen) (R : A → Prop) : Prop :=
  hosted n c m (λ cs a c', Forall (λ k, typing_call k = true) cs ∧ inputs_of cs = typed ∧
    escape c' = prefix ∧ screen_of c' = screen ∧ events c' = events c ∧ R a).

Lemma says_bind {A B} n k c (m : CM A) (f : A → CM B) typed typed' prefix prefix' screen screen' R R' :
  0 ≤ k → says n c m typed prefix screen R →
  (∀ a c', R a → escape c' = prefix → screen_of c' = screen → says k c' (f a) typed' prefix' screen' R') →
  says (n + k) c (bindM m f) (typed ++ typed') prefix' screen' R'.
Proof.
  intros Hk Hm Hf. eapply hosted_bind; [done|exact Hm|]. intros cs a c' (Ht & Hi & He & Hs & Hev & Ha) _.
  eapply (hosted_mono k); [done|by apply (Hf a c')|]. intros ks b c'' (Ht' & Hi' & He' & Hs' & Hev' & Hb).
  split_and!; try done; [by apply Forall_app|unfold inputs_of in *; by rewrite omap_app, Hi, Hi'|congruence].
Qed.

(** A first step that says nothing. *)
Lemma says_seq {A B} k c (m : CM A) (f : A → CM B) typed prefix prefix' screen screen' R R' :
  0 ≤ k → says 0 c m [] prefix screen R →
  (∀ a c', R a → escape c' = prefix → screen_of c' = screen → says k c' (f a) typed prefix' screen' R') →
  says k c (bindM m f) typed prefix' screen' R'.
Proof. intros Hk. apply (says_bind 0 k c m f [] typed prefix prefix' screen screen' R R' Hk). Qed.

Lemma says_ret {A} n c (a : A) (R : A → Prop) : 0 ≤ n → R a → says n c (retM a) [] (escape c) (screen_of c) R.
Proof.
  intros Hn Ha. eapply (hosted_mono 0); [exact Hn| |intros cs b c' Hq; exact Hq]. by apply hosted_ret.
Qed.

Lemma says_finally {A} n c (m : CM unit) (a : A) typed prefix screen R :
  0 ≤ n → R a → says n c m typed prefix screen (λ _, True) → says n c (m ;! retM a) typed prefix screen R.
Proof.
  intros Hn Ha Hm. rewrite <- (app_nil_r typed), <- (Z.add_0_r n).
  eapply says_bind; [done|exact Hm|]. intros _ c' _ <- <-. by apply says_ret.
Qed.

Lemma says_idle {A} c (m : CM A) : idle m → says 0 c m [] (escape c) (screen_of c) (λ _, True).
Proof. intros Hm. apply hosted_idle; [done|]. intros a c' (_ & Hev & _ & _ & Hs) He. by split_and!. Qed.

Lemma says_escape {A} c (f : EscapeInterpreter → EscapeInterpreter * A) :
  says 0 c (on_escape f) [] (fst (f (escape c))) (screen_of c) (λ a, a = snd (f (escape c))).
Proof.
  unfold says, hosted, on_escape. destruct (f (escape c)) as [p a]. exists [], [].
  split; [by apply hosts_beside|]. by intros a' [= <-].
Qed.

Lemma says_modes c :
  says 0 c remote_modes_now [] (escape c) (screen_of c) (λ modes, modes = remote_modes (screen_of c)).
Proof. exists [], []. split; [apply hosts_refl|]. by intros a [= <-]. Qed.

Lemma says_plain k (m : M SessionRuntime RuntimeError unit) c :
  client_call k → typing_call k = true → call k = no_actions m → call_packet k = None →
  omap input_window (inputs_of [k]) = [] →
  says (len (inputs_of [k])) c (on_runtime m) (inputs_of [k]) (escape c) (screen_of c) (λ _, True).
Proof.
  intros Hk Ht Hm Hp Hw. unfold says, hosted.
  pose proof (hosts_plain k m [] c c Hk Hm Hp eq_refl eq_refl eq_refl eq_refl eq_refl eq_refl (eq_sym Hw))
    as Hh; revert Hh.
  assert (screen_of (fst (on_runtime m c)) = screen_of c ∧ events (fst (on_runtime m c)) = events c) as [Hs Hev]
    by (unfold on_runtime; by destruct (m (runtime c))).
  destruct (on_runtime m c) as [c' r]. intros [Hh He].
  exists [k], []. split; [exact Hh|]. intros a _. split_and!; try done. by apply Forall_singleton.
Qed.

Lemma says_queue value c :
  says 1 c (queue_input_bytes value) [InputBytes value] (escape c) (screen_of c) (λ _, True).
Proof. by apply (says_plain (CallQueueInput value)). Qed.

Lemma says_resume now c : says 0 c (on_runtime (resume now)) [] (escape c) (screen_of c) (λ _, True).
Proof. by apply (says_plain (CallResume now)). Qed.

(** The emulator and the runtime learn of a new size together. *)
Lemma says_resize columns rows c :
  fits 16 columns → fits 16 rows →
  says 1 c (on_terminal TerminalWriteFailed (resize_model columns rows) ;! on_runtime (queue_resize columns rows))
    [InputResize columns rows] (escape c) (screen_resize columns rows (screen_of c)) (λ _, True).
Proof.
  intros Hc Hr. unfold says, hosted, bindM, on_terminal, resize_model, self_mod.
  destruct (terminal c) as [g t] eqn:Ht. cbn [fst snd modM map_err].
  match goal with |- context [on_runtime _ ?c0] => set (c1 := c0) end.
  assert (screen_of c1 = screen_resize columns rows (screen_of c)) as Hsc by (unfold screen_of; by rewrite Ht).
  pose proof (hosts_plain (CallQueueResize columns rows) (queue_resize columns rows)
    [ScreenSize columns rows] c c1 (conj Hc Hr) eq_refl eq_refl eq_refl eq_refl eq_refl eq_refl
    Hsc eq_refl eq_refl) as Hh; revert Hh.
  assert (screen_of (fst (on_runtime (queue_resize columns rows) c1)) = screen_of c1 ∧
    events (fst (on_runtime (queue_resize columns rows) c1)) = events c) as [Hs Hev]
    by (unfold on_runtime; by destruct (queue_resize columns rows (runtime c1))).
  destruct (on_runtime (queue_resize columns rows) c1) as [c' r]. intros [Hh He].
  exists [CallQueueResize columns rows], [ScreenSize columns rows]. split; [exact Hh|]. intros a _.
  split_and!; try done; [by apply Forall_singleton|]. by rewrite <- Hsc, <- Hs.
Qed.
Lemma says_flush c :
  says 1 c flush_escape (typed_bytes (snd (flush (escape c)))) (fst (flush (escape c))) (screen_of c) (λ _, True).
Proof.
  eapply says_seq; [done|apply says_escape|]. intros held c' -> <- <-.
  destruct (snd (flush (escape c))); [apply says_queue|by apply says_ret].
Qed.

Lemma idle_frame_id : idle prediction_frame.
Proof. by intros c. Qed.

Lemma idle_context : idle prediction_context_now.
Proof. by intros c. Qed.

Lemma says_barrier value c :
  says 1 c (queue_barrier value) [InputBytes value] (escape c) (screen_of c) (λ _, True).
Proof.
  eapply says_seq; [done|apply says_idle, idle_frame_id|]. intros frame c1 _ <- <-.
  apply (says_bind 1 0 _ _ _ [InputBytes value] [] _ _ _ _ _ _ ltac:(done) (says_queue value c1)).
  intros _ c2 _ <- <-. eapply says_seq; [done|apply says_idle, idle_predictor|]. intros o c3 _ <- <-.
  by apply says_ret.
Qed.

Lemma says_optional value c :
  says 1 c (queue_optional value) (typed_bytes value) (escape c) (screen_of c) (λ _, True).
Proof. destruct value; [apply says_barrier|by apply says_ret]. Qed.

Lemma says_forward k value c :
  says 1 c (forward_key k value) [InputBytes value] (escape c) (screen_of c) (λ _, True).
Proof.
  eapply says_seq; [done|apply says_idle, idle_frame_id|]. intros frame c1 _ <- <-.
  eapply says_seq; [done|apply says_idle, idle_context|]. intros context c2 _ <- <-.
  apply (says_bind 1 0 _ _ _ [InputBytes value] [] _ _ _ _ _ _ ltac:(done) (says_queue value c2)).
  intros _ c3 _ <- <-. eapply says_seq; [done|apply says_idle, idle_predictor|].
  intros [prediction|] c4 _ <- <-; [apply says_idle, idle_terminal, still_write|by apply says_ret].
Qed.

Context (language : bytes).

(** A key, through the command prefix. *)
Lemma says_key k c :
  let '(typed, quit, prefix) := typed_event (screen_of c) (escape c) (EventKey Press k) in
  says 2 c (handle_event language (EventKey Press k)) typed prefix (screen_of c) (λ q, q = quit).
Proof.
  cbn [typed_event handle_event].
  destruct (encode_key_with_mode k (cursor_key (remote_modes (screen_of c)))) as [value|] eqn:Hv.
  2: { eapply says_seq; [done|apply says_modes|]. intros modes c1 -> <- Hs.
       rewrite Hv, <- Hs. by apply says_ret. }
  destruct (input value (escape c)) as [prefix action] eqn:Hi.
  assert (Hrun : ∀ typed quit,
    (∀ c1, escape c1 = prefix → screen_of c1 = screen_of c → says 2 c1
      match action with
      | Hold => retM false
      | Input.Help =>
          on_terminal TerminalWriteFailed (write_local_notice (text language LocalCommandHelp)) ;! retM false
      | Quit => retM true
      | Suspend => suspend_client ;! let! now := monotonic_time in on_runtime (resume now) ;! retM false
      | Forward value => forward_key k value ;! retM false
      end typed prefix (screen_of c) (λ q, q = quit)) →
    says 2 c (handle_event language (EventKey Press k)) typed prefix (screen_of c) (λ q, q = quit)).
  { intros typed quit Hact. eapply says_seq; [done|apply says_modes|]. intros modes c1 -> He Hs. rewrite Hv.
    eapply says_seq; [done|apply says_escape|]. rewrite He, Hi, Hs. intros a c2 -> He2 Hs2. by apply Hact. }
  destruct action as [|forwarded| | |]; apply Hrun; intros c1 <- <-.
  - by apply says_ret.
  - apply says_finally; [done..|]. eapply (hosted_mono 1); [done|apply says_forward|done].
  - apply says_finally; [done..|]. eapply (hosted_mono 0); [done|apply says_idle, idle_terminal, still_notice|done].
  - by apply says_ret.
  - eapply says_seq; [done|apply says_idle, idle_suspend|]. intros _ c2 _ <- <-.
    eapply says_seq; [done|apply says_idle, idle_clock|]. intros now c3 _ <- <-.
    apply says_finally; [done..|]. eapply (hosted_mono 0); [done|apply says_resume|done].
Qed.

(** The events that are no key start by giving up the prefix. *)
Lemma says_flushed c (m : CM bool) typed screen :
  (∀ c1, escape c1 = fst (flush (escape c)) → screen_of c1 = screen_of c →
    says 1 c1 m typed (fst (flush (escape c))) screen (λ q, q = false)) →
  says 2 c (flush_escape ;! m) (typed_bytes (snd (flush (escape c))) ++ typed) (fst (flush (escape c))) screen
    (λ q, q = false).
Proof.
  intros Hm. eapply (says_bind 1 1); [done|apply says_flush|]. intros _ c1 _ He Hs. by apply Hm.
Qed.

Lemma says_moded c typed (m : RemoteTerminalModes → CM unit) :
  (∀ c1, escape c1 = escape c → screen_of c1 = screen_of c →
    says 1 c1 (m (remote_modes (screen_of c))) typed (escape c) (screen_of c) (λ _, True)) →
  says 1 c (let! modes := remote_modes_now in m modes ;! retM false) typed (escape c) (screen_of c) (λ q, q = false).
Proof.
  intros Hm. eapply says_seq; [done|apply says_modes|]. intros modes c1 -> He Hs. apply says_finally; [done..|].
  by apply Hm.
Qed.

Lemma says_event event c :
  event_ok (io_error:=io_error) (Ready event) →
  let '(typed, quit, prefix) := typed_event (screen_of c) (escape c) event in
  says 2 c (handle_event language event) typed prefix (resized event (screen_of c)) (λ q, q = quit).
Proof.
  intros Hok. destruct event as [kind k|contents|mouse| | |columns rows].
  { destruct kind; [exact (says_key k c)|exact (says_key k c)|by apply says_ret]. }
  all: cbn [typed_event handle_event typed_other resized]; rewrite (surjective_pairing (flush (escape c)));
    cbv zeta; apply says_flushed; intros c1 <- <-.
  - apply says_moded. intros c2 <- <-. apply says_barrier.
  - apply says_moded. intros c2 <- <-. apply says_optional.
  - apply says_moded. intros c2 <- <-. apply says_optional.
  - apply says_moded. intros c2 <- <-. apply says_optional.
  - destruct Hok as [Hc Hr]. eapply says_seq; [done|apply says_idle, idle_reconcile|]. intros _ c2 _ <- <-.
    unfold says, hosted. rewrite <- bindM_assoc. by apply says_finally, says_resize.
Qed.
(** *** The event loop *)

(** The events [l], each under the modes of the server's screen when it was read. *)
Inductive heard : EscapeInterpreter → list Event → list TerminalInputEvent → EscapeInterpreter → Prop :=
| heard_nil prefix : heard prefix [] [] prefix
| heard_event screen prefix event typed quit prefix' l rest prefix'' :
    typed_event screen prefix event = (typed, quit, prefix') → heard prefix' l rest prefix'' →
    heard prefix (event :: l) (typed ++ rest) prefix''.

Lemma heard_app prefix l typed prefix' k rest prefix'' :
  heard prefix l typed prefix' → heard prefix' k rest prefix'' → heard prefix (l ++ k) (typed ++ rest) prefix''.
Proof.
  induction 1 as [|screen prefix e typed quit prefix' l rest' prefix1 He _ IH]; [done|]. intros Hk.
  rewrite <- app_assoc. cbn. econstructor; [done|]. by apply IH.
Qed.

(** The session runs, and its shutdown is not over. *)
Definition live (rt : SessionRuntime) : Prop := lifecycle rt = Running ∧ ∀ o, shutdown rt ≠ Complete o.

(** The polls for input took the events [l], at whatever times they came, without an error. *)
Definition polled (polls : list (input_poll (io_error:=io_error))) (l : list Event) : Prop :=
  Forall (λ p, match p with Ready _ | NotReady => True | _ => False end) polls ∧
  omap (λ p, match p with Ready event => Some event | _ => None end) polls = l.

Lemma polled_app polls l polls' l' : polled polls l → polled polls' l' → polled (polls ++ polls') (l ++ l').
Proof. intros [H1' <-] [H2' <-]. split; [by apply Forall_app|by rewrite omap_app]. Qed.

(** What the account says of the events: all that was typed was accepted. *)
Definition typed_along (cs : list HostCall) c c' : Prop :=
  ∃ polls l, events c = polls ++ events c' ∧ polled polls l ∧ heard (escape c) l (inputs_of cs) (escape c') ∧
    accepted_input cs (runtime c) = event_instruction <$> inputs_of cs.

Definition runs_on {A} n c (m : CM A) (R : A → Client → Prop) : Prop :=
  hosted n c m (λ cs a c', typed_along cs c c' ∧ R a c').

Lemma runs_bind' {A B} n k c (m : CM A) (f : A → CM B) (R : A → Client → Prop) (R' : B → Client → Prop) :
  0 ≤ k → runs_on n c m R →
  (∀ a c', R a c' → events c' `suffix_of` events c → runs_on k c' (f a) R') →
  runs_on (n + k) c (bindM m f) R'.
Proof.
  intros Hk (cs & ops & Hc & Hp) Hf. unfold runs_on, hosted, bindM.
  destruct (m c) as [c1 [a|e|]]; cbn [fst snd is_ok] in *.
  2-3: exists cs, ops; split; [eapply hosts_more; [|done]; lia|done].
  destruct (Hp a eq_refl) as [(ps & l & He & Hps & Hh & Ha) HR].
  destruct (Hf a c1 HR (ho_events _ _ _ _ _ _ Hc)) as (ks & ops' & Hs & Hq).
  exists (cs ++ ks), (ops ++ ops'). split; [by eapply hosts_app|]. intros b Hb.
  destruct (Hq b Hb) as [(ps' & l' & He' & Hps' & Hh' & Ha') HR']. split; [|done].
  exists (ps ++ ps'), (l ++ l'). unfold inputs_of in *.
  rewrite omap_app, <- app_assoc, <- He', accepted_app, !fmap_app.
  split_and!; [done|by apply polled_app|by eapply heard_app|]. by rewrite Ha, <- (ho_runtime _ _ _ _ _ _ Hc), Ha'.
Qed.
Lemma runs_seq {A B} k c (m : CM A) (f : A → CM B) (R : A → Client → Prop) (R' : B → Client → Prop) :
  0 ≤ k → runs_on 0 c m R →
  (∀ a c', R a c' → events c' `suffix_of` events c → runs_on k c' (f a) R') → runs_on k c (bindM m f) R'.
Proof. apply (runs_bind' 0 k). Qed.

(** No event is taken, and no input is queued. *)
Lemma typed_along_none cs c c' :
  Forall (λ k, call_input k = None) cs → Forall client_call cs → events c' = events c → escape c' = escape c →
  typed_along cs c c'.
Proof.
  intros Hn Hc He Hp. assert (inputs_of cs = []) as Hi.
  { unfold inputs_of. clear Hc. induction Hn as [|k cs Hk _ IH]; [done|]. cbn. by rewrite Hk. }
  exists [], []. rewrite Hi, He, Hp. split_and!; [done|by split|constructor|by apply quiet_accepted].
Qed.

Lemma runs_idle {A} c (m : CM A) (R : A → Client → Prop) :
  idle m → (∀ a c', beside c c' → R a c') → runs_on 0 c m R.
Proof.
  intros Hm HR. apply hosted_idle; [done|]. intros a c' Hb He. split; [|by apply HR].
  apply typed_along_none; [done|done| |done]. by destruct Hb as (_ & -> & _).
Qed.

Lemma runs_ret' {A} c (a : A) (R : A → Client → Prop) : R a c → runs_on 0 c (retM a) R.
Proof. intros HR. apply hosted_ret. split; [|done]. by apply typed_along_none. Qed.

Lemma runs_err {A} c e (R : A → Client → Prop) : runs_on 0 c (errM e) R.
Proof. apply hosted_err. Qed.

Lemma runs_live_get {A} n c (k : Client → CM A) (R : A → Client → Prop) : runs_on n c (k c) R → runs_on n c (bindM getM k) R.
Proof. done. Qed.

(** A call whose actions are applied, from a state [c0] that differs from [c] in the socket. *)
Lemma runs_call_from k c c0 (R : Client → Prop) :
  client_call k → call_input k = None →
  runtime c0 = runtime c → events c0 = events c → sent c0 = sent c → screen_of c0 = screen_of c →
  escape c0 = escape c → in_store (incoming c) = packets_of [k] ++ in_store (incoming c0) →
  (∀ c', runtime c' = fst (call k (runtime c)) → incoming c' = incoming c0 → R c') →
  let res := (let! actions := on_runtime (call k) in apply_actions actions) c0 in
  ∃ cs ops, hosts 0 cs ops c (fst res) (is_ok (snd res)) ∧
    ∀ a, snd res = Ok a → typed_along cs c (fst res) ∧ R (fst res).
Proof.
  intros Hk Hi Er Ee Es Esc Ep Hin HR. pose proof (hosts_call k c c0 Hk Hi Er Ee Es Esc Hin) as Hc.
  cbv zeta. destruct (bindM _ _ c0) as [c' r]. destruct Hc as ((ops & Hh) & Hr & He & Hev & Hin'). exists [k], ops.
  split; [done|]. intros [] Hok. cbn [fst snd] in *. split; [|by apply HR].
  apply typed_along_none; [by apply Forall_singleton|by apply Forall_singleton|congruence..].
Qed.

Lemma runs_call k c (R : Client → Prop) :
  client_call k → call_input k = None → packets_of [k] = [] →
  (∀ c', runtime c' = fst (call k (runtime c)) → R c') →
  runs_on 0 c (let! actions := on_runtime (call k) in apply_actions actions) (λ _, R).
Proof. intros Hk Hi Hp HR. apply runs_call_from; auto. by rewrite Hp. Qed.

Lemma live_resume now rt : live rt → live (fst (resume now rt)).
Proof.
  intros [Hl Hs]. unfold resume, resume_state. by rewrite bindM_get, bool_decide_eq_false_2 by (by rewrite Hl).
Qed.

Lemma live_shutdown now rt : live rt → live (fst (request_shutdown now rt)).
Proof.
  intros [Hl Hs]. unfold request_shutdown, ensure_running, bindM, getM. rewrite Hl. cbn.
  by destruct (bool_decide _).
Qed.

Lemma live_receive packet now rt : live rt → live (fst (receive_datagram packet now rt)).
Proof.
  revert rt. change (keeps live (receive_datagram packet now)). unfold live.
  apply receive_datagram_keeps_gen; try (done || by apply on_protocol_keeps).
  - intros rt x. by destruct (update_retransmit_timeout_keeps x rt) as (-> & -> & _).
  - intros state rt [Hl Hs]. rewrite note_state_eq. cbn [fst]. destruct (_ =? u64_max); [|done]. cbn.
    split; [done|]. by destruct (shutdown rt).
Qed.

Lemma runs_live_resume now c (R : Client → Prop) :
  (∀ c', runtime c' = fst (resume now (runtime c)) → R c') → runs_on 0 c (on_runtime (resume now)) (λ _, R).
Proof.
  intros HR. unfold runs_on, hosted.
  pose proof (hosts_plain (CallResume now) (resume now) [] c c I eq_refl eq_refl
    eq_refl eq_refl eq_refl eq_refl eq_refl eq_refl eq_refl) as Hh; revert Hh.
  assert (runtime (fst (on_runtime (resume now) c)) = fst (resume now (runtime c)) ∧
    events (fst (on_runtime (resume now) c)) = events c) as [Hr He]
    by (unfold on_runtime; by destruct (resume now (runtime c))).
  destruct (on_runtime (resume now) c) as [c' r]. intros [Hh Hp].
  exists [CallResume now], []. split; [exact Hh|]. intros a _. split; [|by apply HR].
  by apply typed_along_none; [apply Forall_singleton|apply Forall_singleton|..].
Qed.

(** *** The network *)
Lemma runs_drain_received now pending c :
  incoming c = pending → live (runtime c) →
  runs_on 0 c (drain_received pending now) (λ _ c', live (runtime c')).
Proof.
  revert c. induction pending as [|p pending IH]; intros c Hin Hl; [by apply runs_ret'|].
  cbn [drain_received].
  set (c0 := c <| incoming := pending |>).
  assert (∀ (b : bool) (r : outcome _ bool), match p with Datagram _ => false | _ => true end = true →
    r = Ok b ∨ is_ok r = false →
    runs_on 0 c (λ _, (c0, r)) (λ _ c', live (runtime c'))) as Hstop.
  { intros b r Hp Hr. exists [], []. cbn [fst snd]. split.
    - split; try done; [|exists []; by rewrite app_nil_r]. rewrite Hin. by destruct p.
    - intros a ->. split; [by apply typed_along_none|done]. }
  destruct p as [packet| |e|e].
  - set (bytes := take (Z.to_nat RECEIVE_BUFFER_BYTES) packet).
    set (m := (λ _, (let! actions := on_runtime (receive_datagram bytes now) in apply_actions actions) c0) : CM unit).
    assert (runs_on 0 c (bindM m (λ _, drain_received pending now)) (λ _ c', live (runtime c'))) as Hrun.
    { apply (runs_seq 0 c m _ (λ _ c', incoming c' = pending ∧ live (runtime c'))); [done| |intros _ c' []; auto].
      apply (runs_call_from (CallReceive bytes now) c c0 (λ c', incoming c' = pending ∧ live (runtime c'))); try done.
      { by rewrite Hin. }
      intros c' Hr Hi. split; [done|]. rewrite Hr. by apply live_receive. }
    revert Hrun. unfold runs_on, hosted, m. rewrite bindM_mod. fold c0. rewrite <- bindM_assoc. done.
  - apply (Hstop false (Ok false)); auto.
  - unfold runs_on, hosted. rewrite bindM_mod, bindM_get. change (runtime (c <| incoming := pending |>)) with (runtime c).
    destruct (received_server_state (runtime c)); [apply (Hstop true)|apply (Hstop true)]; auto.
  - apply (Hstop true); auto.
Qed.
(** *** The events *)
Lemma says_read event c :
  event_ok (io_error:=io_error) (Ready event) →
  let '(typed, quit, prefix) := typed_event (screen_of c) (escape c) event in
  says 2 c (on_terminal TerminalWriteFailed clear_local_notice ;! handle_event language event) typed prefix
    (resized event (screen_of c)) (λ q, q = quit).
Proof.
  intros Hok. pose proof (λ c', says_event event c' Hok) as He.
  destruct (typed_event (screen_of c) (escape c) event) as [[typed quit] prefix] eqn:Ht.
  eapply says_seq; [done|apply says_idle, idle_terminal, still_clear|]. intros _ c1 _ Hp Hs.
  specialize (He c1). by rewrite Hp, Hs, Ht in He.
Qed.

Lemma runs_read event rest c c0 (R : Client → Prop) :
  events c = Ready event :: rest → event_ok (io_error:=io_error) (Ready event) → c0 = c <| events := rest |> →
  refusal (runtime c) = None → (∀ c', refusal (runtime c') = None → events c' = rest → R c') →
  let res := (on_terminal TerminalWriteFailed clear_local_notice ;! handle_event language event) c0 in
  ∃ cs ops, hosts 0 cs ops c (fst res) (is_ok (snd res)) ∧
    ∀ a, snd res = Ok a → typed_along cs c (fst res) ∧ R (fst res).
Proof.
  intros Hev Hok Hc0 Hopen HR. pose proof (says_read event c0 Hok) as Hr.
  destruct (typed_event (screen_of c0) (escape c0) event) as [[typed quit] prefix] eqn:Ht.
  destruct Hr as (cs & ops & Hh & Hp). cbv zeta. destruct (bindM _ _ c0) as [c' r]. cbn [fst snd] in *.
  assert (runtime c0 = runtime c ∧ events c0 = rest ∧ escape c0 = escape c) as (Er & Ee & Ep) by (by subst c0).
  exists cs, ops. split.
  { destruct Hh as [A1 A2 A3 A4 A5 A6 A7 A8 A9 A10]. rewrite Ee, Er in *.
    split; try done; rewrite ?Hev, ?len_cons; [lia|by apply suffix_cons_r|..]; by subst c0. }
  intros a Ha. destruct (Hp a Ha) as (Hty & Hi & He & _ & Hev' & _).
  assert (Forall (λ r, is_ok r = true) (results cs (runtime c))) as Hres
    by (rewrite <- Er; apply (ho_results _ _ _ _ _ _ Hh); by rewrite Ha).
  destruct (typing_accepted cs (runtime c) Hty Hopen Hres) as [Hacc Hopen'].
  split; [|apply HR; [|congruence]; by rewrite (ho_runtime _ _ _ _ _ _ Hh), Er].
  exists [Ready event], [event]. rewrite Hev, Hi, He, Hev', Ee, <- Ep.
  split_and!; [done|split; [by apply Forall_singleton|done]| |by rewrite <- Hi].
  rewrite <- (app_nil_r typed). econstructor; [exact Ht|constructor].
Qed.

Lemma runs_drain_events pending c :
  events c = pending → Forall event_ok pending → refusal (runtime c) = None →
  runs_on 0 c (drain_events language pending) (λ _ c', refusal (runtime c') = None).
Proof.
  revert c. induction pending as [|p pending IH]; intros c Hev Hok Hopen; [by apply runs_ret'|].
  apply Forall_cons in Hok as [Hp Hok]. cbn [drain_events]. set (c0 := c <| events := pending |>).
  destruct p as [event| |e|e].
  2: { exists [], []. rewrite bindM_mod. cbn [fst snd is_ok retM]. split.
       - split; try done; cbn; rewrite ?Hev, ?len_cons; [rewrite len_nil; lia|by apply suffix_cons_r|exists []; by rewrite app_nil_r].
       - intros a _. split; [|done]. exists [NotReady], [].
         split_and!; [done|split; [by apply Forall_singleton|done]|constructor|done]. }
  2-3: exists [], []; split; [|done]; rewrite bindM_mod; cbn [fst snd is_ok errM];
    (split; try done; cbn; rewrite ?Hev, ?len_cons; [rewrite len_nil; lia|by apply suffix_cons_r|exists []; by rewrite app_nil_r]).
  set (m := (λ _, (on_terminal TerminalWriteFailed clear_local_notice ;! handle_event language event) c0) : CM bool).
  assert (runs_on 0 c (let! quit := m in if quit then retM true else drain_events language pending)
    (λ _ c', refusal (runtime c') = None)) as Hrun.
  { apply (runs_seq 0 c m _ (λ _ c', refusal (runtime c') = None ∧ events c' = pending)); [done| |].
    - apply (runs_read event pending c c0 (λ c', refusal (runtime c') = None ∧ events c' = pending)); auto.
    - intros [] c' [] _; [by apply runs_ret'|]. by apply IH. }
  revert Hrun. unfold runs_on, hosted, m. rewrite bindM_mod. fold c0. by rewrite <- bindM_assoc.
Qed.
(** *** An iteration *)
Definition sound_events c : Prop := Forall event_ok (events c).
Definition going c : Prop := live (runtime c) ∧ sound_events c.

Lemma sound_suffix c c' : events c' `suffix_of` events c → sound_events c → sound_events c'.
Proof. intros [l Hl] Hs. unfold sound_events in *. rewrite Hl in Hs. by apply Forall_app in Hs as [_ ?]. Qed.

Lemma beside_going c c' : beside c c' → going c → going c'.
Proof. intros (Er & Ee & _) [Hl Hs]. unfold going, sound_events. by rewrite Er, Ee. Qed.

Lemma runs_going {A} c (m : CM A) : idle m → going c → runs_on 0 c m (λ _, going).
Proof. intros Hm Hc. apply runs_idle; [done|]. intros a c' Hb. by eapply beside_going. Qed.

(** Steps that keep the session running. *)
Lemma runs_live {A} c (m : CM A) :
  going c → runs_on 0 c m (λ _ c', live (runtime c')) → runs_on 0 c m (λ _, going).
Proof.
  intros [_ Hs] (cs & ops & Hh & Hp). exists cs, ops. split; [done|]. intros a Ha.
  destruct (Hp a Ha) as [Ht Hl]. split; [done|]. split; [done|].
  eapply sound_suffix; [|done]. by eapply ho_events.
Qed.

Lemma runs_shut_down now c : going c → runs_on 0 c (shut_down now) (λ _, going).
Proof.
  intros Hc. apply runs_live; [done|].
  apply (runs_call (CallShutdown now) c (λ c', live (runtime c'))); try done.
  intros c' ->. by apply live_shutdown, Hc.
Qed.

Lemma live_open rt : live rt → shutdown_in_progress rt = false → refusal rt = None.
Proof.
  intros [Hl Hs] Hp. unfold refusal, shutdown_in_progress in *. rewrite Hl.
  destruct (shutdown rt) as [| | |o] eqn:E; try done. by destruct (Hs o).
Qed.

Lemma open_live rt : refusal rt = None → live rt.
Proof.
  unfold refusal, live. destruct (lifecycle rt); try done. destruct (bool_decide _) eqn:E; [|done].
  apply bool_decide_eq_true in E. intros _. split; [done|]. intros o. by rewrite E.
Qed.

Lemma runs_read_input c : going c → runs_on 0 c (read_input language) (λ _, going).
Proof.
  intros Hc. unfold read_input. apply runs_live_get. destruct (shutdown_in_progress (runtime c)) eqn:Hs.
  { by apply runs_ret'. }
  apply (runs_seq 0 c _ _ (λ _, going)); [done| |].
  - apply runs_live; [done|]. unfold drain_terminal. apply runs_live_get. destruct Hc as [Hl He].
    eapply (hosted_mono 0 0); [done|apply (runs_drain_events (events c) c); try done; by apply live_open|].
    intros cs q c' [Ht Ho]. split; [done|]. by apply open_live.
  - intros [] c1 Hc1 _; [|by apply runs_ret'].
    apply (runs_seq 0 c1 _ _ (λ _, going)); [done|by apply runs_going, Hc1; apply idle_clock|].
    intros now c2 Hc2 _. by apply runs_shut_down.
Qed.

(** An iteration that does not leave the loop goes on. *)
Definition goes_on (r : option bool) c : Prop := r = None → going c.

Lemma poll_live now c' rt :
  live rt → runtime c' = fst (call (CallPoll now) rt) → shutdown_outcome (runtime c') = None → live (runtime c').
Proof.
  intros [Hl _] Hr Ho. rewrite Hr in *. cbn [call] in *. split.
  - exact (proj2 (poll_framed (length (queued_instructions rt)) Running now rt (conj (le_n _) Hl))).
  - intros o E. unfold shutdown_outcome in Ho. by rewrite E in Ho.
Qed.

Lemma runs_finish now c : going c → runs_on 0 c (finish_iteration now) goes_on.
Proof.
  intros Hc. unfold runs_on, hosted, finish_iteration. rewrite <- bindM_assoc.
  change (runs_on 0 c (let! _ := (let! actions := on_runtime (poll now) in apply_actions actions) in
    let! c := getM in
    match shutdown_outcome (runtime c) with
    | Some outcome => retM (Some (negb (bool_decide (outcome = TimedOut))))
    | None =>
        let! later := monotonic_time in
        let! c := getM in
        let wait_milliseconds := Z.max 1 (milliseconds_until_next_poll (runtime c) later) in
        modM (λ c, c <| slept ::= λ l, l ++ [Z.min LOOP_INTERVAL wait_milliseconds] |>) ;!
        retM None
    end) goes_on).
  apply (runs_seq 0 c _ _ (λ _ c', shutdown_outcome (runtime c') = None → live (runtime c'))); [done| |].
  { apply (runs_call (CallPoll now) c (λ c', shutdown_outcome (runtime c') = None → live (runtime c'))); try done.
    intros c' Hr Ho. eapply poll_live; [apply Hc|done..]. }
  intros _ c1 Hl Hs. apply runs_live_get. destruct (shutdown_outcome (runtime c1)); [by apply runs_ret'|].
  assert (going c1) as Hc1 by (split; [auto|]; eapply sound_suffix; [done|apply Hc]).
  apply (runs_seq 0 c1 _ _ (λ _, going)); [done|by apply runs_going, Hc1; apply idle_clock|].
  intros later c2 Hc2 _. apply runs_live_get.
  apply (runs_seq 0 c2 _ _ (λ _, going)); [done|apply runs_going, Hc2; by intros c'|].
  intros _ c3 Hc3 _. apply runs_ret'. by intros _.
Qed.

Lemma runs_iteration c : going c → runs_on 0 c (iteration language) goes_on.
Proof.
  intros Hc. apply (runs_seq 0 c _ _ (λ _, going)); [done|by apply runs_going, Hc; apply idle_clock|].
  intros now c1 Hc1 _. apply (runs_seq 0 c1 _ _ (λ _, going)); [done|apply runs_going, Hc1; by intros c'|].
  intros requested c2 Hc2 _. apply (runs_seq 0 c2 _ _ (λ _, going)); [done| |].
  { destruct requested; [by apply runs_shut_down|by apply runs_ret']. }
  intros _ c3 Hc3 _. apply runs_live_get. apply (runs_seq 0 c3 _ _ (λ _, going)); [done| |].
  { destruct (_ <=? _); [|by apply runs_ret']. apply runs_live; [done|].
    apply (runs_live_resume now c3 (λ c', live (runtime c'))). intros c' ->. by apply live_resume, Hc3. }
  intros _ c4 Hc4 _. apply (runs_seq 0 c4 _ _ (λ _, going)); [done|apply runs_going, Hc4; by intros c'|].
  intros _ c5 Hc5 _. apply (runs_seq 0 c5 _ _ (λ _, going)); [done| |].
  { apply runs_live; [done|]. unfold drain_network. apply runs_live_get. by apply runs_drain_received; [|apply Hc5]. }
  intros [] c6 Hc6 _; [by apply runs_ret'|]. apply runs_live_get.
  apply (runs_seq 0 c6 _ _ (λ _, going)); [done|by apply runs_going, Hc6; apply idle_predictor|].
  intros _ c7 Hc7 _. apply (runs_seq 0 c7 _ _ (λ _, going)); [done|by apply runs_read_input|].
  intros _ c8 Hc8 _. by apply runs_finish.
Qed.

Lemma runs_iterations fuel c : going c → runs_on 0 c (iterations language fuel) (λ _ _, True).
Proof.
  revert c. induction fuel as [|fuel IH]; intros c Hc; [by apply runs_ret'|].
  apply (runs_seq 0 c _ _ goes_on); [done|by apply runs_iteration|].
  intros [clean|] c1 Hc1 _; [by apply runs_ret'|]. apply IH. by apply Hc1.
Qed.
(** *** The whole session *)
Lemma hosts_then_beside n cs ops c c1 c2 ok : hosts n cs ops c c1 ok → beside c1 c2 → hosts n cs ops c c2 ok.
Proof.
  intros Hh Hb. destruct ok.
  - pose proof (hosts_app n 0 cs [] ops [] c c1 c2 true Hh (hosts_beside c1 c2 true Hb)) as Ha.
    by rewrite !app_nil_r, Z.add_0_r in Ha.
  - destruct Hb as (Er & Ee & Ei & Es & _), Hh. split; rewrite ?Er, ?Ee, ?Ei, ?Es; done.
Qed.

Lemma hosts_failed n cs ops c c' ok : hosts n cs ops c c' ok → hosts n cs ops c c' false.
Proof. intros [? ? ? ? ? (out & ? & ? & _) ? ? ? ?]. split; try done. by exists out. Qed.

Lemma runs_leave_loop fuel c : going c → runs_on 0 c (leave_loop language fuel) (λ _ _, True).
Proof.
  intros Hc. destruct (runs_iterations fuel c Hc) as (cs & ops & Hh & Hp). unfold runs_on, hosted, leave_loop.
  destruct (iterations language fuel c) as [c1 r]. cbn [fst snd] in *.
  destruct (idle_reconcile c1) as [Hb He]. destruct (reconcile_prediction c1) as [c2 r2]. cbn [fst] in *.
  pose proof (hosts_then_beside _ _ _ _ _ _ _ Hh Hb) as Hh2.
  assert (∀ a, r = Ok a → typed_along cs c c2) as Ht.
  { intros a Ha. destruct (Hp a Ha) as [(ps & l & E1 & E2 & E3 & E4) _]. exists ps, l.
    destruct Hb as (_ & -> & _). by rewrite He. }
  destruct r as [[clean|]|e|]; cbn [is_ok] in *.
  - destruct r2 as [[]|e|]; exists cs, ops.
    + split; [done|]. intros a [= <-]. split; [|done]. by eapply Ht.
    + split; [by eapply hosts_failed|done].
    + split; [by eapply hosts_failed|done].
  - exists cs, ops. split; [done|]. intros a Ha. by split; [apply (Hp a Ha)|].
  - exists cs, ops. destruct r2 as [[]|e2|]; by split.
  - by exists cs, ops.
Qed.

(** A loop starts with a prefix that holds nothing back. *)
Lemma enter_loop_spec config c :
  let '(c', r) := enter_loop config c in
  r = Ok tt ∧ beside c c' ∧ escape c' = escape_new (config_escape_byte config).
Proof. unfold enter_loop. rewrite bindM_mod. unfold bindM, monotonic_time. cbn. by destruct (clock c). Qed.
End hosting.

(** ** The session of a process *)
Section sessions.
Context `{Vt100Laws} `{VteLaws} `{Aead} `{ProstLaws} `{ZlibLaws} `{!Vt100Queries} {io_error : Type}.
Notation Client := (Client (io_error:=io_error)).
Notation os := (os (io_error:=io_error)).
Implicit Types c : Client.

(** What was read and typed in a session that has not failed. *)
Record session_completed (system : os) (config : ClientConfig) (cs : list HostCall) (read : list Event)
    (typed : list TerminalInputEvent) (window : Z * Z) c c' : Prop := {
  co_window : terminal_size (console_after_entry system) (env_var system) = Ok window;
  co_read : ∃ polls, events c = polls ++ events c' ∧ polled polls read;
  co_heard : heard (escape_new (config_escape_byte config)) read typed (escape c');
  co_accepted : accepted_input cs (runtime c) =
    resize_instruction (fst window) (snd window) :: (event_instruction <$> typed);
  co_keeps : all_keep_input cs (runtime c) = true;
  co_sent : sent c' = sent c ++ outbox cs (runtime c);
  co_screen : ∃ ops, screen_of c' = run_screen ops (screen_of c) ∧
    texts ops = text_of (mjoin (shown <$> results cs (runtime c))) ∧
    omap op_size ops = omap input_window typed;
}.

(** The session of any process: its calls, and what became of them. *)
Record session_account (system : os) (config : ClientConfig) (cs : list HostCall) c c' (ok : bool) : Prop := {
  ac_calls : Forall client_call cs;
  ac_fit : calls_fit cs (runtime c);
  ac_runtime : runtime c' = after cs (runtime c);
  ac_incoming : in_store (incoming c) = packets_of cs ++ in_store (incoming c');
  ac_sent : ∃ out, sent c' = sent c ++ out ∧ out `prefix_of` outbox cs (runtime c);
  ac_completed : ok = true → ∃ read typed window, session_completed system config cs read typed window c c';
}.

Lemma client_calls_keep cs rt :
  Forall client_call cs → Forall (λ r, is_ok r = true) (results cs rt) → all_keep_input cs rt = true.
Proof.
  intros Hcs. revert rt. induction Hcs as [|k cs Hk _ IH]; intros rt Hr; [done|].
  rewrite results_cons in Hr. apply Forall_cons in Hr as [Hr Hrs]. cbn [all_keep_input].
  rewrite (IH _ Hrs), andb_true_r. by destruct k.
Qed.

Lemma account_nothing (system : os) config c : session_account system config [] c c false.
Proof. split; try done. by exists []; rewrite app_nil_r. Qed.

Lemma event_loop_account (system : os) config fuel c :
  going c → let '(c', r) := event_loop (language system) config fuel c in
  ∃ cs ops, hosts 0 cs ops c c' (is_ok r) ∧
    (is_ok r = true → ∃ l, (∃ polls, events c = polls ++ events c' ∧ polled polls l) ∧
       heard (escape_new (config_escape_byte config)) l (inputs_of cs) (escape c') ∧
       accepted_input cs (runtime c) = event_instruction <$> inputs_of cs).
Proof.
  intros Hc. unfold event_loop, bindM. pose proof (enter_loop_spec config c) as He.
  destruct (enter_loop config c) as [c1 r1]. destruct He as (-> & Hb & Hp).
  destruct (runs_leave_loop (language system) fuel c1 (beside_going _ _ Hb Hc)) as (cs & ops & Hh & Ht).
  destruct (leave_loop (language system) fuel c1) as [c2 r]. cbn [fst snd] in *. exists cs, ops. split.
  - pose proof (hosts_app 0 0 [] cs [] ops c c1 c2 (is_ok r) (hosts_beside c c1 true Hb) Hh) as Ha. done.
  - destruct r as [a|e|]; [|done..]. intros _. destruct (Ht a eq_refl) as [(ps & l & E1 & E2 & E3 & E4) _]. exists l.
    destruct Hb as (Er & Ee & _). rewrite <- Hp, <- Er. split_and!; [exists ps; by rewrite <- Ee|done..].
Qed.

Lemma session_accounted (system : os) config fuel c :
  os_ok system → events c = input_events system → refusal (runtime c) = None → queued_instructions (runtime c) = [] →
  let '(c', r) := Main.session system config fuel c in ∃ cs, session_account system config cs c c' (is_ok r).
Proof.
  intros Hos Hev Hopen Hq. unfold Main.session, liftM. unfold bindM at 1.
  pose proof (terminal_size_ok _ (env_var system) (after_entry_ok _ Hos)) as Hsize.
  destruct (terminal_size _ _) as [[cols rws]|e|] eqn:Hw; cbn [map_err]; [|by exists []; apply account_nothing|done].
  set (k := CallQueueResize cols rws).
  assert (∀ cs, Forall client_call cs → len (inputs_of cs) ≤ 2 * len (events c) → calls_fit (k :: cs) (runtime c)) as Hfit.
  { intros cs Hcs Hn. apply client_calls_fit; [by constructor|]. rewrite Hq. pose proof (events_count _ Hos).
    change (inputs_of (k :: cs)) with (InputResize cols rws :: inputs_of cs).
    rewrite len_nil, len_cons. rewrite Hev in Hn. lia. }
  assert (call k (runtime c) = no_actions (queue_resize cols rws) (runtime c)) as Hcall by done.
  pose proof (typing_call_refusal k (runtime c) eq_refl Hopen) as Hopen1.
  unfold bindM, on_runtime. unfold no_actions, bindM in Hcall.
  destruct (queue_resize cols rws (runtime c)) as [rt1 r1]. set (c1 := c <| runtime := rt1 |>).
  assert (fst (call k (runtime c)) = rt1) as Hrt by (rewrite Hcall; by destruct r1).
  assert (shown (snd (call k (runtime c))) = [] ∧ datagrams (snd (call k (runtime c))) = []) as [Hsh Hd]
    by (rewrite Hcall; by destruct r1).
  rewrite Hrt in Hopen1.
  assert (r1 ≠ Ok tt → ∃ cs, session_account system config cs c c1 false) as Hbad.
  { intros _. exists [k]. split; try done.
    - by constructor.
    - by rewrite after_cons, Hrt.
    - exists []. rewrite app_nil_r. split; [done|apply prefix_nil]. }
  destruct r1 as [[]|e|]; cbn [map_err]; [|by apply Hbad..]. clear Hbad.
  assert (going c1) as Hgo.
  { split; [by apply open_live|]. unfold sound_events. change (events c1) with (events c). rewrite Hev. apply Hos. }
  pose proof (event_loop_account system config fuel c1 Hgo) as Hloop.
  destruct (event_loop _ config fuel c1) as [c' r]. destruct Hloop as (cs & ops & [A1 A2 A3 A4 A5 A6 A7 A8 A9 A10] & Hok).
  change (events c1) with (events c) in *. change (runtime c1) with rt1 in *.
  change (sent c1) with (sent c) in *. change (incoming c1) with (incoming c) in *.
  assert (outbox (k :: cs) (runtime c) = outbox cs rt1) as Ho
    by (unfold outbox; rewrite results_cons, Hrt, fmap_cons, mjoin_cons, Hd; done).
  exists (k :: cs). split.
  - by constructor.
  - apply Hfit; [done|]. pose proof (len_nonneg (events c')). lia.
  - by rewrite after_cons, Hrt.
  - exact A5.
  - destruct A6 as (out & E1 & E2 & _). exists out. by rewrite Ho.
  - intros Hr. destruct (Hok Hr) as (l & E1 & E2 & E3). exists l, (inputs_of cs), (cols, rws).
    split; try done.
    + cbn [accepted_input fst snd]. rewrite Hrt, E3. unfold accepted. rewrite Hopen, Hcall. done.
    + apply client_calls_keep; [by constructor|]. rewrite results_cons, Hrt, Hcall. constructor; [done|auto].
    + rewrite Ho. destruct A6 as (out & E & _ & Hout). by rewrite <- Hout.
    + exists ops. rewrite results_cons, Hrt, fmap_cons, mjoin_cons, Hsh. auto.
Qed.
End sessions.

(** ** Properties *)

(** C1: What is typed at the keyboard is what the server holds. Run the client's session for any
    number of iterations, over any datagrams, events (each ready in any iteration), clock
    readings, signals and failures. The datagrams handed to the socket are the first packets
    of messages, each an update whose packets open, for a server of the same key, to the
    fragments of its compressed encoding, which it reads as the update within the limits of
    a receiver; whatever the network does to them, every state
    the server can build holds a prefix of the input handed over, and the newest holds all
    of it. While the session has not failed, every packet was handed to the socket, and the
    input handed over, followed by the queue, is the size of the terminal and then the
    encodings of the events read, each once and in order, but for superseded sizes. *)
Theorem session_input_reaches_server `{Vt100Laws} `{VteLaws} `{AeadLaws} `{ProstLaws} `{ZlibLaws}
    `{!Vt100Queries} {io_error : Type} (system : os (io_error:=io_error)) config key start
    (rt : SessionRuntime) guard t errors fuel :
  os_ok system → runtime_new key start = Ok rt →
  let '(c', r) := Main.session system config fuel (client_of system config rt guard t errors) in
  ∃ msgs given,
    sent c' `prefix_of` mjoin msgs.*1 ∧
    Forall (λ m, sealed_as key m.1 (target_state m.2) m.2 ∧
      (transmissible m.2 → carries key m.1 (target_state m.2) m.2)) msgs ∧
    (∀ k content, Ssp.holds add_input msgs.*2 k content →
       content `prefix_of` given ∧ (k = latest_local_state (protocol (runtime c')) → content = given)) ∧
    (is_ok r = true →
       sent c' = mjoin msgs.*1 ∧
       ∃ polls read typed columns rows,
         terminal_size (console_after_entry system) (env_var system) = Ok (columns, rows) ∧
         input_events system = polls ++ events c' ∧ polled polls read ∧
         heard (escape_new (config_escape_byte config)) read typed (escape c') ∧
         Arrival.accounted (resize_instruction columns rows :: (event_instruction <$> typed)) given
           (queued_instructions (runtime c')) true).
Proof.
  intros Hos Hn. destruct (runtime_new_carrying key start rt Hn) as [Hc Ha].
  destruct (runtime_new_ok key start) as (rt' & Hrt & Hq). rewrite Hn in Hrt. injection Hrt as <-.
  assert (refusal rt = None) as Hopen by (unfold runtime_new in Hn; by apply bind_ok_Ok in Hn as (p & _ & [= <-])).
  pose proof (session_accounted system config fuel (client_of system config rt guard t errors) Hos eq_refl Hopen Hq) as Hs.
  destruct (Main.session _ _ _ _) as [c' r]. destruct Hs as (cs & [_ Hfit Hr _ (out & Es & Hp) Hok]).
  cbn [client_of runtime sent app] in *.
  pose proof (calls_carry key cs [] [] rt [] true Hc Hfit Ha) as Hcs. unfold outbox, results, after in *.
  destruct (calls cs rt) as [rs rt1] eqn:Hcalls. cbn [fst snd] in *. subst rt1.
  destruct Hcs as (msgs & given & Hc' & Hd & Ha'). cbn [app] in *. exists msgs, given.
  pose proof (ca_uplink _ _ _ _ Hc') as Hu. split_and!.
  - by rewrite Es, <- Hd.
  - destruct Hu as (spec & log & Hg). apply Hg.
  - intros k content Hk. destruct (uplink_holds key _ _ _ _ _ Hu Hk) as (? & ? & _). done.
  - intros Hr. destruct (Hok Hr) as (read & typed & [cols rws] & [C1 (polls & C2 & C2') C3 C4 C5 C6 _]).
    cbn [client_of runtime sent app] in *. unfold outbox, results in C6. rewrite Hcalls in C6.
    split; [by rewrite C6, <- Hd|].
    exists polls, read, typed, cols, rws. rewrite C4, C5 in Ha'. done.
Qed.

(** C2: The screen shows what the server wrote. Run the client's session as in C1, over any
    datagrams and events, each arriving in any iteration. Its runtime makes calls with the datagrams taken from the socket, in order.
    Let every update that arrives be one of a server whose output only grows. While the
    session has not failed, the emulator of the server's screen was fed with the text that
    the server had written in the newest state taken, once and in order, and resized to the
    window sizes among the events read, whatever was repeated or out of order, and whatever
    predictions and notices were drawn and erased on the way. *)
Theorem session_shows_server_output `{Vt100Laws} `{VteLaws} `{Aead} `{ProstLaws} `{ZlibLaws}
    `{!Vt100Queries} {io_error : Type} (system : os (io_error:=io_error)) config key start
    (rt : SessionRuntime) guard t errors fuel log :
  os_ok system → runtime_new key start = Ok rt → log 0 = [] → append_only log →
  let '(c', r) := Main.session system config fuel (client_of system config rt guard t errors) in
  ∃ cs, Forall client_call cs ∧ calls_fit cs rt ∧ runtime c' = snd (calls cs rt) ∧
    in_store (Main.datagrams system) = packets_of cs ++ in_store (incoming c') ∧
    (all_faithful log cs rt → is_ok r = true →
     ∃ ops polls read typed,
       input_events system = polls ++ events c' ∧ polled polls read ∧
       heard (escape_new (config_escape_byte config)) read typed (escape c') ∧
       texts ops = text_of (log (latest_remote_state (protocol (runtime c')))) ∧
       omap op_size ops = omap input_window typed ∧
       screen_of c' = run_screen ops (authoritative guard)).
Proof.
  intros Hos Hn Hlog0 Hgrow.
  destruct (runtime_new_ok key start) as (rt' & Hrt & Hq). rewrite Hn in Hrt. injection Hrt as <-.
  assert (refusal rt = None) as Hopen by (unfold runtime_new in Hn; by apply bind_ok_Ok in Hn as (p & _ & [= <-])).
  pose proof (session_accounted system config fuel (client_of system config rt guard t errors) Hos eq_refl Hopen Hq) as Hs.
  destruct (Main.session _ _ _ _) as [c' r]. destruct Hs as (cs & [Hcs Hfit Hr Hin _ Hok]).
  exists cs. cbn [client_of runtime incoming events] in *. split_and!; [done..|]. intros Hall Hok'.
  destruct (Hok Hok') as (read & typed & [cols rws] & [_ (polls & C2 & C2') C3 _ _ _ (ops & Hsc & Hte & Hsz)]).
  pose proof (session_following key start rt log cs Hn Hlog0 Hgrow Hfit Hall) as Hf. cbn [client_of runtime] in *.
  unfold after, results in *. destruct (calls cs rt) as [rs rt1] eqn:Hcalls. cbn [fst snd] in *. subst rt1.
  destruct Hf as (_ & _ & Hout). exists ops, polls, read, typed. by rewrite Hout.
Qed.
