(* ===== verification/Lab.v ===== *)
(** * Developer probes

    The model of [crates/ferrumtty-lab]: the startup announcement ([src/main.rs]), the
    generic listing of protobuf fields ([src/protobuf_probe.rs]), the probes of captured
    packets ([src/ocb_probe.rs], [src/channel_probe.rs]) and the smoke test against a
    standard server ([src/connect_smoke.rs]). Standard input is a parameter, and what a
    probe prints is part of its result; its prints are taken to succeed. *)
From S2P Require Import Prelude Emulators Decimal Message Fragment Crypto Session.
Local Open Scope Z_scope.

(** A failure is the message the program prints. *)
Definition probe_error := bytes.

(** [str::split_ascii_whitespace]. *)
Definition is_ascii_whitespace (b : Z) : bool :=
  bool_decide (b = 32) || bool_decide (b = 9) || bool_decide (b = 10) || bool_decide (b = 12) || bool_decide (b = 13).

Fixpoint ascii_words (word : bytes) (l : bytes) : list bytes :=
  match l with
  | [] => if bool_decide (word = []) then [] else [word]
  | b :: l =>
      if is_ascii_whitespace b
      then (if bool_decide (word = []) then [] else [word]) ++ ascii_words [] l
      else ascii_words (word ++ [b]) l
  end.
Definition split_ascii_whitespace (l : bytes) : list bytes := ascii_words [] l.

(** ** The startup announcement *)
Definition CONNECT_PREFIX : bytes := lit "MOSH CONNECT".
Definition SESSION_KEY_LENGTH : Z := 22.

Inductive AnnouncementError := AnnouncementShape | AnnouncementPrefix | AnnouncementPort | AnnouncementSessionKey.

Record SecretText := mkSecretText { secret : bytes }.
Record ConnectAnnouncement := mkConnectAnnouncement { udp_port : Z; announced_key : SecretText }.

Definition base64_alphabet (b : Z) : bool :=
  ((48 <=? b) && (b <=? 57)) || ((65 <=? b) && (b <=? 90)) || ((97 <=? b) && (b <=? 122))
  || (b =? 43) || (b =? 47).

Definition SecretText_parse (value : bytes) : outcome AnnouncementError SecretText :=
  if negb (len value =? SESSION_KEY_LENGTH) || negb (forallb base64_alphabet value)
  then Err AnnouncementSessionKey else Ok (mkSecretText value).

Definition SecretText_fmt (self : SecretText) : bytes := lit "SecretText([REDACTED])".

Definition AnnouncementError_fmt (self : AnnouncementError) : bytes :=
  match self with
  | AnnouncementShape => lit "startup announcement must contain four fields"
  | AnnouncementPrefix => lit "startup announcement has an unexpected prefix"
  | AnnouncementPort => lit "startup announcement has an invalid UDP port"
  | AnnouncementSessionKey => lit "startup announcement has an invalid session key"
  end.

Definition parse_connect_announcement (line : bytes) : outcome AnnouncementError ConnectAnnouncement :=
  match split_ascii_whitespace line with
  | [first; second; port_text; key_text] =>
      if negb (bool_decide ([first; second] = split_ascii_whitespace CONNECT_PREFIX)) then Err AnnouncementPrefix
      else
        let? udp_port := ok_or AnnouncementPort (parse_unsigned 16 port_text) in
        if udp_port =? 0 then Err AnnouncementPort
        else
          let? session_key := SecretText_parse key_text in
          Ok {| udp_port := udp_port; announced_key := session_key |}
  | _ => Err AnnouncementShape
  end.

(** ** Fields of a protobuf message *)
Inductive FieldValue := FieldVarint (v : Z) | FieldBytes (b : bytes).
Record Field := mkField { field_number : Z; field_value : FieldValue }.

Fixpoint probe_varint_from (index value : Z) (l : bytes) : outcome probe_error (Z * Z) :=
  match l with
  | [] => Err (lit "protobuf varint is truncated or too long")
  | byte :: l =>
      let payload := Z.land byte 127 in
      if (index =? 9) && (1 <? payload) then Err (lit "protobuf varint overflows u64")
      else
        let value := Z.lor value (shl 64 payload (index * 7)) in
        if Z.land byte 128 =? 0 then Ok (value, index + 1) else probe_varint_from (index + 1) value l
  end.
Definition probe_varint (l : bytes) : outcome probe_error (Z * Z) := probe_varint_from 0 0 (take 10 l).

(** One round of the loop of [parse_fields]. *)
Definition parse_field (message : bytes) : outcome probe_error (Field * bytes) :=
  let? (key, key_bytes) := probe_varint message in
  let? message := slice_from key_bytes message in
  let number := Z.shiftr key 3 in
  let wire_type := Z.land key 7 in
  if number =? 0 then Err (lit "protobuf field number must be nonzero")
  else if wire_type =? 0 then
    let? (value, consumed) := probe_varint message in
    let? message := slice_from consumed message in
    Ok (mkField number (FieldVarint value), message)
  else if wire_type =? 2 then
    let? (length, consumed) := probe_varint message in
    let? message := slice_from consumed message in
    let? value := ok_or (lit "protobuf byte field is truncated") (get_to length message) in
    Ok (mkField number (FieldBytes value), drop (Z.to_nat length) message)
  else Err (lit "unsupported protobuf wire type " ++ decimal wire_type).

(** Each round takes at least a byte: the fuel is the length of the message. *)
Fixpoint parse_fields_loop (fuel : nat) (message : bytes) : outcome probe_error (list Field) :=
  match message with
  | [] => Ok []
  | _ :: _ =>
      match fuel with
      | O => Panic
      | S fuel =>
          let? (field, message) := parse_field message in
          let? fields := parse_fields_loop fuel message in
          Ok (field :: fields)
      end
  end.
Definition parse_fields (message : bytes) : outcome probe_error (list Field) :=
  parse_fields_loop (length message) message.

Definition is_zlib_header (compression_method flags : Z) : bool :=
  (Z.land compression_method 15 =? 8) && ((compression_method * 256 + flags) mod 31 =? 0).

(** [windows(2).position(..)]. *)
Fixpoint zlib_offset (l : bytes) : option nat :=
  match l with
  | a :: rest =>
      match rest with
      | b :: _ => if is_zlib_header a b then Some O else S <$> zlib_offset rest
      | [] => None
      end
  | [] => None
  end.

(** ** Captured packets *)

(** [str::lines]: a carriage return before the line feed is dropped too. *)
Definition end_line (line : bytes) : bytes :=
  match last line with Some 13 => removelast line | _ => line end.
Fixpoint lines_from (line : bytes) (l : bytes) : list bytes :=
  match l with
  | [] => if bool_decide (line = []) then [] else [line]
  | b :: l => if b =? 10 then end_line line :: lines_from [] l else lines_from (line ++ [b]) l
  end.
Definition lines (l : bytes) : list bytes := lines_from [] l.

Definition decode_nibble (value : Z) : outcome probe_error Z :=
  if (48 <=? value) && (value <=? 57) then Ok (value - 48)
  else if (97 <=? value) && (value <=? 102) then Ok (value - 97 + 10)
  else if (65 <=? value) && (value <=? 70) then Ok (value - 65 + 10)
  else Err (lit "packet contains a non-hex character").

Fixpoint decode_pairs (l : bytes) : outcome probe_error bytes :=
  match l with
  | a :: b :: l =>
      let? high := decode_nibble a in
      let? low := decode_nibble b in
      let? rest := decode_pairs l in
      Ok (Z.lor (shl 8 high 4) low :: rest)
  | _ => Ok []
  end.

Definition decode_hex (value : bytes) : outcome probe_error bytes :=
  if negb (len value mod 2 =? 0) then Err (lit "packet hex must contain complete bytes")
  else decode_pairs value.

(** The two lines a probe reads. *)
Definition probe_lines (input extra : bytes) : outcome probe_error (bytes * bytes) :=
  match lines input with
  | [] => Err (lit "missing session key")
  | [_] => Err (lit "missing packet bytes")
  | [encoded_key; packet_hex] => Ok (encoded_key, packet_hex)
  | _ => Err extra
  end.

(** A probe prints lines and may fail. *)
Definition probe (A : Type) : Type := M (list bytes) probe_error A.
Definition println (line : bytes) : probe unit := modM (λ l, l ++ [line]).

Section probes.
Context `{Aead} `{Base64} `{Prost} `{Zlib}.
(** [ZlibDecoder::read_to_end], with the message of its error. *)
Context (zlib_read_to_end : bytes → outcome bytes bytes).

Definition show_field (field : Field) : bytes :=
  lit "protobuf_field=" ++ decimal (field_number field) ++
  match field_value field with
  | FieldVarint value => lit " wire=varint value=" ++ decimal value
  | FieldBytes value => lit " wire=bytes length=" ++ decimal (len value)
  end.

Fixpoint print_fields (l : list Field) : probe unit :=
  match l with
  | [] => retM tt
  | field :: l => println (show_field field) ;! print_fields l
  end.

Definition inspect_transport_plaintext (plaintext : bytes) : probe unit :=
  let! compressed_offset :=
    liftM (ok_or (lit "authenticated plaintext contains no zlib header") (zlib_offset plaintext)) in
  let! message := liftM (map_err (λ error, lit "failed to decompress authenticated payload: " ++ error)
                           (zlib_read_to_end (drop compressed_offset plaintext))) in
  println (lit "transport_prefix_bytes=" ++ decimal (Z.of_nat compressed_offset)
           ++ lit " protobuf_bytes=" ++ decimal (len message)) ;!
  let! fields := liftM (parse_fields message) in
  print_fields fields.

(** [report_result]: whether a nonce mapping authenticated. *)
Definition report_result (mapping : bytes) (result : option bytes) : probe Z :=
  match result with
  | None => retM 0
  | Some plaintext =>
      println (lit "authenticated nonce_mapping=" ++ mapping ++ lit " plaintext_bytes="
               ++ decimal (len plaintext)) ;! retM 1
  end.

Definition probe_eight_byte_nonce (key packet_nonce sealed_payload : bytes) : probe Z :=
  report_result (lit "packet-prefix-8") (aead_decrypt key packet_nonce sealed_payload).

Definition probe_twelve_byte_nonce (key packet_nonce sealed_payload : bytes) : probe Z :=
  let! first_success :=
    report_result (lit "zero-prefix-12") (aead_decrypt key (replicate 4 0 ++ packet_nonce) sealed_payload) in
  let! second_success :=
    report_result (lit "zero-suffix-12") (aead_decrypt key (packet_nonce ++ replicate 4 0) sealed_payload) in
  retM (first_success + second_success).

Definition probe_fifteen_byte_nonce (key packet_nonce sealed_payload : bytes) : probe Z :=
  report_result (lit "zero-prefix-15") (aead_decrypt key (replicate 7 0 ++ packet_nonce) sealed_payload).

Definition ocb_probe (input : bytes) : probe unit :=
  let! parts := liftM (probe_lines input (lit "unexpected extra OCB probe input")) in
  let '(encoded_key, packet_hex) := parts in
  let! key := liftM (ok_or (lit "session key is not unpadded base64") (base64_decode encoded_key)) in
  if negb (len key =? SESSION_KEY_BYTES) then errM (lit "session key must decode to 16 bytes")
  else
    let! packet := liftM (decode_hex packet_hex) in
    if len packet <? PACKET_PREFIX_BYTES + OCB_TAG_BYTES
    then errM (lit "packet is too short for nonce prefix and authentication tag")
    else
      let packet_nonce := take (Z.to_nat PACKET_PREFIX_BYTES) packet in
      let sealed_payload := drop (Z.to_nat PACKET_PREFIX_BYTES) packet in
      let! a := probe_eight_byte_nonce key packet_nonce sealed_payload in
      let! b := probe_twelve_byte_nonce key packet_nonce sealed_payload in
      let! c := probe_fifteen_byte_nonce key packet_nonce sealed_payload in
      let successes := a + b + c in
      if successes =? 0 then errM (lit "no tested RFC 7253 nonce mapping authenticated")
      else if successes =? 1 then retM tt
      else errM (lit "multiple nonce mappings authenticated unexpectedly").

(** [read_and_open]. *)
Definition read_and_open (receiver_role : PeerRole) (input : bytes) : outcome probe_error AuthenticatedPacket :=
  let? parts := probe_lines input (lit "unexpected extra channel probe input") in
  let '(encoded_key, packet_hex) := parts in
  let? key := map_err (λ _, lit "invalid session key") (SessionKey_decode encoded_key) in
  let? packet := decode_hex packet_hex in
  map_err (λ _, lit "production channel rejected observed packet") (open (SecureChannel_new receiver_role key) packet).

Definition channel_probe (receiver_role : PeerRole) (input : bytes) : probe unit :=
  let! authenticated := liftM (read_and_open receiver_role input) in
  println (lit "production channel authenticated counter=" ++ decimal (counter authenticated)
           ++ lit " plaintext_bytes=" ++ decimal (len (plaintext authenticated))) ;!
  inspect_transport_plaintext (plaintext authenticated) ;!
  let! fragment := liftM (map_err (λ _, lit "production fragment parser rejected observed plaintext")
                            (parse (plaintext authenticated))) in
  if (index (header fragment) =? 0) && is_final (header fragment) then
    let! update := liftM (map_err (λ _, lit "production message decoder rejected observed state")
                            (decode_compressed_update (body fragment))) in
    let! batch := liftM (map_err (λ _, lit "production instruction decoder rejected observed delta")
                           (decode_instructions update)) in
    println (lit "production wire decoded base_state=" ++ decimal (base_state update)
             ++ lit " target_state=" ++ decimal (target_state update)
             ++ lit " acknowledged_state=" ++ decimal (acknowledged_state update)
             ++ lit " discard_before=" ++ decimal (discard_before update)
             ++ lit " instructions=" ++ decimal (len (instructions batch))
             ++ lit " padding_bytes=" ++ decimal (len (padding update)))
  else retM tt.

Definition TRANSPORT_PREFIX_BYTES : Z := 14.

(** [run_fragment_from_stdin]. *)
Definition fragment_probe (receiver_role : PeerRole) (input : bytes) : probe unit :=
  let! authenticated := liftM (read_and_open receiver_role input) in
  let! fragment_body :=
    liftM (ok_or (lit "authenticated fragment is shorter than its prefix")
             (get_from TRANSPORT_PREFIX_BYTES (plaintext authenticated))) in
  println (lit "production channel authenticated counter=" ++ decimal (counter authenticated)
           ++ lit " transport_prefix_bytes=" ++ decimal TRANSPORT_PREFIX_BYTES
           ++ lit " fragment_body_bytes=" ++ decimal (len fragment_body)).
End probes.

(** ** The smoke test *)
Definition SMOKE_RECEIVE_BUFFER_BYTES : Z := 65535.
Definition SYNTHETIC_COLUMNS : Z := 80.
Definition SYNTHETIC_ROWS : Z := 24.
Definition MAXIMUM_SMOKE_EVENTS : nat := 40.

Section smoke.
Context `{Vt100} `{Vte} `{Aead} `{Base64} `{Prost} `{Zlib}.
(** [{error:?}] for the errors of the protocol and of the messages. *)
Context (show_session : SessionError → bytes) (show_message : MessageError → bytes).

(** What a receive answers; errors are the messages of the operating system. *)
Inductive smoke_event :=
| Arrived (packet : bytes)
| TimedOutReceive
| FailedReceive (error : bytes).

(** The session, what the socket and the clock have in store, and what was done. *)
Record Smoke := mkSmoke {
  smoke_protocol : ClientProtocol;
  socket_events : list smoke_event;
  send_failures : list (option bytes);
  rebind_failure : option bytes;
  timestamps : list Z;
  transmitted : list bytes;
  received_events : nat;
  printed : list bytes;
}.

#[export] Instance eta_Smoke : Eta Smoke := λ s,
  mkSmoke (smoke_protocol s) (socket_events s) (send_failures s) (rebind_failure s) (timestamps s)
    (transmitted s) (received_events s) (printed s).
#[export] Instance upd_smoke_protocol : Update smoke_protocol := ltac:(solve_update).
#[export] Instance upd_socket_events : Update socket_events := ltac:(solve_update).
#[export] Instance upd_send_failures : Update send_failures := ltac:(solve_update).
#[export] Instance upd_timestamps : Update timestamps := ltac:(solve_update).
#[export] Instance upd_transmitted : Update transmitted := ltac:(solve_update).
#[export] Instance upd_received_events : Update received_events := ltac:(solve_update).
#[export] Instance upd_printed : Update printed := ltac:(solve_update).

Definition SM (A : Type) : Type := M Smoke probe_error A.

Definition read_announcement (line : bytes) : outcome probe_error (Z * SessionKey) :=
  match split_ascii_whitespace line with
  | [first; second; port_text; key_text] =>
      if negb (bool_decide ([first; second] = [lit "MOSH"; lit "CONNECT"]))
      then Err (lit "invalid startup announcement")
      else
        let? port := ok_or (lit "invalid startup UDP port") (parse_unsigned 16 port_text) in
        if port =? 0 then Err (lit "invalid startup UDP port")
        else
          let? key := map_err (λ _, lit "invalid startup session key") (SessionKey_decode key_text) in
          Ok (port, key)
  | _ => Err (lit "invalid startup announcement")
  end.

Definition initial_instructions : InstructionBatch := mkInstructionBatch
  [mkInstruction None (Some (mkViewportSize SYNTHETIC_COLUMNS SYNTHETIC_ROWS)) None None;
   mkInstruction (Some (mkByteRun (lit "exit" ++ [10]))) None None None].

(** The low 16 bits of the time since the epoch. *)
Definition current_timestamp : SM Z := λ s,
  (s <| timestamps ::= tail |>, Ok (Z.land (default 0 (head (timestamps s))) u16_max)).

Definition smoke_protocol_call {A} (failed : bytes) (m : M ClientProtocol SessionError A) : SM A := λ s,
  let '(p, r) := m (smoke_protocol s) in
  (s <| smoke_protocol := p |>, map_err (λ error, failed ++ lit ": " ++ show_session error) r).

Fixpoint send_packets (packets : list bytes) (purpose : bytes) : SM unit :=
  match packets with
  | [] => retM tt
  | packet :: packets =>
      (λ s, let failure := default None (head (send_failures s)) in
            let s := s <| send_failures ::= tail |> in
            match failure with
            | None => (s <| transmitted ::= λ l, l ++ [packet] |>, Ok tt)
            | Some error => (s, Err (lit "failed to send " ++ purpose ++ lit ": " ++ error))
            end) ;!
      send_packets packets purpose
  end.

(** [socket.recv]: with nothing more in store it times out. *)
Definition smoke_receive : SM smoke_event := λ s,
  (s <| socket_events ::= tail |> <| received_events ::= S |>,
   Ok (default TimedOutReceive (head (socket_events s)))).

Definition rebind_socket : SM unit := λ s,
  (s, match rebind_failure s with Some error => Err error | None => Ok tt end).

(** The bytes of terminal output in a batch. *)
Definition terminal_bytes (batch : InstructionBatch) : Z :=
  sum_list_Z ((λ b, len (run_value b)) <$> omap instr_bytes (instructions batch)).

Definition smoke_timeout : SM unit :=
  let! s := getM in
  if has_pending_update (smoke_protocol s) then
    let! now := current_timestamp in
    let! packets := smoke_protocol_call (lit "failed to retransmit pending state") (retransmit_pending now) in
    send_packets packets (lit "retransmitted state")
  else retM tt.

(** A state of the server; [true] when it carried terminal output. *)
Definition smoke_state (state : ReceivedState) (roamed : bool) : SM bool :=
  let! batch := liftM (map_err (λ error, lit "failed to decode server instructions: " ++ show_message error)
                         (decode_instructions (rs_update state))) in
  if 0 <? terminal_bytes batch then
    modM (λ s, s <| printed ::= λ l, l ++
      [lit "standard server exchanged FerrumTTY state: target_state="
       ++ decimal (target_state (rs_update state)) ++ lit ", instructions=" ++ decimal (len (instructions batch))
       ++ lit ", terminal_bytes=" ++ decimal (terminal_bytes batch) ++ lit ", roamed=" ++ show_bool roamed] |>) ;!
    retM true
  else
    (if roamed then retM tt else rebind_socket) ;!
    let! now := current_timestamp in
    let! packets := smoke_protocol_call (lit "failed to build acknowledgement")
                      (build_update now (mkInstructionBatch [])) in
    send_packets packets (lit "acknowledgement") ;! retM false.

(** [for _ in 0..MAXIMUM_SMOKE_EVENTS]. *)
Fixpoint exchange (events : nat) (roamed : bool) : SM unit :=
  match events with
  | O => errM (lit "standard server did not produce terminal output within the smoke-event bound")
  | S events =>
      let! event := smoke_receive in
      match event with
      | TimedOutReceive => smoke_timeout ;! exchange events roamed
      | FailedReceive error => errM (lit "failed to receive standard-server response: " ++ error)
      | Arrived packet =>
          let! received := smoke_protocol_call (lit "failed to authenticate standard-server response")
                             (ingest (take (Z.to_nat SMOKE_RECEIVE_BUFFER_BYTES) packet)) in
          match received with
          | None => exchange events roamed
          | Some state =>
              let! finished := smoke_state state roamed in
              if finished then retM tt else exchange events true
          end
      end
  end.

Definition exchange_until_terminal_output : SM unit := exchange MAXIMUM_SMOKE_EVENTS false.

(** From the announced key on; [connect_socket] has no state to model. *)
Definition smoke : SM unit :=
  let! now := current_timestamp in
  let! packets := smoke_protocol_call (lit "failed to build initial update") (build_update now initial_instructions) in
  send_packets packets (lit "initial update") ;!
  exchange_until_terminal_output.
End smoke.

(** ** The command line of the lab *)
Inductive lab_command :=
| VerifyConnect
| ProbeOcb
| VerifyPacket (receiver_role : PeerRole)
| VerifyFragment (receiver_role : PeerRole)
| ConnectStandardServer.

(** [run]: the arguments after the program name. *)
Definition lab_parse (arguments : list bytes) : outcome probe_error lab_command :=
  match arguments with
  | [] => Err (lit "missing command")
  | [command] =>
      if bool_decide (command = lit "verify-connect") then Ok VerifyConnect
      else if bool_decide (command = lit "probe-ocb") then Ok ProbeOcb
      else if bool_decide (command = lit "verify-client-packet") then Ok (VerifyPacket Server)
      else if bool_decide (command = lit "verify-server-packet") then Ok (VerifyPacket Client)
      else if bool_decide (command = lit "verify-server-fragment") then Ok (VerifyFragment Client)
      else if bool_decide (command = lit "connect-standard-server") then Ok ConnectStandardServer
      else Err (lit "unknown command")
  | _ => Err (lit "unexpected extra argument")
  end.

(** [verify_connect_from_stdin], on the trimmed input. *)
Definition verify_connect (line : bytes) : probe unit :=
  let! announcement := liftM (map_err AnnouncementError_fmt (parse_connect_announcement line)) in
  println (lit "valid startup announcement: udp_port=" ++ decimal (udp_port announcement)
           ++ lit ", session_key_bytes=" ++ decimal (len (secret (announced_key announcement)))
           ++ lit " (redacted)").

(** ** The fields a probe lists *)
Lemma probe_varint_from_agrees index value l :
  match decode_varint_from index value l with
  | Ok r => probe_varint_from index value l = Ok r
  | Err _ => ∃ e, probe_varint_from index value l = Err e
  | Panic => False
  end.
Proof.
  revert index value. induction l as [|b l IH]; intros; cbn [decode_varint_from probe_varint_from].
  { by eexists. }
  destruct (_ && _); [by eexists|]. destruct (_ =? 0); [done|apply IH].
Qed.

Lemma probe_varint_agrees l :
  match decode_varint l with
  | Ok r => probe_varint l = Ok r
  | Err _ => ∃ e, probe_varint l = Err e
  | Panic => False
  end.
Proof. apply probe_varint_from_agrees. Qed.

Lemma land_7 z : Z.land z 7 = z mod 8.
Proof. change 7 with (Z.ones 3). by rewrite Z.land_ones by lia. Qed.

(** What the extracting pass of the program keeps of a field. *)
Definition field_bytes (field : Field) : option (Z * bytes) :=
  match field_value field with FieldBytes b => Some (field_number field, b) | FieldVarint _ => None end.

(** A field the probe reads, both passes of the program read, up to the same byte. *)
Lemma parse_field_spec l :
  match parse_field l with
  | Ok (field, rest) =>
      len rest < len l ∧ validate_field [] l = Ok rest ∧ delimited_field l = Ok (field_bytes field, rest)
  | Err _ => True
  | Panic => False
  end.
Proof.
  unfold parse_field. pose proof (probe_varint_agrees l) as Hv. pose proof (validate_field_spec [] l) as Hlen.
  rewrite validate_field_eq in *. unfold delimited_field.
  destruct (decode_varint l) as [[key n]|e|] eqn:Hd; [|by destruct Hv as [e' ->]|done].
  rewrite Hv. cbn [bind_ok expected_type find] in *.
  assert (Hslice : ∀ E, slice_from (E:=E) n l = Ok (drop (Z.to_nat n) l)) by (intros E; by eapply slice_after_varint).
  rewrite !Hslice, wire_type_fits. cbn [bind_ok]. rewrite land_7.
  destruct (Z.shiftr key 3 =? 0); [done|].
  set (rest := drop (Z.to_nat n) l) in *. pose proof (probe_varint_agrees rest) as Hv2.
  unfold skip_value in *.
  destruct (Z.eqb_spec (key mod 8) 0) as [->|H0'].
  { destruct (decode_varint rest) as [[v m]|e|] eqn:Hd2; [|by destruct Hv2 as [e' ->]|done].
    rewrite Hv2. cbn [bind_ok] in *.
    assert (Hs2 : ∀ E, slice_from (E:=E) m rest = Ok (drop (Z.to_nat m) rest))
      by (intros E; by eapply slice_after_varint).
    by rewrite !Hs2 in *. }
  destruct (Z.eqb_spec (key mod 8) 2) as [->|H2']; [|done]. cbn [orb Z.eqb Pos.eqb] in *.
  destruct (decode_varint rest) as [[v m]|e|] eqn:Hd2; [|by destruct Hv2 as [e' ->]|done].
  rewrite Hv2. cbn [bind_ok] in *.
  assert (Hs2 : ∀ E, slice_from (E:=E) m rest = Ok (drop (Z.to_nat m) rest))
    by (intros E; by eapply slice_after_varint).
  rewrite !Hs2 in *. cbn [bind_ok] in *.
  rewrite try_into_usize in * by (by eapply decode_varint_range). cbn [bind_ok ok_or] in *.
  unfold get_to, get_from in *. cbn [bind_ok] in *. by destruct (v <=? _).
Qed.

Lemma parse_fields_loop_spec fuel l :
  (length l ≤ fuel)%nat →
  match parse_fields_loop fuel l with
  | Ok fields => ∀ fuel', (length l ≤ fuel')%nat →
      validate_fields_loop fuel' [] l = Ok tt ∧
      length_delimited_fields_loop fuel' l = Ok (omap field_bytes fields)
  | Err _ => True
  | Panic => False
  end.
Proof.
  revert l. induction fuel as [|fuel IH]; intros [|b l] Hf; cbn [parse_fields_loop];
    try (intros [|fuel']; done). { simpl in Hf. lia. }
  pose proof (parse_field_spec (b :: l)) as Hp.
  destruct (parse_field (b :: l)) as [[field rest]|e|]; [|done..]. destruct Hp as (Hlen & Hval & Hdel).
  cbn [bind_ok]. unfold len in Hlen. specialize (IH rest ltac:(simpl in *; lia)).
  destruct (parse_fields_loop fuel rest) as [fields|e|]; [|done..]. cbn [bind_ok].
  intros [|fuel'] Hf'; [simpl in Hf'; lia|]. cbn [validate_fields_loop length_delimited_fields_loop].
  rewrite Hval, Hdel. cbn [bind_ok]. destruct (IH fuel') as [-> ->]; [simpl in *; lia|].
  cbn [bind_ok omap list_omap]. by destruct (field_bytes field).
Qed.

Definition field_wire (field : Field) : Z * wire_value :=
  (field_number field, match field_value field with FieldVarint v => VarintV v | FieldBytes b => BytesV b end).
Definition wf_probe_field (field : Field) : Prop := field_number field ≠ 0 ∧ wf_field (field_wire field).

Lemma probe_encoded_varint v rest :
  fits 64 v → probe_varint (encode_varint v ++ rest) = Ok (v, len (encode_varint v)).
Proof.
  intros Hv. pose proof (probe_varint_agrees (encode_varint v ++ rest)) as Ha.
  by rewrite decode_encode_varint in Ha by done.
Qed.

Lemma parse_encoded_field field rest :
  wf_probe_field field → parse_field (encode_field (field_wire field) ++ rest) = Ok (field, rest).
Proof.
  intros [Hn [Hf Hw]]. destruct (key_parts _ (field_wire field).2 Hf) as (Hk & Hs & Hm).
  unfold parse_field, encode_field. rewrite <- app_assoc, probe_encoded_varint by done. cbn [bind_ok].
  rewrite slice_from_app by done. cbn [bind_ok]. rewrite land_7, Hs, Hm.
  destruct field as [number [v|b]]; cbn [field_wire field_number field_value fst snd] in *;
    rewrite (proj2 (Z.eqb_neq number 0)) by done; cbn [wire_type_of Z.eqb encode_value] in *.
  - rewrite probe_encoded_varint by done. cbn [bind_ok]. by rewrite slice_from_app.
  - rewrite <- app_assoc, probe_encoded_varint by (pose proof (len_nonneg b); unfold fits, wf_value in *; lia).
    cbn [bind_ok]. rewrite slice_from_app by done. cbn [bind_ok]. rewrite get_to_app by done.
    cbn [bind_ok ok_or]. by rewrite drop_len_app.
Qed.

Lemma parse_encoded_fields fields fuel :
  Forall wf_probe_field fields → (length (encode_wire (field_wire <$> fields)) ≤ fuel)%nat →
  parse_fields_loop fuel (encode_wire (field_wire <$> fields)) = Ok fields.
Proof.
  intros Hw. revert fuel. induction Hw as [|field fields Hf Hw IH]; intros fuel Hfuel; [by destruct fuel|].
  change (encode_wire (field_wire <$> field :: fields))
    with (encode_field (field_wire field) ++ encode_wire (field_wire <$> fields)) in *.
  pose proof (parse_encoded_field field (encode_wire (field_wire <$> fields)) Hf) as Hp.
  destruct (encode_field_cons (field_wire field)) as (b & l & He). rewrite He in *.
  destruct fuel as [|fuel]; [simpl in Hfuel; lia|]. cbn [app parse_fields_loop] in *.
  rewrite Hp. cbn [bind_ok]. rewrite IH; [done|]. cbn [length] in Hfuel. rewrite length_app in Hfuel. lia.
Qed.

(** The probe's parser of protobuf fields never panics, and agrees with the program's: a
    message it lists is one that the validating pre-pass accepts, and the byte fields it
    lists are those that the program extracts. It lists every message of variable-length
    integers and byte strings as it was encoded. *)
Theorem probe_agrees_with_parser message fields :
  parse_fields message ≠ Panic ∧
  (∀ listed, parse_fields message = Ok listed →
     validate_fields message [] = Ok tt ∧ length_delimited_fields message = Ok (omap field_bytes listed)) ∧
  (Forall wf_probe_field fields → parse_fields (encode_wire (field_wire <$> fields)) = Ok fields).
Proof.
  pose proof (parse_fields_loop_spec (length message) message (le_n _)) as Hp.
  unfold parse_fields, validate_fields, length_delimited_fields. split_and!.
  - intros Hpanic. by rewrite Hpanic in Hp.
  - intros listed Hl. rewrite Hl in Hp. by apply Hp.
  - intros Hw. by apply parse_encoded_fields.
Qed.

(** ** The text formats *)
Definition HEX_DIGITS : bytes := lit "0123456789abcdef".
Definition hex_digit (nibble : Z) : Z := HEX_DIGITS !!! Z.to_nat nibble.
(** The test module's [encode_hex]. *)
Definition encode_hex (l : bytes) : bytes :=
  l ≫= λ byte, [hex_digit (Z.shiftr byte 4); hex_digit (Z.land byte 0x0f)].

Lemma decode_hex_digit z : 0 ≤ z < 16 → decode_nibble (hex_digit z) = Ok z.
Proof.
  intros Hz. rewrite <- (Z2Nat.id z) by lia. assert (Hn : (Z.to_nat z < 16)%nat) by lia.
  revert Hn. generalize (Z.to_nat z) as n. intros n Hn.
  do 16 (destruct n as [|n]; [reflexivity|]). lia.
Qed.

Lemma nibbles_join b : 0 ≤ b < 256 → Z.lor (shl 8 (b / 16) 4) (b mod 16) = b.
Proof.
  intros Hb. unfold shl. rewrite Z.shiftl_mul_pow2 by lia.
  assert (0 ≤ b / 16 < 16) by (split; [apply Z.div_pos; lia|apply Z.div_lt_upper_bound; lia]).
  rewrite Z.mod_small by lia. rewrite <- Z.shiftl_mul_pow2 by lia. change 16 with (2 ^ 4) at 1 2.
  rewrite <- Z.shiftr_div_pow2, <- Z.land_ones by lia. apply Z.bits_inj'. intros n Hn.
  rewrite Z.lor_spec, Z.shiftl_spec, Z.land_spec by lia.
  destruct (Z.ltb_spec n 4).
  - rewrite (Z.testbit_neg_r _ (n - 4)) by lia. rewrite Z.ones_spec_low by lia. by rewrite andb_true_r.
  - rewrite Z.shiftr_spec, Z.ones_spec_high, andb_false_r, orb_false_r by lia. f_equal. lia.
Qed.

Lemma hex_round_trip l : Forall is_byte l → decode_hex (encode_hex l) = Ok l.
Proof.
  intros Hl. unfold decode_hex.
  assert (Heven : len (encode_hex l) = 2 * len l).
  { unfold len, encode_hex. clear Hl. induction l as [|b l IH]; [done|]. cbn. cbn in IH. lia. }
  rewrite Heven, Z.mul_comm, Z.mod_mul by done. cbn [Z.eqb negb]. clear Heven.
  induction Hl as [|b l Hb Hl IH]; [done|].
  change (encode_hex (b :: l)) with
    (hex_digit (Z.shiftr b 4) :: hex_digit (Z.land b (Z.ones 4)) :: encode_hex l).
  rewrite Z.shiftr_div_pow2, Z.land_ones by lia. change (2 ^ 4) with 16.
  unfold is_byte, fits in Hb. cbn [decode_pairs].
  assert (0 ≤ b / 16 < 16) by (split; [apply Z.div_pos; lia|apply Z.div_lt_upper_bound; lia]).
  pose proof (Z.mod_pos_bound b 16 ltac:(lia)). rewrite !decode_hex_digit by done.
  cbn [bind_ok]. rewrite IH. cbn [bind_ok]. do 2 f_equal. by apply nibbles_join.
Qed.

(** *** Announcements *)
Definition word_byte (b : Z) : Prop := is_ascii_whitespace b = false.

Lemma ascii_words_word w acc l :
  Forall word_byte w → ascii_words acc (w ++ l) = ascii_words (acc ++ w) l.
Proof.
  intros Hw. revert acc. induction Hw as [|b w Hb Hw IH]; intros acc; [by rewrite app_nil_r|].
  cbn [app ascii_words]. rewrite Hb, IH. by rewrite <- app_assoc.
Qed.

Lemma split_word w l :
  Forall word_byte w → w ≠ [] → split_ascii_whitespace (w ++ 32 :: l) = w :: split_ascii_whitespace l.
Proof.
  intros Hw Hn. unfold split_ascii_whitespace. rewrite ascii_words_word by done. cbn [app ascii_words].
  change (is_ascii_whitespace 32) with true. cbv iota. by rewrite bool_decide_eq_false_2.
Qed.

Lemma split_last w : Forall word_byte w → w ≠ [] → split_ascii_whitespace w = [w].
Proof.
  intros Hw Hn. unfold split_ascii_whitespace. rewrite <- (app_nil_r w) at 1.
  rewrite ascii_words_word by done. cbn [app ascii_words]. by rewrite bool_decide_eq_false_2.
Qed.

Lemma whitespace_low b : 32 < b → word_byte b.
Proof. intros Hb. unfold word_byte, is_ascii_whitespace. rewrite !bool_decide_eq_false_2 by lia. done. Qed.

(** What a server announces is read back. *)
Lemma announcement_read port key :
  0 < port → fits 16 port → len key = SESSION_KEY_LENGTH → forallb base64_alphabet key = true →
  parse_connect_announcement (lit "MOSH" ++ [32] ++ lit "CONNECT" ++ [32] ++ decimal port ++ [32] ++ key)
  = Ok {| udp_port := port; announced_key := mkSecretText key |}.
Proof.
  intros Hpos Hport Hlen Hkey. unfold fits in Hport.
  destruct (decimal_digits port ltac:(lia)) as (Hd & _ & Hn).
  assert (Hdw : Forall word_byte (decimal port)).
  { eapply Forall_impl; [exact Hd|]. intros b Hb. apply andb_prop in Hb as [Hb _].
    apply Z.leb_le in Hb. apply whitespace_low. lia. }
  assert (Hkw : Forall word_byte key).
  { apply Forall_forall. intros b Hb. rewrite forallb_forall in Hkey. apply list_elem_of_In, Hkey in Hb.
    unfold base64_alphabet in Hb. rewrite !orb_true_iff, !andb_true_iff, !Z.leb_le, !Z.eqb_eq in Hb.
    apply whitespace_low. lia. }
  assert (Hkn : key ≠ []) by (intros ->; done).
  unfold parse_connect_announcement. cbn [app].
  rewrite (split_word (lit "MOSH")), (split_word (lit "CONNECT")), split_word, split_last
    by (done || by repeat constructor).
  rewrite bool_decide_eq_true_2 by reflexivity. cbn [negb].
  rewrite parse_unsigned_decimal by done. cbn [ok_or bind_ok]. rewrite (proj2 (Z.eqb_neq port 0)) by lia.
  unfold SecretText_parse. rewrite Hlen, Hkey. reflexivity.
Qed.

(** ** The smoke test ends *)
Section smoke_bound.
Context `{Vt100} `{Vte} `{Aead} `{Base64} `{Prost} `{Zlib}.
Context (show_session : SessionError → bytes) (show_message : MessageError → bytes).

(** [m] receives at most [n] times. *)
Definition receives {A} (n : nat) (m : SM A) : Prop :=
  ∀ s, (received_events (fst (m s)) ≤ received_events s + n)%nat.

Lemma receives_bind {A B} n k (m : SM A) (f : A → SM B) :
  receives n m → (∀ a, receives k (f a)) → receives (n + k) (bindM m f).
Proof.
  intros Hm Hf s. specialize (Hm s). unfold bindM. destruct (m s) as [s' [a|e|]]; cbn [fst] in *; [|lia..].
  specialize (Hf a s'). lia.
Qed.

Lemma receives_seq {A B} n (m : SM A) (f : A → SM B) :
  receives 0 m → (∀ a, receives n (f a)) → receives n (bindM m f).
Proof. apply receives_bind. Qed.

Lemma receives_none {A} n (m : SM A) : (∀ s, received_events (fst (m s)) = received_events s) → receives n m.
Proof. intros Hm s. rewrite Hm. lia. Qed.

Lemma receives_call {A} failed (m : M ClientProtocol SessionError A) :
  receives 0 (smoke_protocol_call show_session failed m).
Proof. apply receives_none. intros s. unfold smoke_protocol_call. by destruct (m (smoke_protocol s)). Qed.

Lemma receives_send packets purpose : receives 0 (send_packets packets purpose).
Proof.
  induction packets as [|p packets IH]; [by apply receives_none|]. apply receives_seq; [|by intros _].
  apply receives_none. intros s. cbn. by destruct (default None (head (send_failures s))).
Qed.

Lemma receives_timeout : receives 0 (smoke_timeout show_session).
Proof.
  apply receives_seq; [by apply receives_none|]. intros s. destruct (has_pending_update _); [|by apply receives_none].
  apply receives_seq; [by apply receives_none|]. intros now.
  apply receives_seq; [apply receives_call|]. intros packets. apply receives_send.
Qed.

Lemma receives_state state roamed : receives 0 (smoke_state show_session show_message state roamed).
Proof.
  apply receives_seq; [by apply receives_none|]. intros batch. destruct (0 <? terminal_bytes batch).
  { apply receives_seq; by intros; apply receives_none. }
  apply receives_seq; [destruct roamed; by apply receives_none|]. intros _.
  apply receives_seq; [by apply receives_none|]. intros now.
  apply receives_seq; [apply receives_call|]. intros packets.
  apply receives_seq; [apply receives_send|]. intros _. by apply receives_none.
Qed.

(** The test receives at most once for each of its events, whatever the server does. *)
Lemma exchange_bounded events roamed : receives events (exchange show_session show_message events roamed).
Proof.
  revert roamed. induction events as [|events IH]; intros roamed; [by apply receives_none|].
  cbn [exchange]. apply (receives_bind 1 events); [intros s; cbn; lia|]. intros [packet| |error].
  - apply receives_seq; [apply receives_call|]. intros [state|]; [|apply IH].
    apply receives_seq; [apply receives_state|]. intros [|]; [by apply receives_none|apply IH].
  - apply receives_seq; [apply receives_timeout|]. intros _. apply IH.
  - by apply receives_none.
Qed.

Lemma smoke_bounded s :
  (received_events (fst (smoke show_session show_message s)) ≤ received_events s + MAXIMUM_SMOKE_EVENTS)%nat.
Proof.
  revert s. change (receives MAXIMUM_SMOKE_EVENTS (smoke show_session show_message)).
  apply receives_seq; [by apply receives_none|]. intros now.
  apply receives_seq; [apply receives_call|]. intros packets.
  apply receives_seq; [apply receives_send|]. intros _. apply exchange_bounded.
Qed.
End smoke_bound.

(** ** Concrete runs *)
Definition demo_fields : list Field := [mkField 1 (FieldVarint 150); mkField 2 (FieldBytes [170; 187])].

Lemma probe_agrees_with_parser_witness :
  parse_fields [8; 150; 1; 18; 2; 170; 187] = Ok demo_fields ∧
  length_delimited_fields [8; 150; 1; 18; 2; 170; 187] = Ok [(2, [170; 187])].
Proof.
  destruct (probe_agrees_with_parser [8; 150; 1; 18; 2; 170; 187] demo_fields) as (_ & Hlisted & Hread).
  assert (Hp : parse_fields [8; 150; 1; 18; 2; 170; 187] = Ok demo_fields).
  { apply Hread. unfold demo_fields. repeat (apply Forall_cons_2; [split; [done|split; [split; by vm_compute|]; by vm_compute]|]).
    apply Forall_nil_2. }
  split; [exact Hp|]. by destruct (Hlisted demo_fields Hp) as [_ ->].
Defined.

(** The search for a zlib header starts at the fragment header: a timestamp that looks like
    one is taken for it, here at the very first byte. *)
Example timestamp_taken_for_zlib :
  zlib_offset (encode (mkFragment (mkFragmentHeader 30876 0 1 0 true) [120; 156; 1; 2])) = Some 0%nat ∧
  zlib_offset (encode (mkFragment (mkFragmentHeader 30875 0 1 0 true) [120; 156; 1; 2])) = Some 14%nat.
Proof. split; vm_compute; reflexivity. Qed.

Example repeated_lines : lines (lit "a" ++ [13; 10; 10] ++ lit "b") = [lit "a"; []; lit "b"].
Proof. reflexivity. Qed.
