(* ===== verification/Reference.v ===== *)
(** * Concrete instances of the libraries

    Small executable implementations of the libraries the program calls, for
    which the laws the theorems assume are proved.  They show that those laws
    can hold, and they are what the witnesses run: a protobuf decoder for the
    messages of [Message.v], and a zlib that stores its input. *)
From Stdlib Require Import Sorted.
From S2P Require Import Prelude Emulators TextTerminal Message.
From S2P Require Import Fragment Crypto State Session.
Local Open Scope Z_scope.

(** ** Protobuf *)

Fixpoint parse_wire (fuel : nat) (l : bytes) : option (list (Z * wire_value)) :=
  match l, fuel with
  | [], _ => Some []
  | _, O => None
  | _, S fuel =>
      match decode_varint l with
      | Ok (key, n) =>
          let l := drop (Z.to_nat n) l in
          let f := Z.shiftr key 3 in
          let w := key mod 8 in
          if w =? 0 then
            match decode_varint l with
            | Ok (v, n) => cons (f, VarintV v) <$> parse_wire fuel (drop (Z.to_nat n) l)
            | _ => None
            end
          else if w =? 1 then
            b ← get_to 8 l; cons (f, Fixed64V b) <$> parse_wire fuel (drop 8 l)
          else if w =? 2 then
            match decode_varint l with
            | Ok (size, n) =>
                let l := drop (Z.to_nat n) l in
                b ← get_to size l;
                cons (f, BytesV b) <$> parse_wire fuel (drop (Z.to_nat size) l)
            | _ => None
            end
          else if w =? 5 then
            b ← get_to 4 l; cons (f, Fixed32V b) <$> parse_wire fuel (drop 4 l)
          else None
      | _ => None
      end
  end.

Definition parse_message (l : bytes) : option (list (Z * wire_value)) := parse_wire (length l) l.

(** The last varint of a tag, the last byte string of a tag, and a nested message:
    repeated occurrences are merged by concatenating their encodings. *)
Definition last_varint (tag : Z) (fs : list (Z * wire_value)) : Z :=
  foldl (λ acc f, if f.1 =? tag then match f.2 with VarintV v => v | _ => acc end else acc) 0 fs.
Definition all_bytes (tag : Z) (fs : list (Z * wire_value)) : list bytes :=
  omap (λ f, if f.1 =? tag then match f.2 with BytesV b => Some b | _ => None end else None) fs.
Definition last_bytes (tag : Z) (fs : list (Z * wire_value)) : bytes :=
  default [] (last (all_bytes tag fs)).
Definition nested {A} (of_wire : list (Z * wire_value) → option A) (tag : Z)
    (fs : list (Z * wire_value)) : option (option A) :=
  match all_bytes tag fs with
  | [] => Some None
  | l => fs ← parse_message (concat l); Some <$> of_wire fs
  end.

Definition update_of_wire (fs : list (Z * wire_value)) : StateUpdate :=
  mkStateUpdate (last_varint 1 fs) (last_varint 2 fs) (last_varint 3 fs) (last_varint 4 fs)
    (last_varint 5 fs) (last_bytes 6 fs) (last_bytes 7 fs) (last_bytes 8 fs).

Definition byte_run_of_wire fs := Some (mkByteRun (last_bytes 4 fs)).
Definition viewport_of_wire fs := Some (mkViewportSize (last_varint 5 fs) (last_varint 6 fs)).
Definition marker_of_wire fs := Some (mkMarker (last_varint 8 fs)).
Definition control_of_wire fs :=
  Some (mkSessionControl (last_varint 10 fs mod 2 ^ 32) (last_bytes 11 fs)).

Definition instruction_of_wire (fs : list (Z * wire_value)) : option Instruction :=
  b ← nested byte_run_of_wire 2 fs;
  v ← nested viewport_of_wire 3 fs;
  m ← nested marker_of_wire 7 fs;
  c ← nested control_of_wire 9 fs;
  Some (mkInstruction b v m c).

Definition batch_of_wire (fs : list (Z * wire_value)) : option InstructionBatch :=
  mkInstructionBatch <$>
    mapM (λ b, fs ← parse_message b; instruction_of_wire fs) (all_bytes 1 fs).

#[export] Instance reference_prost : Prost := {|
  prost_encode_update u := encode_wire (update_wire u);
  prost_decode_update l := update_of_wire <$> parse_message l;
  prost_encode_batch b := encode_wire (batch_wire b);
  prost_decode_batch l := fs ← parse_message l; batch_of_wire fs;
|}.

(** A zlib stream that stores its input. *)
#[export] Instance stored_zlib : Zlib := {|
  zlib_compress b := Some b;
  zlib_read c n := Some (if len c <=? n then c else take (Z.to_nat n) c);
|}.

#[export] Instance stored_zlib_laws : ZlibLaws.
Proof.
  split; simpl.
  - intros b c n [= ->]. destruct (Z.leb_spec (len c) n); [|done].
    rewrite firstn_all2; [done|]. unfold len in *. lia.
  - intros c n r Hn [= <-]. destruct (Z.leb_spec (len c) n); [done|].
    unfold len. rewrite length_take. lia.
Qed.

(** ** The laws of the protobuf instance *)
#[local] Arguments drop : simpl never.

Lemma parse_wire_encode fs fuel :
  Forall wf_field fs → (length (encode_wire fs) ≤ fuel)%nat →
  parse_wire fuel (encode_wire fs) = Some fs.
Proof.
  intros Hfs. revert fuel. induction Hfs as [|f fs Hf Hfs IH]; intros fuel Hfuel; [by destruct fuel|].
  change (encode_wire (f :: fs)) with (encode_field f ++ encode_wire fs) in *.
  destruct (encode_field_app f (encode_wire fs)) as (b & l & Hbl). rewrite length_app in Hfuel.
  destruct (encode_field_cons f) as (b' & l' & Hl). rewrite Hl in Hfuel. simpl in Hfuel.
  destruct fuel as [|fuel]; [lia|]. specialize (IH fuel ltac:(lia)).
  rewrite Hbl. cbn [parse_wire]. rewrite <- Hbl. clear Hbl Hl Hfuel.
  destruct f as [f w]. destruct Hf as [Hf Hw]. simpl in Hf, Hw.
  destruct (key_parts f w Hf) as (Hk & Hs & Hm).
  unfold encode_field. cbn [fst snd].
  rewrite <- app_assoc, decode_encode_varint, drop_len_app, Hs, Hm by done.
  destruct w as [v|b0|b0|b0]; simpl in Hw |- *.
  - rewrite decode_encode_varint, drop_len_app, IH by done. done.
  - rewrite get_to_app by done. simpl.
    rewrite (drop_app_length' b0) by (unfold len in Hw; lia). by rewrite IH.
  - pose proof (len_nonneg b0). rewrite <- app_assoc, decode_encode_varint by (unfold fits; lia).
    rewrite !drop_len_app, get_to_app by done. simpl. by rewrite IH.
  - rewrite get_to_app by done. simpl.
    rewrite (drop_app_length' b0) by (unfold len in Hw; lia). by rewrite IH.
Qed.

Lemma parse_message_encode fs : Forall wf_field fs → parse_message (encode_wire fs) = Some fs.
Proof. intros Hfs. by apply parse_wire_encode. Qed.

Section fields.
Implicit Types fs : list (Z * wire_value).

Lemma last_varint_app tag fs1 fs2 :
  (∀ f, f ∈ fs2 → f.1 ≠ tag) → last_varint tag (fs1 ++ fs2) = last_varint tag fs1.
Proof.
  intros Hf. unfold last_varint. rewrite foldl_app.
  generalize (foldl (λ acc f, if f.1 =? tag then match f.2 with VarintV v => v | _ => acc end else acc) 0 fs1).
  induction fs2 as [|f fs2 IH]; intros z; [done|]. simpl.
  rewrite (proj2 (Z.eqb_neq f.1 tag)) by (apply Hf; set_solver). apply IH. set_solver.
Qed.

Lemma last_varint_skip tag fs1 fs2 :
  (∀ f, f ∈ fs1 → f.1 ≠ tag) → last_varint tag (fs1 ++ fs2) = last_varint tag fs2.
Proof.
  intros Hf. unfold last_varint. rewrite foldl_app. f_equal.
  apply (last_varint_app tag [] fs1 Hf).
Qed.

Lemma last_varint_field tag v fs : (∀ f, f ∈ fs → f.1 ≠ tag) →
  last_varint tag (varint_field tag v ++ fs) = v.
Proof.
  intros Hf. rewrite last_varint_app by done. unfold varint_field, last_varint.
  destruct (Z.eqb_spec v 0); simpl; [done|]. by rewrite Z.eqb_refl.
Qed.

Lemma all_bytes_app tag fs1 fs2 : all_bytes tag (fs1 ++ fs2) = all_bytes tag fs1 ++ all_bytes tag fs2.
Proof. apply omap_app. Qed.

Lemma all_bytes_none tag fs : (∀ f, f ∈ fs → f.1 ≠ tag) → all_bytes tag fs = [].
Proof.
  intros Hf. unfold all_bytes. induction fs as [|f fs IH]; [done|]. simpl.
  rewrite (proj2 (Z.eqb_neq f.1 tag)) by (apply Hf; set_solver). apply IH. set_solver.
Qed.

Lemma last_bytes_skip tag fs1 fs2 :
  (∀ f, f ∈ fs1 → f.1 ≠ tag) → last_bytes tag (fs1 ++ fs2) = last_bytes tag fs2.
Proof. intros Hf. unfold last_bytes. by rewrite all_bytes_app, all_bytes_none. Qed.

Lemma last_bytes_field tag b fs : (∀ f, f ∈ fs → f.1 ≠ tag) →
  last_bytes tag (bytes_field tag b ++ fs) = b.
Proof.
  intros Hf. unfold last_bytes. rewrite all_bytes_app, (all_bytes_none tag fs), app_nil_r by done.
  unfold bytes_field, all_bytes. case_bool_decide as Hb; simpl; [by rewrite Hb|].
  by rewrite Z.eqb_refl.
Qed.

Lemma nested_skip {A} (g : _ → option A) tag fs1 fs2 :
  (∀ f, f ∈ fs1 → f.1 ≠ tag) → nested g tag (fs1 ++ fs2) = nested g tag fs2.
Proof. intros Hf. unfold nested. by rewrite all_bytes_app, all_bytes_none. Qed.

Lemma nested_field {A} (wire : A → _) g tag (o : option A) fs :
  (∀ f, f ∈ fs → f.1 ≠ tag) →
  (∀ a, o = Some a → Forall wf_field (wire a) ∧ g (wire a) = Some a) →
  nested g tag (message_field wire tag o ++ fs) = Some o.
Proof.
  intros Hf Ho. unfold nested. rewrite all_bytes_app, (all_bytes_none tag fs), app_nil_r by done.
  destruct o as [a|]; simpl; [|done]. rewrite Z.eqb_refl. simpl. rewrite app_nil_r.
  destruct (Ho a eq_refl) as [Hw Hg]. rewrite parse_message_encode by done. simpl. by rewrite Hg.
Qed.
End fields.

Lemma last_varint_only tag v : last_varint tag (varint_field tag v) = v.
Proof. rewrite <- (app_nil_r (varint_field tag v)). apply last_varint_field. set_solver. Qed.

Lemma last_bytes_only tag b : last_bytes tag (bytes_field tag b) = b.
Proof. rewrite <- (app_nil_r (bytes_field tag b)). apply last_bytes_field. set_solver. Qed.

(** The tags of the fields a wire list may contain. *)
Ltac solve_tags :=
  intros f Hf; unfold varint_field, bytes_field, message_field in Hf;
  repeat case_match; set_unfold; naive_solver lia.

Ltac read_fields :=
  repeat first [rewrite last_varint_field by solve_tags; reflexivity
               |rewrite last_bytes_field by solve_tags; reflexivity
               |rewrite last_varint_skip by solve_tags
               |rewrite last_bytes_skip by solve_tags
               |rewrite last_varint_only; reflexivity
               |rewrite last_bytes_only; reflexivity].

Lemma update_of_update_wire u : update_of_wire (update_wire u) = u.
Proof.
  destruct u as [pv bs ts ak db d p c]. unfold update_of_wire, update_wire.
  cbn [protocol_version base_state target_state acknowledged_state discard_before delta
       padding capabilities].
  f_equal; read_fields.
Qed.

Lemma byte_run_of_byte_run_wire b : byte_run_of_wire (byte_run_wire b) = Some b.
Proof. destruct b. unfold byte_run_of_wire, byte_run_wire. simpl. do 2 f_equal. read_fields. Qed.

Lemma viewport_of_viewport_wire v : viewport_of_wire (viewport_wire v) = Some v.
Proof.
  destruct v. unfold viewport_of_wire, viewport_wire. simpl.
  do 2 f_equal; read_fields.
Qed.

Lemma marker_of_marker_wire m : marker_of_wire (marker_wire m) = Some m.
Proof. destruct m. unfold marker_of_wire, marker_wire. simpl. do 2 f_equal. read_fields. Qed.

Lemma control_of_control_wire c :
  fits 32 (kind c) → control_of_wire (control_wire c) = Some c.
Proof.
  destruct c as [k p]. unfold control_of_wire, control_wire. simpl. intros Hk.
  do 2 f_equal; [|read_fields]. rewrite last_varint_field by solve_tags. by apply Z.mod_small.
Qed.

Lemma instruction_of_instruction_wire i :
  wf_instruction i → instruction_of_wire (instruction_wire i) = Some i.
Proof.
  destruct i as [b v m c]. intros (_ & Hb & Hv & Hm & Hc). simpl in *.
  unfold instruction_of_wire, instruction_wire. cbn [instr_bytes viewport marker session_control].
  rewrite (nested_field byte_run_wire _ 2); [|solve_tags| auto using byte_run_of_byte_run_wire].
  rewrite (nested_skip _ 3) by solve_tags.
  rewrite (nested_field viewport_wire _ 3); [|solve_tags| auto using viewport_of_viewport_wire].
  rewrite 2!(nested_skip _ 7) by solve_tags.
  rewrite (nested_field marker_wire _ 7); [|solve_tags| auto using marker_of_marker_wire].
  rewrite 3!(nested_skip _ 9) by solve_tags.
  rewrite <- (app_nil_r (message_field control_wire 9 c)).
  rewrite (nested_field control_wire _ 9); [done|set_solver|].
  intros a Ha. destruct (Hc a Ha). auto using control_of_control_wire.
Qed.

Lemma batch_of_batch_wire b : wf_batch b → batch_of_wire (batch_wire b) = Some b.
Proof.
  destruct b as [l]. intros [_ Hl]. unfold batch_of_wire, batch_wire. simpl in *.
  transitivity (mkInstructionBatch <$> Some l); [f_equal | done].
  induction Hl as [|i l Hi Hl IH]; [done|]. cbn.
  rewrite parse_message_encode by apply Hi. cbn.
  rewrite instruction_of_instruction_wire by done. cbn. unfold all_bytes in IH. by rewrite IH.
Qed.

(** Decoded byte fields are parts of the message. *)
Definition wire_bytes (fs : list (Z * wire_value)) : Z :=
  sum_list_Z ((λ f, match f.2 with BytesV b => len b | _ => 0 end) <$> fs).

Lemma wire_bytes_cons f fs :
  wire_bytes (f :: fs) = match f.2 with BytesV b => len b | _ => 0 end + wire_bytes fs.
Proof. unfold wire_bytes. by rewrite fmap_cons, sum_list_Z_cons. Qed.

Lemma wire_bytes_nonneg fs : 0 ≤ wire_bytes fs.
Proof.
  induction fs as [|f fs IH]; [done|]. rewrite wire_bytes_cons.
  destruct f as [t [v|b|b|b]]; simpl; try pose proof (len_nonneg b); lia.
Qed.

Lemma len_drop_le {A} n (l : list A) : len (drop n l) ≤ len l.
Proof. unfold len. rewrite length_drop. lia. Qed.

Lemma get_to_split n (l b : bytes) : get_to n l = Some b → len l = len b + len (drop (Z.to_nat n) l).
Proof.
  unfold get_to. destruct (_ <=? _); [|done]. intros [= <-].
  rewrite <- len_app. by rewrite take_drop.
Qed.

(** Decoded varints have 64 bits. *)
Definition varint_fits (f : Z * wire_value) : Prop := match f.2 with VarintV v => fits 64 v | _ => True end.

Lemma parse_wire_bounded fuel l fs :
  parse_wire fuel l = Some fs → wire_bytes fs ≤ len l ∧ Forall varint_fits fs.
Proof.
  revert l fs. induction fuel as [|fuel IH]; intros [|x l] fs; cbn [parse_wire]; try done;
    [by intros [= <-]..|]. generalize (x :: l). clear x l. intros l.
  destruct (decode_varint l) as [[key n]|e|]; [|done..]. cbv zeta.
  pose proof (len_drop_le (Z.to_nat n) l) as Hl. set (l1 := drop (Z.to_nat n) l) in *. clearbody l1.
  assert (∀ tag v l2, len l2 + match v with BytesV b => len b | _ => 0 end ≤ len l1 →
    varint_fits (tag, v) → cons (tag, v) <$> parse_wire fuel l2 = Some fs →
    wire_bytes fs ≤ len l ∧ Forall varint_fits fs) as Hrest.
  { intros tag v l2 Hl2 Hv. destruct (parse_wire fuel l2) as [fs'|] eqn:Hp; [|done]. intros [= <-].
    rewrite wire_bytes_cons. specialize (IH _ _ Hp) as [IH1 IH2]. cbn [snd]. split; [lia|by constructor]. }
  destruct (_ =? 0); [|destruct (_ =? 1); [|destruct (_ =? 2); [|destruct (_ =? 5); [|done]]]].
  - destruct (decode_varint l1) as [[v n1]|e|] eqn:Hv; [|done..]. apply decode_varint_range in Hv.
    apply Hrest; [|done]. pose proof (len_drop_le (Z.to_nat n1) l1). lia.
  - destruct (get_to 8 l1) as [b|] eqn:Hb; [|done]. apply get_to_split in Hb. apply Hrest; [|done].
    pose proof (len_nonneg b). change (Z.to_nat 8) with 8%nat in Hb. lia.
  - destruct (decode_varint l1) as [[v n1]|e|]; [|done..]. cbv zeta.
    pose proof (len_drop_le (Z.to_nat n1) l1) as Hl1.
    destruct (get_to v _) as [b|] eqn:Hb; [|done]. apply get_to_split in Hb. apply Hrest; [lia|done].
  - destruct (get_to 4 l1) as [b|] eqn:Hb; [|done]. apply get_to_split in Hb. apply Hrest; [|done].
    pose proof (len_nonneg b). change (Z.to_nat 4) with 4%nat in Hb. lia.
Qed.

Lemma all_bytes_bounded tag fs : len (concat (all_bytes tag fs)) ≤ wire_bytes fs.
Proof.
  induction fs as [|f fs IH]; [done|]. rewrite wire_bytes_cons. pose proof (wire_bytes_nonneg fs).
  change (all_bytes tag (f :: fs)) with
    (match (if f.1 =? tag then match f.2 with BytesV b => Some b | _ => None end else None) with
     | Some b => b :: all_bytes tag fs
     | None => all_bytes tag fs
     end).
  destruct f as [t [v|b|b|b]]; cbn [fst snd]; destruct (t =? tag); try lia.
  - cbn [concat]. rewrite len_app. lia.
  - pose proof (len_nonneg b). lia.
Qed.

Lemma elem_of_all_bytes b tag fs : b ∈ all_bytes tag fs → len b ≤ wire_bytes fs.
Proof.
  intros Hb. pose proof (all_bytes_bounded tag fs) as Hl. apply list_elem_of_split in Hb as (l1 & l2 & Hb).
  rewrite Hb, concat_app, len_app in Hl. cbn [concat] in Hl. rewrite len_app in Hl.
  pose proof (len_nonneg (concat l1)). pose proof (len_nonneg (concat l2)). lia.
Qed.

Lemma last_bytes_bounded tag fs : len (last_bytes tag fs) ≤ wire_bytes fs.
Proof.
  unfold last_bytes. destruct (last (all_bytes tag fs)) as [b|] eqn:Hb; simpl.
  - apply (elem_of_all_bytes b tag). by apply last_Some_elem_of.
  - rewrite (@len_nil Z). apply wire_bytes_nonneg.
Qed.

Lemma last_varint_bounded tag fs : Forall varint_fits fs → fits 64 (last_varint tag fs).
Proof.
  intros Hf. unfold last_varint. assert (fits 64 0) as H0 by (unfold fits; lia). revert H0.
  generalize 0. induction Hf as [|f fs Hf _ IH]; intros z Hz; [done|]. simpl. apply IH.
  destruct (f.1 =? tag); [|done]. destruct f as [t [v|b|b|b]]; done.
Qed.

Lemma instruction_of_wire_bounded fs i :
  instruction_of_wire fs = Some i → bounded_instruction (wire_bytes fs) i.
Proof.
  unfold instruction_of_wire. intros Hi.
  apply bind_Some in Hi as (b & _ & Hi). apply bind_Some in Hi as (v & _ & Hi).
  apply bind_Some in Hi as (m & Hm & Hi). apply bind_Some in Hi as (c & Hc & [= <-]).
  split; cbn [marker session_control].
  { intros m' ->. unfold nested in Hm. destruct (all_bytes 7 fs); [done|].
    apply bind_Some in Hm as (fs' & Hp & Hm). unfold marker_of_wire in Hm. injection Hm as <-.
    apply parse_wire_bounded in Hp as [_ Hp]. by apply last_varint_bounded. }
  intros c' E. subst c. unfold nested in Hc.
  pose proof (all_bytes_bounded 9 fs) as Hall. destruct (all_bytes 9 fs) as [|x l]; [done|].
  apply bind_Some in Hc as (fs' & Hp & Hc). unfold control_of_wire in Hc. injection Hc as <-.
  apply parse_wire_bounded in Hp as [Hp _]. pose proof (last_bytes_bounded 11 fs'). split; cbn [kind payload].
  - unfold fits. by apply Z.mod_pos_bound.
  - lia.
Qed.

#[export] Instance reference_prost_laws : ProstLaws.
Proof.
  split; try done.
  - intros u Hu. simpl. rewrite parse_message_encode by by apply update_wire_ok.
    simpl. by rewrite update_of_update_wire.
  - intros b Hb. simpl. rewrite parse_message_encode by apply Hb. simpl.
    by apply batch_of_batch_wire.
  - intros l u. simpl. destruct (parse_message l) as [fs|] eqn:Hp; [|done]. intros [= <-].
    apply parse_wire_bounded in Hp as [Hp _]. pose proof (last_bytes_bounded 6 fs). cbn. lia.
  - intros l b. simpl. intros Hb. apply bind_Some in Hb as (fs & Hp & Hb).
    apply parse_wire_bounded in Hp as [Hp _]. unfold batch_of_wire in Hb.
    apply fmap_Some in Hb as (il & His & ->). cbn [instructions]. apply mapM_Some in His.
    assert (∀ b, b ∈ all_bytes 1 fs → len b ≤ len l) as Hin
      by (intros b Hb; pose proof (elem_of_all_bytes b 1 fs Hb); lia).
    induction His as [|b i bs il Hi His IH]; [constructor|]. constructor.
    + apply bind_Some in Hi as (fs' & Hp' & Hi). apply parse_wire_bounded in Hp' as [Hp' _].
      apply instruction_of_wire_bounded in Hi as [Hm Hi]. split; [done|]. intros c Hc. destruct (Hi c Hc).
      pose proof (Hin b ltac:(by left)). split; [done|lia].
    + apply IH. intros b' Hb'. apply Hin. by right.
Qed.

(** ** Witnesses *)

Definition demo_batch : InstructionBatch := mkInstructionBatch
  [ mkInstruction None (Some (mkViewportSize 80 24)) None None;
    mkInstruction (Some (mkByteRun (lit "exit"))) None None None;
    mkInstruction None None None (Some (mkSessionControl 3 (lit "name"))) ].

Definition demo_update : StateUpdate :=
  (StateUpdate_new 3 4 2) <| delta := encode_bytes demo_batch |>
                          <| capabilities := [SESSION_CONTROL_CAPABILITY] |>.

#[export] Instance wf_value_dec w : Decision (wf_value w).
Proof. destruct w; apply _. Defined.
#[export] Instance wf_field_dec f : Decision (wf_field f).
Proof. apply _. Defined.
#[export] Instance wf_instruction_dec i : Decision (wf_instruction i).
Proof. apply _. Defined.

Lemma compressed_update_round_trip_witness :
  let c := prost_encode_update demo_update in
  encode_compressed_update demo_update = Ok c ∧ decode_compressed_update c = Ok demo_update ∧
  decode_instructions demo_update = Ok demo_batch.
Proof.
  apply (compressed_update_round_trip demo_update demo_batch (prost_encode_update demo_update)).
  - split; decide_closed.
  - split; decide_closed.
  - reflexivity.
  - vm_compute. discriminate.
  - reflexivity.
Defined.

Lemma varint_decoding_exact_witness :
  (∀ v n, decode_varint [172; 2; 7] = Ok (v, n) ↔
     ∃ p rest, [172; 2; 7] = p ++ rest ∧ is_varint p ∧ v = varint_value p ∧ n = len p) ∧
  (∀ v, fits 64 v →
     decode_varint (encode_varint v ++ [172; 2; 7]) = Ok (v, len (encode_varint v))) ∧
  decode_varint [172; 2; 7] ≠ Panic.
Proof.
  apply (varint_decoding_exact [172; 2; 7]). repeat constructor; unfold is_byte, fits; lia.
Defined.

Lemma validation_checks_wire_types_witness :
  let fs := [(1, VarintV 300); (20, Fixed64V (replicate 8 0)); (6, BytesV [1; 2])] in
  (validate_fields (encode_wire fs) update_fields = Ok tt ↔
     ∀ f w, (f, w) ∈ fs → ∀ t, find (λ e, e.1 =? f) update_fields = Some (f, t) → wire_type_of w = t) ∧
  length_delimited_fields (encode_wire fs) = Ok (omap bytes_of_field fs).
Proof.
  apply (validation_checks_wire_types
    [(1, VarintV 300); (20, Fixed64V (replicate 8 0)); (6, BytesV [1; 2])] update_fields).
  repeat constructor; unfold fits; simpl; (lia || reflexivity).
Defined.

(** ** Authenticated encryption

    A stand-in that appends a 16-byte checksum of key, nonce and text. *)
Definition checksum (l : bytes) : bytes :=
  to_be 16 (foldl (λ h b, (h * 31 + b + 7) mod 2 ^ 128) 0 l).

#[export] Instance checksum_aead : Aead := {|
  aead_encrypt k n p := if forallb (fitsb 8) p then Some (p ++ checksum (k ++ n ++ p)) else None;
  aead_decrypt k n c :=
    let p := take (length c - 16) c in
    if forallb (fitsb 8) p && bool_decide (c = p ++ checksum (k ++ n ++ p)) then Some p else None;
|}.

#[export] Instance checksum_aead_laws : AeadLaws.
Proof.
  split; simpl.
  - intros k n p c. destruct (forallb (fitsb 8) p) eqn:Hp; [|done]. intros [= <-].
    assert (take (length (p ++ checksum (k ++ n ++ p)) - 16) (p ++ checksum (k ++ n ++ p)) = p) as ->.
    { apply take_app_length'. rewrite length_app. unfold checksum. rewrite length_to_be. lia. }
    by rewrite Hp, bool_decide_eq_true_2.
  - intros k n p c. destruct (forallb _ _) eqn:Hf; [|done]. simpl. case_bool_decide as Hc; [|done].
    intros [= Hp]. rewrite Hp in Hf, Hc. rewrite Hf. by rewrite <- Hc.
  - intros k n p c. destruct (forallb _ _); [|done]. intros [= <-]. unfold len. rewrite length_app.
    unfold checksum. rewrite length_to_be. unfold OCB_TAG_BYTES. lia.
  - intros k n c p. destruct (forallb _ _) eqn:Hf; [|done]. simpl. case_bool_decide; [|done].
    intros [= <-]. apply Forall_forall. intros b Hb. rewrite forallb_forall in Hf.
    apply fitsb_spec, Hf, list_elem_of_In, Hb.
Qed.

(** ** Base64 without padding *)
Definition base64_digit (b : Z) : option Z :=
  if (65 <=? b) && (b <=? 90) then Some (b - 65)
  else if (97 <=? b) && (b <=? 122) then Some (b - 71)
  else if (48 <=? b) && (b <=? 57) then Some (b + 4)
  else if b =? 43 then Some 62 else if b =? 47 then Some 63 else None.

(** [pending] holds [n] bits that make no byte yet. *)
Fixpoint base64_bytes (l : bytes) (pending n : Z) : option bytes :=
  match l with
  | [] => if (pending =? 0) && (n <? 6) then Some [] else None
  | b :: l =>
      v ← base64_digit b;
      let pending := pending * 64 + v in
      if n + 6 <? 8 then base64_bytes l pending (n + 6)
      else cons (pending / 2 ^ (n - 2)) <$> base64_bytes l (pending mod 2 ^ (n - 2)) (n - 2)
  end.

#[export] Instance plain_base64 : Base64 := λ l, base64_bytes l 0 0.

Definition demo_key : SessionKey := mkSessionKey (seqZ 0 16).

Definition demo_sealed : list bytes * SecureChannel :=
  seal_all [lit "one"] (SecureChannel_new Client demo_key).
Definition demo_second : SecureChannel * outcome SealError bytes :=
  seal_next (lit "two") (snd demo_sealed).
Definition demo_second_packet : bytes :=
  match snd demo_second with Ok packet => packet | _ => [] end.

Lemma sealed_packet_opens_witness :
  open (SecureChannel_new Server demo_key) demo_second_packet
    = Ok {| counter := 1; plaintext := lit "two" |} ∧
  open (fst demo_second) demo_second_packet = Err UnexpectedDirection.
Proof.
  apply (sealed_packet_opens Client demo_key [lit "one"] (lit "two") (fst demo_sealed)
           (snd demo_sealed) (fst demo_second) demo_second_packet);
    vm_compute; reflexivity.
Defined.

Definition demo_packet : bytes :=
  match snd (seal_next (lit "two") (SecureChannel_new Server demo_key)) with
  | Ok packet => packet
  | _ => []
  end.

Lemma opened_packet_is_authentic_witness :
  let ch := SecureChannel_new Client demo_key in
  let packet := demo_packet in
  is_ok (open ch packet) = true ∧
  open ch packet ≠ Panic ∧
  (len packet < MINIMUM_PACKET_BYTES → open ch packet = Err PacketTooShort) ∧
  (∀ r, open ch packet = Ok r →
     fits 63 (counter r) ∧
     ∀ peer, peer = (SecureChannel_new (other Client) demo_key) <| next_counter := Some (counter r) |> →
       snd (seal_next (plaintext r) peer) = Ok packet).
Proof.
  split; [vm_compute; reflexivity|].
  apply (opened_packet_is_authentic Client demo_key demo_packet). decide_closed.
Defined.

(** ** Terminals

    An escape-sequence parser that knows two-byte sequences; the terminal emulator is the
    one of TextTerminal.v. *)
Definition vte_step (escape : bool) (b : Z) : bool * list vte_action :=
  if escape then (false, [VteEscDispatch [] false b])
  else if b =? 27 then (true, [])
  else if b <? 32 then (false, [VteExecute b])
  else (false, [VtePrint b]).

#[export] Instance escape_vte : Vte := {|
  vte_parser := bool;
  vte_new := false;
  vte_advance := vte_collect vte_step;
|}.

#[export] Instance escape_vte_laws : VteLaws.
Proof.
  split; cbn; [done|]. intros a b p. apply vte_collect_app.
Qed.

Definition demo_terminal : RemoteTerminalState :=
  {| initial_columns := 80; initial_rows := 24; parser := (24, 80, []);
     history := history_default; st_viewport := mkViewportSize 80 24; echo_ack := None |}.

Definition text_batch (s : string) : InstructionBatch :=
  mkInstructionBatch [mkInstruction (Some (mkByteRun (lit s))) None None None].

Definition resize_batch : InstructionBatch :=
  mkInstructionBatch [mkInstruction (Some (mkByteRun (lit "c"))) (Some (mkViewportSize 100 30))
                        (Some (mkMarker 4)) None].

Definition demo_delivered : RemoteTerminalState := fst (apply (text_batch "ab") demo_terminal).
Definition demo_target : RemoteTerminalState :=
  fst (apply resize_batch (fst (apply (text_batch "b") (fst (apply (text_batch "a") demo_terminal))))).

Lemma demo_terminal_reached : reached demo_terminal.
Proof. apply (reached_new 80 24). reflexivity. Qed.

Lemma demo_apply_reached s batch : reached s → limited s batch = true → reached (fst (apply batch s)).
Proof.
  intros Hs Hl. apply (reached_apply s batch _ (snd (apply batch s)) Hs); [|done].
  by destruct (apply batch s).
Qed.

Lemma demo_delivered_reached : reached demo_delivered.
Proof. apply demo_apply_reached; [apply demo_terminal_reached | reflexivity]. Qed.

Lemma demo_target_reached : reached demo_target.
Proof.
  repeat (apply demo_apply_reached; [|reflexivity]). apply demo_terminal_reached.
Qed.

Lemma apply_transactional_witness :
  let '(s', r) := apply resize_batch demo_delivered in
  wf_terminal s' ∧ r ≠ Panic ∧ (r ≠ Ok tt → s' = demo_delivered) ∧
  (r = Ok tt ↔
     Forall valid_instruction (instructions resize_batch) ∧
     markers_increase (echo_ack demo_delivered) (instructions resize_batch) ∧
     (limited demo_delivered resize_batch = true ∨
      limited (compacted demo_delivered) resize_batch = true ∧
      history_ends_at_ground (canonical_operations (history demo_delivered)) = true)) ∧
  (r = Ok tt →
     st_viewport s' = foldl (λ vp i, default vp (viewport i)) (st_viewport demo_delivered)
                        (instructions resize_batch) ∧
     echo_ack s' = last_marker (echo_ack demo_delivered) (instructions resize_batch)).
Proof.
  apply (apply_transactional demo_delivered resize_batch).
  apply reached_spec, demo_delivered_reached.
Defined.

Lemma clone_exact_witness : clone demo_target = Ok demo_target.
Proof. apply (clone_exact demo_target), demo_target_reached. Defined.

Lemma diff_converges_witness :
  ∃ d, diff_from demo_target demo_delivered = Ok d ∧
    (limited demo_delivered d = true →
     ∃ s', apply d demo_delivered = (s', Ok tt) ∧
       parser s' = parser demo_target ∧ st_viewport s' = st_viewport demo_target ∧
       echo_ack s' = echo_ack demo_target ∧ history_events s' = history_events demo_target).
Proof.
  apply (diff_converges demo_target demo_delivered).
  - apply demo_target_reached.
  - apply demo_delivered_reached.
  - reflexivity.
  - exists [EByte 99; EResize 100 30]. reflexivity.
  - intros e [=].
Defined.

Definition demo_history : list StateOperation := [HostBytes [1; 2; 3]; Resize 90 20].

Lemma history_suffix_start_is_prefix_witness :
  (flatten [HostBytes [1; 2]] `prefix_of` flatten demo_history ↔
     ∃ j off, history_suffix_start demo_history [HostBytes [1; 2]] = Ok (j, off)) ∧
  (∀ j off, history_suffix_start demo_history [HostBytes [1; 2]] = Ok (j, off) →
     0 ≤ j ≤ len demo_history ∧
     flatten demo_history = flatten [HostBytes [1; 2]] ++ suffix_of demo_history j off) ∧
  (∀ e, history_suffix_start demo_history [HostBytes [1; 2]] = Err e → e = DivergedHistory).
Proof.
  apply (history_suffix_start_is_prefix demo_history [HostBytes [1; 2]]); simpl; split_and!; done.
Defined.

Lemma screen_diff_audit_decides_witness :
  let '(common, target_tail, delivered_tail) :=
    split_common_history [HostBytes [65; 27; 99]] [HostBytes [65; 66]] in
  flatten [HostBytes [65; 27; 99]] = flatten common ++ flatten target_tail ∧
  flatten [HostBytes [65; 66]] = flatten common ++ flatten delivered_tail ∧
  heads_differ (flatten target_tail) (flatten delivered_tail) ∧
  (diverged_histories_are_screen_diff_safe [HostBytes [65; 27; 99]] [HostBytes [65; 66]] = true ↔
     no_resize target_tail ∧ no_resize delivered_tail ∧
     at_ground (parser_after [HostBytes [65; 27; 99]]) ∧
     at_ground (parser_after [HostBytes [65; 66]])).
Proof.
  apply (screen_diff_audit_decides [HostBytes [65; 27; 99]] [HostBytes [65; 66]]);
    simpl; split_and!; done.
Defined.


(** ** A client *)
Definition demo_client : ClientProtocol := {|
  secure_channel := SecureChannel_new Client demo_key;
  next_local_state := 1;
  latest_remote_state := 0;
  latest_peer_timestamp := None;
  assemblies := ∅;
  local_instructions := [];
  sent_states := [{| sent_id := 0; instruction_end := 0 |}];
  received_states := {[ 0 := demo_terminal ]};
  delivered_remote_state := demo_terminal;
  remote_throwaway_floor := 0;
  local_capabilities := [];
  remote_capabilities := [];
  replay_window := replay_default;
|}.

Lemma demo_client_reach : protocol_reach demo_key demo_client.
Proof. apply reach_new. reflexivity. Qed.

Definition demo_spec : SentSpec := mkSentSpec 0 [].

Lemma demo_client_sent :
  sent_history demo_spec (sent_states demo_client) (local_instructions demo_client).
Proof.
  split; [done | repeat constructor | done |]. exists [0%nat]. split_and!; try done.
  repeat constructor.
Qed.

Lemma sent_states_refine_log_witness :
  (∀ ts batch target, last_id demo_spec < target → batch_fits demo_client batch →
     let '(p', r) := build_state_update ts batch target demo_client in
     r ≠ Panic ∧
     sent_history (if is_ok r then spec_send target (instructions batch) demo_spec else demo_spec)
       (sent_states p') (local_instructions p')) ∧
  (∀ k, let '(p', r) := process_acknowledgement k demo_client in
     r = Ok tt ∧
     if retained k demo_client
     then sent_history (spec_ack k demo_spec) (sent_states p') (local_instructions p')
     else p' = demo_client) ∧
  pending_update demo_client =
    Ok (update_for (confirmed demo_spec) (last_id demo_spec) (latest_remote_state demo_client)
          (confirmed demo_spec) (encode_bytes (mkInstructionBatch (pending demo_spec)))
          (local_capabilities demo_client), last_id demo_spec).
Proof.
  apply (sent_states_refine_log demo_client demo_spec).
  - eapply protocol_reach_wf, demo_client_reach.
  - apply demo_client_sent.
Defined.

Lemma replay_window_exact_witness :
  let '(w, accepted) := foldl (λ '(w, acc) c,
    let '(w, b) := replay_accept c w in (w, if b then acc ++ [c] else acc)) (replay_default, [])
    [3; 200; 3; 150; 150] in
  NoDup accepted ∧
  ∀ c, 0 ≤ c →
    snd (replay_accept c w) = true ↔
    c ∉ accepted ∧ ∀ h, highest w = Some h → h - c < REPLAY_WINDOW_BITS.
Proof. apply (replay_window_exact [3; 200; 3; 150; 150]). decide_closed. Defined.

Lemma hostile_packets_are_safe_witness :
  let '(receipts, p') := ingest_all [lit "junk"; demo_packet; demo_packet] demo_client in
  wf_protocol p' ∧ snd (ingest_packet demo_packet p') ≠ Panic ∧
  NoDup (packet_counter <$> receipts) ∧
  StronglySorted Z.lt (latest_remote_state demo_client :: delivered_numbers receipts) ∧
  latest_remote_state p' = default (latest_remote_state demo_client) (last (delivered_numbers receipts)).
Proof.
  apply (hostile_packets_are_safe demo_key demo_client [lit "junk"; demo_packet; demo_packet] demo_packet).
  apply demo_client_reach.
Defined.

Lemma delivery_is_a_diff_witness :
  let '(p', r) := ingest_packet demo_packet demo_client in delivery demo_client p' (advanced_state r).
Proof. apply (delivery_is_a_diff demo_key demo_client demo_packet), demo_client_reach. Defined.

Lemma builders_are_safe_witness :
  (∃ spec, sent_history spec (sent_states demo_client) (local_instructions demo_client)) ∧
  (local_shutdown_sent demo_client = false → snd (build_update 5 demo_batch demo_client) ≠ Panic) ∧
  snd (build_shutdown 5 demo_batch demo_client) ≠ Panic ∧
  snd (build_shutdown_ack 5 demo_client) ≠ Panic ∧
  snd (build_acknowledgement 5 demo_client) ≠ Panic ∧ snd (retransmit_pending 5 demo_client) ≠ Panic.
Proof.
  apply (builders_are_safe demo_key demo_client 5 demo_batch); [apply demo_client_reach | done].
Defined.

Definition demo_built : ClientProtocol * outcome SessionError (list bytes) :=
  build_update 5 demo_batch demo_client.
Definition demo_packets : list bytes :=
  match snd demo_built with Ok packets => packets | _ => [] end.

Lemma built_update_reaches_server_witness :
  let u := update_for 0 1 0 0 (encode_bytes demo_batch) [] in
  ∃ frs compressed, (server_fragment demo_key) <$> demo_packets = Some <$> frs ∧
    (∀ l f, l ⊆ frs → f ∈ frs → frs ⊆ l ++ [f] →
       snd (push f (push_all (accumulator_new 1 MAXIMUM_REASSEMBLED_BYTES) l))
       = Ok (Some compressed)) ∧
    decode_compressed_update compressed = Ok u ∧ decode_instructions u = Ok demo_batch.
Proof.
  apply (built_update_reaches_server demo_key demo_client (fst demo_built) demo_spec 5 demo_batch demo_packets).
  - eapply protocol_reach_wf, demo_client_reach.
  - apply demo_client_sent.
  - split_and!; [done|done| |done|done]. intros n [= <-]. decide_closed.
  - decide_closed.
  - done.
  - done.
  - split; decide_closed.
  - split; decide_closed.
  - vm_compute. discriminate.
  - intros c [= <-]. vm_compute. discriminate.
  - vm_compute. reflexivity.
Defined.
