(* ===== verification/Scenarios.v ===== *)
(** * Scenarios of the host side

    Concrete runs of the session runtime over the instances of [Reference.v]: they
    show the theorems of the host-side components at work, and the behaviours
    the development reports. *)
From Stdlib Require Import Sorted.
From S2P Require Import Prelude Emulators TextTerminal Message.
From S2P Require Import Fragment Crypto State Session Runtime.
From S2P Require Import Ssp Uplink Arrival Downlink.
From S2P Require Import Reference.
Local Open Scope Z_scope.

(** ** The session runtime *)
Definition demo_runtime : SessionRuntime := {|
  protocol := demo_client;
  queued_instructions := [];
  queued_input_bytes := 0;
  last_send := None;
  last_receive := 0;
  retransmit_milliseconds := 1000;
  smoothed_round_trip_milliseconds := None;
  round_trip_variation_milliseconds := 0;
  association := Due;
  acknowledgement_due := false;
  received_server_state := false;
  round_trip_milliseconds := None;
  connection_state := Connecting;
  lifecycle := Running;
  udp_binding_generation := 0;
  shutdown := Open;
  peer_shutdown_acknowledgement_due := false;
|}.

Lemma demo_runtime_reach : runtime_reach demo_key demo_runtime.
Proof. apply (reach_start demo_key 0). reflexivity. Qed.

Lemma demo_calls_reach l :
  Forall (λ c, match c with CallPoll _ | CallQueueResize _ _ | CallQueueEvent _ => False | _ => True end) l →
  ∀ rt, runtime_reach demo_key rt → runtime_reach demo_key (snd (calls l rt)).
Proof.
  intros Hl. induction Hl as [|c l Hc Hl IH]; intros rt Hr; [done|]. cbn [calls].
  assert (runtime_reach demo_key (fst (call c rt))) as Hr' by (apply reach_call; [done|by destruct c]).
  destruct (call c rt) as [rt1 r]. specialize (IH rt1 Hr'). by destruct (calls l rt1).
Qed.

Lemma demo_poll_reach now rt :
  runtime_reach demo_key rt → (len (queued_instructions rt) <? 2 ^ 64) = true →
  runtime_reach demo_key (fst (poll now rt)).
Proof. intros Hr Hl. apply (reach_call demo_key (CallPoll now)); [done|]. by apply Z.ltb_lt. Qed.

(** A packet of the server with the given update. *)
Definition server_packets (u : StateUpdate) (nonce : Z) : list bytes :=
  match encode_compressed_update u with
  | Ok c =>
      match snd (seal_fragments c 7 None (target_state u)
                  ((SecureChannel_new Server demo_key) <| next_counter := Some nonce |>)) with
      | Ok packets => packets
      | _ => []
      end
  | _ => []
  end.

Definition server_packet (u : StateUpdate) (nonce : Z) : bytes := default [] (head (server_packets u nonce)).

Definition demo_state : bytes :=
  server_packet (update_for 0 1 0 0 (encode_bytes (text_batch "hi")) []) 0.

Lemma runtime_invariant_witness :
  let rt := snd (calls [CallQueueInput (lit "ls"); CallReceive demo_state 40] demo_runtime) in
  let '(rt', r) := call (CallPoll 50) rt in
  r ≠ Panic ∧ protocol_reach demo_key (protocol rt') ∧
  len (sent_states (protocol rt')) ≤ 2 ∧
  queued_input_bytes rt' = queue_bytes (queued_instructions rt') ∧
  queued_input_bytes rt' ≤ MAXIMUM_QUEUED_INPUT_BYTES ∧
  250 ≤ retransmit_milliseconds rt' ≤ 10000 ∧
  (∀ t n, shutdown rt' = LocalRequested t n → 0 ≤ n ≤ SHUTDOWN_RETRY_LIMIT) ∧
  (shutdown rt' = PeerRequested → peer_shutdown_acknowledgement_due rt' = true).
Proof.
  apply (runtime_invariant demo_key
    (snd (calls [CallQueueInput (lit "ls"); CallReceive demo_state 40] demo_runtime)) (CallPoll 50)).
  - apply demo_calls_reach; [by repeat constructor|apply demo_runtime_reach].
  - vm_compute. reflexivity.
Defined.

(** The association is sent, then the session idles. *)
Definition demo_idle : SessionRuntime := fst (poll 100 demo_runtime).

Lemma next_poll_exact_witness :
  milliseconds_until_next_poll demo_idle 300 = 800 ∧
  (let '(rt', r) := poll 1000 demo_idle in
   ∃ acts, r = Ok acts ∧ quiet acts ∧ protocol rt' = protocol demo_idle) ∧
  snd (poll 1100 demo_idle) ≠ Ok [].
Proof.
  split; [vm_compute; reflexivity|]. split.
  - apply (next_poll_exact demo_idle 300 1000); [decide_closed|]. vm_compute. reflexivity.
  - apply (next_poll_exact demo_idle 300 1100); [decide_closed| | |vm_compute; reflexivity
      |vm_compute; reflexivity|left; vm_compute; reflexivity].
    + decide_closed.
    + split; [intros t [= <-]; decide_closed|]. intros t n. vm_compute. intros [=].
Defined.

(** The local shutdown, never acknowledged. *)
Definition demo_closing : SessionRuntime :=
  fst (poll 210 (fst (request_shutdown 200 demo_idle))).

Lemma demo_closing_reach : runtime_reach demo_key demo_closing.
Proof.
  apply demo_poll_reach; [|vm_compute; reflexivity].
  apply (reach_call demo_key (CallShutdown 200)); [|done].
  apply demo_poll_reach; [apply demo_runtime_reach|vm_compute; reflexivity].
Qed.

Lemma shutdown_bounded_witness :
  let '(rt', r) := poll 10210 demo_closing in
  (∀ acts, r = Ok acts → ∃ o, shutdown rt' = Complete o ∧ ShutdownComplete o ∈ acts ∧
     ∀ l, shutdown (snd (calls l rt')) = Complete o) ∧
  (peer_shutdown_acknowledgement_due demo_closing = false → is_ok r = true).
Proof.
  apply (shutdown_bounded demo_key demo_closing 10210 demo_closing_reach);
    [vm_compute; reflexivity..| |].
  - intros t n. vm_compute. intros [= <- _]. intros [=].
  - intros t. vm_compute. intros [= <-]. intros [=].
Defined.

Lemma stopped_runtime_silent_witness :
  let rt := fst (cancel demo_closing) in
  let '(rs, rt') := calls [CallPoll 300; CallQueueInput (lit "x"); CallResume 400; CallPoll 99999] rt in
  Forall quiet_result rs ∧
  (lifecycle rt = Cancelled → lifecycle rt' = Cancelled ∧
     queued_instructions rt' = queued_instructions rt).
Proof.
  apply (stopped_runtime_silent (fst (cancel demo_closing))
    [CallPoll 300; CallQueueInput (lit "x"); CallResume 400; CallPoll 99999]).
  left. vm_compute. reflexivity.
Defined.

Definition demo_diff : InstructionBatch :=
  mkInstructionBatch [mkInstruction (Some (mkByteRun (lit "hi"))) None None None].


Example demo_state_is_delivered :
  option_map host_effects
    (match snd (receive_datagram demo_state 40 demo_runtime) with Ok acts => Some acts | _ => None end)
  = Some [WriteTerminal (lit "hi")].
Proof. vm_compute. reflexivity. Qed.

Definition demo_events : list TerminalInputEvent :=
  [InputBytes (lit "a"); InputResize 90 20; InputResize 100 30; InputBytes (lit "b")].

Lemma queue_coalesces_resizes_witness :
  (let '(rs, rt') := queue_events demo_events demo_runtime in
   Forall (λ r, r = Ok tt) rs ∧
   queued_instructions rt' =
     [input_instruction (lit "a"); resize_instruction 100 30; input_instruction (lit "b")] ∧
   queued_input_bytes rt' = 2) ∧
  ∀ input, MAXIMUM_QUEUED_INPUT_BYTES < len input →
    queue_terminal_event (InputBytes input) demo_runtime = (demo_runtime, Err InputQueueFull).
Proof.
  pose proof (queue_coalesces_resizes demo_key demo_runtime demo_events [] demo_runtime_reach) as Hq.
  destruct Hq as [Hq Hfull]; [reflexivity|decide_closed|reflexivity|].
  split; [|exact Hfull]. apply Hq. decide_closed.
Defined.

Lemma round_trip_estimate_converges_witness :
  let rt' := samples (Z.to_nat 60001) 120 demo_runtime in
  ∃ s, smoothed_round_trip_milliseconds rt' = Some s ∧ 120 - 7 ≤ s ≤ 120 ∧
    clamp 250 10000 (120 - 7) ≤ retransmit_milliseconds rt' ≤ clamp 250 10000 (120 + 28).
Proof.
  apply (round_trip_estimate_converges demo_key demo_runtime 120 (Z.to_nat 60001) demo_runtime_reach).
  - lia.
  - rewrite Z2Nat.id; lia.
Defined.

(** Typing, a resize, a state of the server that acknowledges the first input, more
    typing, and a retransmission. *)
Definition demo_acknowledgement : bytes :=
  server_packet (update_for 0 1 1 0 (encode_bytes (text_batch "hi")) []) 0.

Definition demo_typed_run : list HostCall :=
  [CallQueueInput (lit "ls"); CallQueueResize 90 20; CallQueueResize 100 30; CallPoll 10;
   CallReceive demo_acknowledgement 60; CallQueueInput (lit "x"); CallPoll 100; CallPoll 2000].

Lemma typed_input_arrives_once_witness :
  calls_fit demo_typed_run demo_runtime ∧
  let '(rs, rt) := calls demo_typed_run demo_runtime in
  len (mjoin (datagrams <$> rs)) = 4 ∧ latest_local_state (protocol rt) = 2 ∧
  ∃ msgs given,
    mjoin (datagrams <$> rs) = mjoin msgs.*1 ∧
    Forall (λ m, sealed_as demo_key m.1 (target_state m.2) m.2) msgs ∧
    typed given = [input_instruction (lit "ls"); input_instruction (lit "x")] ∧
    (∀ k content, holds add_input msgs.*2 k content →
       content `prefix_of` given ∧ (k = 2 → content = given) ∧
       ∀ content', holds add_input msgs.*2 k content' → content' = content).
Proof.
  assert (Hfit : calls_fit demo_typed_run demo_runtime).
  { unfold demo_typed_run, calls_fit, call_fits, call_ok, fits. split_and!; try decide_closed. }
  split; [exact Hfit|].
  generalize (typed_input_arrives_once demo_key 0 demo_runtime demo_typed_run eq_refl Hfit).
  assert (Hc : match calls demo_typed_run demo_runtime with
    (rs, rt) => len (mjoin (datagrams <$> rs)) = 4 ∧ latest_local_state (protocol rt) = 2 ∧
      queued_instructions rt = [] end) by (vm_compute; split_and!; reflexivity).
  assert (Ha : typed (accepted_input demo_typed_run demo_runtime) =
    [input_instruction (lit "ls"); input_instruction (lit "x")] ∧
    all_keep_input demo_typed_run demo_runtime = true) by (split; vm_compute; reflexivity).
  destruct (calls demo_typed_run demo_runtime) as [rs rt]. destruct Hc as (? & Hlast & Hq).
  destruct Ha as [Htyped Hkeep]. intros (msgs & given & Hd & Hsealed & Hh & [_ Ht _] & _).
  split_and!; [done..|]. exists msgs, given.
  split_and!; [done|eapply Forall_impl; [exact Hsealed|by intros m []]| |by rewrite Hlast in Hh].
  rewrite Hq, app_nil_r, Htyped in Ht. by apply Ht.
Defined.

(** A server that has written "hi", " there" and "!" in its first three states. *)
Definition demo_log (k : Z) : list event :=
  EByte <$> (if k <=? 0 then [] else if k =? 1 then lit "hi" else if k =? 2 then lit "hi there"
             else lit "hi there!").

Lemma demo_log_grows : append_only demo_log.
Proof.
  intros j k Hjk. unfold demo_log.
  repeat match goal with
  | |- context [?a <=? ?b] => destruct (Z.leb_spec a b)
  | |- context [?a =? ?b] => destruct (Z.eqb_spec a b)
  end; try lia; apply (bool_decide_unpack _); vm_compute; exact I.
Qed.

(** Its states 2, on a base that is not held yet, 1, 1 again, and 2 from the start. *)
Definition demo_write (base target : Z) (text : string) (nonce : Z) : bytes :=
  server_packet (update_for base target 0 0 (encode_bytes (text_batch text)) []) nonce.

Definition demo_shown_run : list HostCall :=
  [CallReceive (demo_write 1 2 " there" 1) 10; CallReceive (demo_write 0 1 "hi" 0) 20;
   CallReceive (demo_write 0 1 "hi" 2) 30; CallReceiveLossy (lit "forged") 40;
   CallQueueResize 90 30; CallReceive (demo_write 0 2 "hi there" 3) 50; CallPoll 60].

Lemma server_output_shown_once_witness :
  let '(rs, rt) := calls demo_shown_run demo_runtime in
  mjoin (shown <$> rs) = EByte <$> lit "hi there" ∧
  let '(rt', r) := receive_datagram (demo_write 2 3 "!" 4) 70 rt in
  is_ok r = true ∧ mjoin (shown <$> rs) ++ shown r = EByte <$> lit "hi there!".
Proof.
  assert (Hfit : calls_fit demo_shown_run demo_runtime).
  { unfold demo_shown_run, calls_fit, call_fits, call_ok, fits. split_and!; try decide_closed. }
  assert (Hall : all_faithful demo_log demo_shown_run demo_runtime)
    by (apply (proj1 (all_faithfulb_spec _ _ _)); vm_compute; reflexivity).
  generalize (server_output_shown_once demo_key 0 demo_runtime demo_log demo_shown_run eq_refl eq_refl
    demo_log_grows Hfit Hall).
  assert (Hnext : match calls demo_shown_run demo_runtime with (_, rt) =>
    lifecycle rt = Running ∧ latest_remote_state (protocol rt) = 2 ∧
    match arriving (demo_write 2 3 "!" 4) (protocol rt) with
    | Some u => faithfulb demo_log (protocol rt) u = true ∧ currentb (protocol rt) u = true ∧
        target_state u = 3
    | None => False
    end end) by (vm_compute; split_and!; reflexivity).
  revert Hnext. generalize (demo_write 2 3 "!" 4). intros packet.
  destruct (calls demo_shown_run demo_runtime) as [rs rt]. cbv zeta. intros Hnext (Hout & _ & _ & Hprog).
  destruct Hnext as (Hrun & Hlatest & Hnext). rewrite Hlatest in Hout. split; [exact Hout|].
  destruct (arriving packet (protocol rt)) as [u|] eqn:Hu; [|done]. destruct Hnext as (Hf & Hc & Ht).
  generalize (Hprog _ 70 u Hrun Hu (proj1 (faithfulb_spec _ _ _) Hf) (proj1 (currentb_spec _ _) Hc)).
  rewrite Ht. by destruct (receive_datagram packet 70 rt).
Defined.

(** The fragments of a message carry the number of its target state, which the
    retransmission of a state shares although its content differs (it acknowledges what has
    arrived since). A receiver that has the first fragment of one and the last of the other
    puts together a message that was never sent. *)
Definition demo_resent : list (list Fragment) :=
  (λ r, omap (server_fragment demo_key) (datagrams r)) <$>
    fst (calls [CallPoll 5; CallQueueInput ((λ i, 97 + i mod 26) <$> seqZ 0 1500); CallPoll 10;
                CallReceive demo_state 60; CallPoll 2000] demo_runtime).

Example retransmissions_share_fragment_numbers :
  match demo_resent with
  | [_; _; [first; last]; _; [first'; last']] =>
      (state_id (header first) =? state_id (header last'))
      && match push last' (fst (push first (accumulator_new (state_id (header first)) MAXIMUM_REASSEMBLED_BYTES))) with
         | (_, Ok (Some message)) =>
             negb (bool_decide (message ∈ [body first ++ body last; body first' ++ body last']))
         | _ => false
         end
  | _ => false
  end = true.
Proof. vm_compute. reflexivity. Qed.

(** A shutdown of the server on a base the client does not have does not advance
    the remote state; the next poll completes the shutdown as the peer's
    request all the same, with an acknowledgement of state 0. *)
Definition demo_lost_shutdown : bytes := server_packet (update_for 5 u64_max 0 0 [] []) 0.

Example peer_shutdown_without_base :
  let rt := snd (calls [CallReceive demo_lost_shutdown 120] demo_idle) in
  latest_remote_state (protocol rt) = 0 ∧
  shutdown (fst (poll 1200 rt)) = Complete OutcomePeerRequested.
Proof. vm_compute. split; reflexivity. Qed.

(** After the local shutdown timed out, the peer's shutdown keeps [poll] from
    completing while [milliseconds_until_next_poll] says that it is due. *)
Example timed_out_peer_shutdown_spins :
  let rt := snd (calls [CallPoll 9500; CallReceive demo_lost_shutdown 10300] demo_closing) in
  milliseconds_until_next_poll rt 10300 = 0 ∧ snd (poll 10300 rt) = Ok [].
Proof. vm_compute. split; reflexivity. Qed.
