(* ===== verification/ClientScenarios.v ===== *)
(** * Scenarios of the client

    Concrete runs of the client over the instances of [Reference.v] and
    [TextTerminal.v]: the witnesses of the theorems about the event loop and the process,
    and the behaviours of the client that the development reports. *)
From S2P Require Import Prelude Emulators TextTerminal Utf8 Message Crypto Session Runtime Predict.
From S2P Require Import TitleFilter Input Modes Guard Cli Diagnostics Client ClientSafety Typing SessionEnd Drawing Arrival Downlink Main.
From S2P Require Import Reference Scenarios.
Local Open Scope Z_scope.

Example demo_key_decoded : SessionKey_decode (lit "AAECAwQFBgcICQoLDA0ODw") = Ok demo_key.
Proof. vm_compute. reflexivity. Qed.

(** ** A session from the command line to the exit status *)

(** Errors of the operating system are numbered. *)
Definition key_event (c : Z) : Event := EventKey Press (mkKeyEvent (KeyCode.Char c) (mkKeyModifiers false false false)).

Definition demo_environment (name : string) : option bytes :=
  if bool_decide (name = "MOSH_KEY"%string) then Some (lit "AAECAwQFBgcICQoLDA0ODw")
  else if bool_decide (name = "LANG"%string) then Some (lit "en_US.UTF-8") else None.

Definition demo_os : os (io_error:=Z) := {|
  arguments := [lit "ferrumtty"; lit "::1"; lit "60001"];
  environment := demo_environment;
  stdin_is_terminal := true;
  stdout_is_terminal := true;
  available_color_count := 0;
  to_socket_addrs := λ _, Ok [mkAddress (Some 97) None None; mkAddress None None None];
  signal_failures := [None; None];
  console_at_entry := Ok (80, 24);
  console_after_entry := Ok (80, 24);
  readings := [0; 1; 2; 40; 41; 60; 400; 401; 420];
  datagrams := [Datagram demo_state; WouldBlock; WouldBlock; WouldBlock; ConnectionRefused 111];
  failing_sends := [];
  input_events := [Ready (key_event 108); NotReady; Ready (key_event 115); NotReady];
  termination_signals := [];
  failing_suspensions := [];
|}.

Definition demo_world : world (io_error:=Z) := mkWorld (mkTty [] []) (mkStream [] []) (mkStream [] []).

Lemma demo_os_ok : os_ok demo_os.
Proof.
  split; [by vm_compute|by vm_compute|by intros e|by repeat constructor|]. vm_compute. reflexivity.
Qed.

Lemma process_ends_clean_witness :
  let '(w, r) := main (lit "0.1") demo_os (λ e, decimal e) (λ _, []) 4 demo_world in
  r = Ok (Some 0) ∧ head (attempts (console w)) = Some (EnableRawMode, None) ∧
  disabled (attempts (console w)).
Proof.
  pose proof (process_ends_clean (lit "0.1") demo_os (λ e, decimal e) (λ _, []) 4 demo_world) as Hmain.
  specialize (Hmain demo_os_ok eq_refl). revert Hmain.
  assert (Hr : (main (lit "0.1") demo_os (λ e, decimal e) (λ _, []) 4 demo_world).2 = Ok (Some 0))
    by (vm_compute; reflexivity).
  assert (Hraw : head (attempts (console (main (lit "0.1") demo_os (λ e, decimal e) (λ _, []) 4 demo_world).1))
    = Some (EnableRawMode, None)) by (vm_compute; reflexivity).
  destruct (main _ _ _ _ _ _) as [w r]. cbn [fst snd] in Hr, Hraw. subst r. intros [Hoff _]. by split_and!.
Defined.

(** The same session with all diagnostics, on a standard error that fails at the fifth line:
    the client panics in the middle of the session, and the guard is dropped. *)
Definition demo_verbose_os : os (io_error:=Z) := {|
  arguments := [lit "ferrumtty"; lit "-vvv"; lit "::1"; lit "60001"];
  environment := demo_environment;
  stdin_is_terminal := true;
  stdout_is_terminal := true;
  available_color_count := 0;
  to_socket_addrs := to_socket_addrs demo_os;
  signal_failures := [];
  console_at_entry := Ok (80, 24);
  console_after_entry := Ok (80, 24);
  readings := readings demo_os;
  datagrams := datagrams demo_os;
  failing_sends := [];
  input_events := input_events demo_os;
  termination_signals := [];
  failing_suspensions := [];
|}.

Example failed_print_restores_terminal :
  let '(w, r) := main (lit "0.1") demo_verbose_os (λ e, decimal e) (λ _, []) 4
    (mkWorld (mkTty [] []) (mkStream [] []) (mkStream [false; false; false; false; true] [])) in
  r = Panic ∧ length (printed (stderr w)) = 4%nat ∧ last (attempts (console w)) = Some (DisableRawMode, None) ∧
  raw_after false (attempts (console w)) = false.
Proof. vm_compute. split_and!; reflexivity. Qed.

(** A terminal that refuses to leave raw mode stays in it, and nothing reports it: the guard
    is dropped with its errors ignored. *)
Example refused_restoration_is_silent :
  let '(w, r) := main (lit "0.1") demo_os (λ e, decimal e) (λ _, []) 4
    (mkWorld (mkTty (repeat None 18 ++ [Some 5]) []) (mkStream [] []) (mkStream [] [])) in
  r = Ok (Some 0) ∧ raw_after false (attempts (console w)) = true ∧ printed (stderr w) = [].
Proof. vm_compute. split_and!; reflexivity. Qed.

(** ** Clients in the middle of a session *)
Definition demo_guard : TerminalGuard := {|
  authoritative := screen_new 80 24;
  title_output := filter_new MoshPrefix;
  alternate_screen_active := true;
  session_terminal_active := true;
  local_notice_active := false;
|}.

Definition demo_session (rt : SessionRuntime) (clock : list Z) (incoming : list (received (io_error:=Z))) : Client := {|
  Client.runtime := rt;
  Client.terminal := (demo_guard, mkTty [] []);
  Client.predictor := overlay_new Adaptive false;
  Client.escape := escape_new 30;
  Client.logger := logger_new 0;
  Client.previous_poll := 0;
  Client.incoming := incoming;
  Client.send_outcomes := [];
  Client.sent := [];
  Client.events := [];
  Client.clock := clock;
  Client.termination_requested := [];
  Client.suspensions := [];
  Client.logged := mkStream [] [];
  Client.slept := [];
|}.

(** The prefix typed and then a paste, which gives the prefix up; the window is resized
    twice; the prefix and a dot quit, and what follows is not read. *)
Definition demo_typing : list Event :=
  [key_event 108; EventPaste (lit "x"); EventResize 90 30; EventResize 91 30;
   EventKey Press (mkKeyEvent KeyCode.Enter (mkKeyModifiers false false false));
   EventKey Press (mkKeyEvent (KeyCode.Char 94) (mkKeyModifiers false false true)); key_event 46; key_event 113].

(** The emulator has bracketed paste on. *)
Definition demo_paste : bytes := [27] ++ lit "[200~x" ++ [27] ++ lit "[201~".

Lemma demo_typing_ok : Forall (λ event, event_ok (Ready (io_error:=Z) event)) demo_typing.
Proof. unfold demo_typing. repeat (apply Forall_cons_2; [by vm_compute|]). apply Forall_nil_2. Qed.

Lemma typed_input_is_queued_witness :
  let '(c, r) := drain_events [] (ready_now demo_typing (Some [Ready (key_event 120)])) (demo_session demo_runtime [] []) in
  r = Ok true ∧
  queued_instructions (Client.runtime c) =
    [input_instruction (lit "l"); input_instruction demo_paste; resize_instruction 91 30; input_instruction [13]].
Proof.
  assert (Hspec : typed_events (authoritative (fst (Client.terminal (demo_session demo_runtime [] []))))
      (Client.escape (demo_session demo_runtime [] [])) demo_typing
    = ([InputBytes (lit "l"); InputBytes demo_paste; InputResize 90 30; InputResize 91 30; InputBytes [13]], true))
    by (vm_compute; reflexivity).
  assert (Hresult : is_ok (drain_events [] (ready_now demo_typing (Some [Ready (key_event 120)])) (demo_session demo_runtime [] [])).2 = true)
    by (vm_compute; reflexivity).
  generalize (typed_input_is_queued demo_key [] demo_typing (Some [Ready (key_event 120)]) (demo_session demo_runtime [] [])
    demo_runtime_reach eq_refl demo_typing_ok). rewrite Hspec. revert Hresult. clear Hspec.
  generalize (drain_events [] (ready_now demo_typing (Some [Ready (key_event 120)])) (demo_session demo_runtime [] [])). intros [c r] Hresult.
  intros (sent & unsent & Htyped & Hq & _ & Hr).
  destruct r as [q|e|]; [|done..]. destruct Hr as [-> ->]. rewrite app_nil_r in Htyped. subst sent.
  split; [reflexivity|]. rewrite Hq. reflexivity.
Defined.

(** A datagram that the network duplicates ends the session. *)
Definition demo_duplicated : Client := demo_session demo_runtime [] [Datagram demo_state; Datagram demo_state].

Lemma network_drained_witness :
  ∃ refusal, (drain_network 40 demo_duplicated).2 = Err (format_runtime_error refusal) ∧
    ∃ n packet rt, arrived (incoming demo_duplicated) !! n = Some packet ∧
      (receive_datagram packet 40 rt).2 = Err refusal.
Proof.
  assert (Hr : ∃ refusal, (drain_network 40 demo_duplicated).2
    = Err (mkClientError ProtocolFailed (RuntimeCause refusal))) by (eexists; vm_compute; reflexivity).
  generalize (network_drained demo_key 40 demo_duplicated demo_runtime_reach). cbv zeta. revert Hr.
  generalize (drain_network 40 demo_duplicated). intros [c r] [refusal Hr]. cbn [snd] in Hr. subst r.
  intros [[io [=]]|(n & packet & refusal' & Hn & Hd)]. exists refusal'.
  destruct (calls _ _) as [rs rt]. destruct Hd as (_ & Hrec & Hd). cbn [snd]. rewrite Hd. split; [reflexivity|].
  exists n, packet, rt. by rewrite Hrec.
Defined.

(** Two datagrams of the server of [demo_log]; the second one repeats the text of the first. *)
Definition demo_watching : Client := demo_session demo_runtime []
  [Datagram (demo_write 0 1 "hi" 0); Datagram (demo_write 0 2 "hi there" 1); WouldBlock].

Lemma server_output_is_drawn_witness :
  let '(c, r) := drain_network 40 demo_watching in
  is_ok r = true ∧ screen_of c = screen_process (lit "hi there") (screen_of demo_watching).
Proof.
  assert (Hall : all_faithful demo_log ([] ++ receive_calls 40 (arrived (Client.incoming demo_watching))) demo_runtime)
    by (apply (proj1 (all_faithfulb_spec _ _ _)); vm_compute; reflexivity).
  assert (Hrun : is_ok (drain_network 40 demo_watching).2 = true ∧
    latest_remote_state (protocol (Client.runtime (drain_network 40 demo_watching).1)) = 2)
    by (vm_compute; split; reflexivity).
  generalize (server_output_is_drawn demo_key 0 demo_runtime demo_log [] 40 demo_watching
    eq_refl eq_refl demo_log_grows eq_refl I Hall).
  revert Hrun. generalize (drain_network 40 demo_watching). intros [c r] [Hok Hl] Hd. cbn [fst snd] in *.
  split; [exact Hok|]. destruct (Hd Hok) as (new & Hlog & Hs). rewrite Hl in Hlog. cbn in Hlog. subst new.
  rewrite Hs. reflexivity.
Defined.

Lemma overdue_shutdown_ends_client_witness :
  (iteration [] (demo_session demo_closing [10210; 10211] [WouldBlock])).2 = Ok (Some false).
Proof.
  assert (Hr : is_ok (iteration [] (demo_session demo_closing [10210; 10211] [WouldBlock])).2 = true)
    by (vm_compute; reflexivity).
  assert (Hout : shutdown_outcome (Client.runtime
    (iteration [] (demo_session demo_closing [10210; 10211] [WouldBlock])).1) = Some TimedOut)
    by (vm_compute; reflexivity).
  assert (Hsilent : received_server_state (Client.runtime
    (iteration [] (demo_session demo_closing [10210; 10211] [WouldBlock])).1) = false)
    by (vm_compute; reflexivity).
  assert (Hstart : ∀ t n, shutdown demo_closing = LocalRequested t n → t + SHUTDOWN_TIMEOUT_MILLISECONDS ≤ 10210)
    by (intros t n; vm_compute; intros [= <- _]; discriminate).
  assert (Hsend : ∀ t, last_send demo_closing = Some t → t + MAXIMUM_RETRANSMIT_MILLISECONDS ≤ 10210)
    by (intros t; vm_compute; intros [= <-]; discriminate).
  generalize (overdue_shutdown_ends_client demo_key [] 10210 [10211]
    (demo_session demo_closing [10210; 10211] [WouldBlock]) demo_closing_reach eq_refl eq_refl eq_refl
    Hstart Hsend eq_refl).
  revert Hr Hout Hsilent. generalize (iteration [] (demo_session demo_closing [10210; 10211] [WouldBlock])).
  intros [c r]. cbn [fst snd]. intros Hr Hout Hsilent [Hnone Hclean]. destruct r as [[clean|]|e|]; [|done..].
  destruct (Hclean clean eq_refl) as [(o & Ho & ->)|[Hreceived _]]; [|congruence].
  rewrite Hout in Ho. by injection Ho as <-.
Defined.
