(* ===== verification/HostingScenarios.v ===== *)
(** * Scenarios of a whole session

    The witnesses of the theorems of Hosting.v: the session of [demo_os] of
    ClientScenarios.v, in which the user types two keys, the second one in a
    later iteration, while the server writes "hi". *)
From S2P Require Import Main.
From S2P Require Import Prelude Emulators TextTerminal Utf8 Fragment Message Crypto State Session Runtime.
From S2P Require Import Ssp Uplink Arrival Downlink Predict.
From S2P Require Import TitleFilter Input Modes Guard Cli Diagnostics Client ClientSafety Typing SessionEnd Drawing.
From S2P Require Import Hosting Reference Scenarios ClientScenarios.
Local Open Scope Z_scope.

Definition demo_config : ClientConfig := {|
  endpoint := lit "[::1]:60001";
  verbosity := 0;
  config_escape_byte := 30;
  title_no_prefix := false;
  prediction_display := Adaptive;
  prediction_overwrite := false;
|}.

Definition demo_whole : Client (io_error:=Z) * outcome (ClientError (io_error:=Z)) (option bool) :=
  Main.session demo_os demo_config 4 (client_of demo_os demo_config demo_runtime demo_guard (mkTty [] []) (mkStream [] [])).

Lemma demo_whole_ends :
  snd demo_whole = Ok (Some true) ∧ Client.events (fst demo_whole) = [] ∧
  queued_instructions (Client.runtime (fst demo_whole)) = [input_instruction (lit "s")] ∧
  latest_remote_state (protocol (Client.runtime (fst demo_whole))) = 1 ∧
  incoming (fst demo_whole) = [].
Proof. vm_compute. split_and!; reflexivity. Qed.

(** The keys mean the same under any modes. *)
Lemma demo_heard polls read typed prefix :
  input_events demo_os = polls → polled polls read → heard (escape_new 30) read typed prefix →
  event_instruction <$> typed = [input_instruction (lit "l"); input_instruction (lit "s")].
Proof.
  intros <- [_ Hr] Hh. assert (read = [key_event 108; key_event 115]) as -> by (rewrite <- Hr; reflexivity).
  inversion Hh as [|s1 p1 e1 t1 q1 p1' l1 r1 p1'' Ht1 Hh1]; subst.
  inversion Hh1 as [|s2 p2 e2 t2 q2 p2' l2 r2 p2'' Ht2 Hh2]; subst.
  inversion Hh2; subst. cbn in Ht1. injection Ht1 as <- <- <-. cbn in Ht2. injection Ht2 as <- <- <-. reflexivity.
Qed.

Lemma session_input_reaches_server_witness :
  ∃ msgs given, sent (fst demo_whole) = mjoin msgs.*1 ∧
    Arrival.typed given ++ [input_instruction (lit "s")] = [input_instruction (lit "l"); input_instruction (lit "s")] ∧
    (∀ content, Ssp.holds add_input msgs.*2
      (latest_local_state (protocol (Client.runtime (fst demo_whole)))) content → content = given).
Proof.
  pose proof demo_whole_ends as Hends.
  pose proof (session_input_reaches_server demo_os demo_config demo_key 0 demo_runtime demo_guard (mkTty [] []) (mkStream [] []) 4
    demo_os_ok eq_refl) as Hs.
  change (Main.session demo_os demo_config 4 _) with demo_whole in Hs.
  destruct demo_whole as [c r]. cbn [fst snd] in *. destruct Hends as (Hr & Hev & Hq & _ & _). subst r.
  destruct Hs as (msgs & given & _ & _ & Hholds & Hok).
  destruct (Hok eq_refl) as (Hsent & polls & read & typed & columns & rows & _ & Hread & Hpolled & Hheard & Hacc).
  exists msgs, given. split; [exact Hsent|]. split.
  - rewrite Hev, app_nil_r in Hread. pose proof (demo_heard polls read typed _ Hread Hpolled Hheard) as Ht.
    pose proof (acc_typed _ _ _ _ Hacc eq_refl) as Hty. rewrite Hq, Ht, Arrival.typed_app in Hty. exact Hty.
  - intros content Hc. destruct (Hholds _ content Hc) as [_ Hlast]. apply Hlast. reflexivity.
Defined.

(** ** A datagram that arrives while the client makes other calls *)
Section listening.
Context `{Vt100Laws} `{Vte} `{Aead} `{Prost} `{Zlib}.

(** What the reassembly of a packet reads, the channel apart, while nothing was received. *)
Definition same_reception (p0 p : ClientProtocol) : Prop :=
  replay_window p = replay_window p0 ∧ assemblies p = assemblies p0 ∧
  map_Forall (λ _ s, retained_bytes (State.history s) = 0 ∧ operation_count (State.history s) = 0) (received_states p).
Definition listens p0 (rt : SessionRuntime) : Prop := same_reception p0 (protocol rt).

#[local] Ltac keep_reception := keeping ltac:(intros; done).

Lemma builders_reception p0 ts batch :
  keeps (same_reception p0) (build_acknowledgement ts) ∧ keeps (same_reception p0) (build_update ts batch) ∧
  keeps (same_reception p0) (build_shutdown ts batch) ∧ keeps (same_reception p0) (build_shutdown_ack ts) ∧
  keeps (same_reception p0) (retransmit_pending ts).
Proof.
  unfold build_acknowledgement, build_update, build_shutdown, build_shutdown_ack, retransmit_pending.
  split_and!; keep_reception.
Qed.

Lemma on_protocol_listens {A} p0 (m : M ClientProtocol SessionError A) :
  keeps (same_reception p0) m → keeps (listens p0) (on_protocol m).
Proof. intros Hm rt Hr. rewrite on_protocol_eq. by apply Hm. Qed.

#[local] Ltac keep_listening :=
  keeping ltac:(intros; done);
  repeat match goal with
  | |- keeps (listens _) (on_protocol _) =>
      apply on_protocol_listens; first [by apply builders_reception | by apply (builders_reception _ _ (mkInstructionBatch []))]
  | |- keeps (listens _) (modM record_shutdown_transmission) =>
      apply keeps_mod; intros rt; unfold listens; by rewrite record_transmission_eq
  end.

Lemma quiet_call_listens p0 k : client_call k → call_packet k = None → keeps (listens p0) (call k).
Proof.
  destruct k as [e|value|c r|k pl|caps| | |now| |now|now|packet now|packet now|now]; try done; intros _ _; cbn [call].
  - unfold no_actions, queue_input, ensure_accepting_input, ensure_running, reserve_input. keep_listening.
  - intros rt Hr. rewrite <- (proj1 (no_actions_result _ _)), queue_resize_eq. destruct (refusal rt); [done|].
    destruct (set_initial_remote_viewport c r (protocol rt)) as [p|e|] eqn:Hp; [|done..]. revert Hr Hp.
    unfold listens, same_reception, set_initial_remote_viewport. cbn [fst]. intros (Hw & Ha & Hf).
    destruct (_ || _); [by intros [= <-]|]. destruct (terminal_new _ _) as [s|e|] eqn:Hs; [|by intros [= <-]..].
    rewrite (reached_clone s (reached_new _ _ s Hs)). cbn [map_err bind_ok]. intros [= <-]. cbn. split_and!; [done..|].
    apply map_Forall_insert_2; [|done]. unfold terminal_new in Hs.
    by apply bind_ok_Ok in Hs as (_ & _ & [= <-]).
  - unfold request_shutdown, ensure_running. keep_listening.
  - unfold no_actions, resume, resume_state. keep_listening.
  - unfold poll, poll_association, build_association, poll_rest, poll_queued, poll_pending, poll_idle.
    keep_listening.
Qed.

Lemma quiet_calls_listen p0 cs rt :
  Forall client_call cs → packets_of cs = [] → listens p0 rt → listens p0 (after cs rt).
Proof.
  intros Hcs. revert rt. induction Hcs as [|k cs Hk _ IH]; intros rt Hp Hr; [done|].
  unfold packets_of in Hp. cbn in Hp. destruct (call_packet k) eqn:E; [done|]. rewrite after_cons.
  apply IH; [exact Hp|]. by apply quiet_call_listens.
Qed.

Lemma quiet_faithful log cs rt : Forall client_call cs → packets_of cs = [] → all_faithful log cs rt.
Proof.
  intros Hcs. revert rt. induction Hcs as [|k cs Hk _ IH]; intros rt Hp; [done|].
  unfold packets_of in Hp. cbn in Hp. destruct (call_packet k) eqn:E; [done|]. split; [by destruct k|by apply IH].
Qed.

Lemma reassembled_same p0 p packet :
  open (secure_channel p) packet = open (secure_channel p0) packet → same_reception p0 p →
  snd (reassembled packet p) = snd (reassembled packet p0).
Proof.
  intros Ho (Hw & Ha & _). unfold reassembled, bindM, getM, modM, liftM, retM, errM. cbn beta iota. rewrite Ho, Hw.
  destruct (map_err SessionOpen _) as [auth|e|]; [|done..].
  destruct (replay_accept _ _) as [w [|]]; [|done]. cbn [negb]. destruct (ok_or _ _) as [th|e|]; [|done..].
  destruct (_ <? _); [done|]. destruct (map_err SessionFragment _) as [f|e|]; [|done..].
  cbn [assemblies]. change (assemblies (?q <| replay_window := _ |> <| latest_peer_timestamp := _ |>)) with (assemblies q).
  rewrite Ha. destruct (_ && _); [done|]. unfold push_fragment, zoomM. cbn -[push]. rewrite ?Ha.
  match goal with |- context [push f ?acc] => by destruct (push f acc) as [a [[z|]|e|]] end.
Qed.
End listening.

(** The update of [demo_state], which any call may precede. *)
Definition demo_update : StateUpdate := default (StateUpdate_new 0 0 0) (arriving demo_state demo_client).

Lemma demo_update_arrives : arriving demo_state demo_client = Some demo_update.
Proof. vm_compute. reflexivity. Qed.

Lemma demo_update_faithful p : same_reception demo_client p → faithful demo_log p demo_update.
Proof.
  intros (_ & _ & Hf).
  assert (∃ batch, decode_instructions demo_update = Ok batch ∧ base_state demo_update = 0 ∧
    target_state demo_update = 1 ∧ instructions batch = instructions (text_batch "hi")) as (batch & Hb & H0 & H1 & Hi)
    by (eexists; vm_compute; split_and!; reflexivity).
  split.
  - intros b Hb'. rewrite Hb in Hb'. injection Hb' as <-. rewrite H0, H1. unfold written. rewrite Hi.
    generalize (first_viewport p). intros vp. cbn. reflexivity.
  - intros s b Hs Hb'. rewrite Hb in Hb'. injection Hb' as <-. rewrite H0 in Hs.
    destruct (Hf 0 s Hs) as [Hret Hcount]. apply bool_decide_eq_true. unfold fits_limits. rewrite Hret, Hcount, Hi.
    generalize (st_viewport s). intros vp.
    change (batch_ops vp (instructions (text_batch "hi"))) with [HostBytes (lit "hi")].
    split; apply Z.leb_le; vm_compute; reflexivity.
Qed.

(** Only what the channel holds besides its packet counter decides what it opens. *)
Definition demo_channel (p : ClientProtocol) : Prop :=
  ∀ packet, open (secure_channel p) packet = open (secure_channel demo_client) packet.

Lemma demo_arrives cs rt :
  Forall client_call cs → packets_of cs = [demo_state] → listens demo_client rt →
  (∀ pre post, cs = pre ++ post → demo_channel (protocol (after pre rt))) → all_faithful demo_log cs rt.
Proof.
  intros Hcs. revert rt. induction Hcs as [|k cs Hk Hcs IH]; intros rt Hp Hl Hch; [done|].
  unfold packets_of in Hp. cbn in Hp. destruct (call_packet k) as [packet|] eqn:E.
  - injection Hp as -> Hp. destruct k; try done. injection E as ->. split; [|by apply quiet_faithful].
    cbn [arrives]. destruct (bool_decide _); [|done]. pose proof (Hch [] _ eq_refl demo_state) as Ho.
    pose proof (reassembled_same demo_client (protocol rt) demo_state Ho Hl) as Hr.
    pose proof demo_update_arrives as Hu. unfold arriving in *. rewrite Hr, Hu. by apply demo_update_faithful.
  - split; [by destruct k|]. apply IH; [exact Hp| |].
    + by apply quiet_call_listens.
    + intros pre post ->. specialize (Hch (k :: pre) post eq_refl). by rewrite after_cons in Hch.
Qed.

Lemma demo_channel_kept cs : calls_fit cs demo_runtime → demo_channel (protocol (after cs demo_runtime)).
Proof.
  intros Hfit packet. destruct (runtime_new_carrying demo_key 0 demo_runtime eq_refl) as [Hc Ha].
  pose proof (calls_carry demo_key cs [] [] demo_runtime [] true Hc Hfit Ha) as Hr. unfold after.
  destruct (calls cs demo_runtime) as [rs rt]. destruct Hr as (new & given & Hc' & _). cbn [snd].
  destruct (ca_uplink _ _ _ _ Hc') as (spec & log & Hg). destruct (sg_channel _ _ _ _ _ _ Hg) as (_ & _ & _ & Hi & Hd).
  unfold open. rewrite Hi, Hd. reflexivity.
Qed.

Lemma calls_fit_prefix pre post (rt : SessionRuntime) : calls_fit (pre ++ post) rt → calls_fit pre rt.
Proof.
  revert rt. induction pre as [|k pre IH]; intros rt; [done|]. cbn [calls_fit app]. intros []. split; [done|].
  by eapply IH.
Qed.

Lemma session_shows_server_output_witness :
  screen_of (fst demo_whole) = screen_process (lit "hi") (authoritative demo_guard).
Proof.
  pose proof demo_whole_ends as Hends.
  pose proof (session_shows_server_output demo_os demo_config demo_key 0 demo_runtime demo_guard (mkTty [] []) (mkStream [] []) 4
    demo_log demo_os_ok eq_refl eq_refl demo_log_grows) as Hs.
  change (Main.session demo_os demo_config 4 _) with demo_whole in Hs.
  destruct demo_whole as [c r]. cbn [fst snd] in *. destruct Hends as (Hr & Hev & _ & Hl & Hin). subst r.
  destruct Hs as (cs & Hcs & Hfit & _ & Hpackets & Hshow).
  assert (packets_of cs = [demo_state]) as Hp by (rewrite Hin, app_nil_r in Hpackets; by rewrite <- Hpackets).
  destruct Hshow as (ops & polls & read & typed & Hread & Hpolled & Hheard & Htext & Hsize & Hscreen); [|reflexivity|].
  - apply demo_arrives; [exact Hcs|exact Hp|split_and!; [reflexivity|reflexivity|decide_closed]|].
    intros pre post ->. by apply demo_channel_kept, (calls_fit_prefix _ post).
  - rewrite Hev, app_nil_r in Hread. pose proof (demo_heard polls read typed _ Hread Hpolled Hheard) as Ht.
    assert (omap input_window typed = []) as Hw.
    { destruct typed as [|[] [|[] [|e typed]]]; try discriminate Ht. reflexivity. }
    rewrite Hscreen, run_texts, Htext, Hl by congruence. reflexivity.
Defined.
