(* ===== verification/Conformance.v ===== *)
(** * Unit tests as definitions

    The unit tests of the crates, translated like the code they test: each is a definition
    of type [test], and an Example evaluates it on the instances of Reference.v. A failed
    assertion or [expect] is [None], a test that passes is [passed]. They tie the model to
    the behaviour the authors of the program wrote down. *)
From S2P Require Import Prelude Emulators Crypto.
Local Open Scope Z_scope.

Definition test : Type := option unit.
Definition passed : test := Some tt.

(** [expect] of a [Result], and of the [Result] of a method that takes [&mut self]. *)
Definition expected {E A} (m : outcome E A) : option A := match m with Ok a => Some a | _ => None end.
Definition run {S E A} (m : M S E A) (s : S) : option (A * S) :=
  match m s with (s, Ok a) => Some (a, s) | _ => None end.

(** The error and the state of a method that fails. *)
Definition failing {S E A} (m : M S E A) (s : S) : option (E * S) :=
  match m s with (s, Err e) => Some (e, s) | _ => None end.
Definition failed {E A} (m : outcome E A) : option E := match m with Err e => Some e | _ => None end.

Definition assert (b : bool) : test := if b then passed else None.
Definition assert_eq {A} `{EqDecision A} (a b : A) : test := assert (bool_decide (a = b)).

Definition is_empty {A} (l : list A) : bool := match l with [] => true | _ => false end.

(** A loop whose body can fail. *)
Fixpoint each {A S} (f : A → S → option S) (l : list A) (s : S) : option S :=
  match l with [] => Some s | a :: l => s ← f a s; each f l s end.

(** [decode_hex] and [nibble] of the test modules. *)
Definition hex_nibble (value : Z) : option Z :=
  if (48 <=? value) && (value <=? 57) then Some (value - 48)
  else if (97 <=? value) && (value <=? 102) then Some (value - 97 + 10)
  else None.
Fixpoint hex_bytes (value : bytes) : option bytes :=
  match value with
  | high :: low :: rest =>
      h ← hex_nibble high; l ← hex_nibble low; cons (Z.lor (Z.shiftl h 4) l) <$> hex_bytes rest
  | _ => Some []
  end.

(** [vt100::Screen::contents], which only the tests call. *)
Class ScreenContents `{Vt100} := screen_contents : vt_screen → bytes.

(** Evaluates each test of a list. *)
Ltac run_tests := repeat apply List.Forall_cons; try apply List.Forall_nil; vm_compute; reflexivity.
