(* ===== verification/PaperTerminal.v ===== *)
(** * A printing terminal

    A second implementation of the interfaces of Emulators.v, on which the unit tests that
    look at a screen run: a parser of UTF-8, CSI, OSC and ESC sequences, and an emulator
    that obeys them as a printer would. It prints characters one after the other on
    endless paper and remembers the cursor, the rendition and the modes; nothing is erased
    but by a reset. Both satisfy the laws. *)
From S2P Require Import Prelude Emulators TextTerminal Utf8 Predict Conformance.
Local Open Scope Z_scope.

(** ** The parser *)
Inductive paper_state :=
| OnGround (pending : bytes)       (** the bytes of an unfinished character *)
| AfterEscape
| InControl (sequence : bytes)
| InCommand (command : bytes).

Definition REPLACEMENT : Z := 0xfffd.

(** The length of the encoding a byte starts. *)
Definition character_length (lead : Z) : Z :=
  if (0xc2 <=? lead) && (lead <=? 0xdf) then 2
  else if (0xe0 <=? lead) && (lead <=? 0xef) then 3
  else if (0xf0 <=? lead) && (lead <=? 0xf4) then 4 else 1.

Definition decoded (l : bytes) : Z :=
  match utf8_chars l with Some [character] => character | _ => REPLACEMENT end.

Definition ground_step (b : Z) : paper_state * list vte_action :=
  if b =? 27 then (AfterEscape, [])
  else if b <? 32 then (OnGround [], [VteExecute b])
  else if b <? 128 then (OnGround [], [VtePrint b])
  else if character_length b =? 1 then (OnGround [], [VtePrint REPLACEMENT])
  else (OnGround [b], []).

(** The digits, separators and other bytes of a control sequence. *)
Definition is_parameter (b : Z) : bool := (48 <=? b) && (b <=? 59).
Definition control_dispatch (l : bytes) (b : Z) : vte_action :=
  VteCsiDispatch (demo_numbers (filter is_parameter l)) (filter (λ b, negb (is_parameter b)) l) false b.

Fixpoint split_on (separator : Z) (l : bytes) : list bytes :=
  match l with
  | [] => [[]]
  | b :: l =>
      if b =? separator then [] :: split_on separator l
      else match split_on separator l with [] => [[b]] | x :: r => (b :: x) :: r end
  end.

Definition paper_step (s : paper_state) (b : Z) : paper_state * list vte_action :=
  match s with
  | OnGround [] => ground_step b
  | OnGround ((lead :: _) as pending) =>
      if (128 <=? b) && (b <? 192) then
        if len pending + 1 =? character_length lead
        then (OnGround [], [VtePrint (decoded (pending ++ [b]))])
        else (OnGround (pending ++ [b]), [])
      else let '(s, actions) := ground_step b in (s, VtePrint REPLACEMENT :: actions)
  | AfterEscape =>
      if b =? 91 then (InControl [], [])
      else if b =? 93 then (InCommand [], [])
      else (OnGround [], [VteEscDispatch [] false b])
  | InControl l =>
      if (64 <=? b) && (b <=? 126) then (OnGround [], [control_dispatch l b])
      else (InControl (l ++ [b]), [])
  | InCommand l =>
      if b =? 7 then (OnGround [], [VteOscDispatch (split_on 59 l)])
      else if b =? 27 then (AfterEscape, [VteOscDispatch (split_on 59 l)])
      else (InCommand (l ++ [b]), [])
  end.

Definition paper_vte : Vte := {|
  vte_parser := paper_state;
  vte_new := OnGround [];
  vte_advance := vte_collect paper_step;
|}.

Lemma paper_vte_laws : VteLaws (H:=paper_vte).
Proof. split; cbn; [done|]. intros a b s. apply vte_collect_app. Qed.

(** ** The emulator *)
Record paper := mkPaper {
  paper_input : paper_state;
  paper_size : Z * Z;
  printed : list Z;
  cursor : Z * Z;
  rendition : list Params;     (** the SGR sequences since the last reset *)
  private_modes : list Z;      (** the private modes that are set *)
  keypad : bool;
}.
#[export] Instance eta_paper : Eta paper := λ p,
  mkPaper (paper_input p) (paper_size p) (printed p) (cursor p) (rendition p) (private_modes p) (keypad p).
#[export] Instance upd_paper_input : Update paper_input := ltac:(solve_update).
#[export] Instance upd_paper_size : Update paper_size := ltac:(solve_update).
#[export] Instance upd_printed : Update printed := ltac:(solve_update).
#[export] Instance upd_cursor : Update cursor := ltac:(solve_update).
#[export] Instance upd_rendition : Update rendition := ltac:(solve_update).
#[export] Instance upd_private_modes : Update private_modes := ltac:(solve_update).
#[export] Instance upd_keypad : Update keypad := ltac:(solve_update).

Definition paper_new (rows columns : Z) : paper :=
  mkPaper (OnGround []) (rows, columns) [] (0, 0) [] [25] false.

Definition parameter (n : nat) (params : Params) : Z :=
  Z.max 1 (default 1 (params !! n ≫= head)) - 1.
Definition without (l modes : list Z) : list Z := filter (λ mode, mode ∉ l) modes.

Definition obey (p : paper) (action : vte_action) : paper :=
  match action with
  | VtePrint character =>
      p <| printed ::= λ l, l ++ [character] |> <| cursor ::= λ '(row, column), (row, column + 1) |>
  | VteExecute 10 => p <| cursor ::= λ '(row, column), (row + 1, column) |>
  | VteExecute 13 => p <| cursor ::= λ '(row, column), (row, 0) |>
  | VteCsiDispatch params [] _ 72 => p <| cursor := (parameter 0 params, parameter 1 params) |>
  | VteCsiDispatch params [] _ 109 => p <| rendition ::= λ l, l ++ [params] |>
  | VteCsiDispatch params [63] _ 104 =>
      p <| private_modes ::= λ modes, without (mjoin params) modes ++ mjoin params |>
  | VteCsiDispatch params [63] _ 108 => p <| private_modes ::= without (mjoin params) |>
  | VteEscDispatch [] _ 61 => p <| keypad := true |>
  | VteEscDispatch [] _ 62 => p <| keypad := false |>
  | VteEscDispatch [] _ 99 => (paper_new (paper_size p).1 (paper_size p).2) <| paper_input := paper_input p |>
  | _ => p
  end.

Definition paper_process (l : bytes) (p : paper) : paper :=
  let '(s, actions) := vte_collect paper_step l (paper_input p) in
  foldl obey (p <| paper_input := s |>) actions.

(** The sequences that restore what the emulator remembers. *)
Fixpoint parameters (l : list Z) : bytes :=
  match l with
  | [] => []
  | [n] => decimal n
  | n :: l => decimal n ++ lit ";" ++ parameters l
  end.
Definition renditions (p : paper) : bytes :=
  mjoin ((λ params, esc "[" ++ parameters (mjoin params) ++ lit "m") <$> rendition p).
Definition move_cursor (p : paper) : bytes :=
  cursor_position ((cursor p).1 + 1) ((cursor p).2 + 1).
Definition contents (p : paper) : bytes := mjoin (encode_utf8 <$> printed p).
Definition paper_contents_formatted (p : paper) : bytes :=
  esc "c" ++ contents p ++ renditions p ++ move_cursor p.
Definition mode_set (mode : Z) (p : paper) : bool := bool_decide (mode ∈ private_modes p).

Definition paper_state_formatted (p : paper) : bytes :=
  paper_contents_formatted p
  ++ (if mode_set 25 p then [] else esc "[?25l")
  ++ mjoin ((λ mode, esc "[?" ++ decimal mode ++ lit "h") <$> private_modes p)
  ++ (if keypad p then esc "=" else []).

Definition paper_vt100 : Vt100 := {|
  vt_parser := paper;
  vt_screen := paper;
  vt_new rows columns _ := paper_new rows columns;
  vt_process := paper_process;
  vt_set_size rows columns p := p <| paper_size := (rows, columns) |>;
  vt_get_screen p := p;
  vt_state_formatted := paper_state_formatted;
  vt_state_diff target _ := paper_state_formatted target;
|}.

Lemma input_obey p action : paper_input (obey p action) = paper_input p.
Proof. unfold obey. by repeat case_match. Qed.
Lemma obey_input s p action : obey (p <| paper_input := s |>) action = (obey p action) <| paper_input := s |>.
Proof. unfold obey. by repeat case_match. Qed.
Lemma foldl_obey_input s p actions :
  foldl obey (p <| paper_input := s |>) actions = (foldl obey p actions) <| paper_input := s |>.
Proof. revert p. induction actions as [|a l IH]; intros p; cbn [foldl]; [done|]. by rewrite obey_input, IH. Qed.

Lemma paper_vt100_laws : Vt100Laws (H:=paper_vt100).
Proof.
  split; cbn.
  - by intros [].
  - intros a b p. unfold paper_process. rewrite vte_collect_app.
    destruct (vte_collect paper_step a (paper_input p)) as [s xs].
    rewrite (foldl_obey_input s p xs). change (paper_input (?q <| paper_input := s |>)) with s.
    destruct (vte_collect paper_step b s) as [t ys].
    by rewrite foldl_app, !foldl_obey_input.
Qed.

Definition paper_queries : Vt100Queries (H:=paper_vt100) := {|
  application_cursor := mode_set 1 : vt_screen (Vt100:=paper_vt100) → bool;
  vt_application_keypad := keypad;
  vt_bracketed_paste := mode_set 2004;
  mouse_protocol_mode p :=
    if mode_set 1003 p then PAnyMotion else if mode_set 1002 p then PButtonMotion
    else if mode_set 1000 p then PPressRelease else if mode_set 9 p then PPress else PNone;
  mouse_protocol_encoding p :=
    if mode_set 1006 p then PSgr else if mode_set 1005 p then PUtf8 else PDefault;
  hide_cursor p := negb (mode_set 25 p);
  vt_alternate_screen := mode_set 1049;
  Emulators.cursor_position := cursor;
  screen_size := paper_size;
  contents_formatted := paper_contents_formatted;
  attributes_formatted p := esc "[m" ++ renditions p;
  cursor_state_formatted := move_cursor;
|}.

Definition paper_screen_contents : ScreenContents (H:=paper_vt100) := contents.
