(* ===== verification/FragmentTests.v ===== *)
(** * The unit tests of [crates/ferrumtty-wire/src/fragment.rs] *)
From S2P Require Import Prelude Fragment Cli Conformance.
Local Open Scope Z_scope.

Definition nibble : Z → option Z := hex_nibble.
Definition decode_hex : bytes → option bytes := hex_bytes.

Definition fragment_debug_redacts_body : test :=
  fragments ← expected (split (lit "fragment-body-sentinel") 1 2 3);
  fragment ← head fragments;
  let output := Fragment_fmt fragment in
  assert (negb (contains output (lit "fragment-body-sentinel")));;
  assert (contains output (lit "body_bytes")).

Definition splits_and_reassembles_out_of_order : test :=
  let message := replicate (Z.to_nat (MAX_FRAGMENT_BODY_BYTES * 2 + 17)) 0x5a in
  fragments ← expected (split message 0x1234 0xffff 7);
  assert_eq (len fragments) 3;;
  f0 ← fragments !! 0%nat; f1 ← fragments !! 1%nat; f2 ← fragments !! 2%nat;
  assert (negb (is_final (header f0)));;
  assert (is_final (header f2));;
  let accumulator := accumulator_new 7 (len message) in
  '(pushed, accumulator) ← run (push f1) accumulator; assert_eq pushed None;;
  '(pushed, accumulator) ← run (push f2) accumulator; assert_eq pushed None;;
  '(pushed, accumulator) ← run (push f0) accumulator; assert_eq pushed (Some message).

Definition fragment_header_preserves_shutdown_state_number : test :=
  fragments ← expected (split (lit "shutdown") 1 2 u64_max);
  fragment ← head fragments;
  parsed ← expected (parse (encode fragment));
  assert_eq (state_id (header parsed)) u64_max.

Definition observed_prefix_parses_and_reencodes : test :=
  plaintext ← decode_hex (lit "e5a2ffff00000000000000020000");
  let plaintext := plaintext ++ replicate (Z.to_nat MAX_FRAGMENT_BODY_BYTES) 0x11 in
  fragment ← expected (parse plaintext);
  assert_eq (sent_timestamp (header fragment)) 0xe5a2;;
  assert_eq (echoed_timestamp (header fragment)) 0xffff;;
  assert_eq (state_id (header fragment)) 2;;
  assert_eq (index (header fragment)) 0;;
  assert (negb (is_final (header fragment)));;
  assert_eq (encode fragment) plaintext.

Definition accepts_supported_peer_fragment_sizes : test :=
  each (λ body_bytes _,
    let plaintext := replicate (Z.to_nat (14 + body_bytes)) 0 in
    let plaintext := take 12 plaintext ++ to_be 2 0 ++ drop 14 plaintext in
    fragment ← expected (parse plaintext);
    assert_eq (len (body fragment)) body_bytes;;
    assert (negb (is_final (header fragment))))
  [1178; MAX_FRAGMENT_BODY_BYTES; 1300] tt.

Definition encoding_masks_the_reserved_final_bit_from_the_index : test :=
  let fragment := mkFragment (mkFragmentHeader 1 2 3 0x8001 false) [] in
  parsed ← expected (parse (encode fragment));
  assert_eq (index (header parsed)) 1;;
  assert (negb (is_final (header parsed))).

Definition rejects_conflicting_duplicate : test :=
  fragments ← expected (split (lit "state") 1 2 3);
  original ← head fragments;
  first ← head (body original);
  let conflicting := mkFragment (header original) (Z.lxor first 1 :: tail (body original)) in
  let accumulator := accumulator_new 3 100 in
  '(_, accumulator) ← run (push original) accumulator;
  '(error, _) ← failing (push conflicting) accumulator;
  assert_eq error ConflictingDuplicate.

Example fragment_tests_pass :
  Forall (λ t, t = passed)
    [fragment_debug_redacts_body; splits_and_reassembles_out_of_order;
     fragment_header_preserves_shutdown_state_number; observed_prefix_parses_and_reencodes;
     accepts_supported_peer_fragment_sizes; encoding_masks_the_reserved_final_bit_from_the_index;
     rejects_conflicting_duplicate].
Proof. run_tests. Qed.
