(* ===== verification/MessageTests.v ===== *)
(** * The unit tests of [crates/ferrumtty-wire/src/message.rs] *)
From S2P Require Import Prelude Message Reference Conformance.
Local Open Scope Z_scope.

Definition nibble : Z → option Z := hex_nibble.
Definition decode_hex : bytes → option bytes := hex_bytes.

Definition decodes_observed_initial_client_message : test :=
  encoded ← decode_hex (lit "0802100018012000280032130a061a04285030180a0912072205657869740a3a00");
  update ← prost_decode_update encoded;
  batch ← expected (decode_instructions update);
  assert_eq (protocol_version update) 2;;
  assert_eq (base_state update, target_state update) (0, 1);;
  assert_eq (len (instructions batch)) 2;;
  first ← instructions batch !! 0%nat; second ← instructions batch !! 1%nat;
  assert_eq (viewport first) (Some (mkViewportSize 80 24));;
  assert_eq (run_value <$> instr_bytes second) (Some (lit "exit" ++ [10])).

Definition compressed_update_round_trips : test :=
  let batch := mkInstructionBatch [mkInstruction (Some (mkByteRun (lit "input"))) None None None] in
  let update := (StateUpdate_new 3 4 2) <| delta := encode_bytes batch |> in
  compressed ← expected (encode_compressed_update update);
  decoded ← expected (decode_compressed_update compressed);
  assert_eq decoded update.

Definition compressed_update_preserves_shutdown_state_number : test :=
  let update := StateUpdate_new 7 u64_max u64_max in
  compressed ← expected (encode_compressed_update update);
  decoded ← expected (decode_compressed_update compressed);
  assert_eq (target_state decoded) u64_max;;
  assert_eq (acknowledged_state decoded) u64_max.

Definition mosh_go_extensions_round_trip_without_affecting_classic_fields : test :=
  let update := ((StateUpdate_new 3 4 2) <| capabilities := [SESSION_CONTROL_CAPABILITY] |>)
    <| delta := encode_bytes (mkInstructionBatch
         [mkInstruction None None None (Some (mkSessionControl 3 (lit "session-name")))]) |> in
  compressed ← expected (encode_compressed_update update);
  decoded ← expected (decode_compressed_update compressed);
  assert_eq (capabilities decoded) [SESSION_CONTROL_CAPABILITY];;
  batch ← expected (decode_instructions decoded);
  source ← expected (decode_instructions update);
  assert_eq batch source;;
  assert_eq (base_state decoded, target_state decoded) (3, 4).

Definition skips_unknown_top_level_field : test :=
  assert_eq (validate_fields [0x40; 0x01] [(1, 0)]) (Ok tt).

Definition skips_unknown_fixed_width_instruction_fields : test :=
  let encoded := [0x0a; 0x10; 0xa1; 0x01; 0; 0; 0; 0; 0; 0; 0; 0; 0xad; 0x01; 0; 0; 0; 0] in
  assert_eq (validate_instruction_batch encoded) (Ok tt).

Definition rejects_wrong_wire_type_for_known_field : test :=
  assert_eq (validate_fields [0x0a; 0x00] [(1, 0)]) (Err UnsupportedWireType).

Example message_tests_pass :
  Forall (λ t, t = passed)
    [decodes_observed_initial_client_message; compressed_update_round_trips;
     compressed_update_preserves_shutdown_state_number;
     mosh_go_extensions_round_trip_without_affecting_classic_fields; skips_unknown_top_level_field;
     skips_unknown_fixed_width_instruction_fields; rejects_wrong_wire_type_for_known_field].
Proof. run_tests. Qed.
