(* ===== verification/CryptoTests.v ===== *)
(** * The unit tests of [crates/ferrumtty-crypto/src/lib.rs]

    They run on the stand-in cipher of Reference.v; [matches_rfc_7253_vector_with_plaintext_and_aad]
    tests the OCB library itself and is not translated. *)
From S2P Require Import Prelude Crypto Cli Reference Conformance.
Local Open Scope Z_scope.

Definition SYNTHETIC_KEY : bytes := lit "AAECAwQFBgcICQoLDA0ODw".

Definition authenticated_packet_debug_redacts_plaintext : test :=
  let packet := mkAuthenticatedPacket 7 (lit "debug-plaintext-sentinel") in
  let output := AuthenticatedPacket_fmt packet in
  assert (negb (contains output (lit "debug-plaintext-sentinel")));;
  assert (contains output (lit "plaintext_bytes: 24")).

Definition client_and_server_channels_round_trip_both_directions : test :=
  client ← SecureChannel_new Client <$> expected (SessionKey_decode SYNTHETIC_KEY);
  server ← SecureChannel_new Server <$> expected (SessionKey_decode SYNTHETIC_KEY);
  '(client_packet, client) ← run (seal_next (lit "client state")) client;
  assert_eq (take 8 client_packet) (replicate 8 0);;
  opened ← expected (open server client_packet);
  assert_eq (plaintext opened) (lit "client state");;
  '(server_packet, server) ← run (seal_next (lit "server state")) server;
  assert_eq (take 8 server_packet) [0x80; 0; 0; 0; 0; 0; 0; 0];;
  opened ← expected (open client server_packet);
  assert_eq (plaintext opened) (lit "server state").

Definition counter_is_big_endian_and_monotonic : test :=
  client ← SecureChannel_new Client <$> expected (SessionKey_decode SYNTHETIC_KEY);
  '(first, client) ← run (seal_next (lit "first")) client;
  '(second, client) ← run (seal_next (lit "second")) client;
  assert_eq (take 8 first) (replicate 8 0);;
  assert_eq (take 8 second) [0; 0; 0; 0; 0; 0; 0; 1].

Definition tampering_reveals_no_plaintext : test :=
  client ← SecureChannel_new Client <$> expected (SessionKey_decode SYNTHETIC_KEY);
  server ← SecureChannel_new Server <$> expected (SessionKey_decode SYNTHETIC_KEY);
  '(packet, client) ← run (seal_next (lit "sensitive state")) client;
  tag ← last packet;
  let packet := removelast packet ++ [Z.lxor tag 1] in
  assert_eq (open server packet) (Err AuthenticationFailed).

Definition tampering_with_packet_prefix_fails_authentication : test :=
  client ← SecureChannel_new Client <$> expected (SessionKey_decode SYNTHETIC_KEY);
  server ← SecureChannel_new Server <$> expected (SessionKey_decode SYNTHETIC_KEY);
  '(packet, client) ← run (seal_next (lit "authenticated state")) client;
  let packet := alter (λ b, Z.lxor b 1) 7%nat packet in
  assert_eq (open server packet) (Err AuthenticationFailed).

Definition reflected_packet_is_rejected_after_authentication : test :=
  client ← SecureChannel_new Client <$> expected (SessionKey_decode SYNTHETIC_KEY);
  '(packet, client) ← run (seal_next (lit "state")) client;
  assert_eq (open client packet) (Err UnexpectedDirection).

Definition short_packet_is_rejected : test :=
  client ← SecureChannel_new Client <$> expected (SessionKey_decode SYNTHETIC_KEY);
  assert_eq (open client (replicate 23 0)) (Err PacketTooShort).

Example crypto_tests_pass :
  Forall (λ t, t = passed)
    [authenticated_packet_debug_redacts_plaintext; client_and_server_channels_round_trip_both_directions;
     counter_is_big_endian_and_monotonic; tampering_reveals_no_plaintext;
     tampering_with_packet_prefix_fails_authentication; reflected_packet_is_rejected_after_authentication;
     short_packet_is_rejected].
Proof. run_tests. Qed.
