(* ===== verification/PredictTests.v ===== *)
(** * The unit tests of [crates/ferrumtty-predict/src/lib.rs] *)
From S2P Require Import Prelude Cli Utf8 Predict Conformance.
Local Open Scope Z_scope.

#[local] Instance PredictionMetrics_eq_dec : EqDecision PredictionMetrics.
Proof. solve_decision. Defined.
#[local] Instance LineConfidence_eq_dec : EqDecision LineConfidence.
Proof. solve_decision. Defined.
#[local] Instance PredictionLineStatus_eq_dec : EqDecision PredictionLineStatus.
Proof. solve_decision. Defined.
#[local] Instance PredictionReconciliation_eq_dec : EqDecision PredictionReconciliation.
Proof. solve_decision. Defined.

Definition prediction_action_debug_redacts_printable_input : test :=
  let output := PredictionAction_fmt (PrintableAscii 88) in
  assert (negb (contains output (lit "X")));;
  assert (contains output (lit "REDACTED")).

Definition context (row column columns : Z) : PredictionContext :=
  mkPredictionContext row column columns (esc "[0;1m") (esc "[3;5H" ++ esc "[0;1m").

Definition predicts_single_printable_utf8_keys : test :=
  let overlay := overlay_new Always true in
  let '(overlay, output) := offer Key (lit "a") overlay in
  assert_eq output (Some (esc "[4ma" ++ esc "[24m"));;
  let '(overlay, output) := offer Key (encode_utf8 0xe9) overlay in
  assert_eq output (Some (esc "[4m" ++ [0xc3; 0xa9] ++ esc "[24m"));;
  let '(overlay, output) := offer Key (encode_utf8 0x754c) overlay in
  assert_eq output (Some (esc "[4m" ++ encode_utf8 0x754c ++ esc "[24m"));;
  let '(overlay, output) := offer Key [13] overlay in
  assert (negb (is_some output));;
  let '(overlay, output) := offer Paste (lit "b") overlay in
  assert (negb (is_some output));;
  let '(overlay, output) := offer Mouse (lit "c") overlay in
  assert (negb (is_some output));;
  let '(overlay, output) := offer Focus (lit "d") overlay in
  assert (negb (is_some output)).

Definition reconciliation_clears_overlay_before_authoritative_output : test :=
  let overlay := overlay_new Always true in
  let '(overlay, _) := offer Key (lit "a") overlay in
  let '(overlay, output) := offer Key (lit "b") overlay in
  assert_eq output (Some (esc "[4mb" ++ esc "[24m"));;
  let '(overlay, reconciled) := reconcile overlay in
  assert reconciled;;
  let '(overlay, reconciled) := reconcile overlay in
  assert (negb reconciled);;
  assert_eq (metrics overlay) (mkPredictionMetrics 2 2 None 2).

Definition acknowledgements_clear_only_known_frames_and_ignore_invalid_values : test :=
  let overlay := overlay_new Always false in
  let '(overlay, _) := offer_for_frame 4 (PrintableAscii 97) overlay in
  let '(overlay, _) := offer_for_frame 7 (PrintableAscii 98) overlay in
  let overlay := acknowledge 8 overlay in
  assert_eq (latest_acknowledgement (metrics overlay)) None;;
  assert_eq (len (pending overlay)) 2;;
  let overlay := acknowledge 4 overlay in
  assert_eq (latest_acknowledgement (metrics overlay)) (Some 4);;
  assert_eq (len (pending overlay)) 1;;
  let overlay := acknowledge 4 overlay in
  let overlay := acknowledge 3 overlay in
  assert_eq (latest_acknowledgement (metrics overlay)) (Some 4);;
  assert_eq (len (pending overlay)) 1;;
  let overlay := acknowledge 7 overlay in
  assert_eq (latest_acknowledgement (metrics overlay)) (Some 7);;
  assert (is_empty (pending overlay)).

Definition echo_ack_promotes_only_cells_in_the_acknowledged_frame_range : test :=
  let overlay := overlay_new Always false in
  let line := context 2 4 80 in
  let '(overlay, _) := offer_for_frame_with_context 4 (PrintableAscii 97) (Some line) overlay in
  let '(overlay, _) := offer_for_frame_with_context 7 (PrintableAscii 98) (Some line) overlay in
  let overlay := acknowledge 4 overlay in
  assert_eq (line_confidence overlay) (Some Tentative);;
  assert_eq (line_status overlay) (Some (mkPredictionLineStatus 2 Tentative));;
  let overlay := acknowledge 7 overlay in
  assert_eq (line_confidence overlay) (Some LineAcknowledged).

Definition insertion_overlay_is_removed_with_a_local_line_edit : test :=
  let overlay := overlay_new Always false in
  let line := context 2 4 80 in
  let '(overlay, output) := offer_for_frame_with_context 1 (PrintableAscii 97) (Some line) overlay in
  assert_eq output (Some (esc "[@" ++ esc "[4ma" ++ esc "[0;1m"));;
  assert_eq (take_reconciliation overlay).2
    (Local (esc "[3;5H" ++ esc "[1P" ++ esc "[3;5H" ++ esc "[0;1m")).

Definition barrier_preserves_the_local_rollback_extent : test :=
  let overlay := overlay_new Always false in
  let line := context 2 4 80 in
  let '(overlay, _) := offer_for_frame_with_context 1 (PrintableAscii 97) (Some line) overlay in
  let '(overlay, _) := offer_for_frame_with_context 2 Barrier (Some line) overlay in
  assert_eq (take_reconciliation overlay).2
    (Local (esc "[3;5H" ++ esc "[1P" ++ esc "[3;5H" ++ esc "[0;1m")).

Definition prediction_does_not_cross_the_authoritative_line_boundary : test :=
  let overlay := overlay_new Always false in
  let last_column := context 0 79 80 in
  assert (negb (is_some
    (offer_for_frame_with_context 1 (PrintableAscii 97) (Some last_column) overlay).2)).

Definition prediction_display_and_overwrite_settings_are_applied : test :=
  let never := overlay_new Never false in
  assert (negb (is_some (offer Key (lit "a") never).2));;
  let adaptive := set_round_trip_milliseconds (Some 19) overlay_default in
  let '(adaptive, output) := offer Key (lit "a") adaptive in
  assert (negb (is_some output));;
  let adaptive := set_round_trip_milliseconds (Some 20) adaptive in
  assert_eq (offer Key (lit "a") adaptive).2 (Some (esc "[@" ++ esc "[4ma" ++ esc "[24m")).

Definition backspace_cancels_only_the_last_unacknowledged_printable : test :=
  let overlay := overlay_new Always false in
  let '(overlay, _) := offer_for_frame 1 (PrintableAscii 97) overlay in
  let '(overlay, _) := offer_for_frame 2 (PrintableAscii 98) overlay in
  let '(overlay, output) := offer_for_frame 3 Backspace overlay in
  assert_eq output (Some (esc "[D" ++ esc "[P"));;
  assert_eq (len (predicted_ascii overlay)) 1;;
  let overlay := acknowledge 3 overlay in
  let '(overlay, output) := offer_for_frame 4 Backspace overlay in
  assert (negb (is_some output));;
  assert_eq (len (predicted_ascii overlay)) 1.

Definition cursor_motion_stays_inside_the_predicted_span : test :=
  let overlay := overlay_new Always false in
  let '(overlay, output) := offer_for_frame 1 Left overlay in
  assert (negb (is_some output));;
  let '(overlay, _) := offer_for_frame 2 (PrintableAscii 97) overlay in
  let '(overlay, _) := offer_for_frame 3 (PrintableAscii 98) overlay in
  let '(overlay, output) := offer_for_frame 4 Left overlay in
  assert_eq output (Some (esc "[D"));;
  let '(overlay, output) := offer_for_frame 5 (PrintableAscii 99) overlay in
  assert (negb (is_some output));;
  let '(overlay, output) := offer_for_frame 6 Right overlay in
  assert_eq output (Some (esc "[C"));;
  let '(overlay, output) := offer_for_frame 7 Right overlay in
  assert (negb (is_some output)).

Definition barrier_invalidates_the_span_and_requires_reconciliation : test :=
  let overlay := overlay_new Always false in
  let '(overlay, _) := offer_for_frame 1 (PrintableAscii 97) overlay in
  let '(overlay, output) := offer_for_frame 2 Barrier overlay in
  assert (negb (is_some output));;
  assert (is_empty (pending overlay));;
  assert (is_empty (predicted_ascii overlay));;
  let '(overlay, reconciled) := reconcile overlay in
  assert reconciled;;
  let '(overlay, reconciled) := reconcile overlay in
  assert (negb reconciled).

Definition pending_prediction_memory_is_bounded : test :=
  let overlay := overlay_new Always false in
  overlay ← each (λ frame_id overlay,
    let '(overlay, output) := offer_for_frame frame_id (PrintableAscii 97) overlay in
    assert (is_some output);; Some overlay) (seqZ 0 MAXIMUM_PENDING_PREDICTIONS) overlay;
  assert_eq (len (pending overlay)) MAXIMUM_PENDING_PREDICTIONS;;
  let '(overlay, output) :=
    offer_for_frame MAXIMUM_PENDING_PREDICTIONS (PrintableAscii 98) overlay in
  assert (negb (is_some output));;
  assert (is_empty (pending overlay));;
  assert (reconcile overlay).2.

Definition overwrite_backspace_requires_authoritative_reconciliation : test :=
  let overlay := overlay_new Always true in
  let '(overlay, _) := offer_for_frame 1 (PrintableAscii 97) overlay in
  let '(overlay, output) := offer_for_frame 2 Backspace overlay in
  assert (negb (is_some output));;
  assert (reconcile overlay).2.

Example predict_tests_pass :
  Forall (λ t, t = passed)
    [prediction_action_debug_redacts_printable_input; predicts_single_printable_utf8_keys;
     reconciliation_clears_overlay_before_authoritative_output;
     acknowledgements_clear_only_known_frames_and_ignore_invalid_values;
     echo_ack_promotes_only_cells_in_the_acknowledged_frame_range;
     insertion_overlay_is_removed_with_a_local_line_edit;
     barrier_preserves_the_local_rollback_extent;
     prediction_does_not_cross_the_authoritative_line_boundary;
     prediction_display_and_overwrite_settings_are_applied;
     backspace_cancels_only_the_last_unacknowledged_printable;
     cursor_motion_stays_inside_the_predicted_span;
     barrier_invalidates_the_span_and_requires_reconciliation;
     pending_prediction_memory_is_bounded;
     overwrite_backspace_requires_authoritative_reconciliation].
Proof. run_tests. Qed.
