(* ===== verification/StateTests.v ===== *)
(** * The unit tests of [crates/ferrumtty-state/src/lib.rs]

    They take the emulator and the parser of control sequences as arguments and run on those
    of PaperTerminal.v. [long_running_ground_state_output_compacts_history], which needs a screen
    of bounded size, is not translated: the lemmas on compaction speak of every batch. That a clone shares the nodes of the history is not visible in its value. *)
From S2P Require Import Prelude Predict Cli Message Emulators State Conformance PaperTerminal.
Local Open Scope Z_scope.

Section tests.
Context `{Vt100Queries} `{Vte} `{!ScreenContents}.

Definition state : option RemoteTerminalState := expected (terminal_new 80 24).

Definition bytes_batch (value : bytes) : InstructionBatch :=
  mkInstructionBatch [mkInstruction (Some (mkByteRun value)) None None None].

Definition host_bytes (batch : InstructionBatch) : bytes :=
  mjoin (run_value <$> omap instr_bytes (instructions batch)).

Definition old_baseline_reconstruction_does_not_repeat_host_bytes : test :=
  baseline ← state;
  '(_, baseline) ← run (apply (bytes_batch (lit "A"))) baseline;
  delivered ← expected (clone baseline);
  '(_, delivered) ← run (apply (bytes_batch (lit "B"))) delivered;
  rebuilt ← expected (clone baseline);
  '(_, rebuilt) ← run (apply (bytes_batch (lit "BC"))) rebuilt;
  diff ← expected (diff_from rebuilt delivered);
  assert_eq (host_bytes diff) (lit "C");;
  assert_eq (screen_contents (screen rebuilt)) (lit "ABC").

Definition clone_preserves_incomplete_utf8_and_csi_input : test :=
  utf8 ← state;
  '(_, utf8) ← run (apply (bytes_batch [0xe7; 0x95])) utf8;
  utf8_branch ← expected (clone utf8);
  '(_, utf8_branch) ← run (apply (bytes_batch [0x8c])) utf8_branch;
  assert_eq (screen_contents (screen utf8_branch)) [0xe7; 0x95; 0x8c];;
  csi ← state;
  '(_, csi) ← run (apply (bytes_batch (esc "[?"))) csi;
  csi_branch ← expected (clone csi);
  '(_, csi_branch) ← run (apply (bytes_batch (lit "1h"))) csi_branch;
  assert (application_cursor (screen csi_branch)).

Definition clone_preserves_incomplete_osc_input : test :=
  state ← state;
  '(_, state) ← run (apply (bytes_batch (esc "]2;partial"))) state;
  branch ← expected (clone state);
  '(_, branch) ← run (apply (bytes_batch (lit " title" ++ [7] ++ lit "visible"))) branch;
  assert_eq (screen_contents (screen branch)) (lit "visible").

Definition viewport_modes_and_echo_ack_survive_cloning : test :=
  state ← state;
  '(_, state) ← run (apply (mkInstructionBatch
    [mkInstruction (Some (mkByteRun (esc "[?1;2004h"))) (Some (mkViewportSize 100 40))
       (Some (mkMarker 23)) None])) state;
  cloned ← expected (clone state);
  assert_eq (columns (st_viewport cloned)) 100;;
  assert_eq (rows (st_viewport cloned)) 40;;
  assert_eq (echo_ack cloned) (Some 23);;
  assert (application_cursor (screen cloned));;
  assert (vt_bracketed_paste (screen cloned));;
  diff ← expected (diff_from cloned state);
  assert (is_empty (instructions diff)).

Definition changed_echo_ack_is_emitted_without_repeating_host_bytes : test :=
  delivered ← state;
  '(_, delivered) ← run (apply (bytes_batch (lit "ready"))) delivered;
  target ← expected (clone delivered);
  '(_, target) ← run (apply (mkInstructionBatch
    [mkInstruction None None (Some (mkMarker 41)) None])) target;
  diff ← expected (diff_from target delivered);
  let instructions := instructions diff in
  assert_eq (len instructions) 1;;
  first ← head instructions;
  assert_eq (marker first) (Some (mkMarker 41));;
  assert_eq (instr_bytes first) None.

Definition state_diff_debug_redacts_host_bytes : test :=
  delivered ← state;
  target ← expected (clone delivered);
  '(_, target) ← run (apply (bytes_batch (lit "state-diff-sentinel"))) target;
  diff ← expected (diff_from target delivered);
  let output := StateDiff_fmt diff in
  assert (negb (contains output (lit "state-diff-sentinel")));;
  assert (contains output (lit "host_bytes: 19")).

Definition diverged_plain_text_converges_through_a_screen_diff : test :=
  left_state ← state;
  '(_, left_state) ← run (apply (bytes_batch (lit "left"))) left_state;
  right_state ← state;
  '(_, right_state) ← run (apply (bytes_batch (lit "right"))) right_state;
  diff ← expected (diff_from right_state left_state);
  '(_, left_state) ← run (apply diff) left_state;
  assert_eq (screen_contents (screen left_state)) (screen_contents (screen right_state)).

Definition common_escape_setup_does_not_block_safe_text_convergence : test :=
  baseline ← state;
  '(_, baseline) ← run (apply (bytes_batch (esc "[31mcommon"))) baseline;
  left_state ← expected (clone baseline);
  '(_, left_state) ← run (apply (bytes_batch (lit " left"))) left_state;
  '(_, right_state) ← run (apply (bytes_batch (lit " right"))) baseline;
  diff ← expected (diff_from right_state left_state);
  '(_, left_state) ← run (apply diff) left_state;
  assert_eq (screen_contents (screen left_state)) (screen_contents (screen right_state)).

Definition diverged_incomplete_parser_input_remains_rejected : test :=
  left_state ← state;
  '(_, left_state) ← run (apply (bytes_batch (lit "left" ++ esc "["))) left_state;
  right_state ← state;
  '(_, right_state) ← run (apply (bytes_batch (lit "right" ++ esc "["))) right_state;
  assert_eq (failed (diff_from right_state left_state)) (Some DivergedHistory).

Definition diverged_completed_escape_state_converges_through_screen_diff : test :=
  left_state ← state;
  '(_, left_state) ← run (apply (bytes_batch (esc "[31mleft"))) left_state;
  right_state ← state;
  '(_, right_state) ← run (apply (bytes_batch (esc "[32mright"))) right_state;
  diff ← expected (diff_from right_state left_state);
  '(_, left_state) ← run (apply diff) left_state;
  assert_eq (vt_state_formatted (screen left_state)) (vt_state_formatted (screen right_state)).

Definition clones_share_history_and_append_independent_tails : test :=
  original ← state;
  '(_, original) ← run (apply (bytes_batch (lit "shared"))) original;
  cloned ← expected (clone original);
  '(_, cloned) ← run (apply (bytes_batch (lit " branch"))) cloned;
  assert_eq (retained_bytes (history original)) 6;;
  assert_eq (operation_count (history original)) 1;;
  assert_eq (retained_bytes (history cloned)) 13;;
  assert_eq (operation_count (history cloned)) 2;;
  assert_eq (screen_contents (screen original)) (lit "shared");;
  assert_eq (screen_contents (screen cloned)) (lit "shared branch").

(** The test on a batch of its own choice: one more byte than a history may hold. *)
Definition rejects_transactionally (oversized : bytes) : test :=
  state ← state;
  '(error, state) ← failing (apply (bytes_batch oversized)) state;
  assert_eq error HistoryLimitExceeded;;
  assert_eq (retained_bytes (history state)) 0;;
  assert_eq (operation_count (history state)) 0;;
  assert (is_empty (screen_contents (screen state))).

Definition history_limit_rejection_is_transactional : test :=
  rejects_transactionally (replicate (Z.to_nat (MAX_RETAINED_HOST_BYTES + 1)) 120).

(** It is proved and not evaluated, on any emulator whose new screen is empty. *)
Lemma history_limit_rejection_passes `{!Vt100Laws} :
  screen_contents (vt_get_screen (vt_new 24 80 0)) = [] →
  history_limit_rejection_is_transactional = passed.
Proof.
  intros Hempty. unfold history_limit_rejection_is_transactional.
  assert (Hlen : len (replicate (Z.to_nat (MAX_RETAINED_HOST_BYTES + 1)) 120)
                 = MAX_RETAINED_HOST_BYTES + 1).
  { unfold len. rewrite length_replicate, Z2Nat.id; done. }
  revert Hlen. generalize (replicate (Z.to_nat (MAX_RETAINED_HOST_BYTES + 1)) 120) as oversized.
  intros oversized Hlen. unfold rejects_transactionally, state.
  destruct (terminal_new 80 24) as [s| |] eqn:Hs; [|done..].
  pose proof (terminal_new_wf _ _ _ Hs) as Hwf. injection Hs as <-. cbn [expected mbind option_bind].
  unfold failing. rewrite apply_eq by done.
  assert (Hlimit : ∀ t : RemoteTerminalState, 0 ≤ retained_bytes (history t) →
    limited t (bytes_batch oversized) = false).
  { intros t Ht. apply bool_decide_eq_false_2. intros [Hb _]. revert Hb.
    unfold bytes_batch. cbn [instructions batch_ops instr_ops instr_bytes viewport session_control app].
    rewrite !app_nil_r. unfold host_bytes_tail. cbn [run_value]. case_bool_decide as Hnil.
    - by rewrite Hnil in Hlen.
    - unfold ops_bytes. cbn [fmap list_fmap sum_list_Z foldr op_bytes]. cbn -[MAX_RETAINED_HOST_BYTES]. lia. }
  unfold can_apply. rewrite !Hlimit by (cbn; apply len_nonneg || done). cbn.
  unfold screen. cbn [parser]. by rewrite Hempty.
Qed.
End tests.

#[local] Existing Instances paper_vt100 paper_vt100_laws paper_queries paper_vte paper_screen_contents.

Example state_tests_pass :
  Forall (λ t, t = passed)
    [old_baseline_reconstruction_does_not_repeat_host_bytes;
     clone_preserves_incomplete_utf8_and_csi_input; clone_preserves_incomplete_osc_input;
     viewport_modes_and_echo_ack_survive_cloning;
     changed_echo_ack_is_emitted_without_repeating_host_bytes;
     state_diff_debug_redacts_host_bytes; diverged_plain_text_converges_through_a_screen_diff;
     common_escape_setup_does_not_block_safe_text_convergence;
     diverged_incomplete_parser_input_remains_rejected;
     diverged_completed_escape_state_converges_through_screen_diff;
     clones_share_history_and_append_independent_tails].
Proof. run_tests. Qed.

Example history_limit_test_passes : history_limit_rejection_is_transactional = passed.
Proof. by apply history_limit_rejection_passes. Qed.
