(* ===== verification/TerminalTests.v ===== *)
(** * The unit tests of [crates/ferrumtty-terminal/src/lib.rs]

    Those of the model of the remote screen run on the emulator and the parser of
    PaperTerminal.v. *)
From S2P Require Import Prelude Utf8 Predict Cli Message Emulators Conformance PaperTerminal.
From S2P Require Import TitleFilter Input Modes.
Local Open Scope Z_scope.

Definition key (code : KeyCode.t) (shift alt control : bool) : KeyEvent :=
  mkKeyEvent code (mkKeyModifiers shift alt control).

Definition encodes_text_control_and_navigation_keys : test :=
  assert_eq (encode_key (key (KeyCode.Char 0x754c) false false false)) (Some (encode_utf8 0x754c));;
  assert_eq (encode_key (key (KeyCode.Char 99) false false true)) (Some [3]);;
  assert_eq (encode_key (key KeyCode.Left false false false)) (Some (esc "[D"));;
  assert_eq (encode_key (key (KeyCode.Char 54) false false true)) (Some [0x1e]).

Definition cursor_mode_changes_unmodified_direction_keys : test :=
  let up := key KeyCode.Up false false false in
  assert_eq (encode_key_with_mode up Normal) (Some (esc "[A"));;
  assert_eq (encode_key_with_mode up Application) (Some (esc "OA")).

Definition title_filter_rewrites_title_controls_once : test :=
  let filter := filter_new MoshPrefix in
  let '(filter, output) :=
    TitleFilter.process (lit "before" ++ esc "]0;remote" ++ [7] ++ lit "after") filter in
  assert_eq output (lit "before" ++ esc "]0;[mosh] remote" ++ [7] ++ lit "after");;
  assert_eq (TitleFilter.process (esc "]1;remote icon" ++ esc "\") filter).2
    (esc "]1;remote icon" ++ [7] ++ esc "]2;[mosh] remote" ++ [7]).

Definition title_filter_preserves_other_osc_commands_exactly : test :=
  _ ← each (λ sequence filter,
    let '(filter, output) := TitleFilter.process sequence filter in
    assert_eq output sequence;; Some filter)
  [esc "]52;c;c2VjcmV0" ++ [7]; esc "]8;;https://example.test" ++ esc "\label";
   esc "]10;rgb:00/00/00" ++ esc "\"] (filter_new MoshPrefix);
  passed.

Definition title_filter_is_stable_across_every_fragment_boundary : test :=
  let sequence := lit "a" ++ esc "]2;one;two" ++ esc "\b" ++ esc "]52;c;payload" ++ [7] ++ lit "c" in
  let expected := (TitleFilter.process sequence (filter_new MoshPrefix)).2 in
  each (λ split _,
    let '(filter, first) := TitleFilter.process (take split sequence) (filter_new MoshPrefix) in
    assert_eq (first ++ (TitleFilter.process (drop split sequence) filter).2) expected)
  (seq 0 (length sequence + 1)) tt.

Definition title_filter_supports_c1_controls_and_cancelled_titles : test :=
  let filter := filter_new MoshPrefix in
  let '(filter, output) :=
    TitleFilter.process ([0x9d] ++ lit "0;c1 title" ++ [0x9c] ++ lit "tail") filter in
  assert_eq output (esc "]0;[mosh] c1 title" ++ [7] ++ lit "tail");;
  let '(filter, output) := TitleFilter.process (esc "]2;cancelled" ++ [0x18] ++ lit "tail") filter in
  assert_eq output (lit "tail");;
  let '(filter, output) := TitleFilter.process (esc "]2;cancelled" ++ [0x1a] ++ lit "tail") filter in
  assert_eq output (lit "tail").

(** The assertions of the next test, on two titles that are too long. *)
Definition discards_and_recovers (oversized escaped_overflow : bytes) : test :=
  let '(filter, output) := TitleFilter.process oversized (filter_new MoshPrefix) in
  assert_eq output (lit "visible");;
  let '(filter, output) := TitleFilter.process (esc "]0;recovered" ++ [7]) filter in
  assert_eq output (esc "]0;[mosh] recovered" ++ [7]);;
  assert_eq (TitleFilter.process escaped_overflow filter).2 (lit "visible").

Definition title_filter_bounds_incomplete_title_storage_and_recovers : test :=
  discards_and_recovers
    (esc "]2;" ++ replicate (Z.to_nat (MAX_REMOTE_TITLE_BYTES + 1)) 120 ++ [7] ++ lit "visible")
    (esc "]2;" ++ replicate (Z.to_nat MAX_REMOTE_TITLE_BYTES) 120 ++ esc "X" ++ [7] ++ lit "visible").

Definition title_filter_restores_and_reapplies_remote_title : test :=
  let '(filter, output) := TitleFilter.process (esc "]0;remote" ++ [7]) (filter_new MoshPrefix) in
  assert_eq output (esc "]0;[mosh] remote" ++ [7]);;
  let '(filter, output) := restore_remote_title filter in
  assert_eq output (esc "]0;remote" ++ [7]);;
  assert_eq (reapply_policy filter).2 (esc "]0;[mosh] remote" ++ [7]).

Definition title_filter_debug_redacts_remote_titles : test :=
  let '(filter, _) :=
    TitleFilter.process (esc "]2;remote-title-sentinel" ++ [7]) (filter_new MoshPrefix) in
  let output := TitleOutputFilter_fmt filter in
  assert (negb (contains output (lit "remote-title-sentinel")));;
  assert (contains output (lit "remote_title_initialized: true")).

Definition preserve_title_policy_is_byte_exact : test :=
  let sequence := esc "]0;remote;title" ++ esc "\" in
  let '(filter, output) := TitleFilter.process sequence (filter_new PreserveRemote) in
  assert_eq output sequence;;
  let '(filter, output) := restore_remote_title filter in
  assert (is_empty output);;
  assert (is_empty (reapply_policy filter).2).

Definition direction_keys_encode_common_modifier_combinations : test :=
  each (λ '(shift, alt, control, expected) _,
    assert_eq (encode_key_with_mode (key KeyCode.Left shift alt control) Application) (Some expected))
  [(true, false, false, esc "[1;2D"); (false, true, false, esc "[1;3D");
   (false, false, true, esc "[1;5D"); (true, true, true, esc "[1;8D")] tt.

Definition function_keys_encode_common_modifiers : test :=
  assert_eq (encode_key (key (KeyCode.F 1) true false false)) (Some (esc "[1;2P"));;
  assert_eq (encode_key (key (KeyCode.F 5) false true false)) (Some (esc "[15;3~"));;
  assert_eq (encode_key (key (KeyCode.F 12) false false true)) (Some (esc "[24;5~"));;
  assert_eq (encode_key (key (KeyCode.F 4) true false true)) (Some (esc "[1;6S")).

Definition resize_uses_observed_viewport_fields : test :=
  viewport ← viewport (local_viewport_instruction 120 40);
  assert_eq (columns viewport, rows viewport) (120, 40).

Definition paste_preserves_transaction_boundaries : test :=
  let contents := lit "first" ++ [10] ++ lit "second" in
  assert_eq (encode_paste contents) (esc "[200~" ++ contents ++ esc "[201~");;
  assert_eq (encode_paste_with_mode contents false) contents.

Definition mouse_and_focus_events_use_standard_terminal_sequences : test :=
  let press := mkMouseEvent (MouseEventKind.Down MouseButton.Left) 4 2 (mkKeyModifiers false false true) in
  assert_eq (encode_mouse press) (Some (esc "[<16;5;3M"));;
  assert_eq (encode_mouse_with_mode press Press DefaultEncoding) (Some (esc "[M0%#"));;
  assert_eq (encode_mouse_with_mode press Press Utf8Encoding) (Some (esc "[M0%#"));;
  assert_eq (encode_mouse_with_mode
    (mkMouseEvent MouseEventKind.Moved 4 2 (mkKeyModifiers false false true)) ButtonMotion Sgr) None;;
  assert_eq (encode_mouse_with_mode press MouseDisabled Sgr) None;;
  assert_eq (encode_focus true) (esc "[I");;
  assert_eq (encode_focus false) (esc "[O");;
  assert_eq (encode_focus_with_mode true true) (Some (esc "[I"));;
  assert_eq (encode_focus_with_mode true false) None.

Definition legacy_mouse_encoding_rejects_unrepresentable_coordinates : test :=
  let event := mkMouseEvent (MouseEventKind.Down MouseButton.Left) u16_max 0
                 (mkKeyModifiers false false false) in
  assert_eq (encode_mouse_with_mode event Press DefaultEncoding) None;;
  assert (is_some (encode_mouse_with_mode event Press Utf8Encoding)).

Definition local_escape_quits_or_forwards_literal_prefix : test :=
  interpreter ← each (λ '(bytes, expected) interpreter,
    let '(interpreter, action) := input bytes interpreter in
    assert_eq action expected;; Some interpreter)
  [([0x1e], Hold); (lit ".", Quit); ([0x1e], Hold); (lit "?", Help); ([0x1e], Hold);
   ([0x1a], Suspend); ([0x1e], Hold); (lit "^", Forward [0x1e]); ([0x1e], Hold);
   (lit "x", Forward [0x1e; 120])] escape_default;
  assert (negb (contains (EscapeAction_fmt (Forward (lit "input-sentinel"))) (lit "input-sentinel"))).

Definition configurable_control_escape_uses_its_ascii_suffix : test :=
  let '(interpreter, action) := input (lit "x") (escape_new 2) in
  assert_eq action (Forward (lit "x"));;
  let '(interpreter, action) := input [2] interpreter in
  assert_eq action Hold;;
  assert_eq (input (lit "B") interpreter).2 (Forward [2]).

Definition printable_escape_requires_line_start_and_repeats_literally : test :=
  let '(interpreter, action) := input (lit "x") (escape_new 126) in
  assert_eq action (Forward (lit "x"));;
  let '(interpreter, action) := input (lit "~") interpreter in
  assert_eq action (Forward (lit "~"));;
  let '(interpreter, action) := input [13] interpreter in
  assert_eq action (Forward [13]);;
  let '(interpreter, action) := input (lit "~") interpreter in
  assert_eq action Hold;;
  assert_eq (input (lit "~") interpreter).2 (Forward (lit "~")).

(** ** The remote screen *)
#[local] Instance RemoteTerminalModes_eq_dec : EqDecision RemoteTerminalModes.
Proof. solve_decision. Defined.

Section screen_tests.
Context `{Vt100Queries} `{Vte} `{!ScreenContents}.

Definition authoritative_modes_follow_fragmented_remote_sequences : test :=
  let model := screen_process (esc "[?") (screen_new 20 4) in
  assert_eq (remote_modes model) RemoteTerminalModes_default;;
  let model := screen_process (lit "1;1004;2004h" ++ esc "=" ++ esc "[?1002;1006h") model in
  assert_eq (remote_modes model)
    (mkRemoteTerminalModes Application true true ButtonMotion Sgr true Disabled Disabled Enabled
       Enabled DefaultShape Disabled None);;
  let model := screen_process (esc "[?1;1004;2004l" ++ esc ">" ++ esc "[?1002;1006l") model in
  assert_eq (remote_modes model) RemoteTerminalModes_default.

Definition terminal_reset_clears_focus_reporting : test :=
  let model := screen_process (esc "[?1004h") (screen_new 20 4) in
  assert (focus_reporting (remote_modes model));;
  assert_eq (remote_modes (screen_process (esc "c") model)) RemoteTerminalModes_default.

Definition tracks_extended_terminal_modes_and_title : test :=
  let model := screen_process
    (esc "[4h" ++ esc "[?6;7l" ++ esc "[2;4r" ++ esc "[5 q" ++ esc "[?25l" ++ esc "[?1049h")
    (screen_new 20 4) in
  let model := screen_process (esc "]2;remote title" ++ [7]) model in
  assert_eq (remote_modes model)
    (mkRemoteTerminalModes Normal false false MouseDisabled DefaultEncoding false Enabled Disabled
       Disabled Disabled BlinkingBar Enabled (Some (2, 4)));;
  assert_eq (remote_title model) (Some (lit "remote title")).

Definition prediction_context_uses_authoritative_cursor_and_rendition : test :=
  let model := screen_process (esc "[3;5H" ++ esc "[1m") (screen_new 20 4) in
  let context := prediction_cursor_context model in
  assert_eq (pc_row context, pc_column context, pc_columns context) (2, 4, 20);;
  assert (negb (is_empty (pc_attributes context)));;
  assert (negb (is_empty (pc_cursor_state context))).

Definition title_tracking_preserves_semicolons_and_ignores_icon_only_updates : test :=
  let model := screen_process (esc "];first;second" ++ [7]) (screen_new 20 4) in
  assert_eq (remote_title model) (Some (lit "first;second"));;
  let model := screen_process (esc "]1;icon only" ++ [7]) model in
  assert_eq (remote_title model) (Some (lit "first;second")).

Definition authoritative_model_restores_utf8_color_and_cursor : test :=
  let model := screen_process (lit "plain " ++ esc "[31mred" ++ esc "[0m ") (screen_new 20 4) in
  let model := screen_process (encode_utf8 0x754c ++ lit "e" ++ encode_utf8 0x301) model in
  let restored := vt_get_screen (vt_process (formatted model) (vt_new 4 20 0)) in
  let screen := vt_get_screen (parser model) in
  assert_eq (screen_contents restored) (screen_contents screen);;
  assert_eq (Emulators.cursor_position restored) (Emulators.cursor_position screen).

Definition malformed_utf8_and_unknown_control_input_are_safe : test :=
  let model := screen_process ([0xff; 0xfe] ++ esc "[?9999h") (screen_new 10 2) in
  let restored := vt_process (formatted model) (vt_new 2 10 0) in
  assert_eq (screen_size (vt_get_screen restored)) (2, 10).

Definition utf8_and_control_sequences_are_stable_across_hostbyte_boundaries : test :=
  let text := encode_utf8 0x754c ++ lit "e" ++ encode_utf8 0x301 ++ encode_utf8 0x1f642 in
  let sequence := esc "[38;2;12;34;56m" ++ text ++ esc "[?1;1004h" in
  let whole := screen_process sequence (screen_new 20 4) in
  each (λ split _,
    let fragmented := screen_process (take split sequence) (screen_new 20 4) in
    let fragmented := screen_process (drop split sequence) fragmented in
    assert_eq (screen_contents (vt_get_screen (parser fragmented)))
      (screen_contents (vt_get_screen (parser whole)));;
    assert_eq (remote_modes fragmented) (remote_modes whole))
  (seq 0 (length sequence + 1)) tt.
End screen_tests.

#[local] Existing Instances paper_vt100 paper_queries paper_vte paper_screen_contents.

Example terminal_tests_pass :
  Forall (λ t, t = passed)
    [encodes_text_control_and_navigation_keys; cursor_mode_changes_unmodified_direction_keys;
     authoritative_modes_follow_fragmented_remote_sequences; terminal_reset_clears_focus_reporting;
     tracks_extended_terminal_modes_and_title;
     prediction_context_uses_authoritative_cursor_and_rendition;
     title_tracking_preserves_semicolons_and_ignores_icon_only_updates;
     title_filter_rewrites_title_controls_once; title_filter_preserves_other_osc_commands_exactly;
     title_filter_is_stable_across_every_fragment_boundary;
     title_filter_supports_c1_controls_and_cancelled_titles;
     title_filter_bounds_incomplete_title_storage_and_recovers;
     title_filter_restores_and_reapplies_remote_title; title_filter_debug_redacts_remote_titles;
     preserve_title_policy_is_byte_exact; direction_keys_encode_common_modifier_combinations;
     function_keys_encode_common_modifiers; resize_uses_observed_viewport_fields;
     paste_preserves_transaction_boundaries;
     mouse_and_focus_events_use_standard_terminal_sequences;
     legacy_mouse_encoding_rejects_unrepresentable_coordinates;
     authoritative_model_restores_utf8_color_and_cursor;
     malformed_utf8_and_unknown_control_input_are_safe;
     utf8_and_control_sequences_are_stable_across_hostbyte_boundaries;
     local_escape_quits_or_forwards_literal_prefix;
     configurable_control_escape_uses_its_ascii_suffix;
     printable_escape_requires_line_start_and_repeats_literally].
Proof. run_tests. Qed.
