(* ===== verification/ClientTests.v ===== *)
(** * The unit tests of [crates/ferrumtty-client]

    Those of [src/cli.rs], [src/diagnostics.rs] and [src/main.rs]; the ones that read the
    version or the platform hold for every version, on Unix and on Windows. *)
From S2P Require Import Prelude Utf8 Conformance Session Runtime Input Predict Cli Diagnostics Client.
Local Open Scope Z_scope.

#[local] Instance ClientConfig_eq_dec : EqDecision ClientConfig.
Proof. solve_decision. Defined.
#[local] Instance Command_eq_dec : EqDecision Command.
Proof. solve_decision. Defined.
#[local] Instance OutputTarget_eq_dec : EqDecision OutputTarget.
Proof. solve_decision. Defined.
#[local] Instance PlatformColorCapability_eq_dec : EqDecision PlatformColorCapability.
Proof. solve_decision. Defined.

(** The environment of a list of variables. *)
Definition variables (values : list (string * bytes)) (name : string) : option bytes :=
  (list_to_map values : gmap string bytes) !! name.

(** ** [src/cli.rs] *)
Section cli_tests.
Context (package_version : bytes) (windows : bool).

Definition parse_arguments (arguments : list bytes) (environment : list (string * bytes))
    : outcome CliError Command :=
  parse_command package_version arguments (variables environment).
Definition connection (command : outcome CliError Command) : option ClientConfig :=
  command ← expected command;
  match command with Connect config => Some config | _ => None end.

Definition help_and_version_take_precedence : test :=
  command ← expected (parse_arguments [lit "client"; lit "bad"; lit "--help"] []);
  assert match command with Help _ => true | _ => false end;;
  command ← expected (parse_arguments [lit "client"; lit "--version"; lit "unexpected"] []);
  assert_eq command Version.

Definition accepts_wrapper_argument_and_saturates_verbosity : test :=
  config ← connection (parse_arguments [lit "client"; lit "-#"; lit "wrapper secret"; lit "-vvvvv";
                              lit "example.test"; lit "60001"] []);
  assert_eq (verbosity config) MAX_VERBOSITY;;
  assert_eq (endpoint config) (lit "example.test:60001").

Definition reads_supported_environment_preferences : test :=
  config ← connection (parse_arguments [lit "client"; lit "host"; lit "60001"]
    [("MOSH_ESCAPE_KEY"%string, [2]); ("MOSH_TITLE_NOPREFIX"%string, []);
     ("MOSH_PREDICTION_DISPLAY"%string, lit "always");
     ("MOSH_PREDICTION_OVERWRITE"%string, lit "yes")]);
  assert_eq (config_escape_byte config) 2;;
  assert (title_no_prefix config);;
  assert_eq (prediction_display config) Always;;
  assert (prediction_overwrite config);;
  assert (negb (is_ok (parse_arguments [lit "client"; lit "host"; lit "60001"]
                         [("MOSH_ESCAPE_KEY"%string, lit "two")]))).

Definition parses_color_mode_immediately : test :=
  command ← expected (parse_arguments [lit "client"; lit "-vc"; lit "ignored"] []);
  assert_eq command Colors.

Definition rejects_ports_outside_the_udp_range : test :=
  each (λ port _,
    error ← failed (parse_arguments [lit "client"; lit "host"; port] []);
    assert (starts_with (message error) (lit "client: Bad UDP port (" ++ port ++ lit ")"));;
    assert_eq (exit_code error) 1;;
    assert_eq (target error) Stderr)
  [[]; lit "0"; lit "65536"; lit "12x"] tt;;
  assert (is_ok (parse_arguments [lit "client"; lit "host"; lit "65535"] [])).

Definition brackets_bare_ipv6_hosts : test :=
  config ← connection (parse_arguments [lit "client"; lit "2001:db8::1"; lit "60001"] []);
  assert_eq (endpoint config) (lit "[2001:db8::1]:60001").

Definition infers_colors_conservatively : test :=
  each (λ '(term, colorterm, platform, count) _,
    assert_eq (infer_color_count windows term colorterm platform) count)
  [(Some (lit "dumb"), Some (lit "truecolor"), TrueColor, 0);
   (Some (lit "xterm-256color"), None, Unknown, 256);
   (Some (lit "xterm"), None, Unknown, 8);
   (Some (lit "xterm"), Some (lit "truecolor"), Ansi16, TRUE_COLOR_COUNT);
   (Some (lit "private-terminal"), None, TrueColor, 0);
   (None, None, TrueColor, if windows then TRUE_COLOR_COUNT else 0)] tt;;
  assert_eq (platform_color_capability 8) Ansi8;;
  assert_eq (platform_color_capability 16) Ansi16;;
  assert_eq (platform_color_capability 256) Indexed256;;
  assert_eq (platform_color_capability u16_max) TrueColor.
End cli_tests.

Definition validates_locale_with_posix_precedence : test :=
  let values := variables [("LANG"%string, lit "en_US.UTF-8"); ("LC_CTYPE"%string, lit "C")] in
  assert (negb (is_ok (validate_utf8_locale values false)));;
  let values := variables [("LANG"%string, lit "C"); ("LC_ALL"%string, lit "zh_CN.utf8")] in
  assert (is_ok (validate_utf8_locale values false));;
  let values := variables [("LANG"%string, lit "en_US.UTF-8@calendar=gregorian")] in
  assert (is_ok (validate_utf8_locale values false));;
  assert (negb (is_ok (validate_utf8_locale (λ _, None) false))).

Definition windows_does_not_require_posix_locale_variables : test :=
  assert (is_ok (validate_utf8_locale (λ _, None) true)).

Definition missing_key_message_is_exact_and_secret_free : test :=
  let error := missing_key_error in
  assert_eq (message error) (lit "MOSH_KEY environment variable not found.");;
  assert_eq (exit_code error) 1;;
  assert_eq (target error) Stderr.

Definition invalid_key_message_never_contains_the_supplied_value : test :=
  let error := invalid_key_error in
  assert_eq (message error) (lit "Crypto exception: MOSH_KEY is invalid.");;
  assert (negb (contains (message error) (lit "secret-key-sentinel")));;
  assert_eq (exit_code error) 1.

(** ** [src/diagnostics.rs] *)
Definition verbosity_levels_add_metadata_without_payloads : test :=
  let event := InboundUpdateAccepted 7 3 4 2 1 99 true in
  assert_eq (format_event (logger_new 1) event) None;;
  level_two ← format_event (logger_new 2) event;
  assert (negb (contains level_two (lit "packet_counter")));;
  assert (negb (contains level_two (lit "delta_bytes")));;
  level_three ← format_event (logger_new 3) event;
  assert (contains level_three (lit "packet_counter=7"));;
  assert (contains level_three (lit "delta_bytes=99")).

Definition connection_events_are_visible_at_level_one : test :=
  assert_eq (format_event (logger_new 1) (DiagConnectionStateChanged Interrupted))
    (Some (lit "ferrumtty: connection state=interrupted")).

(** ** [src/main.rs] *)
Definition maps_key_semantics_without_parsing_terminal_escape_bytes : test :=
  let key code control := mkKeyEvent code (mkKeyModifiers false false control) in
  assert_eq (prediction_action (key (KeyCode.Char 97) false)) (PrintableAscii 97);;
  assert_eq (prediction_action (key (KeyCode.Char 0xe9) false)) (PrintableUtf8 0xe9);;
  assert_eq (prediction_action (key KeyCode.Backspace false)) Backspace;;
  assert_eq (prediction_action (key KeyCode.Left false)) Left;;
  assert_eq (prediction_action (key KeyCode.Left true)) Barrier.

Example cli_tests_pass (package_version : bytes) (windows : bool) :
  Forall (λ t, t = passed)
    [help_and_version_take_precedence package_version;
     accepts_wrapper_argument_and_saturates_verbosity package_version;
     reads_supported_environment_preferences package_version;
     parses_color_mode_immediately package_version;
     rejects_ports_outside_the_udp_range package_version;
     brackets_bare_ipv6_hosts package_version; infers_colors_conservatively windows].
Proof. destruct windows; run_tests. Qed.

Example client_tests_pass :
  Forall (λ t, t = passed)
    [validates_locale_with_posix_precedence; windows_does_not_require_posix_locale_variables;
     missing_key_message_is_exact_and_secret_free;
     invalid_key_message_never_contains_the_supplied_value;
     verbosity_levels_add_metadata_without_payloads; connection_events_are_visible_at_level_one;
     maps_key_semantics_without_parsing_terminal_escape_bytes].
Proof. run_tests. Qed.
