(* ===== verification/SessionTests.v ===== *)
(** * The unit tests of [crates/ferrumtty-session/src/lib.rs]

    They take the libraries as arguments and run on those of Reference.v and the terminal of
    PaperTerminal.v. *)
From S2P Require Import Prelude Cli Emulators Fragment Message Crypto State Session Conformance.
Local Open Scope Z_scope.

Definition SYNTHETIC_KEY : bytes := lit "AAECAwQFBgcICQoLDA0ODw".

Definition input_batch (value : bytes) : InstructionBatch :=
  mkInstructionBatch [mkInstruction (Some (mkByteRun value)) None None None].
Definition empty : InstructionBatch := mkInstructionBatch [].
(** The bytes of the instructions of a batch. *)
Definition batch_bytes (batch : InstructionBatch) : list bytes :=
  run_value <$> omap instr_bytes (instructions batch).

Definition received_state_debug_redacts_terminal_delta : test :=
  let update := (StateUpdate_new 1 2 3) <| delta := lit "terminal-delta-sentinel" |> in
  let output := ReceivedState_fmt (mkReceivedState 4 5 6 true update) in
  assert (negb (contains output (lit "terminal-delta-sentinel")));;
  assert (contains output (lit "delta_bytes: 23")).

Definition replay_window_accepts_reordering_once : test :=
  _ ← each (λ '(counter, expected) window,
    let '(window, accepted) := replay_accept counter window in
    assert_eq accepted expected;; Some window)
  [(10, true); (12, true); (11, true); (11, false); (10, false); (140, true); (12, false)]
  replay_default;
  passed.

Section tests.
Context `{Vt100} `{Vte} `{Aead} `{Prost} `{Zlib} `{Base64} `{!ScreenContents}.

Definition key : option SessionKey := expected (SessionKey_decode SYNTHETIC_KEY).
Definition new_client : option ClientProtocol := key ← key; expected (protocol_new key).
Definition new_server : option SecureChannel := SecureChannel_new Server <$> key.

Definition decode_client_update (packet : bytes) : option StateUpdate :=
  server ← new_server;
  authenticated ← expected (open server packet);
  fragment ← expected (parse (plaintext authenticated));
  assert (is_final (header fragment));;
  expected (decode_compressed_update (body fragment)).

Definition server_update_packet (server : SecureChannel) (update : StateUpdate)
    (fragment_state_id : Z) : option (bytes * SecureChannel) :=
  compressed ← expected (encode_compressed_update update);
  fragments ← expected (split compressed 1 0 fragment_state_id);
  fragment ← head fragments;
  run (seal_next (encode fragment)) server.

Definition remote_update (base_state target_state discard_before : Z) (value : bytes) : StateUpdate :=
  ((StateUpdate_new base_state target_state 0) <| Message.discard_before := discard_before |>)
    <| delta := encode_bytes (input_batch value) |>.

Definition received_bytes (client : ClientProtocol) (packet : bytes)
    : option (bytes * ClientProtocol) :=
  '(received, client) ← run (ingest packet) client;
  received ← received;
  batch ← expected (decode_instructions (rs_update received));
  Some (mjoin (batch_bytes batch), client).

Definition authenticated_heartbeat_is_observed_and_echoed_without_a_state : test :=
  client ← new_client;
  server ← new_server;
  '(heartbeat, server) ← run (seal_next [0x12; 0x34; 0x43; 0x21]) server;
  '(receipt, client) ← run (ingest_packet heartbeat) client;
  assert_eq (pr_sent_timestamp receipt) 0x1234;;
  assert_eq (pr_echoed_timestamp receipt) 0x4321;;
  assert (negb (is_some (pr_state receipt)));;
  assert (negb (contains (PacketReceipt_fmt receipt) (lit "payload")));;
  '(acknowledgement, client) ← run (build_acknowledgement 0x5678) client;
  first ← head acknowledgement;
  server ← new_server;
  authenticated ← expected (open server first);
  fragment ← expected (parse (plaintext authenticated));
  assert_eq (echoed_timestamp (header fragment)) 0x1234.

Definition initial_update_matches_observed_state_shape : test :=
  client ← new_client;
  let instructions := input_batch (lit "exit" ++ [10]) in
  '(packets, client) ← run (build_update 0x1234 instructions) client;
  assert_eq (len packets) 1;;
  server_channel ← new_server;
  first ← head packets;
  authenticated ← expected (open server_channel first);
  fragment ← expected (parse (plaintext authenticated));
  update ← expected (decode_compressed_update (body fragment));
  assert_eq (base_state update, target_state update) (0, 1);;
  assert_eq (acknowledged_state update) 0;;
  batch ← expected (decode_instructions update);
  assert_eq (head (batch_bytes batch)) (Some (lit "exit" ++ [10])).

Definition retransmission_uses_new_packet_counter_and_clears_on_acknowledgement : test :=
  client ← new_client;
  '(first, client) ← run (build_update 1 empty) client;
  '(retransmitted, client) ← run (retransmit_pending 2) client;
  assert_eq (take 8 <$> head first) (Some (replicate 8 0));;
  assert_eq (take 8 <$> head retransmitted) (Some [0; 0; 0; 0; 0; 0; 0; 1]);;
  server_channel ← new_server;
  compressed ← expected (encode_compressed_update (StateUpdate_new 0 1 1));
  fragments ← expected (split compressed 3 2 1);
  fragment ← head fragments;
  '(packet, server_channel) ← run (seal_next (encode fragment)) server_channel;
  '(received, client) ← run (ingest packet) client;
  received ← received;
  assert (advances_remote_state received);;
  assert (negb (has_pending_update client));;
  '(retransmitted_packet, server_channel) ← run (seal_next (encode fragment)) server_channel;
  '(retransmitted, client) ← run (ingest retransmitted_packet) client;
  retransmitted ← retransmitted;
  assert (negb (advances_remote_state retransmitted));;
  assert_eq (latest_remote_state client) 1.

(** The update of the first packet that a method builds. *)
Definition built (m : M ClientProtocol SessionError (list bytes)) (client : ClientProtocol)
    : option (StateUpdate * ClientProtocol) :=
  '(packets, client) ← run m client;
  packet ← head packets;
  update ← decode_client_update packet;
  Some (update, client).

Definition multiple_unacknowledged_states_retransmit_from_confirmed_front : test :=
  client ← new_client;
  '(first_update, client) ← built (build_update 1 (input_batch (lit "first"))) client;
  '(second_update, client) ← built (build_update 2 (input_batch (lit "second"))) client;
  '(third_update, client) ← built (build_update 3 (input_batch (lit "third"))) client;
  assert_eq (base_state first_update, target_state first_update) (0, 1);;
  assert_eq (base_state second_update, target_state second_update) (1, 2);;
  assert_eq (base_state third_update, target_state third_update) (2, 3);;
  assert_eq (discard_before third_update) 0;;
  '(retransmitted, client) ← built (retransmit_pending 4) client;
  assert_eq (base_state retransmitted, target_state retransmitted, discard_before retransmitted)
    (0, 3, 0);;
  batch ← expected (decode_instructions retransmitted);
  assert_eq (batch_bytes batch) [lit "first"; lit "second"; lit "third"].

Definition acknowledgements_require_an_exact_retained_state : test :=
  client ← new_client;
  '(_, client) ← run (build_update 1 (input_batch (lit "first"))) client;
  '(_, client) ← run (build_update 2 (input_batch (lit "second"))) client;
  server ← new_server;
  '(unknown_ack, server) ← server_update_packet server (StateUpdate_new 0 1 99) 1;
  '(_, client) ← run (ingest unknown_ack) client;
  assert (has_pending_update client);;
  assert_eq (sent_id <$> head (sent_states client)) (Some 0);;
  '(exact_ack, server) ← server_update_packet server (StateUpdate_new 1 2 1) 2;
  '(_, client) ← run (ingest exact_ack) client;
  assert_eq (sent_id <$> head (sent_states client)) (Some 1);;
  '(retransmitted, client) ← built (retransmit_pending 3) client;
  assert_eq (base_state retransmitted, target_state retransmitted, discard_before retransmitted)
    (1, 2, 1);;
  batch ← expected (decode_instructions retransmitted);
  assert_eq (head (batch_bytes batch)) (Some (lit "second"));;
  '(latest_ack, server) ← server_update_packet server (StateUpdate_new 2 3 2) 3;
  '(_, client) ← run (ingest latest_ack) client;
  assert (negb (has_pending_update client));;
  assert_eq (len (local_instructions client)) 0.

Definition sent_history_is_bounded_without_losing_front_or_latest : test :=
  client ← new_client;
  client ← each (λ timestamp client, snd <$> run (build_update timestamp empty) client)
             (seqZ 1 40) client;
  assert_eq (len (sent_states client)) MAXIMUM_SENT_STATES;;
  assert_eq (sent_id <$> head (sent_states client)) (Some 0);;
  assert_eq (sent_id <$> last (sent_states client)) (Some 40).

Definition maximum_state_number_is_reserved_as_a_sentinel : test :=
  client ← new_client;
  let client := client <| next_local_state := u64_max - 1 |> in
  '(_, client) ← run (build_update 1 empty) client;
  assert_eq (next_local_state client) u64_max;;
  '(error, client) ← failing (build_update 2 empty) client;
  assert_eq error StateExhausted;;
  assert_eq (sent_id <$> last (sent_states client)) (Some (u64_max - 1)).

Definition shutdown_state_is_retransmitted_until_exactly_acknowledged : test :=
  client ← new_client;
  server ← new_server;
  '(shutdown, client) ← built (build_shutdown 1 (input_batch (lit "final"))) client;
  assert_eq (base_state shutdown, target_state shutdown) (0, u64_max);;
  assert (local_shutdown_sent client);;
  assert (negb (local_shutdown_acknowledged client));;
  '(retransmitted, client) ← built (retransmit_pending 2) client;
  assert_eq (target_state retransmitted) u64_max;;
  '(acknowledgement, server) ← server_update_packet server (StateUpdate_new 0 1 u64_max) 1;
  '(_, client) ← run (ingest acknowledgement) client;
  assert (local_shutdown_acknowledged client);;
  assert (negb (has_pending_update client)).

Definition accepts_fragment_identifier_independent_of_target_state : test :=
  client ← new_client;
  server ← new_server;
  '(packet, server) ← server_update_packet server (StateUpdate_new 0 1 0) 2;
  '(received, client) ← run (ingest packet) client;
  received ← received;
  assert_eq (target_state (rs_update received)) 1;;
  assert_eq (latest_remote_state client) 1.

(** The pseudo-random bytes of the next test. *)
Definition xorshift (state : Z) : Z :=
  let state := Z.lxor state (shl 32 state 13) in
  let state := Z.lxor state (Z.shiftr state 17) in
  Z.lxor state (shl 32 state 5).
Fixpoint pseudo_random (count : nat) (state : Z) : bytes :=
  match count with
  | O => []
  | S count => let state := xorshift state in state mod 2 ^ 8 :: pseudo_random count state
  end.

Definition fragmented_server_state_converges_after_loss_and_reordering : test :=
  client ← new_client;
  '(first_client_packets, client) ← run (build_update 1 empty) client;
  assert_eq (len first_client_packets) 1;;
  '(retransmitted, client) ← run (retransmit_pending 2) client;
  server_reader ← new_server;
  first ← head retransmitted;
  authenticated ← expected (open server_reader first);
  fragment ← expected (parse (plaintext authenticated));
  retransmitted_update ← expected (decode_compressed_update (body fragment));
  assert_eq (base_state retransmitted_update, target_state retransmitted_update) (0, 1);;
  let terminal_bytes := pseudo_random 3000 0x12345678 in
  let server_update :=
    (StateUpdate_new 0 2 1) <| delta := encode_bytes (input_batch terminal_bytes) |> in
  compressed ← expected (encode_compressed_update server_update);
  fragments ← expected (split compressed 3 2 2);
  assert (1 <? len fragments);;
  server_writer ← new_server;
  '(packets, _) ← each (λ fragment '(packets, server_writer),
    '(packet, server_writer) ← run (seal_next (encode fragment)) server_writer;
    Some (packets ++ [packet], server_writer)) fragments ([], server_writer);
  let packets := reverse packets in
  '(received, client) ← each (λ packet '(received, client),
    '(state, client) ← run (ingest packet) client;
    Some (if is_some state then state else received, client)) packets (None, client);
  received ← received;
  assert_eq (target_state (rs_update received)) 2;;
  batch ← expected (decode_instructions (rs_update received));
  assert_eq (head (batch_bytes batch)) (Some terminal_bytes);;
  assert (negb (has_pending_update client));;
  packet ← head packets;
  '(error, _) ← failing (ingest packet) client;
  assert_eq error ReplayDetected.

Definition older_retained_remote_base_reconstructs_without_repeating_host_bytes : test :=
  client ← new_client;
  server ← new_server;
  '(packet, server) ← server_update_packet server (remote_update 0 1 0 (lit "A")) 1;
  '(received, client) ← received_bytes client packet; assert_eq received (lit "A");;
  '(packet, server) ← server_update_packet server (remote_update 1 2 0 (lit "B")) 2;
  '(received, client) ← received_bytes client packet; assert_eq received (lit "B");;
  '(packet, server) ← server_update_packet server (remote_update 1 3 1 (lit "BC")) 3;
  '(received, client) ← received_bytes client packet; assert_eq received (lit "C");;
  assert_eq (latest_remote_state client) 3;;
  '(packet, server) ← server_update_packet server (remote_update 0 4 0 (lit "ignored")) 4;
  '(received, client) ← run (ingest packet) client;
  received ← received;
  assert (negb (advances_remote_state received));;
  assert_eq (latest_remote_state client) 3.

Definition diverged_plain_text_remote_state_converges_at_a_parser_boundary : test :=
  client ← new_client;
  server ← new_server;
  rendered ← expected (terminal_new 80 24);
  '(client, server, rendered) ← each (λ '(update, id) '(client, server, rendered),
    '(packet, server) ← server_update_packet server update id;
    '(received, client) ← received_bytes client packet;
    '(_, rendered) ← run (apply (input_batch received)) rendered;
    Some (client, server, rendered))
  [(remote_update 0 1 0 (lit "A"), 1); (remote_update 1 2 0 (lit "B"), 2);
   (remote_update 1 3 1 (lit "C"), 3)] (client, server, rendered);
  assert_eq (latest_remote_state client) 3;;
  assert_eq (screen_contents (screen rendered)) (lit "AC").
End tests.

From S2P Require Import Reference PaperTerminal.
#[local] Existing Instances paper_vt100 paper_vte paper_screen_contents.

Example session_tests_pass :
  Forall (λ t, t = passed)
    [received_state_debug_redacts_terminal_delta;
     authenticated_heartbeat_is_observed_and_echoed_without_a_state;
     initial_update_matches_observed_state_shape;
     retransmission_uses_new_packet_counter_and_clears_on_acknowledgement;
     multiple_unacknowledged_states_retransmit_from_confirmed_front;
     acknowledgements_require_an_exact_retained_state;
     sent_history_is_bounded_without_losing_front_or_latest;
     maximum_state_number_is_reserved_as_a_sentinel;
     shutdown_state_is_retransmitted_until_exactly_acknowledged;
     accepts_fragment_identifier_independent_of_target_state; replay_window_accepts_reordering_once;
     fragmented_server_state_converges_after_loss_and_reordering;
     older_retained_remote_base_reconstructs_without_repeating_host_bytes;
     diverged_plain_text_remote_state_converges_at_a_parser_boundary].
Proof. run_tests. Qed.
