(* ===== verification/RuntimeTests.v ===== *)
(** * The unit tests of [crates/ferrumtty-runtime/src/lib.rs]

    They take the libraries as arguments and run on those of Reference.v and the terminal of
    PaperTerminal.v. *)
From S2P Require Import Prelude Cli Emulators Fragment Message Crypto State Session Runtime.
From S2P Require Import Conformance SessionTests.
Local Open Scope Z_scope.

#[local] Instance DiagnosticEvent_eq_dec : EqDecision DiagnosticEvent.
Proof. solve_decision. Defined.
#[local] Instance SessionAction_eq_dec : EqDecision SessionAction.
Proof. solve_decision. Defined.

Definition non_diagnostic_actions (actions : list SessionAction) : list SessionAction :=
  omap (λ action, match action with Diagnostic _ => None | _ => Some action end) actions.
Definition includes (actions : list SessionAction) (action : SessionAction) : bool :=
  bool_decide (action ∈ actions).
(** The [Debug] of a vector of actions. *)
Fixpoint debug_items (actions : list SessionAction) : bytes :=
  match actions with
  | [] => []
  | [action] => SessionAction_fmt action
  | action :: actions => SessionAction_fmt action ++ lit ", " ++ debug_items actions
  end.
Definition debug_actions (actions : list SessionAction) : bytes :=
  lit "[" ++ debug_items actions ++ lit "]".
(** [actions.iter().position(..)]. *)
Fixpoint position (f : SessionAction → bool) (actions : list SessionAction) : option Z :=
  match actions with
  | [] => None
  | action :: actions => if f action then Some 0 else Z.succ <$> position f actions
  end.

Definition action_debug_redacts_datagram_and_terminal_bytes : test :=
  let datagram := SendDatagram (lit "DATAGRAM_SENTINEL") in
  let terminal := WriteTerminal (lit "TERMINAL_SENTINEL") in
  let rendered := SessionAction_fmt datagram ++ lit " " ++ SessionAction_fmt terminal in
  assert_eq rendered (lit "SendDatagram { bytes: 17 } WriteTerminal { bytes: 17 }");;
  assert (negb (contains rendered (lit "SENTINEL"))).

Section tests.
Context `{Vt100} `{Vte} `{Aead} `{Prost} `{Zlib} `{Base64}.

Definition new_runtime (now : MonotonicTime) : option SessionRuntime :=
  key ← key; expected (runtime_new key now).

Definition encoded_server_update_with_channel (channel : SecureChannel) (update : StateUpdate)
    (fragment_id : Z) : option (bytes * SecureChannel) :=
  compressed ← expected (encode_compressed_update update);
  fragments ← expected (split compressed 1 0 fragment_id);
  fragment ← head fragments;
  run (seal_next (encode fragment)) channel.

Definition encoded_server_update (update : StateUpdate) (fragment_id : Z) : option bytes :=
  channel ← new_server;
  fst <$> encoded_server_update_with_channel channel update fragment_id.

Definition server_state_packet (base_state target_state acknowledged_state : Z) : option bytes :=
  encoded_server_update (StateUpdate_new base_state target_state acknowledged_state) target_state.

Definition server_instruction_packet (acknowledged_state : Z) (instruction : Instruction)
    : option bytes :=
  let batch := mkInstructionBatch [instruction] in
  let update := (StateUpdate_new 0 1 acknowledged_state) <| delta := encode_bytes batch |> in
  compressed ← expected (encode_compressed_update update);
  fragments ← expected (split compressed 1 0 1);
  fragment ← head fragments;
  channel ← new_server;
  fst <$> run (seal_next (encode fragment)) channel.

Definition server_packet (acknowledged_state : Z) (output : bytes) : option bytes :=
  server_instruction_packet acknowledged_state
    (mkInstruction (Some (mkByteRun output)) None None None).

Definition sent_datagrams (actions : list SessionAction) : list bytes :=
  omap (λ action, match action with SendDatagram packet => Some packet | _ => None end) actions.

Definition decode_sent_update (actions : list SessionAction) (server_channel : SecureChannel)
    : option StateUpdate :=
  updates ← mapM (λ packet,
    authenticated ← expected (open server_channel packet);
    fragment ← expected (parse (plaintext authenticated));
    expected (decode_compressed_update (body fragment))) (sent_datagrams actions);
  last updates.

(** The instructions of the update that the actions send. *)
Definition sent_instructions (actions : list SessionAction) (server_channel : SecureChannel)
    : option (list Instruction) :=
  update ← decode_sent_update actions server_channel;
  instructions <$> expected (decode_instructions update).

Definition immediate_acknowledgement_and_retransmission_are_deterministic : test :=
  runtime ← new_runtime 0;
  assert (negb (received_server_state runtime));;
  '(_, runtime) ← run (queue_resize 80 24) runtime;
  '(first, runtime) ← run (poll 0) runtime;
  assert_eq (len (non_diagnostic_actions first)) 2;;
  '(actions, runtime) ← run (poll 999) runtime;
  assert (is_empty actions);;
  '(actions, runtime) ← run (poll 1000) runtime;
  assert_eq (len (non_diagnostic_actions actions)) 1;;
  assert_eq (milliseconds_until_next_poll runtime 1000) 1000;;
  server_packet ← server_packet 1 (lit "ready");
  '(actions, runtime) ← run (receive_datagram server_packet 300) runtime;
  assert_eq (non_diagnostic_actions actions)
    [ConnectionStateChanged Connected; RoundTripEstimate 300; RemoteStateAdvanced 1;
     WriteTerminal (lit "ready")];;
  assert (received_server_state runtime);;
  assert_eq (milliseconds_until_next_poll runtime 300) 0;;
  '(actions, runtime) ← run (poll 300) runtime;
  assert_eq (len (non_diagnostic_actions actions)) 1.

Definition input_is_bounded_and_network_silence_is_recoverable : test :=
  runtime ← new_runtime 10;
  '(error, runtime) ← failing (queue_input (replicate (Z.to_nat (1024 * 1024 + 1)) 0)) runtime;
  assert match error with InputQueueFull => true | _ => false end;;
  assert (negb (is_server_responsive runtime 30010));;
  assert (is_some (run (poll 30010) runtime)).

Definition rapid_resize_sends_only_the_latest_dimensions : test :=
  runtime ← new_runtime 0;
  '(_, runtime) ← run (queue_resize 80 24) runtime;
  '(_, runtime) ← run (queue_resize 100 30) runtime;
  '(_, runtime) ← run (queue_resize 132 43) runtime;
  '(actions, runtime) ← run (poll 0) runtime;
  server_channel ← new_server;
  instructions ← sent_instructions actions server_channel;
  first ← head instructions;
  assert_eq (viewport first) (Some (mkViewportSize 132 43)).

Definition resize_coalescing_preserves_input_order : test :=
  runtime ← new_runtime 0;
  '(_, runtime) ← run (queue_input (lit "a")) runtime;
  '(_, runtime) ← run (queue_resize 80 24) runtime;
  '(_, runtime) ← run (queue_resize 100 30) runtime;
  '(_, runtime) ← run (queue_input (lit "b")) runtime;
  '(_, runtime) ← run (queue_resize 132 43) runtime;
  '(actions, runtime) ← run (poll 0) runtime;
  server_channel ← new_server;
  instructions ← sent_instructions actions server_channel;
  assert_eq (len instructions) 4;;
  assert_eq (run_value <$> (instructions !! 0%nat ≫= instr_bytes)) (Some (lit "a"));;
  assert_eq (instructions !! 1%nat ≫= viewport) (Some (mkViewportSize 100 30));;
  assert_eq (run_value <$> (instructions !! 2%nat ≫= instr_bytes)) (Some (lit "b"));;
  assert_eq (instructions !! 3%nat ≫= viewport) (Some (mkViewportSize 132 43)).

Definition round_trip_samples_drive_mosh_go_retransmit_bounds : test :=
  fast ← new_runtime 0;
  let fast := update_retransmit_timeout 0 fast in
  assert_eq (retransmit_milliseconds fast) 250;;
  typical ← new_runtime 0;
  let typical := update_retransmit_timeout 100 typical in
  assert_eq (retransmit_milliseconds typical) 300;;
  let typical := update_retransmit_timeout 100 typical in
  assert_eq (retransmit_milliseconds typical) 250;;
  slow ← new_runtime 0;
  let slow := update_retransmit_timeout 10000 slow in
  assert_eq (retransmit_milliseconds slow) 10000.

Definition timestamp_only_heartbeat_updates_liveness_and_round_trip_time : test :=
  runtime ← new_runtime 0;
  server ← new_server;
  '(heartbeat, server) ← run (seal_next [0; 77; 0; 10]) server;
  '(actions, runtime) ← run (receive_datagram heartbeat 110) runtime;
  assert_eq (non_diagnostic_actions actions)
    [ConnectionStateChanged Connected; RoundTripEstimate 100];;
  assert (negb (received_server_state runtime));;
  assert (is_server_responsive runtime 110);;
  '(actions, runtime) ← run (poll 110) runtime;
  packet ← head (sent_datagrams actions);
  server ← new_server;
  authenticated ← expected (open server packet);
  fragment ← expected (parse (plaintext authenticated));
  assert_eq (echoed_timestamp (header fragment)) 77.

Definition negotiated_session_control_is_exposed_and_can_be_queued : test :=
  runtime ← new_runtime 0;
  let runtime := runtime_set_local_capabilities [SESSION_CONTROL_CAPABILITY] runtime in
  let update := ((StateUpdate_new 0 1 0) <| capabilities := [SESSION_CONTROL_CAPABILITY] |>)
    <| delta := encode_bytes (mkInstructionBatch
         [mkInstruction None None None (Some (mkSessionControl 2 (lit "remote")))]) |> in
  packet ← encoded_server_update update 1;
  '(inbound, runtime) ← run (receive_datagram packet 1) runtime;
  assert (runtime_has_negotiated_capability runtime SESSION_CONTROL_CAPABILITY);;
  assert (includes inbound (CapabilitiesChanged [SESSION_CONTROL_CAPABILITY]));;
  assert (includes inbound (RemoteSessionControl 2 (lit "remote")));;
  '(_, runtime) ← run (queue_session_control 3 (lit "local")) runtime;
  '(outbound, runtime) ← run (poll 1) runtime;
  server_channel ← new_server;
  instructions ← sent_instructions outbound server_channel;
  assert_eq (last instructions ≫= session_control) (Some (mkSessionControl 3 (lit "local"))).

Definition remote_session_control_preserves_instruction_order : test :=
  runtime ← new_runtime 0;
  let update := (StateUpdate_new 0 1 0) <| delta := encode_bytes (mkInstructionBatch
    [mkInstruction None None None (Some (mkSessionControl 2 (lit "switch")));
     mkInstruction (Some (mkByteRun (lit "after"))) None None None;
     mkInstruction None (Some (mkViewportSize 100 30)) None None]) |> in
  packet ← encoded_server_update update 1;
  '(actions, runtime) ← run (receive_datagram packet 1) runtime;
  let actions := non_diagnostic_actions actions in
  control_index ← position (λ a, match a with RemoteSessionControl _ _ => true | _ => false end) actions;
  output_index ← position (λ a, match a with WriteTerminal _ => true | _ => false end) actions;
  resize_index ← position (λ a, match a with ResizeTerminal _ _ => true | _ => false end) actions;
  assert ((control_index <? output_index) && (output_index <? resize_index)).

Definition duplicate_remote_state_does_not_start_an_acknowledgement_loop : test :=
  runtime ← new_runtime 0;
  '(_, runtime) ← run (poll 0) runtime;
  server_channel ← new_server;
  let update := StateUpdate_new 0 1 0 in
  '(first, server_channel) ← encoded_server_update_with_channel server_channel update 1;
  '(_, runtime) ← run (receive_datagram first 10) runtime;
  '(_, runtime) ← run (poll 10) runtime;
  '(duplicate, server_channel) ← encoded_server_update_with_channel server_channel update 2;
  '(_, runtime) ← run (receive_datagram duplicate 11) runtime;
  '(actions, runtime) ← run (poll 11) runtime;
  assert (is_empty actions).

Definition new_input_waits_for_the_single_in_flight_state : test :=
  runtime ← new_runtime 0;
  server_channel ← new_server;
  '(_, runtime) ← run (queue_input (lit "a")) runtime;
  '(first, runtime) ← run (poll 0) runtime;
  first_update ← decode_sent_update first server_channel;
  assert_eq (base_state first_update, target_state first_update) (0, 1);;
  '(_, runtime) ← run (queue_input (lit "b")) runtime;
  '(second, runtime) ← run (poll 1) runtime;
  assert (is_empty second);;
  '(retransmitted, runtime) ← run (poll 1000) runtime;
  retransmitted_update ← decode_sent_update retransmitted server_channel;
  assert_eq (base_state retransmitted_update, target_state retransmitted_update) (0, 1);;
  batch ← expected (decode_instructions retransmitted_update);
  assert_eq (len (instructions batch)) 1;;
  acknowledgement ← server_state_packet 0 1 1;
  '(_, runtime) ← run (receive_datagram acknowledgement 1001) runtime;
  '(next, runtime) ← run (poll 1001) runtime;
  next_update ← decode_sent_update next server_channel;
  assert_eq (base_state next_update, target_state next_update) (1, 2);;
  batch ← expected (decode_instructions next_update);
  assert_eq (len (instructions batch)) 1.

Definition resume_prevents_sleep_interval_from_becoming_server_timeout : test :=
  runtime ← new_runtime 0;
  '(_, runtime) ← run (queue_resize 80 24) runtime;
  '(actions, runtime) ← run (poll 0) runtime;
  assert_eq (len (non_diagnostic_actions actions)) 2;;
  '(_, runtime) ← run (resume 120000) runtime;
  '(actions, runtime) ← run (poll 120000) runtime;
  assert_eq (len (non_diagnostic_actions actions)) 1;;
  assert_eq (milliseconds_until_next_poll runtime 120000) 1000.

Definition server_echo_ack_is_exposed_to_the_prediction_host : test :=
  runtime ← new_runtime 0;
  packet ← server_instruction_packet 0 (mkInstruction None None (Some (mkMarker 17)) None);
  '(actions, runtime) ← run (receive_datagram packet 1) runtime;
  assert_eq (non_diagnostic_actions actions)
    [ConnectionStateChanged Connected; RoundTripEstimate 1; RemoteStateAdvanced 1;
     AcknowledgePrediction 17].

Definition authoritative_server_resize_is_exposed_to_the_host : test :=
  runtime ← new_runtime 0;
  packet ← server_instruction_packet 0 (mkInstruction None (Some (mkViewportSize 132 43)) None None);
  '(actions, runtime) ← run (receive_datagram packet 1) runtime;
  assert (includes actions (ResizeTerminal 132 43)).

Definition connection_events_distinguish_initial_and_interrupted_sessions : test :=
  runtime ← new_runtime 0;
  assert_eq (connection_state runtime) Connecting;;
  assert_eq (milliseconds_since_server_response runtime 12) 12;;
  '(actions, runtime) ← run (poll 30000) runtime;
  assert (forallb (λ a, match a with ConnectionStateChanged _ => false | _ => true end) actions);;
  packet ← server_packet 0 (lit "connected");
  '(connected, runtime) ← run (receive_datagram packet 30001) runtime;
  assert (includes connected (ConnectionStateChanged Connected));;
  '(interrupted, runtime) ← run (poll 60001) runtime;
  assert (includes interrupted (ConnectionStateChanged Interrupted));;
  assert_eq (connection_state runtime) Interrupted.

Definition diagnostics_report_only_content_free_protocol_metadata : test :=
  runtime ← new_runtime 0;
  '(_, runtime) ← run (queue_input (lit "CLIENT_INPUT_SENTINEL")) runtime;
  '(outbound, runtime) ← run (poll 0) runtime;
  assert (existsb (λ a, match a with
    | Diagnostic (FreshUpdatePrepared 1 1 _ 1 21) => true | _ => false end) outbound);;
  '(retransmission, runtime) ← run (poll 1000) runtime;
  assert (existsb (λ a, match a with
    | Diagnostic (RetransmissionPrepared 1 1 _ 1000) => true | _ => false end) retransmission);;
  inbound_packet ← server_packet 1 (lit "SERVER_OUTPUT_SENTINEL");
  '(inbound, runtime) ← run (receive_datagram inbound_packet 300) runtime;
  assert (existsb (λ a, match a with
    | Diagnostic (InboundUpdateAccepted 0 0 1 1 0 _ true) => true | _ => false end) inbound);;
  let rendered := debug_actions outbound ++ debug_actions retransmission ++ debug_actions inbound in
  assert (negb (contains rendered (lit "CLIENT_INPUT_SENTINEL")));;
  assert (negb (contains rendered (lit "SERVER_OUTPUT_SENTINEL")));;
  assert (negb (contains rendered SYNTHETIC_KEY)).

Definition embedding_lifecycle_and_rebind_events_are_structured : test :=
  runtime ← new_runtime 0;
  assert_eq (lifecycle runtime) Running;;
  '(actions, runtime) ← run pause runtime;
  assert_eq actions
    [SessionLifecycleChanged Paused; Diagnostic (DiagSessionLifecycleChanged Paused)];;
  '(error, runtime) ← failing (queue_terminal_event (InputBytes (lit "secret input"))) runtime;
  assert match error with SessionPaused => true | _ => false end;;
  assert_eq (milliseconds_until_next_poll runtime 1) u64_max;;
  '(actions, runtime) ← run (resume_with_actions 2) runtime;
  assert_eq actions
    [SessionLifecycleChanged Running; Diagnostic (DiagSessionLifecycleChanged Running)];;
  '(actions, runtime) ← run notify_udp_rebound runtime;
  assert_eq actions [UdpBindingChanged 1; Diagnostic (DiagUdpBindingChanged 1)];;
  '(actions, runtime) ← run notify_udp_rebound runtime;
  assert_eq (head actions) (Some (UdpBindingChanged 2)).

Definition cancellation_rejects_work_and_terminal_event_debug_redacts_bytes : test :=
  let event := InputBytes (lit "INPUT_EVENT_SENTINEL") in
  assert (negb (contains (TerminalInputEvent_fmt event) (lit "INPUT_EVENT_SENTINEL")));;
  runtime ← new_runtime 0;
  '(_, runtime) ← run (queue_terminal_event event) runtime;
  '(actions, runtime) ← run cancel runtime;
  assert (includes actions (SessionLifecycleChanged Cancelled));;
  '(actions, runtime) ← run (poll 1) runtime;
  assert (is_empty actions);;
  '(error, runtime) ← failing (queue_input []) runtime;
  assert match error with SessionCancelled => true | _ => false end;;
  '(error, runtime) ← failing (receive_datagram [] 1) runtime;
  assert match error with SessionCancelled => true | _ => false end;;
  '(_, runtime) ← run (queue_resize 132 43) runtime;
  assert (is_empty (queued_instructions runtime));;
  '(actions, runtime) ← run notify_udp_rebound runtime;
  assert (is_empty actions).

Definition local_shutdown_uses_reserved_state_and_completes_on_acknowledgement : test :=
  runtime ← new_runtime 0;
  server_channel ← new_server;
  '(_, runtime) ← run (queue_input (lit "final")) runtime;
  '(actions, runtime) ← run (request_shutdown 0) runtime;
  assert (includes actions (Diagnostic ShutdownStarted));;
  '(error, runtime) ← failing (queue_input (lit "late")) runtime;
  assert match error with ShutdownInProgress => true | _ => false end;;
  '(outbound, runtime) ← run (poll 0) runtime;
  update ← decode_sent_update outbound server_channel;
  assert_eq (target_state update) u64_max;;
  assert (existsb (λ a, match a with
    | Diagnostic (FreshUpdatePrepared state_id _ _ _ _) => state_id =? u64_max
    | _ => false end) outbound);;
  acknowledgement ← server_state_packet 0 1 u64_max;
  '(_, runtime) ← run (receive_datagram acknowledgement 1) runtime;
  '(completion, runtime) ← run (poll 1) runtime;
  assert (includes completion (ShutdownComplete Acknowledged));;
  assert_eq (shutdown_outcome runtime) (Some Acknowledged).

Definition peer_shutdown_is_acknowledged_before_completion : test :=
  runtime ← new_runtime 0;
  server_channel ← new_server;
  request ← server_state_packet 0 u64_max 0;
  '(_, runtime) ← run (receive_datagram request 1) runtime;
  '(actions, runtime) ← run (poll 1) runtime;
  acknowledgement ← decode_sent_update actions server_channel;
  assert_eq (acknowledged_state acknowledgement) u64_max;;
  assert (includes actions (ShutdownComplete OutcomePeerRequested));;
  assert_eq (shutdown_outcome runtime) (Some OutcomePeerRequested).

Definition simultaneous_shutdown_still_sends_the_peer_acknowledgement : test :=
  runtime ← new_runtime 0;
  server_channel ← new_server;
  '(_, runtime) ← run (request_shutdown 0) runtime;
  '(initial, runtime) ← run (poll 0) runtime;
  update ← decode_sent_update initial server_channel;
  assert_eq (target_state update) u64_max;;
  peer_request ← server_state_packet 0 u64_max u64_max;
  '(_, runtime) ← run (receive_datagram peer_request 1) runtime;
  '(completion, runtime) ← run (poll 1) runtime;
  acknowledgement ← decode_sent_update completion server_channel;
  assert_eq (base_state acknowledgement, target_state acknowledgement,
             acknowledged_state acknowledgement) (u64_max, u64_max, u64_max);;
  assert (includes completion (ShutdownComplete OutcomePeerRequested)).

Definition local_shutdown_has_a_bounded_acknowledgement_timeout : test :=
  runtime ← new_runtime 0;
  '(_, runtime) ← run (request_shutdown 0) runtime;
  '(_, runtime) ← run (poll 0) runtime;
  '(completion, runtime) ← run (poll SHUTDOWN_TIMEOUT_MILLISECONDS) runtime;
  assert (includes completion (ShutdownComplete TimedOut));;
  assert_eq (milliseconds_until_next_poll runtime 20000) u64_max.
End tests.

From S2P Require Import Reference PaperTerminal.
#[local] Existing Instances paper_vt100 paper_vte.

Example runtime_tests_pass :
  Forall (λ t, t = passed)
    [immediate_acknowledgement_and_retransmission_are_deterministic;
     input_is_bounded_and_network_silence_is_recoverable;
     rapid_resize_sends_only_the_latest_dimensions; resize_coalescing_preserves_input_order;
     round_trip_samples_drive_mosh_go_retransmit_bounds;
     timestamp_only_heartbeat_updates_liveness_and_round_trip_time;
     negotiated_session_control_is_exposed_and_can_be_queued;
     remote_session_control_preserves_instruction_order;
     duplicate_remote_state_does_not_start_an_acknowledgement_loop;
     new_input_waits_for_the_single_in_flight_state;
     resume_prevents_sleep_interval_from_becoming_server_timeout;
     server_echo_ack_is_exposed_to_the_prediction_host;
     authoritative_server_resize_is_exposed_to_the_host;
     connection_events_distinguish_initial_and_interrupted_sessions;
     diagnostics_report_only_content_free_protocol_metadata;
     action_debug_redacts_datagram_and_terminal_bytes;
     embedding_lifecycle_and_rebind_events_are_structured;
     cancellation_rejects_work_and_terminal_event_debug_redacts_bytes;
     local_shutdown_uses_reserved_state_and_completes_on_acknowledgement;
     peer_shutdown_is_acknowledged_before_completion;
     simultaneous_shutdown_still_sends_the_peer_acknowledgement;
     local_shutdown_has_a_bounded_acknowledgement_timeout].
Proof. run_tests. Qed.
