(* ===== verification/LabTests.v ===== *)
(** * The unit tests of [crates/ferrumtty-lab]

    Those of [src/main.rs], [src/ocb_probe.rs] and [src/protobuf_probe.rs]. *)
From S2P Require Import Prelude Conformance Lab.
Local Open Scope Z_scope.

#[local] Instance SecretText_eq_dec : EqDecision SecretText.
Proof. solve_decision. Defined.
#[local] Instance ConnectAnnouncement_eq_dec : EqDecision ConnectAnnouncement.
Proof. solve_decision. Defined.
#[local] Instance AnnouncementError_eq_dec : EqDecision AnnouncementError.
Proof. solve_decision. Defined.

Definition SYNTHETIC_KEY : bytes := lit "AAECAwQFBgcICQoLDA0ODw".

(** ** [src/main.rs] *)
Definition parses_documented_startup_shape : test :=
  let line := lit "MOSH CONNECT 60001 " ++ SYNTHETIC_KEY in
  assert_eq (parse_connect_announcement line)
    (Ok (mkConnectAnnouncement 60001 (mkSecretText SYNTHETIC_KEY))).

Definition rejects_zero_port : test :=
  let line := lit "MOSH CONNECT 0 " ++ SYNTHETIC_KEY in
  assert_eq (parse_connect_announcement line) (Err AnnouncementPort).

Definition rejects_key_with_unexpected_shape : test :=
  assert_eq (parse_connect_announcement (lit "MOSH CONNECT 60001 not-a-session-key"))
    (Err AnnouncementSessionKey).

Definition debug_output_redacts_session_key : test :=
  let secret := mkSecretText SYNTHETIC_KEY in
  assert_eq (SecretText_fmt secret) (lit "SecretText([REDACTED])").

(** ** [src/ocb_probe.rs] *)
Definition hex_codec_round_trips_bytes : test :=
  let value := [0x00; 0x01; 0xab; 0xff] in
  assert_eq (decode_hex (encode_hex value)) (Ok value).

Definition hex_decoder_rejects_partial_byte : test :=
  assert_eq (decode_hex (lit "0")) (Err (lit "packet hex must contain complete bytes")).

(** ** [src/protobuf_probe.rs] *)
Definition parses_varint_and_bytes_fields : test :=
  fields ← expected (parse_fields [0x08; 0x96; 0x01; 0x12; 0x02; 0xaa; 0xbb]);
  assert_eq (len fields) 2;;
  first ← fields !! 0%nat; second ← fields !! 1%nat;
  assert_eq (field_number first) 1;;
  assert match field_value first with FieldVarint 150 => true | _ => false end;;
  assert_eq (field_number second) 2;;
  assert match field_value second with FieldBytes [0xaa; 0xbb] => true | _ => false end.

Definition rejects_overlong_varint : test :=
  assert (negb (is_ok (probe_varint (replicate 10 0x80)))).

Example lab_tests_pass :
  Forall (λ t, t = passed)
    [parses_documented_startup_shape; rejects_zero_port; rejects_key_with_unexpected_shape;
     debug_output_redacts_session_key; hex_codec_round_trips_bytes; hex_decoder_rejects_partial_byte;
     parses_varint_and_bytes_fields; rejects_overlong_varint].
Proof. run_tests. Qed.
